(* ===== verification/_CoqProject ===== *)
-Q . S2P
Prelude.v
Strings.v
Args.v
Parse.v
Vector.v
Vectors.v
RangePrint.v
IpTools.v
Csv.v
Raii.v
LockThreads.v
EnvVar.v
TempDir.v
DataHash.v
HashText.v
Dns.v
DnsThreads.v
DnsWin.v
Logger.v
LogSinks.v
LogSystem.v
DeadLock.v
FileTrigger.v
FileTail.v
TriggerLife.v
HttpClient.v
Signals.v
Barrier.v
MultiProc.v
Children.v
TestProgram.v
WinRunner.v
RunnerMain.v
Url.v
Math.v
ParseFloat.v
TimeZone.v
RoBuffer.v
Report.v
SpfResolver.v
