(* ===== verification/Prelude.v ===== *)
(** * Verification of nstl, a C++20 extension library

    The library (src/nstl/nstl) is a set of small components that a server
    program composes: strings and parsing, a growable vector, IP ranges, DNS
    lookups, CSV reading and writing, hashing, RAII owners for handles, files and
    environment variables, logging, dead-lock detection, file watching, signals and
    an HTTP client; bin holds runners that start a command many times.  This
    development translates them to executable definitions and proves what makes
    each of them correct.

    ** Conventions

    A call that may throw returns [res] (a value or an exception [exn]); a method
    that changes objects is a function of the monad [M S], whose state survives
    an exception as the objects of the C++ program do.  Breaking a precondition
    of the language or of a library is the exception [UndefinedBehaviour], so a
    theorem that a call never ends in it is a memory-safety theorem.  Unsigned
    integers are [Z] with the wrap-around written out ([wrap]); characters are
    [ascii], buffers of [unsigned char] are lists of [Z] below 256.  Objects that
    are shared or moved live in a store ([gmap]) under a name, and the operations
    take names, so that aliasing and moved-from objects are visible.  Threads are
    step relations whose steps are the critical sections of the code.

    The operating system, OpenSSL, CommonCrypto, Boost, libcurl, the resolver and
    the time zone database are parameters of the definitions; what the code
    relies on is a named hypothesis or a class, and the witness of each theorem
    instantiates them with concrete functions.

    ** Files

    - [Prelude]: exceptions and monads, machine integers, characters, streams,
      blocks of memory, tactics and the hint database.
    - [Strings]: string.hpp ([NString]: split, trim, case-insensitive equality),
      safe_basename.hpp ([Basename]), secure_string.hpp ([SecureString]), and the
      [std::string_view] operations they use ([View]).
    - [Args]: args_editor.cpp, a flag looked up and removed from [argv].
    - [Parse]: parse.hpp, integers of every width and booleans from text, with
      the printing they invert.
    - [Vector]: vector.hpp, [nstl::vector] over allocated blocks of storage; [Vectors]:
      programs over several of them in one heap.
    - [RangePrint]: range_print.hpp, the printing of a range ([RangePrint]) and the
      objects with iterators that the functions return ([Streamers]).
    - [IpTools]: ip_tools.hpp and ip_tools.cpp, masks, ranges, order, text form.
    - [Csv]: csv_dict_reader.hpp and csv_dict_reader.cpp, reader and writer.
    - [Raii]: handle_raii.hpp ([Handle], with the tools of a handle type as a
      class), scope_exit.hpp ([ScopeExit]), unlock_guard.hpp ([UnlockGuard]),
      memory.hpp ([Observer]).
    - [LockThreads]: unlock_guard.hpp among threads, as a step relation over the owners
      of mutexes with the back-off of [std::lock].
    - [EnvVar]: env_var_raii.cpp, variables set for a scope.
    - [TempDir]: temp_dir.cpp, temporary directories and files over a file system.
    - [DataHash]: base64.hpp ([Base64]), datahash.cpp and its backends
      ([DataHash]); a class states what a hasher promises, the OpenSSL, macOS and
      Windows hashers are its instances, and hashing a file is verified against it.
    - [HashText]: the overloads of [add] for text and views ([Input]), the text of a
      digest and of a hash type ([Text]), the provider that each thread of
      the Windows backend owns ([CryptHandles]) and the contexts of the OpenSSL
      backend ([EvpHandles]).
    - [Dns]: dns_tools.cpp and dns_tools_posix.cpp, names and addresses, the
      query loop, the decoding of MX, TXT, CNAME, SRV and SVCB records.
    - [DnsThreads]: the client each thread has and the public lookups of
      dns_tools_posix.cpp, in any interleaving of threads.
    - [DnsWin]: dns_tools_w32.cpp, the same queries over the record lists that
      Windows allocates.
    - [Logger]: logging.cpp ([Level], [Format]), logger.cpp ([Queue], the
      asynchronous writer; [Stack], the stack of loggers).
    - [LogSinks]: the calls of logger.cpp that end the process ([Terminate]), its log
      files and the throttle ([Sink]).
    - [LogSystem]: the whole logging system, composed of [Format], [Stack], [Queue] and
      [Sink]: loggers made and destroyed, the macros of logging.hpp, the trace
      callback of the HTTP client that logs through them.
    - [DeadLock]: dead_lock_detect.cpp ([Checker], [Runner]).
    - [FileTrigger]: file_trigger_linux.cpp, the constructor, the epoll worker and
      [stop] with writers in between.
    - [FileTail]: the contract of a file trigger as an abstract machine ([Tail]) and
      a class; its instances are the Linux trigger, file_trigger_apple.cpp ([Apple])
      and file_trigger_win32.cpp ([Win32]).
    - [TriggerLife]: the factories, constructors and destructors of the three triggers
      over a table of open handles ([Owners], [Posix], [Windows]), programs over
      them ([Programs]) and the end of the worker ([Worker]).
    - [HttpClient]: http_client.cpp, clients, handles, header lists and requests.
    - [Signals]: signal_barrier_common.cpp ([SigVal]), global_init.cpp
      ([GlobalInit]), signal_barrier.cpp ([Polling], the barrier of macOS and
      Windows), signal_barrier_linux.cpp ([Epoll]).
    - [Barrier]: the contract of the class of signal_barrier.hpp, with the barriers of
      Linux, macOS and Windows as instances.
    - [MultiProc]: bin/main_linux.cpp ([Proc], the record of a child; [Spawn], how
      the children are started; [Multi], the event loop with the children as a
      step relation) and bin/main_macos.cpp ([Spawn], [MacMulti]).
    - [Children]: the processes that the Linux and the macOS runner fork, with their output,
      their blocked signals and their ends.
    - [TestProgram]: bin/test/main_test.cpp, which composes [GlobalInit], [EnvVar], [Args],
      [RangePrint] and a barrier, over the contract of the latter.
    - [WinRunner]: bin/main_win32.cpp ([Block], the command line and environment
      block of a child; [Runner], the vectors of handles and the loop of [main]).
    - [RunnerMain]: [main] of bin/main_linux.cpp, bin/main_macos.cpp and
      bin/main_win32.cpp as whole programs over [MultiProc] and [WinRunner], against one contract.
    - [Url]: the URL expression of http_client.cpp ([Url]) over a backtracking
      matcher with capture groups ([Regex]).
    - [Math]: math.hpp and math.cpp, over the IEEE formats of [SpecFloat].
    - [ParseFloat]: the floating-point targets of parse.hpp: the text [std::from_chars]
      accepts ([Scan]), the nearest value of an IEEE format ([Nearest]) and the
      function of the library ([ParseFloat]).
    - [TimeZone]: c_timezone.hpp and c_timezone.cpp, over a class that states what
      the calendar functions of the C library promise.
    - [RoBuffer]: ro_buffer.hpp, a stream buffer over memory of somebody else.
    - [Report]: exception.hpp and macros.hpp ([Exceptions]) and the making and printing
      of back traces ([Backtrace]).
    - [SpfResolver]: spf_resolver/main.cpp.

    ** What the theorems show

    - Refinement: programs over any number of vectors do what the same programs over
      lists do, over storage that is never shared and freed once; the file
      triggers of the three systems all refine one machine that hands on the file
      from an offset; a stream over a read-only buffer reads as a cursor in its text;
      every statement that the logging system accepts is written, as the line its
      level, place and time determine, to the file or stream of the logger on top;
      the Linux, macOS and Windows runners meet one contract from arguments to exit code.
    - Equivalence: the three hashers give the same digest of the same messages; the
      POSIX and the Windows resolver decode the same SVCB parameters; the Linux and
      macOS runners start the same children.
    - Round trips: CSV rows written are read back; IP ranges, integers, base64
      text and SVCB parameters are recovered from their text or wire form; an instant from its local time.
    - Resources: handles, temporary files and directories, environment variables, HTTP handles and
      header lists are released exactly once in every program over their owners,
      also when calls throw; the Windows resolver frees each record list once; the
      Windows runner closes each process and thread handle once, but not the events
      that a wait reported; whatever a factory of a file trigger throws, the handles
      it opened are closed, on each of the three systems.
    - Interleavings: threads that open one scope of [unlock_guard] at a time never block
      each other (that they meet no live-lock is not claimed); the lookups of many threads all end and do not affect each other, and a
      thread closes its resolver state; the asynchronous logger writes accepted lines in order and
      without loss and finishes after [stop], its queue is bounded by the throttle, and
      a call at the level Terminate that stopped the writer aborts only after its line
      was written; a dead-lock runner returns after [stop], whatever the other threads do; a file trigger hands on every byte
      appended to its file exactly once, misses no change and ends after [stop];
      the Linux runner forwards all output of its children, never sleeps through
      the end of one, and exits with the code of the first that failed.
    - Signals: one [global_init] at most succeeds and its end undoes it; a wait
      returns the first signal, or nothing when its time is over, and gives back
      the descriptors it opened; on each of the three systems the test program ends
      with the code its argument and the signal determine.
    - Function: splitting, trimming, masks, containment, orders, record decoding,
      hashing in pieces, dead-lock reports, HTTP requests, the groups of a URL and
      rounding within its range equal their specifications on every branch; a decimal
      text is parsed to the nearest value of the floating-point format; the text of
      a digest determines its bytes and its type.
    - Deviations: the commands of the Linux runner are started with the signals blocked by
      which it would end them, threads with nested scopes of [unlock_guard] can dead-lock, compressed DNS names are cut, a context of OpenSSL is lost when the
      constructor of a hasher throws, and a resolver state when that of a client does, a hash buffer of 2^32 bytes is cut
      to none on Windows and macOS, a moved HTTP client writes its errors to the wrong
      object, the macOS file trigger misses what is appended before its watch is registered,
      the Windows runner splits an argument at its blanks, a barrier leaves its console handler
      registered, a written CSV row that begins with the comment character is lost to the
      reader, the reset of an HTTP client forgets its error buffer, a value near zero never
      equals zero, the second before the epoch is taken for an error, two lines of the
      level Terminate at once can both be lost, and line
      numbers of a back trace turn hexadecimal after the first frame; each is a
      theorem about the code as it is.

    ** Fuel and bounds

    Loops that are not structural take fuel: the text loops get the length of the
    text, the SVCB loops the length of the record plus one, each step consuming
    at least one byte; the DNS query loop gets the number of times its buffer can
    grow; the file reading loop gets the length of the content plus one; the polling
    wait gets the timeout divided by the period plus two, the epoll loops the number
    of answers the kernel has left plus one.  The
    theorems about these loops state that the fuel given is enough, so that the
    result is the one of the unbounded loop.  The theorems about the log queue hold
    for fewer than 2^63 lines, the width of its counters.  Allocation is bounded by [size_max]
    and failure to allocate is an exception.

    ** What is not modelled

    Libraries and systems are parameters, as said above: this includes the walking of the
    stack behind a back trace and the command-line parser of Boost.  The pragmas of
    compiler.hpp, the version constant that the build generates, declarations repeated
    in the headers, the wrappers that choose the name of a C function by platform, the tests
    and the probes of the build system have no definitions. *)

From Stdlib Require String.
From Stdlib Require Export Ascii ZArith Lia.
From stdpp Require Export prelude base tactics list gmap sets strings numbers option.

(** ** Exceptions and results *)

(** The C++ exception classes the library throws.  The string is the literal
    part of the message the source streams into the exception.  [Terminated] is the
    end of the process inside a call, by [std::terminate] or a signal, and
    [UndefinedBehaviour] a call without a meaning. *)
Inductive exn : Type :=
| NstlException (what : string)
| LengthError (what : string)
| BadAlloc
| RuntimeError (what : string)
| InvalidArgument (what : string)
| OutOfRange (what : string)
| Terminated (what : string)
| UndefinedBehaviour (what : string).

#[export] Instance exn_eq_dec : EqDecision exn.
Proof. solve_decision. Defined.

(** The outcome of a call: a value or an exception. *)
Inductive res (A : Type) : Type :=
| Ok (a : A)
| Throw (e : exn).
Arguments Ok {A} _.
Arguments Throw {A} _.

#[export] Instance res_eq_dec `{EqDecision A} : EqDecision (res A).
Proof. solve_decision. Defined.

#[export] Instance res_ret : MRet res := λ A a, Ok a.
#[export] Instance res_bind : MBind res := λ A B f m,
  match m with Ok a => f a | Throw e => Throw e end.
#[export] Instance res_fmap : FMap res := λ A B f m,
  match m with Ok a => Ok (f a) | Throw e => Throw e end.

(** [NSTL2_THROW_EXCEPTION_IF] and [NSTL_THROW_EXCEPTION_IF]. *)
Definition throw_if (b : bool) (e : exn) : res () := if b then Throw e else Ok ().

(** Stateful code that may throw: the state survives the exception, as the
    objects a C++ method mutated before it threw do. *)
Definition M (S A : Type) : Type := S → S * res A.

#[export] Instance M_ret {S} : MRet (M S) := λ A a s, (s, Ok a).
#[export] Instance M_bind {S} : MBind (M S) := λ A B f m s,
  match m s with
  | (s', Ok a) => f a s'
  | (s', Throw e) => (s', Throw e)
  end.

Definition mthrow {S A} (e : exn) : M S A := λ s, (s, Throw e).
(** A call without state inside stateful code. *)
Definition mlift {S A} (r : res A) : M S A := λ s, (s, r).
Definition mthrow_if {S} (b : bool) (e : exn) : M S () :=
  λ s, (s, if b then Throw e else Ok ()).
Definition mget {S} : M S S := λ s, (s, Ok s).
Definition mput {S} (s' : S) : M S () := λ _, (s', Ok ()).
Definition mgets {S A} (f : S → A) : M S A := λ s, (s, Ok (f s)).
Definition mmodify {S} (f : S → S) : M S () := λ s, (f s, Ok ()).

Definition res_is_ok {A} (r : res A) : bool :=
  match r with Ok _ => true | Throw _ => false end.

(** ** Machine integers *)

(** Wrap-around of a [w]-bit unsigned integer. *)
Definition wrap (w z : Z) : Z := z `mod` 2 ^ w.
Definition size_max : Z := 2 ^ 64 - 1.
Definition u8 (z : Z) : Prop := (0 ≤ z < 256)%Z.
#[export] Instance u8_dec z : Decision (u8 z).
Proof. unfold u8. apply _. Defined.

(** ** Characters and strings *)

(** A [std::string] or [std::string_view] is its list of [char]s. *)
Abbreviation str := (list ascii).
(** A string literal. *)
Definition lit (s : string) : str := String.list_ascii_of_string s.
(** The value of a [char] as an [unsigned char]. *)
Definition code (c : ascii) : Z := Z.of_N (N_of_ascii c).

Lemma code_range c : u8 (code c).
Proof. unfold u8, code. pose proof (N_ascii_bounded c). lia. Qed.

Lemma code_inj c d : code c = code d → c = d.
Proof.
  unfold code. intros H%N2Z.inj.
  by rewrite <-(ascii_N_embedding c), <-(ascii_N_embedding d), H.
Qed.

(** A buffer of [unsigned char]s, and the [char]s it holds. *)
Abbreviation bytes := (list Z).
Definition chr (b : Z) : ascii := ascii_of_N (Z.to_N b).

Lemma chr_code c : chr (code c) = c.
Proof. unfold chr, code. by rewrite N2Z.id, ascii_N_embedding. Qed.

Lemma chr_codes (s : str) : chr <$> (code <$> s) = s.
Proof. rewrite <-list_fmap_compose. induction s as [|c s IH]; csimpl; [done|]. by rewrite IH, chr_code. Qed.

Lemma code_chr b : u8 b → code (chr b) = b.
Proof. unfold u8, chr, code. intros Hb. rewrite N_ascii_embedding by lia. lia. Qed.

Lemma codes_chr (l : bytes) : Forall u8 l → code <$> (chr <$> l) = l.
Proof. induction 1 as [|b l Hb Hl IH]; csimpl; [done|]. by rewrite IH, code_chr. Qed.

(** ** C strings and streams *)

(** The text of a NUL-terminated buffer. *)
Fixpoint cut_nul (s : str) : str :=
  match s with
  | [] => []
  | c :: s' => if decide (c = "000"%char) then [] else c :: cut_nul s'
  end.

(** An output stream: what was written, and its [failbit]. *)
Record ostream := OStream { os_out : str; os_fail : bool }.
Definition os_write (os : ostream) (s : str) : ostream :=
  if os_fail os then os else OStream (os_out os ++ s) false.
Definition os_setfail (os : ostream) : ostream := OStream (os_out os) true.

Lemma add_remove `{Countable A} (X : gset A) x : x ∉ X → (X ∪ {[x]}) ∖ {[x]} = X.
Proof. intros Hx. apply set_eq. intros y. destruct (decide (y = x)); set_solver. Qed.

Lemma omap_id_fmap {A B} (f : A → option B) (l : list A) : omap id (f <$> l) = omap f l.
Proof. induction l as [|x l IH]; csimpl; [done|]. rewrite IH. by destruct (f x). Qed.

Lemma cut_nul_plain s : "000"%char ∉ s → cut_nul s = s.
Proof.
  induction s as [|c s IH]; simpl; intros H; [done|].
  rewrite decide_False by set_solver. rewrite IH by set_solver. done.
Qed.

Lemma os_write_app os a b : os_write (os_write os a) b = os_write os (a ++ b).
Proof. unfold os_write. destruct os as [o []]; simpl; [done|]. by rewrite app_assoc. Qed.

Lemma os_write_nil os : os_write os [] = os.
Proof. unfold os_write. destruct os as [o []]; simpl; [done|]. by rewrite app_nil_r. Qed.

(** An input stream over the characters left to read, and its [eofbit]. *)
Record istream := IStream { is_rest : str; is_eof : bool }.

(** The characters up to a newline, whether there was one, and what follows. *)
Fixpoint take_line (s : str) : str * bool * str :=
  match s with
  | [] => ([], false, [])
  | c :: s' =>
    if decide (c = "010"%char) then ([], true, s')
    else let '(l, nl, rest) := take_line s' in (c :: l, nl, rest)
  end.

(** [std::getline]: the line and the stream after it; [None] when the stream is
    already at its end or nothing could be extracted. *)
Definition getline (iss : istream) : option str * istream :=
  if is_eof iss then (None, iss)
  else match take_line (is_rest iss) with
  | ([], false, _) => (None, IStream [] true)
  | (l, nl, rest) => (Some l, IStream rest (negb nl))
  end.

Lemma take_line_newline l rest :
  "010"%char ∉ l → take_line (l ++ ("010"%char :: rest)) = (l, true, rest).
Proof.
  induction l as [|c l IH]; intros Hl; simpl; [done|].
  rewrite decide_False by set_solver. by rewrite IH by set_solver.
Qed.

Lemma getline_newline l rest :
  "010"%char ∉ l → getline (IStream (l ++ ("010"%char :: rest)) false) = (Some l, IStream rest false).
Proof. intros Hl. unfold getline; simpl. rewrite take_line_newline by done. by destruct l. Qed.

(** ** Proof automation *)

Create HintDb nstl.
#[export] Hint Resolve code_range : nstl.

(** Case analysis on the boolean tests and matches of the goal, with the
    tests reflected to propositions. *)
Ltac case_bool :=
  repeat match goal with
  | H : context [bool_decide ?P] |- _ => destruct (bool_decide_reflect P)
  | |- context [bool_decide ?P] => destruct (bool_decide_reflect P)
  | H : context [(?x =? ?y)%Z] |- _ => destruct (Z.eqb_spec x y)
  | |- context [(?x =? ?y)%Z] => destruct (Z.eqb_spec x y)
  | H : context [(?x <? ?y)%Z] |- _ => destruct (Z.ltb_spec x y)
  | |- context [(?x <? ?y)%Z] => destruct (Z.ltb_spec x y)
  | H : context [(?x <=? ?y)%Z] |- _ => destruct (Z.leb_spec x y)
  | |- context [(?x <=? ?y)%Z] => destruct (Z.leb_spec x y)
  | H : context [(?x =? ?y)%nat] |- _ => destruct (Nat.eqb_spec x y)
  | |- context [(?x =? ?y)%nat] => destruct (Nat.eqb_spec x y)
  | H : context [(?x <? ?y)%nat] |- _ => destruct (Nat.ltb_spec x y)
  | |- context [(?x <? ?y)%nat] => destruct (Nat.ltb_spec x y)
  | H : context [(?x <=? ?y)%nat] |- _ => destruct (Nat.leb_spec x y)
  | |- context [(?x <=? ?y)%nat] => destruct (Nat.leb_spec x y)
  end.

(** Unfold the plumbing of the state and exception monads. *)
Ltac munfold :=
  unfold mbind, mret, fmap, M_bind, M_ret, res_bind, res_ret, res_fmap,
    mthrow, mthrow_if, mlift, mget, mput, mgets, mmodify, throw_if in *; simpl in *.

Ltac munfold_goal :=
  unfold mbind, mret, fmap, M_bind, M_ret, res_bind, res_ret, res_fmap,
    mthrow, mthrow_if, mlift, mget, mput, mgets, mmodify, throw_if; simpl.

(** ** Lists and blocks of memory *)

Section lists.
Context {A : Type}.
Implicit Types l : list A.

(** Reading the next [d] of a file from offset [n] on. *)
Lemma take_read l d n :
  n ≤ length l → d `prefix_of` drop n l →
  n + length d ≤ length l ∧ take (n + length d) l = take n l ++ d.
Proof.
  intros Hp [k Hk].
  pose proof (f_equal length Hk) as Hlen. rewrite length_drop, length_app in Hlen.
  split; [lia|]. rewrite <-(take_drop n l) at 1. rewrite Hk.
  rewrite take_app_ge; rewrite length_take_le by lia; [|lia]. f_equal.
  rewrite take_app_le by lia. by rewrite take_ge by lia.
Qed.

(** [std::memmove(p + dst, p + src, n)] inside one block, in elements. *)
Definition memmove (l : list A) (dst src n : nat) : list A :=
  take dst l ++ take n (drop src l) ++ drop (dst + n) l.

(** Moving the tail [m] of a block over the gap [g] before it. *)
Lemma memmove_gap pre g m post :
  memmove (pre ++ g ++ m ++ post) (length pre) (length pre + length g) (length m) =
  pre ++ m ++ drop (length m) (g ++ m ++ post).
Proof.
  unfold memmove. rewrite take_app_length, <-!drop_drop, drop_app_length.
  by rewrite drop_app_length, take_app_length.
Qed.

Lemma length_memmove l dst src n :
  dst + n ≤ length l → src + n ≤ length l → length (memmove l dst src n) = length l.
Proof.
  intros. unfold memmove.
  rewrite !length_app, !length_take, !length_drop. lia.
Qed.
End lists.
