(* ===== verification/Strings.v ===== *)
(** * String helpers

    [string.hpp] (splitting, trimming, case-insensitive comparison),
    [safe_basename.hpp] and [secure_string.hpp], over the operations of
    [std::string_view] and of the C string library they call.  The narrow
    instantiation ([CharT = char]) is modelled, in the "C" locale. *)

From S2P Require Import Prelude.

(** ** The operations of [std::string_view] the library uses *)
Module View.

(** [view.find(ch, pos)]; [None] is [npos]. *)
Fixpoint find_from (v : str) (c : ascii) (i : nat) : option nat :=
  match v with
  | [] => None
  | x :: v' => if decide (x = c) then Some i else find_from v' c (S i)
  end.
Definition find (v : str) (c : ascii) (pos : nat) : option nat :=
  find_from (drop pos v) c pos.

(** [view.rfind(ch)]. *)
Fixpoint rfind (v : str) (c : ascii) : option nat :=
  match v with
  | [] => None
  | x :: v' =>
    match rfind v' c with
    | Some i => Some (S i)
    | None => if decide (x = c) then Some 0 else None
    end
  end.

(** [view.substr(pos)] for [pos <= size], and [view.substr(pos, n)]. *)
Definition substr (v : str) (pos : nat) : str := drop pos v.
Definition substr_n (v : str) (pos n : nat) : str := take n (drop pos v).

(** [view.starts_with(prefix)]. *)
Fixpoint starts_with (v p : str) {struct p} : bool :=
  match p, v with
  | [], _ => true
  | c :: p', x :: v' => bool_decide (x = c) && starts_with v' p'
  | _ :: _, [] => false
  end.

Definition empty (v : str) : bool := match v with [] => true | _ => false end.

(** [view.find_first_of(chars)] against a set of characters. *)
Definition find_first_of (v : str) (cs : str) : option nat :=
  fst <$> list_find (λ c, c ∈ cs) v.

Lemma find_from_Some v c i p :
  find_from v c i = Some p →
  ∃ a b, v = a ++ (c :: b) ∧ c ∉ a ∧ p = i + length a.
Proof.
  revert i. induction v as [|x v IH]; intros i; simpl; [done|].
  case_decide as Hx; intros Hf; simplify_eq.
  - exists [], v. split_and!; [done|set_solver|simpl; lia].
  - destruct (IH _ Hf) as (a & b & -> & Ha & ->).
    exists (x :: a), b. split_and!; [done|set_solver|simpl; lia].
Qed.

Lemma find_from_at a c b i : c ∉ a → find_from (a ++ (c :: b)) c i = Some (i + length a).
Proof.
  revert i. induction a as [|x a IH]; intros i Ha; simpl.
  - rewrite decide_True by done. f_equal. lia.
  - rewrite decide_False by set_solver. rewrite IH by set_solver. f_equal. lia.
Qed.

Lemma find_from_None v c i : find_from v c i = None → c ∉ v.
Proof.
  revert i. induction v as [|x v IH]; intros i; simpl; [set_solver|].
  case_decide; intros Hf; [done|]. apply IH in Hf. set_solver.
Qed.

Lemma rfind_Some v c p :
  rfind v c = Some p → ∃ a b, v = a ++ (c :: b) ∧ c ∉ b ∧ p = length a.
Proof.
  revert p. induction v as [|x v IH]; intros p; simpl; [done|].
  destruct (rfind v c) as [i|] eqn:E.
  - intros [= <-]. destruct (IH _ eq_refl) as (a & b & -> & Hb & ->).
    by exists (x :: a), b.
  - case_decide; intros [= <-]; subst. exists [], v. split_and!; try done.
    clear IH. induction v as [|y v IHv]; simpl in *; [set_solver|].
    destruct (rfind v c); [done|]. case_decide; [done|]. set_solver.
Qed.

Lemma rfind_None v c : rfind v c = None → c ∉ v.
Proof.
  induction v as [|x v IH]; simpl; [set_solver|].
  destruct (rfind v c); [done|]. case_decide; [done|]. set_solver.
Qed.

Lemma starts_with_spec v p : starts_with v p = true ↔ ∃ r, v = p ++ r.
Proof.
  revert v. induction p as [|c p IH]; intros v; simpl.
  - split; [intros _; by exists v|done].
  - destruct v as [|x v].
    { split; [done|]. intros [r Hr]. done. }
    rewrite andb_true_iff, bool_decide_eq_true, IH. split.
    + intros [-> [r ->]]. by exists r.
    + intros [r [= -> ->]]. eauto.
Qed.

Lemma find_first_of_None v cs : find_first_of v cs = None ↔ Forall (λ c, c ∉ cs) v.
Proof. unfold find_first_of. rewrite fmap_None, list_find_None. done. Qed.
End View.

(** ** string.hpp *)
Module NString.
Import View.

(** [std::isspace] in the "C" locale. *)
Definition is_space_ch (c : ascii) : bool :=
  ((9 <=? code c)%Z && (code c <=? 13)%Z) || (code c =? 32)%Z.

Section split.
Context {S : Type}.
Context (func : str → M S ()).

(** One call of the callback, unless the item is empty and skipped; the
    result is the updated [retval]. *)
Definition split_item (skip_empty : bool) (item : str) (retval : nat) : M S nat :=
  if skip_empty && View.empty item then mret retval
  else func item;; mret (retval + 1).

(** The [for] loop of [split_view_func]: [pos] is the current result of
    [find]; the loop ends with the values of [prev] and [retval]. *)
Fixpoint split_loop (fuel : nat) (view : str) (delim : ascii) (skip_empty : bool)
    (prev retval : nat) (pos : option nat) : M S (nat * nat) :=
  match fuel with
  | O => mthrow (UndefinedBehaviour "split_view_func: out of fuel")
  | Datatypes.S fuel =>
    match pos with
    | None => mret (prev, retval)
    | Some p =>
      let item := if (p =? prev)%nat then [] else substr_n view prev (p - prev) in
      retval' ← split_item skip_empty item retval;
      split_loop fuel view delim skip_empty (p + 1) retval'
        (find view delim (p + 1))
    end
  end.

(** The loop runs at most once per delimiter, so [length view + 1] is
    enough fuel. *)
Definition split_view_func (view : str) (delim : ascii) (skip_empty : bool) : M S nat :=
  '(prev, retval) ← split_loop (Datatypes.S (length view)) view delim skip_empty 0 0
                      (find view delim 0);
  let item := if (prev <? length view)%nat then substr view prev else [] in
  split_item skip_empty item retval.
End split.

(** The loops of the trim functions: each iteration drops one character, so
    the size of the view bounds them. *)
Fixpoint right_trim_loop (fuel : nat) (v : str) : str :=
  match fuel with
  | O => v
  | S fuel =>
    match list.last v with
    | Some c => if is_space_ch c then right_trim_loop fuel (take (length v - 1) v) else v
    | None => v
    end
  end.
Definition right_trim_view (v : str) : str := right_trim_loop (length v) v.

Fixpoint left_trim_loop (fuel : nat) (v : str) : str :=
  match fuel with
  | O => v
  | S fuel =>
    match head v with
    | Some c => if is_space_ch c then left_trim_loop fuel (substr v 1) else v
    | None => v
    end
  end.
Definition left_trim_view (v : str) : str := left_trim_loop (length v) v.

Definition trim_view (v : str) : str := right_trim_view (left_trim_view v).

(** [std::tolower] on the [int] a plain [char] converts to.  The C library
    defines it on the values of [unsigned char] and on [EOF]; on a platform
    where [char] is signed, a character above 127 converts to a negative
    value. *)
Definition tolower (char_signed : bool) (c : ascii) : res Z :=
  let z := if char_signed && (128 <=? code c)%Z then (code c - 256)%Z else code c in
  if (z =? -1)%Z then Ok z
  else if (z <? 0)%Z then Throw (UndefinedBehaviour "tolower of a negative value")
  else if ((65 <=? z) && (z <=? 90))%Z then Ok (z + 32)%Z
  else Ok z.

Fixpoint iequal_loop (char_signed : bool) (l r : str) : res bool :=
  match l, r with
  | x :: l', y :: r' =>
    a ← tolower char_signed x;
    b ← tolower char_signed y;
    if negb (a =? b)%Z then Ok false else iequal_loop char_signed l' r'
  | _, _ => Ok true
  end.

Definition iequal (char_signed : bool) (left right : str) : res bool :=
  if negb (length left =? length right)%nat then Ok false
  else iequal_loop char_signed left right.

(** *** Specification and properties *)

(** [items] put back together around the delimiter. *)
Fixpoint join (delim : ascii) (items : list str) : str :=
  match items with
  | [] => []
  | [i] => i
  | i :: rest => i ++ (delim :: join delim rest)
  end.

(** The callback run over a list of items, in order; the count of the calls. *)
Fixpoint run_items {S} (func : str → M S ()) (items : list str) (n : nat) : M S nat :=
  match items with
  | [] => mret n
  | i :: rest => func i;; run_items func rest (n + 1)
  end.

(** The items a call visits. *)
Definition visited (skip_empty : bool) (items : list str) : list str :=
  if skip_empty then filter (λ i, i ≠ []) items else items.

(** The delimited pieces of a view. *)
Fixpoint pieces (delim : ascii) (v : str) : list str :=
  match v with
  | [] => [[]]
  | x :: v' =>
    if decide (x = delim) then [] :: pieces delim v'
    else match pieces delim v' with
         | f :: fs => (x :: f) :: fs
         | [] => [[x]]
         end
  end.

Lemma pieces_app delim a b :
  delim ∉ a → pieces delim (a ++ (delim :: b)) = a :: pieces delim b.
Proof.
  induction a as [|x a IH]; intros Ha; simpl.
  - by rewrite decide_True.
  - rewrite decide_False by set_solver. rewrite IH by set_solver. done.
Qed.

Lemma pieces_last delim a : delim ∉ a → pieces delim a = [a].
Proof.
  induction a as [|x a IH]; intros Ha; simpl; [done|].
  rewrite decide_False by set_solver. rewrite IH by set_solver. done.
Qed.

Lemma pieces_not_nil delim v : pieces delim v ≠ [].
Proof.
  destruct v as [|x v]; simpl; [done|]. case_decide; [done|].
  by destruct (pieces delim v).
Qed.

Lemma pieces_join delim v : join delim (pieces delim v) = v.
Proof.
  induction v as [|x v IH]; simpl; [done|]. pose proof (pieces_not_nil delim v).
  destruct (pieces delim v) as [|f fs] eqn:E; [done|].
  case_decide; subst; simpl in *; [congruence|].
  destruct fs; simpl in *; congruence.
Qed.

Lemma pieces_free delim v : Forall (λ i, delim ∉ i) (pieces delim v).
Proof.
  induction v as [|x v IH]; simpl; [constructor; set_solver|].
  case_decide; [constructor; set_solver|].
  destruct (pieces delim v); inversion_clear IH; constructor; set_solver.
Qed.

Lemma run_items_cons {S} (func : str → M S ()) skip i rest n s :
  run_items func (visited skip (i :: rest)) n s =
  (n' ← split_item func skip i n; run_items func (visited skip rest) n') s.
Proof.
  unfold split_item, visited. destruct skip; simpl.
  - rewrite filter_cons. destruct i as [|c i]; simpl.
    + done.
    + munfold_goal. by destruct (func _ s) as [? []].
  - munfold_goal. by destruct (func i s) as [? []].
Qed.

Lemma split_loop_spec {S} (func : str → M S ()) view delim skip fuel prev n s :
  prev ≤ length view → length view - prev < fuel →
  ('(p, r) ← split_loop func fuel view delim skip prev n (find view delim prev);
   split_item func skip (if (p <? length view)%nat then substr view p else []) r) s =
  run_items func (visited skip (pieces delim (drop prev view))) n s.
Proof.
  revert prev n s. induction fuel as [|fuel IH]; intros prev n s Hp Hf; [lia|].
  simpl. destruct (find view delim prev) as [p|] eqn:E; unfold find in E.
  - apply find_from_Some in E as (a & b & Hv & Ha & ->).
    assert (drop (prev + length a + 1) view = b) as Hb.
    { rewrite <-Nat.add_assoc, <-drop_drop, Hv, <-drop_drop, drop_app_length.
      done. }
    assert (prev + length a + 1 ≤ length view).
    { apply (f_equal length) in Hv. rewrite length_drop, length_app in Hv. simpl in Hv. lia. }
    assert ((if (prev + length a =? prev)%nat then []
             else substr_n view prev (prev + length a - prev)) = a) as ->.
    { destruct (Nat.eqb_spec (prev + length a) prev) as [E|E].
      - symmetry; apply length_zero_iff_nil; lia.
      - unfold substr_n. rewrite Hv, Nat.add_sub', take_app_length. done. }
    rewrite Hv, pieces_app, run_items_cons by done.
    munfold_goal. destruct (split_item func skip a n s) as [s' [r|e]]; [|done].
    specialize (IH (prev + length a + 1) r s'). rewrite Hb in IH.
    rewrite <-IH by lia. done.
  - apply find_from_None in E. rewrite pieces_last, run_items_cons by done.
    munfold_goal. unfold substr, visited. destruct (Nat.ltb_spec prev (length view)).
    + destruct (split_item func skip _ n s) as [? []]; [|done]. by destruct skip.
    + rewrite drop_ge by lia. destruct (split_item func skip _ n s) as [? []]; [|done].
      by destruct skip.
Qed.

Lemma take_snoc_length {A} (v : list A) c : take (length (v ++ [c]) - 1) (v ++ [c]) = v.
Proof. rewrite length_app, Nat.add_sub. apply take_app_length. Qed.

Lemma right_trim_loop_spec fuel v :
  length v ≤ fuel →
  ∃ sp, v = right_trim_loop fuel v ++ sp ∧ Forall is_space_ch sp ∧
    (∀ c, list.last (right_trim_loop fuel v) = Some c → is_space_ch c = false).
Proof.
  revert v. induction fuel as [|fuel IH]; intros v Hf.
  { destruct v; [|simpl in Hf; lia]. by exists []. }
  simpl. destruct v as [|c v _] using rev_ind; [by exists []|].
  rewrite last_snoc. destruct (is_space_ch c) eqn:E.
  - rewrite take_snoc_length. rewrite length_app in Hf. simpl in Hf.
    destruct (IH v) as (sp & Hv & Hsp & Hl); [lia|].
    exists (sp ++ [c]). rewrite app_assoc, <-Hv. split_and!; [done| |done].
    rewrite Forall_app, Forall_singleton, E. done.
  - exists []. rewrite app_nil_r. split_and!; [done|done|].
    intros d. rewrite last_snoc. naive_solver.
Qed.

Lemma left_trim_loop_spec fuel v :
  length v ≤ fuel →
  ∃ sp, v = sp ++ left_trim_loop fuel v ∧ Forall is_space_ch sp ∧
    (∀ c, head (left_trim_loop fuel v) = Some c → is_space_ch c = false).
Proof.
  revert v. induction fuel as [|fuel IH]; intros [|c v] Hf; simpl in *; try lia;
    try by exists [].
  destruct (is_space_ch c) eqn:E.
  - destruct (IH v) as (sp & Hv & Hsp & Hl); [lia|].
    exists (c :: sp). simpl. split_and!; [congruence| |done].
    constructor; [by rewrite E|done].
  - exists []. split_and!; [done|done|]. simpl. naive_solver.
Qed.

(** [split_view_func] visits exactly the delimiter-free pieces of the view
    (the empty ones left out when [skip_empty] is set), in order, calls the
    callback once per piece, and returns the number of calls; a callback that
    throws stops it with the state reached so far.  The pieces, joined by the
    delimiter, are the view. *)
Theorem split_view_func_correct {S} (func : str → M S ()) view delim skip :
  ∃ items, join delim items = view ∧ Forall (λ i, delim ∉ i) items ∧
    ∀ s, split_view_func func view delim skip s =
         run_items func (visited skip items) 0 s.
Proof.
  exists (pieces delim view).
  split_and!; [apply pieces_join|apply pieces_free|]. intros s.
  pose proof (split_loop_spec func view delim skip (Datatypes.S (length view)) 0 0 s) as H.
  rewrite drop_0 in H. by rewrite <-H by lia.
Qed.

(** [trim_view] removes exactly the leading and the trailing whitespace:
    what it drops is whitespace, and neither end of what it keeps is. *)
Theorem trim_view_correct (v : str) :
  ∃ a b, v = a ++ trim_view v ++ b ∧ Forall is_space_ch a ∧ Forall is_space_ch b ∧
    (∀ c, head (trim_view v) = Some c → is_space_ch c = false) ∧
    (∀ c, list.last (trim_view v) = Some c → is_space_ch c = false).
Proof.
  unfold trim_view, right_trim_view.
  destruct (left_trim_loop_spec (length v) v) as (a & Ha & Hsa & Hha); [done|].
  fold (left_trim_view v) in *. remember (left_trim_view v) as w eqn:Hw. clear Hw.
  destruct (right_trim_loop_spec (length w) w) as (b & Hb & Hsb & Hlb); [done|].
  exists a, b. rewrite <-Hb. split_and!; try done.
  intros c Hc. apply Hha. rewrite Hb. by destruct (right_trim_loop (length w) w).
Qed.

(** The lower-case form of an ASCII letter. *)
Definition lower (c : ascii) : Z :=
  if ((65 <=? code c) && (code c <=? 90))%Z then (code c + 32)%Z else code c.

Lemma tolower_ascii sg c : (code c < 128)%Z → tolower sg c = Ok (lower c).
Proof.
  intros Hc. unfold tolower, lower. pose proof (code_range c) as [? ?].
  destruct (Z.leb_spec 128 (code c)); [lia|]. rewrite andb_false_r.
  destruct (Z.eqb_spec (code c) (-1)); [lia|]. destruct (Z.ltb_spec (code c) 0); [lia|].
  by destruct (_ && _).
Qed.

Lemma iequal_loop_ascii sg l r :
  Forall (λ c, (code c < 128)%Z) l → Forall (λ c, (code c < 128)%Z) r →
  length l = length r →
  iequal_loop sg l r = Ok (bool_decide (map lower l = map lower r)).
Proof.
  intros Hl. revert r. induction Hl as [|x l Hx Hl IH]; intros [|y r] Hr Hlen;
    simpl in *; try lia; [done|].
  inversion_clear Hr. rewrite !tolower_ascii by done. munfold_goal.
  destruct (Z.eqb_spec (lower x) (lower y)); simpl.
  - rewrite IH by auto with lia. f_equal. apply bool_decide_ext. split; congruence.
  - f_equal. symmetry. apply bool_decide_eq_false. congruence.
Qed.

(** On ASCII text [iequal] is equality up to letter case, on every
    platform: it returns, and returns true exactly when the lower-cased texts
    are the same. *)
Theorem iequal_ascii (sg : bool) (l r : str) :
  Forall (λ c, (code c < 128)%Z) l → Forall (λ c, (code c < 128)%Z) r →
  iequal sg l r = Ok (bool_decide (map lower l = map lower r)).
Proof.
  intros Hl Hr. unfold iequal. destruct (Nat.eqb_spec (length l) (length r)); simpl.
  - by apply iequal_loop_ascii.
  - f_equal. symmetry. apply bool_decide_eq_false. intros E%(f_equal length).
    rewrite !length_map in E. done.
Qed.

Lemma iequal_ascii_witness :
  iequal true (lit "Utc") (lit "uTC") = Ok true ∧ iequal true (lit "UTC") (lit "UT1") = Ok false.
Proof.
  split.
  - rewrite (iequal_ascii true (lit "Utc") (lit "uTC")); [reflexivity|..];
      repeat constructor.
  - rewrite (iequal_ascii true (lit "UTC") (lit "UT1")); [reflexivity|..];
      repeat constructor.
Defined.
End NString.

(** ** safe_basename.hpp *)
Module Basename.
Import View.

(** [path_sep] is ['\\'] on Windows and ['/'] elsewhere. *)
Definition path_sep (win32 : bool) : ascii := if win32 then "\"%char else "/"%char.

Definition safe_basename_view (win32 : bool) (filename : str) : str :=
  match rfind filename (path_sep win32) with
  | None => filename
  | Some pos => substr filename (pos + 1)
  end.

(** [safe_basename_view] returns the part of the path after its last
    separator: the result holds no separator, and what precedes it is empty or
    ends in one. *)
Theorem safe_basename_view_correct (win32 : bool) (path : str) :
  path_sep win32 ∉ safe_basename_view win32 path ∧
  (path = safe_basename_view win32 path ∨
   ∃ dir, path = dir ++ [path_sep win32] ++ safe_basename_view win32 path).
Proof.
  unfold safe_basename_view, substr. destruct (rfind path _) as [p|] eqn:E.
  - apply rfind_Some in E as (a & b & -> & Hb & ->).
    assert (drop (length a + 1) (a ++ path_sep win32 :: b) = b) as ->.
    { by rewrite <-drop_drop, drop_app_length. }
    split; [done|]. right. by exists a.
  - apply rfind_None in E. auto.
Qed.
End Basename.

(** ** secure_string.hpp *)
Module SecureString.

(** A [const char*]: null, or the characters before the terminating NUL. *)
Abbreviation cstr := (option str).

(** [std::strcmp], reduced to the sign of its result: characters compare as
    [unsigned char], and a proper prefix is smaller. *)
Fixpoint c_strcmp (l r : str) : Z :=
  match l, r with
  | [], [] => 0
  | [], _ :: _ => -1
  | _ :: _, [] => 1
  | x :: l', y :: r' =>
    if (code x <? code y)%Z then -1
    else if (code y <? code x)%Z then 1
    else c_strcmp l' r'
  end.
Definition c_strncmp (l r : str) (n : nat) : Z := c_strcmp (take n l) (take n r).

Definition strlen (ptr : cstr) : nat :=
  match ptr with Some s => length s | None => 0 end.

Definition strcmp (left right : cstr) : Z :=
  match left, right with
  | Some l, Some r => c_strcmp l r
  | Some _, None => -1
  | None, Some _ => 1
  | None, None => 0
  end.

Definition strncmp (left right : cstr) (max_count : nat) : Z :=
  match left, right with
  | Some l, Some r => c_strncmp l r max_count
  | Some _, None => -1
  | None, Some _ => 1
  | None, None => 0
  end.

(** A null pointer or the buffer it points to. *)
Definition secure_zero (ptr : option (list Z)) (size : nat) : res (option (list Z)) :=
  match ptr with
  | None => Ok None
  | Some buf =>
    if (size =? 0)%nat then Ok (Some buf)
    else if (length buf <? size)%nat then Throw (UndefinedBehaviour "memset past the buffer")
    else Ok (Some (replicate size 0%Z ++ drop size buf))
  end.

Lemma c_strcmp_eq l r : c_strcmp l r = 0%Z ↔ l = r.
Proof.
  revert r. induction l as [|x l IH]; intros [|y r]; simpl; try naive_solver.
  case_bool.
  - split; [lia|]. intros [= -> ->]. lia.
  - split; [lia|]. intros [= -> ->]. lia.
  - rewrite IH. assert (x = y) by (apply code_inj; lia). naive_solver.
Qed.

Lemma c_strcmp_anti l r : c_strcmp r l = (- c_strcmp l r)%Z.
Proof.
  revert r. induction l as [|x l IH]; intros [|y r]; simpl; try done.
  case_bool; try lia. apply IH.
Qed.

Lemma c_strcmp_trans l m r :
  c_strcmp l m = (-1)%Z → c_strcmp m r = (-1)%Z → c_strcmp l r = (-1)%Z.
Proof.
  revert m r. induction l as [|x l IH]; intros [|y m] [|z r]; simpl; try done.
  case_bool; try lia. apply IH.
Qed.

(** The null-safe [strcmp] is a total order on C strings in which the null
    pointer is the greatest: it is zero exactly on equal arguments, swapping
    the arguments flips the sign, and "smaller" is transitive. *)
Theorem strcmp_total_order (a b c : cstr) :
  (strcmp a b = 0%Z ↔ a = b) ∧ strcmp b a = (- strcmp a b)%Z ∧
  (strcmp a b = (-1)%Z → strcmp b c = (-1)%Z → strcmp a c = (-1)%Z) ∧
  (strcmp a None = (-1)%Z ∨ a = None).
Proof.
  destruct a as [a|], b as [b|], c as [c|]; simpl;
    rewrite ?c_strcmp_eq; split_and!;
    solve [apply c_strcmp_anti | apply c_strcmp_trans | naive_solver lia].
Qed.
End SecureString.
