(* ===== verification/Args.v ===== *)
(** * Editing the argument vector: args_editor.cpp *)

From S2P Require Import Prelude Strings.
Import SecureString.

Module Args.

(** The loop of [is_arg_set] at index [idx]: [argc] and [argv] are the caller's,
    edited in place.  An element found is moved behind the last argument and
    [argc] shrinks past it; the decrement of [idx] cancels the loop's increment.
    Each iteration lowers [argc - idx]. *)
Fixpoint arg_loop (fuel : nat) (value : str) (idx argc : nat) (argv : list cstr)
    (found : bool) : res (bool * nat * list cstr) :=
  match fuel with
  | O => Throw (UndefinedBehaviour "is_arg_set: out of fuel")
  | S fuel =>
    if (idx <? argc)%nat then
      match argv !! idx with
      | None => Throw (UndefinedBehaviour "argv read out of range")
      | Some ptrval =>
        if (strcmp (Some value) ptrval =? 0)%Z then
          let last_idx := argc - 1 in
          let argv' :=
            if (idx <? last_idx)%nat
            then <[last_idx := ptrval]> (memmove argv idx (idx + 1) (last_idx - idx))
            else argv in
          arg_loop fuel value idx (argc - 1) argv' true
        else arg_loop fuel value (idx + 1) argc argv found
      end
    else Ok (found, argc, argv)
  end.

Definition is_arg_set (argc : Z) (argv : option (list cstr)) (value : cstr)
    : res (bool * Z * list cstr) :=
  throw_if (argc <? 0)%Z (NstlException "argc_ is negative");;
  match argv with
  | None => Throw (NstlException "argv_ is nullptr")
  | Some argv =>
    match value with
    | None | Some [] => Throw (NstlException "value_ is nullptr or empty")
    | Some v =>
      '(found, argc', argv') ← arg_loop (S (Z.to_nat argc)) v 0 (Z.to_nat argc) argv false;
      Ok (found, Z.of_nat argc', argv')
    end
  end.

#[local] Arguments strcmp : simpl never.

(** The arguments that stay. *)
Definition kept (value : str) (args : list cstr) : list cstr :=
  filter (λ a, a ≠ Some value) args.

Lemma strcmp_zero (a b : cstr) : (strcmp a b =? 0)%Z = bool_decide (a = b).
Proof.
  apply Bool.eq_iff_eq_true. rewrite Z.eqb_eq, bool_decide_eq_true.
  destruct a as [a|], b as [b|]; unfold strcmp; rewrite ?c_strcmp_eq; naive_solver.
Qed.

(** Moving the element at [length pre] behind the last argument. *)
Lemma rotate_arg {A} (pre mid post : list A) x :
  (if (length pre <? length pre + S (length mid) - 1)%nat
   then <[length pre + S (length mid) - 1 := x]>
          (memmove (pre ++ x :: mid ++ post) (length pre) (length pre + 1)
             (length pre + S (length mid) - 1 - length pre))
   else pre ++ x :: mid ++ post) = pre ++ mid ++ x :: post.
Proof.
  destruct (Nat.ltb_spec (length pre) (length pre + S (length mid) - 1)).
  - replace (length pre + S (length mid) - 1 - length pre) with (length mid) by lia.
    replace (length pre + S (length mid) - 1) with (length pre + length mid) by lia.
    pose proof (memmove_gap pre [x] mid post) as Hm. simpl in Hm. rewrite Hm.
    rewrite insert_app_r_alt by lia. replace (length pre + length mid - length pre)
      with (length mid) by lia.
    rewrite insert_app_r_alt, Nat.sub_diag by done. f_equal. f_equal.
    destruct (@exists_last _ (x :: mid)) as (w & z & E); [done|].
    rewrite app_comm_cons, E, <-app_assoc.
    apply (f_equal length) in E. rewrite length_app in E. simpl in E.
    replace (length mid) with (length w) by lia. by rewrite drop_app_length.
  - by destruct mid; simpl in *; [|lia].
Qed.

Lemma arg_loop_throws fuel value idx argc argv found e :
  arg_loop fuel value idx argc argv found ≠ Throw (NstlException e).
Proof.
  revert idx argc argv found. induction fuel as [|fuel IH]; intros; simpl; [done|].
  case_match; [|done]. case_match; [|done]. case_match; apply IH.
Qed.

(** The invariant of the loop: [pre] is already filtered, [mid] is still to
    visit, and the [k] occurrences removed so far follow it. *)
Lemma arg_loop_spec value mid : ∀ fuel pre k post found,
  length mid < fuel →
  arg_loop fuel value (length pre) (length pre + length mid)
    (pre ++ mid ++ replicate k (Some value) ++ post) found =
  Ok (found || bool_decide (Some value ∈ mid),
      length pre + length (kept value mid),
      pre ++ kept value mid ++
        replicate (k + (length mid - length (kept value mid))) (Some value) ++ post).
Proof.
  unfold kept. induction mid as [|a mid IH]; intros [|fuel] pre k post found Hf;
    simpl in *; try lia.
  - rewrite Nat.add_0_r, Nat.ltb_irrefl, Nat.add_0_r. repeat f_equal. by rewrite orb_false_r.
  - rewrite (proj2 (Nat.ltb_lt _ _)) by lia. rewrite list_lookup_middle by done.
    rewrite strcmp_zero. destruct (bool_decide_reflect (Some value = a)) as [Ha|Ha].
    + subst a. rewrite rotate_arg, filter_cons_False by auto.
      replace (length pre + S (length mid) - 1) with (length pre + length mid) by lia.
      specialize (IH fuel pre (S k) post true). simpl in IH. rewrite IH by lia.
      pose proof (length_filter (λ x, x ≠ Some value) mid).
      rewrite (bool_decide_true (_ ∈ _ :: _)) by set_solver. rewrite orb_true_r.
      by rewrite Nat.sub_succ_l, Nat.add_succ_r by done.
    + rewrite filter_cons_True by auto. simpl.
      specialize (IH fuel (pre ++ [a]) k post found).
      rewrite length_app, <-!app_assoc in IH. simpl in IH.
      replace (length pre + S (length mid)) with (length pre + 1 + length mid) by lia.
      rewrite IH by lia. rewrite <-Nat.add_assoc. do 4 f_equal.
      apply bool_decide_ext. set_solver.
Qed.

#[local] Arguments arg_loop : simpl never.

(** With a non-negative [argc] inside the vector and a non-empty flag,
    [is_arg_set] returns; it reports whether the flag is among the first [argc]
    arguments, keeps the other arguments in their order at the front, lowers
    [argc] to their number, moves the removed occurrences behind them and leaves
    everything from the old [argc] on (the terminating null) untouched. *)
Theorem is_arg_set_correct (args post : list cstr) (c : ascii) (v : str) :
  let value := c :: v in
  let kept := kept value args in
  is_arg_set (Z.of_nat (length args)) (Some (args ++ post)) (Some value) =
  Ok (bool_decide (Some value ∈ args), Z.of_nat (length kept),
      kept ++ replicate (length args - length kept) (Some value) ++ post).
Proof.
  simpl. unfold is_arg_set. rewrite (proj2 (Z.ltb_ge _ _)) by lia. munfold_goal.
  rewrite Nat2Z.id.
  pose proof (arg_loop_spec (c :: v) args (S (length args)) [] 0 post false) as H.
  simpl in H. by rewrite H by lia.
Qed.

(** The arguments [is_arg_set] refuses: a negative [argc], a null [argv]
    and a null or empty flag throw, in this order, whatever the rest is. *)
Theorem is_arg_set_errors (argc : Z) (argv : option (list cstr)) (value : cstr) :
  (∃ e, is_arg_set argc argv value = Throw (NstlException e)) ↔
  (argc < 0)%Z ∨ argv = None ∨ value = None ∨ value = Some [].
Proof.
  unfold is_arg_set. munfold_goal. split.
  - intros [e He]. destruct (Z.ltb_spec argc 0) as [|_]; [auto|].
    destruct argv as [argv|]; [|auto]. destruct value as [[|c v]|]; [auto| |auto].
    destruct (arg_loop _ _ _ _ _ _) as [[[? ?] ?]|e'] eqn:E; [done|].
    injection He as ->. by apply arg_loop_throws in E.
  - destruct (Z.ltb_spec argc 0) as [|]; [eauto|].
    destruct argv as [argv|]; [|eauto]. destruct value as [[|c v]|]; naive_solver lia.
Qed.
End Args.
