(* ===== verification/Parse.v ===== *)
(** * Parsing numbers: parse.hpp

    [std::from_chars] on integers and [nstl::from_chars] on [bool], and
    [parse_view] over them.  The integer types are given by their width and
    signedness; floating-point targets are in ParseFloat. *)

From S2P Require Import Prelude Strings.

Module Parse.

(** ** [std::from_chars] on an integer, base 10 *)

Inductive errc := EcOk | EcInvalidArgument | EcResultOutOfRange.

#[global] Instance errc_eq_dec : EqDecision errc.
Proof. solve_decision. Defined.

(** An integer type of the target. *)
Record int_type := IntType { ty_signed : bool; ty_bits : Z }.

Definition ty_min (ty : int_type) : Z :=
  if ty_signed ty then (- 2 ^ (ty_bits ty - 1))%Z else 0%Z.
Definition ty_max (ty : int_type) : Z :=
  if ty_signed ty then (2 ^ (ty_bits ty - 1) - 1)%Z else (2 ^ ty_bits ty - 1)%Z.
Definition in_range (ty : int_type) (z : Z) : bool := (ty_min ty <=? z)%Z && (z <=? ty_max ty)%Z.

Definition is_digit (c : ascii) : bool := (48 <=? code c)%Z && (code c <=? 57)%Z.
Definition digit_val (c : ascii) : Z := (code c - 48)%Z.
Definition digits_val (ds : str) : Z := foldl (λ acc c, acc * 10 + digit_val c)%Z 0%Z ds.

(** The longest prefix of digits. *)
Fixpoint digits (s : str) : str :=
  match s with
  | c :: s' => if is_digit c then c :: digits s' else []
  | [] => []
  end.

(** The result: the offset [ptr] points at, the error code and the value
    written to the target ([None] when it is left unmodified). *)
Definition std_from_chars (ty : int_type) (s : str) : nat * errc * option Z :=
  let '(neg, body) :=
    match s with
    | c :: s' => if ty_signed ty && bool_decide (c = "-"%char) then (true, s') else (false, s)
    | [] => (false, s)
    end in
  let ds := digits body in
  if View.empty ds then (0, EcInvalidArgument, None)
  else
    let ptr := (if neg : bool then 1 else 0) + length ds in
    let z := if neg : bool then (- digits_val ds)%Z else digits_val ds in
    if in_range ty z then (ptr, EcOk, Some z) else (ptr, EcResultOutOfRange, None).

(** ** [nstl::from_chars] *)

Definition true_values : list str := [lit "1"; lit "true"].
Definition false_values : list str := [lit "0"; lit "false"].

(** The [bool] overload over the characters from offset [beg] to offset [end_]
    of [buf]. *)
Definition from_chars_bool (buf : str) (beg end_ : nat) : res (nat * errc * option bool) :=
  if (end_ <? beg)%nat then Throw (InvalidArgument "end_ is less than beg_")
  else
    let value := take (end_ - beg) (drop beg buf) in
    match list_find (λ item, View.starts_with value item) true_values with
    | Some (_, t) => Ok (beg + length t, EcOk, Some true)
    | None =>
      match list_find (λ item, View.starts_with value item) false_values with
      | Some (_, f) => Ok (beg + length f, EcOk, Some false)
      | None => Ok (beg, EcInvalidArgument, None)
      end
    end.

(** The integer overload delegates to the standard library. *)
Definition from_chars_int (ty : int_type) (buf : str) : res (nat * errc * option Z) :=
  Ok (std_from_chars ty buf).

(** ** [parse_view] *)

(** The body of [parse_view] around a call of [from_chars]; [dflt] is the
    value-initialised target. *)
Definition parse_view_with {T} (dflt : T) (fc : str → res (nat * errc * option T))
    (view : str) : res T :=
  throw_if (View.empty view) (InvalidArgument "view is empty");;
  '(ptr, ec, value) ← fc view;
  throw_if (negb (ptr =? length view)%nat) (InvalidArgument "Not the whole view is a number");;
  throw_if (bool_decide (ec ≠ EcOk)) (InvalidArgument "Failed to parse the view");;
  Ok (default dflt value).

Definition parse_view_int (ty : int_type) (view : str) : res Z :=
  parse_view_with 0%Z (from_chars_int ty) view.
Definition parse_view_bool (view : str) : res bool :=
  parse_view_with false (λ v, from_chars_bool v 0 (length v)) view.

(** ** Printing an integer: [os << z] *)

Definition digit_char (d : Z) : ascii := ascii_of_N (Z.to_N (48 + d)).

(** The digits of a non-negative number, the most significant first; each step
    divides by ten, so a number below [2 ^ fuel] is done in [fuel] steps. *)
Fixpoint print_nonneg (fuel : nat) (z : Z) : str :=
  match fuel with
  | O => []
  | S fuel =>
    if (z <? 10)%Z then [digit_char z]
    else print_nonneg fuel (z / 10) ++ [digit_char (z `mod` 10)]
  end.
Definition print_Z (z : Z) : str :=
  if (z <? 0)%Z then "-"%char :: print_nonneg (S (Z.to_nat (Z.log2 (- z)))) (- z)
  else print_nonneg (S (Z.to_nat (Z.log2 z))) z.

(** ** Properties *)

Definition is_number (ty : int_type) (neg : bool) (ds : str) (z : Z) : Prop :=
  ds ≠ [] ∧ Forall (λ c, is_digit c = true) ds ∧ (neg = true → ty_signed ty = true) ∧
  z = (if neg then - digits_val ds else digits_val ds)%Z ∧ in_range ty z = true.

Lemma digits_all ds : Forall (λ c, is_digit c = true) ds → digits ds = ds.
Proof. induction 1 as [|c ds Hc Hds IH]; simpl; [done|]. by rewrite Hc, IH. Qed.

Lemma digits_prefix s : ∃ r, s = digits s ++ r ∧ (∀ c r', r = c :: r' → is_digit c = false).
Proof.
  induction s as [|c s (r & IH & Hr)]; simpl; [by exists []|].
  destruct (is_digit c) eqn:E.
  - exists r. split; [simpl; congruence|done].
  - exists (c :: s). split; [done|]. naive_solver.
Qed.

Lemma digits_digit s : Forall (λ c, is_digit c = true) (digits s).
Proof. induction s as [|c s IH]; simpl; [done|]. by destruct (is_digit c) eqn:E; constructor. Qed.

Lemma digits_full s : length (digits s) = length s → digits s = s.
Proof.
  destruct (digits_prefix s) as (r & Hs & _). intros H.
  rewrite Hs in H at 2. rewrite length_app in H.
  destruct r; simpl in H; [|lia]. by rewrite app_nil_r in Hs.
Qed.

#[local] Arguments digits : simpl never.
#[local] Arguments std_from_chars : simpl never.

Lemma std_from_chars_number ty neg ds z :
  is_number ty neg ds z →
  std_from_chars ty ((if neg then ["-"%char] else []) ++ ds) =
  (length ((if neg then ["-"%char] else []) ++ ds), EcOk, Some z).
Proof.
  intros (Hne & Hds & Hneg & Hz & Hr). unfold std_from_chars.
  destruct neg; simpl.
  - rewrite Hneg by done. simpl. rewrite digits_all, <-Hz, Hr by done.
    destruct ds; done.
  - destruct ds as [|c ds]; [done|]. inversion_clear Hds as [|?? Hc Hds'].
    assert (bool_decide (c = "-"%char) = false) as ->.
    { apply bool_decide_eq_false. by intros ->. }
    rewrite andb_false_r, digits_all, <-Hz, Hr by (by constructor). done.
Qed.

Lemma std_from_chars_full ty v o :
  v ≠ [] → std_from_chars ty v = (length v, EcOk, o) →
  ∃ neg ds z, o = Some z ∧ v = (if neg : bool then ["-"%char] else []) ++ ds ∧
    is_number ty neg ds z.
Proof.
  intros Hv. unfold std_from_chars.
  destruct v as [|c v]; [done|].
  destruct (ty_signed ty && bool_decide (c = "-"%char)) eqn:E.
  - apply andb_true_iff in E as [Hs ->%bool_decide_eq_true].
    destruct (View.empty _) eqn:He; [by intros [= ?]|].
    destruct (in_range ty _) eqn:Hr; intros [= Hl <-].
    pose proof (digits_digit v) as Hall. rewrite (digits_full v) in Hall, Hr, He by lia.
    exists true, v, (- digits_val v)%Z. rewrite (digits_full v) by lia.
    split_and!; [done..|]. unfold is_number. split_and!; try done. by destruct v.
  - destruct (View.empty _) eqn:He; [by intros [= ?]|].
    destruct (in_range ty _) eqn:Hr; intros [= Hl <-].
    pose proof (digits_digit (c :: v)) as Hall.
    rewrite (digits_full (c :: v)) in Hall, Hr by done.
    exists false, (c :: v), (digits_val (c :: v)). rewrite (digits_full (c :: v)) by done.
    split_and!; [done..|]. unfold is_number. by split_and!.
Qed.

Lemma parse_view_int_accepts ty view z :
  parse_view_int ty view = Ok z ↔
  ∃ neg ds, view = (if neg : bool then ["-"%char] else []) ++ ds ∧ is_number ty neg ds z.
Proof.
  unfold parse_view_int, parse_view_with, from_chars_int. split.
  - intros H. munfold. destruct view as [|c v]; [done|].
    destruct (std_from_chars ty (c :: v)) as [[ptr ec] o] eqn:E. simpl in H.
    case_bool; simpl in H; try done.
    assert (ec = EcOk) as -> by (by apply dec_stable). subst ptr.
    apply std_from_chars_full in E as (neg & ds & z' & -> & Hv & Hn); [|done].
    simplify_eq. eauto.
  - intros (neg & ds & -> & Hn). munfold. rewrite (std_from_chars_number ty neg ds z Hn).
    simpl. rewrite Nat.eqb_refl. destruct Hn as (Hne & _). by destruct neg, ds.
Qed.
Lemma parse_view_int_refuses ty view :
  (∃ z, parse_view_int ty view = Ok z) ∨ ∃ e, parse_view_int ty view = Throw (InvalidArgument e).
Proof.
  unfold parse_view_int, parse_view_with, from_chars_int. munfold_goal. destruct (View.empty view); [eauto|].
  destruct (std_from_chars ty view) as [[ptr ec] o]. simpl.
  destruct (negb _); [eauto|]. destruct (bool_decide _); eauto.
Qed.

(** C34: [parse_view] on an integer type accepts exactly the texts that are a
    decimal number of that type from the first character to the last (a minus
    sign only when the type is signed, the value in the type's range), and
    returns that number; on every other text it throws [std::invalid_argument]. *)
Theorem parse_view_int_correct (ty : int_type) (view : str) :
  (∀ z, parse_view_int ty view = Ok z ↔
     ∃ neg ds, view = (if neg : bool then ["-"%char] else []) ++ ds ∧ is_number ty neg ds z) ∧
  ((∃ z, parse_view_int ty view = Ok z) ∨
   ∃ e, parse_view_int ty view = Throw (InvalidArgument e)).
Proof. split; [intros z; apply parse_view_int_accepts|apply parse_view_int_refuses]. Qed.

Lemma parse_view_int_range ty view z : parse_view_int ty view = Ok z → in_range ty z = true.
Proof.
  unfold parse_view_int, parse_view_with, from_chars_int, std_from_chars. munfold_goal.
  destruct (View.empty view); [done|]. destruct (match view with [] => _ | _ :: _ => _ end) as [neg body].
  destruct (View.empty (digits body)); simpl; [by destruct view|].
  destruct (in_range ty _) eqn:E; simpl; case_bool; simpl; intros [= <-]; done.
Qed.

Lemma digits_val_snoc ds c : digits_val (ds ++ [c]) = (digits_val ds * 10 + digit_val c)%Z.
Proof. unfold digits_val. by rewrite foldl_app. Qed.
Lemma digits_val_nonneg ds : Forall (λ c, is_digit c = true) ds → (0 ≤ digits_val ds)%Z.
Proof.
  induction ds as [|c ds IH] using rev_ind; [done|]. intros [H1 [H2 _]%list.Forall_cons]%Forall_app.
  rewrite digits_val_snoc. specialize (IH H1). unfold is_digit, digit_val in *. lia.
Qed.

Lemma code_digit_char d : (0 ≤ d < 10)%Z → code (digit_char d) = (48 + d)%Z.
Proof.
  intros Hd. unfold code, digit_char. rewrite N_ascii_embedding by lia. lia.
Qed.

Lemma print_nonneg_spec fuel z :
  (0 ≤ z < 2 ^ Z.of_nat fuel)%Z → (0 < fuel)%nat →
  digits_val (print_nonneg fuel z) = z ∧ print_nonneg fuel z ≠ [] ∧
  Forall (λ c, is_digit c = true) (print_nonneg fuel z).
Proof.
  revert z. induction fuel as [|fuel IH]; intros z Hz Hf; [lia|]. simpl.
  assert (∀ d, (0 ≤ d < 10)%Z → is_digit (digit_char d) = true ∧ digit_val (digit_char d) = d) as Hd.
  { intros d Hd. unfold is_digit, digit_val. rewrite code_digit_char by done. lia. }
  destruct (Z.ltb_spec z 10) as [Hlt|Hge].
  - destruct (Hd z) as [? ?]; [lia|]. split_and!; [|done|by repeat constructor].
    unfold digits_val. simpl. lia.
  - pose proof (Z.mod_pos_bound z 10 ltac:(lia)).
    destruct (Hd (z `mod` 10)%Z) as [? ?]; [lia|].
    assert (0 ≤ z / 10 < 2 ^ Z.of_nat fuel)%Z as Hq.
    { rewrite Nat2Z.inj_succ, Z.pow_succ_r in Hz by lia.
      split; [apply Z.div_pos; lia|]. apply Z.div_lt_upper_bound; lia. }
    assert (0 < fuel)%nat.
    { destruct fuel; [|lia]. simpl in *. assert (1 ≤ z / 10)%Z by (apply Z.div_le_lower_bound; lia). lia. }
    destruct (IH (z / 10)%Z Hq) as (IH1 & IH2 & IH3); [done|]. split_and!.
    + rewrite digits_val_snoc, IH1. pose proof (Z.div_mod z 10). lia.
    + by destruct (print_nonneg fuel (z / 10)%Z).
    + apply Forall_app. auto.
Qed.

Lemma log2_fuel z : (0 ≤ z)%Z → (0 ≤ z < 2 ^ Z.of_nat (S (Z.to_nat (Z.log2 z))))%Z.
Proof.
  intros Hz. rewrite Nat2Z.inj_succ, Z2Nat.id by apply Z.log2_nonneg.
  destruct (Z.eq_dec z 0%Z) as [->|]; [simpl; lia|].
  split; [done|]. apply Z.log2_spec. lia.
Qed.

(** Parsing back what the stream prints for an integer gives the integer,
    for every value of every integer type. *)
Theorem parse_print_roundtrip (ty : int_type) (z : Z) :
  (0 < ty_bits ty)%Z → in_range ty z = true → parse_view_int ty (print_Z z) = Ok z.
Proof.
  intros Hb Hr. unfold parse_view_int, parse_view_with, from_chars_int, print_Z.
  assert (∃ neg ds, (if (z <? 0)%Z then "-"%char :: print_nonneg (S (Z.to_nat (Z.log2 (- z)))) (- z)
       else print_nonneg (S (Z.to_nat (Z.log2 z))) z) = (if neg : bool then ["-"%char] else []) ++ ds
       ∧ is_number ty neg ds z) as (neg & ds & -> & Hn).
  { destruct (Z.ltb_spec z 0).
    - destruct (print_nonneg_spec _ _ (log2_fuel (-z) ltac:(lia))) as (H1 & H2 & H3); [lia|].
      exists true. eexists; split; [done|]. repeat split; try done; [|lia].
      intros _. unfold in_range, ty_min in Hr. destruct (ty_signed ty); [done|]. lia.
    - destruct (print_nonneg_spec _ _ (log2_fuel z ltac:(lia))) as (H1 & H2 & H3); [lia|].
      exists false. eexists; split; [done|]. by repeat split. }
  munfold_goal. rewrite (std_from_chars_number ty neg ds z Hn).
  rewrite Nat.eqb_refl. destruct Hn as (Hne & _). by destruct neg, ds.
Qed.

Lemma parse_print_roundtrip_witness :
  parse_view_int (IntType true 32) (print_Z (-2147483648)) = Ok (-2147483648)%Z ∧
  print_Z (-2147483648) = lit "-2147483648".
Proof. split; [apply (parse_print_roundtrip (IntType true 32)); reflexivity|reflexivity]. Defined.

#[local] Arguments list_find : simpl never.

(** A keyword that is a prefix of the view and as long as it is the view. *)
Lemma find_value_whole view values i t :
  list_find (λ item, View.starts_with view item) values = Some (i, t) →
  length t = length view → view ∈ values.
Proof.
  intros (Hi & Hs & _)%list_find_Some Hl.
  apply Is_true_true, View.starts_with_spec in Hs as [r ->].
  rewrite length_app in Hl. destruct r; [|simpl in Hl; lia].
  rewrite app_nil_r. by apply list_elem_of_lookup_2 in Hi.
Qed.

(** [parse_view<bool>] accepts exactly ["1"], ["true"], ["0"] and ["false"]. *)
Theorem parse_view_bool_correct (view : str) (b : bool) :
  parse_view_bool view = Ok b ↔
  view ∈ (if b then [lit "1"; lit "true"] else [lit "0"; lit "false"]).
Proof.
  unfold parse_view_bool, parse_view_with, from_chars_bool.
  rewrite (proj2 (Nat.ltb_ge _ _)), drop_0, Nat.sub_0_r, firstn_all by lia.
  split.
  - intros H. unfold mbind, res_bind, throw_if in H.
    destruct (View.empty view); [done|].
    destruct (list_find _ true_values) as [[i t]|] eqn:E; simpl in H.
    { destruct (Nat.eqb_spec (length t) (length view)); simplify_eq/=.
      by apply (find_value_whole view true_values i t). }
    clear E. destruct (list_find _ false_values) as [[i t]|] eqn:E; simpl in H.
    { destruct (Nat.eqb_spec (length t) (length view)); simplify_eq/=.
      by apply (find_value_whole view false_values i t). }
    by destruct (negb _).
  - destruct b; rewrite !elem_of_cons, elem_of_nil;
      intros [->|[->|[]]]; reflexivity.
Qed.

(** The characters of a printed number. *)
Lemma print_Z_chars z c : c ∈ print_Z z → c = "-"%char ∨ is_digit c = true.
Proof.
  assert (∀ y, (0 ≤ y)%Z → c ∈ print_nonneg (S (Z.to_nat (Z.log2 y))) y → is_digit c = true) as H.
  { intros y Hy Hc. destruct (print_nonneg_spec _ y (log2_fuel y Hy)) as (_ & _ & Hd); [lia|].
    by apply (proj1 (list.Forall_forall _ _) Hd). }
  unfold print_Z. destruct (Z.ltb_spec z 0).
  - rewrite elem_of_cons. intros [->|Hc]; [by left|right]. apply (H (- z)%Z); [lia|done].
  - intros Hc. right. by apply (H z).
Qed.
End Parse.
