(* ===== verification/Vector.v ===== *)
(** * nstl::vector: vector.hpp

    The vector over [malloc]ed memory: its three fields, the heap its block
    lives in, and every member function.  The heap maps a block to its cells
    (an uninitialised cell is [None]); a block is named by the number of the
    allocation that made it, so a block [realloc] released is never seen again.
    Sizes are 64-bit unsigned integers with their wrap-around.  An iterator is
    its distance from [begin()], in elements.  The destructor of a trivially
    copyable type is trivial, so destroying an element has no effect. *)

From S2P Require Import Prelude.

Module Vector.

Record vec := Vec { v_ptr : option nat; v_size : Z; v_capacity : Z }.

(** The value-initialised members. *)
Definition vector_default : vec := Vec None 0 0.

Section vector.
Context {T : Type}.
(** [sizeof(Type)]. *)
Context (sizeof : Z).
(** Whether the allocator grants its [n]-th request, of that many bytes. *)
Context (grant : nat → Z → bool).

(** One vector object and the memory. *)
Record vstate := VState {
  st_vec : vec;
  st_heap : gmap nat (list (option T));
  st_next : nat;
}.

Definition with_vec (f : vec → vec) : M vstate () :=
  mmodify (λ s, VState (f (st_vec s)) (st_heap s) (st_next s)).
Definition set_ptr (p : option nat) (v : vec) : vec := Vec p (v_size v) (v_capacity v).
Definition set_size (n : Z) (v : vec) : vec := Vec (v_ptr v) n (v_capacity v).
Definition set_capacity (n : Z) (v : vec) : vec := Vec (v_ptr v) (v_size v) n.

(** ** The C memory functions *)

(** [std::realloc]: a granted request makes a new block that starts with the
    old cells and releases the old block; a refused one returns null and leaves
    everything as it is. *)
Definition realloc (p : option nat) (bytes : Z) : M vstate (option nat) := λ s,
  let n := Z.to_nat (bytes / sizeof) in
  let new := st_next s in
  if grant new bytes then
    match p with
    | None =>
      (VState (st_vec s) (<[new := replicate n None]> (st_heap s)) (S new), Ok (Some new))
    | Some q =>
      match st_heap s !! q with
      | None => (s, Throw (UndefinedBehaviour "realloc of a released block"))
      | Some cells =>
        (VState (st_vec s) (<[new := take n cells ++ replicate (n - length cells) None]>
                              (delete q (st_heap s))) (S new), Ok (Some new))
      end
    end
  else (VState (st_vec s) (st_heap s) (S new), Ok None).

(** [std::free]. *)
Definition free (p : option nat) : M vstate () := λ s,
  match p with
  | None => (s, Ok ())
  | Some q =>
    match st_heap s !! q with
    | None => (s, Throw (UndefinedBehaviour "free of a released block"))
    | Some _ => (VState (st_vec s) (delete q (st_heap s)) (st_next s), Ok ())
    end
  end.

(** A read and a write of one cell. *)
Definition load (p : option nat) (i : Z) : M vstate T := λ s,
  match (p ≫= λ q, st_heap s !! q) ≫= (λ cells, if (i <? 0)%Z then None else cells !! Z.to_nat i) with
  | Some (Some x) => (s, Ok x)
  | _ => (s, Throw (UndefinedBehaviour "read of an invalid cell"))
  end.

Definition store (p : option nat) (i : Z) (x : T) : M vstate () := λ s,
  match p with
  | Some q =>
    match st_heap s !! q with
    | Some cells =>
      if ((0 <=? i) && (i <? Z.of_nat (length cells)))%Z
      then (VState (st_vec s) (<[q := <[Z.to_nat i := Some x]> cells]> (st_heap s)) (st_next s), Ok ())
      else (s, Throw (UndefinedBehaviour "write outside the block"))
    | None => (s, Throw (UndefinedBehaviour "write to a released block"))
    end
  | None => (s, Throw (UndefinedBehaviour "write through a null pointer"))
  end.

(** [std::memmove] of [n] elements inside the vector's block. *)
Definition block_move (p : option nat) (dst src n : Z) : M vstate () := λ s,
  match p with
  | Some q =>
    match st_heap s !! q with
    | Some cells =>
      if ((0 <=? dst) && (0 <=? src) && (0 <=? n) &&
          (dst + n <=? Z.of_nat (length cells)) && (src + n <=? Z.of_nat (length cells)))%Z
      then (VState (st_vec s)
              (<[q := memmove cells (Z.to_nat dst) (Z.to_nat src) (Z.to_nat n)]> (st_heap s))
              (st_next s), Ok ())
      else (s, Throw (UndefinedBehaviour "memmove outside the block"))
    | None => (s, Throw (UndefinedBehaviour "memmove in a released block"))
    end
  | None => (s, Throw (UndefinedBehaviour "memmove through a null pointer"))
  end.

(** [std::memcpy] of [n] elements from the start of one block to another. *)
Definition block_copy (dst src : option nat) (n : Z) : M vstate () := λ s,
  match (dst ≫= λ q, st_heap s !! q), (src ≫= λ q, st_heap s !! q), dst with
  | Some d, Some c, Some q =>
    if ((0 <=? n) && (n <=? Z.of_nat (length d)) && (n <=? Z.of_nat (length c)))%Z
    then (VState (st_vec s)
            (<[q := take (Z.to_nat n) c ++ drop (Z.to_nat n) d]> (st_heap s)) (st_next s), Ok ())
    else (s, Throw (UndefinedBehaviour "memcpy outside a block"))
  | _, _, _ => (s, Throw (UndefinedBehaviour "memcpy of a released block"))
  end.

(** ** Growth *)

Definition max_capacity : Z := (size_max / sizeof)%Z.

Definition _mem_reserve (new_capacity : Z) : M vstate (option nat) :=
  mthrow_if (max_capacity <? new_capacity)%Z
    (LengthError "vector capacity would overflow the addressable size");;
  v ← mgets st_vec;
  ptr ← realloc (v_ptr v) (wrap 64 (new_capacity * sizeof));
  match ptr with
  | None => mthrow BadAlloc
  | Some _ =>
    with_vec (set_ptr ptr);;
    with_vec (set_capacity new_capacity);;
    mret ptr
  end.

Definition _auto_capacity (needed : Z) : M vstate (option nat) :=
  v ← mgets st_vec;
  if (needed <=? v_capacity v)%Z then mret (v_ptr v)
  else if (needed <? 16)%Z then _mem_reserve 16
  else _mem_reserve (Z.max needed (wrap 64 (v_capacity v * 2))).

(** ** Observers *)

Definition empty : M vstate bool := v ← mgets st_vec; mret (v_size v =? 0)%Z.
Definition size : M vstate Z := mgets (λ s, v_size (st_vec s)).
Definition capacity : M vstate Z := mgets (λ s, v_capacity (st_vec s)).
Definition data : M vstate (option nat) := mgets (λ s, v_ptr (st_vec s)).
Definition index (idx : Z) : M vstate T := v ← mgets st_vec; load (v_ptr v) idx.
Definition at_ (idx : Z) : M vstate T :=
  v ← mgets st_vec;
  if (idx <? v_size v)%Z then load (v_ptr v) idx
  else mthrow (OutOfRange "index out of range").
Definition front : M vstate T := v ← mgets st_vec; load (v_ptr v) 0.
Definition back : M vstate T := v ← mgets st_vec; load (v_ptr v) (v_size v - 1).
Definition begin_ : M vstate Z := mret 0%Z.
Definition end_ : M vstate Z := mgets (λ s, v_size (st_vec s)).

Definition _check_iterator (valid : bool) (itr : Z) : M vstate () :=
  e ← end_;
  mthrow_if (itr <? 0)%Z (InvalidArgument "got invalid iterator");;
  mthrow_if (if valid then (e <=? itr)%Z else (e <? itr)%Z)
    (InvalidArgument "got invalid iterator").

(** ** Modifiers *)

(** The loop of [clear]: one destructor call and one decrement per element. *)
Fixpoint clear_loop (fuel : nat) : M vstate () :=
  match fuel with
  | O => mret ()
  | S fuel =>
    v ← mgets st_vec;
    if (0 <? v_size v)%Z then with_vec (set_size (v_size v - 1));; clear_loop fuel
    else mret ()
  end.
Definition clear : M vstate () :=
  v ← mgets st_vec; clear_loop (Z.to_nat (v_size v)).

(** The argument of [push_back] is a reference: to a value outside the vector,
    or to a cell of some block. *)
Inductive vref := Outside (x : T) | Inside (p : nat) (i : Z).
Definition deref (r : vref) : M vstate T :=
  match r with
  | Outside x => mret x
  | Inside p i => load (Some p) i
  end.

(** The reference is read by the placement new, after the growth. *)
Definition push_back_ref (val : vref) : M vstate () :=
  v ← mgets st_vec;
  let new_size := wrap 64 (v_size v + 1) in
  ptr ← _auto_capacity new_size;
  x ← deref val;
  v' ← mgets st_vec;
  store ptr (v_size v') x;;
  with_vec (set_size new_size).
Definition push_back (x : T) : M vstate () := push_back_ref (Outside x).

Definition pop_back : M vstate () :=
  e ← empty;
  mthrow_if e (RuntimeError "container is empty");;
  v ← mgets st_vec;
  with_vec (set_size (v_size v - 1)).

Definition reset : M vstate () :=
  clear;;
  v ← mgets st_vec;
  free (v_ptr v);;
  with_vec (set_capacity 0);;
  with_vec (set_ptr None).

Definition erase (itr : Z) : M vstate Z :=
  _check_iterator true itr;;
  e ← end_;
  let dist := (e - itr - 1)%Z in
  if (dist =? 0)%Z then pop_back;; end_
  else
    v ← mgets st_vec;
    block_move (v_ptr v) itr (itr + 1) dist;;
    with_vec (set_size (v_size v - 1));;
    mret itr.

Definition erase_range (beg end__ : Z) : M vstate Z :=
  if (beg =? end__)%Z then mret end__
  else
    _check_iterator false beg;;
    _check_iterator false end__;;
    mthrow_if (end__ <? beg)%Z (InvalidArgument "end_ cannot be smaller than beg_");;
    e ← end_;
    let dist := (e - end__)%Z in
    v ← mgets st_vec;
    with_vec (set_size (wrap 64 (v_size v - (end__ - beg))));;
    (if (0 <? dist)%Z then block_move (v_ptr v) beg end__ dist else mret ());;
    mret beg.

Definition reserve (new_capacity : Z) : M vstate () :=
  _auto_capacity new_capacity;; mret ().

Definition release : M vstate (option nat * Z * Z) :=
  v ← mgets st_vec;
  with_vec (λ _, vector_default);;
  mret (v_ptr v, v_size v, v_capacity v).

(** ** Construction, assignment and exchange *)

(** [swap] and the move constructor exchange the members of two objects. *)
Definition swap (this other : vec) : vec * vec := (other, this).
Definition move_construct (other : vec) : vec * vec := swap vector_default other.

(** The copy constructor, on the object under construction. *)
Definition copy_construct (other : vec) : M vstate () :=
  with_vec (λ _, vector_default);;
  if (v_size other =? 0)%Z then mret ()
  else
    ptr ← _auto_capacity (v_size other);
    block_copy ptr (v_ptr other) (v_size other);;
    with_vec (set_size (v_size other)).

(** Copy assignment from [other]; [None] is the object itself.  The local
    [vector other{ other_ }] is built, exchanged with the object, and destroyed
    with the old content. *)
Definition copy_assign (other : option vec) : M vstate () := λ s,
  match other with
  | None => (s, Ok ())
  | Some other =>
    let this := st_vec s in
    match copy_construct other s with
    | (s', Throw e) => (VState this (st_heap s') (st_next s'), Throw e)
    | (s', Ok _) =>
      let '(this', local) := swap this (st_vec s') in
      let '(s'', r) := reset (VState local (st_heap s') (st_next s')) in
      (VState this' (st_heap s'') (st_next s''), r)
    end
  end.

(** Move assignment: the new members of the object and of [other]. *)
Definition move_assign (other : option vec) : M vstate (option vec) :=
  match other with
  | None => mret None
  | Some other =>
    reset;;
    this ← mgets st_vec;
    let '(this', other') := swap this other in
    with_vec (λ _, this');;
    mret (Some other')
  end.

(** ** The abstract content of a vector *)

(** The members describe the list [l] in the heap [h]: no block and no element,
    or a block of [capacity] cells that starts with the elements.  A block is
    never larger than the greatest object size. *)
Definition content (h : gmap nat (list (option T))) (v : vec) (l : list T) : Prop :=
  match v_ptr v with
  | None => v_size v = 0%Z ∧ v_capacity v = 0%Z ∧ l = []
  | Some p => ∃ tail,
      h !! p = Some ((Some <$> l) ++ tail) ∧
      v_size v = Z.of_nat (length l) ∧
      v_capacity v = Z.of_nat (length l + length tail) ∧
      (v_capacity v * sizeof ≤ 2 ^ 63 - 1)%Z
  end.

(** The memory that does not belong to the vector. *)
Definition frame (h : gmap nat (list (option T))) (v : vec) : gmap nat (list (option T)) :=
  match v_ptr v with
  | None => h
  | Some p => delete p h
  end.

(** A state whose vector holds [l]; the blocks in use are older than the next
    allocation. *)
Definition vok (s : vstate) (l : list T) : Prop :=
  content (st_heap s) (st_vec s) l ∧ ∀ p c, st_heap s !! p = Some c → p < st_next s.

Definition sframe (s : vstate) : gmap nat (list (option T)) := frame (st_heap s) (st_vec s).

(** ** The contract: operations on a list *)

Inductive vop :=
| OpPush (x : T)
| OpPop
| OpErase (i : Z)
| OpEraseRange (i j : Z)
| OpReserve (n : Z)
| OpClear
| OpReset
| OpAt (i : Z).

Inductive vout := OutUnit | OutIter (i : Z) | OutVal (x : T).

(** The calls, and their results as one type. *)
Definition exec (op : vop) : M vstate vout :=
  match op with
  | OpPush x => push_back x;; mret OutUnit
  | OpPop => pop_back;; mret OutUnit
  | OpErase i => j ← erase i; mret (OutIter j)
  | OpEraseRange i j => k ← erase_range i j; mret (OutIter k)
  | OpReserve n => reserve n;; mret OutUnit
  | OpClear => clear;; mret OutUnit
  | OpReset => reset;; mret OutUnit
  | OpAt i => x ← at_ i; mret (OutVal x)
  end.

(** What each call does to the list, when no allocation fails. *)
Definition spec_op (op : vop) (l : list T) : list T * res vout :=
  let n := Z.of_nat (length l) in
  match op with
  | OpPush x => (l ++ [x], Ok OutUnit)
  | OpPop =>
    if (n =? 0)%Z then (l, Throw (RuntimeError "container is empty"))
    else (take (length l - 1) l, Ok OutUnit)
  | OpErase i =>
    if ((i <? 0) || (n <=? i))%Z then (l, Throw (InvalidArgument "got invalid iterator"))
    else (take (Z.to_nat i) l ++ drop (Z.to_nat i + 1) l, Ok (OutIter i))
  | OpEraseRange i j =>
    if (i =? j)%Z then (l, Ok (OutIter j))
    else if ((i <? 0) || (n <? i) || (j <? 0) || (n <? j))%Z
    then (l, Throw (InvalidArgument "got invalid iterator"))
    else if (j <? i)%Z then (l, Throw (InvalidArgument "end_ cannot be smaller than beg_"))
    else (take (Z.to_nat i) l ++ drop (Z.to_nat j) l, Ok (OutIter i))
  | OpReserve _ => (l, Ok OutUnit)
  | OpClear | OpReset => ([], Ok OutUnit)
  | OpAt i =>
    match (if (i <? 0)%Z then None else l !! Z.to_nat i) with
    | Some x => (l, Ok (OutVal x))
    | None => (l, Throw (OutOfRange "index out of range"))
    end
  end.

(** The calls that may fail to allocate, and how they fail. *)
Definition may_fail (op : vop) (r : res vout) : Prop :=
  match op with
  | OpPush _ | OpReserve _ =>
    r = Throw BadAlloc ∨
    r = Throw (LengthError "vector capacity would overflow the addressable size")
  | _ => False
  end.

(** Arguments of type [size_t] are not negative. *)
Definition op_wf (op : vop) : Prop :=
  match op with
  | OpReserve n => (0 ≤ n ≤ size_max)%Z
  | OpAt i => (0 ≤ i ≤ size_max)%Z
  | _ => True
  end.

End vector.

Section properties.
Context {T : Type} (sizeof : Z) (grant : nat → Z → bool).
Context (Hsz : (0 < sizeof)%Z).
(** The allocator never grants more than the greatest object size. *)
Context (Hgrant : ∀ n b, grant n b = true → (b ≤ 2 ^ 63 - 1)%Z).
Implicit Types (s : @vstate T) (l : list T).

#[local] Arguments store : simpl never.
#[local] Arguments load : simpl never.
#[local] Arguments block_move : simpl never.
#[local] Arguments block_copy : simpl never.
#[local] Arguments free : simpl never.
#[local] Arguments pop_back : simpl never.
#[local] Arguments clear : simpl never.
#[local] Arguments reset : simpl never.
#[local] Notation vok := (vok sizeof).
#[local] Notation content := (content sizeof).

Lemma content_size h v l : content h v l → v_size v = Z.of_nat (length l).
Proof. unfold content. destruct (v_ptr v); naive_solver. Qed.

Lemma content_capacity h v l :
  content h v l →
  (v_size v ≤ v_capacity v)%Z ∧ (v_capacity v * sizeof ≤ 2 ^ 63 - 1)%Z ∧
  (v_capacity v ≤ 2 ^ 63 - 1)%Z.
Proof using Hsz.
  unfold content. destruct (v_ptr v); [|naive_solver lia].
  intros (tail & _ & -> & Hc & Hb). split; [lia|]. split; [done|]. nia.
Qed.

Lemma mem_reserve_spec s l nc :
  vok s l → (v_capacity (st_vec s) < nc)%Z →
  ∃ s' r, _mem_reserve sizeof grant nc s = (s', r) ∧ vok s' l ∧ sframe s' = sframe s ∧
    match r with
    | Ok p => p = v_ptr (st_vec s') ∧ v_capacity (st_vec s') = nc ∧
        v_ptr (st_vec s') = Some (st_next s)
    | Throw e => st_vec s' = st_vec s ∧ st_heap s' = st_heap s ∧
        ((e = BadAlloc ∧ grant (st_next s) (nc * sizeof) = false) ∨
         (e = LengthError "vector capacity would overflow the addressable size" ∧
          (size_max < nc * sizeof)%Z))
    end.
Proof using Hsz Hgrant.
  intros [Hc Hf] Hnc. pose proof (content_capacity _ _ _ Hc) as (Hsc & _ & _).
  pose proof (content_size _ _ _ Hc) as Hs. unfold _mem_reserve, max_capacity. munfold_goal.
  destruct (Z.ltb_spec (size_max / sizeof) nc) as [Hmax|Hmax].
  { exists s, (Throw (LengthError "vector capacity would overflow the addressable size")).
    split_and!; try done. right. split; [done|].
    pose proof (Z.mul_succ_div_gt size_max sizeof Hsz). nia. }
  assert (nc * sizeof ≤ size_max)%Z as Hle.
  { pose proof (Z.mul_div_le size_max sizeof Hsz). nia. }
  unfold wrap. rewrite Z.mod_small by (unfold size_max in *; nia).
  unfold realloc. rewrite Z.div_mul by lia.
  destruct (grant (st_next s) (nc * sizeof)) eqn:Hg; simpl.
  2: { eexists _, _. split; [done|]. split_and!; simpl; auto.
       split; [done|]. intros p c Hp. simpl in *. apply Hf in Hp. lia. }
  apply Hgrant in Hg.
  assert (st_heap s !! st_next s = None) as Hnew.
  { destruct (st_heap s !! st_next s) eqn:E; [|done]. apply Hf in E. lia. }
  destruct s as [[ptr sz cap] h nx]; unfold content in Hc; simpl in *.
  destruct ptr as [q|]; simpl in *.
  - destruct Hc as (tail & Hq & -> & -> & Hb). rewrite Hq. simpl.
    assert (q < nx) by eauto.
    eexists _, _. split; [done|]. split_and!; try done.
    + split; simpl.
      * unfold content; simpl.
        exists (tail ++ replicate (Z.to_nat nc - (length l + length tail)) None).
        rewrite lookup_insert_eq, take_ge, <-app_assoc;
          rewrite length_app, length_fmap; [|lia].
        rewrite length_app, length_replicate. split_and!; [done..|lia|lia].
      * intros p c. rewrite lookup_insert_Some, lookup_delete_Some.
        intros [[<- _]|(_ & _ & Hp)]; [lia|]. apply Hf in Hp. lia.
    + unfold sframe, frame; simpl. rewrite delete_insert_id; [done|].
      rewrite lookup_delete_ne by lia. done.
  - destruct Hc as (-> & -> & ->). eexists _, _. split; [done|]. split_and!; try done.
    + split; simpl.
      * unfold content; simpl. exists (replicate (Z.to_nat nc) None).
        rewrite lookup_insert_eq, length_replicate. simpl. split_and!; [done..|lia|lia].
      * intros p c. rewrite lookup_insert_Some.
        intros [[<- _]|(_ & Hp)]; [lia|]. apply Hf in Hp. lia.
    + unfold sframe, frame; simpl. by rewrite delete_insert_id.
Qed.

Lemma auto_capacity_spec s l needed :
  vok s l → (0 ≤ needed)%Z →
  ∃ s' r, _auto_capacity sizeof grant needed s = (s', r) ∧ vok s' l ∧ sframe s' = sframe s ∧
    match r with
    | Ok p => p = v_ptr (st_vec s') ∧ (needed ≤ v_capacity (st_vec s'))%Z ∧
        ((v_capacity (st_vec s) < needed)%Z → v_ptr (st_vec s') = Some (st_next s))
    | Throw e => st_vec s' = st_vec s ∧ st_heap s' = st_heap s ∧
        ∃ nc, (nc = 16 ∨ nc = needed ∨ nc = v_capacity (st_vec s) * 2)%Z ∧
          ((e = BadAlloc ∧ grant (st_next s) (nc * sizeof) = false) ∨
           (e = LengthError "vector capacity would overflow the addressable size" ∧
            (size_max < nc * sizeof)%Z))
    end.
Proof using Hsz Hgrant.
  intros Hv Hn. destruct (Hv) as [Hc _].
  pose proof (content_capacity _ _ _ Hc) as (_ & _ & Hb).
  unfold _auto_capacity. munfold_goal.
  destruct (Z.leb_spec needed (v_capacity (st_vec s))).
  { eexists _, _. split; [done|]. split_and!; [done..|lia]. }
  assert (wrap 64 (v_capacity (st_vec s) * 2) = v_capacity (st_vec s) * 2)%Z as ->.
  { unfold wrap. apply Z.mod_small. pose proof (content_size _ _ _ Hc).
    pose proof (content_capacity _ _ _ Hc). lia. }
  destruct (Z.ltb_spec needed 16).
  - destruct (mem_reserve_spec s l 16 Hv) as (s' & r & -> & Hv' & Hfr & Hr); [lia|].
    eexists _, _. split; [done|]. split_and!; [done..|].
    destruct r; [split_and!; [tauto|lia|tauto]|]. destruct Hr as (? & ? & ?). eauto 10.
  - destruct (mem_reserve_spec s l (Z.max needed (v_capacity (st_vec s) * 2)) Hv)
      as (s' & r & -> & Hv' & Hfr & Hr); [lia|].
    eexists _, _. split; [done|]. split_and!; [done..|].
    destruct r; [split_and!; [tauto|lia|tauto]|]. destruct Hr as (? & ? & ?).
    split_and!; [done..|]. eexists. split; [|done]. lia.
Qed.

(** Replacing the cells of the vector's block. *)
Lemma vok_update q sz cap h nx l l' tail' :
  vok (VState (Vec (Some q) sz cap) h nx) l →
  length l' + length tail' = Z.to_nat cap →
  vok (VState (Vec (Some q) (Z.of_nat (length l')) cap)
         (<[q := (Some <$> l') ++ tail']> h) nx) l' ∧
  sframe (VState (Vec (Some q) (Z.of_nat (length l')) cap)
         (<[q := (Some <$> l') ++ tail']> h) nx) = delete q h.
Proof.
  intros [(tail & Hq & Hs & Hcap & Hb) Hf] Hlen; simpl in *. split.
  - split; simpl.
    + exists tail'. simpl. rewrite lookup_insert_eq. split_and!; try done. lia.
    + intros p c. rewrite lookup_insert_Some. intros [[<- _]|[_ Hp]]; eauto.
  - unfold sframe, frame; simpl. by rewrite delete_insert_eq.
Qed.

Lemma store_at_end q sz cap h nx l x :
  vok (VState (Vec (Some q) sz cap) h nx) l → (sz < cap)%Z →
  ∃ h', store (Some q) sz x (VState (Vec (Some q) sz cap) h nx) =
          (VState (Vec (Some q) sz cap) h' nx, Ok ()) ∧
        vok (VState (Vec (Some q) (sz + 1) cap) h' nx) (l ++ [x]) ∧
        delete q h' = delete q h.
Proof.
  intros Hv Hlt. destruct (Hv) as [(tail & Hq & Hs & Hcap & Hb) Hf]; simpl in *.
  destruct tail as [|t tail]; [simpl in *; lia|]. subst sz.
  unfold store; simpl. rewrite Hq, length_app, length_fmap.
  rewrite (proj2 (Z.leb_le _ _)), (proj2 (Z.ltb_lt _ _)) by (simpl in *; lia). simpl.
  eexists. split; [done|]. rewrite Nat2Z.id.
  rewrite insert_app_r_alt by (rewrite length_fmap; lia).
  rewrite length_fmap, Nat.sub_diag. simpl.
  destruct (vok_update q _ cap h nx l (l ++ [x]) tail Hv) as [H1 H2].
  { rewrite length_app. simpl in *. lia. }
  rewrite fmap_app, <-app_assoc in H1, H2. simpl in H1, H2.
  rewrite length_app, Nat2Z.inj_add in H1. simpl in H1.
  split; [done|]. by rewrite !delete_insert_eq.
Qed.

Lemma push_back_spec s l x :
  vok s l →
  ∃ s' r, push_back sizeof grant x s = (s', r) ∧ sframe s' = sframe s ∧
    match r with
    | Ok _ => vok s' (l ++ [x])
    | Throw e => vok s' l ∧ may_fail (OpPush x) (Throw e)
    end.
Proof using Hsz Hgrant.
  intros Hv. destruct (Hv) as [Hc _].
  pose proof (content_capacity _ _ _ Hc) as (Hsc & _ & Hb).
  pose proof (content_size _ _ _ Hc) as Hs.
  unfold push_back, push_back_ref. munfold_goal.
  assert (wrap 64 (v_size (st_vec s) + 1) = v_size (st_vec s) + 1)%Z as ->.
  { unfold wrap. apply Z.mod_small. lia. }
  destruct (auto_capacity_spec s l (v_size (st_vec s) + 1) Hv)
    as (s' & r & -> & Hv' & Hfr & Hr); [lia|]. simpl.
  destruct r as [p|e].
  - destruct Hr as (-> & Hcap & _). destruct (Hv') as [Hc' _].
    pose proof (content_size _ _ _ Hc') as Hs'.
    destruct s' as [[[q|] sz cap] h nx]; simpl in *.
    2: { unfold content in Hc'; simpl in Hc'. lia. }
    destruct (store_at_end q sz cap h nx l x Hv') as (h' & -> & Hv'' & Hd); [lia|].
    simpl. unfold set_size; simpl. eexists _, _. split; [done|].
    replace (v_size (st_vec s) + 1)%Z with (sz + 1)%Z by lia. split; [|done].
    rewrite <-Hfr. done.
  - destruct Hr as (_ & _ & nc & _ & He). eexists _, _. split; [done|]. split_and!; [done..|].
    unfold may_fail. naive_solver.
Qed.

Lemma reserve_spec s l n :
  vok s l → (0 ≤ n)%Z →
  ∃ s' r, reserve sizeof grant n s = (s', r) ∧ sframe s' = sframe s ∧ vok s' l ∧
    match r with
    | Ok _ => (n ≤ v_capacity (st_vec s'))%Z
    | Throw e => may_fail (T := T) (OpReserve n) (Throw e)
    end.
Proof using Hsz Hgrant.
  intros Hv Hn. unfold reserve. munfold_goal.
  destruct (auto_capacity_spec s l n Hv Hn) as (s' & r & -> & Hv' & Hfr & Hr). simpl.
  destruct r as [p|e]; eexists _, _; split_and!; try done; [naive_solver|].
  destruct Hr as (_ & _ & nc & _ & He). unfold may_fail. naive_solver.
Qed.

(** Lowering the size keeps a prefix. *)
Lemma vok_shrink v h nx l k :
  vok (VState v h nx) l → k ≤ length l →
  vok (VState (set_size (Z.of_nat k) v) h nx) (take k l).
Proof.
  intros [Hc Hf] Hk. split; [|done]. unfold content in *; simpl in *.
  destruct (v_ptr v) as [q|]; simpl in *.
  - destruct Hc as (tail & Hq & Hs & Hcap & Hb).
    exists ((Some <$> drop k l) ++ tail).
    rewrite app_assoc, <-fmap_app, take_drop. split_and!; [done| | |done].
    + rewrite length_take. lia.
    + rewrite length_take, length_app, length_fmap, length_drop. lia.
  - destruct Hc as (_ & ? & ->). simpl in Hk. assert (k = 0) as -> by lia. done.
Qed.

Lemma set_size_id v n : v_size v = n → set_size n v = v.
Proof. destruct v. by intros <-. Qed.

Lemma clear_loop_spec fuel v h nx l :
  vok (VState v h nx) l → length l ≤ fuel →
  clear_loop fuel (VState v h nx) = (VState (set_size 0 v) h nx, Ok ()).
Proof.
  revert v l. induction fuel as [|fuel IH]; intros v l Hv Hl; simpl; munfold_goal;
    pose proof (content_size _ _ _ (proj1 Hv)) as Hs; simpl in Hs.
  - by rewrite set_size_id by lia.
  - destruct (Z.ltb_spec 0 (v_size v)).
    + pose proof (vok_shrink v h nx l (length l - 1) Hv ltac:(lia)) as Hv'.
      replace (Z.of_nat (length l - 1)) with (v_size v - 1)%Z in Hv' by lia.
      simpl. rewrite (IH _ _ Hv'); [done|]. rewrite length_take. lia.
    + by rewrite set_size_id by lia.
Qed.

Lemma clear_spec v h nx l :
  vok (VState v h nx) l →
  clear (VState v h nx) = (VState (set_size 0 v) h nx, Ok ()) ∧
  vok (VState (set_size 0 v) h nx) [].
Proof.
  intros Hv. split; [|by apply (vok_shrink v h nx l 0 Hv); lia].
  unfold clear. munfold_goal. apply (clear_loop_spec _ v h nx l Hv).
  pose proof (content_size _ _ _ (proj1 Hv)). simpl in *. lia.
Qed.

Lemma reset_spec v h nx l :
  vok (VState v h nx) l →
  reset (VState v h nx) = (VState vector_default (frame h v) nx, Ok ()) ∧
  vok (VState vector_default (frame h v) nx) [].
Proof.
  intros Hv. pose proof (clear_spec v h nx l Hv) as [Hclr [Hc Hf]].
  unfold reset. munfold_goal. rewrite Hclr. unfold free, frame. simpl in *.
  destruct v as [[q|] sz cap]; unfold content in Hc; simpl in *.
  - destruct Hc as (tail & Hq & _). rewrite Hq. simpl. split; [done|].
    split; [done|]. intros p c. simpl. rewrite lookup_delete_Some. naive_solver.
  - split; [done|]. by split.
Qed.

Lemma pop_back_spec v h nx l :
  vok (VState v h nx) l →
  pop_back (VState v h nx) =
    (if (Z.of_nat (length l) =? 0)%Z
     then (VState v h nx, Throw (RuntimeError "container is empty"))
     else (VState (set_size (Z.of_nat (length l - 1)) v) h nx, Ok ())).
Proof.
  intros Hv. pose proof (content_size _ _ _ (proj1 Hv)) as Hs. simpl in Hs.
  unfold pop_back, empty. munfold_goal. rewrite Hs.
  destruct (Z.eqb_spec (Z.of_nat (length l)) 0); [done|].
  by replace (Z.of_nat (length l) - 1)%Z with (Z.of_nat (length l - 1)) by lia.
Qed.

(** Moving the elements from [j] on down to [i]. *)
Lemma block_move_spec q sz cap w h nx l i j :
  vok (VState (Vec (Some q) sz cap) h nx) l → i ≤ j → j ≤ length l →
  ∃ h', block_move (Some q) (Z.of_nat i) (Z.of_nat j) (Z.of_nat (length l - j)) (VState w h nx) =
          (VState w h' nx, Ok ()) ∧
        vok (VState (Vec (Some q) (Z.of_nat (i + (length l - j))) cap) h' nx)
          (take i l ++ drop j l) ∧
        delete q h' = delete q h.
Proof.
  intros Hv Hij Hj. destruct (Hv) as [(tail & Hq & Hs & Hcap & Hb) Hf]; simpl in *.
  unfold block_move; simpl. rewrite Hq, length_app, length_fmap.
  rewrite !(proj2 (Z.leb_le _ _)) by lia. simpl. eexists. split; [done|].
  rewrite !Nat2Z.id.
  set (pre := take i l). set (g := take (j - i) (drop i l)). set (m := drop j l).
  assert (l = pre ++ g ++ m) as Hl.
  { unfold pre, g, m. rewrite <-(take_drop i l) at 1. f_equal.
    rewrite <-(take_drop (j - i) (drop i l)) at 1. f_equal. rewrite drop_drop. f_equal. lia. }
  assert (length pre = i ∧ length g = j - i ∧ length m = length l - j) as (Hp & Hg & Hm).
  { unfold pre, g, m. rewrite !length_take, !length_drop. lia. }
  assert (memmove ((Some <$> l) ++ tail) i j (length l - j) =
    (Some <$> (pre ++ m)) ++ drop (length m) ((Some <$> (g ++ m)) ++ tail)) as ->.
  { pose proof (memmove_gap (Some <$> pre) (Some <$> g) (Some <$> m) tail) as Hmm.
    rewrite !length_fmap, Hp, Hg, Hm in Hmm. rewrite Hl at 1.
    rewrite !fmap_app, <-!app_assoc. replace (i + (j - i)) with j in Hmm by lia.
    rewrite Hmm, Hm. done. }
  destruct (vok_update q sz cap h nx l (pre ++ m)
              (drop (length m) ((Some <$> (g ++ m)) ++ tail)) Hv) as [H1 H2].
  { rewrite length_drop, !length_app, length_fmap, length_app. lia. }
  rewrite length_app, Hp, Hm in H1. rewrite Hm. split; [done|].
  by rewrite delete_insert_eq.
Qed.

Lemma erase_spec s l i :
  vok s l →
  ∃ s' r, erase i s = (s', r) ∧ sframe s' = sframe s ∧
    ∃ l', vok s' l' ∧ spec_op (OpErase i) l = (l', (OutIter <$> r)).
Proof.
  intros Hv. destruct s as [v h nx]. pose proof (content_size _ _ _ (proj1 Hv)) as Hs.
  simpl in Hs. unfold erase, _check_iterator, end_. munfold_goal. rewrite Hs.
  destruct (Z.ltb_spec i 0); simpl; [by eauto 10|].
  destruct (Z.leb_spec (Z.of_nat (length l)) i); simpl; [by eauto 10|]. rewrite !Hs.
  destruct (Z.eqb_spec (Z.of_nat (length l) - i - 1) 0) as [He|He].
  - rewrite (pop_back_spec v h nx l Hv).
    destruct (Z.eqb_spec (Z.of_nat (length l)) 0); [lia|]. simpl.
    eexists _, _. split; [done|]. split; [done|].
    eexists. split; [apply (vok_shrink v h nx l (length l - 1) Hv); lia|].
    rewrite (drop_ge l) by lia. rewrite app_nil_r. f_equal; [f_equal; lia|].
    do 2 f_equal. lia.
  - destruct v as [[q|] sz cap]; simpl in *; [|destruct Hv as [Hc _]; unfold content in Hc; simpl in *; lia].
    destruct (block_move_spec q sz cap (Vec (Some q) sz cap) h nx l (Z.to_nat i) (Z.to_nat i + 1) Hv)
      as (h' & Hbm & Hv' & Hd); [lia..|].
    rewrite Z2Nat.id in Hbm by lia.
    replace (Z.of_nat (Z.to_nat i + 1)) with (i + 1)%Z in Hbm by lia.
    replace (Z.of_nat (length l - (Z.to_nat i + 1))) with (Z.of_nat (length l) - i - 1)%Z in Hbm by lia.
    rewrite Hbm. simpl. eexists _, _. split; [done|]. split; [done|].
    eexists. split; [|done]. unfold set_size; simpl.
    by replace (Z.of_nat (Z.to_nat i + (length l - (Z.to_nat i + 1)))) with
      (sz - 1)%Z in Hv' by lia.
Qed.

Lemma erase_range_spec s l i j :
  vok s l →
  ∃ s' r, erase_range i j s = (s', r) ∧ sframe s' = sframe s ∧
    ∃ l', vok s' l' ∧ spec_op (OpEraseRange i j) l = (l', (OutIter <$> r)).
Proof using Hsz.
  intros Hv. destruct s as [v h nx]. pose proof (content_size _ _ _ (proj1 Hv)) as Hs.
  pose proof (content_capacity _ _ _ (proj1 Hv)) as Hcap.
  simpl in Hs, Hcap. unfold erase_range, _check_iterator, end_. munfold_goal.
  destruct (Z.eqb_spec i j); simpl; rewrite ?Hs; [by eauto 10|].
  destruct (Z.ltb_spec i 0); simpl; rewrite ?Hs; [by eauto 10|].
  destruct (Z.ltb_spec (Z.of_nat (length l)) i); simpl; rewrite ?Hs; [by eauto 10|].
  destruct (Z.ltb_spec j 0); simpl; rewrite ?Hs; [by eauto 10|].
  destruct (Z.ltb_spec (Z.of_nat (length l)) j); simpl; rewrite ?Hs; [by eauto 10|].
  destruct (Z.ltb_spec j i); simpl; [by eauto 10|]. rewrite ?Hs.
  unfold wrap. rewrite Z.mod_small by lia.
  destruct (Z.ltb_spec 0 (Z.of_nat (length l) - j)) as [Hd|Hd].
  - destruct v as [[q|] sz cap]; simpl in *; [|destruct Hv as [Hc _]; unfold content in Hc; simpl in *; lia].
    destruct (block_move_spec q sz cap
      (Vec (Some q) (Z.of_nat (length l) - (j - i)) cap) h nx l (Z.to_nat i) (Z.to_nat j) Hv)
      as (h' & Hbm & Hv' & Hdel); [lia..|].
    rewrite !Z2Nat.id in Hbm by lia.
    replace (Z.of_nat (length l - Z.to_nat j)) with (Z.of_nat (length l) - j)%Z in Hbm by lia.
    unfold set_size; simpl. rewrite Hbm. simpl. eexists _, _. split; [done|]. split; [done|].
    eexists. split; [|done].
    by replace (Z.of_nat (Z.to_nat i + (length l - Z.to_nat j))) with
      (Z.of_nat (length l) - (j - i))%Z in Hv' by lia.
  - eexists _, _. split; [done|]. split; [done|]. eexists. split; [|done].
    rewrite (drop_ge l) by lia. rewrite app_nil_r.
    pose proof (vok_shrink v h nx l (Z.to_nat i) Hv ltac:(lia)) as Hv'.
    by replace (Z.of_nat (Z.to_nat i)) with (Z.of_nat (length l) - (j - i))%Z in Hv' by lia.
Qed.

Lemma at_spec s l i :
  vok s l → (0 ≤ i)%Z →
  ∃ r, at_ i s = (s, r) ∧ spec_op (OpAt i) l = (l, OutVal <$> r).
Proof.
  intros Hv Hi. destruct s as [v h nx]. pose proof (content_size _ _ _ (proj1 Hv)) as Hs.
  simpl in Hs. unfold at_. munfold_goal. rewrite Hs.
  rewrite (proj2 (Z.ltb_ge i 0)) by done.
  destruct (Z.ltb_spec i (Z.of_nat (length l))) as [Hlt|Hge].
  - destruct v as [[q|] sz cap]; simpl in *; [|destruct Hv as [Hc _]; unfold content in Hc; simpl in *; lia].
    destruct Hv as [(tail & Hq & _) _]; simpl in *. unfold load; simpl. rewrite Hq. simpl.
    rewrite (proj2 (Z.ltb_ge i 0)) by done.
    destruct (lookup_lt_is_Some_2 l (Z.to_nat i)) as [x Hx]; [lia|].
    rewrite lookup_app_l by (rewrite length_fmap; lia).
    rewrite list_lookup_fmap, Hx. simpl. eauto.
  - rewrite (lookup_ge_None_2 l) by lia. eauto.
Qed.

(** Every call behaves as the list does, or fails to allocate without effect,
    and touches no memory but the vector's. *)
Lemma exec_refines op s l :
  vok s l → op_wf op →
  ∃ s' r l', exec sizeof grant op s = (s', r) ∧ vok s' l' ∧ sframe s' = sframe s ∧
    (spec_op op l = (l', r) ∨ (may_fail op r ∧ l' = l)).
Proof using Hsz Hgrant.
  intros Hv Hop. destruct op as [x| |i|i j|n| | |i]; unfold exec, mbind, M_bind.
  - destruct (push_back_spec s l x Hv) as (s' & [[]|e] & -> & Hfr & Hr).
    + eexists _, _, (l ++ [x]). by auto.
    + destruct Hr. eexists _, _, l. by auto 10.
  - destruct s as [v h nx]. rewrite (pop_back_spec v h nx l Hv). unfold spec_op.
    destruct (Z.eqb_spec (Z.of_nat (length l)) 0).
    + eexists _, _, l. by auto.
    + eexists _, _, _. split; [done|].
      split; [apply (vok_shrink v h nx l (length l - 1) Hv); lia|]. by auto.
  - destruct (erase_spec s l i Hv) as (s' & [k|e] & -> & Hfr & l' & Hv' & ->); by eauto 10.
  - destruct (erase_range_spec s l i j Hv) as (s' & [k|e] & -> & Hfr & l' & Hv' & ->); by eauto 10.
  - destruct Hop as [Hn _].
    destruct (reserve_spec s l n Hv Hn) as (s' & [[]|e] & -> & Hfr & Hv' & Hr).
    + eexists _, _, l. by auto.
    + eexists _, _, l. by auto 10.
  - destruct s as [v h nx]. destruct (clear_spec v h nx l Hv) as [-> Hv']. by eauto 10.
  - destruct s as [v h nx]. destruct (reset_spec v h nx l Hv) as [-> Hv'].
    eexists _, _, []. by auto.
  - destruct Hop as [Hi _]. destruct (at_spec s l i Hv Hi) as ([x|e] & -> & ->); by eauto 10.
Qed.

(** A default-constructed vector in any memory. *)
Lemma vok_default (h : gmap nat (list (option T))) nx :
  (∀ p c, h !! p = Some c → p < nx) → vok (VState vector_default h nx) [].
Proof. intros Hf. by split. Qed.

(** [push_back] of a reference to an element of the vector itself: while
    there is room it appends a copy of the element, but when the vector is full
    the growth releases the block first, and reading the reference afterwards is
    undefined behaviour. *)
Theorem push_back_own_element s l p i x :
  vok s l → v_ptr (st_vec s) = Some p → l !! i = Some x →
  (v_size (st_vec s) < v_capacity (st_vec s) →
   ∃ s', push_back_ref sizeof grant (Inside p (Z.of_nat i)) s = (s', Ok ()) ∧ vok s' (l ++ [x]))%Z ∧
  (v_size (st_vec s) = v_capacity (st_vec s) →
   (∀ n b, b ≤ 2 ^ 62 → grant n b = true) →
   v_capacity (st_vec s) * 2 * sizeof ≤ 2 ^ 62 → 16 * sizeof ≤ 2 ^ 62 →
   ∃ s' e, push_back_ref sizeof grant (Inside p (Z.of_nat i)) s =
           (s', Throw (UndefinedBehaviour e)))%Z.
Proof using Hsz Hgrant.
  intros Hv Hp Hi. destruct (Hv) as [Hc Hf].
  pose proof (content_capacity _ _ _ Hc) as (Hsc & _ & Hb).
  pose proof (content_size _ _ _ Hc) as Hs.
  assert (wrap 64 (v_size (st_vec s) + 1) = v_size (st_vec s) + 1)%Z as Hw.
  { unfold wrap. apply Z.mod_small. lia. }
  unfold push_back_ref. munfold_goal. rewrite Hw. split.
  - intros Hlt. unfold _auto_capacity. munfold_goal.
    rewrite (proj2 (Z.leb_le _ _)) by lia.
    destruct s as [[ptr sz cap] h nx]; simpl in *. subst ptr.
    destruct Hc as (tail & Hq & _ & _ & _); simpl in *.
    unfold load; simpl. rewrite Hq; simpl. rewrite (proj2 (Z.ltb_ge _ _)) by lia.
    rewrite Nat2Z.id, lookup_app_l, list_lookup_fmap, Hi
      by (rewrite length_fmap; eauto using lookup_lt_Some). simpl.
    destruct (store_at_end p sz cap h nx l x Hv) as (h' & -> & Hv'' & Hd); [lia|].
    simpl. eauto.
  - intros Heq Hg Hcap2 Hcap16.
    assert (1 ≤ v_capacity (st_vec s))%Z.
    { rewrite <-Heq, Hs. apply lookup_lt_Some in Hi. lia. }
    destruct (auto_capacity_spec s l (v_size (st_vec s) + 1) Hv)
      as (s' & r & E & Hv' & Hfr & Hr); [lia|]. rewrite E. simpl. destruct r as [q|e]; simpl.
    + destruct Hr as (_ & _ & Hq). specialize (Hq ltac:(lia)).
      assert (st_heap s' !! p = None) as Hnone.
      { unfold sframe, frame in Hfr. rewrite Hp, Hq in Hfr.
        assert (p < st_next s).
        { unfold content in Hc. rewrite Hp in Hc. destruct Hc as (? & Hh & _). eauto. }
        rewrite <-(lookup_delete_ne (st_heap s') (st_next s) p) by lia.
        rewrite Hfr. apply lookup_delete_eq. }
      unfold load; simpl. rewrite Hnone. simpl. eauto.
    + exfalso. destruct Hr as (_ & _ & nc & Hnc & Hr).
      assert (nc * sizeof ≤ 2 ^ 62)%Z by nia.
      destruct Hr as [[_ Hr]|[_ Hr]]; [by rewrite Hg in Hr|unfold size_max in Hr; lia].
Qed.

(** Copying into an object under construction. *)
Lemma copy_construct_spec other s l :
  content (st_heap s) other l → (∀ p c, st_heap s !! p = Some c → p < st_next s) →
  ∃ s' r, copy_construct sizeof grant other s = (s', r) ∧ frame (st_heap s') (st_vec s') = st_heap s ∧
    match r with
    | Ok _ => vok s' l
    | Throw e => vok s' [] ∧ st_heap s' = st_heap s ∧ st_vec s' = vector_default ∧
        may_fail (T := T) (OpReserve 0) (Throw e)
    end.
Proof using Hsz Hgrant.
  intros Hc Hf. pose proof (content_size _ _ _ Hc) as Hs.
  pose proof (content_capacity _ _ _ Hc) as Hcap.
  unfold copy_construct. munfold_goal. rewrite Hs.
  pose proof (vok_default (st_heap s) (st_next s) Hf) as Hd.
  destruct (Z.eqb_spec (Z.of_nat (length l)) 0) as [E0|E0].
  { eexists _, _. split; [done|]. split; [done|]. by destruct l. }
  destruct (auto_capacity_spec _ _ (Z.of_nat (length l)) Hd)
    as (s' & r & -> & Hv' & Hfr & Hr); [lia|]. simpl in *. destruct r as [q|e].
  - destruct Hr as (-> & Hle & Hq). specialize (Hq ltac:(lia)). rewrite Hq.
    destruct s' as [v' h' nx']; destruct (Hv') as [Hc' Hf'].
    unfold sframe, frame, content in Hfr, Hc, Hc'; simpl in *. rewrite Hq in *.
    destruct Hc' as (d & Hh' & Hsz' & Hcap' & Hb'); simpl in *.
    destruct (v_ptr other) as [po|]; [|destruct Hc as (? & ? & ->); simpl in *; lia].
    destruct Hc as (tail & Hpo & _).
    assert (po < st_next s) by eauto.
    assert (h' !! po = Some ((Some <$> l) ++ tail)) as Hpo'.
    { rewrite <-(lookup_delete_ne h' (st_next s) po) by lia. by rewrite Hfr. }
    unfold block_copy; simpl. rewrite Hh', Hpo', length_app, length_fmap.
    rewrite !(proj2 (Z.leb_le _ _)) by lia. simpl.
    eexists _, _. split; [done|]. split.
    + unfold frame; simpl. rewrite Hq, delete_insert_eq. done.
    + destruct v' as [ptr' sz' cap']; simpl in *. subst ptr'.
      destruct (vok_update (st_next s) sz' cap' h' nx' [] l (drop (length l) d) Hv') as [Hu _].
      { rewrite length_drop. lia. }
      rewrite Nat2Z.id, take_app_length' by (by rewrite length_fmap). done.
  - destruct Hr as (Hvec & Hheap & nc & _ & He). eexists _, _. split; [done|].
    unfold frame. rewrite Hvec, Hheap. split; [done|].
    split_and!; try done. unfold may_fail. naive_solver.
Qed.

(** A copied vector is a deep copy: when the copy constructor returns, the
    new vector holds the elements of the original in a block of its own, and
    every other block, the original's included, is as it was; when it throws,
    nothing was allocated. *)
Theorem copy_construct_correct other s l :
  content (st_heap s) other l → (∀ p c, st_heap s !! p = Some c → p < st_next s) →
  ∃ s' r, copy_construct sizeof grant other s = (s', r) ∧
    frame (st_heap s') (st_vec s') = st_heap s ∧
    match r with
    | Ok _ => content (st_heap s') (st_vec s') l ∧ content (st_heap s') other l
    | Throw _ => st_heap s' = st_heap s
    end.
Proof using Hsz Hgrant.
  intros Hc Hf. destruct (copy_construct_spec other s l Hc Hf) as (s' & r & E & Hfr & Hr).
  eexists _, _. split; [done|]. split; [done|]. destruct r as [[]|e]; [|tauto].
  split; [apply Hr|]. destruct Hr as [Hv _]. unfold content, frame in *.
  destruct (v_ptr other) as [p|]; [|done]. destruct Hc as (tail & Hp & Hrest).
  exists tail. split; [|done]. destruct (v_ptr (st_vec s')) as [q|]; [|by rewrite Hfr].
  rewrite <-Hfr in Hp. by apply lookup_delete_Some in Hp as [_ ?].
Qed.
(** The content of a vector in a heap from which another block was removed. *)
Lemma content_delete (h : gmap nat (list (option T))) v l q :
  v_ptr v ≠ Some q → content (delete q h) v l ↔ content h v l.
Proof.
  unfold content. destruct (v_ptr v) as [p|]; [|done].
  intros Hne. rewrite lookup_delete_ne by congruence. done.
Qed.

Lemma content_frame (h : gmap nat (list (option T))) v w l :
  content (frame h w) v l → content h v l.
Proof.
  unfold frame. destruct (v_ptr w) as [q|] eqn:Hw; [|done].
  destruct (decide (v_ptr v = Some q)) as [E|E]; [|by rewrite content_delete].
  unfold content. rewrite E, lookup_delete_eq. naive_solver.
Qed.

(** Copy assignment from another vector has the strong guarantee: it
    returns with the object holding the other's elements, its old block freed
    and the other memory as it was, or it throws and the object and the memory
    are as they were.  Assigning an object to itself does nothing. *)
Theorem copy_assign_correct other s l0 l :
  vok s l0 → content (sframe s) other l →
  copy_assign sizeof grant None s = (s, Ok ()) ∧
  ∃ s' r, copy_assign sizeof grant (Some other) s = (s', r) ∧ sframe s' = sframe s ∧
    match r with
    | Ok _ => vok s' l
    | Throw e => vok s' l0 ∧ st_vec s' = st_vec s ∧ st_heap s' = st_heap s ∧
        may_fail (T := T) (OpReserve 0) (Throw e)
    end.
Proof using Hsz Hgrant.
  intros Hv Hother. split; [done|]. destruct (Hv) as [Hc Hf]. unfold copy_assign, swap.
  destruct (copy_construct_spec other s l) as (s1 & r & -> & Hfr & Hr);
    [by apply content_frame in Hother|done|].
  destruct r as [[]|e]; [|destruct Hr as ([_ Hf1] & Hh & _ & He)].
  2: { eexists _, _. split; [done|]. unfold sframe; simpl. rewrite Hh in *. by split_and!. }
  destruct s as [v h nx], s1 as [v1 h1 nx1]; unfold sframe in *; simpl in *.
  destruct Hr as [Hc1 Hf1]; simpl in *.
  assert (vok (VState v h1 nx1) l0) as Hv1.
  { split; simpl; [|done]. rewrite <-Hfr in Hc. by apply content_frame in Hc. }
  destruct (reset_spec v h1 nx1 l0 Hv1) as [-> _].
  assert (v_ptr v ≠ v_ptr v1 ∨ v_ptr v = None) as Hne.
  { destruct (v_ptr v) as [p|] eqn:Hp; [left|by right]. intros Hp1.
    unfold content in Hc. rewrite Hp in Hc. destruct Hc as (t & Ht & _).
    unfold frame in Hfr. rewrite <-Hp1 in Hfr. rewrite <-Hfr, lookup_delete_eq in Ht. done. }
  eexists _, _. split; [done|]. unfold sframe, frame in *; simpl. rewrite <-Hfr.
  destruct (v_ptr v) as [p|] eqn:Hp, (v_ptr v1) as [p1|] eqn:Hp1; simpl.
  - split; [apply delete_delete|]. split; simpl.
    + apply content_delete; [|done]. destruct Hne; congruence.
    + intros p' c. rewrite lookup_delete_Some. naive_solver.
  - split; [done|]. split; simpl.
    + apply content_delete; [|done]. destruct Hne; congruence.
    + intros p' c. rewrite lookup_delete_Some. naive_solver.
  - split; [done|]. by split.
  - split; [done|]. by split.
Qed.
End properties.

(** ** Concrete instances *)

(** A platform with 8-byte elements whose allocator grants up to 2^62 bytes. *)
Definition grant62 (n : nat) (b : Z) : bool := (b <=? 2 ^ 62)%Z.

Lemma grant62_bounded n b : grant62 n b = true → (b ≤ 2 ^ 63 - 1)%Z.
Proof. unfold grant62. intros H%Z.leb_le. lia. Qed.

(** A vector holding [1; 2] in a block of two cells, beside another block. *)
Definition full_state : @vstate Z :=
  VState (Vec (Some 1) 2 2) {[1 := [Some 1%Z; Some 2%Z]; 0 := [None]]} 2.
Definition empty_heap : gmap nat (list (option Z)) := ∅.

Lemma full_state_ok : vok 8 full_state [1; 2]%Z.
Proof.
  split; simpl.
  - exists []. split_and!; [done..|simpl; lia].
  - intros p c. unfold full_state; simpl.
    rewrite lookup_insert_Some, lookup_singleton_Some. naive_solver lia.
Qed.

Lemma push_back_own_element_witness :
  ∃ s' e, push_back_ref 8 grant62 (Inside 1 0) full_state = (s', Throw (UndefinedBehaviour e)).
Proof.
  apply (push_back_own_element 8 grant62 ltac:(lia) grant62_bounded full_state [1; 2]%Z 1 0 1%Z);
    [apply full_state_ok|reflexivity..| |simpl; lia|lia].
  intros n b Hb. by apply Z.leb_le.
Defined.

Lemma copy_construct_correct_witness :
  ∃ s' r, copy_construct 8 grant62 (Vec (Some 1) 2 2) full_state = (s', r) ∧
    frame (st_heap s') (st_vec s') = st_heap full_state ∧
    match r with
    | Ok _ => content 8 (st_heap s') (st_vec s') [1; 2]%Z ∧
              content 8 (st_heap s') (Vec (Some 1) 2 2) [1; 2]%Z
    | Throw _ => st_heap s' = st_heap full_state
    end.
Proof.
  apply (copy_construct_correct 8 grant62 ltac:(lia) grant62_bounded
           (Vec (Some 1) 2 2) full_state [1; 2]%Z); apply full_state_ok.
Defined.

Lemma copy_assign_correct_witness :
  copy_assign 8 grant62 None full_state = (full_state, Ok ()) ∧
  ∃ s' r, copy_assign 8 grant62 (Some (Vec None 0 0)) full_state = (s', r) ∧
    sframe s' = sframe full_state ∧
    match r with
    | Ok _ => vok 8 s' []
    | Throw e => vok 8 s' [1; 2]%Z ∧ st_vec s' = st_vec full_state ∧ st_heap s' = st_heap full_state ∧
        may_fail (T := Z) (OpReserve 0) (Throw e)
    end.
Proof.
  apply (copy_assign_correct 8 grant62 ltac:(lia) grant62_bounded
           (Vec None 0 0) full_state [1; 2]%Z []); [apply full_state_ok|done].
Defined.
End Vector.
