(* ===== verification/Vectors.v ===== *)
(** * Programs over several vectors: vector.hpp

    The objects of a program live under names and share one heap; each statement
    constructs, copies, moves, exchanges, calls or destroys them by the member
    functions of [Vector].  The contract is a map from names to lists. *)

From S2P Require Import Prelude Vector.
Import Vector.

Module Vectors.

Section vectors.
Context {T : Type} (sizeof : Z) (grant : nat → Z → bool).

Record state := State { objs : gmap nat vec; heap : gmap nat (list (option T)); next : nat }.

(** A statement of a program. *)
Inductive stmt :=
| New (i : nat)
| Copy (i j : nat)          (** [vector i{ j }] *)
| Move (i j : nat)          (** [vector i{ std::move(j) }] *)
| Assign (i j : nat)
| MoveAssign (i j : nat)
| Swap (i j : nat)
| Call (i : nat) (op : vop (T := T))
| Destroy (i : nat).

(** A member function runs on its object in the common heap. *)
Definition on_object {A} (v : vec) (f : M vstate A) (s : state) : vec * gmap nat (list (option T)) * nat * res A :=
  let '(VState v h n, r) := f (VState v (heap s) (next s)) in (v, h, n, r).

(** One statement; [None] is a statement that names no object, or constructs one under a
    name in use, and is not part of a program. *)
Definition exec_stmt (c : stmt) (s : state) : state * option (res vout) :=
  match c with
  | New i =>
    match objs s !! i with
    | None => (State (<[i := vector_default]> (objs s)) (heap s) (next s), Some (Ok OutUnit))
    | Some _ => (s, None)
    end
  | Copy i j =>
    match objs s !! i, objs s !! j with
    | None, Some other =>
      let '(v, h, n, r) := on_object vector_default (copy_construct sizeof grant other) s in
      match r with
      | Ok _ => (State (<[i := v]> (objs s)) h n, Some (Ok OutUnit))
      | Throw e => (State (objs s) h n, Some (Throw e))
      end
    | _, _ => (s, None)
    end
  | Move i j =>
    match objs s !! i, objs s !! j with
    | None, Some other =>
      let '(this, other) := move_construct other in
      (State (<[i := this]> (<[j := other]> (objs s))) (heap s) (next s), Some (Ok OutUnit))
    | _, _ => (s, None)
    end
  | Assign i j =>
    match objs s !! i, objs s !! j with
    | Some this, Some other =>
      let '(v, h, n, r) := on_object this (copy_assign sizeof grant (if decide (i = j) then None else Some other)) s in
      (State (<[i := v]> (objs s)) h n, Some ((λ _, OutUnit) <$> r))
    | _, _ => (s, None)
    end
  | MoveAssign i j =>
    match objs s !! i, objs s !! j with
    | Some this, Some other =>
      let '(v, h, n, r) := on_object this (move_assign (if decide (i = j) then None else Some other)) s in
      match r with
      | Ok (Some other) => (State (<[j := other]> (<[i := v]> (objs s))) h n, Some (Ok OutUnit))
      | Ok None => (State (<[i := v]> (objs s)) h n, Some (Ok OutUnit))
      | Throw e => (State (<[i := v]> (objs s)) h n, Some (Throw e))
      end
    | _, _ => (s, None)
    end
  | Swap i j =>
    match objs s !! i, objs s !! j with
    | Some this, Some other =>
      let '(this, other) := swap this other in
      (State (<[j := other]> (<[i := this]> (objs s))) (heap s) (next s), Some (Ok OutUnit))
    | _, _ => (s, None)
    end
  | Call i op =>
    match objs s !! i with
    | Some this =>
      let '(v, h, n, r) := on_object this (exec sizeof grant op) s in
      (State (<[i := v]> (objs s)) h n, Some r)
    | None => (s, None)
    end
  | Destroy i =>
    match objs s !! i with
    | Some this =>
      let '(_, h, n, r) := on_object this reset s in
      (State (delete i (objs s)) h n, Some ((λ _, OutUnit) <$> r))
    | None => (s, None)
    end
  end.
Fixpoint run (l : list stmt) (s : state) : state * list (option (res vout)) :=
  match l with
  | [] => (s, [])
  | c :: l => let '(s, r) := exec_stmt c s in let '(s, rs) := run l s in (s, r :: rs)
  end.

(** ** The contract *)

Abbreviation lists := (gmap nat (list T)).

(** What a statement does to the lists when no allocation fails. *)
Definition spec_stmt (c : stmt) (m : lists) : lists * option (res vout) :=
  match c with
  | New i => match m !! i with None => (<[i := []]> m, Some (Ok OutUnit)) | Some _ => (m, None) end
  | Copy i j =>
    match m !! i, m !! j with None, Some l => (<[i := l]> m, Some (Ok OutUnit)) | _, _ => (m, None) end
  | Move i j =>
    match m !! i, m !! j with None, Some l => (<[i := l]> (<[j := []]> m), Some (Ok OutUnit)) | _, _ => (m, None) end
  | Assign i j =>
    match m !! i, m !! j with Some _, Some l => (<[i := l]> m, Some (Ok OutUnit)) | _, _ => (m, None) end
  | MoveAssign i j =>
    match m !! i, m !! j with
    | Some _, Some l => (if decide (i = j) then m else <[j := []]> (<[i := l]> m), Some (Ok OutUnit))
    | _, _ => (m, None)
    end
  | Swap i j =>
    match m !! i, m !! j with Some l, Some l' => (<[j := l]> (<[i := l']> m), Some (Ok OutUnit)) | _, _ => (m, None) end
  | Call i op =>
    match m !! i with Some l => let '(l, r) := spec_op op l in (<[i := l]> m, Some r) | None => (m, None) end
  | Destroy i => match m !! i with Some _ => (delete i m, Some (Ok OutUnit)) | None => (m, None) end
  end.
(** The statements that may fail to allocate. *)
Definition allocation_fails (c : stmt) (r : option (res (vout (T := T)))) : Prop :=
  match c with
  | Copy _ _ | Assign _ _ => ∃ r', r = Some r' ∧ may_fail (T := T) (OpReserve 0) r'
  | Call _ op => ∃ r', r = Some r' ∧ may_fail op r'
  | _ => False
  end.
Inductive spec_run : lists → list stmt → list (option (res vout)) → lists → Prop :=
| run_nil m : spec_run m [] [] m
| run_does m m' m'' c l r rs : spec_stmt c m = (m', r) → spec_run m' l rs m'' → spec_run m (c :: l) (r :: rs) m''
| run_fails m m'' c l r rs : allocation_fails c r → spec_run m l rs m'' → spec_run m (c :: l) (r :: rs) m''.
Definition stmt_wf (c : stmt) : Prop := match c with Call _ op => op_wf op | _ => True end.

(** ** The invariant *)

(** Whose block [p] is. *)
Definition owns (os : gmap nat vec) (i p : nat) : Prop := ∃ v, os !! i = Some v ∧ v_ptr v = Some p.
(** Every object has its list in the heap, no block has two owners, and the blocks without
    an owner are those of [h0]. *)
Record inv (h0 : gmap nat (list (option T))) (s : state) (m : lists) : Prop := Inv {
  inv_dom i : is_Some (objs s !! i) ↔ is_Some (m !! i);
  inv_content i v l : objs s !! i = Some v → m !! i = Some l → content sizeof (heap s) v l;
  inv_owner i j p : owns (objs s) i p → owns (objs s) j p → i = j;
  inv_foreign p : (∀ i, ¬ owns (objs s) i p) → heap s !! p = h0 !! p;
  inv_disjoint i p : owns (objs s) i p → h0 !! p = None;
  inv_bound p c : heap s !! p = Some c → p < next s;
}.

Lemma content_block (h : gmap nat (list (option T))) v l p : content sizeof h v l → v_ptr v = Some p → is_Some (h !! p).
Proof. unfold content. intros Hc Hp. rewrite Hp in Hc. destruct Hc as (tail & ? & _). by eexists. Qed.

Lemma frame_lookup (h : gmap nat (list (option T))) v p :
  frame h v !! p = if decide (v_ptr v = Some p) then None else h !! p.
Proof.
  unfold frame. destruct (v_ptr v) as [q|] eqn:Hq; [|by rewrite decide_False].
  destruct (decide (q = p)) as [->|]; [by rewrite lookup_delete_eq, decide_True|].
  by rewrite lookup_delete_ne, decide_False by congruence.
Qed.

Lemma owns_insert os i v j p : owns (<[i := v]> os) j p ↔ (if decide (j = i) then v_ptr v = Some p else owns os j p).
Proof. unfold owns. case_decide; subst; simplify_map_eq; naive_solver. Qed.

(** One object changes, with its own block. *)
Lemma inv_update h0 s m i v l v' h' n' l' :
  inv h0 s m → objs s !! i = Some v → m !! i = Some l →
  content sizeof h' v' l' → frame h' v' = frame (heap s) v → (∀ p c, h' !! p = Some c → p < n') →
  inv h0 (State (<[i := v']> (objs s)) h' n') (<[i := l']> m).
Proof.
  intros [Hd Hc Ho Hf Hdj Hb] Hi Hl Hc' Hfr Hb'.
  assert (Hfp : ∀ p, frame h' v' !! p = frame (heap s) v !! p) by (by rewrite Hfr). setoid_rewrite frame_lookup in Hfp.
  assert (Hother : ∀ j p, j ≠ i → owns (objs s) j p → is_Some (heap s !! p) ∧ v_ptr v ≠ Some p ∧ v_ptr v' ≠ Some p).
  { intros j p Hj Hjp. destruct Hjp as (w & Hw & Hp). destruct (proj1 (Hd j)) as [lw Hlw]; [by eexists|].
    pose proof (content_block _ _ _ _ (Hc _ _ _ Hw Hlw) Hp) as [c Hp'].
    assert (v_ptr v ≠ Some p) as Hne by (intros E; apply Hj, (Ho j i p); by eexists).
    split_and!; [by eexists|done|]. intros E. specialize (Hfp p). rewrite decide_True, decide_False, Hp' in Hfp by done. done. }
  split; simpl.
  - intros j. destruct (decide (j = i)) as [->|]; simplify_map_eq; [|done]. split; by eexists.
  - intros j w lw Hw Hlw. destruct (decide (j = i)) as [->|Hj]; simplify_map_eq; [done|].
    apply content_frame with v'. rewrite Hfr. specialize (Hc _ _ _ Hw Hlw). unfold frame. destruct (v_ptr v) as [q|] eqn:Hq; [|done].
    apply content_delete; [|done]. intros E. destruct (Hother j q Hj) as (_ & ? & _); [by eexists|done].
  - intros j k p. rewrite !owns_insert. repeat case_decide; subst; try done; [..|by apply Ho].
    + intros E1 E2. by destruct (Hother k p) as (_ & _ & ?).
    + intros E1 E2. by destruct (Hother j p) as (_ & _ & ?).
  - intros p Hun. assert (v_ptr v' ≠ Some p) by (specialize (Hun i); rewrite owns_insert, decide_True in Hun; done).
    specialize (Hfp p). rewrite decide_False in Hfp by done. rewrite Hfp. case_decide as E; [symmetry; apply (Hdj i); by exists v|].
    apply Hf. intros j Hj. apply (Hun j). rewrite owns_insert. case_decide; [|done]. subst. destruct Hj as (? & ? & ?). congruence.
  - intros j p. rewrite owns_insert. case_decide as Hj; [|by apply Hdj]. intros Hp. subst j.
    specialize (Hfp p). rewrite decide_True in Hfp by done. case_decide as E; [apply (Hdj i); by exists v|].
    rewrite <-Hf; [done|]. intros j Hj. destruct (decide (j = i)) as [->|Hne]; [destruct Hj as (? & ? & ?); congruence|].
    destruct (Hother j p) as ([? ?] & _); [done..|]. congruence.
  - done.
Qed.

(** An object without a block comes and goes. *)
Lemma inv_new h0 s m i : inv h0 s m → objs s !! i = None →
  inv h0 (State (<[i := vector_default]> (objs s)) (heap s) (next s)) (<[i := []]> m).
Proof.
  intros [Hd Hc Ho Hf Hdj Hb] Hi. split; simpl; [..|done].
  - intros j. destruct (decide (j = i)) as [->|]; simplify_map_eq; [|done]. split; by eexists.
  - intros j w lw Hw Hlw. destruct (decide (j = i)) as [->|Hj]; simplify_map_eq; [done|by eapply Hc].
  - intros j k p. rewrite !owns_insert. repeat case_decide; try done. apply Ho.
  - intros p Hun. apply Hf. intros j Hj. apply (Hun j). rewrite owns_insert. case_decide; [|done].
    subst. destruct Hj as (? & ? & ?). congruence.
  - intros j p. rewrite owns_insert. case_decide; [done|]. apply Hdj.
Qed.
Lemma inv_drop h0 s m i v : inv h0 s m → objs s !! i = Some v → v_ptr v = None →
  inv h0 (State (delete i (objs s)) (heap s) (next s)) (delete i m).
Proof.
  intros [Hd Hc Ho Hf Hdj Hb] Hi Hp.
  assert (Hown : ∀ j p, owns (delete i (objs s)) j p ↔ owns (objs s) j p).
  { intros j p. unfold owns. setoid_rewrite lookup_delete_Some. split; [naive_solver|]. intros (w & Hw & Hwp).
    exists w. split_and!; [|done|done]. intros <-. congruence. }
  split; simpl; [..|done].
  - intros j. destruct (decide (j = i)) as [->|]; [by rewrite !lookup_delete_eq|]. by rewrite !lookup_delete_ne.
  - intros j w lw [_ Hw]%lookup_delete_Some [_ Hlw]%lookup_delete_Some. by eapply Hc.
  - intros j k p. rewrite !Hown. apply Ho.
  - intros p Hun. apply Hf. intros j. rewrite <-Hown. apply Hun.
  - intros j p. rewrite Hown. apply Hdj.
Qed.

(** Two objects exchange their members. *)
Lemma inv_swap h0 s m i j v w l l' :
  inv h0 s m → objs s !! i = Some v → objs s !! j = Some w → m !! i = Some l → m !! j = Some l' →
  inv h0 (State (<[j := v]> (<[i := w]> (objs s))) (heap s) (next s)) (<[j := l]> (<[i := l']> m)).
Proof.
  intros [Hd Hc Ho Hf Hdj Hb] Hi Hj Hl Hl'.
  set (f k := if decide (k = i) then j else if decide (k = j) then i else k).
  assert (Hff : ∀ k, f (f k) = k) by (intros k; unfold f; repeat case_decide; congruence).
  assert (Hobj : ∀ k, <[j := v]> (<[i := w]> (objs s)) !! k = objs s !! f k).
  { intros k. unfold f. destruct (decide (k = j)) as [->|]; [rewrite lookup_insert_eq; case_decide; congruence|].
    rewrite lookup_insert_ne by done. case_decide; [subst; by rewrite lookup_insert_eq|by rewrite lookup_insert_ne]. }
  assert (Hm : ∀ k, <[j := l]> (<[i := l']> m) !! k = m !! f k).
  { intros k. unfold f. destruct (decide (k = j)) as [->|]; [rewrite lookup_insert_eq; case_decide; congruence|].
    rewrite lookup_insert_ne by done. case_decide; [subst; by rewrite lookup_insert_eq|by rewrite lookup_insert_ne]. }
  assert (Hown : ∀ k p, owns (<[j := v]> (<[i := w]> (objs s))) k p ↔ owns (objs s) (f k) p) by (intros; unfold owns; by rewrite Hobj).
  split; simpl; [..|done].
  - intros k. rewrite Hobj, Hm. apply Hd.
  - intros k x lx. rewrite Hobj, Hm. apply Hc.
  - intros k k' p. rewrite !Hown. intros H1 H2. rewrite <-(Hff k), <-(Hff k'). f_equal. by eapply Ho.
  - intros p Hun. apply Hf. intros k. rewrite <-(Hff k), <-Hown. apply Hun.
  - intros k p. rewrite Hown. apply Hdj.
Qed.

Lemma inv_get h0 s m i : inv h0 s m →
  (objs s !! i = None ∧ m !! i = None) ∨
  ∃ v l, objs s !! i = Some v ∧ m !! i = Some l ∧ vok sizeof (VState v (heap s) (next s)) l.
Proof.
  intros H. pose proof (inv_dom _ _ _ H i) as Hd. destruct (objs s !! i) as [v|] eqn:Hv, (m !! i) as [l|] eqn:Hl.
  - right. exists v, l. split_and!; [done..|]. split; simpl; [by eapply inv_content|by eapply inv_bound].
  - by destruct (proj1 Hd) as [? ?]; [eexists|].
  - by destruct (proj2 Hd) as [? ?]; [eexists|].
  - by left.
Qed.

(** The blocks of the other objects are in the frame of one. *)
Lemma inv_other h0 s m i j v w l : inv h0 s m → i ≠ j → objs s !! i = Some v → objs s !! j = Some w → m !! j = Some l →
  content sizeof (frame (heap s) v) w l.
Proof.
  intros H Hij Hi Hj Hl. pose proof (inv_content _ _ _ H _ _ _ Hj Hl). unfold frame. destruct (v_ptr v) as [q|] eqn:Hq; [|done].
  apply content_delete; [|done]. intros E. apply Hij. eapply inv_owner; [done|by exists v|by exists w].
Qed.

(** A new object with a block of its own. *)
Lemma inv_add h0 s m i v' h' n' l' :
  inv h0 s m → objs s !! i = None → content sizeof h' v' l' → frame h' v' = heap s →
  (∀ p c, h' !! p = Some c → p < n') → inv h0 (State (<[i := v']> (objs s)) h' n') (<[i := l']> m).
Proof.
  intros H Hi Hc Hfr Hb. pose proof (inv_new _ _ _ _ H Hi) as Hn.
  pose proof (inv_update h0 _ _ i vector_default [] v' h' n' l' Hn) as Hu. simpl in Hu.
  rewrite !insert_insert_eq in Hu. apply Hu; [apply lookup_insert_eq..|done|done|done].
Qed.
(** Giving an object its block back. *)
Lemma inv_reset h0 s m i v l : inv h0 s m → objs s !! i = Some v → m !! i = Some l →
  reset (VState v (heap s) (next s)) = (VState vector_default (frame (heap s) v) (next s), Ok ()) ∧
  inv h0 (State (<[i := vector_default]> (objs s)) (frame (heap s) v) (next s)) (<[i := []]> m).
Proof.
  intros H Hi Hl. destruct (inv_get _ _ _ i H) as [[? _]|(v' & l' & ? & ? & Hv)]; [congruence|]. simplify_eq.
  destruct (reset_spec sizeof v (heap s) (next s) l Hv) as [-> [Hc Hb]]. split; [done|].
  eapply inv_update; [done..|by exact Hc|done|by exact Hb].
Qed.

Context (Hsz : (0 < sizeof)%Z) (Hgrant : ∀ n b, grant n b = true → (b ≤ 2 ^ 63 - 1)%Z).

(** A statement that meets the contract in [s]. *)
Definition refines (h0 : gmap nat (list (option T))) (c : stmt) (s : state) (m : lists) : Prop :=
  ∃ s' r m', exec_stmt c s = (s', r) ∧ inv h0 s' m' ∧ (spec_stmt c m = (m', r) ∨ allocation_fails c r ∧ m' = m).

Lemma copy_refines h0 s m i j w lw :
  inv h0 s m → objs s !! i = None → m !! i = None → objs s !! j = Some w → m !! j = Some lw →
  vok sizeof (VState w (heap s) (next s)) lw → refines h0 (Copy i j) s m.
Proof using Hsz Hgrant.
  intros H Hi Hmi Hj Hmj Hw. unfold refines; simpl. rewrite Hi, Hmi, Hj, Hmj. unfold on_object.
  destruct (copy_construct_spec sizeof grant Hsz Hgrant w (VState vector_default (heap s) (next s)) lw) as
    ([v' h' n'] & r & E & Hfr & Hr); [apply Hw..|]. rewrite E. simpl in *. destruct r as [[]|e].
  - eexists _, _, _. split; [done|]. split; [|by left]. destruct Hr as [Hc Hb]. by apply inv_add.
  - destruct Hr as ([_ Hb] & Hh & _ & He). eexists _, _, m. split; [done|]. simpl in *. subst h'. split; [|right; eauto].
    destruct H. by split.
Qed.

Lemma move_refines h0 s m i j w lw :
  inv h0 s m → objs s !! i = None → m !! i = None → objs s !! j = Some w → m !! j = Some lw → refines h0 (Move i j) s m.
Proof.
  intros H Hi Hmi Hj Hmj. unfold refines; simpl. rewrite Hi, Hmi, Hj, Hmj. assert (j ≠ i) by congruence.
  eexists _, _, _. split; [done|]. split; [|by left].
  pose proof (inv_swap h0 _ _ j i w vector_default lw [] (inv_new _ _ _ i H Hi)) as Hs. simpl in Hs.
  rewrite !(insert_insert_ne _ j i), !insert_insert_eq in Hs by done.
  apply Hs; rewrite ?lookup_insert_eq, ?lookup_insert_ne by done; done.
Qed.

Lemma assign_refines h0 s m i j v l w lw :
  inv h0 s m → objs s !! i = Some v → m !! i = Some l → objs s !! j = Some w → m !! j = Some lw →
  vok sizeof (VState v (heap s) (next s)) l → refines h0 (Assign i j) s m.
Proof using Hsz Hgrant.
  intros H Hi Hmi Hj Hmj Hv. unfold refines; simpl. rewrite Hi, Hmi, Hj, Hmj. unfold on_object.
  destruct (decide (i = j)) as [->|Hij].
  - simplify_eq. simpl. eexists _, _, _. split; [done|]. rewrite !insert_id by done. split; [destruct s; exact H|by left].
  - destruct (copy_assign_correct sizeof grant Hsz Hgrant w (VState v (heap s) (next s)) l lw) as
      (_ & [v' h' n'] & r & -> & Hfr & Hr); [done|by eapply (inv_other _ _ _ i j)|].
    unfold sframe in Hfr. simpl in *. destruct r as [[]|e]; eexists _, _, _; (split; [done|]).
    + destruct Hr as [Hc Hb]. split; [by eapply inv_update|by left].
    + destruct Hr as ([_ Hb] & -> & -> & He). rewrite insert_id by done.
      split; [destruct H; by split|right; split; [by eexists|done]].
Qed.

Lemma move_assign_refines h0 s m i j v l w lw :
  inv h0 s m → objs s !! i = Some v → m !! i = Some l → objs s !! j = Some w → m !! j = Some lw →
  refines h0 (MoveAssign i j) s m.
Proof.
  intros H Hi Hmi Hj Hmj. unfold refines; simpl. rewrite Hi, Hmi, Hj, Hmj. unfold on_object.
  destruct (decide (i = j)) as [->|Hij]; simpl.
  - eexists _, _, _. split; [done|]. rewrite insert_id by done. split; [destruct s; exact H|by left].
  - unfold mbind, M_bind. destruct (inv_reset _ _ _ _ _ _ H Hi Hmi) as [-> Hr]. simpl.
    eexists _, _, _. split; [done|]. split; [|by left].
    pose proof (inv_swap h0 _ _ i j vector_default w [] lw Hr) as Hs. simpl in Hs. rewrite !insert_insert_eq in Hs.
    apply Hs; rewrite ?lookup_insert_eq, ?lookup_insert_ne by done; done.
Qed.

Lemma call_refines h0 s m i op v l :
  inv h0 s m → op_wf op → objs s !! i = Some v → m !! i = Some l →
  vok sizeof (VState v (heap s) (next s)) l → refines h0 (Call i op) s m.
Proof using Hsz Hgrant.
  intros H Hwf Hi Hmi Hv. unfold refines; simpl. rewrite Hi, Hmi. unfold on_object.
  destruct (exec_refines sizeof grant Hsz Hgrant op _ l Hv Hwf) as ([v' h' n'] & r & l' & -> & [Hc Hb] & Hfr & Hs).
  unfold sframe in Hfr. simpl in *. eexists _, _, (<[i := l']> m). split; [done|]. split; [by eapply inv_update|].
  destruct Hs as [->|[He ->]]; [by left|right]. rewrite insert_id by done. split; [by eexists|done].
Qed.

Lemma destroy_refines h0 s m i v l :
  inv h0 s m → objs s !! i = Some v → m !! i = Some l → refines h0 (Destroy i) s m.
Proof.
  intros H Hi Hmi. unfold refines; simpl. rewrite Hi, Hmi. unfold on_object.
  destruct (inv_reset _ _ _ _ _ _ H Hi Hmi) as [-> Hr]. eexists _, _, _. split; [done|]. split; [|by left].
  pose proof (inv_drop _ _ _ i vector_default Hr) as Hd. simpl in Hd. rewrite !delete_insert_eq in Hd.
  apply Hd; [apply lookup_insert_eq|done].
Qed.

Lemma exec_stmt_refines h0 c s m : inv h0 s m → stmt_wf c → refines h0 c s m.
Proof using Hsz Hgrant.
  intros H Hwf. destruct c as [i|i j|i j|i j|i j|i j|i op|i];
    destruct (inv_get _ _ _ i H) as [[Hi Hmi]|(v & l & Hi & Hmi & Hv)];
    try (destruct (inv_get _ _ _ j H) as [[Hj Hmj]|(w & lw & Hj & Hmj & Hw)]);
    try (eexists _, _, m; simpl; rewrite ?Hi, ?Hj, ?Hmi, ?Hmj; split_and!; [done|done|by left]);
    eauto using copy_refines, move_refines, assign_refines, move_assign_refines, call_refines, destroy_refines.
  - eexists _, _, _. simpl. rewrite Hi, Hmi. split; [done|]. split; [by apply inv_new|by left].
  - eexists _, _, _. simpl. rewrite Hi, Hj, Hmi, Hmj. split; [done|]. split; [by eapply inv_swap|by left].
Qed.

Lemma run_refines h0 l s m :
  inv h0 s m → Forall stmt_wf l → ∃ s' rs m', run l s = (s', rs) ∧ inv h0 s' m' ∧ spec_run m l rs m'.
Proof using Hsz Hgrant.
  intros H Hl. revert s m H. induction Hl as [|c l Hc Hl IH]; intros s m H; simpl; [by eexists _, _, _; eauto using spec_run|].
  destruct (exec_stmt_refines _ c _ _ H Hc) as (s1 & r & m1 & -> & H1 & Hr).
  destruct (IH s1 m1 H1) as (s2 & rs & m2 & -> & H2 & Hrs). exists s2, (r :: rs), m2. split_and!; [done..|].
  destruct Hr as [?|[? ->]]; eauto using spec_run.
Qed.

(** No result of the contract is undefined behaviour. *)
Definition defined (r : option (res (vout (T := T)))) : Prop :=
  match r with Some (Throw (UndefinedBehaviour _)) => False | _ => True end.
Lemma spec_defined m l rs m' : spec_run m l rs m' → Forall defined rs.
Proof.
  induction 1 as [|m m' m'' c l r rs Hs _ IH|m m'' c l r rs Hf _ IH]; constructor; try done.
  - destruct c as [i|i j|i j|i j|i j|i j|i op|i]; simpl in Hs; repeat case_match; simplify_eq; try done.
    destruct op; simpl in *; repeat case_match; by simplify_eq.
  - destruct c as [i|i j|i j|i j|i j|i j|i op|i]; simpl in Hf; try done; destruct Hf as (r' & -> & Hf).
    + by destruct Hf as [->| ->].
    + by destruct Hf as [->| ->].
    + destruct op; simpl in Hf; try done; by destruct Hf as [->| ->].
Qed.

(** C1: programs over any number of vectors behave as programs over lists: whatever is
    constructed, copied, moved, assigned, exchanged, called and destroyed in whatever
    order, also an object to itself, every statement gives the result that it gives
    for lists, or fails to allocate and changes nothing; a copy is deep and a moved-from
    vector is empty.  No statement has undefined behaviour, no two vectors ever share a
    block, the memory of others is untouched, and when the last vector is destroyed the
    heap is the one the program began with. *)
Theorem vectors_refine_lists (h0 : gmap nat (list (option T))) (nx : nat) (prog : list stmt) :
  (∀ p c, h0 !! p = Some c → p < nx) → Forall stmt_wf prog →
  ∃ s rs m, run prog (State ∅ h0 nx) = (s, rs) ∧ spec_run ∅ prog rs m ∧ Forall defined rs ∧
    (∀ i, is_Some (objs s !! i) ↔ is_Some (m !! i)) ∧
    (∀ i v l, objs s !! i = Some v → m !! i = Some l → content sizeof (heap s) v l) ∧
    (∀ i j p, owns (objs s) i p → owns (objs s) j p → i = j) ∧
    (∀ p c, h0 !! p = Some c → heap s !! p = Some c) ∧
    (objs s = ∅ → heap s = h0).
Proof using Hsz Hgrant.
  intros Hb Hwf. assert (inv h0 (State ∅ h0 nx) ∅) as H0.
  { split; simpl; try done; [intros i; by rewrite !lookup_empty|..]; intros *; try (by rewrite lookup_empty);
      intros (v & Hv & _); by rewrite lookup_empty in Hv. }
  destruct (run_refines _ _ _ _ H0 Hwf) as (s & rs & m & E & [Hd Hc Ho Hf Hdj Hbd] & Hs).
  exists s, rs, m. split_and!; try done; [by eapply spec_defined| |].
  - intros p c Hp. rewrite Hf; [done|]. intros i Hi. by rewrite (Hdj i p Hi) in Hp.
  - intros E0. apply map_eq. intros p. apply Hf. intros i (v & Hv & _). by rewrite E0, lookup_empty in Hv.
Qed.
End vectors.

(** Copying, moving and assigning with the allocator of [grant62]. *)
Definition sample_program : list (stmt (T := Z)) :=
  [New 0; Call 0 (OpPush 5%Z); Copy 1 0; Call 1 (OpPush 6%Z); Assign 1 1; Move 2 1; MoveAssign 0 2; Swap 0 1;
   Call 1 (OpAt 1%Z); Destroy 0; Destroy 1; Destroy 2].
Lemma vectors_refine_lists_witness :
  (run 8 grant62 sample_program (State ∅ empty_heap 0)).2 !! 8 = Some (Some (Ok (OutVal 6%Z))) ∧
  heap (run 8 grant62 sample_program (State ∅ empty_heap 0)).1 = empty_heap.
Proof.
  split; [by vm_compute|].
  destruct (vectors_refine_lists 8 grant62 ltac:(lia) grant62_bounded empty_heap 0 sample_program)
    as (s & rs & m & E & _ & _ & _ & _ & _ & _ & Hend).
  - intros p c H. discriminate H.
  - unfold sample_program. repeat (apply list.Forall_cons; split; [done|]). by apply list.Forall_nil.
  - pose proof (f_equal (λ x, objs x.1) E) as Eo. rewrite E. apply Hend. etrans; [symmetry; exact Eo|]. by vm_compute.
Defined.
End Vectors.
