(* ===== verification/RangePrint.v ===== *)
(** * Printing ranges: range_print.hpp

    [RangePrint] is the printing of a range of items, each by the stream operator of
    its type; [Streamers] the objects [Streamer] and [MapStreamer] that the functions
    return, which hold iterators into containers of somebody else. *)

From S2P Require Import Prelude Strings.

Module RangePrint.

(** A stream operator, as the change it makes to the stream. *)
Abbreviation printer A := (ostream → A → ostream).
Definition put_str : printer str := os_write.

Section streamer.
Context {A D : Type} (print : printer A) (print_delim : printer D).

(** The loop of [operator<<] of [Streamer]. *)
Fixpoint stream_rest (os : ostream) (delim : D) (items : list A) : ostream :=
  match items with
  | [] => os
  | i :: items => stream_rest (print (print_delim os delim) i) delim items
  end.
Definition range_print (items : list A) (delim : D) (os : ostream) : ostream :=
  match items with
  | [] => os
  | i :: items => stream_rest (print os i) delim items
  end.
End streamer.

Section map_streamer.
Context {K V D E : Type}.
Context (print_key : printer K) (print_val : printer V) (print_delim : printer D) (print_eq : printer E).

Definition print_pair (eq_delim : E) : printer (K * V) := λ os kv,
  print_val (print_eq (print_key os (fst kv)) eq_delim) (snd kv).
Definition range_map_print (items : list (K * V)) (delim : D) (eq_delim : E) (os : ostream) : ostream :=
  range_print (print_pair eq_delim) print_delim items delim os.
End map_streamer.

(** A printer that only appends text. *)
Class Appends {A} (p : printer A) (text : A → str) := {
  appends : ∀ os a, p os a = os_write os (text a);
}.
#[export] Instance put_str_appends : Appends put_str id.
Proof. by split. Qed.

(** The text between delimiters. *)
Fixpoint sep_text {A} (text : A → str) (delim : str) (items : list A) : str :=
  match items with
  | [] => []
  | [i] => text i
  | i :: rest => text i ++ delim ++ sep_text text delim rest
  end.

(** A range is printed as its items with a delimiter between them, and a map as
    its pairs. *)
Lemma range_print_text {A} (p : printer A) text `{!Appends p text} items delim os :
  range_print p put_str items delim os = os_write os (sep_text text delim items).
Proof.
  destruct items as [|i items]; simpl; [by rewrite os_write_nil|].
  revert i os. induction items as [|j items IH]; intros i os; simpl.
  - apply appends.
  - change (put_str (p os i) delim) with (os_write (p os i) delim). rewrite (appends os i), os_write_app.
    rewrite (IH j (os_write os (text i ++ delim))). rewrite os_write_app. by rewrite <-app_assoc.
Qed.
End RangePrint.

(** ** The streamers *)

Module Streamers.
Import RangePrint.

Section streamers.
Context {A : Type}.

(** The containers that live, by name; an iterator is a position in one of them. *)
Abbreviation containers := (gmap nat (list A)).
Record iterator := Iter { it_of : nat; it_pos : nat }.
#[export] Instance iterator_eq_dec : EqDecision iterator.
Proof. solve_decision. Defined.

Definition deref (cs : containers) (i : iterator) : res A :=
  match cs !! it_of i ≫= lookup (it_pos i) with
  | Some a => Ok a
  | None => Throw (UndefinedBehaviour "iterator dereferenced out of its range")
  end.
Definition increment (cs : containers) (i : iterator) : res iterator :=
  match cs !! it_of i ≫= lookup (it_pos i) with
  | Some _ => Ok (Iter (it_of i) (S (it_pos i)))
  | None => Throw (UndefinedBehaviour "iterator incremented behind its range")
  end.
(** [begin] and [end] of a container. *)
Definition begin_of (c : nat) : iterator := Iter c 0.
Definition end_of (cs : containers) (c : nat) : iterator := Iter c (length (default [] (cs !! c))).

Section streamer.
Context {D : Type} (emit : printer A) (print_delim : printer D).

Record Streamer := MkStreamer { _beg : iterator; _end : iterator; _delim : D }.

(** The loop of [operator<<]; [fuel] bounds the items that are left. *)
Fixpoint stream_loop (fuel : nat) (cs : containers) (s : Streamer) (itr : iterator) (os : ostream) : res ostream :=
  match fuel with
  | O => Throw (UndefinedBehaviour "stream_loop: out of fuel")
  | S fuel =>
    itr ← increment cs itr;
    if bool_decide (itr = _end s) then Ok os
    else
      let os := print_delim os (_delim s) in
      item ← deref cs itr;
      stream_loop fuel cs s itr (emit os item)
  end.
Definition loop_fuel (cs : containers) (s : Streamer) : nat := S (length (default [] (cs !! it_of (_beg s)))).
Definition stream (cs : containers) (s : Streamer) (os : ostream) : res ostream :=
  if bool_decide (_beg s = _end s) then Ok os
  else
    item ← deref cs (_beg s);
    stream_loop (loop_fuel cs s) cs s (_beg s) (emit os item).

Definition range_print_iter (beg_ end_ : iterator) (delim_ : D) : Streamer := MkStreamer beg_ end_ delim_.
Definition range_print (cs : containers) (range_ : nat) (delim_ : D) : Streamer :=
  range_print_iter (begin_of range_) (end_of cs range_) delim_.

Lemma stream_loop_rest fuel cs s i l os :
  cs !! it_of i = Some l → it_of (_end s) = it_of i →
  it_pos i < it_pos (_end s) ≤ length l → length l < fuel + it_pos i →
  stream_loop fuel cs s i os =
  Ok (stream_rest emit print_delim os (_delim s) (drop (S (it_pos i)) (take (it_pos (_end s)) l))).
Proof.
  destruct s as [b [ec ep] d], i as [c p]; simpl. intros Hc -> [Hp Hl]. revert p os Hp.
  induction fuel as [|fuel IH]; intros p os Hp Hf; [lia|]. cbn [stream_loop].
  unfold increment. cbn [it_of it_pos]. rewrite Hc. simpl.
  destruct (lookup_lt_is_Some_2 l p) as [x Hx]; [lia|]. rewrite Hx. simpl.
  destruct (decide (S p = ep)) as [<-|Hne].
  { rewrite bool_decide_eq_true_2 by done. rewrite drop_ge; [done|]. rewrite length_take. lia. }
  rewrite bool_decide_eq_false_2 by congruence. unfold deref. cbn [it_of it_pos]. rewrite Hc. simpl.
  destruct (lookup_lt_is_Some_2 l (S p)) as [y Hy]; [lia|]. rewrite Hy. simpl.
  assert (take ep l !! S p = Some y) as Ht by (rewrite lookup_take_lt; [done|lia]).
  rewrite (drop_S _ y (S p) Ht). simpl. apply IH; simpl; lia.
Qed.

(** A streamer over positions of a container that lives prints the items between
    them, and its loop ends. *)
Lemma stream_segment cs s l os :
  cs !! it_of (_beg s) = Some l → it_of (_end s) = it_of (_beg s) →
  it_pos (_beg s) ≤ it_pos (_end s) ≤ length l →
  stream cs s os =
  Ok (RangePrint.range_print emit print_delim (drop (it_pos (_beg s)) (take (it_pos (_end s)) l)) (_delim s) os).
Proof.
  destruct s as [[c p] [ec ep] d]; cbn [_beg _end _delim it_of it_pos]. intros Hc -> [Hp Hl]. unfold stream. cbn [_beg _end].
  destruct (decide (p = ep)) as [<-|Hne].
  { rewrite bool_decide_eq_true_2 by done. rewrite drop_ge; [done|]. rewrite length_take. lia. }
  assert (length l < loop_fuel cs (MkStreamer (Iter c p) (Iter c ep) d)) as Hf
    by (unfold loop_fuel; simpl; rewrite Hc; simpl; lia).
  revert Hf. generalize (loop_fuel cs (MkStreamer (Iter c p) (Iter c ep) d)). intros fuel Hf.
  rewrite bool_decide_eq_false_2 by congruence. unfold deref. cbn [it_of it_pos]. rewrite Hc. simpl.
  destruct (lookup_lt_is_Some_2 l p) as [y Hy]; [lia|]. rewrite Hy. simpl.
  assert (take ep l !! p = Some y) as Ht by (rewrite lookup_take_lt; [done|lia]).
  rewrite (drop_S _ y p Ht). cbn [RangePrint.range_print]. apply (stream_loop_rest fuel cs (MkStreamer (Iter c p) (Iter c ep) d) (Iter c p) l); simpl; (done || lia).
Qed.

Lemma stream_loop_shrunk fuel cs s i l os :
  cs !! it_of i = Some l → it_of (_end s) = it_of i → length l < it_pos (_end s) → it_pos i < it_pos (_end s) →
  ∃ what, stream_loop fuel cs s i os = Throw (UndefinedBehaviour what).
Proof.
  destruct s as [b [ec ep] d], i as [c p]; simpl. intros Hc -> Hl. revert p os.
  induction fuel as [|fuel IH]; intros p os Hp; cbn [stream_loop]; [by eexists|].
  unfold increment. cbn [it_of it_pos]. rewrite Hc. simpl. destruct (l !! p) eqn:Hx; simpl; [|by eexists].
  apply lookup_lt_Some in Hx. rewrite bool_decide_eq_false_2 by (intros [=]; lia).
  unfold deref. cbn [it_of it_pos]. rewrite Hc. simpl. destruct (l !! S p) eqn:Hy; simpl; [|by eexists].
  apply lookup_lt_Some in Hy. apply IH. lia.
Qed.

(** [range_print] of a container, printed at once or after assignments to its
    items, prints the items it has then.  When items were removed before it is printed,
    or the container is gone, the stored iterators dangle. *)
Theorem range_print_later cs cs' c d l os :
  cs !! c = Some l →
  match cs' !! c with
  | Some l' =>
    (length l' = length l → stream cs' (range_print cs c d) os = Ok (RangePrint.range_print emit print_delim l' d os)) ∧
    (length l' < length l → ∃ what, stream cs' (range_print cs c d) os = Throw (UndefinedBehaviour what))
  | None => l ≠ [] → ∃ what, stream cs' (range_print cs c d) os = Throw (UndefinedBehaviour what)
  end.
Proof.
  intros Hc. unfold range_print, range_print_iter, begin_of, end_of. rewrite Hc. simpl.
  destruct (cs' !! c) as [l'|] eqn:Hc'; [split; intros Hl|intros Hl].
  - rewrite (stream_segment _ _ l'); simpl; [|done|done|lia]. by rewrite drop_0, take_ge by lia.
  - unfold stream. cbn [_beg _end]. rewrite bool_decide_eq_false_2 by (intros [=]; lia).
    generalize (loop_fuel cs' (MkStreamer (Iter c 0) (Iter c (length l)) d)). intros fuel.
    unfold deref. simpl. rewrite Hc'. simpl. destruct l' as [|y l']; simpl; [by eexists|].
    apply (stream_loop_shrunk fuel cs' (MkStreamer (Iter c 0) (Iter c (length l)) d) (Iter c 0) (y :: l')); simpl in *; try done; lia.
  - unfold stream. simpl. rewrite bool_decide_eq_false_2 by (intros [= E]; by destruct l).
    unfold deref. simpl. rewrite Hc'. by eexists.
Qed.
End streamer.
End streamers.

(** [MapStreamer] is a streamer of pairs that also holds the text between key and
    value. *)
Section map_streamer.
Context {K V D E : Type}.
Context (print_key : printer K) (print_val : printer V) (print_delim : printer D) (print_eq : printer E).

Record MapStreamer := MkMapStreamer { map_range : @Streamer D; _eq_delim : E }.
Definition map_stream (cs : gmap nat (list (K * V))) (s : MapStreamer) (os : ostream) : res ostream :=
  stream (print_pair print_key print_val print_eq (_eq_delim s)) print_delim cs (map_range s) os.
Definition range_map_print_iter (beg_ end_ : iterator) (delim_ : D) (eq_delim_ : E) : MapStreamer :=
  MkMapStreamer (MkStreamer beg_ end_ delim_) eq_delim_.
Definition range_map_print (cs : gmap nat (list (K * V))) (range_ : nat) (delim_ : D) (eq_delim_ : E) : MapStreamer :=
  range_map_print_iter (begin_of range_) (end_of cs range_) delim_ eq_delim_.

Lemma range_map_print_pairs cs c d e l os :
  cs !! c = Some l →
  map_stream cs (range_map_print cs c d e) os =
  Ok (RangePrint.range_map_print print_key print_val print_delim print_eq l d e os).
Proof.
  intros Hc. unfold map_stream, range_map_print. simpl.
  pose proof (range_print_later (print_pair print_key print_val print_eq e) print_delim cs cs c d l os Hc) as H.
  rewrite Hc in H. by apply H.
Qed.
End map_streamer.
End Streamers.
