(* ===== verification/IpTools.v ===== *)
(** * IP addresses and ranges: ip_tools.hpp, ip_tools.cpp

    Addresses are lists of bytes; the textual conversions [inet_pton] and
    [inet_ntop] of the C library are parameters, with the behaviour the code
    relies on stated by the class [InetText]. *)

From S2P Require Import Prelude Strings Parse.

Module Ip.

(** ** Data *)

Definition bytes_in_bits : Z := 8.
Definition ipv4_size : nat := 4.
Definition ipv6_size : nat := 16.

Abbreviation addr := (list Z).

(** [ip_range_base]: an address and its netmask. *)
Record ip_range := IpRange { r_ip : addr; r_mask : addr }.

#[global] Instance ip_range_eq_dec : EqDecision ip_range.
Proof. solve_decision. Defined.

(** [ip_addr_gen] and [ip_range_gen]: the variants over the two families. *)
Inductive ip_addr_gen := Addr4 (a : addr) | Addr6 (a : addr).
Inductive ip_range_gen := Range4 (r : ip_range) | Range6 (r : ip_range).

Inductive family := AF_INET | AF_INET6.
Definition ip_size (f : family) : nat :=
  match f with AF_INET => ipv4_size | AF_INET6 => ipv6_size end.
(** [INET_ADDRSTRLEN] and [INET6_ADDRSTRLEN], the terminating NUL included. *)
Definition addrstrlen (f : family) : nat :=
  match f with AF_INET => 16 | AF_INET6 => 46 end.

(** ** Masks and ranges *)

Definition and_arrays (a b : addr) : addr := zip_with Z.land a b.

(** The loop of [create_mask]; it runs at most [data_size] times. *)
Fixpoint mask_loop (fuel data_size i : nat) (mask : Z) (retval : addr) : addr :=
  match fuel with
  | O => retval
  | S fuel =>
    if ((i <? data_size)%nat && (0 <? mask)%Z) then
      let bits := if (bytes_in_bits <=? mask)%Z then bytes_in_bits else mask in
      let retval := <[i := wrap 8 (Z.shiftl 255 (bytes_in_bits - bits))]> retval in
      mask_loop fuel data_size (S i) (wrap 8 (mask - bits)) retval
    else retval
  end.

Definition create_mask (data_size : nat) (mask : Z) : res addr :=
  throw_if (Z.of_nat data_size * bytes_in_bits <? mask)%Z (NstlException " mask is invalid");;
  Ok (mask_loop data_size data_size 0 mask (replicate data_size 0%Z)).

Definition create_ipv4_mask (mask : Z) : res addr := create_mask ipv4_size mask.
Definition create_ipv6_mask (mask : Z) : res addr := create_mask ipv6_size mask.

(** The constructors of [ip_range_base]. *)
Definition range_default (size : nat) : ip_range :=
  IpRange (replicate size 0%Z) (replicate size 0%Z).
Definition ip_max_bits (size : nat) : Z := Z.of_nat size * bytes_in_bits.
Definition range_prefix (size : nat) (ip : addr) (mask : Z) : res ip_range :=
  m ← create_mask size mask; Ok (IpRange ip m).

(** [ip_range_base::contains]. *)
Definition range_contains (r : ip_range) (ip : addr) : bool :=
  let ip_result := and_arrays (r_mask r) ip in
  let local_result := and_arrays (r_mask r) (r_ip r) in
  bool_decide (ip_result = local_result).

(** [address_checker], [contains_t] and the [contains] overloads: the ranges of
    the other family never match. *)
Definition checker4 (a : addr) (r : ip_range_gen) : bool :=
  match r with Range4 r => range_contains r a | Range6 _ => false end.
Definition checker6 (a : addr) (r : ip_range_gen) : bool :=
  match r with Range6 r => range_contains r a | Range4 _ => false end.
Definition contains4 (ranges : list ip_range_gen) (a : addr) : bool :=
  bool_decide (list_find (λ r, checker4 a r) ranges ≠ None).
Definition contains6 (ranges : list ip_range_gen) (a : addr) : bool :=
  bool_decide (list_find (λ r, checker6 a r) ranges ≠ None).
Definition contains (ranges : list ip_range_gen) (a : ip_addr_gen) : bool :=
  match a with Addr4 a => contains4 ranges a | Addr6 a => contains6 ranges a end.

(** [is_ipv4]: the address itself, or the one a v4-mapped address embeds. *)
Definition v4_prefix : addr := replicate 10 0%Z ++ [255; 255]%Z.
Definition is_ipv4 (a : addr) : res (option addr) :=
  if (length a =? ipv4_size)%nat then Ok (Some (take ipv4_size a))
  else if (length a =? ipv6_size)%nat then
    if bool_decide (take (length v4_prefix) a = v4_prefix)
    then Ok (Some (take ipv4_size (drop (length v4_prefix) a)))
    else Ok None
  else Throw (NstlException "Address is not 4 or 16 bytes long: it is not either IPv4 or IPv6").

(** ** Comparisons *)

(** [std::array]'s [operator<]: lexicographic. *)
Fixpoint arr_lt (a b : addr) : bool :=
  match a, b with
  | x :: a', y :: b' => (x <? y)%Z || ((x =? y)%Z && arr_lt a' b')
  | [], _ :: _ => true
  | _, [] => false
  end.

(** [operator==] and [operator<] of the ranges, on [std::tie(ip, mask)]. *)
Definition range_eq (l r : ip_range) : bool :=
  bool_decide (r_ip l = r_ip r) && bool_decide (r_mask l = r_mask r).
Definition range_lt (l r : ip_range) : bool :=
  arr_lt (r_ip l) (r_ip r) || (negb (arr_lt (r_ip r) (r_ip l)) && arr_lt (r_mask l) (r_mask r)).

(** [ip_range_less] on two byte arrays of sizes known at compile time. *)
Definition less_sized (l_size r_size : nat) (l r : addr) : bool :=
  if (l_size <? r_size)%nat then true
  else if (r_size <? l_size)%nat then false
  else arr_lt l r.

(** What [ip_range_less] compares of an address and of a range. *)
Definition addr_key (a : ip_addr_gen) : nat * addr :=
  match a with Addr4 a => (ipv4_size, a) | Addr6 a => (ipv6_size, a) end.
Definition range_key (r : ip_range_gen) : nat * addr :=
  match r with Range4 r => (ipv4_size, r_ip r) | Range6 r => (ipv6_size, r_ip r) end.

Definition key_less (l r : nat * addr) : bool := less_sized (fst l) (fst r) (snd l) (snd r).
Definition less_addr_addr (l r : ip_addr_gen) : bool := key_less (addr_key l) (addr_key r).
Definition less_range_addr (l : ip_range_gen) (r : ip_addr_gen) : bool :=
  key_less (range_key l) (addr_key r).
Definition less_addr_range (l : ip_addr_gen) (r : ip_range_gen) : bool :=
  key_less (addr_key l) (range_key r).
Definition less_range_range (l r : ip_range_gen) : bool := key_less (range_key l) (range_key r).

(** ** Text *)

Section text.
Context (inet_pton : family → str → option addr).
Context (inet_ntop : family → addr → option str).

(** The template [parse_ip_address<ip_size, str_size, ip_class>]. *)
Definition parse_ip_address_t (f : family) (text : str) : option addr :=
  if (addrstrlen f <=? length text)%nat then None
  else inet_pton f (cut_nul text).

Definition parse_ip4_address (text : str) : option addr := parse_ip_address_t AF_INET text.
Definition parse_ip6_address (text : str) : option addr := parse_ip_address_t AF_INET6 text.
(** [None] is [std::monostate]. *)
Definition parse_ip_address (text : str) : option ip_addr_gen :=
  match parse_ip4_address text with
  | Some a => Some (Addr4 a)
  | None =>
    match parse_ip6_address text with
    | Some a => Some (Addr6 a)
    | None => None
    end
  end.

Definition invalid_mask : Z := 255.
Definition u8_type : Parse.int_type := Parse.IntType false 8.

Definition parse_mask (size : nat) (num : str) : Z :=
  let '(ptr, ec, value) := Parse.std_from_chars u8_type num in
  let mask := default 0%Z value in
  if (ptr =? length num)%nat && bool_decide (ec = Parse.EcOk) && (mask <=? ip_max_bits size)%Z
  then mask else invalid_mask.

Definition parse_ip_range (f : family) (range : str) : res (option ip_range) :=
  let pos := View.find range "/"%char 0 in
  let ip_part := match pos with Some p => take p range | None => range end in
  match parse_ip_address_t f ip_part with
  | None => Ok None
  | Some ip =>
    match pos with
    | None => Some <$> range_prefix (ip_size f) ip (ip_max_bits (ip_size f))
    | Some p =>
      let num := View.substr range (p + 1) in
      if View.empty num then Ok None
      else
        let mask := parse_mask (ip_size f) num in
        if negb (mask =? invalid_mask)%Z then Some <$> range_prefix (ip_size f) ip mask
        else
          match parse_ip_address_t f num with
          | Some ip_mask => Ok (Some (IpRange ip ip_mask))
          | None => Ok None
          end
    end
  end.
Definition parse_ip4_range (range : str) : res (option ip_range) := parse_ip_range AF_INET range.
Definition parse_ip6_range (range : str) : res (option ip_range) := parse_ip_range AF_INET6 range.

(** The stream operators: a failed conversion sets [failbit]. *)
Definition print_addr (f : family) (os : ostream) (a : addr) : ostream :=
  match inet_ntop f a with
  | None => os_setfail os
  | Some s => os_write os (take (addrstrlen f) s)
  end.
Definition print_range (f : family) (os : ostream) (r : ip_range) : ostream :=
  print_addr f (os_write (print_addr f os (r_ip r)) ["/"%char]) (r_mask r).

(** The [to_string] overloads: on a family, on the variant, on raw bytes. *)
Definition to_string_f (f : family) (buffer_size : nat) (a : addr) : res str :=
  match inet_ntop f a with
  | None => Throw (NstlException "IP cannot converted to string")
  | Some s => Ok (take buffer_size s)
  end.
Definition to_string_gen (a : ip_addr_gen) : res str :=
  match a with
  | Addr4 a => to_string_f AF_INET (addrstrlen AF_INET) a
  | Addr6 a => to_string_f AF_INET6 (addrstrlen AF_INET6) a
  end.
Definition to_string_span (a : addr) : res str :=
  throw_if (negb (length a =? ipv4_size)%nat && negb (length a =? ipv6_size)%nat)
    (NstlException "Blob size is invalid (4 or 16 expected)");;
  let f := if (length a =? ipv4_size)%nat then AF_INET else AF_INET6 in
  to_string_f f (addrstrlen AF_INET6) a.

(** What the library relies on of the C conversions, for one family: every
    address has a text that fits the buffer, holds neither a slash nor a NUL nor
    only digits, and is parsed back to the address. *)
Class InetText (f : family) : Prop := {
  ntop_total : ∀ a, length a = ip_size f → Forall u8 a → ∃ s, inet_ntop f a = Some s;
  ntop_short : ∀ a s, inet_ntop f a = Some s → length s < addrstrlen f;
  ntop_plain : ∀ a s, inet_ntop f a = Some s → "/"%char ∉ s ∧ "000"%char ∉ s;
  ntop_mark : ∀ a s, inet_ntop f a = Some s → ∃ c, c ∈ s ∧ Parse.is_digit c = false;
  pton_ntop : ∀ a s, length a = ip_size f → Forall u8 a →
    inet_ntop f a = Some s → inet_pton f s = Some a;
}.
End text.
Arguments ntop_total {_ _ _ _} _ _ _.
Arguments ntop_short {_ _ _ _} _ _ _.
Arguments ntop_plain {_ _ _ _} _ _ _.
Arguments ntop_mark {_ _ _ _} _ _ _.
Arguments pton_ntop {_ _ _ _} _ _ _ _ _.

(** ** Properties of masks and ranges *)

(** Bit [k] of an address, the most significant bit of the first byte first. *)
Definition ip_bit (a : addr) (k : nat) : bool :=
  match a !! (k / 8)%nat with
  | Some b => Z.testbit b (7 - Z.of_nat (k mod 8))
  | None => false
  end.

(** The byte of a mask with [b] leading ones. *)
Lemma mask_byte_bits b j :
  (0 ≤ b ≤ 8)%Z → (0 ≤ j < 8)%Z →
  Z.testbit (wrap 8 (Z.shiftl 255 (8 - b))) j = (8 - b <=? j)%Z.
Proof.
  intros Hb Hj. unfold wrap. change 255%Z with (Z.ones 8).
  rewrite Z.mod_pow2_bits_low, Z.shiftl_spec by lia.
  destruct (Z.leb_spec (8 - b) j).
  - apply Z.ones_spec_low. lia.
  - apply Z.testbit_neg_r. lia.
Qed.

Lemma mask_loop_lookup fuel n : ∀ i m ret j,
  length ret = n → n - i ≤ fuel → (0 ≤ m < 256)%Z → j < n →
  mask_loop fuel n i m ret !! j =
  if (j <? i)%nat || (m <=? 8 * Z.of_nat (j - i))%Z then ret !! j
  else Some (wrap 8 (Z.shiftl 255 (8 - Z.min 8 (m - 8 * Z.of_nat (j - i))))).
Proof.
  unfold bytes_in_bits. induction fuel as [|fuel IH]; intros i m ret j Hlen Hf Hm Hj.
  { rewrite (proj2 (Nat.ltb_lt j i)) by lia. done. }
  cbn [mask_loop]. unfold bytes_in_bits.
  destruct (Nat.ltb_spec i n); simpl; [|by rewrite (proj2 (Nat.ltb_lt j i)) by lia].
  destruct (Z.ltb_spec 0 m); simpl.
  2: { assert (m <=? 8 * Z.of_nat (j - i) = true)%Z as -> by (apply Z.leb_le; lia).
       by rewrite orb_true_r. }
  assert ((if 8 <=? m then 8 else m) = Z.min 8 m)%Z as -> by (destruct (Z.leb_spec 8 m); lia).
  assert (wrap 8 (m - Z.min 8 m) = m - Z.min 8 m)%Z as -> by (apply Z.mod_small; lia).
  rewrite IH by (rewrite ?length_insert; lia).
  destruct (Nat.ltb_spec j (S i)); simpl.
  - destruct (Nat.ltb_spec j i); simpl.
    + by rewrite list_lookup_insert_ne by lia.
    + assert (j = i) as -> by lia. rewrite Nat.sub_diag. simpl.
      rewrite list_lookup_insert_eq by lia.
      destruct (Z.leb_spec m (8 * Z.of_nat 0)); [lia|]. do 4 f_equal. lia.
  - destruct (Nat.ltb_spec j i); [lia|]. simpl.
    rewrite list_lookup_insert_ne by lia.
    destruct (Z.leb_spec (m - Z.min 8 m) (8 * Z.of_nat (j - S i))),
      (Z.leb_spec m (8 * Z.of_nat (j - i))); try lia; [done|].
    do 4 f_equal. lia.
Qed.

Lemma length_mask_loop fuel n i m ret : length (mask_loop fuel n i m ret) = length ret.
Proof.
  revert i m ret. induction fuel as [|fuel IH]; intros i m ret; simpl; [done|].
  case_match; [|done]. by rewrite IH, length_insert.
Qed.

Lemma create_mask_ok n mask :
  (0 ≤ mask ≤ 8 * Z.of_nat n)%Z → (mask < 256)%Z →
  ∃ m, create_mask n mask = Ok m ∧ length m = n ∧
    ∀ k, k < 8 * n → ip_bit m k = (Z.of_nat k <? mask)%Z.
Proof.
  intros Hm Hm8. unfold create_mask, bytes_in_bits. munfold_goal.
  rewrite (proj2 (Z.ltb_ge _ _)) by lia. eexists. split; [done|].
  split; [by rewrite length_mask_loop, length_replicate|]. intros k Hk.
  pose proof (Nat.div_mod_eq k 8) as Hdm. pose proof (Nat.mod_upper_bound k 8 ltac:(lia)) as Hmod.
  unfold ip_bit. rewrite mask_loop_lookup by (rewrite ?length_replicate; lia).
  change ((k / 8 <? 0)%nat) with false. rewrite orb_false_l, Nat.sub_0_r.
  destruct (Z.leb_spec mask (8 * Z.of_nat (k / 8))).
  - rewrite lookup_replicate_2 by lia. rewrite Z.bits_0. symmetry. apply Z.ltb_ge. lia.
  - rewrite mask_byte_bits by lia.
    destruct (Z.leb_spec (8 - Z.min 8 (mask - 8 * Z.of_nat (k / 8))) (7 - Z.of_nat (k mod 8))),
      (Z.ltb_spec (Z.of_nat k) mask); lia.
Qed.

(** [create_mask] throws exactly when the prefix is longer than the address,
    and otherwise returns the netmask whose first [mask] bits are set and whose
    other bits are clear. *)
Theorem create_mask_correct (n : nat) (mask : Z) :
  u8 mask →
  (create_mask n mask = Throw (NstlException " mask is invalid") ↔ (8 * Z.of_nat n < mask)%Z) ∧
  ((mask ≤ 8 * Z.of_nat n)%Z → ∃ m, create_mask n mask = Ok m ∧ length m = n ∧
     ∀ k, k < 8 * n → ip_bit m k = (Z.of_nat k <? mask)%Z).
Proof.
  intros Hu. split.
  - unfold create_mask, bytes_in_bits. munfold_goal.
    destruct (Z.ltb_spec (Z.of_nat n * 8) mask); split; (done || lia || by intros; lia).
  - intros Hm. apply create_mask_ok; unfold u8 in Hu; lia.
Qed.

Lemma create_mask_correct_witness :
  ∃ m, create_mask 4 22 = Ok m ∧ length m = 4 ∧ ∀ k, k < 8 * 4 → ip_bit m k = (Z.of_nat k <? 22)%Z.
Proof. apply (create_mask_correct 4 22); unfold u8; lia. Defined.

(** Bits of a conjunction. *)
Lemma ip_bit_and a b k :
  length a = length b → ip_bit (and_arrays a b) k = ip_bit a k && ip_bit b k.
Proof.
  intros Hl. unfold ip_bit, and_arrays. rewrite lookup_zip_with.
  destruct (a !! _) eqn:Ea; simpl; [|done]. destruct (b !! _) eqn:Eb; simpl.
  - by rewrite Z.land_spec.
  - apply lookup_lt_Some in Ea. apply lookup_ge_None in Eb. lia.
Qed.

Lemma u8_testbit_high z j : u8 z → (8 ≤ j)%Z → Z.testbit z j = false.
Proof.
  intros Hz Hj. rewrite <-(Z.mod_small z (2 ^ 8)) by (unfold u8 in Hz; lia).
  apply Z.mod_pow2_bits_high. lia.
Qed.

(** Two addresses are equal when all their bits are. *)
Lemma ip_bit_ext a b :
  length a = length b → Forall u8 a → Forall u8 b →
  (∀ k, k < 8 * length a → ip_bit a k = ip_bit b k) → a = b.
Proof.
  intros Hl Ha Hb H. apply (list_eq_same_length _ _ (length a)); [by rewrite Hl|done|].
  intros i x y Hi Hx Hy. apply Z.bits_inj'. intros j Hj.
  rewrite Forall_lookup in Ha, Hb.
  destruct (decide (8 ≤ j)%Z) as [Hge|Hlt].
  { rewrite !u8_testbit_high by eauto. done. }
  specialize (H (8 * i + Z.to_nat (7 - j)) ltac:(lia)). unfold ip_bit in H.
  rewrite (Nat.mul_comm 8 i), Nat.div_add_l, Nat.div_small, Nat.add_0_r in H by lia.
  rewrite (Nat.add_comm (i * 8)), Nat.Div0.mod_add, Nat.mod_small in H by lia.
  rewrite Hx, Hy in H. by replace (7 - Z.of_nat (Z.to_nat (7 - j)))%Z with j in H by lia.
Qed.

Lemma and_arrays_u8 a b : Forall u8 b → Forall u8 (and_arrays a b).
Proof.
  intros Hb. revert a. induction Hb as [|y b Hy Hb IH]; intros [|x a]; simpl; try done.
  constructor; [|apply IH]. unfold u8 in *.
  replace (Z.land x y) with (Z.land x y `mod` 2 ^ 8)%Z.
  { apply Z.mod_pos_bound. lia. }
  rewrite <-Z.land_ones by lia. rewrite <-Z.land_assoc. f_equal.
  rewrite Z.land_ones by lia. apply Z.mod_small. lia.
Qed.

Lemma length_and_arrays a b : length a = length b → length (and_arrays a b) = length a.
Proof. intros. unfold and_arrays. rewrite length_zip_with. lia. Qed.

(** C5: a range built from an address and a prefix length contains exactly the
    addresses whose first [mask] bits are those of the address. *)
Theorem range_contains_prefix (n : nat) (ip a : addr) (mask : Z) (r : ip_range) :
  u8 mask → length ip = n → length a = n → Forall u8 ip → Forall u8 a →
  range_prefix n ip mask = Ok r →
  range_contains r a = true ↔ ∀ k, (Z.of_nat k < mask)%Z → ip_bit a k = ip_bit ip k.
Proof.
  intros Hu Hip Ha Uip Ua. unfold range_prefix.
  destruct (decide (mask ≤ 8 * Z.of_nat n)%Z) as [Hm|Hm].
  2: { unfold create_mask, bytes_in_bits. munfold_goal. by rewrite (proj2 (Z.ltb_lt _ _)) by lia. }
  destruct (create_mask_ok n mask) as (m & -> & Hlm & Hbit); [unfold u8 in Hu; lia..|].
  munfold_goal. intros [= <-]. unfold range_contains; simpl. rewrite bool_decide_eq_true. split.
  - intros E k Hk. assert (ip_bit (and_arrays m a) k = ip_bit (and_arrays m ip) k) as Eb
      by (by rewrite E).
    rewrite !ip_bit_and, Hbit, (proj2 (Z.ltb_lt _ _)) in Eb by lia. done.
  - intros H. apply ip_bit_ext; rewrite ?length_and_arrays by lia; auto using and_arrays_u8.
    intros k Hk. rewrite !ip_bit_and, Hbit by lia.
    destruct (Z.ltb_spec (Z.of_nat k) mask); simpl; auto.
Qed.

Lemma range_contains_prefix_witness :
  range_contains (IpRange [10; 0; 0; 0] [255; 255; 0; 0])%Z [10; 0; 7; 9]%Z = true ↔
  ∀ k, (Z.of_nat k < 16)%Z → ip_bit [10; 0; 7; 9]%Z k = ip_bit [10; 0; 0; 0]%Z k.
Proof.
  apply (range_contains_prefix 4 [10; 0; 0; 0]%Z [10; 0; 7; 9]%Z 16);
    [by vm_compute|done|done|by repeat constructor|by repeat constructor|by vm_compute].
Defined.

(** [contains] over a list of ranges of both families. *)
Definition same_family_contains (a : ip_addr_gen) (r : ip_range_gen) : bool :=
  match a, r with
  | Addr4 a, Range4 r | Addr6 a, Range6 r => range_contains r a
  | _, _ => false
  end.

(** An address is in a list of ranges exactly when some range of its own
    family contains it, and [is_ipv4] finds the address a v4-mapped address
    embeds: exactly the 16-byte addresses with the mapped prefix have one. *)
Theorem contains_and_mapped (ranges : list ip_range_gen) (a : ip_addr_gen) (b : addr) :
  (contains ranges a = true ↔ ∃ r, r ∈ ranges ∧ same_family_contains a r = true) ∧
  (∀ v, is_ipv4 b = Ok (Some v) ↔
     length v = ipv4_size ∧ (b = v ∨ b = v4_prefix ++ v)) ∧
  ((∃ e, is_ipv4 b = Throw e) ↔ length b ≠ ipv4_size ∧ length b ≠ ipv6_size).
Proof.
  split; [|split].
  - assert (∀ P : ip_range_gen → bool,
      bool_decide (list_find (λ r, P r) ranges ≠ None) = true ↔
      ∃ r, r ∈ ranges ∧ P r = true) as Hfind.
    { intros P. rewrite bool_decide_eq_true. rewrite list_find_None, <-Exists_Forall_neg
        by (intros x; destruct (P x); naive_solver).
      rewrite Exists_exists. split; intros (r & Hr & H); exists r; (split; [by apply list_elem_of_In|]);
        destruct (P r); naive_solver. }
    unfold contains, contains4, contains6. destruct a; rewrite Hfind;
      (split; intros (r & Hr & H); exists r; (split; [done|]); by destruct r).
  - intros v. unfold is_ipv4, ipv4_size, ipv6_size, v4_prefix.
    destruct (Nat.eqb_spec (length b) 4) as [E4|E4].
    { rewrite take_ge by lia. split; [intros [= <-]; tauto|].
      intros [Hv [->| ->]]; [done|]. rewrite length_app, Hv in E4. simpl in E4. lia. }
    destruct (Nat.eqb_spec (length b) 16) as [E6|E6].
    2: { split; [done|]. intros [Hv [->| ->]]; [done|]. rewrite length_app, Hv in E6.
         simpl in E6. lia. }
    case_bool_decide as Hp.
    + split.
      * intros [= <-]. change (length (replicate 10 0%Z ++ [255; 255]%Z)) with 12 in *.
        rewrite (take_ge (drop 12 b)) by (rewrite length_drop; lia).
        split; [rewrite length_drop; lia|]. right. rewrite <-Hp. by rewrite take_drop.
      * intros [Hv [->| ->]]; [done|]. rewrite drop_app_length, take_ge by lia. done.
    + split; [done|]. intros [Hv [->| ->]]; [done|]. by rewrite take_app_length in Hp.
  - unfold is_ipv4. destruct (Nat.eqb_spec (length b) ipv4_size); [naive_solver|].
    destruct (Nat.eqb_spec (length b) ipv6_size); [case_bool_decide; naive_solver|].
    naive_solver.
Qed.

(** ** Properties of the comparisons *)

Lemma arr_lt_irrefl a : arr_lt a a = false.
Proof. induction a as [|x a IH]; simpl; [done|]. by rewrite Z.ltb_irrefl, Z.eqb_refl, IH. Qed.

Lemma arr_lt_trans a b c : arr_lt a b = true → arr_lt b c = true → arr_lt a c = true.
Proof.
  revert b c. induction a as [|x a IH]; intros [|y b] [|z c]; simpl; try done.
  rewrite !orb_true_iff, !andb_true_iff, !Z.ltb_lt, !Z.eqb_eq.
  intros [|[-> ?]] [|[-> ?]]; [left; lia|tauto..|]. right. eauto.
Qed.

Lemma arr_lt_total a b : arr_lt a b = false → arr_lt b a = false → a = b.
Proof.
  revert b. induction a as [|x a IH]; intros [|y b]; simpl; try done.
  rewrite !orb_false_iff, !andb_false_iff, !Z.ltb_ge, !Z.eqb_neq.
  intros [? ?] [? ?]. assert (x = y) as -> by lia. f_equal. apply IH; tauto.
Qed.

(** What [ip_range_less] is called on: the overloads are chosen by the kind of
    the two operands. *)
Inductive item := ItemAddr (a : ip_addr_gen) | ItemRange (r : ip_range_gen).
Definition ip_range_less (l r : item) : bool :=
  match l, r with
  | ItemAddr l, ItemAddr r => less_addr_addr l r
  | ItemRange l, ItemAddr r => less_range_addr l r
  | ItemAddr l, ItemRange r => less_addr_range l r
  | ItemRange l, ItemRange r => less_range_range l r
  end.
Definition item_key (i : item) : nat * addr :=
  match i with ItemAddr a => addr_key a | ItemRange r => range_key r end.

Lemma ip_range_less_key l r : ip_range_less l r = key_less (item_key l) (item_key r).
Proof. by destruct l, r. Qed.

Lemma key_less_spec l r :
  key_less l r = true ↔ l.1 < r.1 ∨ (l.1 = r.1 ∧ arr_lt l.2 r.2 = true).
Proof.
  unfold key_less, less_sized. case_bool; naive_solver lia.
Qed.

(** [ip_range_less] is a strict weak ordering over addresses and ranges
    mixed, as an associative container with heterogeneous lookup needs: it is
    irreflexive and transitive, and two items are equivalent exactly when their
    family and network address are the same. *)
Theorem ip_range_less_strict_weak (x y z : item) :
  ip_range_less x x = false ∧
  (ip_range_less x y = true → ip_range_less y z = true → ip_range_less x z = true) ∧
  (ip_range_less x y = false ∧ ip_range_less y x = false ↔ item_key x = item_key y).
Proof.
  rewrite !ip_range_less_key. generalize (item_key x) (item_key y) (item_key z). clear.
  intros [n a] [m b] [k c]. split_and!.
  - apply not_true_iff_false. rewrite key_less_spec; simpl. rewrite arr_lt_irrefl. naive_solver lia.
  - rewrite !key_less_spec; simpl. intros [|[-> ?]] [|[-> ?]]; [left; lia|tauto..|].
    right. eauto using arr_lt_trans.
  - rewrite <-!not_true_iff_false, !key_less_spec; simpl. split.
    + intros [H1 H2]. assert (n = m) as -> by lia. f_equal.
      apply arr_lt_total; apply not_true_iff_false; naive_solver.
    + intros [= -> ->]. rewrite arr_lt_irrefl. naive_solver lia.
Qed.

(** [operator<] and [operator==] of the ranges make a strict total order:
    exactly one of less, equal and greater holds, equality is identity, and less
    is transitive. *)
Theorem range_order_total (x y z : ip_range) :
  (range_eq x y = true ↔ x = y) ∧
  range_lt x x = false ∧
  (range_lt x y = true ∨ x = y ∨ range_lt y x = true) ∧
  (range_lt x y = true → range_lt y x = false) ∧
  (range_lt x y = true → range_lt y z = true → range_lt x z = true).
Proof.
  assert (∀ l r, range_lt l r = true ↔ arr_lt (r_ip l) (r_ip r) = true ∨
            (r_ip l = r_ip r ∧ arr_lt (r_mask l) (r_mask r) = true)) as Hs.
  { intros [i m] [j k]. unfold range_lt; simpl. rewrite orb_true_iff, andb_true_iff, negb_true_iff.
    split; [|intros [?|[-> ?]]; [tauto|]; rewrite arr_lt_irrefl; tauto].
    intros [?|[Hn ?]]; [tauto|]. destruct (arr_lt i j) eqn:E; [tauto|]. right.
    split; [|done]. by apply arr_lt_total. }
  assert (∀ a b, arr_lt a b = true → arr_lt b a = true → False) as Hasym.
  { intros a b H1 H2. pose proof (arr_lt_trans _ _ _ H1 H2) as H. by rewrite arr_lt_irrefl in H. }
  split_and!.
  - unfold range_eq. rewrite andb_true_iff, !bool_decide_eq_true. destruct x, y; naive_solver.
  - apply not_true_iff_false. rewrite Hs, !arr_lt_irrefl. naive_solver.
  - rewrite !Hs. destruct x as [i m], y as [j k]; simpl.
    destruct (arr_lt i j) eqn:E1; [tauto|]. destruct (arr_lt j i) eqn:E2; [tauto|].
    assert (i = j) as -> by (by apply arr_lt_total).
    destruct (arr_lt m k) eqn:E3; [tauto|]. destruct (arr_lt k m) eqn:E4; [tauto|].
    assert (m = k) as -> by (by apply arr_lt_total). tauto.
  - rewrite <-not_true_iff_false, !Hs. intros [?|[E ?]] [?|[E' ?]]; eauto.
    + rewrite E' in *. eauto.
    + rewrite E in *. eauto.
  - rewrite !Hs. intros [?|[E ?]] [?|[E' ?]].
    + eauto using arr_lt_trans.
    + rewrite <-E'. eauto.
    + rewrite E. eauto.
    + right. split; [congruence|]. eauto using arr_lt_trans.
Qed.

(** ** Round trips through text *)

(** A text with a character that is no digit is not a prefix length. *)
Lemma parse_mask_not_number n s c :
  c ∈ s → Parse.is_digit c = false → parse_mask n s = invalid_mask.
Proof.
  intros Hc Hd. unfold parse_mask.
  destruct (Parse.std_from_chars u8_type s) as [[ptr ec] value] eqn:E.
  destruct (Nat.eqb_spec ptr (length s)) as [->|]; [|done].
  case_bool_decide as Hec; [|done]. subst ec. exfalso.
  apply Parse.std_from_chars_full in E as (neg & ds & z & -> & -> & _ & Hds & Hneg & _);
    [|intros ->; set_solver].
  destruct neg; [by specialize (Hneg eq_refl)|]. simpl in Hc.
  apply list_elem_of_In, (proj1 (Forall_forall _ _) Hds) in Hc. congruence.
Qed.

Section roundtrip.
Context (inet_pton : family → str → option addr).
Context (inet_ntop : family → addr → option str).
Context (f : family) `{!InetText inet_pton inet_ntop f}.

Definition addr_ok (a : addr) : Prop := length a = ip_size f ∧ Forall u8 a.

Lemma print_addr_ok os a :
  addr_ok a → os_fail os = false →
  ∃ s, inet_ntop f a = Some s ∧ print_addr inet_ntop f os a = OStream (os_out os ++ s) false ∧
    parse_ip_address_t inet_pton f s = Some a.
Proof.
  intros [Hl Hu] Hos. destruct (ntop_total a Hl Hu) as [s Hs]. exists s. split; [done|].
  pose proof (ntop_short _ _ Hs). pose proof (ntop_plain _ _ Hs) as [_ Hn].
  split.
  - unfold print_addr, os_write. by rewrite Hs, Hos, take_ge by lia.
  - unfold parse_ip_address_t. rewrite (proj2 (Nat.leb_gt _ _)), cut_nul_plain by done.
    by apply pton_ntop.
Qed.

(** C16: an address or a range that is printed to a stream is parsed back to
    itself: the stream does not fail, and the text is read as the same address,
    respectively as the same range with its netmask. *)
Theorem print_parse_range (r : ip_range) :
  addr_ok (r_ip r) → addr_ok (r_mask r) →
  (∃ s, print_addr inet_ntop f (OStream [] false) (r_ip r) = OStream s false ∧
        to_string_f inet_ntop f (addrstrlen f) (r_ip r) = Ok s ∧
        parse_ip_address_t inet_pton f s = Some (r_ip r)) ∧
  (∃ s, print_range inet_ntop f (OStream [] false) r = OStream s false ∧
        parse_ip_range inet_pton f s = Ok (Some r)).
Proof using All.
  intros Hip Hmask.
  destruct (print_addr_ok (OStream [] false) _ Hip) as (s & Hs & E & Hp); [done|]. split.
  { exists s. split; [done|]. split; [|done]. unfold to_string_f.
    rewrite Hs, take_ge; [done|]. apply ntop_short in Hs. lia. }
  unfold print_range. rewrite E; simpl. unfold os_write at 1; simpl.
  destruct (print_addr_ok (OStream (s ++ ["/"%char]) false) _ Hmask) as (t & Ht & -> & Hpt); [done|].
  eexists. split; [done|]. simpl.
  pose proof (ntop_plain _ _ Hs) as [Hslash _]. unfold parse_ip_range.
  assert (View.find ((s ++ ["/"%char]) ++ t) "/"%char 0 = Some (length s)) as ->.
  { rewrite <-app_assoc; simpl. unfold View.find. rewrite drop_0. by apply View.find_from_at. }
  rewrite <-app_assoc, take_app_length, Hp. simpl.
  unfold View.substr. replace (length s + 1) with (length (s ++ ["/"%char])) by (rewrite length_app; done).
  change ("/"%char :: t) with (["/"%char] ++ t). rewrite app_assoc, drop_app_length.
  destruct (ntop_mark _ _ Ht) as (c & Hc & Hd).
  destruct t as [|c0 t]; [set_solver|]. simpl View.empty. cbv iota.
  rewrite (parse_mask_not_number _ _ c), Z.eqb_refl, Hpt by done. simpl. by destruct r.
Qed.
End roundtrip.

(** Dotted decimals: the IPv4 text of the C library, to instantiate [InetText]. *)
Definition dotted_ntop (f : family) (a : addr) : option str :=
  match f, a with
  | AF_INET, [a0; a1; a2; a3] =>
    if bool_decide (Forall u8 a) then Some (NString.join "."%char (Parse.print_Z <$> a)) else None
  | _, _ => None
  end.
Definition dotted_pton (f : family) (s : str) : option addr :=
  let nums := Parse.parse_view_int u8_type <$> NString.pieces "."%char s in
  match f, nums with
  | AF_INET, [Ok a0; Ok a1; Ok a2; Ok a3] => Some [a0; a1; a2; a3]
  | _, _ => None
  end.

(** The text of each of the 256 bytes, by evaluation. *)
Definition byte_text_ok (b : Z) : bool :=
  bool_decide (Parse.parse_view_int u8_type (Parse.print_Z b) = Ok b) &&
  (length (Parse.print_Z b) <=? 3)%nat &&
  forallb Parse.is_digit (Parse.print_Z b).

Lemma byte_text b :
  u8 b → Parse.parse_view_int u8_type (Parse.print_Z b) = Ok b ∧
    length (Parse.print_Z b) ≤ 3 ∧ Forall (λ c, Parse.is_digit c = true) (Parse.print_Z b).
Proof.
  intros Hb.
  assert (byte_text_ok b = true) as H.
  { assert (forallb byte_text_ok (Z.of_nat <$> seq 0 256) = true) as Hall by (by vm_compute).
    rewrite forallb_forall in Hall. apply Hall, list_elem_of_In, list_elem_of_fmap.
    exists (Z.to_nat b). unfold u8 in Hb. split; [lia|]. apply elem_of_seq. lia. }
  unfold byte_text_ok in H. rewrite !andb_true_iff, bool_decide_eq_true, Nat.leb_le in H.
  destruct H as [[H1 H2] H3]. split_and!; [done..|].
  apply Forall_forall. intros c Hc. rewrite forallb_forall in H3. by apply H3.
Qed.

Lemma byte_text_char b d : u8 b → Parse.is_digit d = false → d ∉ Parse.print_Z b.
Proof.
  intros Hb Hd Hc. destruct (byte_text b Hb) as (_ & _ & H).
  apply list_elem_of_In, (proj1 (Forall_forall _ _) H) in Hc. congruence.
Qed.

Lemma dotted_ntop_Some a s :
  dotted_ntop AF_INET a = Some s →
  ∃ a0 a1 a2 a3, a = [a0; a1; a2; a3] ∧ u8 a0 ∧ u8 a1 ∧ u8 a2 ∧ u8 a3 ∧
    s = Parse.print_Z a0 ++ ("."%char :: Parse.print_Z a1 ++ ("."%char :: Parse.print_Z a2 ++
          ("."%char :: Parse.print_Z a3))).
Proof.
  unfold dotted_ntop. destruct a as [|a0 [|a1 [|a2 [|a3 [|]]]]]; try done.
  case_bool_decide as H; [|done]. simpl. intros [= <-].
  decompose_Forall_hyps. by exists a0, a1, a2, a3.
Qed.

#[global] Instance dotted_text : InetText dotted_pton dotted_ntop AF_INET.
Proof.
  split.
  - intros a Hl Hu. destruct a as [|a0 [|a1 [|a2 [|a3 [|]]]]]; try done.
    unfold dotted_ntop. rewrite bool_decide_eq_true_2 by done. by eexists.
  - intros a s (a0 & a1 & a2 & a3 & -> & H0 & H1 & H2 & H3 & ->)%dotted_ntop_Some.
    apply byte_text in H0, H1, H2, H3. repeat (rewrite length_app; simpl). lia.
  - intros a s (a0 & a1 & a2 & a3 & -> & H0 & H1 & H2 & H3 & ->)%dotted_ntop_Some.
    split; repeat rewrite ?not_elem_of_app, ?not_elem_of_cons;
      split_and!; (by apply byte_text_char) || done.
  - intros a s (a0 & a1 & a2 & a3 & -> & H0 & H1 & H2 & H3 & ->)%dotted_ntop_Some.
    exists "."%char. split; [set_solver|done].
  - intros a s Hl Hu (a0 & a1 & a2 & a3 & -> & H0 & H1 & H2 & H3 & ->)%dotted_ntop_Some.
    unfold dotted_pton.
    rewrite !NString.pieces_app, NString.pieces_last by (by apply byte_text_char). simpl.
    rewrite (proj1 (byte_text a0 H0)), (proj1 (byte_text a1 H1)).
    by rewrite (proj1 (byte_text a2 H2)), (proj1 (byte_text a3 H3)).
Qed.

Lemma print_parse_range_witness :
  (∃ s, print_addr dotted_ntop AF_INET (OStream [] false) [192; 168; 1; 0]%Z = OStream s false ∧
        to_string_f dotted_ntop AF_INET (addrstrlen AF_INET) [192; 168; 1; 0]%Z = Ok s ∧
        parse_ip_address_t dotted_pton AF_INET s = Some [192; 168; 1; 0]%Z) ∧
  (∃ s, print_range dotted_ntop AF_INET (OStream [] false)
          (IpRange [192; 168; 1; 0] [255; 255; 255; 0])%Z = OStream s false ∧
        parse_ip_range dotted_pton AF_INET s =
          Ok (Some (IpRange [192; 168; 1; 0] [255; 255; 255; 0])%Z)).
Proof.
  apply (print_parse_range dotted_pton dotted_ntop AF_INET
           (IpRange [192; 168; 1; 0] [255; 255; 255; 0])%Z);
    (split; [done|by repeat constructor]).
Defined.

(** The two notations of one range. *)
Example parse_range_notations :
  parse_ip_range dotted_pton AF_INET (lit "10.1.0.0/16") =
    parse_ip_range dotted_pton AF_INET (lit "10.1.0.0/255.255.0.0") ∧
  parse_ip_range dotted_pton AF_INET (lit "10.1.0.0/33") = Ok None ∧
  parse_ip_range dotted_pton AF_INET (lit "10.1.2.3") =
    Ok (Some (IpRange [10; 1; 2; 3] [255; 255; 255; 255])%Z).
Proof. by vm_compute. Qed.
End Ip.
