(* ===== verification/Csv.v ===== *)
(** * CSV reading and writing: csv_dict_reader.hpp, csv_dict_reader.cpp

    The reader over its input stream and the writer over its output stream.
    The tokenizer of Boost ([escaped_list_separator]) is not part of the
    repository: it is the class [Tokenizer], whose laws are Boost's documented
    character-level rules, and [boost_scan] is an instance.  The two [flat_map]s
    are finite maps. *)

From S2P Require Import Prelude Strings.

Module Csv.

Definition newline : ascii := "010"%char.
Definition nul : ascii := "000"%char.

(** ** Data *)

Definition default_escape : ascii := "\"%char.
Definition default_coma : ascii := ","%char.
Definition default_quote : ascii := "034"%char.

Record csv_parse_config := Config {
  parse_headers : bool;
  skip_empty_lines : bool;
  check_columns_size : bool;
  comment : ascii;
  escape : ascii;
  coma : ascii;
  quote : ascii;
}.

Definition default_config : csv_parse_config :=
  Config true true true "#"%char default_escape default_coma default_quote.

(** The characters of a [csv_separator]. *)
Record csv_separator := Sep { s_escape : ascii; s_coma : ascii; s_quote : ascii }.

Abbreviation column_mapping := (gmap str nat).
Abbreviation values_mapping := (gmap str str).

(** The reader's members; [_config] and [_sep] are constant. *)
Record csv_dict_reader := Reader {
  cr_config : csv_parse_config;
  cr_sep : csv_separator;
  cr_iss : istream;
  cr_data : str;
  cr_line : Z;
  cr_columns : option column_mapping;
  cr_values : option (list str);
}.

(** ** The tokenizer *)

(** What a tokenizer gives: the tokens, and the exception the next step throws. *)
Definition tokens : Type := list str * option exn.
Definition tok_cons (t : str) (r : tokens) : tokens := (t :: fst r, snd r).

(** [scan sep in_quote acc rest] are the tokens still to come when [acc] was
    collected of the current one.  The laws follow Boost's description of
    [escaped_list_separator]: the escape character introduces a newline, a
    quote, a separator or itself; the separator ends a field outside quotes; a
    quote opens or closes a quoted part. *)
Class Tokenizer := {
  scan : csv_separator → bool → str → str → tokens;
  escape_at_end : exn;
  unknown_escape : exn;
  scan_end : ∀ sep q acc, scan sep q acc [] = ([acc], None);
  scan_escape_end : ∀ sep q acc,
    scan sep q acc [s_escape sep] = ([], Some escape_at_end);
  scan_escape_n : ∀ sep q acc rest,
    scan sep q acc (s_escape sep :: "n"%char :: rest) = scan sep q (acc ++ [newline]) rest;
  scan_escape_special : ∀ sep q acc c rest,
    c ≠ "n"%char → c ∈ [s_quote sep; s_coma sep; s_escape sep] →
    scan sep q acc (s_escape sep :: c :: rest) = scan sep q (acc ++ [c]) rest;
  scan_escape_other : ∀ sep q acc c rest,
    c ≠ "n"%char → c ∉ [s_quote sep; s_coma sep; s_escape sep] →
    scan sep q acc (s_escape sep :: c :: rest) = ([], Some unknown_escape);
  scan_coma : ∀ sep acc rest,
    s_coma sep ≠ s_escape sep →
    scan sep false acc (s_coma sep :: rest) = tok_cons acc (scan sep false [] rest);
  scan_coma_quoted : ∀ sep acc rest,
    s_coma sep ≠ s_escape sep →
    scan sep true acc (s_coma sep :: rest) = scan sep true (acc ++ [s_coma sep]) rest;
  scan_quote : ∀ sep q acc rest,
    s_quote sep ≠ s_escape sep → s_quote sep ≠ s_coma sep →
    scan sep q acc (s_quote sep :: rest) = scan sep (negb q) acc rest;
  scan_plain : ∀ sep q acc c rest,
    c ∉ [s_quote sep; s_coma sep; s_escape sep] →
    scan sep q acc (c :: rest) = scan sep q (acc ++ [c]) rest;
}.

(** The tokens of a whole text; the empty text has none. *)
Definition tokenize `{Tokenizer} (sep : csv_separator) (s : str) : tokens :=
  match s with
  | [] => ([], None)
  | _ => scan sep false [] s
  end.

Section csv.
Context `{Tok : Tokenizer}.

(** ** The reader *)

(** The loop of [parse_columns]. *)
Fixpoint columns_loop (toks : list str) (err : option exn) (idx : nat)
    (columns : column_mapping) : res column_mapping :=
  match toks with
  | [] => match err with Some e => Throw e | None => Ok columns end
  | t :: toks =>
    match columns !! t with
    | Some _ => Throw (NstlException " column duplicated (")
    | None => columns_loop toks err (S idx) (<[t := idx]> columns)
    end
  end.

Definition parse_columns (iss : istream) (data : str) (sep : csv_separator) (headers : bool)
    : istream * str * res (option column_mapping) :=
  if negb headers then (iss, data, Ok None)
  else
    match getline iss with
    | (Some line, iss') =>
      let '(toks, err) := tokenize sep line in
      (iss', line, Some <$> columns_loop toks err 0 ∅)
    | (None, iss') => (iss', data, Throw (NstlException "failed to read from istream"))
    end.

(** The constructor. *)
Definition make_reader (iss : istream) (config : csv_parse_config) : res csv_dict_reader :=
  let sep := Sep (escape config) (coma config) (quote config) in
  let '(iss', data, cols) := parse_columns iss [] sep (parse_headers config) in
  columns ← cols;
  Ok (Reader config sep iss' data 1 columns None).

Definition set_stream (iss : istream) (data : str) (r : csv_dict_reader) : csv_dict_reader :=
  Reader (cr_config r) (cr_sep r) iss data (cr_line r) (cr_columns r) (cr_values r).
Definition set_line (n : Z) (r : csv_dict_reader) : csv_dict_reader :=
  Reader (cr_config r) (cr_sep r) (cr_iss r) (cr_data r) n (cr_columns r) (cr_values r).
Definition set_values (v : option (list str)) (r : csv_dict_reader) : csv_dict_reader :=
  Reader (cr_config r) (cr_sep r) (cr_iss r) (cr_data r) (cr_line r) (cr_columns r) v.

(** The two tests at the top of the loop of [next]. *)
Definition skip_line (config : csv_parse_config) (data : str) : bool :=
  (skip_empty_lines config && View.empty data) ||
  (bool_decide (comment config ≠ nul) &&
   match data with c :: _ => bool_decide (c = comment config) | [] => false end).

(** The body of [next] once a line is to be processed. *)
Definition process_line (data : str) : M csv_dict_reader bool :=
  r ← mget;
  let '(toks, err) := tokenize (cr_sep r) data in
  mmodify (set_values (Some toks));;
  match err with
  | Some e => mthrow e
  | None =>
    mthrow_if
      (match cr_columns r with
       | Some columns => check_columns_size (cr_config r) && negb (length toks =? size columns)%nat
       | None => false
       end)
      (NstlException "columns not in line with the number of fields (line: ");;
    mret true
  end.

(** [next]: each turn takes a line off the stream, so the loop runs at most once
    more than the stream has characters. *)
Fixpoint next_loop (fuel : nat) : M csv_dict_reader bool :=
  match fuel with
  | O => mthrow (UndefinedBehaviour "next: out of fuel")
  | S fuel =>
    r ← mget;
    match getline (cr_iss r) with
    | (None, iss) =>
      mmodify (set_stream iss (cr_data r));;
      mmodify (set_values None);;
      mret false
    | (Some data, iss) =>
      mmodify (set_stream iss data);;
      if skip_line (cr_config r) data then
        mmodify (set_line (wrap 32 (cr_line r + 1)));;
        next_loop fuel
      else process_line data
    end
  end.
Definition next : M csv_dict_reader bool := λ r, next_loop (S (length (is_rest (cr_iss r)))) r.

Definition header (r : csv_dict_reader) : option column_mapping := cr_columns r.
Definition row (r : csv_dict_reader) : option (list str) := cr_values r.

Definition get_field_in (r : csv_dict_reader) (columns : column_mapping) (col : str) : option str :=
  match cr_values r with
  | None => None
  | Some values =>
    match columns !! col with
    | Some idx => if (length values <=? idx)%nat then None else values !! idx
    | None => None
    end
  end.
Definition get_field (r : csv_dict_reader) (col : str) : option str :=
  match cr_columns r with
  | Some columns => get_field_in r columns col
  | None => None
  end.

(** The loop over the columns of [get_data]. *)
Definition fill_target (values : list str) (columns : column_mapping) : values_mapping :=
  map_fold (λ column idx target,
    match values !! idx with Some v => <[column := v]> target | None => target end) ∅ columns.

(** [get_data(target)]: the result and the new content of the target. *)
Definition get_data_into (target : values_mapping) : M csv_dict_reader (bool * values_mapping) :=
  r ← mget;
  match cr_columns r with
  | None => mthrow (NstlException "this API can be used only when headers parsed")
  | Some columns =>
    more ← next;
    if more : bool then
      r' ← mget;
      match cr_values r' with
      | None => mthrow (NstlException "This is a massive bug")
      | Some values => mret (true, fill_target values columns)
      end
    else mret (false, target)
  end.
Definition get_data : M csv_dict_reader (option values_mapping) :=
  '(more, target) ← get_data_into ∅;
  mret (if more : bool then Some target else None).

(** [parse_csv_line]; [None] is an empty functor. *)
Fixpoint line_loop {S} (func : str → M S ()) (toks : list str) (err : option exn) (retval : nat)
    : M S nat :=
  match toks with
  | [] => match err with Some e => mthrow e | None => mret retval end
  | t :: toks => func t;; line_loop func toks err (retval + 1)
  end.
Definition parse_csv_line {S} (line : str) (result : option (str → M S ())) (sep : csv_separator)
    : M S nat :=
  match result with
  | None => mthrow (NstlException "Functor not set")
  | Some func => let '(toks, err) := tokenize sep line in line_loop func toks err 0
  end.

(** ** The writer *)

(** The characters [find_first_of] looks for: a C string. *)
Definition special_chars (config : csv_parse_config) : str :=
  cut_nul [escape config; coma config; quote config; newline; nul].

Definition put_char (config : csv_parse_config) (os : ostream) (ch : ascii) : ostream :=
  if bool_decide (ch = escape config) || bool_decide (ch = quote config) then
    os_write (os_write os [escape config]) [ch]
  else if bool_decide (ch = newline) then
    os_write (os_write os [escape config]) ["n"%char]
  else os_write os [ch].

Definition write_field (os : ostream) (data : str) (config : csv_parse_config) : ostream :=
  match View.find_first_of data (special_chars config) with
  | None => os_write os data
  | Some _ =>
    let os := os_write os [quote config] in
    let os := foldl (put_char config) os data in
    os_write os [quote config]
  end.

Definition write_row (os : ostream) (fields : list str) (config : csv_parse_config) : ostream :=
  match fields with
  | [] => os
  | f :: fields =>
    foldl (λ os f, write_field (os_write os [coma config]) f config) (write_field os f config) fields
  end.
End csv.

(** A tokenizer with these laws. *)
Fixpoint boost_scan (sep : csv_separator) (q : bool) (acc : str) (s : str) : tokens :=
  match s with
  | [] => ([acc], None)
  | c :: s' =>
    if bool_decide (c = s_escape sep) then
      match s' with
      | [] => ([], Some (RuntimeError "cannot end with escape"))
      | d :: s'' =>
        if bool_decide (d = "n"%char) then boost_scan sep q (acc ++ [newline]) s''
        else if bool_decide (d ∈ [s_quote sep; s_coma sep; s_escape sep])
             then boost_scan sep q (acc ++ [d]) s''
        else ([], Some (RuntimeError "unknown escape sequence"))
      end
    else if bool_decide (c = s_coma sep) then
      if q then boost_scan sep q (acc ++ [c]) s'
      else tok_cons acc (boost_scan sep false [] s')
    else if bool_decide (c = s_quote sep) then boost_scan sep (negb q) acc s'
    else boost_scan sep q (acc ++ [c]) s'
  end.

#[export] Instance boost_tokenizer : Tokenizer.
Proof.
  refine {| scan := boost_scan; escape_at_end := RuntimeError "cannot end with escape";
            unknown_escape := RuntimeError "unknown escape sequence" |};
    intros; simpl; repeat (case_bool_decide; simplify_eq/=; try done); set_solver.
Defined.

Example boost_tokens :
  tokenize (Sep default_escape default_coma default_quote)
    (lit "a,b,") = ([lit "a"; lit "b"; []], None).
Proof. reflexivity. Qed.

(** ** The text a row is written as *)

(** The three characters are told apart, and none of them is a character the
    escapes or the lines need. *)
Definition config_ok (config : csv_parse_config) : Prop :=
  NoDup [escape config; coma config; quote config; newline; nul] ∧
  escape config ≠ "n"%char ∧ quote config ≠ "n"%char.
#[export] Instance config_ok_dec config : Decision (config_ok config).
Proof. unfold config_ok. apply _. Defined.

Definition config_sep (config : csv_parse_config) : csv_separator :=
  Sep (escape config) (coma config) (quote config).

Definition enc_char (config : csv_parse_config) (ch : ascii) : str :=
  if bool_decide (ch = escape config) || bool_decide (ch = quote config) then [escape config; ch]
  else if bool_decide (ch = newline) then [escape config; "n"%char]
  else [ch].
Definition enc_field (config : csv_parse_config) (data : str) : str :=
  match View.find_first_of data (special_chars config) with
  | None => data
  | Some _ => quote config :: (data ≫= enc_char config) ++ [quote config]
  end.
Definition enc_rest (config : csv_parse_config) (fields : list str) : str :=
  fields ≫= λ f, coma config :: enc_field config f.
Definition enc_row (config : csv_parse_config) (fields : list str) : str :=
  match fields with
  | [] => []
  | f :: fields => enc_field config f ++ enc_rest config fields
  end.

Lemma write_field_enc os data config : write_field os data config = os_write os (enc_field config data).
Proof.
  unfold write_field, enc_field. case_match; [|done].
  assert (∀ os, foldl (put_char config) os data = os_write os (data ≫= enc_char config)) as Hf.
  { clear. induction data as [|c data IH]; intros os; csimpl.
    - by rewrite os_write_nil.
    - rewrite IH, <-os_write_app. f_equal. unfold put_char, enc_char.
      repeat case_match; by rewrite ?os_write_app. }
  by rewrite Hf, !os_write_app.
Qed.

Lemma write_row_enc os fields config : write_row os fields config = os_write os (enc_row config fields).
Proof.
  destruct fields as [|f fields]; simpl.
  { by rewrite os_write_nil. }
  rewrite write_field_enc, <-os_write_app. generalize (os_write os (enc_field config f)).
  clear. induction fields as [|f fields IH]; intros os; csimpl.
  - by rewrite os_write_nil.
  - rewrite IH, write_field_enc, !os_write_app. done.
Qed.

Lemma special_chars_ok config :
  config_ok config → special_chars config = [escape config; coma config; quote config; newline].
Proof.
  intros [Hd _]. unfold special_chars. rewrite !list.NoDup_cons, !elem_of_cons in Hd. simpl.
  repeat (rewrite decide_False by (unfold nul in *; naive_solver)). done.
Qed.

(** ** The header *)

(** The mapping of a header without duplicates. *)
Definition header_map (idx : nat) (hdr : list str) : column_mapping :=
  list_to_map (zip hdr (seq idx (length hdr))).

Lemma fst_zip_seq (hdr : list str) idx : (zip hdr (seq idx (length hdr))).*1 = hdr.
Proof. apply fst_zip. by rewrite length_seq. Qed.

Lemma columns_loop_spec toks idx columns :
  (∀ t, t ∈ toks → columns !! t = None) →
  columns_loop toks None idx columns =
  if decide (NoDup toks) then Ok (header_map idx toks ∪ columns)
  else Throw (NstlException " column duplicated (").
Proof.
  revert idx columns. induction toks as [|t toks IH]; intros idx columns Hd; simpl.
  { unfold header_map; simpl. by rewrite (left_id_L ∅ _). }
  rewrite Hd by set_solver. destruct (decide (t ∈ toks)) as [Hin|Hin].
  - rewrite (decide_False (P := NoDup (t :: toks))) by (rewrite list.NoDup_cons; tauto).
    clear IH Hd. assert (<[t := idx]> columns !! t = Some idx) as Ht by apply lookup_insert_eq.
    revert Ht. generalize (<[t := idx]> columns) (S idx). induction Hin as [toks|t u toks Hin IH];
      intros cols k Ht; simpl; [by rewrite Ht|].
    destruct (cols !! u) eqn:Hu; [done|]. apply IH. rewrite lookup_insert_ne; [done|].
    intros ->. congruence.
  - rewrite IH.
    2: { intros u Hu. rewrite lookup_insert_ne by set_solver. apply Hd. set_solver. }
    destruct (decide (NoDup toks)) as [Hn|Hn].
    + rewrite decide_True by (by constructor). f_equal. unfold header_map. simpl.
      rewrite <-insert_union_l, insert_union_r; [done|].
      apply not_elem_of_list_to_map_1. by rewrite fst_zip_seq.
    + rewrite decide_False by (rewrite list.NoDup_cons; tauto). done.
Qed.

Lemma header_map_size hdr : NoDup hdr → size (header_map 0 hdr) = length hdr.
Proof.
  intros Hn. unfold header_map. rewrite <-length_map_to_list.
  rewrite map_to_list_to_map by (by rewrite fst_zip_seq).
  rewrite length_zip_with, length_seq. lia.
Qed.

Lemma header_map_values hdr (values : list str) :
  NoDup hdr → length values = length hdr →
  omap (λ idx, values !! idx) (header_map 0 hdr) =@{values_mapping} list_to_map (zip hdr values).
Proof.
  intros Hn Hl. apply map_eq. intros c. rewrite lookup_omap.
  apply option_eq. intros v.
  assert (NoDup (zip hdr values).*1) by (rewrite fst_zip by lia; done).
  assert (NoDup (zip hdr (seq 0 (length hdr))).*1) by (by rewrite fst_zip_seq).
  rewrite bind_Some. rewrite <-(elem_of_list_to_map _ _ _ H), list_elem_of_lookup.
  unfold header_map. setoid_rewrite <-(elem_of_list_to_map _ _ _ H0).
  setoid_rewrite list_elem_of_lookup. setoid_rewrite lookup_zip_Some. split.
  - intros (i & (k & Hk & Hi) & Hv). apply lookup_seq in Hi as [-> _]. eauto.
  - intros (k & Hk & Hv). exists k. split; [|done]. exists k. split; [done|].
    apply lookup_seq. split; [lia|]. by apply lookup_lt_Some in Hk.
Qed.

Lemma fill_target_omap values columns :
  fill_target values columns = omap (λ idx, values !! idx) columns.
Proof.
  unfold fill_target. apply (map_fold_weak_ind (λ r m, r = omap (λ idx, values !! idx) m)).
  - by rewrite omap_empty.
  - intros i x m r Hm ->. rewrite omap_insert. destruct (values !! x); simpl; [done|].
    rewrite delete_id; [done|]. by rewrite lookup_omap, Hm.
Qed.

Section roundtrip.
Context `{Tok : Tokenizer} (config : csv_parse_config) (Hok : config_ok config).
Let sep := config_sep config.

Lemma config_distinct :
  escape config ≠ coma config ∧ escape config ≠ quote config ∧ coma config ≠ quote config ∧
  escape config ≠ newline ∧ coma config ≠ newline ∧ quote config ≠ newline ∧
  escape config ≠ "n"%char ∧ quote config ≠ "n"%char.
Proof using Hok.
  destruct Hok as [Hd ?]. rewrite !list.NoDup_cons, !elem_of_cons in Hd. naive_solver.
Qed.

Lemma scan_enc_char acc c rest :
  scan sep true acc (enc_char config c ++ rest) = scan sep true (acc ++ [c]) rest.
Proof using Hok.
  pose proof config_distinct as (? & ? & ? & ? & ? & ? & ? & ?). unfold enc_char.
  repeat case_bool_decide; subst; simpl; try done;
    try (apply (scan_escape_special sep); [done|set_solver]).
  - apply (scan_escape_n sep).
  - destruct (decide (c = coma config)) as [->|].
    + by apply (scan_coma_quoted sep).
    + apply scan_plain. set_solver.
Qed.

Lemma scan_enc_field acc data rest :
  scan sep false acc (enc_field config data ++ rest) = scan sep false (acc ++ data) rest.
Proof using Hok.
  pose proof config_distinct as (? & ? & ? & ? & ? & ? & ? & ?).
  unfold enc_field. destruct (View.find_first_of _ _) eqn:E; simpl.
  - rewrite (scan_quote sep) by (simpl; done). simpl. rewrite <-app_assoc.
    assert (∀ acc rest, scan sep true acc ((data ≫= enc_char config) ++ rest) =
              scan sep true (acc ++ data) rest) as ->.
    { clear E acc rest. induction data as [|c data IH]; intros acc rest; csimpl.
      - by rewrite app_nil_r.
      - rewrite <-app_assoc, scan_enc_char, IH, <-app_assoc. done. }
    simpl. by rewrite (scan_quote sep) by (simpl; done).
  - apply View.find_first_of_None in E. rewrite special_chars_ok in E by done.
    clear -E. revert acc. induction E as [|c data Hc E IH]; intros acc; simpl.
    + by rewrite app_nil_r.
    + rewrite scan_plain by set_solver. rewrite IH, <-app_assoc. done.
Qed.

Lemma scan_enc_rest acc fields :
  scan sep false acc (enc_rest config fields) = (acc :: fields, None).
Proof using Hok.
  pose proof config_distinct as (? & ? & ? & ? & ? & ? & ? & ?).
  revert acc. induction fields as [|f fields IH]; intros acc; csimpl.
  - apply scan_end.
  - rewrite (scan_coma sep) by (simpl; done). rewrite scan_enc_field, IH. done.
Qed.

Lemma enc_row_nil fields : enc_row config fields = [] ↔ fields = [] ∨ fields = [[]].
Proof.
  split.
  - destruct fields as [|f [|g fields]]; csimpl; [tauto| |].
    + rewrite app_nil_r. unfold enc_field. case_match; [done|]. intros ->. tauto.
    + intros [_ H]%app_eq_nil. done.
  - intros [->| ->]; done.
Qed.

Lemma tokenize_enc_row fields :
  fields ≠ [[]] → tokenize sep (enc_row config fields) = (fields, None).
Proof using Hok.
  intros Hne. destruct (enc_row config fields) eqn:E.
  { apply enc_row_nil in E as [->|]; done. }
  unfold tokenize. rewrite <-E. destruct fields as [|f fields]; [done|]. simpl.
  rewrite scan_enc_field, scan_enc_rest. done.
Qed.

Lemma enc_field_newline data : newline ∉ enc_field config data.
Proof using Hok.
  pose proof config_distinct as (? & ? & ? & ? & ? & ? & ? & ?).
  unfold enc_field. destruct (View.find_first_of _ _) eqn:E.
  - rewrite elem_of_cons, elem_of_app, list_elem_of_singleton, list_elem_of_bind.
    intros [?|[(c & Hc & _)|?]]; [done| |done]. unfold enc_char in Hc.
    repeat case_bool_decide; set_solver.
  - apply View.find_first_of_None in E. rewrite special_chars_ok in E by done.
    intros Hn. eapply (proj1 (list.Forall_forall _ _)) in E; [|done]. set_solver.
Qed.

Lemma enc_row_newline fields : newline ∉ enc_row config fields.
Proof using Hok.
  pose proof config_distinct as (? & ? & ? & ? & ? & ? & ? & ?).
  destruct fields as [|f fields]; simpl; [set_solver|].
  unfold enc_rest. rewrite elem_of_app, list_elem_of_bind. intros [?|(g & Hg & _)].
  - by eapply enc_field_newline.
  - apply elem_of_cons in Hg as [?|?]; [done|]. by eapply enc_field_newline.
Qed.

(** What [write_row] writes is one line, and the tokens of that line are the
    fields of the row, for every row but the one with a single empty field (whose
    text is empty, and has no token); [parse_csv_line] hands them to its functor
    in order and returns their number. *)
Theorem write_row_parse {S} (func : str → M S ()) (fields : list str) (st : S) :
  fields ≠ [[]] →
  ∃ s, write_row (OStream [] false) fields config = OStream s false ∧ newline ∉ s ∧
    tokenize (config_sep config) s = (fields, None) ∧
    parse_csv_line s (Some func) (config_sep config) st = line_loop func fields None 0 st.
Proof using Hok.
  intros Hne. exists (enc_row config fields). rewrite write_row_enc. split; [done|].
  split; [by apply enc_row_newline|].
  pose proof (tokenize_enc_row fields Hne) as E. split; [done|].
  unfold parse_csv_line. fold sep. by rewrite E.
Qed.

(** ** Reading a file back *)

(** The client loops: rows written one per line, and rows read until the end. *)
Definition write_rows (rows : list (list str)) : ostream :=
  foldl (λ os r, os_write (write_row os r config) [newline]) (OStream [] false) rows.
Definition rows_text (rows : list (list str)) : str := rows ≫= λ r, enc_row config r ++ [newline].

Fixpoint read_data (fuel : nat) : M csv_dict_reader (list values_mapping) :=
  match fuel with
  | O => mret []
  | Datatypes.S fuel =>
    d ← get_data;
    match d with
    | None => mret []
    | Some m => ms ← read_data fuel; mret (m :: ms)
    end
  end.

(** A row that the reader does not take for an empty line or a comment. *)
Definition row_readable (fields : list str) : Prop :=
  fields ≠ [] ∧ fields ≠ [[]] ∧
  (comment config = nul ∨
   (comment config ≠ quote config ∧ comment config ≠ coma config ∧
    head fields ≫= head ≠ Some (comment config))).

Lemma write_rows_text rows : write_rows rows = OStream (rows_text rows) false.
Proof.
  unfold write_rows, rows_text.
  assert (∀ o, foldl (λ os r, os_write (write_row os r config) [newline]) (OStream o false) rows =
            OStream (o ++ (rows ≫= λ r, enc_row config r ++ [newline])) false) as H; [|apply H].
  induction rows as [|r rows IH]; intros o; csimpl; [by rewrite app_nil_r|].
  rewrite write_row_enc, os_write_app. unfold os_write at 2; simpl. by rewrite IH, <-app_assoc.
Qed.

Lemma readable_not_skipped fields :
  row_readable fields → skip_line config (enc_row config fields) = false.
Proof using Hok.
  intros (Hne & Hne' & Hc). unfold skip_line. apply orb_false_iff. split.
  - destruct (enc_row config fields) eqn:E; [|by rewrite andb_false_r].
    apply enc_row_nil in E. naive_solver.
  - destruct Hc as [->|(Hq & Hco & Hh)]; [done|].
    apply andb_false_iff. right. destruct fields as [|f fields]; [done|]. simpl.
    unfold enc_field. destruct (View.find_first_of _ _); simpl.
    { case_bool_decide; congruence. }
    destruct f as [|c f]; simpl in *; [|case_bool_decide; congruence].
    destruct fields as [|g fields]; [done|]. csimpl. case_bool_decide; congruence.
Qed.

(** The state of a reader in front of the rows still to come. *)
Definition reading (columns : option column_mapping) (rest : str) (r : csv_dict_reader) : Prop :=
  cr_config r = config ∧ cr_sep r = sep ∧ cr_columns r = columns ∧ cr_iss r = IStream rest false.

Lemma next_row columns rest fields r :
  row_readable fields → (∀ c, columns = Some c → length fields = size c) →
  reading columns (enc_row config fields ++ (newline :: rest)) r →
  ∃ r', next r = (r', Ok true) ∧ reading columns rest r' ∧ cr_values r' = Some fields ∧
    cr_line r' = cr_line r.
Proof using Hok.
  intros Hr Hlen (Hc & Hs & Hcol & Hi). unfold next. rewrite Hi. simpl.
  munfold_goal. rewrite Hi, getline_newline by (by apply enc_row_newline). simpl.
  rewrite Hc, readable_not_skipped by done.
  unfold process_line. munfold_goal. rewrite Hs.
  rewrite tokenize_enc_row by apply Hr. simpl.
  assert (match cr_columns r with
    | Some columns => check_columns_size (cr_config r) && negb (length fields =? size columns)%nat
    | None => false end = false) as ->.
  { rewrite Hcol. destruct columns as [c|]; [|done].
    rewrite (Hlen c eq_refl), Nat.eqb_refl. apply andb_false_r. }
  eexists. split; [done|]. done.
Qed.

Lemma next_end columns r :
  reading columns [] r → ∃ r', next r = (r', Ok false) ∧ cr_values r' = None.
Proof.
  intros (Hc & Hs & Hcol & Hi). unfold next. rewrite Hi. simpl. munfold_goal. rewrite Hi. simpl.
  eexists. split; done.
Qed.

Lemma get_data_row hdr rest fields r :
  NoDup hdr → row_readable fields → length fields = length hdr →
  reading (Some (header_map 0 hdr)) (enc_row config fields ++ (newline :: rest)) r →
  ∃ r', get_data r = (r', Ok (Some (list_to_map (zip hdr fields)))) ∧
    reading (Some (header_map 0 hdr)) rest r' ∧ cr_line r' = cr_line r.
Proof using Hok.
  intros Hn Hr Hl Hrd. destruct (next_row _ _ _ _ Hr (λ c, λ E : _ = Some c,
    eq_trans Hl (eq_trans (eq_sym (header_map_size hdr Hn)) (f_equal size (Some_inj _ _ E)))) Hrd)
    as (r' & E & Hrd' & Hv & Hline).
  exists r'. split; [|done]. unfold get_data, get_data_into. munfold_goal.
  destruct Hrd as (_ & _ & -> & _). rewrite E. simpl. rewrite Hv. simpl.
  by rewrite fill_target_omap, header_map_values.
Qed.

(** C2: a file written with [write_row], the header first, is read back row by
    row: the reader is built, [get_data] returns for each row in turn the map
    from the column names to the fields, then reports the end.  The rows need as
    many fields as the header, and must not look like an empty line or a
    comment.  The line counter does not move, since only skipped lines are
    counted. *)
Theorem csv_write_read (hdr : list str) (rows : list (list str)) :
  parse_headers config = true → hdr ≠ [[]] → NoDup hdr →
  Forall (λ row, row_readable row ∧ length row = length hdr) rows →
  ∃ text r r', write_rows (hdr :: rows) = OStream text false ∧
    make_reader (IStream text false) config = Ok r ∧
    read_data (Datatypes.S (length rows)) r =
      (r', Ok ((λ row, list_to_map (zip hdr row)) <$> rows)) ∧
    cr_line r' = 1%Z.
Proof using Hok.
  intros Hh Hne Hn Hrows. rewrite write_rows_text. eexists _, _.
  cut (∃ r', read_data (Datatypes.S (length rows))
         (Reader config sep (IStream (rows_text rows) false) (enc_row config hdr) 1
            (Some (header_map 0 hdr)) None) =
         (r', Ok ((λ row, list_to_map (zip hdr row)) <$> rows)) ∧ cr_line r' = 1%Z).
  { intros (r' & E & Hl). exists r'. split; [done|]. split; [|by split].
    unfold make_reader, parse_columns. rewrite Hh. simpl.
    unfold rows_text; csimpl. rewrite <-app_assoc; simpl.
    rewrite getline_newline by (by apply enc_row_newline).
    change (Sep _ _ _) with sep. rewrite tokenize_enc_row by done. munfold_goal.
    rewrite columns_loop_spec by set_solver. rewrite decide_True by done.
    by rewrite (right_id_L ∅ _). }
  assert (∀ r, reading (Some (header_map 0 hdr)) (rows_text rows) r → ∃ r',
    read_data (Datatypes.S (length rows)) r =
      (r', Ok ((λ row, list_to_map (zip hdr row)) <$> rows)) ∧ cr_line r' = cr_line r) as H.
  2: { by apply H. }
  induction Hrows as [|row rows [Hr Hl] Hrows IH]; intros r Hrd.
  - destruct (next_end _ _ Hrd) as (r' & E & _). exists r'.
    simpl. unfold get_data, get_data_into. munfold_goal. pose proof Hrd as (_ & _ & Hc & _).
    rewrite Hc, E. simpl. split; [done|].
    unfold next in E. destruct Hrd as (_ & _ & _ & Hi). rewrite Hi in E; simpl in E.
    munfold. rewrite Hi in E. simpl in E. injection E as <-. done.
  - unfold rows_text in Hrd; csimpl in Hrd. rewrite <-app_assoc in Hrd.
    destruct (get_data_row _ _ _ _ Hn Hr Hl Hrd) as (r1 & E1 & Hrd1 & Hl1).
    destruct (IH r1 Hrd1) as (r2 & E2 & Hl2). exists r2. split; [|congruence].
    cbn [length]. cbn [read_data] in E2 |- *. unfold mbind, M_bind in E2 |- *.
    rewrite E1. unfold mbind, M_bind. rewrite E2. done.
Qed.
End roundtrip.

Section next.
Context `{Tok : Tokenizer}.

(** Whether the fields of a line do not fit the header. *)
Definition mismatch (r : csv_dict_reader) (fields : list str) : bool :=
  match cr_columns r with
  | Some columns => check_columns_size (cr_config r) && negb (length fields =? size columns)%nat
  | None => false
  end.

Lemma next_loop_skip skipped line rest : ∀ fuel r,
  Forall (λ l, newline ∉ l ∧ skip_line (cr_config r) l = true) skipped →
  newline ∉ line → skip_line (cr_config r) line = false →
  cr_iss r = IStream ((skipped ≫= λ l, l ++ [newline]) ++ line ++ (newline :: rest)) false →
  length skipped < fuel →
  next_loop fuel r =
    process_line line (set_stream (IStream rest false) line
      (set_line (Nat.iter (length skipped) (λ n, wrap 32 (n + 1)) (cr_line r)) r)).
Proof.
  induction skipped as [|l skipped IH]; intros fuel r Hs Hl Hk Hi Hf.
  - destruct fuel as [|fuel]; [simpl in Hf; lia|]. cbn [next_loop]. munfold_goal. csimpl in Hi.
    rewrite Hi, getline_newline by done. simpl. rewrite Hk. by destruct r.
  - destruct fuel as [|fuel]; [simpl in Hf; lia|]. cbn [next_loop]. munfold_goal. csimpl in Hi.
    rewrite <-!app_assoc in Hi. apply list.Forall_cons in Hs as [[Hn Hsk] Hs].
    rewrite Hi. cbn [app]. rewrite getline_newline by done. simpl. rewrite Hsk.
    rewrite IH; [|done..|simpl in Hf; lia]. simpl.
    pose proof (Nat.iter_succ_r (length skipped) (λ n, wrap 32 (n + 1)) (cr_line r)) as E.
    simpl in E. by rewrite E.
Qed.

(** [next] passes over the empty and comment lines in front of the next data
    line, takes that line off the stream, and makes its tokens the current row;
    it returns true, or throws when the number of fields is not the number of
    columns and the check is on, in which case the row is still the current one.
    The line counter grows by the skipped lines only.  At the end of the stream
    it returns false and there is no current row. *)
Theorem next_correct (r : csv_dict_reader) (skipped : list str) (line rest : str) (fields : list str) :
  Forall (λ l, newline ∉ l ∧ skip_line (cr_config r) l = true) skipped →
  newline ∉ line → skip_line (cr_config r) line = false →
  tokenize (cr_sep r) line = (fields, None) →
  (cr_iss r = IStream ((skipped ≫= λ l, l ++ [newline]) ++ line ++ (newline :: rest)) false →
   ∃ r', next r = (r', if mismatch r fields
      then Throw (NstlException "columns not in line with the number of fields (line: ")
      else Ok true) ∧
     row r' = Some fields ∧ cr_iss r' = IStream rest false ∧ header r' = header r ∧
     cr_line r' = Nat.iter (length skipped) (λ n, wrap 32 (n + 1)) (cr_line r)) ∧
  (cr_iss r = IStream [] false ∨ is_eof (cr_iss r) = true →
   ∃ r', next r = (r', Ok false) ∧ row r' = None ∧ header r' = header r).
Proof.
  intros Hs Hl Hk Ht. split.
  - intros Hi. unfold next. rewrite (next_loop_skip skipped line rest); try done.
    2: { rewrite Hi. simpl. rewrite length_app. apply Nat.lt_succ_r.
         transitivity (length (skipped ≫= λ l, l ++ [newline])); [|lia].
         clear. induction skipped as [|l skipped IH]; csimpl; [done|].
         rewrite !length_app; simpl. lia. }
    unfold process_line. munfold_goal. rewrite Ht. simpl. unfold mismatch.
    destruct (match cr_columns r with Some _ => _ | None => _ end);
      (eexists; split; [done|]; done).
  - intros Hi. unfold next. cbn [next_loop]. munfold_goal.
    assert (∃ iss, getline (cr_iss r) = (None, iss)) as [iss ->].
    { destruct Hi as [->|Hi]; [by eexists|]. unfold getline. rewrite Hi. by eexists. }
    eexists. split; [done|]. done.
Qed.

(** The header: with duplicated names the construction throws; otherwise
    [get_field] of the name of column [i] is the [i]-th field of the current row
    when the row has one, and any other name has no field. *)
Theorem header_correct (iss iss' : istream) (config : csv_parse_config) (line : str)
    (hdr fields : list str) :
  parse_headers config = true → getline iss = (Some line, iss') →
  tokenize (config_sep config) line = (hdr, None) →
  (¬ NoDup hdr → make_reader iss config = Throw (NstlException " column duplicated (")) ∧
  (NoDup hdr → ∃ r, make_reader iss config = Ok r ∧ row r = None ∧
     (∀ c, get_field r c = None) ∧
     (∀ i c, hdr !! i = Some c → get_field (set_values (Some fields) r) c = fields !! i) ∧
     (∀ c, c ∉ hdr → get_field (set_values (Some fields) r) c = None)).
Proof.
  intros Hp Hg Ht. unfold make_reader, parse_columns. rewrite Hp, Hg; simpl.
  change (Sep _ _ _) with (config_sep config). rewrite Ht. munfold_goal.
  rewrite columns_loop_spec by set_solver. rewrite (right_id_L ∅ _). split; intros Hn.
  - by rewrite decide_False.
  - rewrite decide_True by done. eexists. split; [done|]. split; [done|]. split; [done|].
    unfold get_field, get_field_in; simpl. split.
    + intros i c Hi.
      assert (header_map 0 hdr !! c = Some i) as ->.
      { unfold header_map. apply elem_of_list_to_map; [by rewrite fst_zip_seq|].
        apply list_elem_of_lookup. exists i. apply lookup_zip_Some. split; [done|].
        apply lookup_seq. split; [lia|]. by apply lookup_lt_Some in Hi. }
      destruct (Nat.leb_spec (length fields) i); [|done].
      symmetry. by apply lookup_ge_None.
    + intros c Hc. assert (header_map 0 hdr !! c = None) as ->; [|done].
      apply not_elem_of_list_to_map_1. by rewrite fst_zip_seq.
Qed.
End next.

(** ** Concrete instances *)

Lemma default_config_ok : config_ok default_config.
Proof. apply (bool_decide_eq_true_1 _). vm_compute. reflexivity. Qed.

Definition collect (t : str) : M (list str) () := mmodify (λ l, l ++ [t]).

Lemma write_row_parse_witness :
  ∃ s, write_row (OStream [] false) [lit "a,b"; []; lit "c"] default_config = OStream s false ∧
    newline ∉ s ∧
    tokenize (config_sep default_config) s = ([lit "a,b"; []; lit "c"], None) ∧
    parse_csv_line s (Some collect) (config_sep default_config) [] =
      line_loop collect [lit "a,b"; []; lit "c"] None 0 [].
Proof.
  apply (write_row_parse default_config default_config_ok collect [lit "a,b"; []; lit "c"] []). done.
Defined.

Lemma csv_write_read_witness :
  ∃ text r r', write_rows default_config [[lit "k"; lit "v"]; [lit "1"; lit "x\y"]] =
      OStream text false ∧
    make_reader (IStream text false) default_config = Ok r ∧
    read_data 2 r = (r', Ok [list_to_map [(lit "k", lit "1"); (lit "v", lit "x\y")]]) ∧
    cr_line r' = 1%Z.
Proof.
  apply (csv_write_read default_config default_config_ok [lit "k"; lit "v"] [[lit "1"; lit "x\y"]]).
  - done.
  - done.
  - apply (bool_decide_eq_true_1 _). vm_compute. reflexivity.
  - constructor; [|constructor]. split; [|done].
    split; [done|]. split; [done|]. right. by vm_compute.
Defined.

Definition sample_reader : csv_dict_reader :=
  Reader default_config (config_sep default_config)
    (IStream (lit "# x" ++ [newline] ++ lit "1,2" ++ [newline]) false) [] 1 None None.

Lemma next_correct_witness :
  ∃ r', next sample_reader = (r', Ok true) ∧ row r' = Some [lit "1"; lit "2"] ∧
    cr_iss r' = IStream [] false ∧ header r' = None ∧ cr_line r' = 2%Z.
Proof.
  apply (next_correct sample_reader [lit "# x"] (lit "1,2") [] [lit "1"; lit "2"]).
  - constructor; [|constructor]. split; [|done].
    apply (bool_decide_eq_true_1 _). vm_compute. reflexivity.
  - apply (bool_decide_eq_true_1 _). vm_compute. reflexivity.
  - reflexivity.
  - reflexivity.
  - reflexivity.
Defined.

Lemma header_correct_witness :
  make_reader (IStream (lit "a,b,a") false) default_config =
    Throw (NstlException " column duplicated (").
Proof.
  apply (header_correct (IStream (lit "a,b,a") false) (IStream [] true) default_config
           (lit "a,b,a") [lit "a"; lit "b"; lit "a"] []); try reflexivity.
  apply (bool_decide_eq_false_1 _). vm_compute. reflexivity.
Defined.

(** A row whose first field starts with the comment character is written as it is, and
    the reader passes over it as a comment. *)
Lemma comment_row_lost :
  (r ← make_reader (IStream (os_out (write_rows default_config [[lit "k"]; [lit "#1"]; [lit "2"]])) false) default_config;
   (read_data 2 r).2) = Ok [{[lit "k" := lit "2"]}].
Proof. vm_compute. reflexivity. Qed.
End Csv.
