(* ===== verification/Raii.v ===== *)
(** * Ownership helpers: handle_raii, scope_exit.hpp, unlock_guard.hpp, memory.hpp

    [Handle] models [custom_raii] over the interface its [Tools] parameter has,
    with the two instances of the source; a program is a sequence of operations
    on a store of objects, and the handles passed to [free] are recorded.
    [ScopeExit], [UnlockGuard] and [Observer] model the other three classes. *)

From S2P Require Import Prelude.

Module Handle.

(** The [Tools] parameter of [custom_raii]. *)
Class HandleTools (T : Type) `{EqDecision T} := {
  invalid_value : T;
  valid : T → bool;
  invalid_not_valid : valid invalid_value = false;
}.

(** [FileIntHandle], over the values of [int]. *)
Definition file_int_valid (hnd : Z) : bool := (0 <? hnd)%Z.
#[export] Instance FileIntHandle : HandleTools Z :=
  {| invalid_value := (-1)%Z; valid := file_int_valid; invalid_not_valid := eq_refl |}.

(** [WindowsHandle], over the values of a pointer. *)
Inductive win_handle := HANDLE (p : Z).
#[export] Instance win_handle_eq_dec : EqDecision win_handle.
Proof. solve_decision. Defined.
Definition windows_valid (hnd : win_handle) : bool :=
  bool_decide (hnd ≠ HANDLE (-1)) && bool_decide (hnd ≠ HANDLE 0).
#[export] Instance WindowsHandle : HandleTools win_handle :=
  {| invalid_value := HANDLE (-1); valid := windows_valid; invalid_not_valid := eq_refl |}.

Section handle.
Context {T : Type} `{HandleTools T}.

(** The live objects, and the handles that were passed to [free], in order. *)
Record sys := Sys { objs : gmap nat T; freed : list T }.

Definition get (i : nat) : M sys T := λ s,
  match objs s !! i with
  | Some h => (s, Ok h)
  | None => (s, Throw (UndefinedBehaviour "no such object"))
  end.
Definition put (i : nat) (h : T) : M sys () := mmodify (λ s, Sys (<[i := h]> (objs s)) (freed s)).
Definition tools_free (h : T) : M sys () := mmodify (λ s, Sys (objs s) (freed s ++ [h])).

(** ** Member functions *)

Definition custom_raii (i : nat) (h : T) : M sys () :=
  s ← mget;
  mthrow_if (bool_decide (is_Some (objs s !! i))) (UndefinedBehaviour "object exists");;
  put i h.

Definition reset (i : nat) (hndlr : T) : M sys () :=
  h ← get i;
  (if valid h then tools_free h;; put i invalid_value else mret ());;
  put i hndlr.

Definition destroy (i : nat) : M sys () :=
  reset i invalid_value;;
  mmodify (λ s, Sys (delete i (objs s)) (freed s)).

Definition exchange (i : nat) (new : T) : M sys T := h ← get i; put i new;; mret h.
Definition release (i : nat) : M sys T := exchange i invalid_value.

Definition swap (i j : nat) : M sys () :=
  a ← get i; b ← get j; put i b;; put j a.
Definition swap_value (i : nat) (other : T) : M sys T := exchange i other.

Definition move_construct (i j : nat) : M sys () :=
  s ← mget;
  mthrow_if (bool_decide (is_Some (objs s !! i))) (UndefinedBehaviour "object exists");;
  h ← exchange j invalid_value;
  put i h.

Definition move_assign (i j : nat) : M sys () :=
  if bool_decide (i ≠ j) then reset i invalid_value;; swap i j else mret ().

Definition to_bool (i : nat) : M sys bool := h ← get i; mret (valid h).
Definition to_handle (i : nat) : M sys T := get i.
Definition equals (i j : nat) : M sys bool := a ← get i; b ← get j; mret (bool_decide (a = b)).
(** The order of objects, and both comparisons with a handle on either side; [lt] is
    the order of the handle type. *)
Definition less (lt : T → T → bool) (i j : nat) : M sys bool := a ← get i; b ← get j; mret (lt a b).
Definition value_equals (h : T) (j : nat) : M sys bool := b ← get j; mret (bool_decide (h = b)).
Definition value_less (lt : T → T → bool) (h : T) (j : nat) : M sys bool := b ← get j; mret (lt h b).
Definition equals_value (i : nat) (h : T) : M sys bool := a ← get i; mret (bool_decide (a = h)).
Definition less_value (lt : T → T → bool) (i : nat) (h : T) : M sys bool := a ← get i; mret (lt a h).

(** When the handles are ordered, so are the objects, whichever overload compares
    them: of two objects one is less or they are equal, never both. *)
Lemma handle_comparisons lt i j a b s :
  (∀ x y, lt x y = true ∨ x = y ∨ lt y x = true) → (∀ x y, lt x y = true → x ≠ y ∧ lt y x = false) →
  objs s !! i = Some a → objs s !! j = Some b →
  ∃ l e g, less lt i j s = (s, Ok l) ∧ equals i j s = (s, Ok e) ∧ less lt j i s = (s, Ok g) ∧
    value_less lt a j s = (s, Ok l) ∧ less_value lt i b s = (s, Ok l) ∧
    value_equals a j s = (s, Ok e) ∧ equals_value i b s = (s, Ok e) ∧
    (l || e || g) = true ∧ (l && e) = false ∧ (l && g) = false ∧ (e && g) = false.
Proof.
  intros Ht Hs Hi Hj. exists (lt a b), (bool_decide (a = b)), (lt b a).
  unfold less, equals, value_less, less_value, value_equals, equals_value, get. munfold_goal. rewrite Hi, Hj. simpl.
  rewrite ?Hi, ?Hj. split_and!; try done.
  - destruct (Ht a b) as [->|[->| ->]]; [done|by rewrite bool_decide_true, orb_true_r|by rewrite orb_true_r].
  - destruct (lt a b) eqn:E; [|done]. apply bool_decide_eq_false. by apply (Hs a b).
  - destruct (lt a b) eqn:E; [|done]. by apply (Hs a b).
  - destruct (lt b a) eqn:E; [|by rewrite andb_false_r]. rewrite andb_true_r. apply bool_decide_eq_false.
    intros ->. by apply (Hs b b).
Qed.

(** ** Programs *)

Inductive op :=
| New (i : nat) (h : T)
| Reset (i : nat) (h : T)
| Release (i : nat)
| Swap (i j : nat)
| SwapValue (i : nat) (h : T)
| MoveNew (i j : nat)
| MoveAssign (i j : nat)
| Destroy (i : nat).

(** The handle an operation takes over from its caller. *)
Definition given (o : op) : list T :=
  match o with New _ h | Reset _ h | SwapValue _ h => [h] | _ => [] end.
(** One operation, and the handles it gives back to its caller. *)
Definition exec (o : op) : M sys (list T) :=
  match o with
  | New i h => custom_raii i h;; mret []
  | Reset i h => reset i h;; mret []
  | Release i => h ← release i; mret [h]
  | Swap i j => swap i j;; mret []
  | SwapValue i h => h' ← swap_value i h; mret [h']
  | MoveNew i j => move_construct i j;; mret []
  | MoveAssign i j => move_assign i j;; mret []
  | Destroy i => destroy i;; mret []
  end.
Fixpoint exec_all (ops : list op) : M sys (list T) :=
  match ops with
  | [] => mret []
  | o :: ops => out ← exec o; outs ← exec_all ops; mret (out ++ outs)
  end.

(** ** Conservation *)

Definition valids (hs : list T) : list T := filter (λ h, valid h = true) hs.
Definition held (m : gmap nat T) : list T := valids ((map_to_list m).*2).

Lemma valids_app a b : valids (a ++ b) = valids a ++ valids b.
Proof. apply list.filter_app. Qed.
Lemma valids_invalid : valids [invalid_value] = [].
Proof. unfold valids. rewrite filter_cons_False; [done|]. by rewrite invalid_not_valid. Qed.
Lemma valids_one h : valids [h] = if valid h then [h] else [].
Proof.
  unfold valids. destruct (valid h) eqn:E.
  - by rewrite filter_cons_True.
  - rewrite filter_cons_False; [done|]. by rewrite E.
Qed.
Lemma valids_perm a b : a ≡ₚ b → valids a ≡ₚ valids b.
Proof. unfold valids. by intros ->. Qed.

Lemma held_insert_new m i h : m !! i = None → held (<[i := h]> m) ≡ₚ valids [h] ++ held m.
Proof.
  intros Hi. unfold held. rewrite <-valids_app. apply valids_perm.
  by rewrite map_to_list_insert.
Qed.

(** The objects but one. *)
Lemma held_delete m i h : m !! i = Some h → held m ≡ₚ valids [h] ++ held (delete i m).
Proof.
  intros Hi. rewrite <-held_insert_new by apply lookup_delete_eq.
  by rewrite insert_delete_id.
Qed.
Lemma held_insert m i h : held (<[i := h]> m) ≡ₚ valids [h] ++ held (delete i m).
Proof.
  rewrite <-insert_delete_eq. apply held_insert_new, lookup_delete_eq.
Qed.

(** What is owned or was freed. *)
Definition total (s : sys) : list T := freed s ++ held (objs s).

Lemma get_spec i s :
  (∃ h, get i s = (s, Ok h) ∧ objs s !! i = Some h) ∨ (∃ e, get i s = (s, Throw e)).
Proof. unfold get. destruct (objs s !! i) as [h|]; eauto. Qed.

Lemma put_total s i h h' :
  objs s !! i = Some h →
  valids [h] ++ total (Sys (<[i := h']> (objs s)) (freed s)) ≡ₚ valids [h'] ++ total s.
Proof.
  intros Hi. unfold total; simpl. rewrite held_insert, (held_delete (objs s) i h) by done.
  solve_Permutation.
Qed.

Lemma exchange_total i h' s s' h :
  exchange i h' s = (s', Ok h) →
  objs s !! i = Some h ∧ s' = Sys (<[i := h']> (objs s)) (freed s) ∧
  valids [h] ++ total s' ≡ₚ valids [h'] ++ total s.
Proof.
  unfold exchange. munfold_goal. destruct (get_spec i s) as [(g & -> & Hi)|(e & ->)]; [|done].
  intros [= <- <-]. split; [done|]. split; [done|]. by apply put_total.
Qed.

Lemma reset_total i h' s s' :
  reset i h' s = (s', Ok ()) →
  (∃ h, objs s !! i = Some h) ∧ objs s' = <[i := h']> (objs s) ∧
  total s' ≡ₚ valids [h'] ++ total s.
Proof.
  unfold reset. munfold_goal. destruct (get_spec i s) as [(h & -> & Hi)|(e & ->)]; [|done].
  destruct (valid h) eqn:Hv; simpl; intros [= <-]; simpl.
  - split; [eauto|]. rewrite insert_insert_eq. split; [done|].
    unfold total; simpl. rewrite held_insert, (held_delete (objs s) i h) by done.
    rewrite (valids_one h), Hv. solve_Permutation.
  - split; [eauto|]. split; [done|]. rewrite <-(put_total s i h h') by done.
    by rewrite (valids_one h), Hv.
Qed.

Lemma swap_total i j s s' : swap i j s = (s', Ok ()) → total s' ≡ₚ total s.
Proof.
  unfold swap. munfold_goal. destruct (get_spec i s) as [(a & -> & Hi)|(e & ->)]; [|done].
  simpl. destruct (get_spec j s) as [(b & -> & Hj)|(e & ->)]; [|done]. intros [= <-].
  destruct (decide (i = j)) as [->|Hne].
  { simplify_eq. rewrite insert_insert_eq, insert_id by done. by destruct s. }
  pose proof (put_total s i a b Hi) as H1.
  pose proof (put_total (Sys (<[i := b]> (objs s)) (freed s)) j b a) as H2. simpl in H2.
  rewrite lookup_insert_ne in H2 by done. specialize (H2 Hj).
  apply (Permutation_app_inv_l (valids [a] ++ valids [b])).
  rewrite <-!app_assoc, H2, H1. solve_Permutation.
Qed.

(** Every operation conserves the handles: those it takes over are owned, freed
    or given back. *)
Lemma exec_total o s s' out :
  exec o s = (s', Ok out) → valids out ++ total s' ≡ₚ valids (given o) ++ total s.
Proof.
  destruct o as [i h|i h|i|i j|i h|i j|i j|i]; simpl; munfold_goal.
  - unfold custom_raii. munfold_goal. case_bool_decide as Hi; [done|]. intros [= <- <-].
    apply eq_None_not_Some in Hi. unfold total; simpl.
    rewrite held_insert_new by done. solve_Permutation.
  - destruct (reset i h s) as [s1 [[]|]] eqn:E; intros [= <- <-]. by apply reset_total in E as (_ & _ & E).
  - unfold release. destruct (exchange i invalid_value s) as [s1 [h|]] eqn:E; intros [= <- <-].
    apply exchange_total in E as (_ & _ & E). by rewrite valids_invalid in E.
  - destruct (swap i j s) as [s1 [[]|]] eqn:E; intros [= <- <-]. by apply swap_total in E.
  - unfold swap_value. destruct (exchange i h s) as [s1 [h'|]] eqn:E; intros [= <- <-].
    by apply exchange_total in E as (_ & _ & E).
  - unfold move_construct. munfold_goal. case_bool_decide as Hi; [done|].
    destruct (exchange j invalid_value s) as [s1 [h|]] eqn:E; intros [= <- <-].
    apply exchange_total in E as (Hj & -> & E). rewrite valids_invalid in E.
    apply eq_None_not_Some in Hi. unfold total in *; simpl in *.
    rewrite held_insert_new, <-E by (rewrite lookup_insert_ne by congruence; done).
    solve_Permutation.
  - unfold move_assign. case_bool_decide; munfold_goal; [|by intros [= <- <-]].
    destruct (reset i invalid_value s) as [s1 [[]|]] eqn:E; [|done].
    destruct (swap i j s1) as [s2 [[]|]] eqn:E2; intros [= <- <-].
    apply reset_total in E as (_ & _ & E). rewrite valids_invalid in E.
    apply swap_total in E2. by rewrite E2.
  - unfold destroy. munfold_goal.
    destruct (reset i invalid_value s) as [s1 [[]|]] eqn:E; intros [= <- <-].
    apply reset_total in E as (_ & Ho & E). rewrite valids_invalid in E. rewrite <-E; simpl.
    unfold total; simpl.
    assert (objs s1 !! i = Some invalid_value) as Hi by (rewrite Ho; apply lookup_insert_eq).
    by rewrite (held_delete (objs s1) i _ Hi), valids_invalid.
Qed.

Lemma exec_all_total ops s s' out :
  exec_all ops s = (s', Ok out) → valids out ++ total s' ≡ₚ valids (ops ≫= given) ++ total s.
Proof.
  revert s s' out. induction ops as [|o ops IH]; intros s s' out; csimpl; munfold_goal.
  { by intros [= <- <-]. }
  destruct (exec o s) as [s1 [o1|]] eqn:E1; [|done].
  destruct (exec_all ops s1) as [s2 [o2|]] eqn:E2; intros [= <- <-].
  apply exec_total in E1. apply IH in E2. rewrite !valids_app, <-!app_assoc.
  rewrite E2. rewrite (Permutation_app_comm (valids (ops ≫= given))), app_assoc, E1.
  solve_Permutation.
Qed.

(** C13: in every program over the handle owners, each valid handle handed to an
    object is at the end in exactly one place: freed, given back by [release] or
    [swap], or held by one live object; so distinct handles are never freed
    twice, none is freed while an object holds it, and when all objects are
    destroyed every handle that was not given back was freed exactly once. *)
Theorem handles_conserved (ops : list op) (s : sys) (out : list T) :
  exec_all ops (Sys ∅ []) = (s, Ok out) →
  valids (ops ≫= given) ≡ₚ valids out ++ freed s ++ held (objs s) ∧
  (NoDup (valids (ops ≫= given)) →
     NoDup (freed s) ∧ (∀ h, h ∈ freed s → h ∉ held (objs s) ∧ h ∉ valids out)) ∧
  (objs s = ∅ → valids (ops ≫= given) ≡ₚ valids out ++ freed s).
Proof.
  intros E%exec_all_total. unfold total in E at 2; simpl in E.
  change (held ∅) with (@nil T) in E. rewrite !app_nil_r in E.
  split; [done|]. split.
  - rewrite <-E. unfold total. intros (? & Hd & (Hf & Hd' & ?)%list.NoDup_app)%list.NoDup_app.
    split; [done|]. intros h Hh. split; [by apply Hd'|]. intros Ho. apply (Hd h Ho). set_solver.
  - intros He. rewrite <-E. unfold total. rewrite He.
    change (held ∅) with (@nil T). by rewrite app_nil_r.
Qed.
End handle.
Arguments sys : clear implicits.
Arguments op : clear implicits.

Definition sample_ops : list (op Z) :=
  [New 0 5%Z; New 1 6%Z; MoveAssign 0 1; Reset 1 7%Z; MoveNew 2 1; Release 2; Destroy 0; Destroy 1; Destroy 2].

Lemma handles_conserved_witness :
  valids (sample_ops ≫= given) ≡ₚ valids [7%Z] ++ [5; 6]%Z ++ held ∅ ∧
  (NoDup (valids (sample_ops ≫= given)) →
     NoDup [5; 6]%Z ∧ (∀ h, h ∈ [5; 6]%Z → h ∉ held ∅ ∧ h ∉ valids [7%Z])) ∧
  (∅ = (∅ : gmap nat Z) → valids (sample_ops ≫= given) ≡ₚ valids [7%Z] ++ [5; 6]%Z).
Proof. apply (handles_conserved sample_ops (Sys ∅ [5; 6]%Z) [7%Z]). vm_compute. reflexivity. Defined.

(** Descriptor 0 is taken for an invalid one: it is never closed. *)
Lemma file_descriptor_zero_kept :
  exec_all [New 0 0%Z; Destroy 0] (Sys ∅ []) = (Sys ∅ [], Ok []) ∧
  file_int_valid 0 = false ∧ ∀ h, (0 < h)%Z → exec_all [New 0 h; Destroy 0] (Sys ∅ []) = (Sys ∅ [h], Ok []).
Proof.
  split; [by vm_compute|]. split; [done|]. intros [|p|p] Hh; [lia| |lia].
  by vm_compute.
Qed.
End Handle.

(** ** scope_exit *)

Module ScopeExit.
Section scope_exit.
Context {S : Type}.

(** The guard is its functor; [None] is an empty [std::function]. *)
Definition scope_exit : Type := option (S → S).
Definition make (func : S → S) : scope_exit := Some func.
Definition reset (g : scope_exit) : scope_exit := None.
Definition swap (g : scope_exit) (func : option (S → S)) : scope_exit * option (S → S) := (func, g).
Definition empty (g : scope_exit) : bool := match g with None => true | Some _ => false end.
Definition destroy (g : scope_exit) (s : S) : S := match g with None => s | Some f => f s end.

(** A block that declares a guard: the guard is destroyed when the block is
    left, by a return or by an exception. *)
Definition on_scope_exit {A} (func : S → S) (body : M S A) : M S A := λ s,
  let '(s', r) := body s in (destroy (make func) s', r).

Lemma on_scope_exit_runs {A} func (body : M S A) s s' r :
  on_scope_exit func body s = (s', r) →
  ∃ s1, body s = (s1, r) ∧ s' = func s1.
Proof. unfold on_scope_exit. destruct (body s) as [s1 r1]. intros [= <- <-]. eauto. Qed.
End scope_exit.
End ScopeExit.

(** ** unlock_guard *)

Module UnlockGuard.

(** The mutexes the thread holds.  Unlocking one it does not hold, or locking
    one it holds, is undefined. *)
Definition locks : Type := gset nat.
Definition unlock (m : nat) : M locks () :=
  l ← mget;
  mthrow_if (bool_decide (m ∉ l)) (UndefinedBehaviour "unlock of a mutex that is not held");;
  mput (l ∖ {[m]}).
Definition lock (m : nat) : M locks () :=
  l ← mget;
  mthrow_if (bool_decide (m ∈ l)) (UndefinedBehaviour "lock of a mutex that is held");;
  mput (l ∪ {[m]}).

Fixpoint unlock_all (ms : list nat) : M locks () :=
  match ms with [] => mret () | m :: ms => unlock m;; unlock_all ms end.
(** [std::lock] acquires all of them. *)
Fixpoint lock_all (ms : list nat) : M locks () :=
  match ms with [] => mret () | m :: ms => lock m;; lock_all ms end.

(** The constructors and the destructor, for any number of mutexes. *)
Definition unlock_guard (ms : list nat) : M locks (list nat) := unlock_all ms;; mret ms.
Definition unlock_guard_defer (ms : list nat) : M locks (list nat) := mret ms.
Definition destroy (g : list nat) : M locks () := lock_all g.

(** The specialisations for one mutex and for none. *)
Definition unlock_guard_one (m : nat) : M locks nat := unlock m;; mret m.
Definition unlock_guard_one_defer (m : nat) : M locks nat := mret m.
Definition destroy_one (m : nat) : M locks () := lock m.
Definition unlock_guard_none : M locks () := mret ().
Definition destroy_none (g : ()) : M locks () := mret ().

(** They do what the primary template does for as many mutexes. *)
Lemma unlock_guard_specialised m l :
  unlock_guard [m] l = prod_map id (fmap (λ m, [m])) (unlock_guard_one m l) ∧
  unlock_guard_defer [m] l = prod_map id (fmap (λ m, [m])) (unlock_guard_one_defer m l) ∧
  destroy [m] l = destroy_one m l ∧
  unlock_guard [] l = prod_map id (fmap (λ _, [])) (unlock_guard_none l) ∧ destroy [] l = destroy_none () l.
Proof.
  unfold unlock_guard, unlock_guard_one, unlock_guard_defer, unlock_guard_one_defer, destroy, destroy_one. simpl.
  unfold unlock, lock. munfold_goal.
  split_and!; [by destruct (bool_decide (m ∉ l))|done|by destruct (bool_decide (m ∈ l))|done..].
Qed.

Lemma unlock_all_ok ms l :
  NoDup ms → list_to_set ms ⊆ l → unlock_all ms l = (l ∖ list_to_set ms, Ok ()).
Proof.
  revert l. induction ms as [|m ms IH]; intros l Hn Hs; csimpl; munfold_goal.
  { f_equal. set_solver. }
  apply list.NoDup_cons in Hn as [Hm Hn]. unfold unlock. munfold_goal.
  rewrite bool_decide_eq_false_2 by set_solver. rewrite IH; [|done|].
  - f_equal. set_solver.
  - intros x Hx. set_solver.
Qed.

Lemma lock_all_ok ms l :
  NoDup ms → (∀ m, m ∈ ms → m ∉ l) → lock_all ms l = (l ∪ list_to_set ms, Ok ()).
Proof.
  revert l. induction ms as [|m ms IH]; intros l Hn Hs; csimpl; munfold_goal.
  { f_equal. set_solver. }
  apply list.NoDup_cons in Hn as [Hm Hn]. unfold lock. munfold_goal.
  rewrite bool_decide_eq_false_2 by set_solver. rewrite IH; [|done|].
  - f_equal. set_solver.
  - intros x Hx. set_solver.
Qed.

(** Inside the scope of an [unlock_guard] the thread holds none of the
    guarded mutexes and still all the others; when the scope ends, however its
    body used the other mutexes, the guarded ones are held again. *)
Theorem unlock_guard_scope (ms : list nat) (l l' : locks) :
  NoDup ms → list_to_set ms ⊆ l → (∀ m, m ∈ ms → m ∉ l') →
  unlock_guard ms l = (l ∖ list_to_set ms, Ok ms) ∧
  destroy ms l' = (l' ∪ list_to_set ms, Ok ()) ∧
  (l' = l ∖ list_to_set ms → destroy ms l' = (l, Ok ())).
Proof.
  intros Hn Hs Hl. unfold unlock_guard, destroy. munfold_goal.
  rewrite unlock_all_ok, lock_all_ok by done. split; [done|]. split; [done|].
  intros ->. f_equal. apply set_eq. intros x. destruct (decide (x ∈ ms)); set_solver.
Qed.

Lemma unlock_guard_scope_witness :
  unlock_guard [1; 2] {[1; 2; 3]} = ({[1; 2; 3]} ∖ list_to_set [1; 2], Ok [1; 2]) ∧
  destroy [1; 2] {[3]} = ({[3]} ∪ list_to_set [1; 2], Ok ()) ∧
  ({[3]} = ({[1; 2; 3]} : locks) ∖ list_to_set [1; 2] → destroy [1; 2] {[3]} = ({[1; 2; 3]}, Ok ())).
Proof.
  apply (unlock_guard_scope [1; 2] {[1; 2; 3]} {[3]}).
  - apply (bool_decide_eq_true_1 _). vm_compute. reflexivity.
  - apply (bool_decide_eq_true_1 _). vm_compute. reflexivity.
  - set_solver.
Defined.
End UnlockGuard.

(** ** observer_ptr *)

Module Observer.

(** A pointer is null or an address. *)
Abbreviation pointer := (option Z).
Record observer_ptr := Obs { _ptr : pointer }.

Definition default_observer : observer_ptr := Obs None.
Definition make_observer (p : pointer) : observer_ptr := Obs p.
Definition get (o : observer_ptr) : pointer := _ptr o.
Definition deref (o : observer_ptr) : res Z :=
  match _ptr o with Some a => Ok a | None => Throw (UndefinedBehaviour "null pointer") end.
Definition to_bool (o : observer_ptr) : bool := bool_decide (_ptr o ≠ None).
Definition release (o : observer_ptr) : observer_ptr * pointer := (Obs None, _ptr o).
Definition reset (o : observer_ptr) (p : pointer) : observer_ptr := Obs p.
Definition swap (a b : observer_ptr) : observer_ptr * observer_ptr := (b, a).

(** The other constructors: from [nullptr], a pointer, an observer of a type whose
    pointers convert ([conv], which may move the address to a base object), a unique or
    a shared pointer, which keep their object. *)
Definition from_nullptr : observer_ptr := default_observer.
Definition from_pointer (p : pointer) : observer_ptr := Obs p.
Definition from_observer (conv : Z → Z) (other : observer_ptr) : observer_ptr := Obs (conv <$> get other).
Definition from_smart (other : pointer) : observer_ptr := Obs other.
Definition to_pointer (o : observer_ptr) : pointer := _ptr o.
(** [std::hash], over the hash of a pointer. *)
Definition hash (ptr_hash : pointer → Z) (p : observer_ptr) : Z := ptr_hash (get p).

(** [std::less] on pointers: a strict total order, here with null first. *)
Definition ptr_less (a b : pointer) : bool :=
  match a, b with
  | None, Some _ => true
  | Some x, Some y => (x <? y)%Z
  | _, None => false
  end.
Definition eq (a b : observer_ptr) : bool := bool_decide (get a = get b).
Definition ne (a b : observer_ptr) : bool := bool_decide (get a ≠ get b).
Definition eq_null (a : observer_ptr) : bool := negb (to_bool a).
Definition ne_null (a : observer_ptr) : bool := to_bool a.
Definition lt (a b : observer_ptr) : bool := ptr_less (get a) (get b).
Definition gt (a b : observer_ptr) : bool := lt b a.
Definition le (a b : observer_ptr) : bool := negb (lt b a).
Definition ge (a b : observer_ptr) : bool := negb (lt a b).

(** The six comparisons describe one total order, and those with [nullptr] are
    the comparisons with the default observer. *)
Lemma observer_order a b c :
  ne a b = negb (eq a b) ∧ (eq a b = true ↔ le a b = true ∧ ge a b = true) ∧
  le a b = (lt a b || eq a b) ∧ ge a b = le b a ∧ (le a b || le b a) = true ∧
  (lt a b = true → lt b c = true → lt a c = true) ∧ eq_null a = eq a default_observer ∧
  ne_null a = ne a default_observer.
Proof.
  destruct a as [[x|]], b as [[y|]], c as [[z|]];
    unfold ne, eq, le, ge, gt, lt, eq_null, ne_null, to_bool, default_observer, get; simpl;
    case_bool; simplify_eq/=; repeat split; intros; destruct_and?; try done; try congruence;
    repeat match goal with
    | H : Some ?u ≠ Some ?v |- _ => assert (u ≠ v) by congruence; clear H
    | H : ¬ (Some _ ≠ Some _) |- _ => apply dec_stable in H; simplify_eq
    end; try done; lia.
Qed.

(** Equal observers hash alike, and a conversion keeps null and equality. *)
Lemma observer_hash_eq ptr_hash conv a b :
  eq a b = true →
  hash ptr_hash a = hash ptr_hash b ∧ eq (from_observer conv a) (from_observer conv b) = true ∧
  to_bool (from_observer conv a) = to_bool b.
Proof.
  unfold eq, hash, from_observer, to_bool. destruct a as [a], b as [b]; simpl. intros ->%bool_decide_eq_true.
  split_and!; [done|by apply bool_decide_eq_true|]. by destruct b.
Qed.
End Observer.
