(* ===== verification/LockThreads.v ===== *)
(** * unlock_guard among threads: unlock_guard.hpp

    Threads that lock several mutexes at once and open scopes of [unlock_guard] over some
    of them.  [std::lock] waits only while it holds none of what it wants and gives back
    what it got when it meets a mutex that is taken; with one scope at a time no set of
    threads can block each other, with nested scopes two of them can. *)

From S2P Require Import Prelude.

Module LockThreads.

(** Where a thread is: outside; in [std::lock], for the first time or to end a scope, with
    the mutexes still wanted, the next one first, and those it got; in its body; in the
    constructor of a guard, with the mutexes still to unlock; giving up all mutexes. *)
Inductive phase :=
| Outside
| Locking (again : bool) (want got : list nat)
| Inside
| Unlocking (rest : list nat)
| Leaving (rest : list nat).

(** A thread with the mutexes it works under, the guards of its open scopes, the last
    one first, and a ghost: when it last had its mutexes. *)
Record thread := Thread { base : list nat; scopes : list (list nat); pc : phase; since : nat }.
Record state := State { threads : list thread; owner : gmap nat nat; clock : nat }.

(** The mutexes the body holds. *)
Definition body_holds (th : thread) : list nat := filter (λ m, m ∉ concat (scopes th)) (base th).

(** One turn of [std::lock] of the thread [i]: [None] when it blocks. *)
Definition std_lock_turn (i : nat) (want got : list nat) (o : gmap nat nat)
    : option (list nat * list nat * gmap nat nat) :=
  match want with
  | [] => Some ([], got, o)
  | m :: want =>
    match o !! m with
    | None => Some (want, got ++ [m], <[m := i]> o)
    | Some _ =>
      match got with
      | [] => None
      | _ => Some (m :: want ++ got, [], foldr delete o got)
      end
    end
  end.

#[local] Arguments std_lock_turn : simpl never.

(** What a thread does next: lock its mutexes, construct or destroy a guard, leave, or go
    on in the call it is in. *)
Inductive choice := Enter | Open (ms : list nat) | Close | Leave | Go.

(** The constructor [unlock_guard(locks...)] and its destructor. *)
Definition open_guard (ms : list nat) (th : thread) : thread :=
  Thread (base th) (ms :: scopes th) (Unlocking ms) (since th).
Definition close_guard (ms : list nat) (ss : list (list nat)) (th : thread) : thread :=
  Thread (base th) ss (Locking true ms []) (since th).

Section depth.
(** How many scopes a thread may have open. *)
Context (depth : nat).

Definition set_pc (p : phase) (th : thread) : thread := Thread (base th) (scopes th) p (since th).
Definition act (c : choice) (i : nat) (th : thread) (o : gmap nat nat) (now : nat)
    : option (thread * gmap nat nat * nat) :=
  match pc th, c with
  | Outside, Enter => Some (set_pc (Locking false (base th) []) th, o, now)
  | Locking again want got, Go =>
    match want with
    | [] => Some (Thread (base th) (scopes th) Inside now, o, S now)
    | _ => '(want, got, o) ← std_lock_turn i want got o; Some (set_pc (Locking again want got) th, o, now)
    end
  | Inside, Open ms =>
    if decide (NoDup ms ∧ ms ⊆ body_holds th ∧ length (scopes th) < depth)
    then Some (open_guard ms th, o, now) else None
  | Inside, Close => match scopes th with [] => None | ms :: ss => Some (close_guard ms ss th, o, now) end
  | Inside, Leave => match scopes th with [] => Some (set_pc (Leaving (base th)) th, o, now) | _ => None end
  | Unlocking rest, Go =>
    match rest with
    | [] => Some (set_pc Inside th, o, now)
    | m :: rest => Some (set_pc (Unlocking rest) th, delete m o, now)
    end
  | Leaving rest, Go =>
    match rest with
    | [] => Some (set_pc Outside th, o, now)
    | m :: rest => Some (set_pc (Leaving rest) th, delete m o, now)
    end
  | _, _ => None
  end.
Definition turn (i : nat) (c : choice) (s : state) : option state :=
  th ← threads s !! i;
  '(th, o, now) ← act c i th (owner s) (clock s);
  Some (State (<[i := th]> (threads s)) o now).

Definition initial (bases : list (list nat)) : state := State ((λ b, Thread b [] Outside 0) <$> bases) ∅ 1.
Definition step (s s' : state) : Prop := ∃ i c, turn i c s = Some s'.
Definition run (l : list (nat * choice)) (s : state) : option state :=
  foldl (λ s ic, s ≫= turn (fst ic) (snd ic)) (Some s) l.

(** ** Ownership *)

(** The mutexes a thread has. *)
Definition holds (th : thread) (m : nat) : Prop :=
  match pc th with
  | Outside => False
  | Locking _ want _ => m ∈ base th ∧ m ∉ concat (scopes th) ∧ m ∉ want
  | Inside => m ∈ base th ∧ m ∉ concat (scopes th)
  | Unlocking rest => m ∈ base th ∧ (m ∈ concat (scopes th) → m ∈ rest)
  | Leaving rest => m ∈ rest
  end.
Definition thread_ok (th : thread) : Prop :=
  NoDup (base th) ∧ NoDup (concat (scopes th)) ∧ concat (scopes th) ⊆ base th ∧
  match pc th with
  | Outside => scopes th = []
  | Locking again want got =>
    NoDup (want ++ got) ∧ want ++ got ⊆ base th ∧ (∀ m, m ∈ want ++ got → m ∉ concat (scopes th)) ∧
    (again = false → scopes th = [] ∧ base th ⊆ want ++ got)
  | Inside => True
  | Unlocking rest => NoDup rest ∧ rest ⊆ concat (scopes th)
  | Leaving rest => scopes th = [] ∧ NoDup rest ∧ rest ⊆ base th
  end.
Definition owners_ok (s : state) : Prop :=
  (∀ i th, threads s !! i = Some th → thread_ok th) ∧
  (∀ m i, owner s !! m = Some i ↔ ∃ th, threads s !! i = Some th ∧ holds th m).

(** What one act does to the mutexes: the thread's own follow its phase, nobody else's change. *)
Definition owns (i : nat) (o : gmap nat nat) (th : thread) : Prop := ∀ m, o !! m = Some i ↔ holds th m.
Definition others_same (i : nat) (o o' : gmap nat nat) : Prop :=
  ∀ m j, j ≠ i → o' !! m = Some j ↔ o !! m = Some j.

Lemma others_same_refl i o : others_same i o o.
Proof. by intros m j. Qed.

Lemma others_same_delete i o m : o !! m = Some i → others_same i o (delete m o).
Proof. intros Hm k j Hj. destruct (decide (k = m)) as [->|]; simplify_map_eq; naive_solver. Qed.

Lemma others_same_insert i o m : o !! m = None → others_same i o (<[m := i]> o).
Proof. intros Hm k j Hj. destruct (decide (k = m)) as [->|]; simplify_map_eq; naive_solver. Qed.

Lemma lookup_foldr_delete (o : gmap nat nat) l m :
  foldr delete o l !! m = if decide (m ∈ l) then None else o !! m.
Proof.
  induction l as [|k l IH]; simpl; [done|].
  destruct (decide (m = k)) as [->|Hne].
  - rewrite lookup_delete_eq, decide_True by set_solver. done.
  - rewrite lookup_delete_ne, IH by done. destruct (decide (m ∈ l)); [rewrite decide_True|rewrite decide_False]; set_solver.
Qed.

(** A turn of [std::lock] keeps the set of mutexes it is about. *)
Lemma std_lock_turn_ok i th again want got o want' got' o' :
  pc th = Locking again want got → thread_ok th → owns i o th →
  std_lock_turn i want got o = Some (want', got', o') →
  let th' := set_pc (Locking again want' got') th in
  want' ++ got' ≡ₚ want ++ got ∧ thread_ok th' ∧ owns i o' th' ∧ others_same i o o'.
Proof.
  intros Hpc (HN & HNs & Hs & Hok) Ho Ht. rewrite Hpc in Hok. unfold owns, holds in Ho. rewrite Hpc in Ho.
  assert (want' ++ got' ≡ₚ want ++ got ∧ owns i o' (set_pc (Locking again want' got') th) ∧ others_same i o o') as (HP & Ho' & Hx).
  { destruct Hok as (Hnd & Hsub & Hdis & _). unfold std_lock_turn in Ht. destruct want as [|m want]; [simplify_eq; by split_and!|].
    destruct (o !! m) as [k|] eqn:Hm.
    - destruct got as [|g got]; [done|]. set (gs := g :: got) in *. clearbody gs. simplify_eq.
      assert (∀ g, g ∈ gs → o !! g = Some i) as Hg.
      { intros x Hx. apply Ho. apply list.NoDup_app in Hnd as (_ & Hnd & _). split_and!; [apply Hsub|apply Hdis|]; set_solver. }
      split_and!; [by rewrite app_nil_r| |].
      + intros x. unfold holds; simpl. rewrite lookup_foldr_delete. destruct (decide (x ∈ gs)); [set_solver|].
        rewrite Ho. set_solver.
      + intros x j Hj. rewrite lookup_foldr_delete. destruct (decide (x ∈ gs)); [|done]. naive_solver.
    - simplify_eq. split_and!; [solve_Permutation| |by apply others_same_insert].
      intros x. unfold holds; simpl. apply list.NoDup_app in Hnd as (Hnd & Hd & _).
      destruct (decide (x = m)) as [->|Hne]; simplify_map_eq.
      + split; [intros _|done]. apply list.NoDup_cons in Hnd as [? _]. split_and!; [apply Hsub|apply Hdis|]; set_solver.
      + rewrite Ho. set_solver. }
  split_and!; [done| |done|done]. split_and!; [done..|]. simpl. by setoid_rewrite HP.
Qed.

(** Unlocking one mutex of the thread. *)
Lemma unlock_one i o m th th' :
  owns i o th → holds th m → (∀ k, holds th' k ↔ holds th k ∧ k ≠ m) →
  owns i (delete m o) th' ∧ others_same i o (delete m o).
Proof.
  intros Ho Hm Hk. split; [|by apply others_same_delete, Ho].
  intros k. rewrite Hk, <-(Ho k). destruct (decide (k = m)) as [->|]; simplify_map_eq; naive_solver.
Qed.

Lemma act_ok c i th o now th' o' now' :
  thread_ok th → owns i o th → act c i th o now = Some (th', o', now') →
  thread_ok th' ∧ owns i o' th' ∧ others_same i o o'.
Proof.
  intros Hth Ho Ha. pose proof Hth as (HN & HNs & Hs & Hok). unfold act in Ha.
  destruct (pc th) as [|again want got| |rest|rest] eqn:Hpc; destruct c as [|ms| | |]; try done; simpl in Ha.
  - (* Enter *) simplify_eq. split_and!; [|unfold owns, holds in *; rewrite Hpc in Ho; simpl; set_solver|done].
    split_and!; [done..|]; simpl; rewrite ?Hok, ?app_nil_r; set_solver.
  - (* std::lock *) destruct want as [|m want].
    + simplify_eq. split_and!; [by split_and!| |done]. unfold owns, holds in *; rewrite Hpc in Ho; simpl. set_solver.
    + destruct (std_lock_turn i (m :: want) got o) as [[[want' got'] o1]|] eqn:Ht; simplify_eq/=.
      eapply std_lock_turn_ok in Ht as (_ & ?); done.
  - (* Open *) case_decide as Hd; [|done]. simplify_eq. destruct Hd as (HNm & Hms & _).
    assert (∀ m, m ∈ ms → m ∈ base th ∧ m ∉ concat (scopes th)) as Hb.
    { intros m Hm%Hms. unfold body_holds in Hm. by apply list_elem_of_filter in Hm as [? ?]. }
    unfold owns, holds in *. rewrite Hpc in Ho. split_and!; [|simpl; set_solver|done].
    split_and!; simpl; try done; [apply list.NoDup_app|..]; set_solver.
  - (* Close *) destruct (scopes th) as [|ms ss] eqn:Hss; [done|]. simplify_eq. simpl in *.
    apply list.NoDup_app in HNs as (? & Hd & ?). unfold owns, holds in *. rewrite Hpc, Hss in Ho. simpl in Ho.
    split_and!; [|simpl; set_solver|done].
    split_and!; simpl; rewrite ?app_nil_r; try done; set_solver.
  - (* Leave *) destruct (scopes th) eqn:Hss; [|done]. simplify_eq.
    unfold owns, holds in *. rewrite Hpc, Hss in Ho. split_and!; [|simpl; set_solver|done].
    split_and!; simpl; rewrite ?Hss; try done; set_solver.
  - (* Unlocking *) destruct Hok as [HNr Hr]. destruct rest as [|m rest]; simplify_eq.
    + unfold owns, holds in *. rewrite Hpc in Ho. split_and!; [by split_and!|simpl; set_solver|done].
    + apply list.NoDup_cons in HNr as [? ?]. split; [split_and!; simpl; try done; set_solver|].
      eapply unlock_one; [done|unfold holds; rewrite Hpc; set_solver|]. intros k. unfold holds; simpl. rewrite Hpc. set_solver.
  - (* Leaving *) destruct Hok as (Hss & HNr & Hr). destruct rest as [|m rest]; simplify_eq.
    + unfold owns, holds in *. rewrite Hpc in Ho. split_and!; [by split_and!|simpl; set_solver|done].
    + apply list.NoDup_cons in HNr as [? ?]. split; [split_and!; simpl; try done; set_solver|].
      eapply unlock_one; [done|unfold holds; rewrite Hpc; set_solver|]. intros k. unfold holds; simpl. rewrite Hpc. set_solver.
Qed.

Lemma turn_inv i c s s' :
  turn i c s = Some s' → ∃ th th' o now, threads s !! i = Some th ∧
    act c i th (owner s) (clock s) = Some (th', o, now) ∧ s' = State (<[i := th']> (threads s)) o now.
Proof.
  unfold turn. intros (th & Hth & H)%bind_Some. apply bind_Some in H as ([[th' o] now] & Ha & Hs).
  simplify_eq. by exists th, th', o, now.
Qed.

Lemma initial_owners_ok bases : Forall NoDup bases → owners_ok (initial bases).
Proof.
  intros HN. rewrite list.Forall_forall in HN. split.
  - intros i th (b & -> & Hb)%list_lookup_fmap_Some. unfold thread_ok; simpl.
    split_and!; [by eapply HN, list_elem_of_lookup_2|constructor|set_solver|done].
  - intros m i. simpl. split; [by rewrite lookup_empty|].
    intros (th & (b & -> & Hb)%list_lookup_fmap_Some & []).
Qed.

Lemma owners_ok_owns s i th : owners_ok s → threads s !! i = Some th → owns i (owner s) th.
Proof. intros [_ Ho] Hi m. rewrite Ho. naive_solver. Qed.

Lemma turn_owners_ok i c s s' : owners_ok s → turn i c s = Some s' → owners_ok s'.
Proof.
  intros Hok (th & th' & o & now & Hi & Ha & ->)%turn_inv. pose proof Hok as [Hths Ho].
  apply act_ok in Ha as (Hth' & Ho' & Hx); [|by eauto|by apply owners_ok_owns].
  pose proof (lookup_lt_Some _ _ _ Hi). split; simpl.
  - intros j tj. destruct (decide (j = i)) as [->|]; [rewrite list_lookup_insert_eq by done|rewrite list_lookup_insert_ne by done]; naive_solver.
  - intros m j. destruct (decide (j = i)) as [->|].
    + rewrite list_lookup_insert_eq by done. rewrite (Ho' m). naive_solver.
    + rewrite list_lookup_insert_ne by done. etrans; [by apply Hx|apply Ho].
Qed.

(** No mutex has two holders. *)
Lemma owners_exclusive s i j th th' m :
  owners_ok s → threads s !! i = Some th → threads s !! j = Some th' → holds th m → holds th' m → i = j.
Proof.
  intros Hok Hi Hj H1%(owners_ok_owns _ _ _ Hok Hi) H2%(owners_ok_owns _ _ _ Hok Hj). by simplify_eq.
Qed.
End depth.

(** ** One scope at a time *)

(** The mutexes a thread has to lock again, and those it keeps meanwhile. *)
Definition target (th : thread) : list nat :=
  match pc th with
  | Locking true want got => want ++ got
  | Locking false _ _ => []
  | _ => concat (scopes th)
  end.
Definition stable (th : thread) (m : nat) : Prop :=
  match pc th with
  | Locking true want got => m ∈ base th ∧ m ∉ want ++ got
  | Inside | Unlocking _ => m ∈ base th ∧ m ∉ concat (scopes th)
  | _ => False
  end.
Definition one_scope (th : thread) : Prop :=
  length (scopes th) ≤ 1 ∧ match pc th with Locking _ _ _ => scopes th = [] | _ => True end.

(** A thread that waits for what another keeps had its own mutexes earlier. *)
Definition order_ok (s : state) : Prop :=
  (∀ i th, threads s !! i = Some th → one_scope th ∧ since th < clock s) ∧
  (∀ i j th th' m, i ≠ j → threads s !! i = Some th → threads s !! j = Some th' →
    m ∈ target th → stable th' m → since th < since th').

Lemma stable_holds th m : one_scope th → stable th m → holds th m.
Proof.
  unfold one_scope, stable, holds. intros [_ Hs].
  destruct (pc th) as [|[] want got| |rest|rest]; try done; try rewrite Hs; set_solver.
Qed.

Lemma act_order c i th o now th' o' now' :
  thread_ok th → owns i o th → one_scope th → act 1 c i th o now = Some (th', o', now') →
  one_scope th' ∧
  (now' = now ∧ since th' = since th ∧ (∀ m, stable th' m → stable th m) ∧
     (∀ m, m ∈ target th' → m ∈ target th ∨ holds th m)
   ∨ now' = S now ∧ since th' = now ∧ target th' = []).
Proof.
  intros Hth Ho [Hl Hs] Ha. pose proof Hth as (_ & _ & _ & Hok). unfold act in Ha.
  unfold one_scope, stable, target, holds.
  destruct (pc th) as [|again want got| |rest|rest] eqn:Hpc; destruct c as [|ms| | |]; try done; simpl in Ha.
  - simplify_eq/=. rewrite Hok. split; [split; [simpl; lia|done]|]. left. set_solver.
  - destruct want as [|m want]; [simplify_eq/=; rewrite Hs in *; auto|].
    destruct (std_lock_turn i (m :: want) got o) as [[[want' got'] o1]|] eqn:Ht; simplify_eq/=.
    eapply std_lock_turn_ok in Ht as (HP & _); [|done..].
    split; [done|]. left. destruct again; [|set_solver]. setoid_rewrite HP. set_solver.
  - case_decide as Hd; [|done]. simplify_eq/=. destruct Hd as (_ & Hms & Hlt).
    destruct (scopes th) eqn:Hss; simpl in *; [|lia]. rewrite app_nil_r. split; [split; [lia|done]|]. left.
    split_and!; [done..|set_solver|]. intros m Hm%Hms. unfold body_holds in Hm. apply list_elem_of_filter in Hm. rewrite Hss in Hm. set_solver.
  - destruct (scopes th) as [|ms [|]] eqn:Hss; [done| |simpl in *; lia]. simplify_eq/=.
    rewrite app_nil_r. split; [split; [lia|done]|]. left. set_solver.
  - destruct (scopes th) eqn:Hss; [|done]. simplify_eq/=. rewrite Hss. split; [split; [simpl; lia|done]|]. left. set_solver.
  - destruct rest as [|m rest]; simplify_eq/=; (split; [done|]); left; set_solver.
  - destruct rest as [|m rest]; simplify_eq/=; (split; [done|]); left; set_solver.
Qed.

Lemma turn_order_ok i c s s' : owners_ok s → order_ok s → turn 1 i c s = Some s' → order_ok s'.
Proof.
  intros Hok [Hone Hord] (th & th' & o & now & Hi & Ha & ->)%turn_inv.
  pose proof (lookup_lt_Some _ _ _ Hi). destruct (Hone _ _ Hi) as [H1 Hlt].
  apply act_order in Ha as [H1' Hc]; [|by eapply (proj1 Hok)|by apply owners_ok_owns|done].
  split; simpl.
  - intros j tj. destruct (decide (j = i)) as [->|]; [rewrite list_lookup_insert_eq by done|rewrite list_lookup_insert_ne by done].
    + intros [= <-]. split; [done|]. lia.
    + intros Hj%Hone. split; [by apply Hj|]. lia.
  - intros j k tj tk m Hjk. destruct (decide (j = i)) as [->|]; [|destruct (decide (k = i)) as [->|]];
      rewrite ?list_lookup_insert_eq, ?list_lookup_insert_ne by done.
    + intros [= <-] Hk Ht Hst. destruct Hc as [(-> & -> & _ & Htar)|(_ & _ & Htar)]; [|rewrite Htar in Ht; set_solver].
      apply Htar in Ht as [Ht|Hh]; [by eapply Hord|]. destruct Hjk.
      eapply owners_exclusive; [done..|]. eapply stable_holds; [|done]. by eapply Hone.
    + intros Hj [= <-] Ht Hst. destruct Hc as [(-> & -> & Hst' & _)|(_ & -> & _)]; [by eapply Hord, Hst'|by eapply Hone].
    + apply Hord. done.
Qed.

Lemma initial_order_ok bases : order_ok (initial bases).
Proof.
  split.
  - intros i th (b & -> & Hb)%list_lookup_fmap_Some. unfold one_scope; simpl. split; [split; [lia|done]|lia].
  - intros i j th th' m _ _ (b & -> & Hb)%list_lookup_fmap_Some _ [].
Qed.

Lemma reachable_guards_ok bases s :
  Forall NoDup bases → rtc (step 1) (initial bases) s → owners_ok s ∧ order_ok s.
Proof.
  intros HN. apply (rtc_ind_r (λ s, owners_ok s ∧ order_ok s)).
  - split; [by apply initial_owners_ok|apply initial_order_ok].
  - intros s1 s2 _ (i & c & Ht) [? ?]. split; [by eapply turn_owners_ok|by eapply turn_order_ok].
Qed.

(** ** Waiting *)

(** [std::lock] of the thread [i] waits for a mutex that the thread [j] owns. *)
Definition waits_for (s : state) (i j : nat) : Prop :=
  ∃ th again m want, threads s !! i = Some th ∧ pc th = Locking again (m :: want) [] ∧ owner s !! m = Some j.
(** A thread that can go on with what it has begun. *)
Definition enabled (d : nat) (s : state) (i : nat) : Prop :=
  ∃ th c s', threads s !! i = Some th ∧ pc th ≠ Outside ∧ turn d i c s = Some s'.

Lemma act_enabled d i th o now :
  pc th ≠ Outside → (∃ c r, act d c i th o now = Some r) ∨
    ∃ again m want j, pc th = Locking again (m :: want) [] ∧ o !! m = Some j.
Proof.
  intros Hp. destruct (pc th) as [|again [|m want] got| |rest|rest] eqn:Hpc; [done|..].
  - left. exists Go. eexists. unfold act. by rewrite Hpc.
  - destruct (o !! m) as [j|] eqn:Hm; [destruct got as [|g got]; [by right; eauto 10|]|];
      left; exists Go; unfold act; rewrite Hpc; unfold std_lock_turn; rewrite Hm; simpl; eauto.
  - left. destruct (scopes th) eqn:Hss; [exists Leave|exists Close]; eexists; unfold act; by rewrite Hpc, Hss.
  - left. exists Go. unfold act. rewrite Hpc. destruct rest; eauto.
  - left. exists Go. unfold act. rewrite Hpc. destruct rest; eauto.
Qed.

Lemma enabled_or_waits d s i th :
  threads s !! i = Some th → pc th ≠ Outside → enabled d s i ∨ ∃ j, waits_for s i j.
Proof.
  intros Hi Hp. destruct (act_enabled d i th (owner s) (clock s) Hp) as [(c & [[th' o] now] & Ha)|(again & m & want & j & Hpc & Hm)].
  - left. exists th, c. eexists. split_and!; [done..|]. unfold turn. rewrite Hi; simpl. by rewrite Ha.
  - right. exists j, th. eauto 10.
Qed.

(** Whoever is waited for can go on, or waits itself and had its mutexes later. *)
Lemma waits_later s i j :
  owners_ok s → order_ok s → waits_for s i j →
  ∃ tj, threads s !! j = Some tj ∧
    (enabled 1 s j ∨
     (∃ want got, pc tj = Locking true want got) ∧
     ∀ ti want got, threads s !! i = Some ti → pc ti = Locking true want got → since ti < since tj).
Proof.
  intros Hok [Hone Hord] (ti & again & m & want & Hi & Hpc & Hm).
  pose proof Hok as [Hths Ho]. apply Ho in Hm as (tj & Hj & Hh). exists tj. split; [done|].
  destruct (enabled_or_waits 1 s j tj) as [He|(k & tj' & again' & m' & want' & ? & Hpcj & _)];
    [done|by intros Hp; unfold holds in Hh; rewrite Hp in Hh|by left|right]. simplify_eq.
  pose proof (Hths _ _ Hj) as (_ & _ & _ & Hokj). rewrite Hpcj in Hokj. unfold holds in Hh. rewrite Hpcj in Hh.
  destruct Hokj as (_ & _ & _ & Hf), Hh as (Hb & _ & Hw).
  destruct again'; [|destruct (Hf eq_refl) as [_ Hf']; apply Hf' in Hb; by rewrite app_nil_r in Hb].
  split; [by eauto|]. clear Hone Hths Ho Hok.
  intros ti' want0 got0 ? Hpc'. simplify_eq. eapply (Hord i j _ _ m); [|done..| |].
  - intros ->. simplify_eq. rewrite Hpc in Hpcj. simplify_eq. apply Hw. left.
  - unfold target. rewrite Hpc in Hpc' |- *. simplify_eq. left.
  - unfold stable. rewrite Hpcj, app_nil_r. done.
Qed.

Lemma chain_ends s n i th want got :
  owners_ok s → order_ok s → threads s !! i = Some th → pc th = Locking true want got →
  clock s - since th ≤ n → ∃ j, rtc (waits_for s) i j ∧ enabled 1 s j.
Proof.
  intros Hok Hord. revert i th want got. induction n as [|n IH]; intros i th want got Hi Hpc Hn.
  { pose proof (proj1 Hord _ _ Hi) as [_ ?]. lia. }
  destruct (enabled_or_waits 1 s i th) as [He|[j Hw]]; [done|by rewrite Hpc|by exists i|].
  destruct (waits_later s i j) as (tj & Hj & [He|[(w & g & Hpcj) Hlt]]); [done..| |].
  { exists j. by split; [apply rtc_once|]. }
  specialize (Hlt _ _ _ Hi Hpc). destruct (IH j tj w g) as (k & Hk & He); [done|done|lia|].
  exists k. split; [by eapply rtc_l|done].
Qed.

(** C14: threads that lock their mutexes with [std::lock] and open at most one scope of
    [unlock_guard] at a time never dead-lock: in every state they reach, a thread in its
    body owns its mutexes less those of its open scope and no others, no mutex has two
    holders, and whoever waits, waits, directly or through others, for a thread
    that can go on. *)
Theorem guards_never_deadlock bases s i th :
  Forall NoDup bases → rtc (step 1) (initial bases) s → threads s !! i = Some th → pc th ≠ Outside →
  (pc th = Inside → ∀ m, owner s !! m = Some i ↔ m ∈ body_holds th) ∧
  (∀ j th' m, threads s !! j = Some th' → holds th m → holds th' m → i = j) ∧
  (∃ j, rtc (waits_for s) i j ∧ enabled 1 s j).
Proof.
  intros HN Hr Hi Hp. destruct (reachable_guards_ok _ _ HN Hr) as [Hok Hord]. split_and!.
  - intros Hpc m. rewrite (owners_ok_owns _ _ _ Hok Hi m). unfold holds, body_holds. rewrite Hpc, list_elem_of_filter. tauto.
  - intros j th' m Hj. by apply owners_exclusive with s.
  - destruct (enabled_or_waits 1 s i th) as [He|[j Hw]]; [done..|by exists i|].
    destruct (waits_later s i j) as (tj & Hj & [He|[(w & g & Hpcj) _]]); [done..| |].
    + exists j. by split; [apply rtc_once|].
    + destruct (chain_ends s (clock s - since tj) j tj w g) as (k & Hk & He); [done..|].
      exists k. split; [by eapply rtc_l|done].
Qed.

(** ** Examples *)

Lemma run_reaches d l s s' : run d l s = Some s' → rtc (step d) s s'.
Proof.
  unfold run. induction l as [|[i c] l IH] using rev_ind in s' |- *; simpl; [intros [= ->]; constructor|].
  rewrite foldl_app; simpl. destruct (foldl _ _ _) as [s1|]; [|done]; simpl. intros Ht.
  eapply rtc_r; [by apply IH|]. by exists i, c.
Qed.

(** Two threads over the mutexes 1 and 2, each with a scope over both; the second has its
    mutexes back, the first waits for it. *)
Definition two_scopes : list (nat * choice) :=
  [(0, Enter); (0, Go); (0, Go); (0, Go); (0, Open [1; 2]); (0, Go); (0, Go); (0, Go);
   (1, Enter); (1, Go); (1, Go); (1, Go); (0, Close)].
Definition two_scopes_end : state := default (State [] ∅ 0) (run 1 two_scopes (initial [[1; 2]; [2; 1]])).

Lemma guards_never_deadlock_witness :
  waits_for two_scopes_end 0 1 ∧ ∃ j, rtc (waits_for two_scopes_end) 0 j ∧ enabled 1 two_scopes_end j.
Proof.
  split; [eexists _, _, _, _; split_and!; by vm_compute|].
  eapply (guards_never_deadlock [[1; 2]; [2; 1]] two_scopes_end 0); [| |by vm_compute|by vm_compute].
  - repeat constructor; set_solver.
  - apply run_reaches with two_scopes. by vm_compute.
Defined.

(** With nested scopes two threads can wait for each other for ever: each has got back
    the mutex of its inner scope, which is the one the other's outer scope has to lock. *)
Definition nested_scopes : list (nat * choice) :=
  [(0, Enter); (0, Go); (0, Go); (0, Go); (0, Open [1]); (0, Go); (0, Go); (0, Open [2]); (0, Go); (0, Go);
   (1, Enter); (1, Go); (1, Go); (1, Go); (1, Open [2]); (1, Go); (1, Go); (1, Open [1]); (1, Go); (1, Go);
   (0, Close); (0, Go); (0, Go); (1, Close); (1, Go); (1, Go); (0, Close); (1, Close)].

Theorem nested_guards_deadlock :
  ∃ s, rtc (step 2) (initial [[1; 2]; [1; 2]]) s ∧ waits_for s 0 1 ∧ waits_for s 1 0 ∧ ∀ i c, turn 2 i c s = None.
Proof.
  eexists. split; [apply run_reaches with nested_scopes; by vm_compute|].
  split_and!; [eexists _, _, _, _; split_and!; by vm_compute..|].
  intros [|[|i]] c; [by destruct c..|done].
Qed.
End LockThreads.
