(* ===== verification/EnvVar.v ===== *)
(** * Scoped environment variables: env_var_raii.hpp, env_var_raii.cpp

    The environment is a map from names to values.  [setenv] and [unsetenv]
    follow POSIX: they refuse an empty name and a name with an equals sign, and
    [setenv] may run out of memory, which the parameter [enough] decides. *)

From S2P Require Import Prelude Strings.

Module EnvVar.

Abbreviation env := (gmap str str).

(** A C string: a null pointer is [None]. *)
Abbreviation cstr := (option str).

Section env.
Context (enough : str → str → bool).

Definition bad_name (name : str) : bool :=
  View.empty name || bool_decide ("="%char ∈ name).
Definition getenv (name : str) (e : env) : cstr := e !! name.
Definition setenv (name value : str) : M env bool := λ e,
  if bad_name name || negb (enough name value) then (e, Ok false)
  else (<[name := value]> e, Ok true).
Definition unsetenv (name : str) : M env bool := λ e,
  if bad_name name then (e, Ok false) else (delete name e, Ok true).

Definition loc_setenv (name value : str) : M env bool := setenv name value.
Definition loc_unsetenv (name : str) : M env bool := unsetenv name.

(** ** The class *)

Record env_var_raii := EnvVarRaii { _name : str; _prev : option str; _noop : bool }.

(** The constructor; [c_str()] ends at the first NUL. *)
Definition construct (name : str) (value : cstr) : M env env_var_raii :=
  mthrow_if (View.empty name) (NstlException "enivronment variable name cannot be nullptr");;
  prev ← mgets (getenv (cut_nul name));
  match value with
  | Some v =>
    ok ← loc_setenv (cut_nul name) (cut_nul v);
    mthrow_if (negb ok) (NstlException " enivronment variable cannot be set");;
    mret (EnvVarRaii name prev false)
  | None =>
    match prev with
    | Some _ =>
      ok ← loc_unsetenv (cut_nul name);
      mthrow_if (negb ok) (NstlException " cannot be removed");;
      mret (EnvVarRaii name prev false)
    | None => mret (EnvVarRaii name prev true)
    end
  end.

Definition destroy (v : env_var_raii) : M env () :=
  if _noop v then mret ()
  else
    match _prev v with
    | Some prev => loc_setenv (cut_nul (_name v)) (cut_nul prev);; mret ()
    | None => loc_unsetenv (cut_nul (_name v));; mret ()
    end.

(** [get_env_var]; an unset variable reads as an empty view. *)
Definition get_env_var (name : cstr) : M env str :=
  match name with
  | None => mthrow (NstlException "environment variable name cannot be nullptr")
  | Some name => e ← mget; mret (default [] (getenv name e))
  end.

(** A block that declares the variables in turn and runs [body]: what was built
    is destroyed in reverse order, also when a constructor throws. *)
Fixpoint with_vars (vars : list (str * cstr)) (body : env → env) : M env () := λ e,
  match vars with
  | [] => (body e, Ok ())
  | (name, value) :: vars =>
    match construct name value e with
    | (e', Throw x) => (e', Throw x)
    | (e', Ok v) =>
      let '(e'', r) := with_vars vars body e' in
      (fst (destroy v e''), r)
    end
  end.

(** An environment whose values are C strings and whose names are proper. *)
Definition env_ok (e : env) : Prop :=
  ∀ n v, e !! n = Some v → bad_name n = false ∧ cut_nul n = n ∧ cut_nul v = v.

(** Whether the constructor leaves the environment and the destructor alone. *)
Definition is_noop (name : str) (value : cstr) (e : env) : bool :=
  match value, e !! cut_nul name with None, None => true | _, _ => false end.

Lemma cut_nul_idem s : cut_nul (cut_nul s) = cut_nul s.
Proof. induction s as [|c s IH]; simpl; [done|]. case_decide; simpl; [done|]. by rewrite decide_False, IH. Qed.

(** The constructor, on every branch. *)
Lemma construct_spec name value e :
  env_ok e →
  match construct name value e with
  | (e', Throw _) => e' = e
  | (e', Ok v) => env_ok e' ∧ v = EnvVarRaii name (e !! cut_nul name) (is_noop name value e) ∧
      e' = match value with
           | Some x => <[cut_nul name := cut_nul x]> e
           | None => delete (cut_nul name) e
           end ∧ (is_noop name value e = false → bad_name (cut_nul name) = false)
  end.
Proof.
  intros He. unfold construct. munfold_goal. destruct (View.empty name); [done|]. unfold getenv.
  destruct value as [x|]; munfold_goal.
  - unfold loc_setenv, setenv. destruct (bad_name (cut_nul name)) eqn:Hb; simpl; [done|].
    destruct (enough _ _); simpl; [|done]. split_and!; [|done..].
    intros n v [[<- <-]|[_ Hn]]%lookup_insert_Some; [|by apply He].
    split_and!; [done|apply cut_nul_idem..].
  - destruct (e !! cut_nul name) eqn:Hn; munfold_goal.
    + unfold loc_unsetenv, unsetenv. destruct (bad_name (cut_nul name)) eqn:Hb; simpl; [done|].
      split_and!; [|unfold is_noop; by rewrite ?Hn|done..].
      intros n v [_ Hv]%lookup_delete_Some. by apply He.
    + split_and!; [done|unfold is_noop; by rewrite ?Hn|by rewrite delete_id|].
      unfold is_noop. by rewrite ?Hn.
Qed.

Lemma destroy_spec name value e e' :
  env_ok e → (∀ n v, enough n v = true) →
  (is_noop name value e = false → bad_name (cut_nul name) = false) →
  fst (destroy (EnvVarRaii name (e !! cut_nul name) (is_noop name value e)) e') =
  if is_noop name value e then e' else partial_alter (λ _, e !! cut_nul name) (cut_nul name) e'.
Proof.
  intros He Hm Hb. unfold destroy; simpl. destruct (is_noop name value e) eqn:Hn; [done|].
  specialize (Hb eq_refl). destruct (e !! cut_nul name) as [p|] eqn:Hp; munfold_goal.
  - unfold loc_setenv, setenv. rewrite Hb, Hm. simpl. destruct (He _ _ Hp) as (_ & _ & ->). done.
  - unfold loc_unsetenv, unsetenv. rewrite Hb. done.
Qed.

(** A variable of the list that its scope restores. *)
Fixpoint restored (vars : list (str * cstr)) (e : env) (n : str) : Prop :=
  match vars with
  | [] => False
  | (name, value) :: vars =>
    (cut_nul name = n ∧ is_noop name value e = false) ∨
    restored vars (fst (construct name value e)) n
  end.

(** The environment the body sees. *)
Fixpoint entered (vars : list (str * cstr)) (e : env) : env :=
  match vars with
  | [] => e
  | (name, value) :: vars => entered vars (fst (construct name value e))
  end.

(** C28: when a block with scoped variables ends, normally or by the exception of
    a constructor, every variable that one of its objects changed has the value,
    or the absence of one, that it had before the block, whatever the body did
    to it; every other variable is as the body left it. *)
Theorem with_vars_restores (vars : list (str * cstr)) (body : env → env) (e e' : env) (r : res ()) :
  env_ok e → (∀ n v, enough n v = true) →
  with_vars vars body e = (e', r) →
  (∃ x, r = Throw x ∧ e' = e) ∨
  (r = Ok () ∧ ∀ n, (restored vars e n → e' !! n = e !! n) ∧
     (¬ restored vars e n → e' !! n = body (entered vars e) !! n)).
Proof.
  intros He Hm. revert e e' r He. induction vars as [|[name value] vars IH]; intros e e' r He; simpl.
  { intros [= <- <-]. right. split; [done|]. intros n. by split. }
  pose proof (construct_spec name value e He) as Hc.
  destruct (construct name value e) as [e1 [v|x]] eqn:Ec; simpl in *.
  2: { intros [= <- <-]. left. eauto. }
  destruct Hc as (He1 & -> & Hv & Hb).
  destruct (with_vars vars body e1) as [e2 r2] eqn:Ew.
  rewrite (destroy_spec name value e e2 He Hm Hb). intros [= <- <-].
  specialize (IH _ _ _ He1 Ew). destruct (is_noop name value e) eqn:Hn.
  - assert (e1 = e) as ->.
    { rewrite Hv. unfold is_noop in Hn. destruct value; [done|].
      destruct (e !! cut_nul name) eqn:Hl; [done|]. by apply delete_id. }
    destruct IH as [(x & -> & ->)|[-> IH]]; [by left; eauto|right].
    split; [done|]. intros n. split.
    + intros [[_ ?]|Hr]; [done|]. by apply IH.
    + intros Hr. apply IH. tauto.
  - destruct IH as [(x & -> & ->)|[-> IH]].
    + left. exists x. split; [done|]. apply map_eq. intros n. rewrite Hv.
      destruct (decide (cut_nul name = n)) as [<-|Hne]; [by rewrite lookup_partial_alter_eq|].
      rewrite lookup_partial_alter_ne by done.
      destruct value; [by rewrite lookup_insert_ne|by rewrite lookup_delete_ne].
    + right. split; [done|]. intros n.
      destruct (decide (cut_nul name = n)) as [<-|Hne].
      { rewrite lookup_partial_alter_eq. split; [done|]. intros Hr. exfalso. apply Hr. by left. }
      rewrite lookup_partial_alter_ne by done. split.
      * intros [[? _]|Hr]; [done|]. rewrite (proj1 (IH n)) by done. rewrite Hv.
        destruct value; [by rewrite lookup_insert_ne|by rewrite lookup_delete_ne].
      * intros Hr. apply IH. tauto.
Qed.
End env.

Definition sample_env : env := {[lit "HOME" := lit "/root"]}.

Lemma with_vars_restores_witness :
  (∃ x, @Ok () () = Throw x ∧ sample_env = sample_env) ∨
  (@Ok () () = Ok () ∧ ∀ n,
     (restored (λ _ _, true) [(lit "HOME", None); (lit "X", Some (lit "1"))] sample_env n →
        sample_env !! n = sample_env !! n) ∧
     (¬ restored (λ _ _, true) [(lit "HOME", None); (lit "X", Some (lit "1"))] sample_env n →
        sample_env !! n = (<[lit "HOME" := lit "/"]> (entered (λ _ _, true)
          [(lit "HOME", None); (lit "X", Some (lit "1"))] sample_env)) !! n)).
Proof.
  apply (with_vars_restores (λ _ _, true) [(lit "HOME", None); (lit "X", Some (lit "1"))]
           (λ e, <[lit "HOME" := lit "/"]> e) sample_env sample_env (Ok ())).
  - intros n v. unfold sample_env. rewrite lookup_singleton_Some. intros [<- <-]. done.
  - done.
  - vm_compute. reflexivity.
Defined.
End EnvVar.
