(* ===== verification/TempDir.v ===== *)
(** * Temporary files and directories: temp_dir.hpp, temp_dir.cpp

    The file system is the set of its regular files, the set of its directories
    and the set of open descriptors; a file or directory has one spelling.  Which descriptor [open] picks, what the
    system refuses, and the random engine are parameters. *)

From S2P Require Import Prelude Strings Raii EnvVar.

Module TempDir.

Abbreviation path := (list ascii).

Record world := World { w_files : gset path; w_dirs : gset path; w_fds : gset Z }.

(** [std::filesystem::path::operator/] on POSIX. *)
Definition path_div (parent name : path) : path :=
  if View.starts_with name ["/"%char] then name
  else
    match list.last parent with
    | None => name
    | Some c => if decide (c = "/"%char) then parent ++ name else parent ++ ("/"%char :: name)
    end.

(** ** Names *)

Definition file_name_len : nat := 8.

Section names.
Context {engine : Type}.
Context (make_engine : Z → engine) (dist : engine → ascii * engine) (device : Z).

Definition get_seed (seed : option Z) : Z := default device seed.

Fixpoint name_loop (len : nat) (e : engine) (retval : path) : path * engine :=
  match len with
  | O => (retval, e)
  | S len => let '(c, e) := dist e in name_loop len e (retval ++ [c])
  end.

(** The engine is a thread-local variable: the first call of the thread makes
    it, also when that call throws. *)
Definition random_file_name (len : nat) (seed : option Z) : M (option engine) path :=
  o ← mget;
  let e := match o with Some e => e | None => make_engine (get_seed seed) end in
  mput (Some e);;
  mthrow_if (len =? 0)%nat (NstlException "0 name length doesn't make sense");;
  let '(retval, e') := name_loop len e [] in
  mput (Some e');;
  mret retval.

(** The name has the length asked for, from the letters the distribution draws;
    once the thread has an engine the seed is not used any more. *)
Lemma random_file_name_spec len seed o (Hd : ∀ e, (97 ≤ code (fst (dist e)) ≤ 122)%Z) :
  0 < len →
  ∃ name e', random_file_name len seed o = (Some e', Ok name) ∧ length name = len ∧
    Forall (λ c, 97 ≤ code c ≤ 122)%Z name ∧
    (∀ seed', o ≠ None → random_file_name len seed' o = (Some e', Ok name)).
Proof.
  intros Hl. unfold random_file_name. munfold_goal.
  destruct (Nat.eqb_spec len 0) as [->|_]; [lia|]. simpl.
  assert (∀ e r, Forall (λ c, 97 ≤ code c ≤ 122)%Z r →
    length (fst (name_loop len e r)) = length r + len ∧
    Forall (λ c, 97 ≤ code c ≤ 122)%Z (fst (name_loop len e r))) as Hloop.
  { clear Hl. induction len as [|len IH]; intros e r Hr; simpl; [split; [lia|done]|].
    pose proof (Hd e) as He. destruct (dist e) as [c e1]; simpl in *.
    destruct (IH e1 (r ++ [c])) as [H1 H2]; [apply Forall_app; auto|].
    rewrite H1, length_app. simpl. split; [lia|done]. }
  set (e := match o with Some e => e | None => _ end).
  destruct (Hloop e [] ltac:(constructor)) as [H1 H2].
  destruct (name_loop len e []) as [name e'] eqn:E. simpl in *.
  exists name, e'. split_and!; [done..|]. intros seed' Ho.
  destruct o as [e0|]; [|done]. subst e. by rewrite E.
Qed.
End names.

(** [temp_directory_path]: the variable [TMPDIR] when it is set and not empty,
    else the directory of the standard library. *)
Definition temp_directory_path (std_tmp : path) (e : EnvVar.env) : path :=
  match EnvVar.getenv (lit "TMPDIR") e with
  | Some (c :: p) => c :: p
  | _ => std_tmp
  end.

(** ** The system calls *)

Section fs.
Context (pick : gset Z → Z) (refuse : path → bool).

Definition exists_ (p : path) (w : world) : bool := bool_decide (p ∈ w_files w ∪ w_dirs w).

(** [open] with [O_CREAT | O_EXCL]. *)
Definition file_open (p : path) : M world Z := λ w,
  if exists_ p w || refuse p then (w, Ok (-1)%Z)
  else
    let fd := pick (w_fds w) in
    (World (w_files w ∪ {[p]}) (w_dirs w) (w_fds w ∪ {[fd]}), Ok fd).
Definition close (fd : Z) : M world () :=
  mmodify (λ w, World (w_files w) (w_dirs w) (w_fds w ∖ {[fd]})).
Definition remove (p : path) : M world () :=
  mmodify (λ w, World (w_files w ∖ {[p]}) (w_dirs w) (w_fds w)).

(** ** temp_file *)

Inductive Mode := Write | ReadWrite.
Record temp_file := TempFile { t_target : path; t_owned : bool; t_readable : bool; t_handler : Z }.

Definition temp_file_nullopt : temp_file := TempFile [] false false (-1).

(** The constructor on a directory and a name.  When it throws, only the members
    are destroyed: the descriptor is closed if it is valid. *)
Definition temp_file_make (parent name : path) (mode : Mode) : M world temp_file :=
  let target := path_div parent name in
  w ← mget;
  let owned := negb (exists_ target w) in
  fd ← file_open target;
  mthrow_if (negb (Handle.file_int_valid fd)) (NstlException " cannot be opened");;
  mret (TempFile target owned (match mode with ReadWrite => true | Write => false end) fd).
(** The other two constructors delegate to it. *)
Definition temp_file_named (tmp name : path) (mode : Mode) : M world temp_file :=
  temp_file_make tmp name mode.

Definition temp_file_destroy (f : temp_file) : M world () :=
  if Handle.file_int_valid (t_handler f) then
    close (t_handler f);;
    (if t_owned f then remove (t_target f) else mret ())
  else mret ().

(** The move constructor: the new object and what is left of the other. *)
Definition temp_file_move (other : temp_file) : temp_file * temp_file :=
  (TempFile (t_target other) (t_owned other) (t_readable other) (t_handler other),
   TempFile [] false false (-1)).

Definition temp_file_swap (a b : temp_file) : temp_file * temp_file :=
  (TempFile (t_target b) (t_owned b) (t_readable b) (t_handler b),
   TempFile (t_target a) (t_owned a) (t_readable a) (t_handler a)).

(** Move assignment between two objects: the swap, and the temporary that takes
    the old content and is destroyed. *)
Definition temp_file_assign (this other : temp_file) : M world (temp_file * temp_file) :=
  let '(this, other) := temp_file_swap this other in
  let '(tmp, other) := temp_file_swap temp_file_nullopt other in
  temp_file_destroy tmp;;
  mret (this, other).

Definition valid (f : temp_file) : bool := Handle.file_int_valid (t_handler f).
Definition is_readable (f : temp_file) : bool := t_readable f.

(** ** temp_dir *)

(** The directories on the way to a path. *)
Fixpoint prefixes (done_ rest : path) : list path :=
  match rest with
  | [] => []
  | c :: rest =>
    (if decide (c = "/"%char ∧ done_ ≠ []) then [done_] else []) ++ prefixes (done_ ++ [c]) rest
  end.

(** [fs::create_directories]: whether the last directory is new. *)
Definition create_directories (p : path) : M world bool := λ w,
  if bool_decide (p ∈ w_dirs w) then (w, Ok false)
  else if bool_decide (p = []) || refuse p || bool_decide (p ∈ w_files w) ||
          existsb (λ q, bool_decide (q ∈ w_files w)) (prefixes [] p)
  then (w, Throw (RuntimeError "filesystem_error"))
  else (World (w_files w) (w_dirs w ∪ list_to_set (prefixes [] p) ∪ {[p]}) (w_fds w), Ok true).

Definition under (p q : path) : bool :=
  bool_decide (q = p) || View.starts_with q (p ++ ["/"%char]).
(** [fs::remove_all] on a tree the process may delete. *)
Definition remove_all (p : path) : M world () :=
  mmodify (λ w, World (filter (λ q, under p q = false) (w_files w))
                      (filter (λ q, under p q = false) (w_dirs w)) (w_fds w)).

Record temp_dir := TempDirObj { d_target : path; d_owned : bool }.

Definition temp_dir_make (chmod_ok : bool) (parent name : path) : M world temp_dir :=
  let target := path_div parent name in
  owned ← create_directories target;
  mthrow_if (negb owned) (NstlException " cannot be created");;
  mthrow_if (negb chmod_ok) (NstlException "chmod 750 failed on ");;
  mret (TempDirObj target owned).
Definition temp_dir_destroy (d : temp_dir) : M world () :=
  if negb (d_owned d) then mret () else remove_all (d_target d).
Definition dir_path (d : temp_dir) : path := d_target d.
Definition dir_div (d : temp_dir) (right : path) : path := path_div (dir_path d) right.

(** ** Programs over temporary files *)

Record sys := Sys { objs : gmap nat temp_file; the_world : world }.

Inductive op :=
| Create (i : nat) (parent name : path) (mode : Mode)
| MoveNew (i j : nat)
| MoveAssign (i j : nat)
| SwapFiles (i j : nat)
| Destroy (i : nat).

(** A step; [None] when an object it names does not exist, or exists already.
    A constructor that throws makes no object. *)
Definition exec (o : op) (s : sys) : option sys :=
  match o with
  | Create i parent name mode =>
    match objs s !! i with
    | Some _ => None
    | None =>
      match temp_file_make parent name mode (the_world s) with
      | (w, Ok f) => Some (Sys (<[i := f]> (objs s)) w)
      | (w, Throw _) => Some (Sys (objs s) w)
      end
    end
  | MoveNew i j =>
    match objs s !! i, objs s !! j with
    | None, Some f =>
      let '(this, other) := temp_file_move f in
      Some (Sys (<[i := this]> (<[j := other]> (objs s))) (the_world s))
    | _, _ => None
    end
  | MoveAssign i j =>
    match objs s !! i, objs s !! j with
    | Some a, Some b =>
      if decide (i = j) then Some s
      else
        match temp_file_assign a b (the_world s) with
        | (w, Ok (a', b')) => Some (Sys (<[i := a']> (<[j := b']> (objs s))) w)
        | (w, Throw _) => None
        end
    | _, _ => None
    end
  | SwapFiles i j =>
    match objs s !! i, objs s !! j with
    | Some a, Some b =>
      let '(a', b') := temp_file_swap a b in
      Some (Sys (<[i := a']> (<[j := b']> (objs s))) (the_world s))
    | _, _ => None
    end
  | Destroy i =>
    match objs s !! i with
    | Some f =>
      let '(w, _) := temp_file_destroy f (the_world s) in
      Some (Sys (delete i (objs s)) w)
    | None => None
    end
  end.

Fixpoint exec_all (ops : list op) (s : sys) : option sys :=
  match ops with
  | [] => Some s
  | o :: ops => s' ← exec o s; exec_all ops s'
  end.
End fs.

(** ** The files and descriptors of the live objects *)

Definition entry (f : temp_file) : list (path * Z) :=
  if valid f then [(t_target f, t_handler f)] else [].
Definition live (m : gmap nat temp_file) : list (path * Z) := (map_to_list m).*2 ≫= entry.

Lemma live_insert_new m i f : m !! i = None → live (<[i := f]> m) ≡ₚ entry f ++ live m.
Proof. intros Hi. unfold live. by rewrite map_to_list_insert. Qed.

Lemma live_delete m i f : m !! i = Some f → live m ≡ₚ entry f ++ live (delete i m).
Proof.
  intros Hi. rewrite <-live_insert_new by apply lookup_delete_eq. by rewrite insert_delete_id.
Qed.

Lemma live_insert m i f : live (<[i := f]> m) ≡ₚ entry f ++ live (delete i m).
Proof. rewrite <-insert_delete_eq. apply live_insert_new, lookup_delete_eq. Qed.

(** Two objects of the store, updated. *)
Lemma live_insert_two m i j a b a' b' :
  i ≠ j → m !! i = Some a → m !! j = Some b →
  live (<[i := a']> (<[j := b']> m)) ≡ₚ entry a' ++ entry b' ++ live (delete i (delete j m)) ∧
  live m ≡ₚ entry a ++ entry b ++ live (delete i (delete j m)).
Proof.
  intros Hne Hi Hj. split.
  - rewrite live_insert, delete_insert_ne by done. by rewrite live_insert, delete_delete.
  - rewrite (live_delete m j b), (live_delete (delete j m) i a)
      by (rewrite ?lookup_delete_ne; done). solve_Permutation.
Qed.

(** The world is the initial one with the files and descriptors of [l] added. *)
Record world_ok (w0 w : world) (l : list (path * Z)) : Prop := {
  wo_paths : NoDup l.*1;
  wo_fds : NoDup l.*2;
  wo_new : ∀ x, x ∈ l → x.1 ∉ w_files w0 ∧ x.2 ∉ w_fds w0;
  wo_files : w_files w = w_files w0 ∪ list_to_set l.*1;
  wo_open : w_fds w = w_fds w0 ∪ list_to_set l.*2;
  wo_dirs : w_dirs w = w_dirs w0;
}.

#[export] Instance world_ok_proper w0 w : Proper ((≡ₚ) ==> iff) (world_ok w0 w).
Proof.
  assert (∀ l l', l ≡ₚ l' → world_ok w0 w l → world_ok w0 w l') as H.
  { intros l l' Hl [H1 H2 H3 H4 H5 H6]. split; try done.
    - by rewrite <-Hl.
    - by rewrite <-Hl.
    - intros x. rewrite <-Hl. apply H3.
    - rewrite H4. f_equal. apply set_eq. intros x. rewrite !elem_of_list_to_set. by rewrite Hl.
    - rewrite H5. f_equal. apply set_eq. intros x. rewrite !elem_of_list_to_set. by rewrite Hl. }
  intros l l' Hl. split; apply H; [done|by symmetry].
Qed.

Section properties.
Context (pick : gset Z → Z) (refuse : path → bool).
(** POSIX: [open] returns a descriptor that is not open and not negative. *)
Context (pick_fresh : ∀ fds, pick fds ∉ fds ∧ (0 ≤ pick fds)%Z).

Definition sys_ok (w0 : world) (s : sys) : Prop :=
  world_ok w0 (the_world s) (live (objs s)) ∧
  map_Forall (λ _ f, valid f = true → t_owned f = true) (objs s).

Lemma make_ok w0 w l parent name mode :
  0%Z ∈ w_fds w0 → world_ok w0 w l →
  match temp_file_make pick refuse parent name mode w with
  | (w', Ok f) => world_ok w0 w' (entry f ++ l) ∧ t_owned f = true ∧ valid f = true
  | (w', Throw _) => w' = w
  end.
Proof using pick_fresh.
  intros H0 Hw. unfold temp_file_make, file_open. munfold_goal.
  set (p := path_div parent name). destruct (exists_ p w || refuse p) eqn:E; [done|]. simpl.
  apply orb_false_iff in E as [E _]. destruct (pick_fresh (w_fds w)) as [Hp Hp0].
  unfold exists_ in *. apply bool_decide_eq_false in E. rewrite bool_decide_eq_false_2 by done.
  destruct Hw as [H1 H2 H3 H4 H5 H6].
  assert (pick (w_fds w) ≠ 0%Z) as Hne by (intros Hz; apply Hp; rewrite Hz, H5; set_solver).
  assert (Handle.file_int_valid (pick (w_fds w)) = true) as Hv by (apply Z.ltb_lt; lia).
  rewrite Hv. simpl. unfold entry, valid; simpl. rewrite Hv. split; [|done].
  split; simpl.
  - constructor; [|done]. rewrite H4 in E. set_solver.
  - constructor; [|done]. rewrite H5 in Hp. set_solver.
  - intros x [->|Hx]%elem_of_cons; [|by apply H3]. simpl.
    rewrite H4 in E. rewrite H5 in Hp. set_solver.
  - rewrite H4. set_solver.
  - rewrite H5. set_solver.
  - done.
Qed.

Lemma destroy_ok w0 w l f :
  world_ok w0 w (entry f ++ l) → (valid f = true → t_owned f = true) →
  ∃ w', temp_file_destroy f w = (w', Ok ()) ∧ world_ok w0 w' l.
Proof.
  unfold temp_file_destroy, entry, valid. intros Hw Ho.
  destruct (Handle.file_int_valid (t_handler f)) eqn:Hv; [|by exists w].
  rewrite Ho by done. munfold_goal. eexists. split; [done|].
  destruct Hw as [H1 H2 H3 H4 H5 H6]. simpl in *.
  apply list.NoDup_cons in H1 as [H1 H1'], H2 as [H2 H2'].
  pose proof (H3 _ (list_elem_of_here _ _)) as [Hn Hn'].
  split; simpl; try done.
  - intros x Hx. apply H3. set_solver.
  - rewrite H4. apply set_eq. set_solver.
  - rewrite H5. apply set_eq. set_solver.
Qed.

Lemma entry_copy f :
  entry (TempFile (t_target f) (t_owned f) (t_readable f) (t_handler f)) = entry f.
Proof. by destruct f. Qed.

Lemma temp_exec_ok w0 o s s' :
  0%Z ∈ w_fds w0 → sys_ok w0 s → exec pick refuse o s = Some s' → sys_ok w0 s'.
Proof using pick_fresh.
  intros H0 [Hw Ho]. destruct o as [i parent name mode|i j|i j|i j|i]; simpl.
  - destruct (objs s !! i) eqn:Hi; [done|].
    pose proof (make_ok _ _ _ parent name mode H0 Hw) as Hm.
    destruct (temp_file_make _ _ _ _ _ _) as [w [f|e]]; intros [= <-].
    + destruct Hm as (Hm & Hown & _). split; simpl; [by rewrite live_insert_new|].
      by apply map_Forall_insert_2.
    + subst w. by split.
  - destruct (objs s !! i) eqn:Hi; [done|]. destruct (objs s !! j) as [f|] eqn:Hj; [|done].
    intros [= <-]. split; simpl.
    + rewrite live_insert_new by (rewrite lookup_insert_ne by congruence; done).
      rewrite live_insert, entry_copy. simpl. by rewrite <-live_delete.
    + apply map_Forall_insert_2; [by apply (Ho j f)|]. by apply map_Forall_insert_2.
  - destruct (objs s !! i) as [a|] eqn:Hi; [|done]. destruct (objs s !! j) as [b|] eqn:Hj; [|done].
    case_decide as Hne; [by intros [= <-]|]. unfold temp_file_assign; simpl. munfold_goal.
    destruct (live_insert_two (objs s) i j a b b temp_file_nullopt Hne Hi Hj) as [E1 E2].
    rewrite E2 in Hw.
    destruct (destroy_ok w0 (the_world s) _ a Hw (Ho _ _ Hi)) as (w' & E & Hw').
    destruct a as [at_ ao ar ah], b as [bt bo br bh]; simpl in *. rewrite E. intros [= <-].
    split; simpl; [by rewrite E1|].
    apply map_Forall_insert_2; [by apply (Ho j _ Hj)|]. by apply map_Forall_insert_2.
  - destruct (objs s !! i) as [a|] eqn:Hi; [|done]. destruct (objs s !! j) as [b|] eqn:Hj; [|done].
    intros [= <-]. destruct (decide (i = j)) as [->|Hne].
    { simplify_eq. rewrite insert_insert_eq. destruct a as [at_ ao ar ah]; simpl.
      rewrite insert_id by done. by split. }
    destruct (live_insert_two (objs s) i j a b b a Hne Hi Hj) as [E1 E2].
    destruct a as [at_ ao ar ah], b as [bt bo br bh]; simpl in *. split; simpl.
    + rewrite E1, (Permutation_app_swap_app (entry _)), <-E2. done.
    + apply map_Forall_insert_2; [by apply (Ho j _ Hj)|].
      apply map_Forall_insert_2; [by apply (Ho i _ Hi)|done].
  - destruct (objs s !! i) as [f|] eqn:Hi; [|done].
    rewrite (live_delete _ _ _ Hi) in Hw.
    destruct (destroy_ok w0 (the_world s) _ f Hw (Ho _ _ Hi)) as (w' & -> & Hw').
    intros [= <-]. split; simpl; [done|]. by apply map_Forall_delete.
Qed.

Lemma program_ok w0 ops s :
  0%Z ∈ w_fds w0 → exec_all pick refuse ops (Sys ∅ w0) = Some s → sys_ok w0 s.
Proof using pick_fresh.
  intros H0 E. assert (sys_ok w0 (Sys ∅ w0)) as Hs.
  { split; [|apply map_Forall_empty]. change (live _) with (@nil (path * Z)).
    split; simpl; rewrite ?(right_id_L ∅ _); try done; try (by constructor).
    intros x Hx. by apply not_elem_of_nil in Hx. }
  revert E Hs. generalize (Sys ∅ w0). induction ops as [|o ops IH]; intros s1 E Hs; simpl in E.
  - by injection E as <-.
  - apply bind_Some in E as (s2 & E2 & E). eauto using temp_exec_ok.
Qed.

Lemma world_ok_nil w0 w : world_ok w0 w [] → w = w0.
Proof.
  intros [_ _ _ H4 H5 H6]. simpl in H4, H5. rewrite (right_id_L ∅ _) in H4. rewrite (right_id_L ∅ _) in H5.
  destruct w, w0; simpl in *. congruence.
Qed.

(** *** Directories *)

(** What lies below a path of the file system has the path in it. *)
Definition tree (w : world) : Prop :=
  ∀ p q, p ≠ [] → q ∈ w_files w ∪ w_dirs w → under p q = true → p ∈ w_files w ∪ w_dirs w.

Lemma under_longer p q : under p q = true → length p ≤ length q.
Proof.
  unfold under. rewrite orb_true_iff, bool_decide_eq_true. intros [->|H]; [done|].
  apply View.starts_with_spec in H as [r ->]. rewrite !length_app. lia.
Qed.
Lemma prefixes_shorter done_ rest q : q ∈ prefixes done_ rest → length q < length done_ + length rest.
Proof.
  revert done_. induction rest as [|c rest IH]; intros done_; simpl; [intros H; by apply not_elem_of_nil in H|].
  intros [Hq|Hq]%elem_of_app.
  - case_decide; [|by apply not_elem_of_nil in Hq]. apply list_elem_of_singleton in Hq as ->. lia.
  - specialize (IH (done_ ++ [c]) Hq). rewrite length_app in IH. simpl in IH. lia.
Qed.

(** The constructor makes a directory that was not there, and those on the way to it. *)
Lemma temp_dir_make_ok chmod_ok parent name w w' d :
  temp_dir_make refuse chmod_ok parent name w = (w', Ok d) →
  d = TempDirObj (path_div parent name) true ∧ d_target d ≠ [] ∧ d_target d ∉ w_files w ∪ w_dirs w ∧
  w' = World (w_files w) (w_dirs w ∪ list_to_set (prefixes [] (d_target d)) ∪ {[d_target d]}) (w_fds w).
Proof.
  unfold temp_dir_make, create_directories. munfold_goal. case_bool_decide as H1; [done|].
  destruct (bool_decide_reflect (path_div parent name = [])); simpl; [done|].
  destruct (refuse _); simpl; [done|]. case_bool_decide as H2; simpl; [done|]. destruct (existsb _ _); simpl; [done|].
  destruct chmod_ok; simpl; [|done]. intros [= <- <-]. simpl. split_and!; [done|done|set_solver|done].
Qed.

(** Destroying it removes what is below it and nothing else. *)
Lemma temp_dir_destroy_ok w0 w d l :
  tree w0 → d_owned d = true → d_target d ≠ [] → d_target d ∉ w_files w0 ∪ w_dirs w0 →
  w_files w = w_files w0 ∪ l → w_dirs w = w_dirs w0 ∪ list_to_set (prefixes [] (d_target d)) ∪ {[d_target d]} →
  temp_dir_destroy d w =
    (World (w_files w0 ∪ filter (λ q, under (d_target d) q = false) l)
       (w_dirs w0 ∪ list_to_set (prefixes [] (d_target d))) (w_fds w), Ok ()).
Proof.
  intros Ht Hd Hne Hnew Hf Hdirs. unfold temp_dir_destroy, remove_all. rewrite Hd. simpl. unfold mmodify. apply (f_equal2 pair); [|done].
  assert (Hout : ∀ q, q ∈ w_files w0 ∪ w_dirs w0 → under (d_target d) q = false).
  { intros q Hq. apply not_true_iff_false. intros Hu. apply Hnew. by eapply Ht. }
  f_equal; apply set_eq; intros q; rewrite elem_of_filter.
  - rewrite Hf. set_unfold. specialize (Hout q). naive_solver.
  - rewrite Hdirs. assert (Hp : q ∈ prefixes [] (d_target d) → under (d_target d) q = false).
    { intros Hq%prefixes_shorter. simpl in Hq. apply not_true_iff_false. intros Hu%under_longer. lia. }
    assert (under (d_target d) (d_target d) = true) by (unfold under; by rewrite bool_decide_eq_true_2).
    specialize (Hout q). rewrite !elem_of_union, elem_of_list_to_set, elem_of_singleton in *. split.
    + intros (Hu & [?| ->]); [done|congruence].
    + intros Hq. split; [|by left]. destruct Hq as [Hq|Hq]; auto.
Qed.

(** C12: whatever a program does with temporary files (creations that succeed or
    throw, moves, swaps, destructions), the file system holds the files it held
    before and one more for each object that owns one, and the open descriptors
    likewise; so when all objects are destroyed every file is removed and every
    descriptor closed.  When it does so in the scope of a temporary directory, the end
    of the scope removes the directory with all that is left in it, and the files from
    before and those elsewhere stay; of the directories only those made on the way to it
    stay.  Standard input must be open, since descriptor 0 is not taken for a valid one. *)
Theorem temp_files_cleaned (w0 : world) (ops : list op) (chmod_ok : bool) (parent name : path) :
  0%Z ∈ w_fds w0 →
  (∀ s, exec_all pick refuse ops (Sys ∅ w0) = Some s →
     world_ok w0 (the_world s) (live (objs s)) ∧ (objs s = ∅ → the_world s = w0)) ∧
  (∀ w1 d s, tree w0 → temp_dir_make refuse chmod_ok parent name w0 = (w1, Ok d) →
     exec_all pick refuse ops (Sys ∅ w1) = Some s →
     temp_dir_destroy d (the_world s) =
       (World (w_files w0 ∪ filter (λ q, under (d_target d) q = false) (list_to_set (live (objs s)).*1))
          (w_dirs w0 ∪ list_to_set (prefixes [] (d_target d)))
          (w_fds w0 ∪ list_to_set (live (objs s)).*2), Ok ())).
Proof using pick_fresh.
  intros H0. split.
  - intros s E. destruct (program_ok w0 ops s H0 E) as [Hw _]. split; [done|].
    intros He. rewrite He in Hw. by apply world_ok_nil.
  - intros w1 d s Ht Hmk E. apply temp_dir_make_ok in Hmk as (Hd & Hne & Hnew & ->).
    edestruct program_ok as [[_ _ _ Hf Ho Hdirs] _]; [|exact E|]; [exact H0|]. simpl in *.
    rewrite (temp_dir_destroy_ok w0 _ d (list_to_set (live (objs s)).*1)); [by rewrite Ho|done|by rewrite Hd|done..].
Qed.

(** ** The constructors that choose a name *)

Section defaults.
Context {engine : Type} (make_engine : Z → engine) (dist : engine → ascii * engine) (device : Z).
(** The temporary directory of the standard library and the environment. *)
Context (std_tmp : path) (environment : EnvVar.env).

(** The engine of the thread and the file system. *)
Definition thread_state : Type := option engine * world.
Definition with_engine {A} (m : M (option engine) A) : M thread_state A := λ s,
  let '(e, r) := m (fst s) in ((e, snd s), r).
Definition with_world {A} (m : M world A) : M thread_state A := λ s,
  let '(w, r) := m (snd s) in ((fst s, w), r).

Definition temp_dir_named (chmod_ok : bool) (name : path) : M world temp_dir :=
  temp_dir_make refuse chmod_ok (temp_directory_path std_tmp environment) name.
Definition temp_dir_default (chmod_ok : bool) (seed : option Z) : M thread_state temp_dir :=
  name ← with_engine (random_file_name make_engine dist device file_name_len seed);
  with_world (temp_dir_make refuse chmod_ok (temp_directory_path std_tmp environment) name).
Definition temp_file_default (seed : option Z) (mode : Mode) : M thread_state temp_file :=
  name ← with_engine (random_file_name make_engine dist device file_name_len seed);
  with_world (temp_file_make pick refuse (temp_directory_path std_tmp environment) name mode).
Definition file_path (f : temp_file) : path := t_target f.

(** A temporary file without a name gets eight letters below the temporary directory;
    the file did not exist before, or the constructor throws and changes no file, and when the object is
    destroyed the file system is the one from before. *)
Theorem temp_file_default_fresh (Hd : ∀ e, (97 ≤ code (fst (dist e)) ≤ 122)%Z) seed mode o w :
  0%Z ∈ w_fds w →
  match temp_file_default seed mode (o, w) with
  | ((_, w'), Ok f) =>
    (∃ name, file_path f = path_div (temp_directory_path std_tmp environment) name ∧ length name = 8 ∧
       Forall (λ c, 97 ≤ code c ≤ 122)%Z name) ∧
    exists_ (file_path f) w = false ∧ file_path f ∈ w_files w' ∧ temp_file_destroy f w' = (w, Ok ())
  | ((_, w'), Throw e) => w' = w ∧ e = NstlException " cannot be opened"
  end.
Proof using pick_fresh.
  intros H0. unfold temp_file_default, with_engine, with_world. munfold_goal.
  destruct (random_file_name_spec make_engine dist device file_name_len seed o Hd) as (name & e' & -> & Hn & Hl & _);
    [unfold file_name_len; lia|].
  unfold temp_file_make, file_open. munfold_goal. set (p := path_div _ name).
  destruct (exists_ p w || refuse p) eqn:E; simpl; [done|]. apply orb_false_iff in E as [E _].
  destruct (pick_fresh (w_fds w)) as [Hp Hp0].
  assert (pick (w_fds w) ≠ 0%Z) as Hne by (intros Hz; apply Hp; by rewrite Hz).
  assert (Handle.file_int_valid (pick (w_fds w)) = true) as Hv by (apply Z.ltb_lt; lia).
  rewrite Hv. simpl. split_and!; [by exists name|done|set_solver|].
  unfold temp_file_destroy. simpl. rewrite Hv, E. munfold_goal. f_equal. destruct w as [fs ds fds]. simpl in *.
  unfold exists_ in E. apply bool_decide_eq_false in E. simpl in E.
  rewrite add_remove by set_solver. unfold remove. munfold_goal. by rewrite add_remove by set_solver.
Qed.
End defaults.
End properties.

(** A descriptor above all the open ones. *)
Definition above (fds : gset Z) : Z := (set_fold Z.max 0 fds + 1)%Z.

Lemma above_fresh fds : above fds ∉ fds ∧ (0 ≤ above fds)%Z.
Proof.
  assert (∀ z, z ∈ fds → z ≤ set_fold Z.max 0 fds)%Z as H.
  { apply (set_fold_ind_L (λ m X, ∀ z, z ∈ X → z ≤ m)%Z); [set_solver|].
    intros x X m Hx IH z. rewrite elem_of_union, elem_of_singleton. intros [->|Hz]; [lia|].
    specialize (IH z Hz). lia. }
  assert (0 ≤ set_fold Z.max 0 fds)%Z as H0.
  { apply (set_fold_ind_L (λ m X, 0 ≤ m)%Z); [lia|]. intros. lia. }
  unfold above. split; [|lia]. intros Hin. apply H in Hin. lia.
Qed.

Definition sample_world : world := World {[lit "/etc/passwd"]} {[lit "/etc"; lit "/tmp"]} {[0%Z; 1%Z; 2%Z]}.
Definition sample_ops : list op :=
  [Create 0 (lit "/tmp") (lit "a") Write; Create 1 (lit "/tmp") (lit "a") Write;
   Create 2 (lit "/tmp") (lit "b") ReadWrite; MoveAssign 0 2; MoveNew 3 0;
   Destroy 0; Destroy 2; Destroy 3].

(** The paths above a path are its prefixes, so a file system can be tested. *)
Definition tree_test (w : world) : bool :=
  forallb (λ q, forallb (λ n, bool_decide (take n q = []) || negb (under (take n q) q) ||
                              bool_decide (take n q ∈ w_files w ∪ w_dirs w)) (seq 0 (S (length q))))
    (elements (w_files w ∪ w_dirs w)).
Lemma tree_test_tree w : tree_test w = true → tree w.
Proof.
  unfold tree_test. rewrite forallb_forall. intros H p q Hne Hq Hu. specialize (H q).
  rewrite <-list_elem_of_In, elem_of_elements in H. specialize (H Hq). rewrite forallb_forall in H.
  pose proof (under_longer _ _ Hu) as Hl. specialize (H (length p)). rewrite in_seq in H. specialize (H ltac:(lia)).
  assert (take (length p) q = p) as Ep.
  { unfold under in Hu. rewrite orb_true_iff, bool_decide_eq_true in Hu. destruct Hu as [->|Hu]; [by rewrite take_ge|].
    apply View.starts_with_spec in Hu as [r ->]. by rewrite <-(assoc_L (++)), take_app_length. }
  rewrite Ep, Hu in H. rewrite !orb_true_iff, !bool_decide_eq_true in H. naive_solver.
Qed.
Lemma sample_tree : tree sample_world.
Proof. apply tree_test_tree. by vm_compute. Qed.

Definition sample_dir_ops : list op :=
  [Create 0 (lit "/tmp/d") (lit "a") Write; Create 1 (lit "/tmp") (lit "b") Write; Destroy 1].
Lemma temp_files_cleaned_witness :
  (∃ s, exec_all above (λ _, false) sample_ops (Sys ∅ sample_world) = Some s ∧
    world_ok sample_world (the_world s) (live (objs s)) ∧ (objs s = ∅ → the_world s = sample_world)) ∧
  ∃ w1 d s, temp_dir_make (λ _, false) true (lit "/tmp") (lit "d") sample_world = (w1, Ok d) ∧
    exec_all above (λ _, false) sample_dir_ops (Sys ∅ w1) = Some s ∧
    w_dirs (temp_dir_destroy d (the_world s)).1 = w_dirs sample_world ∪ list_to_set (prefixes [] (d_target d)).
Proof.
  assert (0%Z ∈ w_fds sample_world) as H0 by (apply (bool_decide_eq_true_1 _); vm_compute; reflexivity).
  split.
  - eexists. split; [vm_compute; reflexivity|].
    apply (temp_files_cleaned above (λ _, false) above_fresh sample_world sample_ops true [] [] H0). vm_compute. reflexivity.
  - eexists _, _, _. split; [vm_compute; reflexivity|]. split; [vm_compute; reflexivity|].
    destruct (temp_files_cleaned above (λ _, false) above_fresh sample_world sample_dir_ops true (lit "/tmp") (lit "d") H0) as [_ H].
    erewrite H; [reflexivity|exact sample_tree|vm_compute; reflexivity|vm_compute; reflexivity].
Defined.

(** With standard input closed, a temporary file gets descriptor 0: the
    constructor throws, and the file and the descriptor are left behind. *)
Lemma temp_file_descriptor_zero :
  temp_file_make (λ _, 0%Z) (λ _, false) (lit "/tmp") (lit "x") Write (World ∅ ∅ ∅) =
    (World {[lit "/tmp/x"]} ∅ {[0%Z]}, Throw (NstlException " cannot be opened")).
Proof. by vm_compute. Qed.
End TempDir.
