(* ===== verification/DataHash.v ===== *)
(** * Hashes and Base64: datahash*.{hpp,cpp}, base64.hpp

    [Base64] models the two converters over the interface of the Boost
    iterators; [DataHash] models the hashers, over the interface of the digest
    library, and the hashing of files through a buffer. *)

From S2P Require Import Prelude Strings Raii.

(** ** base64.hpp *)

Module Base64.

(** What the code relies on of the iterators of Boost.Serialization: the
    alphabet has 64 characters, none of which is the padding; [transform_width]
    regroups the bits, most significant first, and fills the last group with
    zeros. *)
Class Base64Iterators := {
  b64_char : Z → ascii;
  b64_char_inj : ∀ v w, (0 ≤ v < 64)%Z → (0 ≤ w < 64)%Z → b64_char v = b64_char w → v = w;
  b64_char_pad : ∀ v, (0 ≤ v < 64)%Z → b64_char v ≠ "="%char;
  (** [base64_from_binary<transform_width<InItr, 6, 8>>] over a range. *)
  from_binary : bytes → str;
  from_binary_nil : from_binary [] = [];
  from_binary_1 : ∀ a, from_binary [a] = [b64_char (a / 4); b64_char (a `mod` 4 * 16)]%Z;
  from_binary_2 : ∀ a b, from_binary [a; b] =
    [b64_char (a / 4); b64_char (a `mod` 4 * 16 + b / 16); b64_char (b `mod` 16 * 4)]%Z;
  from_binary_3 : ∀ a b c rest, from_binary (a :: b :: c :: rest) =
    ([b64_char (a / 4); b64_char (a `mod` 4 * 16 + b / 16);
      b64_char (b `mod` 16 * 4 + c / 64); b64_char (c `mod` 64)]%Z) ++ from_binary rest;
  (** [transform_width<binary_from_base64<InItr>, 8, 6>] over a range. *)
  to_binary : str → res bytes;
  to_binary_nil : to_binary [] = Ok [];
  to_binary_2 : ∀ w x, (0 ≤ w < 64 → 0 ≤ x < 64 →
    to_binary [b64_char w; b64_char x] = Ok [w * 4 + x / 16])%Z;
  to_binary_3 : ∀ w x y, (0 ≤ w < 64 → 0 ≤ x < 64 → 0 ≤ y < 64 →
    to_binary [b64_char w; b64_char x; b64_char y] = Ok [w * 4 + x / 16; x `mod` 16 * 16 + y / 4])%Z;
  to_binary_4 : ∀ w x y z rest, (0 ≤ w < 64 → 0 ≤ x < 64 → 0 ≤ y < 64 → 0 ≤ z < 64 →
    to_binary (b64_char w :: b64_char x :: b64_char y :: b64_char z :: rest) =
    (app [w * 4 + x / 16; x `mod` 16 * 16 + y / 4; y `mod` 4 * 64 + z]) <$> to_binary rest)%Z;
}.

Section base64.
Context `{Base64Iterators}.

(** [to_base64] onto the output written so far. *)
Definition to_base64 (data : bytes) (out : str) : str :=
  match data with
  | [] => out
  | _ =>
    let size := Z.of_nat (length data) in
    out ++ from_binary data ++ replicate (Z.to_nat ((3 - size `mod` 3) `mod` 3)) "="%char
  end.

(** The loop that drops the padding. *)
Fixpoint strip_loop (fuel : nat) (s : str) : str :=
  match fuel with
  | O => s
  | S fuel =>
    match list.last s with
    | Some c => if decide (c = "="%char) then strip_loop fuel (take (length s - 1) s) else s
    | None => s
    end
  end.
Definition from_base64 (s : str) (out : bytes) : res bytes :=
  match s with
  | [] => Ok out
  | _ => app out <$> to_binary (strip_loop (length s) s)
  end.

Lemma strip_pad n s fuel :
  n ≤ fuel → list.last s ≠ Some "="%char → strip_loop fuel (s ++ replicate n "="%char) = s.
Proof.
  revert fuel. induction n as [|n IH]; intros fuel Hf Hs.
  - rewrite app_nil_r. destruct fuel; simpl; [done|]. destruct (list.last s) as [c|]; [|done].
    rewrite decide_False; [done|]. intros ->. done.
  - destruct fuel as [|fuel]; [lia|]. simpl.
    rewrite replicate_cons_app, app_assoc, last_snoc, decide_True by done.
    rewrite length_app; simpl. rewrite Nat.add_sub, take_app_length. apply IH; [lia|done].
Qed.

(** The bytes by groups of three. *)
Lemma bytes_ind3 (P : bytes → Prop) :
  P [] → (∀ a, P [a]) → (∀ a b, P [a; b]) →
  (∀ a b c rest, P rest → P (a :: b :: c :: rest)) → ∀ l, P l.
Proof.
  intros H0 H1 H2 H3 l.
  assert (P l ∧ (∀ a, P (a :: l)) ∧ (∀ a b, P (a :: b :: l))) as [? _]; [|done].
  induction l as [|x l (IH0 & IH1 & IH2)]; [by auto|]. split_and!; auto.
Qed.

Ltac sextets := unfold u8 in *; Z.div_mod_to_equations; lia.

Lemma from_binary_spec data :
  Forall u8 data →
  to_binary (from_binary data) = Ok data ∧ list.last (from_binary data) ≠ Some "="%char ∧
  Z.of_nat (length (from_binary data)) = ((4 * Z.of_nat (length data) + 2) / 3)%Z.
Proof.
  induction data as [|a|a b|a b c rest IH] using bytes_ind3; intros Hd.
  - rewrite from_binary_nil, to_binary_nil. done.
  - decompose_Forall_hyps. rewrite from_binary_1, to_binary_2 by sextets.
    split_and!; [f_equal; f_equal; sextets|simpl|done].
    intros [= E]. apply (b64_char_pad (a `mod` 4 * 16)%Z); [sextets|done].
  - decompose_Forall_hyps. rewrite from_binary_2, to_binary_3 by sextets.
    split_and!; [f_equal; f_equal; [sextets|f_equal; sextets]|simpl|done].
    intros [= E]. apply (b64_char_pad (b `mod` 16 * 4)%Z); [sextets|done].
  - decompose_Forall_hyps. destruct IH as (IH1 & IH2 & IH3); [done|].
    rewrite from_binary_3. cbn [app]. rewrite to_binary_4 by sextets. rewrite IH1. munfold_goal.
    split_and!.
    + f_equal. f_equal; [sextets|]. f_equal; [sextets|]. f_equal. sextets.
    + destruct (from_binary rest) eqn:E; [|done]. simpl. intros [= Ep].
      apply (b64_char_pad (c `mod` 64)%Z); [sextets|done].
    + simpl in *. sextets.
Qed.

(** C35: decoding what [to_base64] wrote gives the bytes back, and the text is
    padded to a multiple of four characters, four for every three bytes begun. *)
Theorem base64_roundtrip (data : bytes) :
  Forall u8 data →
  from_base64 (to_base64 data []) [] = Ok data ∧
  Z.of_nat (length (to_base64 data [])) = (4 * ((Z.of_nat (length data) + 2) / 3))%Z.
Proof.
  intros Hd. destruct (from_binary_spec data Hd) as (H1 & H2 & H3).
  destruct data as [|a data]; [done|]. set (l := a :: data) in *.
  set (n := Z.to_nat ((3 - Z.of_nat (length l) `mod` 3) `mod` 3)).
  change (to_base64 l []) with (from_binary l ++ replicate n "="%char).
  assert (0 < length (from_binary l)) as Hlen by (subst l; simpl in *; sextets).
  split.
  - unfold from_base64. destruct (from_binary l ++ replicate n "="%char) as [|c s] eqn:E.
    { apply app_eq_nil in E as [E _]. rewrite E in Hlen. simpl in Hlen. lia. }
    rewrite <-E, strip_pad; [|rewrite length_app, length_replicate; lia|done].
    rewrite H1. done.
  - rewrite length_app, length_replicate, Nat2Z.inj_add, H3. subst n. sextets.
Qed.
End base64.

(** The alphabet of RFC 4648 and the regrouping, as an instance. *)
Definition alphabet : str :=
  lit "ABCDEFGHIJKLMNOPQRSTUVWXYZabcdefghijklmnopqrstuvwxyz0123456789+/".
Definition rfc_char (v : Z) : ascii := default "="%char (alphabet !! Z.to_nat v).
Definition rfc_value (c : ascii) : option Z :=
  (λ x, Z.of_nat (fst x)) <$> list_find (λ d, d = c) alphabet.

Fixpoint rfc_from_binary (data : bytes) : str :=
  match data with
  | [] => []
  | [a] => [rfc_char (a / 4); rfc_char (a `mod` 4 * 16)]%Z
  | [a; b] => [rfc_char (a / 4); rfc_char (a `mod` 4 * 16 + b / 16); rfc_char (b `mod` 16 * 4)]%Z
  | a :: b :: c :: rest =>
    ([rfc_char (a / 4); rfc_char (a `mod` 4 * 16 + b / 16);
      rfc_char (b `mod` 16 * 4 + c / 64); rfc_char (c `mod` 64)]%Z) ++ rfc_from_binary rest
  end.
Fixpoint rfc_to_binary (s : str) : res bytes :=
  match s with
  | [] => Ok []
  | [_] => Throw (RuntimeError "dataflow_exception")
  | [w; x] =>
    match rfc_value w, rfc_value x with
    | Some w, Some x => Ok [w * 4 + x / 16]%Z
    | _, _ => Throw (RuntimeError "dataflow_exception")
    end
  | [w; x; y] =>
    match rfc_value w, rfc_value x, rfc_value y with
    | Some w, Some x, Some y => Ok [w * 4 + x / 16; x `mod` 16 * 16 + y / 4]%Z
    | _, _, _ => Throw (RuntimeError "dataflow_exception")
    end
  | w :: x :: y :: z :: rest =>
    match rfc_value w, rfc_value x, rfc_value y, rfc_value z with
    | Some w, Some x, Some y, Some z =>
      app ([w * 4 + x / 16; x `mod` 16 * 16 + y / 4; y `mod` 4 * 64 + z]%Z) <$> rfc_to_binary rest
    | _, _, _, _ => Throw (RuntimeError "dataflow_exception")
    end
  end.

Lemma rfc_char_ok v :
  (0 ≤ v < 64)%Z → rfc_value (rfc_char v) = Some v ∧ rfc_char v ≠ "="%char.
Proof.
  intros Hv.
  assert (forallb (λ v, bool_decide (rfc_value (rfc_char v) = Some v) &&
                        bool_decide (rfc_char v ≠ "="%char)) (Z.of_nat <$> seq 0 64) = true) as H
    by (by vm_compute).
  rewrite forallb_forall in H. specialize (H v).
  rewrite andb_true_iff, !bool_decide_eq_true in H. apply H, list_elem_of_In, list_elem_of_fmap.
  exists (Z.to_nat v). split; [lia|]. apply elem_of_seq. lia.
Qed.

Lemma rfc_value_char v : (0 ≤ v < 64)%Z → rfc_value (rfc_char v) = Some v.
Proof. apply rfc_char_ok. Qed.

#[export] Instance rfc4648 : Base64Iterators.
Proof.
  refine {| b64_char := rfc_char; from_binary := rfc_from_binary; to_binary := rfc_to_binary |};
    try done.
  - intros v w Hv Hw E. apply (f_equal rfc_value) in E.
    rewrite !rfc_value_char in E by done. congruence.
  - intros v Hv. by apply rfc_char_ok.
  - intros w x Hw Hx. simpl. by rewrite !rfc_value_char by done.
  - intros w x y Hw Hx Hy. simpl. by rewrite !rfc_value_char by done.
  - intros w x y z rest Hw Hx Hy Hz. simpl. by rewrite !rfc_value_char by done.
Defined.

Example base64_text : to_base64 [72; 105; 33; 0]%Z [] = lit "SGkhAA==".
Proof. by vm_compute. Qed.

Lemma base64_roundtrip_witness :
  from_base64 (to_base64 [72; 105; 33; 0]%Z []) [] = Ok [72; 105; 33; 0]%Z ∧
  Z.of_nat (length (to_base64 [72; 105; 33; 0]%Z [])) = 8%Z.
Proof.
  apply (base64_roundtrip [72; 105; 33; 0]%Z).
  apply (bool_decide_eq_true_1 _). vm_compute. reflexivity.
Defined.
End Base64.

(** ** datahash.hpp, datahash.cpp *)

Module DataHash.

(** [HashType]; the enumeration's underlying type has other values too. *)
Inductive HashType := MD5 | SHA1 | SHA256 | SHA512 | OtherHash (v : Z).
#[export] Instance HashType_eq_dec : EqDecision HashType.
Proof. solve_decision. Defined.
Definition hash_default : HashType := SHA256.
Definition hash_size (t : HashType) : Z :=
  match t with MD5 => 16 | SHA1 => 20 | SHA256 => 32 | SHA512 => 64 | OtherHash v => v end.
Definition known (t : HashType) : bool :=
  match t with OtherHash _ => false | _ => true end.

(** [HashValue]: the variant over the four arrays. *)
Inductive HashValue := HashMd5 (b : bytes) | HashSha1 (b : bytes) | HashSha256 (b : bytes) | HashSha512 (b : bytes).
Definition hash_bytes (h : HashValue) : bytes :=
  match h with HashMd5 b | HashSha1 b | HashSha256 b | HashSha512 b => b end.

Definition get_hash_type (h : HashValue) : HashType :=
  match h with HashMd5 _ => MD5 | HashSha1 _ => SHA1 | HashSha256 _ => SHA256 | HashSha512 _ => SHA512 end.
Definition get_hash_type_span (hash : bytes) : option HashType :=
  let n := Z.of_nat (length hash) in
  if (n =? 16)%Z then Some MD5
  else if (n =? 20)%Z then Some SHA1
  else if (n =? 32)%Z then Some SHA256
  else if (n =? 64)%Z then Some SHA512
  else None.

Definition parseHashType (name : str) : res (option HashType) :=
  if View.empty name then Ok None
  else if bool_decide (name = lit "MD5") then Ok (Some MD5)
  else if bool_decide (name = lit "SHA") || bool_decide (name = lit "SHA1") then Ok (Some SHA1)
  else if bool_decide (name = lit "SHA256") then Ok (Some SHA256)
  else if bool_decide (name = lit "SHA512") then Ok (Some SHA512)
  else if bool_decide (name = lit "Default") then Ok (Some hash_default)
  else Throw (NstlException " is unknown hash type").

(** ** The abstract class [Hasher] *)

Class Hasher := {
  hasher : Type;
  factory : HashType → res hasher;
  h_reset : hasher → res hasher;
  h_add : hasher → bytes → res hasher;
  h_finish : hasher → res HashValue;
}.

(** What the class promises: [absorbed h t m] says that [h] computes the digest
    of type [t] and was given the bytes [m]. *)
Class HasherLaws (H : Hasher) (digest : HashType → bytes → HashValue) := {
  absorbed : hasher → HashType → bytes → Prop;
  factory_ok : ∀ t, known t = true → ∃ h, factory t = Ok h ∧ absorbed h t [];
  factory_unknown : ∀ t, known t = false → ∃ e, factory t = Throw e;
  add_ok : ∀ h t m a, absorbed h t m → (Z.of_nat (length a) < 2 ^ 32)%Z →
    ∃ h', h_add h a = Ok h' ∧ absorbed h' t (m ++ a);
  finish_ok : ∀ h t m, absorbed h t m → h_finish h = Ok (digest t m);
  reset_ok : ∀ h t m, absorbed h t m → ∃ h', h_reset h = Ok h' ∧ absorbed h' t [];
}.

Section hasher.
Context `{Hasher}.

(** [add] of a C string. *)
Definition add_cstr (h : hasher) (data : option bytes) : res hasher :=
  match data with
  | None | Some [] => Ok h
  | Some d => h_add h d
  end.

(** ** Hashing a file *)

(** The descriptors this call has open, the bytes left in the file, and how
    many reads were made. *)
Record fstate := FState { fs_open : nat; fs_rest : bytes; fs_step : nat }.

Context (files : gmap str bytes).
(** How many bytes the [n]-th read delivers at most, and whether it fails. *)
Context (short : nat → Z) (io_error : nat → bool).
(** Whether a buffer of that size can be allocated. *)
Context (mem_ok : Z → bool).

Definition to_int (z : Z) : Z := ((z + 2 ^ 31) `mod` 2 ^ 32 - 2 ^ 31)%Z.

Definition file_open (path : str) : M fstate Z := λ s,
  match files !! path with
  | Some content => (FState (S (fs_open s)) content (fs_step s), Ok 3%Z)
  | None => (s, Ok (-1)%Z)
  end.
Definition close (s : fstate) : fstate := FState (pred (fs_open s)) (fs_rest s) (fs_step s).

(** [read]: the number of bytes as an [int], and the bytes. *)
Definition read (count : Z) : M fstate (Z * bytes) := λ s,
  let next := S (fs_step s) in
  if io_error (fs_step s) then (FState (fs_open s) (fs_rest s) next, Ok ((-1)%Z, []))
  else
    let n := Z.min count (Z.of_nat (length (fs_rest s))) in
    let k := if (n =? 0)%Z then 0%Z else Z.max 1 (Z.min (short (fs_step s)) n) in
    (FState (fs_open s) (drop (Z.to_nat k) (fs_rest s)) next,
     Ok (to_int k, take (Z.to_nat k) (fs_rest s))).

(** The loop: every turn but the last takes at least one byte off the file. *)
Fixpoint read_loop (fuel : nat) (buffersize : Z) (h : hasher) : M fstate hasher :=
  match fuel with
  | O => mthrow (UndefinedBehaviour "read_loop: out of fuel")
  | S fuel =>
    '(read_bytes, data) ← read buffersize;
    if (0 <? read_bytes)%Z then
      match h_add h (take (Z.to_nat read_bytes) data) with
      | Ok h => read_loop fuel buffersize h
      | Throw e => mthrow e
      end
    else
      mthrow_if (read_bytes <? 0)%Z (NstlException "Error while reading file: ");;
      mret h
  end.

Definition hash_file_impl (path : str) (type : HashType) (buffersize : Z) : M fstate HashValue :=
  mthrow_if (View.empty path) (NstlException "filename is empty");;
  file_handler ← file_open path;
  mthrow_if (file_handler =? -1)%Z (NstlException " cannot be opened");;
  ScopeExit.on_scope_exit close
    (match factory type with
     | Throw e => mthrow e
     | Ok h =>
       s ← mget;
       h ← read_loop (S (length (fs_rest s))) buffersize h;
       match h_finish h with Ok v => mret v | Throw e => mthrow e end
     end).

(** The two overloads: with a buffer of their own, and with a caller's. *)
Definition hash_file (path : str) (type : HashType) (buffersize : Z) : M fstate HashValue :=
  mthrow_if (buffersize =? 0)%Z (NstlException "Buffer size must not be 0");;
  mthrow_if (negb (mem_ok buffersize)) BadAlloc;;
  hash_file_impl path type (wrap 32 buffersize).
Definition hash_file_span (path : str) (buffer_size : Z) (type : HashType) : M fstate HashValue :=
  mthrow_if (buffer_size =? 0)%Z (NstlException "Span is empty!");;
  hash_file_impl path type (wrap 32 buffer_size).
End hasher.

(** ** Text *)

Definition hex_digits : str := lit "0123456789ABCDEF".
Definition hex_char (d : Z) : ascii := default "?"%char (hex_digits !! Z.to_nat d).
Definition hash_to_hex (h : HashValue) : str :=
  hash_bytes h ≫= λ b, [hex_char (Z.shiftr b 4); hex_char (Z.land b 15)].
Definition hash_to_base64 `{Base64.Base64Iterators} (h : HashValue) : str :=
  Base64.to_base64 (hash_bytes h) [].

(** ** datahashopenssl.cpp *)

(** The calls of OpenSSL's [EVP_MD_CTX]; a call that fails returns [None]. *)
Class Evp := {
  evp_ctx : Type;
  EVP_MD_CTX_new : option evp_ctx;
  EVP_DigestInit_ex2 : evp_ctx → HashType → option evp_ctx;
  EVP_MD_CTX_reset : evp_ctx → option evp_ctx;
  EVP_DigestUpdate : evp_ctx → bytes → option evp_ctx;
  EVP_DigestFinal_ex : evp_ctx → option bytes;
}.

(** Their documented behaviour when no allocation and no provider fails:
    updates accumulate, the final call gives the digest of what was
    accumulated, initialising starts from nothing. *)
Class EvpLaws (E : Evp) (md : HashType → bytes → bytes) := {
  evp_state : evp_ctx → HashType → bytes → Prop;
  evp_new_ok : ∃ c, EVP_MD_CTX_new = Some c;
  evp_init_ok : ∀ c t, known t = true → ∃ c', EVP_DigestInit_ex2 c t = Some c' ∧ evp_state c' t [];
  evp_reset_ok : ∀ c, ∃ c', EVP_MD_CTX_reset c = Some c';
  evp_update_ok : ∀ c t m a, evp_state c t m →
    ∃ c', EVP_DigestUpdate c a = Some c' ∧ evp_state c' t (m ++ a);
  evp_final_ok : ∀ c t m, evp_state c t m → EVP_DigestFinal_ex c = Some (md t m);
}.

(** The alternative of [HashValue] a type selects. *)
Definition emplace (t : HashType) (b : bytes) : res HashValue :=
  match t with
  | MD5 => Ok (HashMd5 b)
  | SHA1 => Ok (HashSha1 b)
  | SHA256 => Ok (HashSha256 b)
  | SHA512 => Ok (HashSha512 b)
  | OtherHash _ => Throw (NstlException "Unknown hash type")
  end.
Definition emplace_digest (md : HashType → bytes → bytes) (t : HashType) (m : bytes) : HashValue :=
  match emplace t (md t m) with Ok v => v | Throw _ => HashMd5 [] end.

Record HasherOpenSsl `{Evp} := OpenSsl { ossl_type : HashType; ossl_ctx : option evp_ctx }.

Section openssl.
Context `{E : Evp}.

Definition ossl_init (h : HasherOpenSsl) : res HasherOpenSsl :=
  if negb (known (ossl_type h)) then Throw (NstlException " is invalid")
  else
    match ossl_ctx h with
    | None => Throw (UndefinedBehaviour "EVP_DigestInit_ex2 of a null context")
    | Some c =>
      match EVP_DigestInit_ex2 c (ossl_type h) with
      | Some c' => Ok (OpenSsl _ (ossl_type h) (Some c'))
      | None => Throw (NstlException "EVP_DigestInit_ex2 failed")
      end
    end.
Definition ossl_make (t : HashType) : res HasherOpenSsl := ossl_init (OpenSsl _ t EVP_MD_CTX_new).
Definition ossl_reset (h : HasherOpenSsl) : res HasherOpenSsl :=
  match ossl_ctx h with
  | Some c =>
    match EVP_MD_CTX_reset c with
    | Some c' => ossl_init (OpenSsl _ (ossl_type h) (Some c'))
    | None => Throw (NstlException "reset context failed")
    end
  | None => Throw (NstlException "Null context cannot be reset")
  end.
Definition ossl_add (h : HasherOpenSsl) (data : bytes) : res HasherOpenSsl :=
  match ossl_ctx h ≫= λ c, EVP_DigestUpdate c data with
  | Some c' => Ok (OpenSsl _ (ossl_type h) (Some c'))
  | None => Throw (NstlException "EVP_DigestUpdate failed")
  end.
Definition ossl_finish (h : HasherOpenSsl) : res HashValue :=
  _ ← emplace (ossl_type h) [];
  match ossl_ctx h ≫= EVP_DigestFinal_ex with
  | Some b => emplace (ossl_type h) b
  | None => Throw (NstlException "EVP_DigestFinal_ex failed")
  end.

#[export] Instance openssl_hasher : Hasher :=
  {| factory := ossl_make; h_reset := ossl_reset; h_add := ossl_add; h_finish := ossl_finish |}.

Lemma emplace_ok md t m b :
  known t = true → md t m = b → emplace t b = Ok (emplace_digest md t m).
Proof. intros Hk <-. unfold emplace_digest. by destruct t. Qed.

(** The OpenSSL hasher keeps the promises of the class. *)
#[export] Instance openssl_laws md `{L : !EvpLaws E md} :
  HasherLaws openssl_hasher (emplace_digest md).
Proof.
  refine {| absorbed := λ h t m, ossl_type h = t ∧ known t = true ∧
              ∃ c, ossl_ctx h = Some c ∧ evp_state c t m |}; simpl.
  - intros t Hk. unfold ossl_make, ossl_init; simpl. rewrite Hk; simpl.
    destruct evp_new_ok as [c Hc]. rewrite Hc.
    destruct (evp_init_ok c t Hk) as (c' & -> & Hs). eexists. split; [done|]. eauto.
  - intros t Hk. unfold ossl_make, ossl_init; simpl. rewrite Hk. by eexists.
  - intros [t' c0] t m a (Ht & Hk & c & Hc & Hs) _; simpl in *; subst. unfold ossl_add; simpl.
    destruct (evp_update_ok c t m a Hs) as (c' & -> & Hs'). eexists. split; [done|]. eauto.
  - intros [t' c0] t m (Ht & Hk & c & Hc & Hs); simpl in *; subst. unfold ossl_finish; simpl.
    rewrite (evp_final_ok c t m Hs). rewrite (emplace_ok md t m) by done. by destruct t.
  - intros [t' c0] t m (Ht & Hk & c & Hc & Hs); simpl in *; subst. unfold ossl_reset; simpl.
    destruct (evp_reset_ok c) as [c1 ->]. unfold ossl_init; simpl. rewrite Hk; simpl.
    destruct (evp_init_ok c1 t Hk) as (c' & -> & Hs'). eexists. split; [done|]. eauto.
Defined.
End openssl.

(** ** datahashmacos.cpp *)

(** CommonCrypto: one family of calls per digest, the length a 32-bit integer. *)
Class CommonCrypto := {
  cc_ctx : Type;
  CC_Init : HashType → cc_ctx;
  CC_Update : HashType → cc_ctx → bytes → cc_ctx;
  CC_Final : HashType → cc_ctx → bytes;
}.
Class CommonCryptoLaws (C : CommonCrypto) (md : HashType → bytes → bytes) := {
  cc_state : cc_ctx → HashType → bytes → Prop;
  cc_init_ok : ∀ t, cc_state (CC_Init t) t [];
  cc_update_ok : ∀ c t m a, cc_state c t m → cc_state (CC_Update t c a) t (m ++ a);
  cc_final_ok : ∀ c t m, cc_state c t m → CC_Final t c = md t m;
}.

(** The four hasher classes, told apart by their digest. *)
Record MacHasher `{CommonCrypto} := Mac { mac_type : HashType; mac_ctx : cc_ctx }.

Section macos.
Context `{C : CommonCrypto}.

Definition mac_factory (t : HashType) : res MacHasher :=
  if known t then Ok (Mac _ t (CC_Init t)) else Throw (NstlException "Invalid hash type!").
Definition mac_reset (h : MacHasher) : res MacHasher := Ok (Mac _ (mac_type h) (CC_Init (mac_type h))).
Definition mac_add (h : MacHasher) (data : bytes) : res MacHasher :=
  let size := wrap 32 (Z.of_nat (length data)) in
  Ok (Mac _ (mac_type h) (CC_Update (mac_type h) (mac_ctx h) (take (Z.to_nat size) data))).
Definition mac_finish (h : MacHasher) : res HashValue :=
  emplace (mac_type h) (CC_Final (mac_type h) (mac_ctx h)).

#[export] Instance mac_hasher : Hasher :=
  {| factory := mac_factory; h_reset := mac_reset; h_add := mac_add; h_finish := mac_finish |}.

#[export] Instance mac_laws md `{L : !CommonCryptoLaws C md} :
  HasherLaws mac_hasher (emplace_digest md).
Proof.
  refine {| absorbed := λ h t m, mac_type h = t ∧ known t = true ∧ cc_state (mac_ctx h) t m |}; simpl.
  - intros t Hk. unfold mac_factory. rewrite Hk. eexists. split; [done|]. eauto using cc_init_ok.
  - intros t Hk. unfold mac_factory. rewrite Hk. by eexists.
  - intros [t' c] t m a (Ht & Hk & Hs) Ha; simpl in *; subst. unfold mac_add; simpl.
    eexists. split; [done|]. simpl. split_and!; [done..|].
    unfold wrap. rewrite Z.mod_small by lia. rewrite Nat2Z.id, take_ge by lia.
    by apply cc_update_ok.
  - intros [t' c] t m (Ht & Hk & Hs); simpl in *; subst. unfold mac_finish; simpl.
    by rewrite (cc_final_ok c t m Hs), (emplace_ok md t m).
  - intros [t' c] t m (Ht & Hk & Hs); simpl in *; subst. eexists. split; [done|]. eauto using cc_init_ok.
Defined.
End macos.

(** ** datahashwin32.cpp *)

(** The calls of the CryptoAPI: whether the thread's provider can be acquired, and
    the calls on a hash, [None] when they fail. *)
Class CryptoApi := {
  hcrypthash : Type;
  CryptAcquireContext : bool;
  CryptCreateHash : HashType → option hcrypthash;
  CryptHashData : hcrypthash → bytes → option hcrypthash;
  CryptGetHashParam : hcrypthash → option bytes;
}.
Class CryptoApiLaws (C : CryptoApi) (md : HashType → bytes → bytes) := {
  capi_state : hcrypthash → HashType → bytes → Prop;
  capi_provider_ok : CryptAcquireContext = true;
  capi_create_ok : ∀ t, known t = true → ∃ c, CryptCreateHash t = Some c ∧ capi_state c t [];
  capi_data_ok : ∀ c t m a, capi_state c t m → ∃ c', CryptHashData c a = Some c' ∧ capi_state c' t (m ++ a);
  capi_param_ok : ∀ c t m, capi_state c t m → CryptGetHashParam c = Some (md t m);
}.

(** [_hHash] is zero ([None]) or a hash. *)
Record HasherWin32 `{CryptoApi} := Win32 { win_type : HashType; win_hash : option hcrypthash }.

Section win32.
Context `{C : CryptoApi}.

Definition win_clear (h : HasherWin32) : HasherWin32 := Win32 _ (win_type h) None.
Definition win_create (h : HasherWin32) : res HasherWin32 :=
  throw_if (negb CryptAcquireContext) (NstlException "CryptAcquireContextA failed: ");;
  throw_if (negb (known (win_type h))) (NstlException " is invalid");;
  throw_if (bool_decide (is_Some (win_hash h))) (NstlException "Reinit of _hHash");;
  match CryptCreateHash (win_type h) with
  | Some c => Ok (Win32 _ (win_type h) (Some c))
  | None => Throw (NstlException "CryptCreateHash failed: ")
  end.
Definition win_make (t : HashType) : res HasherWin32 := win_create (Win32 _ t None).
Definition win_reset (h : HasherWin32) : res HasherWin32 := win_create (win_clear h).
(** The size is cut to a [DWORD]. *)
Definition win_add (h : HasherWin32) (data : bytes) : res HasherWin32 :=
  let size := wrap 32 (Z.of_nat (length data)) in
  match win_hash h ≫= λ c, CryptHashData c (take (Z.to_nat size) data) with
  | Some c => Ok (Win32 _ (win_type h) (Some c))
  | None => Throw (NstlException "CryptHashData failed: ")
  end.
Definition win_finish (h : HasherWin32) : res HashValue :=
  _ ← emplace (win_type h) [];
  match win_hash h ≫= CryptGetHashParam with
  | Some b => emplace (win_type h) b
  | None => Throw (NstlException "CryptGetHashParam HP_HASHVAL failed: ")
  end.

#[export] Instance win32_hasher : Hasher :=
  {| factory := win_make; h_reset := win_reset; h_add := win_add; h_finish := win_finish |}.

#[export] Instance win32_laws md `{L : !CryptoApiLaws C md} :
  HasherLaws win32_hasher (emplace_digest md).
Proof.
  assert (Hcreate : ∀ t, known t = true → ∃ c, win_create (Win32 _ t None) = Ok (Win32 _ t (Some c)) ∧ capi_state c t []).
  { intros t Hk. unfold win_create. munfold_goal. rewrite capi_provider_ok; simpl. rewrite Hk; simpl.
    destruct (capi_create_ok t Hk) as (c & -> & Hs). eauto. }
  refine {| absorbed := λ h t m, win_type h = t ∧ known t = true ∧
              ∃ c, win_hash h = Some c ∧ capi_state c t m |}; simpl.
  - intros t Hk. destruct (Hcreate t Hk) as (c & Hc & Hs). eexists. split; [exact Hc|]. eauto.
  - intros t Hk. unfold win_make, win_create. munfold_goal. rewrite capi_provider_ok; simpl. rewrite Hk. by eexists.
  - intros [t' c0] t m a (Ht & Hk & c & Hc & Hs) Ha; simpl in *; subst. unfold win_add; simpl.
    unfold wrap. rewrite Z.mod_small by lia. rewrite Nat2Z.id, take_ge by lia.
    destruct (capi_data_ok c t m a Hs) as (c' & -> & Hs'). eexists. split; [done|]. eauto.
  - intros [t' c0] t m (Ht & Hk & c & Hc & Hs); simpl in *; subst. unfold win_finish; simpl.
    rewrite (capi_param_ok c t m Hs). rewrite (emplace_ok md t m) by done. by destruct t.
  - intros [t' c0] t m (Ht & Hk & c & Hc & Hs); simpl in *; subst.
    destruct (Hcreate t Hk) as (c' & Hc' & Hs'). eexists. split; [exact Hc'|]. eauto.
Defined.
End win32.

(** ** The backends against each other *)

(** A use of one hasher: messages given in pieces, each followed by [finish] and a
    [reset] before the next. *)
Section session.
Context `{H : Hasher}.
Fixpoint add_all (h : hasher) (chunks : list bytes) : res hasher :=
  match chunks with
  | [] => Ok h
  | a :: chunks => h ← h_add h a; add_all h chunks
  end.
Fixpoint messages (h : hasher) (l : list (list bytes)) : res (list HashValue) :=
  match l with
  | [] => Ok []
  | chunks :: l =>
    h ← add_all h chunks;
    v ← h_finish h;
    h ← h_reset h;
    r ← messages h l;
    Ok (v :: r)
  end.
Definition session (t : HashType) (l : list (list bytes)) : res (list HashValue) :=
  h ← factory t; messages h l.

Context (digest : HashType → bytes → HashValue) {HL : HasherLaws H digest}.
Definition short_chunks (l : list (list bytes)) : Prop :=
  Forall (Forall (λ a, Z.of_nat (length a) < 2 ^ 32)%Z) l.

Lemma add_all_absorbs t chunks h m :
  absorbed h t m → Forall (λ a, Z.of_nat (length a) < 2 ^ 32)%Z chunks →
  ∃ h', add_all h chunks = Ok h' ∧ absorbed h' t (m ++ concat chunks).
Proof.
  intros Hm Hc. revert h m Hm. induction Hc as [|a chunks Ha _ IH]; intros h m Hm; simpl.
  - exists h. by rewrite app_nil_r.
  - destruct (add_ok h t m a Hm Ha) as (h1 & -> & H1). munfold_goal.
    destruct (IH h1 _ H1) as (h2 & -> & H2). exists h2. split; [done|]. by rewrite (assoc_L (++)).
Qed.

Lemma session_digests t l :
  known t = true → short_chunks l → session t l = Ok ((λ chunks, digest t (concat chunks)) <$> l).
Proof.
  intros Hk Hl. unfold session. destruct (factory_ok t Hk) as (h & -> & Hh). munfold_goal.
  revert h Hh. induction Hl as [|chunks l Hc _ IH]; intros h Hh; [done|].
  cbn [messages]. destruct (add_all_absorbs t chunks h [] Hh Hc) as (h1 & -> & H1). munfold_goal.
  rewrite (finish_ok h1 t _ H1). destruct (reset_ok h1 t _ H1) as (h2 & -> & H2).
  by rewrite (IH h2 H2).
Qed.
End session.

(** ** Properties *)

Section properties.
Context {H : Hasher} {digest : HashType → bytes → HashValue} {HL : HasherLaws H digest}.
Context (files : gmap str bytes) (short : nat → Z) (io_error : nat → bool) (mem_ok : Z → bool).

Lemma to_int_small k : (0 ≤ k < 2 ^ 31)%Z → to_int k = k.
Proof. intros. unfold to_int. rewrite Z.mod_small by lia. lia. Qed.

(** No read transfers more bytes than an [int] counts: the buffer is smaller, or the
    system delivers fewer. *)
Definition fits_int (bs : Z) : Prop := (bs < 2 ^ 31)%Z ∨ ∀ n, (short n < 2 ^ 31)%Z.

Lemma read_loop_ok t bs fuel h m s :
  (0 < bs)%Z → fits_int bs → (∀ n, io_error n = false) → absorbed h t m → length (fs_rest s) < fuel →
  ∃ s' h', read_loop short io_error fuel bs h s = (s', Ok h') ∧ absorbed h' t (m ++ fs_rest s) ∧
    fs_open s' = fs_open s.
Proof.
  intros Hbs Hint Hio. revert h m s. induction fuel as [|fuel IH]; intros h m s Hh Hf; [lia|].
  simpl. munfold_goal. unfold read. rewrite Hio.
  destruct (Z.eqb_spec (Z.min bs (Z.of_nat (length (fs_rest s)))) 0) as [E|E]; simpl.
  - assert (fs_rest s = []) as Hr by (destruct (fs_rest s); simpl in *; [done|lia]).
    eexists _, h. split; [done|]. rewrite Hr, app_nil_r. done.
  - set (k := Z.max 1 (Z.min (short (fs_step s)) (Z.min bs (Z.of_nat (length (fs_rest s)))))).
    assert (0 < k < 2 ^ 31)%Z as Hk.
    { destruct Hint as [Hint|Hint]; [lia|]. specialize (Hint (fs_step s)). lia. }
    rewrite to_int_small by lia. rewrite (proj2 (Z.ltb_lt 0 k)) by lia.
    rewrite take_take, Nat.min_id.
    destruct (add_ok h t m (take (Z.to_nat k) (fs_rest s))) as (h1 & -> & Hh1); [done| |].
    { rewrite length_take. lia. }
    destruct (IH h1 _ (FState (fs_open s) (drop (Z.to_nat k) (fs_rest s)) (S (fs_step s))) Hh1)
      as (s' & h' & -> & Hh' & Ho); [simpl; rewrite length_drop; lia|].
    simpl in Hh'. rewrite <-app_assoc, take_drop in Hh'. eexists _, _. split; [done|]. by split.
Qed.

Lemma read_loop_open fuel bs h s :
  fs_open (fst (read_loop short io_error fuel bs h s)) = fs_open s.
Proof.
  revert h s. induction fuel as [|fuel IH]; intros h s; [done|]. simpl. munfold_goal.
  unfold read. destruct (io_error (fs_step s)); simpl; [done|].
  destruct (_ =? 0)%Z; simpl; [done|]. case_match; [|by case_match].
  destruct (h_add h _); [|done]. by rewrite IH.
Qed.

(** With a buffer of no bytes the first read ends the loop. *)
Lemma read_loop_zero fuel h s :
  io_error (fs_step s) = false →
  read_loop short io_error (S fuel) 0 h s = (FState (fs_open s) (fs_rest s) (S (fs_step s)), Ok h).
Proof.
  intros Hio. simpl. munfold_goal. unfold read. rewrite Hio.
  rewrite Z.min_l by lia. simpl. by rewrite drop_0.
Qed.

#[local] Arguments read_loop : simpl never.

Lemma hash_file_impl_open path t bs s :
  fs_open (fst (hash_file_impl files short io_error path t bs s)) = fs_open s.
Proof.
  unfold hash_file_impl. munfold_goal. destruct (View.empty path); [done|]. unfold file_open.
  destruct (files !! path) as [content|]; simpl; [|done].
  unfold ScopeExit.on_scope_exit, ScopeExit.destroy, ScopeExit.make. munfold_goal.
  destruct (factory t) as [h|e]; [|done].
  pose proof (read_loop_open (S (length content)) bs h (FState (S (fs_open s)) content (fs_step s)))
    as Ho. destruct (read_loop _ _ _ _ _ _) as [s1 [h1|e]]; simpl in Ho |- *;
    [destruct (h_finish h1)|]; simpl; by rewrite Ho.
Qed.

(** The state a successful call leaves behind. *)
Lemma hash_file_impl_ok path t bs content s :
  path ≠ [] → known t = true → files !! path = Some content →
  (∀ h, absorbed h t [] → ∃ s' h' m, absorbed h' t m ∧ m = (if (bs =? 0)%Z then [] else content) ∧
     read_loop short io_error (S (length content)) bs h (FState (S (fs_open s)) content (fs_step s)) =
     (s', Ok h')) →
  ∃ s', hash_file_impl files short io_error path t bs s =
    (s', Ok (digest t (if (bs =? 0)%Z then [] else content))).
Proof.
  intros Hp Hk Hf Hl. unfold hash_file_impl. munfold_goal. destruct path as [|c path]; [done|].
  simpl. unfold file_open. rewrite Hf. simpl.
  unfold ScopeExit.on_scope_exit, ScopeExit.destroy, ScopeExit.make. munfold_goal.
  destruct (factory_ok t Hk) as (h & -> & Hh). destruct (Hl h Hh) as (s' & h' & m & Hm & -> & E).
  cbn [fs_rest]. rewrite E.  rewrite (finish_ok h' t _ Hm). simpl. by eexists.
Qed.

(** What a buffer of any size gives. *)
Lemma hash_file_sized path t bs content s (w := wrap 32 bs) :
  path ≠ [] → known t = true → files !! path = Some content → bs ≠ 0%Z → fits_int w →
  mem_ok bs = true → (∀ n, io_error n = false) →
  ∃ s', hash_file files short io_error mem_ok path t bs s = (s', Ok (digest t (if (w =? 0)%Z then [] else content))).
Proof using HL.
  intros Hp Hk Hf Hbs Hint Hm Hio. unfold hash_file. munfold_goal. rewrite (proj2 (Z.eqb_neq bs 0)), Hm by done. simpl.
  fold w. assert (0 ≤ w)%Z as Hw by (apply Z.mod_pos_bound; lia). clearbody w.
  apply hash_file_impl_ok; [done..|]. intros h Hh. destruct (Z.eqb_spec w 0) as [->|Hw0].
  - rewrite read_loop_zero by apply Hio. eexists _, h, []. by split_and!.
  - destruct (read_loop_ok t w (S (length content)) h [] (FState (S (fs_open s)) content (fs_step s)))
      as (s' & h' & E & Ha & _); [lia|done..|simpl; lia|]. exists s', h', content. by split_and!.
Qed.


(** A buffer size that is a multiple of 2^32 is cut to 0 by the conversion
    to [unsigned int]: nothing is read, and the call returns the digest of the
    empty content, whatever the file holds. *)
Theorem hash_file_wide_buffer (path : str) (t : HashType) (k : Z) (content : bytes) (s : fstate) :
  path ≠ [] → known t = true → files !! path = Some content → (0 < k)%Z →
  mem_ok (k * 2 ^ 32) = true → (∀ n, io_error n = false) →
  ∃ s', hash_file files short io_error mem_ok path t (k * 2 ^ 32) s = (s', Ok (digest t [])).
Proof using HL.
  intros Hp Hk Hf Hpos Hm Hio. assert (wrap 32 (k * 2 ^ 32) = 0%Z) as Hw by apply Z_mod_mult.
  pose proof (hash_file_sized path t (k * 2 ^ 32) content s Hp Hk Hf) as Hs. rewrite Hw in Hs.
  apply Hs; [lia| |done|done]. left. lia.
Qed.

(** The digits of a byte. *)
Definition hex_value (c : ascii) : Z :=
  match list_find (λ d, d = c) hex_digits with Some (i, _) => Z.of_nat i | None => 0 end.
Fixpoint unhex (s : str) : bytes :=
  match s with
  | a :: b :: s => (hex_value a * 16 + hex_value b)%Z :: unhex s
  | _ => []
  end.

Lemma hex_byte b :
  u8 b → (hex_value (hex_char (Z.shiftr b 4)) * 16 + hex_value (hex_char (Z.land b 15)) = b)%Z.
Proof.
  intros Hb.
  assert (forallb (λ b, hex_value (hex_char (Z.shiftr b 4)) * 16 + hex_value (hex_char (Z.land b 15))
    =? b)%Z (Z.of_nat <$> seq 0 256) = true) as H' by (by vm_compute).
  rewrite forallb_forall in H'. apply Z.eqb_eq, H', list_elem_of_In, list_elem_of_fmap.
  exists (Z.to_nat b). unfold u8 in Hb. split; [lia|]. apply elem_of_seq. lia.
Qed.

(** The hexadecimal text determines the hash. *)
Lemma hash_to_hex_unhex v :
  Forall u8 (hash_bytes v) →
  unhex (hash_to_hex v) = hash_bytes v ∧ length (hash_to_hex v) = 2 * length (hash_bytes v).
Proof.
  unfold hash_to_hex. induction 1 as [|b l Hb Hl IH]; [done|]. csimpl.
  rewrite hex_byte by done. destruct IH as [-> ->]. split; [done|]. lia.
Qed.
End properties.

(** C19: the three backends are interchangeable: over libraries that compute the same
    digests, any use of a hasher (messages in pieces below 2^32 bytes, with resets
    in between) gives the same values on OpenSSL, CommonCrypto and the CryptoAPI,
    namely the digest of each message, however it was cut into pieces. *)
Theorem backends_agree `{E : Evp, CC : CommonCrypto, CA : CryptoApi} (md : HashType → bytes → bytes)
    `{!EvpLaws E md, !CommonCryptoLaws CC md, !CryptoApiLaws CA md} (t : HashType) (l : list (list bytes)) :
  known t = true → short_chunks l →
  session (H := openssl_hasher) t l = session (H := win32_hasher) t l ∧
  session (H := openssl_hasher) t l = session (H := mac_hasher) t l ∧
  session (H := openssl_hasher) t l = Ok ((λ chunks, emplace_digest md t (concat chunks)) <$> l).
Proof. intros Hk Hl. by rewrite !(session_digests (emplace_digest md) t l). Qed.

(** The size of a piece is cut to 32 bits on Windows and on macOS: of a piece of
    2^32 bytes nothing is hashed there. *)
Lemma wide_piece_lost `{CC : CommonCrypto, CA : CryptoApi} (t : HashType) (a : bytes) c cm :
  Z.of_nat (length a) = (2 ^ 32)%Z →
  win_add (Win32 _ t (Some c)) a = win_add (Win32 _ t (Some c)) [] ∧
  mac_add (Mac _ t cm) a = mac_add (Mac _ t cm) [].
Proof. intros Ha. unfold win_add, mac_add, wrap; simpl. by rewrite Ha. Qed.

(** ** Concrete instances *)

(** A digest library whose digests are the message cut or padded to the size of
    the digest. *)
Definition toy_md (t : HashType) (m : bytes) : bytes :=
  take (Z.to_nat (hash_size t)) (m ++ replicate (Z.to_nat (hash_size t)) 0%Z).
#[export] Instance toy_evp : Evp := {|
  evp_ctx := HashType * bytes;
  EVP_MD_CTX_new := Some (MD5, []);
  EVP_DigestInit_ex2 := λ _ t, Some (t, []);
  EVP_MD_CTX_reset := λ c, Some (MD5, []);
  EVP_DigestUpdate := λ c a, Some (fst c, snd c ++ a);
  EVP_DigestFinal_ex := λ c, Some (toy_md (fst c) (snd c));
|}.
#[export] Instance toy_evp_laws : EvpLaws toy_evp toy_md.
Proof.
  refine {| evp_state := λ (c : @evp_ctx toy_evp) t m, c = (t, m) |}; simpl.
  - by eexists.
  - intros c t _. by eexists.
  - intros c. by eexists.
  - intros c t m a ->. by eexists.
  - intros c t m ->. done.
Defined.
Definition sample_files : gmap str bytes := {[lit "f" := [1; 2; 3; 4; 5]%Z]}.


Lemma hash_file_wide_buffer_witness :
  ∃ s', hash_file sample_files (λ _, 3%Z) (λ _, false) (λ _, true) (lit "f") SHA1 (1 * 2 ^ 32)
          (FState 0 [] 0) = (s', Ok (emplace_digest toy_md SHA1 [])).
Proof.
  apply (hash_file_wide_buffer (HL := openssl_laws toy_md) sample_files (λ _, 3%Z) (λ _, false)
           (λ _, true) (lit "f") SHA1 1 [1; 2; 3; 4; 5]%Z (FState 0 [] 0)); try done; lia.
Defined.

#[export] Instance toy_common_crypto : CommonCrypto :=
  {| cc_ctx := bytes; CC_Init := λ _, []; CC_Update := λ _ c a, c ++ a; CC_Final := toy_md |}.
#[export] Instance toy_common_crypto_laws : CommonCryptoLaws toy_common_crypto toy_md.
Proof.
  refine {| cc_state := λ (c : @cc_ctx toy_common_crypto) t m, c = m |}; simpl; [done|by intros c t m a ->|by intros c t m ->].
Defined.
#[export] Instance toy_crypto_api : CryptoApi := {|
  hcrypthash := HashType * bytes;
  CryptAcquireContext := true;
  CryptCreateHash := λ t, Some (t, []);
  CryptHashData := λ c a, Some (fst c, snd c ++ a);
  CryptGetHashParam := λ c, Some (toy_md (fst c) (snd c));
|}.
#[export] Instance toy_crypto_api_laws : CryptoApiLaws toy_crypto_api toy_md.
Proof.
  refine {| capi_state := λ (c : @hcrypthash toy_crypto_api) t m, c = (t, m) |}; simpl.
  - done.
  - intros t _. by eexists.
  - intros c t m a ->. by eexists.
  - by intros c t m ->.
Defined.

Lemma backends_agree_witness :
  session (H := openssl_hasher) SHA1 [[[1; 2]; [3]]; []]%Z = session (H := win32_hasher) SHA1 [[[1; 2]; [3]]; []]%Z.
Proof.
  apply (backends_agree toy_md SHA1 [[[1; 2]; [3]]; []]%Z); [done|]. repeat constructor.
Defined.
End DataHash.
