(* ===== verification/HashText.v ===== *)
(** * Typed input and text of hashes: datahash.hpp, datahash.cpp, datahashwin32.cpp

    [Input] models the overloads of [Hasher::add] that take characters, arrays and
    views, over the object representation of their elements; [Text] the wide text of a
    hash and the well-formedness of hash values; [CryptHandles] the provider of a
    thread and the hash objects of the Windows backend as resources. *)

From S2P Require Import Prelude Strings DataHash.
Import DataHash.

(** ** Overloads of [add] *)

Module Input.

(** The bytes of an unsigned integer of [n] bytes, the least significant first. *)
Fixpoint le_bytes (n : nat) (z : Z) : bytes :=
  match n with O => [] | S n => (z `mod` 256)%Z :: le_bytes n (z / 256) end.
Definition representation (size : nat) (l : list Z) : bytes := l ≫= le_bytes size.

Lemma length_representation size l : length (representation size l) = length l * size.
Proof.
  unfold representation. induction l as [|z l IH]; [done|]. csimpl. rewrite length_app, IH. f_equal.
  clear. revert z. induction size as [|n IH]; intros z; simpl; [done|]. by rewrite IH.
Qed.

(** [nstl::wcslen]: a null pointer, or the characters up to the terminator. *)
Definition wcslen (text : option (list Z)) : nat := match text with Some s => length s | None => 0 end.

Section input.
Context `{H : Hasher}.
(** [add(data_, size_)] on memory that holds more. *)
Definition add_raw (h : hasher) (mem : bytes) (size : nat) : res hasher := h_add h (take size mem).
(** [add(std::span<TypeT>)] and [add(std::basic_string_view<CharT>)], with the size of
    an element. *)
Definition add_span (size : nat) (h : hasher) (data : list Z) : res hasher :=
  add_raw h (representation size data) (length data * size).
Definition add_view (size : nat) (h : hasher) (view : list Z) : res hasher :=
  add_raw h (representation size view) (length view * size).
(** [add] of a wide C string. *)
Definition add_wcs (wchar_size : nat) (h : hasher) (data : option (list Z)) : res hasher :=
  let size := wcslen data in
  if (0 <? size)%nat then add_raw h (representation wchar_size (default [] data)) (size * wchar_size) else Ok h.

Context (digest : HashType → bytes → HashValue) {HL : HasherLaws H digest}.

(** Each overload hashes exactly the bytes of its elements, a null pointer and an empty
    text none. *)
Lemma add_overloads t m h size (data : list Z) :
  absorbed h t m → (Z.of_nat (length data * size) < 2 ^ 32)%Z →
  (∃ h', add_span size h data = Ok h' ∧ absorbed h' t (m ++ representation size data)) ∧
  (∃ h', add_view size h data = Ok h' ∧ absorbed h' t (m ++ representation size data)) ∧
  (∃ h', add_wcs size h (Some data) = Ok h' ∧ absorbed h' t (m ++ representation size data)) ∧
  add_wcs size h None = Ok h.
Proof.
  intros Hm Hs. rewrite <-length_representation in Hs.
  destruct (add_ok h t m _ Hm Hs) as (h' & Hadd & Hm').
  assert (add_raw h (representation size data) (length data * size) = Ok h') as Hraw
    by (unfold add_raw; by rewrite <-length_representation, take_ge).
  split_and!; [by exists h'..| |done]. unfold add_wcs; simpl. destruct data as [|z data]; simpl in *; [|by exists h'].
  exists h. split; [done|]. by rewrite app_nil_r.
Qed.
End input.
End Input.

(** ** Text *)

Module Text.

(** Wide text is its character codes. *)
Abbreviation wstr := (list Z).
Definition widen (s : str) : wstr := code <$> s.

Definition wide_digits : wstr := widen (lit "0123456789ABCDEF").
Definition wide_digit (d : Z) : Z := default 63%Z (wide_digits !! Z.to_nat d).
Definition whash_to_hex (h : HashValue) : wstr :=
  hash_bytes h ≫= λ b, [wide_digit (Z.shiftr b 4); wide_digit (Z.land b 15)].
Definition whash_to_base64 `{Base64.Base64Iterators} (h : HashValue) : wstr := widen (hash_to_base64 h).

Lemma wide_digit_hex d : wide_digit d = code (hex_char d).
Proof.
  unfold wide_digit, hex_char, wide_digits, hex_digits, widen. rewrite list_lookup_fmap.
  by destruct (lit "0123456789ABCDEF" !! Z.to_nat d).
Qed.
Lemma whash_to_hex_widen v : whash_to_hex v = widen (hash_to_hex v).
Proof.
  unfold whash_to_hex, hash_to_hex, widen. induction (hash_bytes v) as [|b l IH]; [done|]. csimpl.
  by rewrite !wide_digit_hex, IH.
Qed.

(** A value is well formed when it has the bytes its alternative has room for. *)
Definition well_typed (t : HashType) (v : HashValue) : Prop :=
  get_hash_type v = t ∧ Z.of_nat (length (hash_bytes v)) = hash_size t ∧ Forall u8 (hash_bytes v).
(** The digests of a library have the size of their type. *)
Definition sized (md : HashType → bytes → bytes) : Prop :=
  ∀ t m, known t = true → Z.of_nat (length (md t m)) = hash_size t ∧ Forall u8 (md t m).

Lemma emplace_typed md t m : sized md → known t = true → well_typed t (emplace_digest md t m).
Proof.
  intros Hs Hk. destruct (Hs t m Hk) as [H1 H2]. unfold well_typed, emplace_digest. by destruct t.
Qed.

(** C20: the values a hasher returns are well typed, with any of the backends: the
    alternative is the one of the type the hasher was made for, its size is the one the
    type states, the type is found again from the bytes alone, and the text in
    hexadecimal, narrow or wide, has twice that size and determines the bytes.  An
    unknown type is refused. *)
Theorem hash_values_typed `{H : Hasher} (md : HashType → bytes → bytes) `{HL : !HasherLaws H (emplace_digest md)}
    (t : HashType) (l : list (list bytes)) :
  sized md → short_chunks l →
  match session t l with
  | Ok vs => known t = true ∧ Forall (λ v, well_typed t v ∧ get_hash_type_span (hash_bytes v) = Some t ∧
      Z.of_nat (length (hash_to_hex v)) = (2 * hash_size t)%Z ∧ unhex (hash_to_hex v) = hash_bytes v ∧
      whash_to_hex v = widen (hash_to_hex v)) vs
  | Throw _ => known t = false
  end.
Proof.
  intros Hs Hl. destruct (known t) eqn:Hk.
  - rewrite (session_digests (emplace_digest md) t l Hk Hl). split; [done|]. apply Forall_fmap, list.Forall_forall.
    intros chunks _. simpl. set (v := emplace_digest md t (concat chunks)).
    destruct (emplace_typed md t (concat chunks) Hs Hk) as (H1 & H2 & H3). fold v in H1, H2, H3.
    destruct (hash_to_hex_unhex v H3) as [H4 H5]. split_and!; [done| |lia|done|apply whash_to_hex_widen].
    unfold get_hash_type_span. rewrite H2. by destruct t.
  - unfold session. destruct (factory_unknown t Hk) as [e ->]. done.
Qed.

Lemma toy_sized : sized (λ t _, replicate (Z.to_nat (hash_size t)) 7%Z).
Proof.
  intros t m Hk. rewrite length_replicate. split; [by destruct t|]. by apply Forall_replicate.
Qed.

(** A backend of constant digests. *)
#[local] Instance constant_hasher : Hasher := {|
  hasher := HashType;
  factory := λ t, if known t then Ok t else Throw (NstlException " is invalid");
  h_reset := Ok;
  h_add := λ t _, Ok t;
  h_finish := λ t, emplace t (replicate (Z.to_nat (hash_size t)) 7%Z);
|}.
#[local] Instance constant_laws :
  HasherLaws constant_hasher (emplace_digest (λ t _, replicate (Z.to_nat (hash_size t)) 7%Z)).
Proof.
  refine {| absorbed := λ (h : @hasher constant_hasher) t _, (h : HashType) = t ∧ known t = true |}; simpl.
  - intros t ->. eauto.
  - intros t ->. eauto.
  - intros h t m a Hh _. eauto.
  - intros h t m [-> Hk]. by apply (emplace_ok (λ t _, replicate (Z.to_nat (hash_size t)) 7%Z) t m).
  - intros h t m Hh. eauto.
Defined.

Lemma hash_values_typed_witness :
  match session (H := constant_hasher) SHA1 [[[1; 2]; [3]]; []]%Z with
  | Ok vs => length vs = 2 ∧ Forall (well_typed SHA1) vs
  | Throw _ => False
  end.
Proof.
  pose proof (hash_values_typed (H := constant_hasher) (λ t _, replicate (Z.to_nat (hash_size t)) 7%Z) SHA1
    [[[1; 2]; [3]]; []]%Z toy_sized ltac:(repeat constructor)) as Hv.
  destruct (session (H := constant_hasher) SHA1 [[[1; 2]; [3]]; []]%Z) as [vs|e] eqn:E; [|done].
  destruct Hv as [_ Hv]. split; [vm_compute in E; by injection E as <-|].
  eapply list.Forall_impl; [exact Hv|]. by intros v [? _].
Defined.
End Text.

(** ** Handles of the CryptoAPI *)

Module CryptHandles.

Definition translateAlgoId (t : HashType) : res Z :=
  match t with
  | MD5 => Ok 32771%Z
  | SHA1 => Ok 32772%Z
  | SHA256 => Ok 32780%Z
  | SHA512 => Ok 32782%Z
  | OtherHash _ => Throw (NstlException " is invalid")
  end.

(** Each type has an algorithm of its own. *)
Lemma translateAlgoId_inj t u a : translateAlgoId t = Ok a → translateAlgoId u = Ok a → t = u.
Proof. destruct t, u; simpl; congruence. Qed.

(** A thread with its provider, acquired or not, the hash objects that exist, how
    often a hash was destroyed that did not, and the hashers: their type and
    [_hHash]. *)
Record thread := Thread {
  hProv : bool; hashes : gset nat; bad_destroys : nat; hashers : gmap nat (HashType * option nat) }.

(** [ThreadProvider]: acquired at its first use, again after a failure, released at
    the end of the thread. *)
Definition ThreadProvider (acquire_ok : bool) : M thread () := λ th,
  if hProv th then (th, Ok ())
  else if acquire_ok then (Thread true (hashes th) (bad_destroys th) (hashers th), Ok ())
  else (th, Throw (NstlException "CryptAcquireContextA failed: ")).
Definition thread_exit (th : thread) : thread := Thread false (hashes th) (bad_destroys th) (hashers th).

Definition CryptDestroyHash (c : nat) (th : thread) : thread :=
  if decide (c ∈ hashes th) then Thread (hProv th) (hashes th ∖ {[c]}) (bad_destroys th) (hashers th)
  else Thread (hProv th) (hashes th) (S (bad_destroys th)) (hashers th).
Definition set_hash (i : nat) (t : HashType) (c : option nat) (th : thread) : thread :=
  Thread (hProv th) (hashes th) (bad_destroys th) (<[i := (t, c)]> (hashers th)).

(** [clear], [create] and the destructor on the hasher [i]. *)
Definition clear (i : nat) : M thread () :=
  th ← mget;
  match hashers th !! i with
  | Some (t, Some c) => mmodify (λ th, set_hash i t None (CryptDestroyHash c th))
  | Some (_, None) => mret ()
  | None => mthrow (UndefinedBehaviour "no such hasher")
  end.
Definition create (acquire_ok create_ok : bool) (i : nat) (t : HashType) (_hHash : option nat) : M thread () :=
  ThreadProvider acquire_ok;;
  mlift (translateAlgoId t);;
  mthrow_if (bool_decide (is_Some _hHash)) (NstlException "Reinit of _hHash");;
  mthrow_if (negb create_ok) (NstlException "CryptCreateHash failed: ");;
  mmodify (λ th, Thread (hProv th) ({[fresh (hashes th)]} ∪ hashes th) (bad_destroys th)
    (<[i := (t, Some (fresh (hashes th)))]> (hashers th))).

Inductive op :=
| New (i : nat) (t : HashType) (acquire_ok create_ok : bool)
| Reset (i : nat) (acquire_ok create_ok : bool)
| Delete (i : nat).
Definition exec (o : op) (th : thread) : thread :=
  match o with
  | New i t a c => if decide (is_Some (hashers th !! i)) then th else fst (create a c i t None th)
  | Reset i a c =>
    match hashers th !! i with
    | None => th
    | Some (t, _) => fst ((clear i;; create a c i t None) th)
    end
  | Delete i =>
    match hashers th !! i with
    | None => th
    | Some _ =>
      let th := fst (clear i th) in Thread (hProv th) (hashes th) (bad_destroys th) (delete i (hashers th))
    end
  end.

(** The hashes that exist are those the hashers have, each its own. *)
Definition thread_ok (th : thread) : Prop :=
  (∀ c, c ∈ hashes th ↔ ∃ i t, hashers th !! i = Some (t, Some c)) ∧
  (∀ i j t u c, hashers th !! i = Some (t, Some c) → hashers th !! j = Some (u, Some c) → i = j) ∧
  bad_destroys th = 0.

Lemma clear_ok i t c th :
  thread_ok th → hashers th !! i = Some (t, c) →
  ∃ th', clear i th = (th', Ok ()) ∧ thread_ok th' ∧ hashers th' = <[i := (t, None)]> (hashers th) ∧ hProv th' = hProv th.
Proof.
  intros (H1 & H2 & H3) Hi. unfold clear. munfold_goal. rewrite Hi. destruct c as [c|]; munfold_goal.
  - eexists. split; [done|]. unfold CryptDestroyHash. rewrite decide_True by (apply H1; eauto). simpl.
    split_and!; [|done|done]. split_and!; simpl; [|..|done].
    + intros x. rewrite elem_of_difference, elem_of_singleton, H1. setoid_rewrite lookup_insert_Some. split.
      * intros [(j & u & Hj) Hx]. exists j, u. right. split; [|done]. intros <-. congruence.
      * intros (j & u & [[_ ?]|[Hij Hj]]); [done|]. split; [eauto|]. intros ->. by apply Hij, (H2 i j t u c).
    + intros a b u v x. rewrite !lookup_insert_Some. intros [[_ ?]|[_ Ha]] [[_ ?]|[_ Hb]]; try done. by apply (H2 a b u v x).
  - exists th. split_and!; [done|by split_and!| |done]. by rewrite insert_id.
Qed.

Lemma create_ok_step a b i t th :
  thread_ok th → (∀ u c, hashers th !! i ≠ Some (u, Some c)) → thread_ok (fst (create a b i t None th)).
Proof.
  intros (H1 & H2 & H3) Hi. unfold create, ThreadProvider. munfold_goal.
  assert (∀ p, thread_ok (fst ((mlift (translateAlgoId t);; mthrow_if false (NstlException "Reinit of _hHash");;
    mthrow_if (negb b) (NstlException "CryptCreateHash failed: ");;
    mmodify (λ th, Thread (hProv th) ({[fresh (hashes th)]} ∪ hashes th) (bad_destroys th)
      (<[i := (t, Some (fresh (hashes th)))]> (hashers th)))) (Thread p (hashes th) (bad_destroys th) (hashers th))))) as Hrest.
  { intros p. munfold_goal. destruct (translateAlgoId t); [|by split_and!]. destruct b; simpl; [|by split_and!].
    pose proof (is_fresh (hashes th)) as Hf. split_and!; simpl; [|..|done].
    - intros x. rewrite elem_of_union, elem_of_singleton, H1. setoid_rewrite lookup_insert_Some. split.
      + intros [->|(j & u & Hj)]; [by eauto|]. exists j, u. right. split; [|done]. intros <-. by apply Hi in Hj.
      + intros (j & u & [[_ ?]|[_ Hj]]); [left; congruence|right; eauto].
    - intros x y u v c. rewrite !lookup_insert_Some.
      intros [[-> Hx]|[_ Hx]] [[-> Hy]|[_ Hy]]; simplify_eq; [done|..|by apply (H2 x y u v c)];
        exfalso; apply Hf, H1; eauto. }
  destruct th as [p hs bd ha]; simpl in *. destruct p; [apply (Hrest true)|]. destruct a; [apply (Hrest true)|by split_and!].
Qed.

(** Whatever the system answers, programs over hashers destroy each hash once and
    leave none behind; a provider is acquired when the first hasher needs it. *)
Theorem hashes_released (ops : list op) :
  let th := foldl (λ th o, exec o th) (Thread false ∅ 0 ∅) ops in
  bad_destroys th = 0 ∧ (∀ c, c ∈ hashes th ↔ ∃ i t, hashers th !! i = Some (t, Some c)) ∧
  (hashers th = ∅ → hashes th = ∅).
Proof.
  intros th. assert (thread_ok th) as (H1 & _ & H3).
  { unfold th. clear th. assert (thread_ok (Thread false ∅ 0 ∅)) as H0.
    { unfold thread_ok; simpl. setoid_rewrite lookup_empty. split_and!; [|done|done]. intros c. split; [set_solver|].
      by intros (? & ? & ?). }
    revert H0. generalize (Thread false ∅ 0 ∅). induction ops as [|o ops IH]; intros th H0; simpl; [done|]. apply IH.
    destruct o as [i t a c|i a c|i]; simpl.
    - case_decide as Hi; [done|]. apply create_ok_step; [done|]. intros u x E. apply Hi. eauto.
    - destruct (hashers th !! i) as [[t x]|] eqn:Hi; [|done]. destruct (clear_ok i t x th H0 Hi) as (th' & Hc & Hok & Hh & _).
      munfold_goal. rewrite Hc. apply create_ok_step; [done|]. intros u y. rewrite Hh, lookup_insert_eq. congruence.
    - destruct (hashers th !! i) as [[t x]|] eqn:Hi; [|done]. destruct (clear_ok i t x th H0 Hi) as (th' & -> & Hok & Hh & _).
      destruct Hok as (H1 & H2 & H3). simpl. rewrite Hh in *. rewrite delete_insert_eq. split_and!; simpl; [|..|done].
      + intros c. rewrite H1. setoid_rewrite lookup_insert_Some. setoid_rewrite lookup_delete_Some. naive_solver.
      + intros p q u v c. rewrite !lookup_delete_Some. intros [? Hp] [? Hq].
        apply (H2 p q u v c); by rewrite lookup_insert_ne. }
  split_and!; [done|done|]. intros He. apply set_eq. intros c. rewrite H1, He. split; [|set_solver].
  by intros (? & ? & ?%lookup_empty_Some).
Qed.
End CryptHandles.

(** ** Contexts of OpenSSL *)

Module EvpHandles.

(** The contexts that exist, how often one was freed that did not, and the hashers
    with their [_mdctx]. *)
Record heap := Heap { contexts : gset nat; bad_frees : nat; hashers : gmap nat (HashType * option nat) }.

Definition EVP_MD_CTX_new (ok : bool) : M heap (option nat) := λ s,
  if ok then (Heap ({[fresh (contexts s)]} ∪ contexts s) (bad_frees s) (hashers s), Ok (Some (fresh (contexts s))))
  else (s, Ok None).
Definition EVP_MD_CTX_free (c : nat) (s : heap) : heap :=
  if decide (c ∈ contexts s) then Heap (contexts s ∖ {[c]}) (bad_frees s) (hashers s)
  else Heap (contexts s) (S (bad_frees s)) (hashers s).

(** [init]; [EVP_DigestInit_ex2] refuses a null context. *)
Definition init (t : HashType) (_mdctx : option nat) (digest_ok : bool) : res () :=
  throw_if (negb (known t)) (NstlException " is invalid");;
  throw_if (negb (bool_decide (is_Some _mdctx) && digest_ok)) (NstlException "EVP_DigestInit_ex2 failed").
(** The constructor; the destructor does not run when [init] throws. *)
Definition construct (i : nat) (t : HashType) (new_ok digest_ok : bool) : M heap () :=
  _mdctx ← EVP_MD_CTX_new new_ok;
  mlift (init t _mdctx digest_ok);;
  mmodify (λ s, Heap (contexts s) (bad_frees s) (<[i := (t, _mdctx)]> (hashers s))).
Definition reset (i : nat) (reset_ok digest_ok : bool) : M heap () :=
  s ← mget;
  match hashers s !! i with
  | None => mthrow (UndefinedBehaviour "no such hasher")
  | Some (t, None) => mthrow (NstlException "Null context cannot be reset")
  | Some (t, Some c) =>
    mthrow_if (negb reset_ok) (NstlException "reset context failed");;
    mlift (init t (Some c) digest_ok)
  end.
Definition destroy (i : nat) : M heap () :=
  s ← mget;
  match hashers s !! i with
  | None => mthrow (UndefinedBehaviour "no such hasher")
  | Some (t, c) =>
    (if c is Some c then mmodify (EVP_MD_CTX_free c) else mret ());;
    mmodify (λ s, Heap (contexts s) (bad_frees s) (delete i (hashers s)))
  end.

Inductive op :=
| New (i : nat) (t : HashType) (new_ok digest_ok : bool)
| Reset (i : nat) (reset_ok digest_ok : bool)
| Delete (i : nat).
Definition exec (o : op) (s : heap) : heap :=
  match o with
  | New i t n d => if decide (is_Some (hashers s !! i)) then s else fst (construct i t n d s)
  | Reset i r d => fst (reset i r d s)
  | Delete i => fst (destroy i s)
  end.
(** A constructor that made a context and then threw. *)
Definition loses (s : heap) (o : op) : bool :=
  match o with
  | New i t n d => negb (bool_decide (is_Some (hashers s !! i))) && n && negb (known t && d)
  | _ => false
  end.

(** The contexts that exist are those of the hashers, each its own, and those in
    [lost]. *)
Definition heap_ok (lost : gset nat) (s : heap) : Prop :=
  (∀ c, c ∈ contexts s ↔ c ∈ lost ∨ ∃ i t, hashers s !! i = Some (t, Some c)) ∧
  (∀ i t c, hashers s !! i = Some (t, Some c) → c ∉ lost) ∧
  (∀ i j t u c, hashers s !! i = Some (t, Some c) → hashers s !! j = Some (u, Some c) → i = j) ∧
  bad_frees s = 0.

Lemma evp_construct_ok lost i t n d s :
  heap_ok lost s → hashers s !! i = None →
  heap_ok (if n && negb (known t && d) then {[fresh (contexts s)]} ∪ lost else lost) (fst (construct i t n d s)).
Proof.
  intros (H1 & H2 & H3 & H4) Hi. unfold construct, EVP_MD_CTX_new, init. munfold_goal.
  pose proof (is_fresh (contexts s)) as Hf. set (c0 := fresh (contexts s)) in *.
  assert (c0 ∉ lost ∧ ∀ j u, hashers s !! j ≠ Some (u, Some c0)) as [Hl Hh].
  { split; [intros ?; apply Hf, H1; by left|]. intros j u Hj. apply Hf, H1. right. eauto. }
  destruct n; simpl; [|by destruct (known t)].
  destruct (known t), d; simpl.
  - split_and!; simpl; [| | |done].
    + intros c. rewrite elem_of_union, elem_of_singleton, H1. setoid_rewrite lookup_insert_Some. split.
      * intros [->|[?|(j & u & Hj)]]; [right; eauto|by left|]. right. exists j, u. right. split; [congruence|done].
      * intros [?|(j & u & [[_ [= <- <-]]|[_ Hj]])]; [auto|auto|]. right. right. eauto.
    + intros j u c. rewrite lookup_insert_Some. intros [[_ [= _ <-]]|[_ Hj]]; [done|eauto].
    + intros a b u v c. rewrite !lookup_insert_Some.
      intros [[-> Ha]|[_ Ha]] [[-> Hb]|[_ Hb]]; simplify_eq; [done|by apply Hh in Hb|by apply Hh in Ha|by apply (H3 a b u v c)].
  - split_and!; simpl; [|intros j u c Hj; apply not_elem_of_union; split; [set_solver|eauto]|done|done].
    intros c. rewrite !elem_of_union, H1. tauto.
  - split_and!; simpl; [|intros j u c Hj; apply not_elem_of_union; split; [set_solver|eauto]|done|done].
    intros c. rewrite !elem_of_union, H1. tauto.
  - split_and!; simpl; [|intros j u c Hj; apply not_elem_of_union; split; [set_solver|eauto]|done|done].
    intros c. rewrite !elem_of_union, H1. tauto.
Qed.
Lemma evp_destroy_ok lost i s : heap_ok lost s → heap_ok lost (fst (destroy i s)).
Proof.
  intros (H1 & H2 & H3 & H4). unfold destroy. munfold_goal. destruct (hashers s !! i) as [[t c]|] eqn:Hi; [|done].
  assert (∀ j u x, delete i (hashers s) !! j = Some (u, Some x) ↔
    (hashers s !! j = Some (u, Some x) ∧ Some x ≠ c)) as Hd.
  { intros j u x. rewrite lookup_delete_Some. split; intros [Ha Hb]; split; try done.
    - intros <-. by apply Ha, (H3 i j t u x).
    - intros <-. congruence. }
  destruct c as [c|]; simpl.
  - unfold EVP_MD_CTX_free. rewrite decide_True by (apply H1; eauto). split_and!; simpl; [| | |done].
    + intros x. rewrite elem_of_difference, elem_of_singleton, H1. setoid_rewrite Hd. split.
      * intros [[?|(j & u & Hj)] Hx]; [by left|]. right. exists j, u. split; [done|congruence].
      * intros [Hx|(j & u & Hj & Hx)]; [|split; [right; eauto|congruence]]. split; [by left|]. intros ->. by apply (H2 i t c).
    + intros j u x. rewrite Hd. intros [Hj _]. eauto.
    + intros a b u v x. rewrite !Hd. intros [Ha _] [Hb _]. by apply (H3 a b u v x).
  - split_and!; simpl; [| | |done].
    + intros x. rewrite H1. setoid_rewrite Hd. naive_solver.
    + intros j u x. rewrite Hd. intros [Hj _]. eauto.
    + intros a b u v x. rewrite !Hd. intros [Ha _] [Hb _]. by apply (H3 a b u v x).
Qed.
Lemma reset_same i r d s : fst (reset i r d s) = s.
Proof.
  unfold reset, init. munfold_goal. destruct (hashers s !! i) as [[t [c|]]|]; [|done..].
  destruct r; simpl; [|done]. destruct (known t); simpl; [|done]. by destruct d.
Qed.

(** How many constructors of a program threw after they had made a context. *)
Fixpoint losses (ops : list op) (s : heap) : nat :=
  match ops with [] => 0 | o :: ops => (if loses s o then 1 else 0) + losses ops (exec o s) end.

Lemma evp_run_ok ops lost s :
  heap_ok lost s →
  ∃ lost', heap_ok lost' (foldl (λ s o, exec o s) s ops) ∧ size lost' = size lost + losses ops s.
Proof.
  revert lost s. induction ops as [|o ops IH]; intros lost s Hs; simpl; [exists lost; split; [done|lia]|].
  assert (∃ l, heap_ok l (exec o s) ∧ size l = size lost + (if loses s o then 1 else 0)) as (l & Hl & El).
  { destruct o as [i t n d|i r d|i]; simpl.
    - case_decide as Hi; [rewrite bool_decide_true by done; exists lost; split; [done|simpl; lia]|].
      rewrite bool_decide_false by done. simpl.
      eexists. split; [apply evp_construct_ok; [done|by apply eq_None_not_Some]|].
      destruct (n && negb (known t && d)); [|lia]. rewrite size_union, size_singleton; [lia|].
      apply disjoint_singleton_l. intros Hf. apply (is_fresh (contexts s)). apply Hs. by left.
    - exists lost. rewrite reset_same. split; [done|lia].
    - exists lost. split; [by apply evp_destroy_ok|lia]. }
  destruct (IH l (exec o s) Hl) as (l' & Hl' & E'). exists l'. split; [done|]. lia.
Qed.

(** Programs over hashers free no context twice, and when all hashers are destroyed as
    many contexts are left as constructors threw after they had made one: those
    are never freed, since the destructor does not run. *)
Theorem contexts_freed (ops : list op) :
  let s := foldl (λ s o, exec o s) (Heap ∅ 0 ∅) ops in
  bad_frees s = 0 ∧ (hashers s = ∅ → size (contexts s) = losses ops (Heap ∅ 0 ∅)).
Proof.
  intros s. destruct (evp_run_ok ops ∅ (Heap ∅ 0 ∅)) as (lost & (H1 & H2 & H3 & H4) & E).
  { unfold heap_ok. simpl. setoid_rewrite lookup_empty. split_and!; try done. intros c. set_solver. }
  fold s in H1, H4. split; [done|]. intros He. rewrite size_empty in E. simpl in E. rewrite <-E. f_equal.
  apply set_eq. intros c. rewrite H1, He. setoid_rewrite lookup_empty. naive_solver.
Qed.
Example failed_constructor_leaks :
  contexts (exec (New 0 (OtherHash 9) true true) (Heap ∅ 0 ∅)) = {[fresh (∅ : gset nat)]}.
Proof. by vm_compute. Qed.
End EvpHandles.
