(* ===== verification/Dns.v ===== *)
(** * DNS queries: dns_tools.hpp, dns_tools.cpp, dns_tools_posix.cpp

    The resolver library of the system is a parameter: what the [n]-th query
    returns, how a message is parsed into records, and the expansion of a
    compressed name.  The decoding of the records is modelled on the bytes. *)

From S2P Require Import Prelude Strings Parse RangePrint IpTools.

Module Dns.

(** ** Data *)

Definition max_host_size : nat := 256.

Inductive IpClass := Ipv4 | Ipv6 | IpvAll.
Record mx_srv := MxSrv { mx_address : str; mx_priority : Z }.
Record gen_srv := GenSrv { srv_address : str; srv_port : Z; srv_priority : Z; srv_weight : Z }.

(** [svcb_param]: the alternatives of the variant, in its order. *)
Inductive svcb_param :=
| NoDefAlpn
| MandatoryKeys (keys : list Z)
| DohPath (path : str)
| Port (port : Z)
| Alpns (alpns : list str)
| Ipv4Hints (ips : list Ip.addr)
| Ipv6Hints (ips : list Ip.addr).

Record gen_svcb := GenSvcb { svcb_address : str; svcb_priority : Z; svcb_params : list svcb_param }.
Inductive SvcbType := Svcb | Https.
Definition svcb_type_value (t : SvcbType) : Z := match t with Svcb => 64 | Https => 65 end.

(** ** dns_tools.cpp *)

(** [detail::stack_name]: the C string in the returned array. *)
Definition stack_name (name : str) : res str :=
  throw_if (View.empty name) (NstlException "name_ cannot be nullptr");;
  throw_if (max_host_size <=? length name)%nat
    (NstlException "Target stack is small (it should be fine: FQDN is 255 bytes maximum)");;
  Ok (cut_nul name).

(** [hostname]: [gethostname] gives the content of the zeroed buffer, or fails. *)
Definition hostname (gethostname : option str) : res str :=
  match gethostname with
  | None => Throw (NstlException "hostname cannot be resolved")
  | Some buffer => Ok (cut_nul buffer)
  end.

(** A node of the list [getaddrinfo] returns. *)
Record addrinfo := AddrInfo { ai_family : option Ip.family; ai_addr : Ip.addr; ai_canonname : option str }.
(** Its outcome: the list, the host is not known, or another error. *)
Inductive gai := GaiOk (l : list addrinfo) | GaiNoName | GaiError.

Section names.
(** The lookup by name, the canonical name wanted or not, and the family. *)
Context (getaddrinfo : str → bool → option Ip.family → gai).

Definition canonical_name (name : str) : res (option str) :=
  n ← stack_name name;
  match getaddrinfo n true None with
  | GaiError => Throw (NstlException "Issues on resolving ")
  | GaiNoName => Ok None
  | GaiOk l => Ok (list_find (λ a, is_Some (ai_canonname a)) l ≫= λ x, ai_canonname (snd x))
  end.

(** The loop of [ips_name]. *)
Fixpoint collect_ips (l : list addrinfo) (retval : option (list Ip.ip_addr_gen))
    : option (list Ip.ip_addr_gen) :=
  match l with
  | [] => retval
  | a :: l =>
    match ai_family a with
    | Some Ip.AF_INET =>
      collect_ips l (Some (default [] retval ++ [Ip.Addr4 (take Ip.ipv4_size (ai_addr a))]))
    | Some Ip.AF_INET6 =>
      collect_ips l (Some (default [] retval ++ [Ip.Addr6 (take Ip.ipv6_size (ai_addr a))]))
    | None => collect_ips l retval
    end
  end.
Definition class_family (c : IpClass) : option Ip.family :=
  match c with Ipv4 => Some Ip.AF_INET | Ipv6 => Some Ip.AF_INET6 | IpvAll => None end.
Definition ips_name (name : str) (c : IpClass) : res (option (list Ip.ip_addr_gen)) :=
  n ← stack_name name;
  match getaddrinfo n false (class_family c) with
  | GaiError => Throw (NstlException "Issues on resolving ")
  | GaiNoName => Ok None
  | GaiOk l => Ok (collect_ips l None)
  end.
End names.

(** [param_visitor] and the stream operator of [gen_svcb]. *)
Section print.
Context (inet_ntop : Ip.family → Ip.addr → option str).

Definition print_num : RangePrint.printer Z := λ os z, os_write os (Parse.print_Z z).
Definition print_ips (f : Ip.family) (ips : list Ip.addr) (os : ostream) : ostream :=
  RangePrint.range_print (Ip.print_addr inet_ntop f) RangePrint.put_str ips (lit ",") os.

Definition quote_str : str := ["034"%char].
Definition print_param (os : ostream) (p : svcb_param) : ostream :=
  match p with
  | NoDefAlpn => os_write os (lit "NO_DEF_ALPN")
  | MandatoryKeys keys =>
    os_write (RangePrint.range_print print_num RangePrint.put_str keys (lit ",")
                (os_write os (lit "KEYS={"))) (lit "}")
  | DohPath doh => os_write (os_write (os_write os (lit "DOH=" ++ quote_str)) doh) quote_str
  | Port port => print_num (os_write os (lit "PORT=")) port
  | Alpns alpns =>
    let os := os_write os (lit "ALPNS={") in
    let os :=
      match alpns with
      | [] => os
      | _ =>
        os_write (RangePrint.range_print RangePrint.put_str RangePrint.put_str alpns
                    (quote_str ++ lit "," ++ quote_str) (os_write os quote_str)) quote_str
      end in
    os_write os (lit "}")
  | Ipv4Hints ips => os_write (print_ips Ip.AF_INET ips (os_write os (lit "IPV4S={"))) (lit "}")
  | Ipv6Hints ips => os_write (print_ips Ip.AF_INET6 ips (os_write os (lit "IPV6S={"))) (lit "}")
  end.
Definition print_svcb (os : ostream) (item : gen_svcb) : ostream :=
  let os := os_write os (svcb_address item) in
  let os := os_write os (lit " ") in
  let os := print_num os (svcb_priority item) in
  let os := os_write os (lit " [") in
  let os := RangePrint.range_print print_param RangePrint.put_str (svcb_params item) (lit " ") os in
  os_write os (lit "]").
End print.

(** ** dns_tools_posix.cpp: the parameters of a service binding *)

(** [ns_get16]: two bytes, the most significant first. *)
Definition ns_get16 (p : bytes) : Z :=
  match p with a :: b :: _ => (a * 256 + b)%Z | _ => 0%Z end.

(** [SvcParamKey]. *)
Definition KEY_MANDATORY : Z := 0.
Definition KEY_ALPN : Z := 1.
Definition KEY_NO_DEF_ALPN : Z := 2.
Definition KEY_PORT : Z := 3.
Definition KEY_IPV4HINT : Z := 4.
Definition KEY_ECH : Z := 5.
Definition KEY_IPV6HINT : Z := 6.
Definition KEY_DOH_PATH : Z := 7.

(** The strings of an ALPN value; [None] when one runs over the end. *)
Fixpoint alpn_loop (fuel : nat) (q : bytes) (alpns : list str) : option (list str) :=
  match fuel with
  | O => Some alpns
  | S fuel =>
    match q with
    | [] => Some alpns
    | l :: q =>
      if (Z.of_nat (length q) <? l)%Z then None
      else alpn_loop fuel (drop (Z.to_nat l) q) (alpns ++ [chr <$> take (Z.to_nat l) q])
    end
  end.

(** The loops [for (uint16_t idx = 0; idx < len; idx += step)]: the pieces of
    the value, with the wrap-around of the index. *)
Fixpoint piece_loop (fuel : nat) (v : bytes) (idx step len : Z) : list bytes :=
  match fuel with
  | O => []
  | S fuel =>
    if (idx <? len)%Z
    then take (Z.to_nat step) (drop (Z.to_nat idx) v) :: piece_loop fuel v (wrap 16 (idx + step)) step len
    else []
  end.
Definition pieces (v : bytes) (step : Z) : list bytes :=
  piece_loop (S (length v)) v 0 step (Z.of_nat (length v)).

(** The switch on the key, for the value [v] of a parameter. *)
Definition resolve_param (key : Z) (v : bytes) : list svcb_param :=
  let len := Z.of_nat (length v) in
  if (key =? KEY_ALPN)%Z then
    match alpn_loop (length v) v [] with Some alpns => [Alpns alpns] | None => [] end
  else if (key =? KEY_PORT)%Z then
    if (len =? 2)%Z then [Port (ns_get16 v)] else []
  else if (key =? KEY_MANDATORY)%Z then
    if (len `mod` 2 =? 0)%Z then [MandatoryKeys (ns_get16 <$> pieces v 2)] else []
  else if (key =? KEY_IPV4HINT)%Z then
    if (len `mod` 4 =? 0)%Z then [Ipv4Hints (pieces v 4)] else []
  else if (key =? KEY_IPV6HINT)%Z then
    if (len `mod` 16 =? 0)%Z then [Ipv6Hints (pieces v 16)] else []
  else if (key =? KEY_NO_DEF_ALPN)%Z then [NoDefAlpn]
  else if (key =? KEY_DOH_PATH)%Z then [DohPath (chr <$> v)]
  else [].

(** The loop over the parameters, from [p] to [end]; each turn consumes four
    bytes at least. *)
Fixpoint params_loop (fuel : nat) (p : bytes) (retval : list svcb_param) : list svcb_param :=
  match fuel with
  | O => retval
  | S fuel =>
    if (4 <=? length p)%nat then
      let key := ns_get16 p in
      let len := ns_get16 (drop 2 p) in
      let p := drop 4 p in
      if (Z.of_nat (length p) <? len)%Z then retval
      else params_loop fuel (drop (Z.to_nat len) p) (retval ++ resolve_param key (take (Z.to_nat len) p))
    else retval
  end.
Definition resolve_params (p : bytes) : list svcb_param := params_loop (S (length p)) p [].

(** ** dns_tools_posix.cpp: the client *)

(** An answer record: its class and type, its data, and where it starts in the
    message. *)
Record ns_rr := NsRr { rr_class : Z; rr_type : Z; rr_rdata : bytes; rr_pos : nat }.
Definition ns_c_in : Z := 1.
Definition ns_t_cname : Z := 5.
Definition ns_t_mx : Z := 15.
Definition ns_t_txt : Z := 16.
Definition ns_t_srv : Z := 33.
Definition buff_size : Z := 4096.

Section client.
(** [res_nquery]: the length of the [n]-th response for a name and type, and its
    bytes. *)
Context (res_nquery : nat → str → Z → Z * bytes).
(** [ns_initparse] with [ns_parserr] of every answer; a record that cannot be
    parsed is [None]. *)
Context (ns_initparse : bytes → option (list (option ns_rr))).
(** [dn_expand] at a position of a message: the bytes the name takes there, and
    the name. *)
Context (dn_expand : bytes → nat → option (Z * str)).

(** The client: the size of its buffer, and the queries made so far. *)
Record DnsClient := Client { _response : Z; _queries : nat }.
Definition new_client : DnsClient := Client buff_size 0.

(** The loop of [_process_item]: the response that fits the buffer. *)
Fixpoint query_loop (fuel : nat) (name : str) (type : Z) : M DnsClient (option bytes) :=
  match fuel with
  | O => mthrow (UndefinedBehaviour "query_loop: out of fuel")
  | S fuel =>
    c ← mget;
    let '(length, data) := res_nquery (_queries c) name type in
    mput (Client (_response c) (S (_queries c)));;
    if (length <=? 0)%Z then mret None
    else if (_response c <=? length)%Z then
      mmodify (λ c, Client (length + 1) (_queries c));;
      query_loop fuel name type
    else mret (Some (take (Z.to_nat length) data))
  end.

(** A response is shorter than 2^16 bytes, and a turn that repeats makes the
    buffer larger. *)
Definition query_fuel : nat := Z.to_nat (2 ^ 16 + 1).

(** [_process_item] and the loop of its callback: the records of the wanted
    class and type that the callback can decode, in order.  [None] is
    [std::nullopt]. *)
Definition wanted (type : Z) (r : option ns_rr) : option ns_rr :=
  match r with
  | Some r => if (rr_class r =? ns_c_in)%Z && (rr_type r =? type)%Z then Some r else None
  | None => None
  end.
Fixpoint records_loop {A} (type : Z) (decode : ns_rr → option A) (rs : list (option ns_rr))
    (retval : option (list A)) : option (list A) :=
  match rs with
  | [] => retval
  | r :: rs =>
    match wanted type r ≫= decode with
    | Some a => records_loop type decode rs (Some (default [] retval ++ [a]))
    | None => records_loop type decode rs retval
    end
  end.
Definition _process_item {A} (name : str) (type : Z) (decode : bytes → ns_rr → option A)
    : M DnsClient (option (list A)) :=
  response ← query_loop query_fuel name type;
  match response with
  | None => mret None
  | Some message =>
    match ns_initparse message with
    | None => mret None
    | Some rs => mret (records_loop type (decode message) rs None)
    end
  end.

(** [std::string{ buffer, strnlen(buffer, n) }] of a name [dn_expand] wrote. *)
Definition strn (name : str) (n : Z) : str := take (Z.to_nat n) (cut_nul name).

Definition decode_mx (message : bytes) (r : ns_rr) : option mx_srv :=
  if (length (rr_rdata r) <? 3)%nat then None
  else
    match dn_expand message (rr_pos r + 2) with
    | None => None
    | Some (expanded_length, item_name) =>
      Some (MxSrv (strn item_name expanded_length) (ns_get16 (rr_rdata r)))
    end.

(** The strings of a TXT record, concatenated. *)
Fixpoint txt_loop (fuel : nat) (p : bytes) (item : str) : option str :=
  match fuel with
  | O => Some item
  | S fuel =>
    match p with
    | [] => Some item
    | text_len :: p =>
      if (Z.of_nat (length p) <? text_len)%Z then None
      else txt_loop fuel (drop (Z.to_nat text_len) p) (item ++ (chr <$> take (Z.to_nat text_len) p))
    end
  end.
Definition decode_txt (message : bytes) (r : ns_rr) : option str :=
  txt_loop (length (rr_rdata r)) (rr_rdata r) [].

Definition decode_cname (message : bytes) (r : ns_rr) : option str :=
  match dn_expand message (rr_pos r) with
  | None => None
  | Some (len, item_name) => Some (strn item_name len)
  end.

Definition decode_srv (message : bytes) (r : ns_rr) : option gen_srv :=
  if (length (rr_rdata r) <=? 6)%nat then None
  else
    match dn_expand message (rr_pos r + 6) with
    | None => None
    | Some (len, item_name) =>
      Some (GenSrv (strn item_name len) (ns_get16 (drop 4 (rr_rdata r)))
              (ns_get16 (rr_rdata r)) (ns_get16 (drop 2 (rr_rdata r))))
    end.

Definition decode_svcb (message : bytes) (r : ns_rr) : option gen_svcb :=
  if (length (rr_rdata r) <? 2)%nat then None
  else
    match dn_expand message (rr_pos r + 2) with
    | None => None
    | Some (buff_n, buffer) =>
      let name := cut_nul buffer in
      let address := match name with [] => lit "." | _ => name end in
      Some (GenSvcb address (ns_get16 (rr_rdata r)) (resolve_params (drop (2 + Z.to_nat buff_n) (rr_rdata r))))
    end.

(** The lookups of the client. *)
Definition mx_name (name : str) : M DnsClient (option (list mx_srv)) := _process_item name ns_t_mx decode_mx.
Definition txt_name (name : str) : M DnsClient (option (list str)) := _process_item name ns_t_txt decode_txt.
Definition c_name (name : str) : M DnsClient (option (list str)) := _process_item name ns_t_cname decode_cname.
Definition srv_name (name : str) : M DnsClient (option (list gen_srv)) := _process_item name ns_t_srv decode_srv.
Definition svcb_name (name : str) (type : SvcbType) : M DnsClient (option (list gen_svcb)) :=
  let tgt_type := svcb_type_value type in
  _process_item name tgt_type decode_svcb.
End client.

(** ** The wire format of the parameters (RFC 9460) *)

Definition put16 (z : Z) : bytes := [z / 256; z `mod` 256]%Z.
Definition counted (s : str) : bytes := Z.of_nat (length s) :: (code <$> s).

Definition param_key (p : svcb_param) : Z :=
  match p with
  | NoDefAlpn => KEY_NO_DEF_ALPN
  | MandatoryKeys _ => KEY_MANDATORY
  | DohPath _ => KEY_DOH_PATH
  | Port _ => KEY_PORT
  | Alpns _ => KEY_ALPN
  | Ipv4Hints _ => KEY_IPV4HINT
  | Ipv6Hints _ => KEY_IPV6HINT
  end.
Definition param_value (p : svcb_param) : bytes :=
  match p with
  | NoDefAlpn => []
  | MandatoryKeys keys => keys ≫= put16
  | DohPath path => code <$> path
  | Port port => put16 port
  | Alpns alpns => alpns ≫= counted
  | Ipv4Hints ips => concat ips
  | Ipv6Hints ips => concat ips
  end.

Definition u16 (z : Z) : Prop := (0 ≤ z < 2 ^ 16)%Z.
Definition param_ok (p : svcb_param) : Prop :=
  (Z.of_nat (length (param_value p)) < 2 ^ 16)%Z ∧
  match p with
  | MandatoryKeys keys => Forall u16 keys
  | Port port => u16 port
  | Alpns alpns => Forall (λ a, length a < 256) alpns
  | Ipv4Hints ips => Forall (λ a, length a = 4) ips
  | Ipv6Hints ips => Forall (λ a, length a = 16) ips
  | _ => True
  end.

(** What a record may hold: a parameter, or one the client does not know. *)
Inductive wire_item := Known (p : svcb_param) | Unknown (key : Z) (v : bytes).
Definition item_key (i : wire_item) : Z := match i with Known p => param_key p | Unknown k _ => k end.
Definition item_value (i : wire_item) : bytes :=
  match i with Known p => param_value p | Unknown _ v => v end.
Definition item_ok (i : wire_item) : Prop :=
  match i with
  | Known p => param_ok p
  | Unknown k v => u16 k ∧ (Z.of_nat (length v) < 2 ^ 16)%Z ∧ (k = KEY_ECH ∨ KEY_DOH_PATH < k)%Z
  end.
Definition item_params (i : wire_item) : list svcb_param :=
  match i with Known p => [p] | Unknown _ _ => [] end.
Definition wire (i : wire_item) : bytes :=
  put16 (item_key i) ++ put16 (Z.of_nat (length (item_value i))) ++ item_value i.

Lemma ns_get16_put16 z rest : u16 z → ns_get16 (put16 z ++ rest) = z.
Proof. intros. unfold put16; simpl. pose proof (Z.div_mod z 256). lia. Qed.

Lemma piece_loop_concat step l : (0 < step)%Z → Forall (λ b, Z.of_nat (length b) = step) l →
  ∀ fuel pre, length l < fuel → (Z.of_nat (length (pre ++ concat l)) < 2 ^ 16)%Z →
  piece_loop fuel (pre ++ concat l) (Z.of_nat (length pre)) step (Z.of_nat (length (pre ++ concat l))) = l.
Proof.
  intros Hs Hl. induction Hl as [|b l Hb Hl IH]; intros fuel pre Hf Hlen.
  - destruct fuel as [|fuel]; [simpl in Hf; lia|]. simpl. rewrite app_nil_r.
    by rewrite Z.ltb_irrefl.
  - destruct fuel as [|fuel]; [simpl in Hf; lia|]. cbn [piece_loop concat] in *.
    rewrite !length_app in *. rewrite (proj2 (Z.ltb_lt _ _)) by lia.
    rewrite Nat2Z.id, drop_app_length, take_app_length' by lia. f_equal.
    unfold wrap. rewrite Z.mod_small by lia.
    replace (Z.of_nat (length pre) + step)%Z with (Z.of_nat (length (pre ++ b)))
      by (rewrite length_app; lia).
    rewrite app_assoc. specialize (IH fuel (pre ++ b)). rewrite !length_app in *.
    rewrite Nat.add_assoc in *. apply IH; simpl in *; lia.
Qed.

Lemma pieces_concat step l :
  (0 < step)%Z → Forall (λ b, Z.of_nat (length b) = step) l → (Z.of_nat (length (concat l)) < 2 ^ 16)%Z →
  pieces (concat l) step = l.
Proof.
  intros Hs Hl Hlen. unfold pieces. apply (piece_loop_concat step l Hs Hl _ []); [|done].
  apply Nat.lt_succ_r. clear Hlen. induction Hl as [|b l Hb Hl IH]; simpl; [lia|].
  rewrite length_app. lia.
Qed.

Lemma concat_mod step (l : list bytes) :
  (0 < step)%Z → Forall (λ b, Z.of_nat (length b) = step) l →
  (Z.of_nat (length (concat l)) `mod` step =? 0)%Z = true.
Proof.
  intros Hs Hl. apply Z.eqb_eq. induction Hl as [|b l Hb Hl IH]; simpl; [by apply Z.mod_0_l; lia|].
  rewrite length_app, Nat2Z.inj_add, Hb.
  replace (step + Z.of_nat (length (concat l)))%Z with (Z.of_nat (length (concat l)) + 1 * step)%Z by lia.
  by rewrite Z_mod_plus_full.
Qed.

Lemma alpn_loop_counted alpns : Forall (λ a, length a < 256) alpns →
  ∀ fuel acc, length alpns ≤ fuel → alpn_loop fuel (alpns ≫= counted) acc = Some (acc ++ alpns).
Proof.
  induction 1 as [|a alpns Ha Hl IH]; intros fuel acc Hf; csimpl.
  - rewrite app_nil_r. by destruct fuel.
  - destruct fuel as [|fuel]; [simpl in Hf; lia|]. simpl.
    rewrite length_app, length_fmap, (proj2 (Z.ltb_ge _ _)) by lia.
    rewrite Nat2Z.id, drop_app_length', take_app_length' by (by rewrite length_fmap).
    rewrite chr_codes, IH by (simpl in Hf; lia). by rewrite <-app_assoc.
Qed.

Lemma resolve_param_value p : param_ok p → resolve_param (param_key p) (param_value p) = [p].
Proof.
  intros [Hlen Hp]. destruct p as [|keys|path|port|alpns|ips|ips]; unfold resolve_param; simpl in *.
  - done.
  - assert (keys ≫= put16 = concat (put16 <$> keys)) as E
      by (clear; induction keys as [|k keys IH]; csimpl; [done|by rewrite IH]).
    rewrite E in *.
    assert (Forall (λ b, Z.of_nat (length b) = 2%Z) (put16 <$> keys)) as H2
      by (apply Forall_fmap, Forall_true; done).
    rewrite pieces_concat by (done || lia).
    rewrite concat_mod by (done || lia).
    do 2 f_equal. rewrite <-list_fmap_compose. clear -Hp. induction Hp as [|k keys Hk Hp IH]; csimpl; [done|].
    rewrite IH. f_equal. apply (ns_get16_put16 k []). done.
  - do 2 f_equal. apply chr_codes.
  - do 2 f_equal. apply (ns_get16_put16 port []). done.
  - rewrite alpn_loop_counted; [done|done|]. clear. induction alpns as [|a alpns IH]; csimpl; [done|].
    rewrite length_app. lia.
  - assert (Forall (λ b, Z.of_nat (length b) = 4%Z) ips) as H4
      by (eapply list.Forall_impl; [done|]; intros ? ->; done).
    by rewrite pieces_concat, concat_mod by (done || lia).
  - assert (Forall (λ b, Z.of_nat (length b) = 16%Z) ips) as H16
      by (eapply list.Forall_impl; [done|]; intros ? ->; done).
    by rewrite pieces_concat, concat_mod by (done || lia).
Qed.

Lemma resolve_item i :
  item_ok i → resolve_param (item_key i) (item_value i) = item_params i ∧
    u16 (item_key i) ∧ (Z.of_nat (length (item_value i)) < 2 ^ 16)%Z.
Proof.
  destruct i as [p|k v]; simpl.
  - intros Hp. split; [by apply resolve_param_value|]. split; [|apply Hp].
    destruct p; by unfold u16.
  - intros (Hk & Hv & Hu). split; [|done]. unfold resolve_param, KEY_ECH, KEY_DOH_PATH in *.
    unfold KEY_ALPN, KEY_PORT, KEY_MANDATORY, KEY_IPV4HINT, KEY_IPV6HINT, KEY_NO_DEF_ALPN, KEY_DOH_PATH.
    by rewrite !(proj2 (Z.eqb_neq k _)) by lia.
Qed.

(** A fragment that holds no whole parameter. *)
Definition incomplete (tail : bytes) : bool :=
  (length tail <? 4)%nat || (Z.of_nat (length tail - 4) <? ns_get16 (drop 2 tail))%Z.

Lemma params_loop_wire items tail : Forall item_ok items → incomplete tail = true →
  ∀ fuel acc, length items < fuel →
  params_loop fuel ((items ≫= wire) ++ tail) acc = acc ++ (items ≫= item_params).
Proof.
  intros Hi Ht. induction Hi as [|i items Hok Hi IH]; intros fuel acc Hf.
  - cbn [mbind list_bind app]. destruct fuel as [|fuel]; [simpl in Hf; lia|]. cbn [params_loop]. rewrite app_nil_r.
    unfold incomplete in Ht. destruct (Nat.leb_spec 4 (length tail)); [|done].
    rewrite (proj2 (Nat.ltb_ge _ _)) in Ht by done. rewrite orb_false_l in Ht. by rewrite length_drop, Ht.
  - destruct fuel as [|fuel]; [simpl in Hf; lia|].
    destruct (resolve_item i Hok) as (Hr & Hk & Hv).
    change ((i :: items) ≫= wire) with (wire i ++ (items ≫= wire)).
    change ((i :: items) ≫= item_params) with (item_params i ++ (items ≫= item_params)).
    unfold wire at 1.
    set (v := item_value i) in *. set (rest := (items ≫= wire) ++ tail) in *.
    rewrite <-!app_assoc. fold rest. cbn [params_loop].
    assert (∀ a b x, (4 <=? length (put16 a ++ put16 b ++ x))%nat = true) as -> by done.
    rewrite ns_get16_put16 by done.
    change (drop 2 (put16 (item_key i) ++ ?x)) with x.
    change (drop 4 (put16 (item_key i) ++ put16 ?l ++ ?x)) with x.
    rewrite ns_get16_put16 by (unfold u16; lia).
    rewrite (proj2 (Z.ltb_ge (Z.of_nat (length (v ++ rest))) (Z.of_nat (length v))))
      by (rewrite length_app; lia).
    rewrite Nat2Z.id, drop_app_length, take_app_length, Hr. rewrite IH by (simpl in Hf; lia).
    by rewrite app_assoc.
Qed.

Lemma resolve_params_wire items tail :
  Forall item_ok items → incomplete tail = true →
  resolve_params ((items ≫= wire) ++ tail) = items ≫= item_params.
Proof.
  intros Hi Ht. unfold resolve_params. rewrite params_loop_wire; [done|done|done|].
  apply Nat.lt_succ_r. rewrite length_app. clear Ht Hi.
  induction items as [|i items IH]; csimpl; [lia|]. rewrite length_app. lia.
Qed.

(** C6: the parameters of a service binding are read back from their wire form
    (RFC 9460): every well-formed parameter of the record is returned, in order,
    parameters with unknown keys are passed over, and an incomplete fragment at
    the end is ignored.  The 16-bit indices of the loops do not wrap around. *)
Theorem resolve_params_roundtrip (items : list wire_item) (tail : bytes) :
  Forall item_ok items → incomplete tail = true →
  resolve_params ((items ≫= wire) ++ tail) = items ≫= item_params.
Proof. apply resolve_params_wire. Qed.

Lemma resolve_params_roundtrip_witness :
  resolve_params (([Known (Port 443); Unknown 5 [1; 2]%Z; Known (Alpns [lit "h2"; lit "h3"]);
                    Known (Ipv4Hints [[10; 0; 0; 1]%Z])] ≫= wire) ++ [0; 3; 0; 2; 1]%Z) =
  [Port 443; Alpns [lit "h2"; lit "h3"]; Ipv4Hints [[10; 0; 0; 1]%Z]].
Proof.
  apply (resolve_params_roundtrip
    [Known (Port 443); Unknown 5 [1; 2]%Z; Known (Alpns [lit "h2"; lit "h3"]);
     Known (Ipv4Hints [[10; 0; 0; 1]%Z])] [0; 3; 0; 2; 1]%Z); [|reflexivity].
  repeat constructor; simpl; try lia.
Defined.

(** The strings of a TXT record. *)
Lemma txt_loop_spec fuel : ∀ p item s,
  Forall u8 p → length p ≤ fuel →
  txt_loop fuel p item = Some s ↔
  ∃ chunks, Forall (λ c, length c < 256) chunks ∧ p = chunks ≫= counted ∧ s = item ++ concat chunks.
Proof.
  induction fuel as [|fuel IH]; intros p item s Hp Hf.
  - destruct p; [|simpl in Hf; lia]. simpl. split.
    + intros [= <-]. exists []. by rewrite app_nil_r.
    + intros (chunks & _ & Hc & ->). destruct chunks; [|done]. by rewrite app_nil_r.
  - destruct p as [|l p]; simpl.
    { split.
      - intros [= <-]. exists []. by rewrite app_nil_r.
      - intros (chunks & _ & Hc & ->). destruct chunks; [|done]. by rewrite app_nil_r. }
    apply list.Forall_cons in Hp as [Hl Hp]. unfold u8 in Hl.
    destruct (Z.ltb_spec (Z.of_nat (length p)) l) as [Hlt|Hge].
    { split; [done|]. intros ([|c chunks] & _ & Hc & _); csimpl in Hc; [done|].
      injection Hc as -> ->. rewrite length_app, length_fmap in Hlt. lia. }
    rewrite IH; [|by apply Forall_drop|rewrite length_drop; simpl in Hf; lia]. split.
    + intros (chunks & Hc & Hd & ->).
      exists ((chr <$> take (Z.to_nat l) p) :: chunks). csimpl. split; [|split].
      * constructor; [|done]. rewrite length_fmap, length_take. lia.
      * f_equal; [rewrite length_fmap, length_take; lia|]. rewrite <-Hd.
        rewrite codes_chr by (by apply Forall_take). by rewrite take_drop.
      * by rewrite <-app_assoc.
    + intros ([|c chunks] & Hc & Hd & ->); csimpl in Hd; [done|].
      injection Hd as -> ->. rewrite Nat2Z.id, drop_app_length', take_app_length' by (by rewrite length_fmap).
      apply list.Forall_cons in Hc as [_ Hc]. exists chunks. split_and!; [done..|].
      rewrite chr_codes. simpl. by rewrite <-app_assoc.
Qed.

Section properties.
Context (res_nquery : nat → str → Z → Z * bytes).
Context (ns_initparse : bytes → option (list (option ns_rr))).
Context (dn_expand : bytes → nat → option (Z * str)).

(** A TXT record is decoded exactly when its data is a sequence of counted
    strings, and the result is their concatenation; any other record is
    dropped. *)
Theorem decode_txt_correct (message : bytes) (r : ns_rr) (s : str) :
  Forall u8 (rr_rdata r) →
  decode_txt message r = Some s ↔
  ∃ chunks, Forall (λ c, length c < 256) chunks ∧ rr_rdata r = chunks ≫= counted ∧ s = concat chunks.
Proof. intros Hu. unfold decode_txt. by rewrite txt_loop_spec. Qed.

(** The loop over the records keeps those that are wanted and can be decoded. *)
Lemma records_loop_spec {A} type (decode : ns_rr → option A) rs retval :
  records_loop type decode rs retval =
  match omap (λ r, wanted type r ≫= decode) rs with
  | [] => retval
  | l => Some (default [] retval ++ l)
  end.
Proof.
  revert retval. induction rs as [|r rs IH]; intros retval; csimpl; [done|].
  destruct (wanted type r ≫= decode) as [a|]; rewrite IH; [|done].
  destruct (omap _ rs); simpl; [by rewrite ?app_nil_r|]. by rewrite <-app_assoc.
Qed.

(** DNS messages are shorter than 2^16 bytes. *)
Context (short : ∀ n name type, (fst (res_nquery n name type) < 2 ^ 16)%Z).

(** Between the states [c] and [c'] the name was queried, and the last response,
    when there is one, fits the buffer. *)
Definition queried (name : str) (type : Z) (c c' : DnsClient) (r : option bytes) : Prop :=
  (_response c ≤ _response c')%Z ∧ _queries c < _queries c' ∧
  let '(len, data) := res_nquery (pred (_queries c')) name type in
  if decide (0 < len)%Z then (len < _response c')%Z ∧ r = Some (take (Z.to_nat len) data) else r = None.

Lemma query_loop_total name type fuel c :
  0 < fuel → (2 ^ 16 - _response c < Z.of_nat fuel)%Z →
  ∃ c' r, query_loop res_nquery fuel name type c = (c', Ok r) ∧ queried name type c c' r.
Proof using short.
  revert c. induction fuel as [|fuel IH]; intros c H0 Hf; [lia|]. cbn [query_loop]. munfold_goal.
  pose proof (short (_queries c) name type) as Hs.
  destruct (res_nquery (_queries c) name type) as [len data] eqn:Eq; cbn [fst] in Hs.
  destruct (Z.leb_spec len 0); simpl.
  { eexists _, _. split; [done|]. unfold queried. simpl. rewrite Eq. split_and!; [lia..|].
    by rewrite decide_False by lia. }
  destruct (Z.leb_spec (_response c) len); simpl.
  - destruct (IH (Client (len + 1) (S (_queries c)))) as (c' & r & -> & Hr & Hq & Hl); [lia|simpl; lia|].
    eexists _, _. split; [done|]. simpl in Hr, Hq. split_and!; [lia..|done].
  - eexists _, _. split; [done|]. unfold queried. simpl. rewrite Eq. split_and!; [lia..|].
    by rewrite decide_True by lia.
Qed.

Lemma query_fuel_value : Z.of_nat query_fuel = 65537%Z.
Proof. unfold query_fuel. by rewrite Z2Nat.id. Qed.

(** The answer to a lookup: nothing when there is no response, it cannot be parsed or
    no record is usable, else the decoded records of the wanted class and type. *)
Definition answer {A} (type : Z) (decode : bytes → ns_rr → option A) (r : option bytes) : option (list A) :=
  message ← r; rs ← ns_initparse message;
  match omap (λ x, wanted type x ≫= decode message) rs with [] => None | l => Some l end.

(** A lookup always comes to an end, since a response that does not fit makes the
    buffer larger; its result is the answer of the last response. *)
Lemma process_item_total {A} (name : str) (type : Z) (decode : bytes → ns_rr → option A) (c : DnsClient) :
  (0 ≤ _response c)%Z →
  ∃ c' r, _process_item res_nquery ns_initparse name type decode c = (c', Ok (answer type decode r)) ∧
    queried name type c c' r.
Proof using short.
  intros H0. unfold _process_item.
  pose proof query_fuel_value as Hq. revert Hq. generalize query_fuel. intros fuel Hq.
  unfold mbind, M_bind.
  destruct (query_loop_total name type fuel c) as (c' & r & -> & Hc); [lia..|].
  exists c', r. split; [|done]. destruct r as [message|]; [|done]. unfold answer. simpl.
  destruct (ns_initparse message) as [rs|]; [|done]. simpl. rewrite records_loop_spec. by destruct (omap _ rs).
Qed.

(** The host name of an MX, CNAME or SRV record is cut to as many characters
    as the name takes in the message.  For a name that is compressed there, the
    result is a proper prefix of the name. *)
Theorem compressed_name_cut (message : bytes) (r : ns_rr) (n : Z) (name : str) :
  (0 ≤ n)%Z → "000"%char ∉ name →
  (dn_expand message (rr_pos r) = Some (n, name) →
     decode_cname dn_expand message r = Some (take (Z.to_nat n) name)) ∧
  (dn_expand message (rr_pos r + 2) = Some (n, name) → 3 ≤ length (rr_rdata r) →
     ∃ m, decode_mx dn_expand message r = Some m ∧ mx_address m = take (Z.to_nat n) name) ∧
  (dn_expand message (rr_pos r + 6) = Some (n, name) → 6 < length (rr_rdata r) →
     ∃ m, decode_srv dn_expand message r = Some m ∧ srv_address m = take (Z.to_nat n) name) ∧
  (dn_expand message (rr_pos r + 2) = Some (n, name) → 2 ≤ length (rr_rdata r) → name ≠ [] →
     ∃ m, decode_svcb dn_expand message r = Some m ∧ svcb_address m = name) ∧
  (take (Z.to_nat n) name = name ↔ (Z.of_nat (length name) ≤ n)%Z).
Proof.
  intros Hn Hnul. unfold decode_cname, decode_mx, decode_srv, decode_svcb, strn.
  split_and!.
  - intros ->. by rewrite cut_nul_plain.
  - intros -> Hl. rewrite (proj2 (Nat.ltb_ge _ _)) by lia. rewrite cut_nul_plain by done. by eexists.
  - intros -> Hl. rewrite (proj2 (Nat.leb_gt _ _)) by lia. rewrite cut_nul_plain by done. by eexists.
  - intros -> Hl Hne. rewrite (proj2 (Nat.ltb_ge _ _)) by lia. rewrite cut_nul_plain by done.
    eexists. split; [done|]. simpl. by destruct name.
  - split; [|intros; apply take_ge; lia]. intros E. apply (f_equal length) in E.
    rewrite length_take in E. lia.
Qed.
End properties.

(** ** Concrete instances *)

(** A resolver that answers every query with one response. *)
Definition one_record : ns_rr := NsRr 1 15 [0; 10; 192; 12]%Z 40.
Definition sample_query (n : nat) (name : str) (type : Z) : Z * bytes := (60, replicate 60 0)%Z.
Definition sample_parse (message : bytes) : option (list (option ns_rr)) := Some [Some one_record; None].
(** The name is a pointer of two bytes to a name elsewhere in the message. *)
Definition sample_expand (message : bytes) (pos : nat) : option (Z * str) := Some (2%Z, lit "mail.example.com").

Lemma decode_txt_correct_witness :
  decode_txt [] (NsRr 1 16 [2; 104; 105; 1; 33]%Z 0) = Some (lit "hi!") ↔
  ∃ chunks, Forall (λ c, length c < 256) chunks ∧
    [2; 104; 105; 1; 33]%Z = chunks ≫= counted ∧ lit "hi!" = concat chunks.
Proof.
  apply (decode_txt_correct [] (NsRr 1 16 [2; 104; 105; 1; 33]%Z 0) (lit "hi!")).
  apply (bool_decide_eq_true_1 _). vm_compute. reflexivity.
Defined.

Lemma compressed_name_cut_witness :
  ∃ m, decode_mx sample_expand [] one_record = Some m ∧ mx_address m = lit "ma".
Proof.
  apply (compressed_name_cut sample_expand [] one_record 2 (lit "mail.example.com"));
    [lia| |reflexivity|simpl; lia].
  apply (bool_decide_eq_true_1 _). vm_compute. reflexivity.
Defined.
End Dns.
