(* ===== verification/DnsThreads.v ===== *)
(** * Lookups from many threads: dns_tools_posix.cpp

    [DnsClient::instance] keeps a client per thread.  [Threads] models the clients of
    all threads with the resolver state each of them initialises and closes, the public
    lookups over them, and any interleaving of lookups and ends of threads. *)

From S2P Require Import Prelude Strings Dns.
Import Dns.

Module DnsThreads.

(** What a thread has: its client once it was constructed, how often the construction
    was tried, and the resolver states that are initialised and not closed. *)
Record thread := Thread { ins : option DnsClient; tries : nat; states : Z }.
Definition new_thread : thread := Thread None 0 0.

(** The answers of [res_ninit] and of the allocation of the buffer. *)
Record setup := Setup { res_ninit_ok : bool; resize_ok : bool }.

Section thread.
(** The answers one thread gets: to its attempts to construct the client, and to the
    queries of the client. *)
Context (res_ninit : nat → setup).
Context (res_nquery : nat → str → Z → Z * bytes).
Context (ns_initparse : bytes → option (list (option ns_rr))).
Context (dn_expand : bytes → nat → option (Z * str)).

(** [DnsClient::DnsClient]; the destructor does not run when the buffer cannot be
    allocated. *)
Definition construct : M thread DnsClient :=
  t ← mget;
  mput (Thread None (S (tries t)) (states t));;
  let a := res_ninit (tries t) in
  mthrow_if (negb (res_ninit_ok a)) (NstlException "Resolver initialize failed");;
  mmodify (λ t, Thread (ins t) (tries t) (states t + 1));;
  mthrow_if (negb (resize_ok a)) BadAlloc;;
  mmodify (λ t, Thread (Some new_client) (tries t) (states t));;
  mret new_client.
(** [DnsClient::instance]: constructed at the first use, again after a constructor
    that threw. *)
Definition instance : M thread DnsClient :=
  t ← mget;
  match ins t with Some c => mret c | None => construct end.
(** [~DnsClient], at the end of the thread. *)
Definition destruct_client (t : thread) : thread :=
  match ins t with Some _ => Thread None (tries t) (states t - 1) | None => t end.

(** A member function called on the client. *)
Definition on_client {A} (f : M DnsClient A) : M thread A :=
  c ← instance;
  let '(c, r) := f c in
  mmodify (λ t, Thread (Some c) (tries t) (states t));;
  mlift r.

Definition mx_name (name_ : str) : M thread (option (list mx_srv)) :=
  name ← mlift (stack_name name_);
  on_client (Dns.mx_name res_nquery ns_initparse dn_expand name).
Definition txt_name (name_ : str) : M thread (option (list str)) :=
  name ← mlift (stack_name name_);
  on_client (Dns.txt_name res_nquery ns_initparse name).
Definition c_name (name_ : str) : M thread (option (list str)) :=
  name ← mlift (stack_name name_);
  on_client (Dns.c_name res_nquery ns_initparse dn_expand name).
Definition srv_name (name_ : str) : M thread (option (list gen_srv)) :=
  name ← mlift (stack_name name_);
  on_client (Dns.srv_name res_nquery ns_initparse dn_expand name).
Definition svcb_name (name_ : str) (type_ : SvcbType) : M thread (option (list gen_svcb)) :=
  name ← mlift (stack_name name_);
  on_client (Dns.svcb_name res_nquery ns_initparse dn_expand name type_).

(** A lookup and its result. *)
Inductive question := Mx | Txt | CName | Srv | SvcbOf (type : SvcbType).
Inductive reply :=
  | MxReply (r : option (list mx_srv)) | TxtReply (r : option (list str)) | CNameReply (r : option (list str))
  | SrvReply (r : option (list gen_srv)) | SvcbReply (r : option (list gen_svcb)).
Definition ask (q : question) (name : str) : M thread reply :=
  match q with
  | Mx => r ← mx_name name; mret (MxReply r)
  | Txt => r ← txt_name name; mret (TxtReply r)
  | CName => r ← c_name name; mret (CNameReply r)
  | Srv => r ← srv_name name; mret (SrvReply r)
  | SvcbOf type => r ← svcb_name name type; mret (SvcbReply r)
  end.

(** ** What a lookup returns *)

(** The reply the last response determines. *)
Definition question_type (q : question) : Z :=
  match q with
  | Mx => ns_t_mx | Txt => ns_t_txt | CName => ns_t_cname | Srv => ns_t_srv | SvcbOf type => svcb_type_value type
  end.
Definition reply_of (q : question) (response : option bytes) : reply :=
  match q with
  | Mx => MxReply (answer ns_initparse ns_t_mx (decode_mx dn_expand) response)
  | Txt => TxtReply (answer ns_initparse ns_t_txt decode_txt response)
  | CName => CNameReply (answer ns_initparse ns_t_cname (decode_cname dn_expand) response)
  | Srv => SrvReply (answer ns_initparse ns_t_srv (decode_srv dn_expand) response)
  | SvcbOf type => SvcbReply (answer ns_initparse (svcb_type_value type) (decode_svcb dn_expand) response)
  end.

(** The states a thread lost to constructors that threw after [res_ninit]. *)
Fixpoint lost (n : nat) : Z :=
  match n with
  | O => 0
  | S n => lost n + (if res_ninit_ok (res_ninit n) && negb (resize_ok (res_ninit n)) then 1 else 0)
  end.
(** Every state that is open belongs to the client of the thread or was lost. *)
Definition thread_ok (t : thread) : Prop :=
  match ins t with Some c => (0 ≤ _response c)%Z | None => True end ∧
  states t = (lost (tries t) + (if ins t then 1 else 0))%Z.

Context (short : ∀ n name type, (fst (res_nquery n name type) < 2 ^ 16)%Z).

(** How one lookup ends: the name is refused before anything is done; or the client has
    to be constructed and that throws, leaving the thread without one; or the reply is
    the one of the last response to the queries made. *)
Definition lookup_ends (q : question) (name : str) (t t' : thread) (r : res reply) : Prop :=
  match stack_name name with
  | Throw e => t' = t ∧ r = Throw e
  | Ok n =>
    let a := res_ninit (tries t) in
    if negb (bool_decide (is_Some (ins t))) && negb (res_ninit_ok a && resize_ok a) then
      ins t' = None ∧ r = Throw (if res_ninit_ok a then BadAlloc else NstlException "Resolver initialize failed")
    else
      ∃ c c' response, c = default new_client (ins t) ∧ ins t' = Some c' ∧
        queried res_nquery n (question_type q) c c' response ∧ r = Ok (reply_of q response)
  end.

Lemma on_client_ends {A} (f : M DnsClient A) (P : DnsClient → DnsClient → A → Prop) t :
  thread_ok t →
  (∀ c, (0 ≤ _response c)%Z → ∃ c' x, f c = (c', Ok x) ∧ (_response c ≤ _response c')%Z ∧ P c c' x) →
  let a := res_ninit (tries t) in
  ∃ t' r, on_client f t = (t', r) ∧ thread_ok t' ∧
    if negb (bool_decide (is_Some (ins t))) && negb (res_ninit_ok a && resize_ok a) then
      ins t' = None ∧ r = Throw (if res_ninit_ok a then BadAlloc else NstlException "Resolver initialize failed")
    else ∃ c', ins t' = Some c' ∧ ∃ x, r = Ok x ∧ P (default new_client (ins t)) c' x.
Proof.
  intros [Hc Hs] Hf. destruct t as [[c|] n st]; simpl in *.
  - unfold on_client, instance. munfold_goal. destruct (Hf c Hc) as (c' & x & -> & Hr & HP). simpl.
    eexists _, _. split; [done|]. unfold thread_ok. simpl. split; [split; lia|]. eauto.
  - unfold on_client, instance, construct. munfold_goal.
    destruct (res_ninit n) as [[] []] eqn:E; simpl.
    + destruct (Hf new_client) as (c' & x & -> & Hr & HP); [done|]. change (_response new_client) with 4096%Z in Hr. simpl.
      eexists _, _. split; [done|]. unfold thread_ok. simpl in *. rewrite E. simpl. split; [split; lia|]. eauto.
    + eexists _, _. split; [done|]. unfold thread_ok. simpl. rewrite E. simpl. by split; [split; [|lia]|].
    + eexists _, _. split; [done|]. unfold thread_ok. simpl. rewrite E. simpl. by split; [split; [|lia]|].
    + eexists _, _. split; [done|]. unfold thread_ok. simpl. rewrite E. simpl. by split; [split; [|lia]|].
Qed.

Lemma item_ends {A} (type : Z) (decode : bytes → ns_rr → option A) (K : option (list A) → reply) name t :
  thread_ok t →
  ∃ t' r, (name ← mlift (stack_name name);
           r ← on_client (_process_item res_nquery ns_initparse name type decode); mret (K r)) t = (t', r) ∧
    thread_ok t' ∧
    match stack_name name with
    | Throw e => t' = t ∧ r = Throw e
    | Ok n =>
      let a := res_ninit (tries t) in
      if negb (bool_decide (is_Some (ins t))) && negb (res_ninit_ok a && resize_ok a) then
        ins t' = None ∧ r = Throw (if res_ninit_ok a then BadAlloc else NstlException "Resolver initialize failed")
      else
        ∃ c c' response, c = default new_client (ins t) ∧ ins t' = Some c' ∧
          queried res_nquery n type c c' response ∧ r = Ok (K (answer ns_initparse type decode response))
    end.
Proof using short.
  intros Ht. munfold_goal. destruct (stack_name name) as [n|e]; simpl; [|by eexists _, _].
  destruct (on_client_ends (_process_item res_nquery ns_initparse n type decode)
    (λ c c' x, ∃ response, queried res_nquery n type c c' response ∧ x = answer ns_initparse type decode response)
    t Ht) as (t' & r & -> & Ht' & Hr).
  { intros c Hc. destruct (process_item_total res_nquery ns_initparse short n type decode c Hc) as (c' & m & -> & Hq).
    eexists _, _. split; [done|]. split; [apply Hq|]. eauto. }
  cbv zeta in Hr. destruct (negb _ && negb _).
  - destruct Hr as [Hi ->]. by eexists _, _.
  - destruct Hr as (c' & Hi & x & -> & response & Hq & ->). eexists _, _. split; [done|]. split; [done|]. eauto 10.
Qed.

Lemma ask_ends q name t :
  thread_ok t → ∃ t' r, ask q name t = (t', r) ∧ thread_ok t' ∧ lookup_ends q name t t' r.
Proof using short.
  intros Ht. unfold ask, lookup_ends.
  destruct q as [| | | |type]; simpl;
    [ destruct (item_ends ns_t_mx (decode_mx dn_expand) MxReply name t Ht) as (t' & r & E & H)
    | destruct (item_ends ns_t_txt decode_txt TxtReply name t Ht) as (t' & r & E & H)
    | destruct (item_ends ns_t_cname (decode_cname dn_expand) CNameReply name t Ht) as (t' & r & E & H)
    | destruct (item_ends ns_t_srv (decode_srv dn_expand) SrvReply name t Ht) as (t' & r & E & H)
    | destruct (item_ends (svcb_type_value type) (decode_svcb dn_expand) SvcbReply name t Ht) as (t' & r & E & H) ];
    exists t', r; (split; [|exact H]); rewrite <-E;
    unfold mx_name, txt_name, c_name, srv_name, svcb_name; munfold_goal; by destruct (stack_name name).
Qed.

Lemma destruct_ok t : thread_ok t → thread_ok (destruct_client t) ∧ ins (destruct_client t) = None.
Proof. intros [Hc Hs]. destruct t as [[c|] n st]; unfold thread_ok, destruct_client in *; simpl in *; split_and!; (done || lia). Qed.
End thread.

(** ** All threads of a process *)

Section process.
(** The answers each thread gets. *)
Context (res_ninit : nat → nat → setup).
Context (res_nquery : nat → nat → str → Z → Z * bytes).
Context (ns_initparse : bytes → option (list (option ns_rr))).
Context (dn_expand : bytes → nat → option (Z * str)).

(** A thread makes a lookup or ends. *)
Inductive event := Ask (t : nat) (q : question) (name : str) | End (t : nat).
Definition event_thread (e : event) : nat := match e with Ask t _ _ => t | End t => t end.
Abbreviation process := (gmap nat thread).
Definition thread_of (p : process) (t : nat) : thread := default new_thread (p !! t).

Definition step (p : process) (e : event) : process * option (res reply) :=
  match e with
  | Ask t q name =>
    let '(s, r) := ask (res_ninit t) (res_nquery t) ns_initparse dn_expand q name (thread_of p t) in
    (<[t := s]> p, Some r)
  | End t => (<[t := destruct_client (thread_of p t)]> p, None)
  end.
Definition run (p : process) (es : list event) : process := foldl (λ p e, fst (step p e)) p es.
(** What one thread did. *)
Definition own (t : nat) (es : list event) : list event := filter (λ e, event_thread e = t) es.

Lemma thread_of_insert p t s u : thread_of (<[t := s]> p) u = if decide (t = u) then s else thread_of p u.
Proof.
  unfold thread_of. destruct (decide (t = u)) as [->|Hne].
  - by rewrite lookup_insert_eq.
  - by rewrite lookup_insert_ne.
Qed.

Lemma step_local p p' e t :
  thread_of p (event_thread e) = thread_of p' (event_thread e) → thread_of p t = thread_of p' t →
  thread_of (fst (step p e)) t = thread_of (fst (step p' e)) t.
Proof.
  intros He Ht. destruct e as [u q name|u]; simpl in *; rewrite He.
  - destruct (ask _ _ _ _ _ _ _) as [s r]. simpl. rewrite !thread_of_insert. by destruct (decide _).
  - rewrite !thread_of_insert. by destruct (decide _).
Qed.
Lemma step_frame p e t : event_thread e ≠ t → thread_of (fst (step p e)) t = thread_of p t.
Proof.
  intros Hne. destruct e as [u q name|u]; simpl in *;
    [destruct (ask _ _ _ _ _ _ _) as [s r]; simpl|]; by rewrite thread_of_insert, decide_False.
Qed.

Lemma run_own p p' t es :
  thread_of p t = thread_of p' t → thread_of (run p es) t = thread_of (run p' (own t es)) t.
Proof.
  revert p p'. induction es as [|e es IH]; intros p p' Hp; [done|]. unfold run, own in *. simpl.
  destruct (decide (event_thread e = t)) as [He|He].
  - rewrite filter_cons_True by done. simpl. apply IH. apply step_local; [by rewrite He|done].
  - rewrite filter_cons_False by done. apply IH. by rewrite step_frame.
Qed.

Context (short : ∀ t n name type, (fst (res_nquery t n name type) < 2 ^ 16)%Z).

Lemma threads_step_ok p e : (∀ t, thread_ok (res_ninit t) (thread_of p t)) →
  ∀ t, thread_ok (res_ninit t) (thread_of (fst (step p e)) t).
Proof using short.
  intros Hp t. destruct e as [u q name|u]; simpl.
  - destruct (ask_ends (res_ninit u) (res_nquery u) ns_initparse dn_expand (short u) q name (thread_of p u) (Hp u))
      as (s & r & -> & Hs & _). simpl. rewrite thread_of_insert. by destruct (decide (u = t)) as [<-|].
  - rewrite thread_of_insert. destruct (decide (u = t)) as [<-|]; [|done]. by apply destruct_ok.
Qed.
Lemma threads_run_ok es p : (∀ t, thread_ok (res_ninit t) (thread_of p t)) →
  ∀ t, thread_ok (res_ninit t) (thread_of (run p es) t).
Proof using short. revert p. induction es as [|e es IH]; intros p Hp; [done|]. apply IH. by apply threads_step_ok. Qed.

End process.

(** The resolver fails for the second thread at first. *)
Definition sample_setup (t n : nat) : setup := Setup (bool_decide (t = 0 ∨ 0 < n)) true.
End DnsThreads.
