(* ===== verification/DnsWin.v ===== *)
(** * The Windows resolver: dns_tools_w32.cpp

    The queries over the record lists that [DnsQuery_UTF8] and [DnsQueryEx]
    allocate.  The system is a parameter: the answer to a query, and the
    conversion of a name to wide characters.  The lists live in a store until
    [DnsFree] releases them. *)

From S2P Require Import Prelude Strings Parse IpTools Raii Dns.

Module DnsWin.
Import Dns.

(** ** The data of windns.h *)

Definition DNS_TYPE_CNAME : Z := 5.
Definition DNS_TYPE_MX : Z := 15.
Definition DNS_TYPE_TEXT : Z := 16.
Definition DNS_TYPE_SRV : Z := 33.
Definition DNS_TYPE_SVCB : Z := 64.
Definition DNS_TYPE_HTTPS : Z := 65.

(** [DNS_SVCB_PARAM]: the key and the member of the union that is set.  Arrays
    come with the count the structure gives. *)
Inductive param_data :=
| PMandatory (cMandatoryKeys : Z) (rgwMandatoryKeys : list Z)
| PAlpn (cIds : Z) (rgIds : list (Z * str))
| PIpv4Hints (cIps : Z) (rgIps : list bytes)
| PIpv6Hints (cIps : Z) (rgIps : list bytes)
| PPort (wPort : Z)
| PDohPath (pszDohPath : str)
| PNone.
Record DNS_SVCB_PARAM := SvcbParam { wSvcParamKey : Z; param : param_data }.
Record DNS_SVCB_DATA := SvcbData {
  wSvcPriority : Z;
  pszTargetName : str;
  cSvcParams : Z;
  pSvcParams : list DNS_SVCB_PARAM;
}.
(** The union [Data] of a record, by the member that is set. *)
Inductive record_data :=
| DMX (pNameExchange : str) (wPreference : Z)
| DTXT (dwStringCount : Z) (pStringArray : list str)
| DCNAME (pNameHost : str)
| DSRV (pNameTarget : str) (wPriority wWeight wPort : Z)
| DSvcb (d : DNS_SVCB_DATA)
| DOther.
Record DNS_RECORD := DnsRecord { wType : Z; Data : record_data }.

(** The record lists that were allocated and not freed. *)
Record store := Store { lists : gmap nat (list DNS_RECORD); next_id : nat }.

Definition bad_union {A} : res A := Throw (UndefinedBehaviour "member of the union that is not set").

(** A loop [for (WORD idx = 0; idx < count; ++idx)] over an array. *)
Fixpoint array_loop {A B} (f : A → res B) (count : nat) (l : list A) : res (list B) :=
  match count with
  | O => Ok []
  | S count =>
    match l with
    | [] => Throw (UndefinedBehaviour "read behind an array")
    | x :: l => y ← f x; r ← array_loop f count l; Ok (y :: r)
    end
  end.
Definition for_each {A B} (f : A → res B) (count : Z) (l : list A) : res (list B) :=
  array_loop f (Z.to_nat count) l.

(** ** Conversions *)

(** [convert_param]; [None] is a key that is not handled. *)
Definition convert_param (p : DNS_SVCB_PARAM) : res (option svcb_param) :=
  let key := wSvcParamKey p in
  if (key =? KEY_MANDATORY)%Z then
    match param p with
    | PMandatory n l => keys ← for_each Ok n l; Ok (Some (MandatoryKeys keys))
    | _ => bad_union
    end
  else if (key =? KEY_ALPN)%Z then
    match param p with
    | PAlpn n l =>
      alpns ← for_each (λ x, if (Z.of_nat (length (snd x)) <? fst x)%Z
                              then Throw (UndefinedBehaviour "read behind an array")
                              else Ok (take (Z.to_nat (fst x)) (snd x))) n l;
      Ok (Some (Alpns alpns))
    | _ => bad_union
    end
  else if (key =? KEY_NO_DEF_ALPN)%Z then Ok (Some NoDefAlpn)
  else if (key =? KEY_PORT)%Z then
    match param p with PPort port => Ok (Some (Port port)) | _ => bad_union end
  else if (key =? KEY_DOH_PATH)%Z then
    match param p with PDohPath s => Ok (Some (DohPath (cut_nul s))) | _ => bad_union end
  else if (key =? KEY_IPV4HINT)%Z then
    match param p with
    | PIpv4Hints n l => ips ← for_each (λ ip, Ok (take Ip.ipv4_size ip)) n l; Ok (Some (Ipv4Hints ips))
    | _ => bad_union
    end
  else if (key =? KEY_IPV6HINT)%Z then
    match param p with
    | PIpv6Hints n l => ips ← for_each (λ ip, Ok (take Ip.ipv6_size ip)) n l; Ok (Some (Ipv6Hints ips))
    | _ => bad_union
    end
  else Ok None.

Definition convert_data (d : DNS_SVCB_DATA) : res gen_svcb :=
  params ← for_each convert_param (cSvcParams d) (pSvcParams d);
  Ok (GenSvcb (cut_nul (pszTargetName d)) (wSvcPriority d) (omap id params)).

Definition get_type_id (t : SvcbType) : Z :=
  match t with Svcb => DNS_TYPE_SVCB | Https => DNS_TYPE_HTTPS end.

(** What each function makes of a record of its type. *)
Definition convert_mx (d : record_data) : res mx_srv :=
  match d with DMX name pref => Ok (MxSrv (cut_nul name) pref) | _ => bad_union end.
Definition convert_txt (d : record_data) : res str :=
  match d with
  | DTXT n l => parts ← for_each (λ s, Ok (cut_nul s)) n l; Ok (concat parts)
  | _ => bad_union
  end.
Definition convert_cname (d : record_data) : res str :=
  match d with DCNAME name => Ok (cut_nul name) | _ => bad_union end.
Definition convert_srv (d : record_data) : res gen_srv :=
  match d with
  | DSRV name prio weight port => Ok (GenSrv (cut_nul name) port prio weight)
  | _ => bad_union
  end.
Definition convert_svcb (d : record_data) : res gen_svcb :=
  match d with DSvcb d => convert_data d | _ => bad_union end.

(** ** Queries *)

Section client.
(** [DnsQuery_UTF8] and [DnsQueryEx]: whether the status is zero, and the list,
    which may be null. *)
Context (DnsQuery_UTF8 : str → Z → bool * option (list DNS_RECORD)).
Context (DnsQueryEx : list Z → Z → bool * option (list DNS_RECORD)).
(** [MultiByteToWideChar(CP_UTF8, …)]: the wide characters, none on failure. *)
Context (MultiByteToWideChar : str → list Z).

(** The list a query allocates, as an owned pointer. *)
Definition allocate (l : option (list DNS_RECORD)) : M store (option nat) := λ s,
  match l with
  | None => (s, Ok None)
  | Some l => (Store (<[next_id s := l]> (lists s)) (S (next_id s)), Ok (Some (next_id s)))
  end.
(** [~DnsRecordPtr]. *)
Definition DnsFree (ptr : option nat) (s : store) : store :=
  match ptr with Some i => Store (delete i (lists s)) (next_id s) | None => s end.

(** The tail of the three [get_results] functions: the pointer is owned before the
    status is looked at. *)
Definition take_results (status_ok : bool) (l : option (list DNS_RECORD)) : M store (option nat) :=
  retval ← allocate l;
  if status_ok then mret retval else mmodify (DnsFree retval);; mret None.

Definition get_results (name : str) (type : Z) : M store (option nat) :=
  name ← mlift (stack_name name);
  let '(status, result) := DnsQuery_UTF8 name type in
  take_results status result.

Definition wide_nul (w : list Z) : list Z := default w ((λ x, take (fst x) w) <$> list_find (.= 0%Z) w).
(** [get_results_ex] of a terminated wide string. *)
Definition get_results_wide (buffer : list Z) (type : Z) : M store (option nat) :=
  let '(status, result) := DnsQueryEx (wide_nul buffer) type in
  take_results status result.
(** [get_results_ex] of a view. *)
Definition get_results_ex (name : str) (type : Z) : M store (option nat) :=
  mthrow_if (View.empty name) (NstlException "empty / nullptr cannot be resolved");;
  let w := MultiByteToWideChar name in
  mthrow_if (Z.of_nat (length w) <=? 0)%Z (NstlException " cannot be converted to wchar_t");;
  get_results_wide (w ++ [0%Z]) type.

(** The loop over [pNext]. *)
Fixpoint list_loop {A} (type : Z) (convert : record_data → res A) (l : list DNS_RECORD)
    (retval : option (list A)) : res (option (list A)) :=
  match l with
  | [] => Ok retval
  | r :: l =>
    if negb (wType r =? type)%Z then list_loop type convert l retval
    else
      value ← convert (Data r);
      list_loop type convert l (Some (default [] retval ++ [value]))
  end.
(** The body of a query: the list is freed when the owner goes out of scope. *)
Definition with_results {A} (type : Z) (convert : record_data → res A) (results : option nat)
    : M store (option (list A)) :=
  ScopeExit.on_scope_exit (DnsFree results) (
    s ← mget;
    match results with
    | None => mret None
    | Some i =>
      match lists s !! i with
      | Some l => mlift (list_loop type convert l None)
      | None => mthrow (UndefinedBehaviour "use of a freed record list")
      end
    end).

Definition mx_name (name : str) : M store (option (list mx_srv)) :=
  results ← get_results name DNS_TYPE_MX; with_results DNS_TYPE_MX convert_mx results.
Definition txt_name (name : str) : M store (option (list str)) :=
  results ← get_results name DNS_TYPE_TEXT; with_results DNS_TYPE_TEXT convert_txt results.
Definition c_name (name : str) : M store (option (list str)) :=
  results ← get_results name DNS_TYPE_CNAME; with_results DNS_TYPE_CNAME convert_cname results.
Definition srv_name (name : str) : M store (option (list gen_srv)) :=
  results ← get_results name DNS_TYPE_SRV; with_results DNS_TYPE_SRV convert_srv results.
Definition svcb_name (name : str) (type : SvcbType) : M store (option (list gen_svcb)) :=
  let dns_type := get_type_id type in
  results ← get_results_ex name dns_type; with_results dns_type convert_svcb results.
End client.

(** ** What the system promises about its lists *)

Definition array_ok {A} (n : Z) (l : list A) : bool := (n =? Z.of_nat (length l))%Z.
Definition param_set (p : DNS_SVCB_PARAM) : bool :=
  match param p with
  | PMandatory n l => (wSvcParamKey p =? KEY_MANDATORY)%Z && array_ok n l
  | PAlpn n l =>
    (wSvcParamKey p =? KEY_ALPN)%Z && array_ok n l && forallb (λ x, array_ok (fst x) (snd x)) l
  | PIpv4Hints n l => (wSvcParamKey p =? KEY_IPV4HINT)%Z && array_ok n l
  | PIpv6Hints n l => (wSvcParamKey p =? KEY_IPV6HINT)%Z && array_ok n l
  | PPort _ => (wSvcParamKey p =? KEY_PORT)%Z
  | PDohPath _ => (wSvcParamKey p =? KEY_DOH_PATH)%Z
  | PNone =>
    (wSvcParamKey p =? KEY_NO_DEF_ALPN)%Z || (wSvcParamKey p =? KEY_ECH)%Z || (KEY_DOH_PATH <? wSvcParamKey p)%Z
  end.
(** The member of the union that belongs to the type is set, with arrays as long
    as their counts say. *)
Definition record_set (r : DNS_RECORD) : bool :=
  match Data r with
  | DMX _ _ => (wType r =? DNS_TYPE_MX)%Z
  | DTXT n l => (wType r =? DNS_TYPE_TEXT)%Z && array_ok n l
  | DCNAME _ => (wType r =? DNS_TYPE_CNAME)%Z
  | DSRV _ _ _ _ => (wType r =? DNS_TYPE_SRV)%Z
  | DSvcb d =>
    ((wType r =? DNS_TYPE_SVCB)%Z || (wType r =? DNS_TYPE_HTTPS)%Z) &&
    array_ok (cSvcParams d) (pSvcParams d) && forallb param_set (pSvcParams d)
  | DOther =>
    forallb (λ t, negb (wType r =? t)%Z)
      [DNS_TYPE_MX; DNS_TYPE_TEXT; DNS_TYPE_CNAME; DNS_TYPE_SRV; DNS_TYPE_SVCB; DNS_TYPE_HTTPS]
  end.

Lemma array_loop_total {A B} (f : A → res B) (g : A → B) l :
  Forall (λ x, f x = Ok (g x)) l → array_loop f (length l) l = Ok (g <$> l).
Proof.
  induction 1 as [|x l Hx _ IH]; [done|]. cbn [array_loop length]. munfold_goal. rewrite Hx. simpl. by rewrite IH.
Qed.
Lemma for_each_total {A B} (f : A → res B) (g : A → B) n l :
  array_ok n l = true → Forall (λ x, f x = Ok (g x)) l → for_each f n l = Ok (g <$> l).
Proof. intros Hn%Z.eqb_eq Hl. unfold for_each. rewrite Hn, Nat2Z.id. by apply array_loop_total. Qed.
Lemma for_each_pure {A B} (g : A → B) n l : array_ok n l = true → for_each (λ x, Ok (g x)) n l = Ok (g <$> l).
Proof. intros Hn. apply for_each_total; [done|]. by apply list.Forall_true. Qed.

Lemma Forall_forallb {A} (f : A → bool) l : forallb f l = true → Forall (λ x, f x = true) l.
Proof. intros H. apply list.Forall_forall. intros x Hx. eapply forallb_forall; [done|]. by apply list_elem_of_In. Qed.

(** The value of a parameter whose member is set. *)
Definition param_of (p : DNS_SVCB_PARAM) : option svcb_param :=
  match param p with
  | PMandatory _ l => Some (MandatoryKeys l)
  | PAlpn _ l => Some (Alpns (snd <$> l))
  | PIpv4Hints _ l => Some (Ipv4Hints (take Ip.ipv4_size <$> l))
  | PIpv6Hints _ l => Some (Ipv6Hints (take Ip.ipv6_size <$> l))
  | PPort port => Some (Port port)
  | PDohPath s => Some (DohPath (cut_nul s))
  | PNone => if (wSvcParamKey p =? KEY_NO_DEF_ALPN)%Z then Some NoDefAlpn else None
  end.

Lemma convert_param_set p : param_set p = true → convert_param p = Ok (param_of p).
Proof.
  unfold param_set, convert_param, param_of. destruct p as [key d]; simpl.
  destruct d as [n l|n l|n l|n l|port|doh|]; simpl; intros H;
    repeat (apply andb_true_iff in H as [H ?]); try (apply Z.eqb_eq in H; subst key); simpl; munfold_goal.
  - rewrite (for_each_pure id) by done. by rewrite list_fmap_id.
  - rewrite (for_each_total _ snd n l); [done|done|].
    eapply list.Forall_impl; [by apply Forall_forallb|]. intros [k t]; simpl. intros ->%Z.eqb_eq.
    by rewrite Z.ltb_irrefl, Nat2Z.id, firstn_all.
  - by rewrite (for_each_pure (take Ip.ipv4_size)).
  - by rewrite (for_each_pure (take Ip.ipv6_size)).
  - done.
  - done.
  - unfold KEY_NO_DEF_ALPN, KEY_ECH, KEY_DOH_PATH, KEY_MANDATORY, KEY_ALPN, KEY_PORT, KEY_IPV4HINT, KEY_IPV6HINT in *.
    repeat case_match; try done; lia.
Qed.

Lemma convert_data_set d :
  array_ok (cSvcParams d) (pSvcParams d) = true → forallb param_set (pSvcParams d) = true →
  convert_data d = Ok (GenSvcb (cut_nul (pszTargetName d)) (wSvcPriority d) (omap param_of (pSvcParams d))).
Proof.
  intros Hn Hp. unfold convert_data. munfold_goal. rewrite (for_each_total _ param_of); [|done|].
  - by rewrite omap_id_fmap.
  - eapply list.Forall_impl; [by apply Forall_forallb|]. apply convert_param_set.
Qed.

(** A conversion meets the member it reads. *)
Definition reads {A} (type : Z) (convert : record_data → res A) : Prop :=
  ∀ r, record_set r = true → wType r = type → ∃ v, convert (Data r) = Ok v.

Lemma reads_all :
  reads DNS_TYPE_MX convert_mx ∧ reads DNS_TYPE_TEXT convert_txt ∧ reads DNS_TYPE_CNAME convert_cname ∧
  reads DNS_TYPE_SRV convert_srv ∧ ∀ t, reads (get_type_id t) convert_svcb.
Proof.
  split_and!; [..|intros t]; intros [ty d]; unfold record_set; simpl; intros H Ht; subst ty;
    destruct d as [name pref|n l|name|name p w q|d|]; try (discriminate H || (destruct t; discriminate H));
    simpl in *; eauto.
  - munfold_goal. rewrite (for_each_pure cut_nul) by done. simpl. eauto.
  - apply andb_true_iff in H as [[_ H1]%andb_true_iff H2]. rewrite convert_data_set by done. eauto.
Qed.

Lemma list_loop_total {A} type (convert : record_data → res A) l acc :
  reads type convert → Forall (λ r, record_set r = true) l →
  ∃ vs, Forall2 (λ r v, convert (Data r) = Ok v) (filter (λ r, wType r = type) l) vs ∧
    list_loop type convert l acc =
    Ok (match vs with [] => acc | _ => Some (default [] acc ++ vs) end).
Proof.
  intros Hc Hl. revert acc. induction Hl as [|r l Hr _ IH]; intros acc.
  { exists []. by rewrite filter_nil. }
  rewrite filter_cons. cbn [list_loop]. destruct (Z.eqb_spec (wType r) type) as [Et|Et]; simpl.
  - rewrite decide_True by done. destruct (Hc r Hr Et) as [v Hv]. munfold_goal. rewrite Hv.
    destruct (IH (Some (default [] acc ++ [v]))) as (vs & Hvs & ->).
    exists (v :: vs). split; [by constructor|]. destruct vs; simpl; by rewrite <-?(assoc_L (++)).
  - rewrite decide_False by done. apply IH.
Qed.

(** ** Correctness *)

Definition store_ok (s : store) : Prop := ∀ i, next_id s ≤ i → lists s !! i = None.

(** What a query comes to, given the answer of the system (or the exception of the
    checks before it): the records of the type, converted and in their order, and
    no list left behind. *)
Definition query_result {A} (answer : res (bool * option (list DNS_RECORD))) (type : Z)
    (convert : record_data → res A) (s : store) (out : store * res (option (list A))) : Prop :=
  lists (fst out) = lists s ∧
  match answer with
  | Throw e => snd out = Throw e
  | Ok (true, Some l) =>
    ∃ vs, Forall2 (λ r v, convert (Data r) = Ok v) (filter (λ r, wType r = type) l) vs ∧
      snd out = Ok (match vs with [] => None | _ => Some vs end)
  | Ok _ => snd out = Ok None
  end.

Definition answer_set (answer : bool * option (list DNS_RECORD)) : Prop :=
  match snd answer with Some l => Forall (λ r, record_set r = true) l | None => True end.

Lemma take_results_query {A} answer type (convert : record_data → res A) s :
  store_ok s → answer_set answer → reads type convert →
  query_result (Ok answer) type convert s
    ((results ← take_results (fst answer) (snd answer); with_results type convert results) s).
Proof.
  intros Hs Ha Hc. destruct answer as [status [l|]]; unfold query_result, take_results, allocate; simpl in *.
  - assert (Hd : delete (next_id s) (<[next_id s := l]> (lists s)) = lists s).
    { rewrite delete_insert_eq. by apply delete_id, Hs. }
    destruct status; unfold with_results, ScopeExit.on_scope_exit; munfold_goal; [|by rewrite Hd].
    rewrite lookup_insert_eq. destruct (list_loop_total type convert l None Hc Ha) as (vs & Hvs & ->). simpl.
    split; [done|]. exists vs. split; [done|]. by destruct vs.
  - by destruct status.
Qed.

Section correctness.
Context (DnsQuery_UTF8 : str → Z → bool * option (list DNS_RECORD)).
Context (DnsQueryEx : list Z → Z → bool * option (list DNS_RECORD)).
Context (MultiByteToWideChar : str → list Z).
(** The system sets the union member of each record's type. *)
Context (utf8_set : ∀ name type, answer_set (DnsQuery_UTF8 name type)).
Context (ex_set : ∀ name type, answer_set (DnsQueryEx name type)).

Definition asked (name : str) (type : Z) : res (bool * option (list DNS_RECORD)) :=
  n ← stack_name name; Ok (DnsQuery_UTF8 n type).
Definition asked_wide (name : str) (type : Z) : res (bool * option (list DNS_RECORD)) :=
  throw_if (View.empty name) (NstlException "empty / nullptr cannot be resolved");;
  throw_if (length (MultiByteToWideChar name) =? 0)%nat (NstlException " cannot be converted to wchar_t");;
  Ok (DnsQueryEx (wide_nul (MultiByteToWideChar name ++ [0%Z])) type).

Lemma get_results_query {A} name type (convert : record_data → res A) s :
  store_ok s → reads type convert →
  query_result (asked name type) type convert s
    ((results ← get_results DnsQuery_UTF8 name type; with_results type convert results) s).
Proof.
  intros Hs Hc. pose proof (λ n, take_results_query _ type convert s Hs (utf8_set n type) Hc) as H.
  unfold asked, get_results. munfold. destruct (stack_name name) as [n|e]; [|done].
  specialize (H n). by destruct (DnsQuery_UTF8 n type).
Qed.

Lemma get_results_ex_query {A} name type (convert : record_data → res A) s :
  store_ok s → reads type convert →
  query_result (asked_wide name type) type convert s
    ((results ← get_results_ex DnsQueryEx MultiByteToWideChar name type; with_results type convert results) s).
Proof.
  intros Hs Hc. set (w := MultiByteToWideChar name).
  pose proof (take_results_query _ type convert s Hs (ex_set (wide_nul (w ++ [0%Z])) type) Hc) as H.
  unfold asked_wide, get_results_ex, get_results_wide. munfold. fold w. destruct (View.empty name); [done|].
  destruct w as [|x w']; [done|]. simpl in *. by destruct (DnsQueryEx _ type).
Qed.

(** C17: every query of the Windows resolver returns the records of its type that
    the system answered, converted and in order ([nullopt] when there are none or
    the query failed), or the exception of the checks on the name; it never reads a
    member of a record that is not set nor behind an array, and frees the record
    list on every path. *)
Theorem win_queries_correct (name : str) (t : SvcbType) (s : store) :
  store_ok s →
  query_result (asked name DNS_TYPE_MX) DNS_TYPE_MX convert_mx s (mx_name DnsQuery_UTF8 name s) ∧
  query_result (asked name DNS_TYPE_TEXT) DNS_TYPE_TEXT convert_txt s (txt_name DnsQuery_UTF8 name s) ∧
  query_result (asked name DNS_TYPE_CNAME) DNS_TYPE_CNAME convert_cname s (c_name DnsQuery_UTF8 name s) ∧
  query_result (asked name DNS_TYPE_SRV) DNS_TYPE_SRV convert_srv s (srv_name DnsQuery_UTF8 name s) ∧
  query_result (asked_wide name (get_type_id t)) (get_type_id t) convert_svcb s
    (svcb_name DnsQueryEx MultiByteToWideChar name t s).
Proof.
  intros Hs. destruct reads_all as (Hmx & Htxt & Hc & Hsrv & Hsvcb).
  split_and!; [by apply get_results_query..|]. by apply get_results_ex_query.
Qed.
End correctness.

(** ** Agreement with the POSIX resolver *)

(** The structure the system makes of a parameter of the wire. *)
Definition system_param (i : wire_item) : DNS_SVCB_PARAM :=
  SvcbParam (item_key i)
    (match i with
     | Known (MandatoryKeys keys) => PMandatory (Z.of_nat (length keys)) keys
     | Known (Alpns alpns) =>
       PAlpn (Z.of_nat (length alpns)) ((λ a, (Z.of_nat (length a), a)) <$> alpns)
     | Known (Ipv4Hints ips) => PIpv4Hints (Z.of_nat (length ips)) ips
     | Known (Ipv6Hints ips) => PIpv6Hints (Z.of_nat (length ips)) ips
     | Known (Port port) => PPort port
     | Known (DohPath path) => PDohPath (path ++ ["000"%char])
     | Known NoDefAlpn | Unknown _ _ => PNone
     end).
Definition doh_plain (i : wire_item) : Prop :=
  match i with Known (DohPath path) => "000"%char ∉ path | _ => True end.

Lemma system_param_set i : item_ok i → param_set (system_param i) = true.
Proof.
  destruct i as [[|keys|path|port|alpns|ips|ips]|k v]; unfold param_set, array_ok; simpl;
    rewrite ?length_fmap, ?Z.eqb_refl; try done.
  - intros _. apply forallb_forall. intros x (a & -> & _)%list_elem_of_In%list_elem_of_fmap. by rewrite Z.eqb_refl.
  - intros (_ & _ & [->|Hk]); [done|]. rewrite (proj2 (Z.ltb_lt _ _) Hk). by rewrite orb_true_r.
Qed.

Lemma cut_nul_terminated s : "000"%char ∉ s → cut_nul (s ++ ["000"%char]) = s.
Proof.
  induction s as [|c s IH]; [done|]. intros [Hc Hs]%not_elem_of_cons. simpl. rewrite decide_False by done. by rewrite IH.
Qed.

Lemma take_whole {A} n (l : list (list A)) : Forall (λ a, length a = n) l → take n <$> l = l.
Proof. induction 1 as [|a l Ha _ IH]; csimpl; [done|]. rewrite IH. by rewrite take_ge by lia. Qed.

Lemma system_param_of i : item_ok i → doh_plain i → option_list (param_of (system_param i)) = item_params i.
Proof.
  destruct i as [[|keys|path|port|alpns|ips|ips]|k v]; unfold param_of; simpl; try done.
  - intros _ Hp. by rewrite cut_nul_terminated.
  - intros _ _. rewrite <-list_fmap_compose. do 2 f_equal. apply list_fmap_id.
  - intros [_ Hl] _. by rewrite take_whole.
  - intros [_ Hl] _. by rewrite take_whole.
  - intros (_ & _ & [->|Hk]) _; [done|]. unfold KEY_DOH_PATH, KEY_NO_DEF_ALPN in *.
    by rewrite (proj2 (Z.eqb_neq k 2)) by lia.
Qed.

(** C25: the two resolvers agree on the parameters of a service binding: what the
    Windows code makes of the structures the system decodes from a record is what
    the POSIX code reads from the bytes of that record, key by key and in order. *)
Theorem svcb_params_agree (name : str) (priority : Z) (items : list wire_item) :
  Forall item_ok items → Forall doh_plain items →
  ∃ r, convert_data (SvcbData priority name (Z.of_nat (length items)) (system_param <$> items)) = Ok r ∧
    svcb_params r = resolve_params (items ≫= wire) ∧ svcb_priority r = priority.
Proof.
  intros Hi Hd. rewrite convert_data_set; simpl.
  - eexists. split; [done|]. split; [|done]. simpl. rewrite <-(app_nil_r (items ≫= wire)).
    rewrite resolve_params_wire by done. induction Hi as [|i items Hi _ IH]; csimpl; [done|].
    apply list.Forall_cons in Hd as [Hd1 Hd]. rewrite <-(system_param_of i) by done. rewrite <-IH by done.
    by destruct (param_of (system_param i)).
  - unfold array_ok. rewrite length_fmap. apply Z.eqb_refl.
  - apply forallb_forall. intros x (i & -> & Hin)%list_elem_of_In%list_elem_of_fmap.
    apply system_param_set. by eapply list.Forall_forall.
Qed.

(** ** Witnesses *)

Definition sample_records : list DNS_RECORD :=
  [DnsRecord DNS_TYPE_CNAME (DCNAME (lit "x")); DnsRecord DNS_TYPE_MX (DMX (lit "mail") 10);
   DnsRecord DNS_TYPE_MX (DMX (lit "mail2") 20)].
Definition sample_utf8 (name : str) (type : Z) : bool * option (list DNS_RECORD) := (true, Some sample_records).
Definition sample_ex (name : list Z) (type : Z) : bool * option (list DNS_RECORD) := (false, Some sample_records).

Lemma win_queries_correct_witness :
  mx_name sample_utf8 (lit "example.com") (Store ∅ 0) =
  (Store ∅ 1, Ok (Some [MxSrv (lit "mail") 10; MxSrv (lit "mail2") 20])).
Proof.
  destruct (win_queries_correct sample_utf8 sample_ex (λ _, [97%Z])) with (name := lit "example.com") (t := Svcb)
    (s := Store ∅ 0) as [[H1 (vs & Hvs & H2)] _].
  - intros ? ?. by repeat constructor.
  - intros ? ?. by repeat constructor.
  - by intros ? _.
  - vm_compute in Hvs. inversion Hvs as [|r v l vs' Hv Hvs']; subst.
    inversion Hvs' as [|r2 v2 l2 vs2 Hv2 Hvs2]; subst. inversion Hvs2; subst.
    injection Hv as <-. injection Hv2 as <-. by vm_compute.
Defined.
Lemma svcb_params_agree_witness :
  ∃ r, convert_data (SvcbData 1 (lit "svc") 2 (system_param <$> [Known (Port 443); Unknown 5 [7%Z]])) = Ok r ∧
    svcb_params r = resolve_params ([Known (Port 443); Unknown 5 [7%Z]] ≫= wire) ∧ svcb_priority r = 1%Z.
Proof.
  apply (svcb_params_agree (lit "svc") 1 [Known (Port 443); Unknown 5 [7%Z]]).
  - repeat constructor; simpl; try lia.
  - by repeat constructor.
Defined.
End DnsWin.
