(* ===== verification/Logger.v ===== *)
(** * Logging: logging.hpp, logging.cpp, logger.hpp, logger.cpp

    [Level] and [Format] model the levels, the time zone and the layout of a
    log line; [Queue] models the asynchronous writer as a step relation between
    the threads that log, the thread that stops the writer and the worker;
    [Stack] models the stack of active loggers and the [Logger] objects. *)

From S2P Require Import Prelude Strings Parse EnvVar.

Module Level.

(** A level is a value of its 16-bit underlying type. *)
Abbreviation values := Z.
Definition Debug : values := 0.
Definition Info : values := 1.
Definition Warning : values := 2.
Definition Error : values := 3.
Definition Terminate : values := 4.

Definition log_levels : list str :=
  [lit "DEBUG"; lit "INFO"; lit "WARNING"; lit "ERROR"; lit "TERMINATE"].

Definition parseLevel (view : str) : res values :=
  match list_find (λ l, l = view) log_levels with
  | Some (i, _) => Ok (Z.of_nat i)
  | None => Throw (NstlException " level is not known")
  end.

(** [name]: a negative level is refused before the cast to unsigned. *)
Definition name (level : values) : res str :=
  throw_if ((level <? 0)%Z || (Z.of_nat (length log_levels) <=? wrap 32 level)%Z)
    (NstlException "Invalid level");;
  match log_levels !! Z.to_nat level with
  | Some s => Ok s
  | None => Throw (UndefinedBehaviour "log_levels index")
  end.

(** [toStream]. *)
Definition toStream (os : ostream) (level : values) : res ostream :=
  n ← name level; Ok (os_write os n).

(** The current level is a global variable. *)
Definition setLevel (level : values) : M values values :=
  old ← mget; mput level;; mret old.
Definition getLevel : M values values := mget.
Definition isLevelActive (level : values) : M values bool :=
  cur ← getLevel; mret (cur <=? level)%Z.

(** The names and the levels correspond. *)
Lemma parse_name (level : values) :
  (∀ s, name level = Ok s → parseLevel s = Ok level) ∧
  ((∃ s, name level = Ok s) ↔ (0 ≤ level < 5)%Z).
Proof.
  unfold name, wrap. munfold_goal.
  destruct (Z.ltb_spec level 0); simpl.
  { split; [done|]. split; [by intros [? ?]|lia]. }
  destruct (decide (level < 5)%Z) as [Hl|Hl].
  - rewrite Z.mod_small by lia. destruct (Z.leb_spec 5 level); [lia|]. simpl.
    assert (level = 0 ∨ level = 1 ∨ level = 2 ∨ level = 3 ∨ level = 4)%Z as Hcases by lia.
    split.
    + destruct Hcases as [->|[->|[->|[->| ->]]]]; intros s [= <-]; reflexivity.
    + split; [lia|]. intros _. destruct Hcases as [->|[->|[->|[->| ->]]]]; by eexists.
  - assert (log_levels !! Z.to_nat level = None) as ->
      by (apply lookup_ge_None; simpl; lia).
    destruct (_ <=? _)%Z; simpl; (split; [done|]); (split; [by intros [? ?]|lia]).
Qed.
End Level.

Module Format.

Definition delimiter : ascii := "|"%char.

Lemma level_names level s : Level.name level = Ok s → delimiter ∉ s.
Proof.
  unfold Level.name. munfold_goal. destruct (_ || _); [done|].
  destruct (Level.log_levels !! Z.to_nat level) as [n|] eqn:E; [|done]. intros [= <-].
  apply list_elem_of_lookup_2 in E. unfold Level.log_levels in E.
  rewrite !elem_of_cons, elem_of_nil in E.
  destruct E as [->|[->|[->|[->|[->|[]]]]]]; apply (bool_decide_eq_true_1 _); reflexivity.
Qed.

Section zones.
Context {zone : Type}.
(** The time zone database: the zone of the system and the zones by name. *)
Context (current_zone : zone) (locate_zone : str → option zone).

(** [LogTimeZone]: a null zone means UTC. *)
Record LogTimeZone := Tz { _zone : option zone; _name : option str }.

Definition _parse_zone (z : str) : res (option zone) :=
  if View.empty z then Ok (Some current_zone)
  else
    utc ← NString.iequal true z (lit "utc");
    if utc : bool then Ok None
    else
      match locate_zone z with
      | Some x => Ok (Some x)
      | None => Throw (RuntimeError "unable to find the time zone")
      end.

(** The constructor, with the value of [LOG_TZ]. *)
Definition make_tz (log_tz : option str) : res LogTimeZone :=
  match log_tz with
  | None => Ok (Tz None None)
  | Some z => x ← _parse_zone z; Ok (Tz x (Some z))
  end.

(** [setZone]; when the zone is not known it throws and nothing changes. *)
Definition setZone (z : option str) : M LogTimeZone () := λ tz,
  match z with
  | None => (Tz None None, Ok ())
  | Some name =>
    match _parse_zone name with
    | Ok x => (Tz x (Some name), Ok ())
    | Throw e => (tz, Throw e)
    end
  end.

Definition print_tz (os : ostream) (tz : LogTimeZone) : ostream :=
  match _name tz with
  | Some [] => os_write os (lit "current")
  | Some n => os_write os n
  | None => os_write os (lit "UTC")
  end.

(** The text of a time point in a zone, or in UTC. *)
Context {time : Type} (zoned : zone → time → str) (utc : time → str).
Definition printStamp (tz : LogTimeZone) (now : time) (os : ostream) : ostream :=
  match _zone tz with
  | Some z => os_write os (zoned z now)
  | None => os_write os (utc now)
  end.

(** The constructor of [LoggerFormatter]: what it writes to its stream. *)
Definition formatter (tz : LogTimeZone) (now : time) (level : Level.values) (file : str) (line : Z)
    (tid : str) : res ostream :=
  let os := os_write (printStamp tz now (OStream [] false)) [delimiter] in
  let os := os_write (os_write (os_write os file) [":"%char]) (Parse.print_Z line) in
  let os := os_write os [delimiter] in
  let os := os_write (os_write os tid) [delimiter] in
  os ← Level.toStream os level;
  Ok (os_write os [delimiter]).

(** The macro [NSTL_LOG_LEVEL]: the line it passes to the logger. *)
Definition log_line (tz : LogTimeZone) (now : time) (level : Level.values) (file : str) (line : Z)
    (tid details : str) : res str :=
  os ← formatter tz now level file line tid;
  Ok (os_out (os_write os details)).

(** A log line has five parts: the stamp, the place in the source, the
    thread, the level and the message, the first four ended by the delimiter.
    When the stamp, the file name and the thread are free of the delimiter the
    line splits into exactly these fields, and the level parses back. *)
Theorem log_line_fields (tz : LogTimeZone) (now : time) (level : Level.values) (file : str)
    (line : Z) (tid details : str) :
  (0 ≤ level < 5)%Z →
  delimiter ∉ match _zone tz with Some z => zoned z now | None => utc now end →
  delimiter ∉ file → delimiter ∉ tid →
  ∃ text lev, log_line tz now level file line tid details = Ok text ∧
    Level.parseLevel lev = Ok level ∧
    NString.pieces delimiter text =
      [match _zone tz with Some z => zoned z now | None => utc now end;
       file ++ (":"%char :: Parse.print_Z line); tid; lev] ++ NString.pieces delimiter details.
Proof using Type.
  clear current_zone locate_zone. intros Hlev Hs Hf Ht.
  assert (delimiter ∉ Parse.print_Z line) as Hl
    by (intros [?|?]%Parse.print_Z_chars; done).
  destruct (proj2 (proj2 (Level.parse_name level)) Hlev) as [lev Hn].
  pose proof (proj1 (Level.parse_name level) _ Hn) as Hp.
  pose proof (level_names _ _ Hn) as Hd.
  eexists _, lev. split; [|split; [exact Hp|]].
  - unfold log_line, formatter, Level.toStream. munfold_goal. rewrite Hn. done.
  - set (stamp := match _zone tz with Some z => zoned z now | None => utc now end) in *.
    assert (printStamp tz now (OStream [] false) = OStream stamp false) as ->
      by (unfold printStamp, stamp; by destruct (_zone tz)).
    simpl. rewrite <-!app_assoc. simpl.
    rewrite NString.pieces_app by done. rewrite app_comm_cons, app_assoc.
    rewrite NString.pieces_app by (unfold delimiter in *; set_solver).
    rewrite NString.pieces_app by done. rewrite NString.pieces_app by done. done.
Qed.
End zones.

Lemma log_line_fields_witness :
  ∃ text lev, log_line (zone := ()) (λ _ _, []) (λ _ : (), lit "2024-05-06T07:08:09Z") (Tz None None) ()
      Level.Error (lit "main.cpp") 42 (lit "140") (lit "disk|full") = Ok text ∧
    Level.parseLevel lev = Ok Level.Error ∧
    NString.pieces delimiter text =
      [lit "2024-05-06T07:08:09Z"; lit "main.cpp" ++ (":"%char :: Parse.print_Z 42); lit "140"; lev] ++
      NString.pieces delimiter (lit "disk|full").
Proof.
  apply (log_line_fields (zone := ()) (λ _ _, []) (λ _ : (), lit "2024-05-06T07:08:09Z") (Tz None None) ()
           Level.Error (lit "main.cpp") 42 (lit "140") (lit "disk|full"));
    [unfold Level.Error; lia|apply (bool_decide_eq_true_1 _); vm_compute; reflexivity..].
Defined.

Example log_line_text :
  log_line (zone := ()) (λ _ _, []) (λ _ : (), lit "2024-05-06T07:08:09Z") (Tz None None) ()
    Level.Error (lit "main.cpp") 42 (lit "140") (lit "disk full") =
  Ok (lit "2024-05-06T07:08:09Z|main.cpp:42|140|ERROR|disk full").
Proof. by vm_compute. Qed.
End Format.

(** ** The asynchronous writer *)

Module Queue.

(** What the worker thread is doing. *)
Inductive runner := NotStarted | Looping | Finished | Joined.

(** How far the call of [stop] that ends the writer is: not called, past its
    exchange of [_running], or past entering the end marker; the last remembers
    the lines that had entered the queue by then. *)
Inductive stop_phase := Active | Exchanged | Marked (before : list str).

(** The shared state of [OstreamLog].  [pushing] holds the lines of calls of
    [push] that passed the throttle test and have not reached the queue yet;
    [accepted] records the lines in the order they entered the queue. *)
Record ostream_log := Log {
  queue : list (option str);
  running : bool;
  worker : runner;
  has_target : bool;
  throttle : Z;
  out : list str;
  pushing : list str;
  phase : stop_phase;
  accepted : list str;
}.

Definition initial : ostream_log := Log [] false NotStarted false (2 ^ 63 - 1) [] [] Active [].

(** [start], in the constructors. *)
Definition start (l : ostream_log) : ostream_log :=
  if running l then l
  else Log (queue l) true Looping true (throttle l) (out l) (pushing l) (phase l) (accepted l).

Definition size (l : ostream_log) : Z := Z.of_nat (length (queue l)).
Definition throttleSize (n : Z) (l : ostream_log) : ostream_log :=
  Log (queue l) (running l) (worker l) (has_target l) n (out l) (pushing l) (phase l) (accepted l).

(** [push], first part: the throttle test. *)
Definition push_check (line : str) (l : ostream_log) : ostream_log :=
  if (throttle l <? size l)%Z then l
  else Log (queue l) (running l) (worker l) (has_target l) (throttle l) (out l) (line :: pushing l)
         (phase l) (accepted l).
(** [push], second part: the line enters the queue. *)
Definition push_emplace (line : str) (rest : list str) (l : ostream_log) : ostream_log :=
  Log (queue l ++ [Some line]) (running l) (worker l) (has_target l) (throttle l) (out l) rest
    (phase l) (accepted l ++ [line]).

(** [stop], first part: the exchange of [_running]; the caller goes on only when
    it was set. *)
Definition stop_exchange (l : ostream_log) : ostream_log * bool :=
  (Log (queue l) false (worker l) (has_target l) (throttle l) (out l) (pushing l)
     (if running l then Exchanged else phase l) (accepted l), running l).
(** The end marker enters the queue. *)
Definition stop_emplace (l : ostream_log) : ostream_log :=
  Log (queue l ++ [None]) (running l) (worker l) (has_target l) (throttle l) (out l) (pushing l)
    (Marked (accepted l)) (accepted l).
(** The worker was joined: the target is dropped and [stop] returns. *)
Definition stop_join (l : ostream_log) : ostream_log :=
  Log (queue l) (running l) Joined false (throttle l) (out l) (pushing l) (phase l) (accepted l).

(** One turn of the worker. *)
Definition worker_pop (l : ostream_log) : option ostream_log :=
  match worker l, queue l with
  | Looping, Some line :: q =>
    Some (Log q (running l) Looping (has_target l) (throttle l) (out l ++ [line]) (pushing l)
            (phase l) (accepted l))
  | Looping, None :: q =>
    Some (Log q (running l) Finished (has_target l) (throttle l) (out l) (pushing l)
            (phase l) (accepted l))
  | _, _ => None
  end.

(** The interleavings of the threads. *)
Inductive step : ostream_log → ostream_log → Prop :=
| step_push_check line l : step l (push_check line l)
| step_push_emplace line a b l : pushing l = a ++ (line :: b) → step l (push_emplace line (a ++ b) l)
| step_throttle n l : (0 ≤ n)%Z → step l (throttleSize n l)
| step_stop_exchange l : step l (fst (stop_exchange l))
| step_stop_emplace l : phase l = Exchanged → step l (stop_emplace l)
| step_stop_join l before : phase l = Marked before → worker l = Finished → step l (stop_join l)
| step_worker l l' : worker_pop l = Some l' → step l l'.

Definition reachable (l : ostream_log) : Prop := rtc step (start initial) l.

(** ** The invariant *)

(** What the queue holds, against what was accepted and what was written. *)
Definition queue_ok (l : ostream_log) : Prop :=
  match worker l, phase l with
  | NotStarted, _ => False
  | Looping, (Active | Exchanged) =>
    ∃ q, queue l = Some <$> q ∧ accepted l = out l ++ q
  | Looping, Marked before =>
    ∃ q q', queue l = (Some <$> q) ++ (None :: (Some <$> q')) ∧
      before = out l ++ q ∧ accepted l = before ++ q'
  | (Finished | Joined), Marked before =>
    ∃ q', queue l = Some <$> q' ∧ out l = before ∧ accepted l = before ++ q'
  | (Finished | Joined), _ => False
  end.

Definition log_ok (l : ostream_log) : Prop :=
  queue_ok l ∧ (running l = true ↔ phase l = Active) ∧ (worker l ≠ Joined → has_target l = true).

Lemma push_emplace_ok line rest l : queue_ok l → queue_ok (push_emplace line rest l).
Proof.
  unfold queue_ok; simpl. destruct (worker l), (phase l) as [| |before]; try done.
  - intros (q & -> & ->). exists (q ++ [line]). by rewrite fmap_app, <-app_assoc.
  - intros (q & -> & ->). exists (q ++ [line]). by rewrite fmap_app, <-app_assoc.
  - intros (q & q' & -> & -> & ->). exists q, (q' ++ [line]).
    rewrite fmap_app, <-!app_assoc. done.
  - intros (q' & -> & -> & ->). exists (q' ++ [line]). by rewrite fmap_app, <-app_assoc.
  - intros (q' & -> & -> & ->). exists (q' ++ [line]). by rewrite fmap_app, <-app_assoc.
Qed.

Lemma worker_pop_ok l l' : queue_ok l → worker_pop l = Some l' → queue_ok l'.
Proof.
  unfold queue_ok, worker_pop. destruct (worker l); try done.
  destruct (queue l) as [|[line|] q0]; try done; destruct (phase l) as [| |before]; intros H [= <-]; simpl.
  - destruct H as ([|x q] & Hq & ->); [done|]. simplify_eq/=. exists q. by rewrite <-app_assoc.
  - destruct H as ([|x q] & Hq & ->); [done|]. simplify_eq/=. exists q. by rewrite <-app_assoc.
  - destruct H as ([|x q] & q' & Hq & -> & ->); [done|]. simplify_eq/=. exists q, q'.
    by rewrite <-!app_assoc.
  - destruct H as ([|x q] & Hq & _); done.
  - destruct H as ([|x q] & Hq & _); done.
  - destruct H as ([|x q] & q' & Hq & -> & ->); [|done]. simplify_eq/=. exists q'.
    by rewrite app_nil_r.
Qed.

Lemma step_ok l l' : step l l' → log_ok l → log_ok l'.
Proof.
  intros Hst (Hq & Hr & Ht). destruct Hst as [line l|line a b l Hp|n l Hn|l|l Hp|l before Hp Hw|l l' Hw].
  - unfold push_check. by destruct (_ <? _)%Z.
  - split; [by apply push_emplace_ok|done].
  - done.
  - unfold log_ok, queue_ok in *; simpl. destruct (running l) eqn:E; simpl.
    + assert (phase l = Active) as Ha by (by apply Hr). rewrite Ha in Hq.
      split; [by destruct (worker l)|]. split; [done|done].
    + split; [done|]. split; [|done]. by rewrite <-Hr.
  - unfold log_ok, queue_ok in *; simpl. rewrite Hp in *. split; [|split; [|done]].
    + destruct (worker l); try done. destruct Hq as (q & -> & ->). exists q, [].
      by rewrite app_nil_r.
    + split; [intros E; by apply Hr in E|done].
  - unfold log_ok, queue_ok in *; simpl. rewrite Hp, Hw in *. done.
  - split; [by eapply worker_pop_ok|]. unfold worker_pop in Hw.
    destruct (worker l) eqn:E; try done. destruct (queue l) as [|[x|] q]; simplify_eq/=;
      (split; [done|]); intros _; by apply Ht.
Qed.

Lemma reachable_ok l : reachable l → log_ok l.
Proof.
  unfold reachable. intros Hr.
  assert (log_ok (start initial)) as H0.
  { split; [by exists []|]. split; [done|]. done. }
  revert Hr H0. induction 1 as [|x y z Hst Hr IH]; eauto using step_ok.
Qed.

(** What is written is the beginning of what was accepted. *)
Lemma queue_ok_prefix l : queue_ok l → ∃ rest, accepted l = out l ++ rest.
Proof.
  unfold queue_ok. intros Hq. destruct (worker l), (phase l); try done; try (destruct Hq as (q & _ & ->); by eexists).
  - destruct Hq as (q & q' & _ & -> & ->). rewrite <-app_assoc. by eexists.
  - destruct Hq as (q' & _ & -> & ->). by eexists.
  - destruct Hq as (q' & _ & -> & ->). by eexists.
Qed.

(** C3: in every interleaving of the logging threads, the stopping thread and the
    worker, the written lines are the accepted ones in their order, without loss
    or repetition, up to those still queued; the worker never writes without a
    target; and once the worker has finished, exactly the lines accepted before
    the end marker were written. *)
Theorem log_queue_fifo (l : ostream_log) :
  reachable l →
  (∃ rest, accepted l = out l ++ rest) ∧
  (worker l = Looping → has_target l = true) ∧
  (∀ before, phase l = Marked before → ∃ later, accepted l = before ++ later) ∧
  (worker l = Finished ∨ worker l = Joined → phase l = Marked (out l)).
Proof.
  intros (Hq & Hr & Ht)%reachable_ok. split; [by apply queue_ok_prefix|]. unfold queue_ok in Hq. split_and!.
  - intros E. apply Ht. congruence.
  - intros before E. rewrite E in Hq. destruct (worker l); try done; naive_solver.
  - intros [E|E]; rewrite E in Hq; destruct (phase l); try done; naive_solver.
Qed.

(** The worker alone, for a number of turns. *)
Fixpoint worker_run (fuel : nat) (l : ostream_log) : ostream_log :=
  match fuel with
  | O => l
  | S fuel => match worker_pop l with Some l' => worker_run fuel l' | None => l end
  end.

Lemma worker_run_flush q q' : ∀ fuel l,
  queue l = (Some <$> q) ++ (None :: q') → worker l = Looping → length q < fuel →
  worker (worker_run fuel l) = Finished ∧ out (worker_run fuel l) = out l ++ q.
Proof.
  induction q as [|x q IH]; intros fuel l Hq Hw Hf; (destruct fuel as [|fuel]; [simpl in Hf; lia|]).
  - simpl. unfold worker_pop. rewrite Hw, Hq; simpl. rewrite app_nil_r. by destruct fuel.
  - simpl. unfold worker_pop. rewrite Hw, Hq; simpl.
    match goal with |- context [worker_run fuel ?x] => destruct (IH fuel x) as [E1 E2] end;
      [done|done|simpl in Hf; lia|]. rewrite E1, E2. simpl. by rewrite <-app_assoc.
Qed.

(** [stop] comes to its end: once the end marker is in the queue the worker
    finishes by itself within as many turns as the queue has entries, and has
    then written every line that was accepted before the marker. *)
Theorem log_stop_flushes (l : ostream_log) (before : list str) :
  reachable l → phase l = Marked before →
  let l' := worker_run (length (queue l)) l in
  (worker l' = Finished ∨ worker l' = Joined) ∧ out l' = before ∧ rtc step l l'.
Proof.
  intros (Hq & Hr & Ht)%reachable_ok Hp. simpl.
  assert (∀ fuel l, rtc step l (worker_run fuel l)) as Hrtc.
  { clear. induction fuel as [|fuel IH]; intros l; simpl; [done|].
    destruct (worker_pop l) as [l'|] eqn:E; [|done]. eapply rtc_l; [by apply step_worker|done]. }
  unfold queue_ok in Hq. rewrite Hp in Hq. destruct (worker l) eqn:Hw; try done.
  - destruct Hq as (q & q' & Hq & -> & _).
    destruct (worker_run_flush q (Some <$> q') (length (queue l)) l Hq Hw) as [-> ->];
      [rewrite Hq, length_app, length_fmap; simpl; lia|]. split; [by left|]. by split.
  - assert (worker_run (length (queue l)) l = l) as E
      by (destruct (queue l); simpl; [done|]; unfold worker_pop; by rewrite Hw).
    rewrite E, Hw. destruct Hq as (q' & _ & -> & _). split; [by left|]. by split.
  - assert (worker_run (length (queue l)) l = l) as E
      by (destruct (queue l); simpl; [done|]; unfold worker_pop; by rewrite Hw).
    rewrite E, Hw. destruct Hq as (q' & _ & -> & _). split; [by right|]. by split.
Qed.

(** A run: two lines, [stop], and a line that comes too late. *)
Definition sample_log : ostream_log :=
  let l := push_emplace (lit "a") [] (push_check (lit "a") (start initial)) in
  let l := push_emplace (lit "b") [] (push_check (lit "b") l) in
  let l := stop_emplace (fst (stop_exchange l)) in
  push_emplace (lit "c") [] (push_check (lit "c") l).

Lemma sample_log_reachable : reachable sample_log.
Proof.
  unfold reachable, sample_log. cbv zeta.
  eapply rtc_l; [apply (step_push_check (lit "a"))|].
  eapply rtc_l; [apply (step_push_emplace (lit "a") [] []); reflexivity|].
  eapply rtc_l; [apply (step_push_check (lit "b"))|].
  eapply rtc_l; [apply (step_push_emplace (lit "b") [] []); reflexivity|].
  eapply rtc_l; [apply step_stop_exchange|].
  eapply rtc_l; [apply step_stop_emplace; reflexivity|].
  eapply rtc_l; [apply (step_push_check (lit "c"))|].
  eapply rtc_l; [apply (step_push_emplace (lit "c") [] []); reflexivity|].
  apply rtc_refl.
Qed.

Lemma log_queue_fifo_witness :
  (∃ rest, accepted sample_log = out sample_log ++ rest) ∧
  (worker sample_log = Looping → has_target sample_log = true) ∧
  (∀ before, phase sample_log = Marked before → ∃ later, accepted sample_log = before ++ later) ∧
  (worker sample_log = Finished ∨ worker sample_log = Joined → phase sample_log = Marked (out sample_log)).
Proof. apply (log_queue_fifo sample_log). apply sample_log_reachable. Defined.

Lemma log_stop_flushes_witness :
  let l' := worker_run 4 sample_log in
  (worker l' = Finished ∨ worker l' = Joined) ∧ out l' = [lit "a"; lit "b"] ∧ rtc step sample_log l'.
Proof.
  apply (log_stop_flushes sample_log [lit "a"; lit "b"]); [apply sample_log_reachable|reflexivity].
Defined.
End Queue.

(** ** The stack of loggers *)

Module Stack.

(** What a [LoggerAPI] object answers; such objects are named by numbers. *)
Record logger_api := Api { api_level : Level.values; is_cout_logger : bool }.

Section stack.
Context (api : nat → logger_api).

(** The global state: the stack, the functor (by the object its weak pointer
    names), the current level, the flag of the [cout] logger, and the object
    each [Logger] owns. *)
Record state := State {
  items : list nat;
  functor : option nat;
  level : Level.values;
  active_cout_logger : bool;
  loggers : gmap nat nat;
}.
Definition initial : state := State [] None Level.Info false ∅.

Definition _set_functor : M state bool := λ s,
  match list.last (items s) with
  | None => (s, Ok false)
  | Some ptr =>
    (State (items s) (Some ptr) (api_level (api ptr)) (active_cout_logger s) (loggers s), Ok true)
  end.

Definition set_items (l : list nat) : M state () :=
  mmodify (λ s, State l (functor s) (level s) (active_cout_logger s) (loggers s)).
Definition set_cout (b : bool) : M state () :=
  mmodify (λ s, State (items s) (functor s) (level s) b (loggers s)).
Definition set_loggers (m : gmap nat nat) : M state () :=
  mmodify (λ s, State (items s) (functor s) (level s) (active_cout_logger s) m).

(** [log_stack::push_back] and [log_stack::erase]. *)
Definition push_back (log : nat) : M state bool :=
  s ← mget; set_items (items s ++ [log]);; _set_functor.
Definition erase (log : nat) : M state bool :=
  s ← mget;
  if bool_decide (list.last (items s) = Some log) then
    set_items (take (length (items s) - 1) (items s));; _set_functor
  else set_items (filter (λ x, x ≠ log) (items s));; mret false.

(** The constructor of [Logger] number [i] on an object; [None] is a null
    pointer. *)
Definition make_logger (i : nat) (log : option nat) : M state () :=
  match log with
  | None => mthrow (NstlException "Logger API is nullptr")
  | Some log =>
    s ← mget;
    (if is_cout_logger (api log) then
       set_cout true;;
       mthrow_if (active_cout_logger s) (NstlException "cout logger is already active!")
     else mret ());;
    push_back log;;
    s ← mget; set_loggers (<[i := log]> (loggers s))
  end.

Definition reset (i : nat) : M state () :=
  s ← mget;
  match loggers s !! i with
  | None => mret ()
  | Some log =>
    set_loggers (delete i (loggers s));;
    (if is_cout_logger (api log) then set_cout false else mret ());;
    erase log;; mret ()
  end.

Definition logger_level (i : nat) (def : Level.values) (s : state) : Level.values :=
  match loggers s !! i with Some log => api_level (api log) | None => def end.

(** A log statement: the object the line is pushed to, if any.  The weak pointer
    locks as long as the stack or a [Logger] shares the object; [others] are the
    objects kept alive elsewhere. *)
Definition alive (others : gset nat) (s : state) (log : nat) : bool :=
  bool_decide (log ∈ items s) || bool_decide (log ∈ others) ||
  bool_decide (log ∈ (map_to_list (loggers s)).*2).
Definition log_statement (others : gset nat) (lev : Level.values) (s : state) : option nat :=
  if (level s <=? lev)%Z then
    match functor s with
    | Some log => if alive others s log then Some log else None
    | None => None
    end
  else None.

(** ** Programs *)

Inductive op := New (i : nat) (log : option nat) | Reset (i : nat).
(** A [Logger] is constructed under a number that is free. *)
Definition exec (o : op) (s : state) : state :=
  match o with
  | New i log => if decide (is_Some (loggers s !! i)) then s else fst (make_logger i log s)
  | Reset i => fst (reset i s)
  end.

Definition cout_owner (s : state) (i : nat) : Prop :=
  ∃ log, loggers s !! i = Some log ∧ is_cout_logger (api log) = true.

Definition stack_ok (s : state) : Prop :=
  (∀ top, list.last (items s) = Some top → functor s = Some top ∧ level s = api_level (api top)) ∧
  (active_cout_logger s = true ↔ ∃ i, cout_owner s i) ∧
  (∀ i j, cout_owner s i → cout_owner s j → i = j).

Lemma set_functor_ok s :
  let s' := fst (_set_functor s) in
  (∀ top, list.last (items s') = Some top → functor s' = Some top ∧ level s' = api_level (api top)) ∧
  items s' = items s ∧ loggers s' = loggers s ∧ active_cout_logger s' = active_cout_logger s.
Proof.
  unfold _set_functor. destruct (list.last (items s)) as [t|] eqn:E; simpl; [|by rewrite E].
  rewrite E. split; [|done]. by intros top [= <-].
Qed.

Lemma last_filter_ne (l : list nat) log top :
  list.last l ≠ Some log → list.last (filter (λ x, x ≠ log) l) = Some top → list.last l = Some top.
Proof.
  destruct l as [|x l _] using rev_ind; [done|]. rewrite last_snoc. intros Hne.
  rewrite list.filter_app, (filter_cons_True _ x []), filter_nil, last_snoc by congruence. done.
Qed.

Lemma erase_ok log s :
  (∀ top, list.last (items s) = Some top → functor s = Some top ∧ level s = api_level (api top)) →
  let s' := fst (erase log s) in
  (∀ top, list.last (items s') = Some top → functor s' = Some top ∧ level s' = api_level (api top)) ∧
  loggers s' = loggers s ∧ active_cout_logger s' = active_cout_logger s.
Proof.
  intros Hs. unfold erase. munfold_goal. case_bool_decide as Hl.
  - pose proof (set_functor_ok (State (take (length (items s) - 1) (items s)) (functor s) (level s)
      (active_cout_logger s) (loggers s))) as (H1 & _ & H2 & H3). done.
  - munfold_goal. split; [|done]. intros top Ht. apply Hs. by apply last_filter_ne in Ht.
Qed.

Lemma make_logger_ok i log s :
  loggers s !! i = None → stack_ok s → stack_ok (fst (make_logger i log s)).
Proof.
  intros Hi (Htop & Hc & Hu).
  destruct log as [log|]; [|done]. unfold make_logger. munfold_goal.
  destruct (is_cout_logger (api log)) eqn:Ec; munfold_goal.
  + destruct (active_cout_logger s) eqn:Ea; simpl.
    { by split. }
    pose proof (set_functor_ok (State (items s ++ [log]) (functor s) (level s) true (loggers s)))
      as (H1 & _ & H2 & H3). unfold push_back. munfold_goal.
    destruct (_set_functor _) as [s1 [b|e]] eqn:Es; simpl in *.
    2: { unfold _set_functor in Es; simpl in Es. by rewrite last_snoc in Es. }
    assert (∀ j, ¬ cout_owner s j) as Hno by (intros j Hj; assert (false = true) by (apply Hc; eauto); done).
    split; [done|]. unfold cout_owner; simpl. rewrite H2, H3. split.
    * split; [|done]. intros _. exists i, log. by rewrite lookup_insert_eq.
    * intros j k (lj & Hj & Hcj) (lk & Hk & Hck).
      apply lookup_insert_Some in Hj as [[<- _]|[_ Hj]], Hk as [[<- _]|[_ Hk]]; [done|..].
      -- exfalso. apply (Hno k). by exists lk.
      -- exfalso. apply (Hno j). by exists lj.
      -- exfalso. apply (Hno j). by exists lj.
  + pose proof (set_functor_ok (State (items s ++ [log]) (functor s) (level s) (active_cout_logger s)
      (loggers s))) as (H1 & _ & H2 & H3). unfold push_back. munfold_goal.
    destruct (_set_functor _) as [s1 [b|e]] eqn:Es; simpl in *.
    2: { unfold _set_functor in Es; simpl in Es. by rewrite last_snoc in Es. }
    assert (∀ j, (∃ l, <[i := log]> (loggers s) !! j = Some l ∧ is_cout_logger (api l) = true) ↔
                 cout_owner s j) as Heq.
    { intros j. unfold cout_owner. setoid_rewrite lookup_insert_Some. split.
      - intros (l & [[<- <-]|[? ?]] & ?); [congruence|eauto].
      - intros (l & Hl & ?). exists l. split; [|done]. right. split; [congruence|done]. }
    split; [done|]. unfold cout_owner at 1 2 3; simpl. rewrite H2, H3.
    setoid_rewrite Heq. done.
Qed.

Lemma reset_ok i s : stack_ok s → stack_ok (fst (reset i s)).
Proof.
  intros (Htop & Hc & Hu).
  unfold reset. munfold_goal. destruct (loggers s !! i) as [log|] eqn:Hi; [|done]. munfold_goal.
  destruct (is_cout_logger (api log)) eqn:Ec; munfold_goal.
  + pose proof (erase_ok log (State (items s) (functor s) (level s) false (delete i (loggers s))) Htop)
      as (H1 & H2 & H3).
    assert (∀ j, ¬ ∃ l, delete i (loggers s) !! j = Some l ∧ is_cout_logger (api l) = true) as Hno.
    { intros j (l & [Hij Hl]%lookup_delete_Some & Hcl). apply Hij.
      apply Hu; [by exists log|by exists l]. }
    destruct (erase log _) as [s2 [b|e]]; simpl in *;
      (split; [done|]; unfold cout_owner; rewrite H2, H3; split;
       [split; [done|intros [j Hj]; by apply Hno in Hj]|intros j k Hj; by apply Hno in Hj]).
  + pose proof (erase_ok log (State (items s) (functor s) (level s) (active_cout_logger s)
      (delete i (loggers s))) Htop) as (H1 & H2 & H3).
    assert (∀ j, (∃ l, delete i (loggers s) !! j = Some l ∧ is_cout_logger (api l) = true) ↔
                 cout_owner s j) as Heq.
    { intros j. unfold cout_owner. setoid_rewrite lookup_delete_Some. split.
      - intros (l & [? ?] & ?). eauto.
      - intros (l & Hl & ?). exists l. split; [|done]. split; [congruence|done]. }
    destruct (erase log _) as [s2 [b|e]]; simpl in *;
      (split; [done|]; unfold cout_owner at 1 2 3; rewrite H2, H3; setoid_rewrite Heq; done).
Qed.

Lemma stack_exec_ok o s : stack_ok s → stack_ok (exec o s).
Proof.
  intros Hs. destruct o as [i log|i]; simpl; [|by apply reset_ok].
  case_decide as Hi; [done|]. apply make_logger_ok; [|done]. by apply eq_None_not_Some.
Qed.

Lemma stack_exec_all_ok ops : stack_ok (foldl (λ s o, exec o s) initial ops).
Proof.
  assert (stack_ok initial) as H.
  { split; [done|]. unfold cout_owner; simpl. setoid_rewrite lookup_empty. split; [|naive_solver].
    split; [done|]. naive_solver. }
  revert H. generalize initial. induction ops as [|o ops IH]; intros s Hs; simpl; [done|].
  by apply IH, stack_exec_ok.
Qed.

(** However [Logger] objects are constructed and reset, the log function and
    the level belong to the logger on top of the stack: a statement at its level
    or above is pushed to it and to no other, one below is dropped; and at most
    one [Logger] owns a [cout] logger, which is what the flag says. *)
Theorem log_stack_top (ops : list op) (others : gset nat) (lev : Level.values) :
  let s := foldl (λ s o, exec o s) initial ops in
  (∀ top, list.last (items s) = Some top →
     log_statement others lev s = if (api_level (api top) <=? lev)%Z then Some top else None) ∧
  (active_cout_logger s = true ↔ ∃ i, cout_owner s i) ∧
  (∀ i j, cout_owner s i → cout_owner s j → i = j).
Proof.
  intros s. destruct (stack_exec_all_ok ops) as (Htop & Hc & Hu). fold s in Htop, Hc, Hu.
  split; [|done]. intros top Ht. unfold log_statement. destruct (Htop top Ht) as [-> ->].
  case_match; [|done]. unfold alive. rewrite bool_decide_eq_true_2; [done|].
  apply last_Some in Ht as [l' ->]. set_solver.
Qed.

(** When the last logger goes, the functor and the level stay as they were. *)
Lemma last_logger_gone (log i : nat) :
  let s := exec (Reset i) (exec (New i (Some log)) initial) in
  items s = [] ∧ functor s = Some log ∧ level s = api_level (api log) ∧
  (∀ lev, log_statement ∅ lev s = None) ∧
  log_statement {[log]} (api_level (api log)) s = Some log.
Proof.
  unfold exec, make_logger, push_back, _set_functor; simpl. munfold_goal.
  rewrite decide_False by (rewrite lookup_empty; by intros [? ?]).
  destruct (is_cout_logger (api log)) eqn:E; simpl;
    unfold reset, erase, _set_functor; munfold_goal; rewrite lookup_insert_eq; munfold_goal;
    rewrite E; munfold_goal; rewrite bool_decide_eq_true_2 by done; simpl;
    rewrite delete_insert_id by apply lookup_empty;
    unfold log_statement, alive; simpl; (split_and!; [done..| |]).
  - intros lev. case_match; [|done]. by rewrite !bool_decide_eq_false_2 by set_solver.
  - rewrite Z.leb_refl. by rewrite (bool_decide_eq_true_2 (log ∈ {[log]})) by set_solver.
  - intros lev. case_match; [|done]. by rewrite !bool_decide_eq_false_2 by set_solver.
  - rewrite Z.leb_refl. by rewrite (bool_decide_eq_true_2 (log ∈ {[log]})) by set_solver.
Qed.
End stack.
End Stack.
