(* ===== verification/LogSinks.v ===== *)
(** * The ends of the logger: logger.cpp

    [Terminate] adds to the asynchronous writer the calls of [push] with the level
    Terminate, which stop the writer and abort the process; [Sink] models the file
    the lines go to ([FileLog], [CoutLog]) and the methods of [Logger] that reach
    the writer. *)

From S2P Require Import Prelude Strings Logger.

Module Terminate.
Import Queue.

(** How far a call of [push] with the level Terminate is: past the throttle test,
    past entering its line, past the exchange of its [stop] (whether it was the one
    that found the writer running), or at [std::abort]. *)
Inductive call := Checked (line : str) | Entered (line : str) | Stopping (line : str) (won : bool)
                | Aborting (line : str).

Record process := Process { log : ostream_log; calls : list call }.

(** The throttle test; a line that is refused does not end the process. *)
Definition terminate_check (line : str) (p : process) : process :=
  if (throttle (log p) <? size (log p))%Z then p else Process (log p) (Checked line :: calls p).

(** The rest of the call, by its steps: the queue, the exchange in [stop], and
    [std::abort] after [stop] has returned.  The call that won the exchange is in
    [stop] until the worker was joined. *)
Definition advance (c : call) (l : ostream_log) : option (call * ostream_log) :=
  match c with
  | Checked line => Some (Entered line, push_emplace line (pushing l) l)
  | Entered line => let '(l', won) := stop_exchange l in Some (Stopping line won, l')
  | Stopping line true => match worker l with Joined => Some (Aborting line, l) | _ => None end
  | Stopping line false => Some (Aborting line, l)
  | Aborting _ => None
  end.

(** The threads of the process; nothing happens once a call is at [std::abort]. *)
Definition living (p : process) : Prop := ∀ line, Aborting line ∉ calls p.
Inductive step : process → process → Prop :=
| step_log l' p : living p → Queue.step (log p) l' → step p (Process l' (calls p))
| step_check line p : living p → step p (terminate_check line p)
| step_call a c b c' l' p : living p → calls p = a ++ (c :: b) → advance c (log p) = Some (c', l') →
    step p (Process l' (a ++ (c' :: b))).

Definition initial_process : process := Process (start initial) [].
Definition reachable (p : process) : Prop := rtc step initial_process p.

(** ** The invariant *)

(** A line is safe when it is among those [stop] waits for. *)
Definition safe_line (line : str) (l : ostream_log) : Prop :=
  match phase l with Active => False | Exchanged => line ∈ accepted l | Marked before => line ∈ before end.
Definition call_ok (l : ostream_log) (c : call) : Prop :=
  match c with
  | Checked _ | Aborting _ => True
  | Entered line => line ∈ accepted l
  | Stopping line won => line ∈ accepted l ∧ (won = true → safe_line line l)
  end.
Definition process_ok (p : process) : Prop := log_ok (log p) ∧ Forall (call_ok (log p)) (calls p).

(** What the steps of the writer do to the lines of the calls. *)
Definition grows (l l' : ostream_log) : Prop :=
  (∀ line, line ∈ accepted l → line ∈ accepted l') ∧ (∀ line, safe_line line l → safe_line line l').

Lemma call_ok_grows l l' c : grows l l' → call_ok l c → call_ok l' c.
Proof. intros [H1 H2]. destruct c as [line|line|line won|line]; simpl; naive_solver. Qed.

Lemma grows_emplace line rest l : grows l (push_emplace line rest l).
Proof.
  split; intros x; unfold safe_line; simpl; [set_solver|]. destruct (phase l); [done|set_solver|done].
Qed.

Lemma grows_exchange l : (running l = true ↔ phase l = Active) → grows l (fst (stop_exchange l)).
Proof.
  intros Hr. split; intros x; unfold safe_line; simpl; [done|].
  destruct (running l) eqn:E; [|done]. by rewrite (proj1 Hr eq_refl).
Qed.

Lemma grows_step l l' : log_ok l → Queue.step l l' → grows l l'.
Proof.
  intros (_ & Hr & _) Hst. destruct Hst as [line l|line a b l Hp|n l Hn|l|l Hp|l before Hp Hw|l l' Hw].
  - unfold push_check. by destruct (_ <? _)%Z.
  - apply grows_emplace.
  - done.
  - by apply grows_exchange.
  - split; intros x; unfold safe_line; simpl; [done|]. by rewrite Hp.
  - done.
  - unfold worker_pop in Hw. destruct (worker l), (queue l) as [|[x|] q]; by simplify_eq/=.
Qed.

(** A call keeps the writer in order and its own line accounted for. *)
Lemma advance_ok c c' l l' :
  log_ok l → call_ok l c → advance c l = Some (c', l') → log_ok l' ∧ grows l l' ∧ call_ok l' c'.
Proof.
  intros Hl Hc. pose proof Hl as (Hq & Hr & Ht). destruct c as [line|line|line [|]|line]; simpl in *; intros E.
  - simplify_eq. split_and!; [split; [by apply push_emplace_ok|done]|apply grows_emplace|simpl; set_solver].
  - injection E as <- <-. split_and!; [apply (step_ok l), Hl; apply step_stop_exchange|by apply grows_exchange|].
    split; [done|]. intros Hw. unfold safe_line; simpl. by rewrite Hw.
  - destruct (worker l); by simplify_eq.
  - by simplify_eq.
  - done.
Qed.

Lemma process_step_ok p p' : step p p' → process_ok p → process_ok p'.
Proof.
  intros Hst [Hl Hc]. destruct Hst as [l' p _ Hs|line p _|a c b c' l' p _ Hcs Ha]; simpl in *.
  - split; [by eapply step_ok|]. simpl. eapply list.Forall_impl; [exact Hc|]. intros c.
    apply call_ok_grows. by apply grows_step.
  - unfold terminate_check. destruct (_ <? _)%Z; [done|]. split; [done|]. by constructor.
  - rewrite Hcs in Hc. apply Forall_app in Hc as [Hca [Hcc Hcb]%list.Forall_cons].
    destruct (advance_ok _ _ _ _ Hl Hcc Ha) as (H1 & H2 & H3). split; [done|]. simpl.
    apply Forall_app. split; [|constructor; [done|]]; (eapply list.Forall_impl; [eassumption|]); intros x; by apply call_ok_grows.
Qed.

Lemma reachable_process_ok p : reachable p → process_ok p.
Proof.
  unfold reachable. intros Hr.
  assert (process_ok initial_process) as H0.
  { split; [apply reachable_ok; apply rtc_refl|constructor]. }
  revert Hr H0. induction 1 as [|x y z Hst Hr IH]; eauto using process_step_ok.
Qed.

(** A call with the level Terminate that stopped the writer itself aborts the process
    only after its line, and every line accepted before the end marker, was
    written. *)
Theorem terminate_written (p : process) (line : str) (c' : call) (l' : ostream_log) :
  reachable p → Stopping line true ∈ calls p → advance (Stopping line true) (log p) = Some (c', l') →
  c' = Aborting line ∧ line ∈ out l' ∧ phase l' = Marked (out l').
Proof.
  intros [(Hq & _) Hc]%reachable_process_ok Hin. simpl. destruct (worker (log p)) eqn:Hw; try done. intros [= <- <-].
  rewrite list.Forall_forall in Hc. destruct (Hc _ Hin) as [_ Hs]. specialize (Hs eq_refl).
  unfold queue_ok in Hq. rewrite Hw in Hq. unfold safe_line in Hs.
  destruct (phase (log p)) as [| |before]; try done. destruct Hq as (q' & _ & <- & _). done.
Qed.

(** Two such calls at once: the second finds the writer stopped and aborts the
    process before anything was written. *)
Definition race : process :=
  let l := push_emplace (lit "b") [] (push_emplace (lit "a") [] (start initial)) in
  Process (fst (stop_exchange (fst (stop_exchange l)))) [Aborting (lit "b"); Stopping (lit "a") true].

Lemma terminate_race_lost : reachable race ∧ out (log race) = [] ∧ accepted (log race) = [lit "a"; lit "b"].
Proof.
  split; [|done]. unfold reachable, initial_process.
  eapply rtc_l; [apply (step_check (lit "a")); intros ?; set_solver|].
  eapply rtc_l; [apply (step_check (lit "b")); intros ?; set_solver|].
  assert (Hn : ∀ l c1 c2, (∀ x, c1 ≠ Aborting x) → (∀ x, c2 ≠ Aborting x) → living (Process l [c1; c2])).
  { intros l c1 c2 H1 H2 x. simpl. rewrite !elem_of_cons, elem_of_nil. naive_solver. }
  eapply rtc_l; [apply (step_call [Checked (lit "b")] (Checked (lit "a")) []); [by apply Hn|reflexivity..]|].
  eapply rtc_l; [apply (step_call [] (Checked (lit "b")) [Entered (lit "a")]); [by apply Hn|reflexivity..]|].
  eapply rtc_l; [apply (step_call [Entered (lit "b")] (Entered (lit "a")) []); [by apply Hn|reflexivity..]|].
  eapply rtc_l; [apply (step_call [] (Entered (lit "b")) [Stopping (lit "a") true]); [by apply Hn|reflexivity..]|].
  eapply rtc_l; [apply (step_call [] (Stopping (lit "b") false) [Stopping (lit "a") true]); [by apply Hn|reflexivity..]|].
  apply rtc_refl.
Qed.
End Terminate.

(** ** Files and the methods of [Logger] *)

Module Sink.
Import Queue.

(** [FileLog]: the writer, whether [_ofs] is open, and the text the file had when it
    was opened to append. *)
Record file_log := FileLog { base : ostream_log; ofs : bool; found : str }.
Definition newline : str := ["010"%char].
Definition lines_text (l : list str) : str := concat ((λ s, s ++ newline) <$> l).
Definition file_text (f : file_log) : str := found f ++ lines_text (out (base f)).

(** The constructor, by whether the file could be opened. *)
Definition make_file_log (opened : bool) (text : str) : res file_log :=
  throw_if (negb opened) (NstlException " open for write failed");;
  Ok (FileLog (start initial) true text).

(** [OstreamLog::stop] when nothing else uses the object: the worker takes what is
    queued and is joined. *)
Definition base_stop (l : ostream_log) : ostream_log * bool :=
  let '(l, won) := stop_exchange l in
  if won : bool then
    let l := stop_emplace l in
    (stop_join (worker_run (length (queue l)) l), true)
  else (l, false).
(** [FileLog::stop]. *)
Definition stop (f : file_log) : file_log * bool :=
  let '(l, won) := base_stop (base f) in
  if won : bool then (FileLog l false (found f), true) else (FileLog l (ofs f) (found f), false).
(** The destructors of [FileLog], of its stream and of [OstreamLog]. *)
Definition destroy (f : file_log) : file_log :=
  let '(f, _) := stop f in
  FileLog (fst (base_stop (base f))) false (found f).

(** [stop] writes what was accepted, in order. *)
Lemma base_stop_running l :
  Queue.reachable l → running l = true →
  let l' := fst (base_stop l) in
  snd (base_stop l) = true ∧ worker l' = Joined ∧ out l' = accepted l ∧ running l' = false ∧ has_target l' = false.
Proof.
  intros (Hq & Hr & _)%reachable_ok E. unfold base_stop, stop_exchange. rewrite E; cbn [fst snd].
  unfold queue_ok in Hq. rewrite (proj1 Hr E) in Hq. destruct (worker l) eqn:Hw; try done. destruct Hq as (q & Hq & Ha).
  set (l1 := stop_emplace _).
  destruct (worker_run_flush q [] (length (queue l1)) l1) as [_ Ho]; [by subst l1; simpl; rewrite Hq|done| |].
  { subst l1; simpl. rewrite Hq, length_app, length_fmap; simpl; lia. }
  unfold stop_join; cbn [fst snd worker out running has_target]. rewrite Ho, Ha. split_and!; try done.
  assert (∀ n x, running (worker_run n x) = running x) as ->; [|done].
  clear. induction n as [|n IH]; intros x; simpl; [done|].
  destruct (worker_pop x) as [y|] eqn:E; [|done]. rewrite IH. unfold worker_pop in E.
  destruct (worker x), (queue x) as [|[?|] ?]; by simplify_eq/=.
Qed.

Lemma base_stop_again l : running l = false → base_stop l = (fst (stop_exchange l), false).
Proof. intros E. unfold base_stop, stop_exchange. by rewrite E. Qed.

(** A file logger that is destroyed has appended exactly the accepted lines to its
    file, each ended by a newline, and closed it; when the file cannot be opened the
    constructor throws.  The second [stop], of the base class, finds nothing to do. *)
Theorem file_log_destroyed (opened : bool) (text : str) (l : ostream_log) :
  Queue.reachable l → running l = true →
  match make_file_log opened text with
  | Ok f =>
    opened = true ∧ base f = start initial ∧
    let f' := destroy (FileLog l (ofs f) (found f)) in
    file_text f' = text ++ lines_text (accepted l) ∧ ofs f' = false ∧ worker (base f') = Joined
  | Throw e => opened = false ∧ e = NstlException " open for write failed"
  end.
Proof.
  intros Hl Hr. destruct opened; [|done]. simpl. split_and!; [done..| | |].
  all: unfold destroy, stop, file_text; simpl;
    destruct (base_stop_running l Hl Hr) as (H1 & H2 & H3 & H4 & _);
    destruct (base_stop l) as [l1 won]; simpl in *; subst won; simpl; rewrite ?base_stop_again by done; simpl.
  - by rewrite H3.
  - done.
  - done.
Qed.

(** ** [Logger::size] and [Logger::throttleSize]

    over the writers behind the shared pointers. *)
Definition logger_size (i : nat) (s : Stack.state) (writers : gmap nat ostream_log) : Z :=
  match Stack.loggers s !! i ≫= (writers !!.) with Some l => size l | None => 0 end.
Definition logger_throttleSize (i : nat) (n : Z) (s : Stack.state) : M (gmap nat ostream_log) bool :=
  mthrow_if (n <? 0)%Z (NstlException "negative log throttle size (");;
  match Stack.loggers s !! i with
  | Some log => mmodify (alter (throttleSize n) log);; mret true
  | None => mret false
  end.

(** The steps under a throttle of [n] with at most [k] threads inside [push]. *)
Definition throttled_step (n : Z) (k : nat) (l l' : ostream_log) : Prop :=
  Queue.step l l' ∧ throttle l' = n ∧ length (pushing l') ≤ k.
Definition markers (l : ostream_log) : nat := match phase l with Marked _ => 1 | _ => 0 end.
Definition within (n : Z) (k : nat) (l : ostream_log) : Prop :=
  (size l + Z.of_nat (length (pushing l)) ≤ n + Z.of_nat k + Z.of_nat (markers l))%Z.

Lemma throttled_step_within n k l l' :
  log_ok l → throttle l = n → throttled_step n k l l' → within n k l → within n k l'.
Proof.
  intros (_ & Hr & _) Hn (Hst & Hn' & Hk') Hw. unfold within, size, markers in *.
  destruct Hst as [line l|line a b l Hp|m l Hm|l|l Hp|l before Hp Hj|l l' Hp]; simpl in *.
  - revert Hn' Hk'. unfold push_check, size. destruct (Z.ltb_spec (throttle l) (Z.of_nat (length (queue l)))); [done|].
    simpl. intros _ Hk'. destruct (phase l); lia.
  - rewrite Hp in Hw. rewrite !length_app in *. simpl in *. destruct (phase l); lia.
  - done.
  - destruct (running l); [|done]. by rewrite (proj1 Hr eq_refl) in Hw.
  - rewrite length_app; simpl. rewrite Hp in Hw. lia.
  - done.
  - unfold worker_pop in Hp. destruct (worker l), (queue l) as [|[x|] q]; simplify_eq/=; destruct (phase l); lia.
Qed.

(** The throttle bounds the queue: with at most [k] threads that log, it never holds
    more than the throttle and one line for each of them, and the end marker. *)
Theorem throttle_bounds_queue (n : Z) (k : nat) (l : ostream_log) :
  (0 ≤ n)%Z → rtc (throttled_step n k) (throttleSize n (start initial)) l → (size l ≤ n + Z.of_nat k + 1)%Z.
Proof.
  intros Hn Hr.
  assert (Hi : ∀ x y, rtc (throttled_step n k) x y → log_ok x → throttle x = n →
    within n k x → within n k y).
  { induction 1 as [|x y z Hs _ IH]; [done|]. intros H1 H2 H3. pose proof Hs as (? & ? & _).
    apply IH; [by eapply step_ok|done|by eapply throttled_step_within]. }
  assert (Hw : within n k l).
  { apply (Hi _ _ Hr); [|done|unfold within, size, markers; simpl; lia].
    apply (step_ok (start initial)); [by apply step_throttle|apply reachable_ok, rtc_refl]. }
  unfold within, markers in Hw. destruct (phase l); lia.
Qed.

Example one_thread_bound :
  let l := push_check (lit "c") (push_emplace (lit "b") [] (push_check (lit "b")
    (push_emplace (lit "a") [] (push_check (lit "a") (throttleSize 1 (start initial)))))) in
  size l = 2%Z ∧ pushing l = [].
Proof. done. Qed.
End Sink.
