(* ===== verification/LogSystem.v ===== *)
(** * The logging system: logging.hpp, logging.cpp, logger.hpp, logger.cpp together

    The components of [Logger] and [LogSinks] composed as a program uses them:
    [Logger] objects that make a writer each, the stack they enter, the global level
    and functor, log statements that are formatted and pushed to the writer on top,
    the worker of every writer, and the end of a writer with its last owner. *)

From S2P Require Import Prelude Strings Parse Logger LogSinks.

Set Default Proof Using "Type".

Module LogSystem.
Import Queue.

(** What a writer writes to: a stream, [std::cout], or a file. *)
Inductive sink := OstreamSink | CoutSink | FileSink.
#[export] Instance sink_eq_dec : EqDecision sink.
Proof. solve_decision. Defined.

(** An object of a class derived from [OstreamLog]; the stream members are those of
    [FileLog]. *)
Record object := Object { kind : sink; lvl : Level.values; file : Sink.file_log; live : bool }.
Definition writer (o : object) : ostream_log := Sink.base (file o).
Definition set_writer (l : ostream_log) (o : object) : object :=
  Object (kind o) (lvl o) (Sink.FileLog l (Sink.ofs (file o)) (Sink.found (file o))) (live o).

(** ** Writers in isolation *)

(** [OstreamLog::push] without other threads at it. *)
Definition push (line : str) (l : ostream_log) : ostream_log :=
  if (throttle l <? size l)%Z then l else push_emplace line (pushing l) l.

Lemma push_reachable line l : Queue.reachable l → Queue.reachable (push line l).
Proof.
  intros Hl. unfold push. destruct (_ <? _)%Z eqn:E; [done|].
  assert (push_check line l =
    Log (queue l) (running l) (worker l) (has_target l) (throttle l) (out l) (line :: pushing l) (phase l) (accepted l)) as Ec
    by (unfold push_check; by rewrite E).
  eapply rtc_r; [eapply rtc_r; [exact Hl|apply (step_push_check line)]|].
  rewrite Ec. exact (step_push_emplace line [] (pushing l) (Log _ _ _ _ _ _ _ _ _) eq_refl).
Qed.

Lemma worker_run_reachable n l : Queue.reachable l → Queue.reachable (worker_run n l).
Proof.
  revert l. induction n as [|n IH]; intros l Hl; simpl; [done|]. destruct (worker_pop l) as [l'|] eqn:E; [|done].
  apply IH. eapply rtc_r; [exact Hl|]. by apply step_worker.
Qed.

Lemma worker_pop_frame l l' :
  worker_pop l = Some l' → accepted l' = accepted l ∧ throttle l' = throttle l ∧ running l' = running l ∧
  phase l' = phase l ∧ length (queue l') ≤ length (queue l).
Proof.
  unfold worker_pop. destruct (worker l), (queue l) as [|[x|] q]; intros; simplify_eq/=; split_and!; lia || done.
Qed.

Lemma worker_run_frame n l :
  accepted (worker_run n l) = accepted l ∧ throttle (worker_run n l) = throttle l ∧ phase (worker_run n l) = phase l.
Proof.
  revert l. induction n as [|n IH]; intros l; simpl; [done|]. destruct (worker_pop l) as [l'|] eqn:E; [|done].
  apply worker_pop_frame in E as (<- & <- & _ & <- & _). apply IH.
Qed.

(** [stop] alone reaches a state in which all that was accepted is written. *)
Lemma base_stop_finishes l :
  Queue.reachable l → running l = true →
  let l' := fst (Sink.base_stop l) in
  Queue.reachable l' ∧ running l' = false ∧ worker l' = Joined ∧ out l' = accepted l' ∧
  accepted l' = accepted l ∧ throttle l' = throttle l.
Proof.
  intros Hl Hr. destruct (Sink.base_stop_running l Hl Hr) as (_ & H2 & H3 & H4 & _). revert H2 H3 H4.
  pose proof (proj1 (proj1 (proj2 (reachable_ok l Hl))) Hr) as Hp.
  unfold Sink.base_stop, stop_exchange. rewrite Hr. cbn [fst snd]. set (l1 := stop_emplace _).
  assert (Queue.reachable l1) as H1.
  { eapply rtc_r; [eapply rtc_r; [exact Hl|apply step_stop_exchange]|]. unfold stop_exchange. rewrite Hr.
    by apply step_stop_emplace. }
  destruct (worker_run_frame (length (queue l1)) l1) as (Ha & Ht & Hph).
  intros H2 H3 H4. split_and!; [|done|done|..].
  - eapply rtc_r; [apply worker_run_reachable, H1|]. eapply step_stop_join; [by rewrite Hph|].
    unfold Sink.base_stop in H2. pose proof (reachable_ok l Hl) as (Hq & _). unfold queue_ok in Hq. rewrite Hp in Hq.
    destruct (worker l) eqn:Hw; try done. destruct Hq as (q & Hq & _).
    apply (worker_run_flush q []); [by subst l1; simpl; rewrite Hq|done|].
    subst l1; simpl. rewrite Hq, length_app, length_fmap; simpl; lia.
  - rewrite H3. symmetry. exact Ha.
  - exact Ha.
  - exact Ht.
Qed.

Section system.
Context {zone time : Type} (current_zone : zone) (locate_zone : str → option zone).
Context (zoned : zone → time → str) (utc : time → str).
(** The environment variable [LOG_TZ], whether [tz_instance] was first called with a
    clock, and the platform. *)
Context (log_tz : option str) (has_clock : bool) (win32 : bool).

(** The globals: the stack of loggers with the functor and the level, the objects
    made so far, the time zone once it was used, and whether the process was
    aborted. *)
Record system := System {
  stack : Stack.state;
  objs : gmap nat object;
  tz : option (@Format.LogTimeZone zone);
  aborted : bool;
}.
Definition boot : system := System Stack.initial ∅ None false.
Definition set_stack (x : Stack.state) (s : system) : system := System x (objs s) (tz s) (aborted s).
Definition set_objs (x : gmap nat object) (s : system) : system := System (stack s) x (tz s) (aborted s).

(** What the stack sees of the objects. *)
Definition api_of (m : gmap nat object) (n : nat) : Stack.logger_api :=
  match m !! n with
  | Some o => Stack.Api (lvl o) (bool_decide (kind o = CoutSink))
  | None => Stack.Api Level.Info false
  end.
(** A call of the stack inside the system. *)
Definition on_stack {A} (f : (nat → Stack.logger_api) → M Stack.state A) : M system A := λ s,
  let '(st, r) := f (api_of (objs s)) (stack s) in (set_stack st s, r).

(** ** The ends of an object *)

(** The destructors: a [FileLog] stops, closes its file and is stopped again by its
    base class. *)
Definition destroy_object (o : object) : object :=
  match kind o with
  | FileSink => Object FileSink (lvl o) (Sink.destroy (file o)) false
  | k => Object k (lvl o) (Sink.FileLog (fst (Sink.base_stop (writer o))) (Sink.ofs (file o)) (Sink.found (file o))) false
  end.
(** A shared pointer to the object [n] goes: the object is destroyed when neither the
    stack nor a [Logger] shares it. *)
Definition release (n : nat) : M system () :=
  s ← mget;
  if Stack.alive ∅ (stack s) n then mret () else mmodify (set_objs (alter destroy_object n (objs s))).

(** ** The constructors and the destructor of [Logger] *)

(** [std::make_shared] of a writer; a file is opened first, [text] is what it held. *)
Definition make_object (k : sink) (lev : Level.values) (opened : bool) (text : str) : M system nat :=
  f ← mlift (if bool_decide (k = FileSink) then Sink.make_file_log opened text
             else Ok (Sink.FileLog (start initial) false []));
  s ← mget;
  let n := fresh (dom (objs s)) in
  mput (set_objs (<[n := Object k lev f true]> (objs s)) s);;
  mret n.
(** A block whose destructors run when it is left by an exception. *)
Definition unwinding {A} (m : M system A) (cleanup : M system ()) : M system A := λ s,
  match m s with
  | (s', Throw e) => (fst (cleanup s'), Throw e)
  | r => r
  end.
(** When the delegated constructor throws, the object goes with its last pointer. *)
Definition new_logger (i : nat) (k : sink) (lev : Level.values) (opened : bool) (text : str) : M system () :=
  n ← make_object k lev opened text;
  unwinding (on_stack (λ api, Stack.make_logger api i (Some n))) (release n).
(** [~Logger] is [reset]. *)
Definition delete_logger (i : nat) : M system () :=
  s ← mget;
  match Stack.loggers (stack s) !! i with
  | None => mret ()
  | Some n => on_stack (λ api, Stack.reset api i);; release n
  end.

(** ** Log statements *)

(** [LogTimeZone::tz_instance]: constructed at its first use, again after a
    constructor that threw. *)
Definition tz_instance : M system (@Format.LogTimeZone zone) :=
  s ← mget;
  match tz s with
  | Some z => mret z
  | None =>
    z ← mlift (Format.make_tz current_zone locate_zone log_tz);
    mput (System (stack s) (objs s) (Some z) (aborted s));; mret z
  end.
(** [LogTimeZone::operator=] on the instance. *)
Definition assign_zone (z : option str) : M system () :=
  t ← tz_instance;
  let '(t', r) := Format.setZone current_zone locate_zone z t in
  mmodify (λ s, System (stack s) (objs s) (Some t') (aborted s));; mlift r.

(** A place in the source with what the statement prints, its thread, and what the
    clock of the system and the installed one show. *)
Record statement := Statement {
  st_level : Level.values; st_path : str; st_line : Z; st_tid : str;
  st_system_time : time; st_clock_time : time; st_details : str }.
(** [LogTimeZone::_now]. *)
Definition now_of (st : statement) : time := if has_clock then st_clock_time st else st_system_time st.
(** The text of a statement, [LoggerFormatter::logLine]. *)
Definition statement_line (z : @Format.LogTimeZone zone) (st : statement) : res str :=
  Format.log_line zoned utc z (now_of st) (st_level st) (Basename.safe_basename_view win32 (st_path st))
    (st_line st) (st_tid st) (st_details st).

(** [OstreamLog::push] on an object; at the level Terminate [stop] of its class is
    called and the process ends. *)
Definition stop_object (o : object) : object :=
  match kind o with
  | FileSink => Object FileSink (lvl o) (fst (Sink.stop (file o))) (live o)
  | _ => set_writer (fst (Sink.base_stop (writer o))) o
  end.
Definition push_object (n : nat) (lev : Level.values) (line : str) : M system () :=
  s ← mget;
  match objs s !! n with
  | None => mthrow (UndefinedBehaviour "weak_ptr to no object")
  | Some o =>
    if (throttle (writer o) <? size (writer o))%Z then mret ()
    else
      let o := set_writer (push line (writer o)) o in
      if bool_decide (lev = Level.Terminate) then
        mput (System (stack s) (<[n := stop_object o]> (objs s)) (tz s) true)
      else mput (set_objs (<[n := o]> (objs s)) s)
  end.

(** [LoggerFormatter::operator()]: through the functor, whose pointer is weak. *)
Definition deliver (lev : Level.values) (line : str) : M system () :=
  s ← mget;
  match Stack.functor (stack s) with
  | None => mret ()
  | Some n => if Stack.alive ∅ (stack s) n then push_object n lev line else mret ()
  end.
(** The macro [NSTL_LOG_LEVEL_IMPL]. *)
Definition log (st : statement) : M system () :=
  s ← mget;
  if (Stack.level (stack s) <=? st_level st)%Z then
    z ← tz_instance;
    line ← mlift (statement_line z st);
    deliver (st_level st) line
  else mret ().

(** Where and when a statement is reached, and the macros of the levels. *)
Record place := Place { at_path : str; at_tid : str; at_system_time : time; at_clock_time : time }.
Definition NSTL_LOG_LEVEL (lev : Level.values) (p : place) (line : Z) (details : str) : M system () :=
  log (Statement lev (at_path p) line (at_tid p) (at_system_time p) (at_clock_time p) details).
Definition NSTL_DEBUG := NSTL_LOG_LEVEL Level.Debug.
Definition NSTL_INFO := NSTL_LOG_LEVEL Level.Info.
Definition NSTL_WARNING := NSTL_LOG_LEVEL Level.Warning.
Definition NSTL_ERROR := NSTL_LOG_LEVEL Level.Error.
Definition NSTL_TERMINATE := NSTL_LOG_LEVEL Level.Terminate.

(** ** A client: the trace callback of http_client.cpp *)

Inductive curl_infotype :=
| CURLINFO_TEXT | CURLINFO_HEADER_IN | CURLINFO_HEADER_OUT | CURLINFO_DATA_IN | CURLINFO_DATA_OUT
| CURLINFO_SSL_DATA_IN | CURLINFO_SSL_DATA_OUT | CURLINFO_OTHER.
Definition curl_text (s : str) : str := lit "CURL" ++ [Format.delimiter] ++ s.
Definition my_trace (p : place) (type : curl_infotype) (data : str) : M system Z :=
  let data_view := NString.right_trim_view data in
  match type with
  | CURLINFO_TEXT => NSTL_INFO p 56 (curl_text data_view);; mret 0%Z
  | CURLINFO_HEADER_IN => NSTL_DEBUG p 59 (curl_text (lit " <= header recv - " ++ data_view));; mret 0%Z
  | CURLINFO_HEADER_OUT => NSTL_DEBUG p 62 (curl_text (lit " => header send - " ++ data_view));; mret 0%Z
  | CURLINFO_DATA_IN => NSTL_DEBUG p 65 (curl_text (lit " <= data recv"));; mret 0%Z
  | CURLINFO_DATA_OUT => NSTL_DEBUG p 68 (curl_text (lit " => data send"));; mret 0%Z
  | CURLINFO_SSL_DATA_IN => NSTL_DEBUG p 71 (curl_text (lit " <= ssl data recv"));; mret 0%Z
  | CURLINFO_SSL_DATA_OUT => NSTL_DEBUG p 74 (curl_text (lit " => ssl data send"));; mret 0%Z
  | CURLINFO_OTHER => mret 0%Z
  end.

(** ** Programs *)

(** What the main thread and the workers do; a [Logger] is made under a free
    number, and nothing happens after an abort. *)
Inductive op :=
| New (i : nat) (k : sink) (lev : Level.values) (opened : bool) (text : str)
| Delete (i : nat)
| Log (st : statement)
| SetZone (z : option str)
| Turn (n : nat).
Definition worker_turn (o : object) : object :=
  match worker_pop (writer o) with Some l => set_writer l o | None => o end.
Definition exec (o : op) (s : system) : system :=
  if aborted s then s
  else
    match o with
    | New i k lev opened text =>
      if decide (is_Some (Stack.loggers (stack s) !! i)) then s else fst (new_logger i k lev opened text s)
    | Delete i => fst (delete_logger i s)
    | Log st => fst (log st s)
    | SetZone z => fst (assign_zone z s)
    | Turn n => set_objs (alter worker_turn n (objs s)) s
    end.
Definition run (ops : list op) (s : system) : system := foldl (λ s o, exec o s) s ops.

(** ** The lines a writer should get *)

(** The line of a statement for the object [n], from what is on top of the stack. *)
Definition tz_of (s : system) : res (@Format.LogTimeZone zone) :=
  match tz s with Some z => Ok z | None => Format.make_tz current_zone locate_zone log_tz end.
Definition line_for (n : nat) (st : statement) (s : system) : list str :=
  if bool_decide (list.last (Stack.items (stack s)) = Some n) &&
     (Stack.api_level (api_of (objs s) n) <=? st_level st)%Z
  then match z ← tz_of s; statement_line z st with Ok line => [line] | Throw _ => [] end
  else [].
Definition expected_one (n : nat) (o : op) (s : system) : list str :=
  if aborted s then [] else match o with Log st => line_for n st s | _ => [] end.
Fixpoint expected (n : nat) (ops : list op) (s : system) : list str :=
  match ops with
  | [] => []
  | o :: ops => expected_one n o s ++ expected n ops (exec o s)
  end.
(** The lines an object has accepted. *)
Definition received (s : system) (n : nat) : list str :=
  match objs s !! n with Some o => accepted (writer o) | None => [] end.

(** ** The invariant *)

(** The writer was stopped: all it accepted is written. *)
Definition finished (o : object) : Prop :=
  running (writer o) = false ∧ worker (writer o) = Joined ∧ out (writer o) = accepted (writer o) ∧
  (kind o = FileSink → Sink.ofs (file o) = false).
Definition working (k : nat) (o : object) : Prop :=
  running (writer o) = true ∧ length (queue (writer o)) ≤ k ∧ (kind o = FileSink → Sink.ofs (file o) = true).
Definition object_ok (k : nat) (ab : bool) (o : object) : Prop :=
  Queue.reachable (writer o) ∧ throttle (writer o) = (2 ^ 63 - 1)%Z ∧
  ((live o = true ∧ working k o) ∨ ((live o = true → ab = true) ∧ finished o)).
(** The live objects are those on the stack, which are those the [Logger]s own, each
    its own. *)
Definition owners_ok (st : Stack.state) (m : gmap nat object) : Prop :=
  NoDup (Stack.items st) ∧
  (∀ n, n ∈ Stack.items st ↔ ∃ i, Stack.loggers st !! i = Some n) ∧
  (∀ i j n, Stack.loggers st !! i = Some n → Stack.loggers st !! j = Some n → i = j) ∧
  (∀ n, n ∈ Stack.items st ↔ ∃ o, m !! n = Some o ∧ live o = true).
Definition system_ok (k : nat) (s : system) : Prop :=
  Stack.stack_ok (api_of (objs s)) (stack s) ∧ owners_ok (stack s) (objs s) ∧
  map_Forall (λ _, object_ok k (aborted s)) (objs s) ∧
  (aborted s = true → ∃ top o, list.last (Stack.items (stack s)) = Some top ∧ objs s !! top = Some o ∧ finished o).

(** The parameters of the section do not matter for the state. *)
Ltac forget_parameters := clear current_zone locate_zone zoned utc log_tz has_clock win32.

Lemma stack_ok_ext api api' st :
  (∀ n, n ∈ Stack.items st ∨ (∃ i, Stack.loggers st !! i = Some n) → api n = api' n) →
  Stack.stack_ok api st → Stack.stack_ok api' st.
Proof.
  forget_parameters. intros He (Ht & Hc & Hu).
  assert (∀ i, Stack.cout_owner api st i ↔ Stack.cout_owner api' st i) as Ho.
  { intros i. unfold Stack.cout_owner. split; intros (n & Hn & Hk); exists n; (split; [done|]);
      [rewrite <-He|rewrite He]; eauto. }
  split_and!; [|by setoid_rewrite <-Ho..].
  intros top Hl. destruct (Ht top Hl) as [-> ->]. split; [done|]. f_equal. apply He. left.
  apply last_Some in Hl as [l ->]. set_solver.
Qed.

Lemma alter_as_insert (f : object → object) (m : gmap nat object) n o : m !! n = Some o → alter f n m = <[n := f o]> m.
Proof.
  intros Hn. apply map_eq. intros x. destruct (decide (n = x)) as [<-|].
  - by rewrite lookup_alter_eq, lookup_insert_eq, Hn.
  - by rewrite lookup_alter_ne, lookup_insert_ne.
Qed.

Lemma api_of_insert m n o o' :
  m !! n = Some o → kind o' = kind o → lvl o' = lvl o → ∀ x, api_of (<[n := o']> m) x = api_of m x.
Proof.
  intros Hn Hk Hl x. unfold api_of. destruct (decide (n = x)) as [<-|Hx].
  - by rewrite lookup_insert_eq, Hn, Hk, Hl.
  - by rewrite lookup_insert_ne.
Qed.

Lemma object_ok_mono k k' ab ab' o : k ≤ k' → (ab = true → ab' = true) → object_ok k ab o → object_ok k' ab' o.
Proof.
  forget_parameters. intros Hk Hab (Hr & Ht & H). split_and!; [done|done|]. destruct H as [(Hl & H1 & H2 & H3)|[Hl Hf]].
  - left. unfold working. split_and!; [done|done|lia|done].
  - right. split; [|exact Hf]. intros H. by apply Hab, Hl.
Qed.

Lemma system_ok_mono k k' s : k ≤ k' → system_ok k s → system_ok k' s.
Proof.
  forget_parameters. intros Hk (H1 & H2 & H3 & H4). split_and!; [done|done| |done].
  intros n o Hn. eapply object_ok_mono; [exact Hk|done|]. by apply (H3 n).
Qed.

Lemma alive_items st m n : owners_ok st m → Stack.alive ∅ st n = bool_decide (n ∈ Stack.items st).
Proof.
  intros (_ & Ho & _). unfold Stack.alive. rewrite (bool_decide_eq_false_2 (n ∈ ∅)), orb_false_r by set_solver.
  destruct (decide (n ∈ Stack.items st)) as [Hn|Hn]; [by rewrite (bool_decide_eq_true_2 (n ∈ Stack.items st))|].
  rewrite (bool_decide_eq_false_2 (n ∈ Stack.items st)) by done. simpl. apply bool_decide_eq_false_2.
  intros ([i x] & -> & Hi)%list_elem_of_fmap. apply Hn, Ho. exists i. by apply elem_of_map_to_list.
Qed.

(** Another state of the same object. *)
Lemma system_ok_update k s n o o' t ab :
  system_ok k s → aborted s = false → objs s !! n = Some o →
  kind o' = kind o → lvl o' = lvl o → live o' = live o → object_ok k ab o' →
  (ab = true → list.last (Stack.items (stack s)) = Some n ∧ finished o') →
  system_ok k (System (stack s) (<[n := o']> (objs s)) t ab).
Proof.
  intros (H1 & (Hd & Ho & Hi & Hl) & H3 & H4) Ha Hn Hk Hv Hli Hok Hab. rewrite Ha in H3.
  split_and!; simpl; [|split_and!; [done|done|done|]| |].
  - apply (stack_ok_ext (api_of (objs s))); [|done]. intros x _. symmetry. by apply (api_of_insert _ _ o).
  - intros x. rewrite Hl. setoid_rewrite lookup_insert_Some. split.
    + intros (ox & Hx & Hlx). destruct (decide (n = x)) as [<-|Hne]; [|by eauto].
      exists o'. split; [by left|]. rewrite Hli. congruence.
    + intros (ox & [[<- <-]|[Hne Hx]] & Hlx); [|by eauto]. exists o. split; [done|]. congruence.
  - apply map_Forall_insert_2; [done|]. intros x ox Hx. eapply object_ok_mono; [done| |by apply (H3 x)]. done.
  - intros [Hlast Hf]%Hab. exists n, o'. by rewrite lookup_insert_eq.
Qed.

Lemma make_logger_eq api i n st :
  Stack.make_logger api i (Some n) st =
  if Stack.is_cout_logger (api n) && Stack.active_cout_logger st then
    (st, Throw (NstlException "cout logger is already active!"))
  else
    (Stack.State (Stack.items st ++ [n]) (Some n) (Stack.api_level (api n))
       (Stack.is_cout_logger (api n) || Stack.active_cout_logger st) (<[i := n]> (Stack.loggers st)), Ok ()).
Proof.
  unfold Stack.make_logger, Stack.push_back, Stack._set_functor. munfold_goal.
  destruct (Stack.is_cout_logger (api n)); munfold_goal.
  - destruct st as [it f l [] lo]; simpl; [done|]. by rewrite last_snoc.
  - by rewrite last_snoc.
Qed.

Lemma take_last_filter (l : list nat) n :
  NoDup l → list.last l = Some n → take (length l - 1) l = filter (λ x, x ≠ n) l.
Proof.
  forget_parameters. intros Hd [l' ->]%last_Some. rewrite length_app; simpl. rewrite Nat.add_sub, take_app_length.
  rewrite list.filter_app, filter_cons_False, filter_nil, app_nil_r by naive_solver.
  apply list.NoDup_app in Hd as (_ & Hd & _). clear -Hd. induction l' as [|x l' IH]; [done|].
  rewrite filter_cons_True by (intros ->; apply (Hd n); set_solver). f_equal. apply IH. set_solver.
Qed.

Lemma erase_eq api n st :
  NoDup (Stack.items st) →
  ∃ st' b, Stack.erase api n st = (st', Ok b) ∧ Stack.items st' = filter (λ x, x ≠ n) (Stack.items st) ∧
    Stack.loggers st' = Stack.loggers st.
Proof.
  intros Hd. unfold Stack.erase. munfold_goal. case_bool_decide as Hl; munfold_goal.
  - rewrite (take_last_filter _ n) by done. unfold Stack._set_functor; simpl. case_match; simpl; eauto.
  - eauto.
Qed.

Lemma reset_eq api i n st :
  NoDup (Stack.items st) → Stack.loggers st !! i = Some n →
  ∃ st', Stack.reset api i st = (st', Ok ()) ∧ Stack.items st' = filter (λ x, x ≠ n) (Stack.items st) ∧
    Stack.loggers st' = delete i (Stack.loggers st).
Proof.
  intros Hd Hi. unfold Stack.reset. munfold_goal. rewrite Hi. munfold_goal.
  destruct (Stack.is_cout_logger (api n)); munfold_goal;
    match goal with |- context [Stack.erase api n ?x] => destruct (erase_eq api n x Hd) as (st' & b & -> & H1 & H2) end;
    by exists st'.
Qed.

(** ** One object *)

Lemma base_stop_idle l : running l = false → Sink.base_stop l = (l, false).
Proof. intros Hr. unfold Sink.base_stop, stop_exchange. destruct l; simpl in *. by rewrite Hr. Qed.

Lemma base_stop_won l : Queue.reachable l → running l = true → Sink.base_stop l = (fst (Sink.base_stop l), true).
Proof. intros Hl Hr. destruct (Sink.base_stop_running l Hl Hr) as (<- & _). by destruct (Sink.base_stop l). Qed.

(** The writer that [stop] leaves, whatever the class of the object. *)
Definition stopped (o : object) : object :=
  Object (kind o) (lvl o)
    (Sink.FileLog (fst (Sink.base_stop (writer o))) (if decide (kind o = FileSink) then false else Sink.ofs (file o))
       (Sink.found (file o))) (live o).

Lemma stop_object_eq o : Queue.reachable (writer o) → running (writer o) = true → stop_object o = stopped o.
Proof.
  intros Hl Hr. unfold stop_object, stopped, set_writer. destruct o as [[] lv [l f t] li]; try done. simpl in *.
  unfold Sink.stop; simpl. by rewrite base_stop_won.
Qed.

Lemma destroy_object_eq o :
  Queue.reachable (writer o) → running (writer o) = true →
  destroy_object o = Object (kind (stopped o)) (lvl (stopped o)) (file (stopped o)) false.
Proof.
  intros Hl Hr. unfold destroy_object, stopped. destruct o as [[] lv [l f t] li]; try done. simpl in *.
  unfold Sink.destroy, Sink.stop; simpl. rewrite base_stop_won by done. simpl.
  rewrite base_stop_idle; [done|]. by apply base_stop_finishes.
Qed.

Lemma stopped_ok k o :
  Queue.reachable (writer o) → throttle (writer o) = (2 ^ 63 - 1)%Z → running (writer o) = true →
  finished (stopped o) ∧ accepted (writer (stopped o)) = accepted (writer o) ∧
  object_ok k true (stopped o) ∧
  object_ok k false (Object (kind (stopped o)) (lvl (stopped o)) (file (stopped o)) false).
Proof.
  intros Hl Ht Hr. destruct (base_stop_finishes _ Hl Hr) as (H1 & H2 & H3 & H4 & H5 & H6).
  assert (finished (stopped o)) as Hf.
  { split_and!; [done|done|done|]. simpl. intros Hk. by rewrite decide_True. }
  split_and!; [done|done|..].
  - split_and!; [done|by rewrite <-Ht|]. by right.
  - split_and!; [done|by rewrite <-Ht|]. by right.
Qed.

(** An object that can still work does. *)
Lemma object_ok_working k o : object_ok k false o → live o = true → working k o.
Proof. intros (_ & _ & [[_ H]|[H _]]) Hl; [done|]. by specialize (H Hl). Qed.

Lemma push_ok k o line :
  object_ok k false o → live o = true → (Z.of_nat k < 2 ^ 63 - 1)%Z →
  (throttle (writer o) <? size (writer o))%Z = false ∧
  object_ok (S k) false (set_writer (push line (writer o)) o) ∧
  accepted (push line (writer o)) = accepted (writer o) ++ [line].
Proof.
  intros Ho Hl Hk. destruct (object_ok_working _ _ Ho Hl) as (H1 & H2 & H3). destruct Ho as (Hr & Ht & _).
  assert ((throttle (writer o) <? size (writer o))%Z = false) as E
    by (rewrite Ht; unfold size; apply Z.ltb_ge; lia).
  pose proof (push_reachable line _ Hr) as Hp. unfold push in *. rewrite E in *. split_and!; [done| |done].
  split_and!; [done|done|]. left. split; [done|]. split_and!; [done| |done].
  change (length (queue (writer o) ++ [Some line]) ≤ S k). rewrite length_app; simpl. lia.
Qed.

Lemma worker_turn_ok k ab o :
  object_ok k ab o →
  object_ok k ab (worker_turn o) ∧ accepted (writer (worker_turn o)) = accepted (writer o) ∧
  (finished o → worker_turn o = o).
Proof.
  intros Ho. unfold worker_turn. destruct (worker_pop (writer o)) as [l|] eqn:E; [|done].
  assert (¬ finished o) as Hnf by (intros (_ & Hw & _); unfold worker_pop in E; by rewrite Hw in E).
  destruct Ho as (Hr & Ht & [[Hl (H1 & H2 & H3)]|[_ Hf]]); [|done].
  pose proof (worker_pop_frame _ _ E) as (Ea & Et & Er & _ & Eq). split_and!; [|done|done].
  split_and!; [eapply rtc_r; [exact Hr|]; by apply step_worker|by rewrite <-Ht|].
  left. split; [done|]. split_and!; [by rewrite <-H1|change (length (queue l) ≤ k); lia|done].
Qed.

(** ** The operations *)

(** The invariant, and the lines that were added. *)
Definition result_ok (k : nat) (s s' : system) (added : nat → list str) : Prop :=
  system_ok k s' ∧ ∀ n, received s' n = received s n ++ added n.

Lemma result_ok_same k s s' :
  system_ok k s' → objs s' = objs s → result_ok k s s' (λ _, []).
Proof. intros Hok Ho. split; [done|]. intros n. unfold received. by rewrite Ho, app_nil_r. Qed.

Lemma received_insert st m n o t ab x :
  received (System st (<[n := o]> m) t ab) x =
  if decide (n = x) then accepted (writer o) else received (System st m t ab) x.
Proof.
  unfold received; simpl. case_decide as E; [subst; by rewrite lookup_insert_eq|by rewrite lookup_insert_ne].
Qed.

(** A new object, live and on the stack or dead and not. *)
Lemma owners_ok_snoc st m i n o f l c :
  owners_ok st m → m !! n = None → Stack.loggers st !! i = None → live o = true →
  owners_ok (Stack.State (Stack.items st ++ [n]) f l c (<[i := n]> (Stack.loggers st))) (<[n := o]> m).
Proof.
  forget_parameters. intros (Hd & Ho & Hi & Hl) Hn Hli Hlo.
  assert (n ∉ Stack.items st) as Hni by (intros (? & ? & _)%Hl; congruence).
  assert (∀ j, Stack.loggers st !! j ≠ Some n) as Hnl by (intros j Hj; apply Hni, Ho; eauto).
  unfold owners_ok; simpl. split_and!.
  - apply list.NoDup_app. split_and!; [done|set_solver|apply NoDup_singleton].
  - intros x. rewrite elem_of_app, list_elem_of_singleton, Ho. setoid_rewrite lookup_insert_Some. split.
    + intros [[j Hj]| ->]; [|by eauto]. exists j. right. split; congruence.
    + intros (j & [[_ <-]|[_ Hj]]); eauto.
  - intros a b x. rewrite !lookup_insert_Some. intros [[<- <-]|[? Ha]] [[<- ?]|[? Hb]]; try done; subst; try naive_solver.
  - intros x. rewrite elem_of_app, list_elem_of_singleton, Hl. setoid_rewrite lookup_insert_Some. split.
    + intros [(ox & Hx & Hlx)| ->]; [|by eauto]. exists ox. split; [|done]. right. split; congruence.
    + intros (ox & [[<- _]|[_ Hx]] & Hlx); eauto.
Qed.

Lemma owners_ok_dead st m n o :
  owners_ok st m → m !! n = None → live o = false → owners_ok st (<[n := o]> m).
Proof.
  intros (Hd & Ho & Hi & Hl) Hn Hlo. split_and!; [done..|]. intros x. rewrite Hl. setoid_rewrite lookup_insert_Some.
  split; intros (ox & Hx & Hlx); exists ox; (split; [|done]).
  - right. split; congruence.
  - destruct Hx as [[_ <-]|[_ Hx]]; [congruence|done].
Qed.

Lemma api_of_fresh st m n o x :
  owners_ok st m → m !! n = None → x ∈ Stack.items st ∨ (∃ i, Stack.loggers st !! i = Some x) →
  api_of m x = api_of (<[n := o]> m) x.
Proof.
  intros (_ & Ho & _ & Hl) Hn Hx. assert (x ∈ Stack.items st) as (ox & Hox & _)%Hl by (destruct Hx; [done|by apply Ho]).
  unfold api_of. rewrite lookup_insert_ne; [done|]. congruence.
Qed.

Lemma start_reachable : Queue.reachable (start initial).
Proof. apply rtc_refl. Qed.

Lemma new_object_ok k i s n o :
  system_ok k s → aborted s = false → Stack.loggers (stack s) !! i = None → objs s !! n = None →
  writer o = start initial → live o = true → (kind o = FileSink → Sink.ofs (file o) = true) →
  result_ok k s (fst (unwinding (on_stack (λ api, Stack.make_logger api i (Some n))) (release n)
    (set_objs (<[n := o]> (objs s)) s))) (λ _, []).
Proof.
  intros (H1 & H2 & H3 & H4) Ha Hi Hn Hw Hl Hf.
  set (m := <[n := o]> (objs s)).
  assert (object_ok k false o) as Hok.
  { unfold object_ok, working. rewrite Hw. split_and!; [apply start_reachable|done|]. left. split_and!; [done..|simpl; lia|done]. }
  assert (∀ x, received (set_objs m s) x = received s x) as Hrec.
  { intros x. unfold set_objs, m. rewrite received_insert. case_decide as E; [|done].
    subst x. unfold received. by rewrite Hw, Hn. }
  assert (Stack.stack_ok (api_of m) (stack s)) as Hst.
  { apply (stack_ok_ext (api_of (objs s))); [|done]. intros x. by apply api_of_fresh. }
  unfold unwinding, on_stack. cbn [set_objs objs stack]. fold m. rewrite make_logger_eq.
  pose proof (Stack.make_logger_ok (api_of m) i (Some n) (stack s) Hi Hst) as Hst'. rewrite make_logger_eq in Hst'.
  destruct (_ && _); cbn [fst] in *.
  - unfold release. munfold_goal.
    assert (n ∉ Stack.items (stack s)) as Hni by (destruct H2 as (_ & _ & _ & Hlo); intros (? & ? & _)%Hlo; congruence).
    rewrite (alive_items _ (objs s)), bool_decide_eq_false_2 by done. munfold_goal.
    assert (alter destroy_object n m = <[n := destroy_object o]> (objs s)) as ->.
    { unfold m. by rewrite alter_insert_eq. }
    destruct Hok as (Hr & Ht & _). assert (running (writer o) = true) as Hrun by by rewrite Hw.
    rewrite destroy_object_eq by done. destruct (stopped_ok k o Hr Ht Hrun) as (_ & Hacc & _ & Hok').
    split.
    + split_and!; simpl.
      * apply (stack_ok_ext (api_of (objs s))); [|done]. intros x. by apply api_of_fresh.
      * by apply owners_ok_dead.
      * rewrite Ha in *. by apply map_Forall_insert_2.
      * intros Hab. congruence.
    + intros x. rewrite app_nil_r. unfold set_objs, set_stack; simpl. rewrite received_insert. case_decide as E; [|done].
      subst x. unfold received. rewrite Hn. transitivity (accepted (writer o)); [exact Hacc|by rewrite Hw].
  - split.
    + split_and!; simpl; [done|by apply owners_ok_snoc| |intros Hab; congruence].
      rewrite Ha in *. by apply map_Forall_insert_2.
    + intros x. rewrite app_nil_r. apply Hrec.
Qed.

Lemma new_logger_ok k i kd lev opened text s :
  system_ok k s → aborted s = false → Stack.loggers (stack s) !! i = None →
  result_ok k s (fst (new_logger i kd lev opened text s)) (λ _, []).
Proof.
  intros Hs Ha Hi. unfold new_logger, make_object. munfold_goal.
  assert (objs s !! fresh (dom (objs s)) = None) as Hn by (apply not_elem_of_dom, is_fresh).
  case_bool_decide as Hk.
  - unfold Sink.make_file_log. munfold_goal. destruct opened; munfold_goal; [|by apply result_ok_same].
    by apply new_object_ok.
  - by apply new_object_ok.
Qed.

Lemma owners_ok_delete st st' m i n o :
  owners_ok st m → Stack.loggers st !! i = Some n → live o = false →
  Stack.items st' = filter (λ x, x ≠ n) (Stack.items st) → Stack.loggers st' = delete i (Stack.loggers st) →
  owners_ok st' (<[n := o]> m).
Proof.
  forget_parameters. intros (Hd & Ho & Hi & Hl) Hn Hlo Hit Hlg. unfold owners_ok. rewrite Hit, Hlg. split_and!.
  - by apply list.NoDup_filter.
  - intros x. rewrite list_elem_of_filter, Ho. setoid_rewrite lookup_delete_Some. split.
    + intros [Hx [j Hj]]. exists j. split; [|done]. congruence.
    + intros (j & Hji & Hj). split; [|by eauto]. intros ->. by apply Hji, (Hi i j n).
  - intros a b x. rewrite !lookup_delete_Some. naive_solver.
  - intros x. rewrite list_elem_of_filter, Hl. setoid_rewrite lookup_insert_Some. split.
    + intros [Hx (ox & Hox & Hlx)]. exists ox. split; [|done]. right. done.
    + intros (ox & [[-> <-]|[Hne Hx]] & Hlx); [congruence|]. eauto.
Qed.

Lemma delete_logger_ok k i s :
  system_ok k s → aborted s = false → result_ok k s (fst (delete_logger i s)) (λ _, []).
Proof.
  intros Hs Ha. unfold delete_logger. munfold_goal.
  destruct (Stack.loggers (stack s) !! i) as [n|] eqn:Hi; munfold_goal; [|by apply result_ok_same].
  pose proof Hs as (H1 & H2 & H3 & _). rewrite Ha in H3. pose proof H2 as (Hd & Ho & _ & Hl).
  assert (n ∈ Stack.items (stack s)) as (o & Hn & Hlive)%Hl by (apply Ho; eauto).
  pose proof (H3 n o Hn) as Hok. destruct (object_ok_working _ _ Hok Hlive) as [Hrun _].
  pose proof Hok as (Hr & Ht & _). destruct (stopped_ok k o Hr Ht Hrun) as (_ & Hacc & _ & Hok').
  unfold on_stack. pose proof (Stack.reset_ok (api_of (objs s)) i _ H1) as Hst.
  destruct (reset_eq (api_of (objs s)) i n (stack s) Hd Hi) as (st' & Er & Hit & Hlg). rewrite Er in Hst |- *.
  pose proof (owners_ok_delete _ st' _ _ _ (destroy_object o) H2 Hi
    ltac:(unfold destroy_object; by destruct (kind o)) Hit Hlg) as How.
  unfold release. munfold_goal. rewrite (alive_items _ _ _ How), Hit, bool_decide_eq_false_2 by (by intros [? _]%list_elem_of_filter). munfold_goal.
  assert (alter destroy_object n (objs s) = <[n := destroy_object o]> (objs s)) as ->
    by by apply alter_as_insert.
  rewrite destroy_object_eq in * by done. split.
  - split_and!; simpl; [|done| |congruence].
    + eapply stack_ok_ext; [|exact Hst]. intros x _. symmetry. by apply (api_of_insert _ _ o).
    + rewrite Ha. by apply map_Forall_insert_2.
  - intros x. rewrite app_nil_r. unfold set_objs, set_stack; simpl. rewrite received_insert. case_decide as E; [|done].
    subst x. unfold received. rewrite Hn. exact Hacc.
Qed.

Lemma tz_instance_eq s :
  ∃ s', tz_instance s = (s', tz_of s) ∧ stack s' = stack s ∧ objs s' = objs s ∧ aborted s' = aborted s.
Proof.
  unfold tz_instance, tz_of. munfold_goal. destruct (tz s) as [z|]; munfold_goal; [by eauto|].
  destruct (Format.make_tz _ _ _) as [z|e]; munfold_goal; eauto.
Qed.

(** The invariant does not look at the time zone. *)
Lemma system_ok_same k s s' :
  stack s' = stack s → objs s' = objs s → aborted s' = aborted s → system_ok k s → system_ok k s'.
Proof. intros H1 H2 H3. unfold system_ok. by rewrite H1, H2, H3. Qed.

Lemma push_object_ok k n lev line s :
  system_ok k s → aborted s = false → (Z.of_nat k < 2 ^ 63 - 1)%Z → list.last (Stack.items (stack s)) = Some n →
  result_ok (S k) s (fst (push_object n lev line s)) (λ x, if decide (n = x) then [line] else []).
Proof.
  forget_parameters. intros Hs Ha Hk Hlast. pose proof Hs as (H1 & (_ & _ & _ & Hl) & H3 & _). rewrite Ha in H3.
  assert (n ∈ Stack.items (stack s)) as (o & Hn & Hlive)%Hl by (apply last_Some in Hlast as [l ->]; set_solver).
  destruct (push_ok k o line (H3 n o Hn) Hlive Hk) as (Et & Hok & Hacc).
  unfold push_object. munfold_goal. rewrite Hn, Et. case_bool_decide as Hlev; munfold_goal.
  - set (o1 := set_writer (push line (writer o)) o) in *.
    destruct (object_ok_working _ o1 Hok Hlive) as [Hrun _]. pose proof Hok as (Hr & Ht & _).
    destruct (stopped_ok (S k) o1 Hr Ht Hrun) as (Hf & Hacc' & Hok' & _). rewrite stop_object_eq by done. split.
    + by apply (system_ok_update _ _ _ o); [eapply system_ok_mono; [|exact Hs]; lia|..].
    + intros x. rewrite received_insert. case_decide as E; [|by rewrite app_nil_r]. subst x.
      transitivity (accepted (writer o1)); [exact Hacc'|]. unfold received. by rewrite Hn.
  - split.
    + unfold set_objs. rewrite Ha. by apply (system_ok_update _ _ _ o); [eapply system_ok_mono; [|exact Hs]; lia|..].
    + intros x. unfold set_objs. rewrite received_insert. case_decide as E; [|by rewrite app_nil_r]. subst x.
      unfold received. by rewrite Hn.
Qed.

(** The top of the stack gets the line, no other object. *)
Lemma deliver_top_ok k lev line s :
  system_ok k s → aborted s = false → (Z.of_nat k < 2 ^ 63 - 1)%Z →
  result_ok (S k) s (fst (deliver lev line s))
    (λ x, if bool_decide (list.last (Stack.items (stack s)) = Some x) then [line] else []).
Proof.
  forget_parameters. intros Hs Ha Hk. pose proof Hs as ((Htop & _) & Ho & _).
  assert (system_ok (S k) s) as HS by (eapply system_ok_mono; [|exact Hs]; lia).
  unfold deliver. munfold_goal. destruct (list.last (Stack.items (stack s))) as [top|] eqn:El.
  - destruct (Htop top eq_refl) as [-> _].
    rewrite (alive_items _ _ _ Ho), bool_decide_eq_true_2 by (apply last_Some in El as [l ->]; set_solver).
    destruct (push_object_ok k top lev line s Hs Ha Hk El) as [H1 H2]. split; [done|]. intros x. rewrite H2. f_equal.
    case_decide as E; case_bool_decide as E'; congruence.
  - assert (Stack.items (stack s) = []) as Ei by (by apply last_None).
    destruct (Stack.functor (stack s)) as [n|]; [|by apply result_ok_same].
    rewrite (alive_items _ _ _ Ho), Ei, bool_decide_eq_false_2 by set_solver. by apply result_ok_same.
Qed.

Lemma log_statement_ok k st s :
  system_ok k s → aborted s = false → (Z.of_nat k < 2 ^ 63 - 1)%Z →
  result_ok (S k) s (fst (log st s)) (λ n, line_for n st s).
Proof.
  intros Hs Ha Hk. pose proof Hs as ((Htop & _) & _).
  assert (system_ok (S k) s) as HS by (eapply system_ok_mono; [|exact Hs]; lia).
  assert (∀ n, line_for n st s =
    if bool_decide (list.last (Stack.items (stack s)) = Some n) && (Stack.level (stack s) <=? st_level st)%Z
    then match z ← tz_of s; statement_line z st with Ok line => [line] | Throw _ => [] end else []) as Hline.
  { intros n. unfold line_for. case_bool_decide as E; [|done]. by destruct (Htop n E) as [_ ->]. }
  unfold log. munfold_goal. destruct (Stack.level (stack s) <=? st_level st)%Z.
  2: { destruct (result_ok_same (S k) s s HS eq_refl) as [_ H2]. split; [done|]. intros n. by rewrite Hline, andb_false_r. }
  destruct (tz_instance_eq s) as (s1 & -> & E1 & E2 & E3).
  assert (system_ok k s1) as Hs1 by by eapply system_ok_same.
  assert (system_ok (S k) s1) as HS1 by by eapply system_ok_same.
  assert (∀ n, received s1 n = received s n) as Hrec by (intros n; unfold received; by rewrite E2).
  assert ((∀ n, line_for n st s = []) → result_ok (S k) s s1 (λ n, line_for n st s)) as Hnone.
  { intros Hl. split; [done|]. intros n. by rewrite Hl, app_nil_r. }
  destruct (tz_of s) as [z|e] eqn:Ez; munfold_goal.
  2: { apply Hnone. intros n. rewrite Hline. munfold_goal. by destruct (_ && _). }
  destruct (statement_line z st) as [line|e] eqn:El; munfold_goal.
  2: { apply Hnone. intros n. rewrite Hline. munfold_goal. rewrite El. by destruct (_ && _). }
  destruct (deliver_top_ok k (st_level st) line s1 Hs1 ltac:(congruence) Hk) as [H1 H2]. split; [done|].
  intros n. rewrite H2, Hrec, Hline, E1, andb_true_r. munfold_goal. by rewrite El.
Qed.

(** The level and the text the callback logs for an event; the bodies are not among
    them. *)
Definition trace_details (type : curl_infotype) (data : str) : option (Level.values * Z * str) :=
  match type with
  | CURLINFO_TEXT => Some (Level.Info, 56%Z, curl_text (NString.right_trim_view data))
  | CURLINFO_HEADER_IN => Some (Level.Debug, 59%Z, curl_text (lit " <= header recv - " ++ NString.right_trim_view data))
  | CURLINFO_HEADER_OUT => Some (Level.Debug, 62%Z, curl_text (lit " => header send - " ++ NString.right_trim_view data))
  | CURLINFO_DATA_IN => Some (Level.Debug, 65%Z, curl_text (lit " <= data recv"))
  | CURLINFO_DATA_OUT => Some (Level.Debug, 68%Z, curl_text (lit " => data send"))
  | CURLINFO_SSL_DATA_IN => Some (Level.Debug, 71%Z, curl_text (lit " <= ssl data recv"))
  | CURLINFO_SSL_DATA_OUT => Some (Level.Debug, 74%Z, curl_text (lit " => ssl data send"))
  | CURLINFO_OTHER => None
  end.

(** Tracing keeps the logging system in order, and adds the one line of the event to
    the logger on top. *)
Lemma my_trace_ok k p type data s :
  system_ok k s → aborted s = false → (Z.of_nat k < 2 ^ 63 - 1)%Z →
  result_ok (S k) s (fst (my_trace p type data s))
    (λ n, match trace_details type data with
          | Some (lev, line, d) =>
            line_for n (Statement lev (at_path p) line (at_tid p) (at_system_time p) (at_clock_time p) d) s
          | None => []
          end).
Proof.
  intros Hs Ha Hk.
  assert (∀ (m : M system ()), fst ((m;; mret 0%Z) s) = fst (m s)) as Hret by (intros m; munfold_goal; by destruct (m s) as [? []]).
  destruct type; unfold my_trace; cbn [trace_details]; rewrite ?Hret; try by apply log_statement_ok.
  apply result_ok_same; [|done]. eapply system_ok_mono; [|exact Hs]; lia.
Qed.

Lemma assign_zone_ok k z s : system_ok k s → result_ok k s (fst (assign_zone z s)) (λ _, []).
Proof.
  intros Hs. unfold assign_zone. munfold_goal. destruct (tz_instance_eq s) as (s1 & -> & E1 & E2 & E3).
  destruct (tz_of s) as [t|e]; munfold_goal; [|by apply result_ok_same; [eapply system_ok_same|]].
  destruct (Format.setZone _ _ z t) as [t' [[]|e]]; munfold_goal;
    (apply result_ok_same; [by eapply system_ok_same; [..|exact Hs]|done]).
Qed.

Lemma turn_ok k n s :
  system_ok k s → aborted s = false → result_ok k s (set_objs (alter worker_turn n (objs s)) s) (λ _, []).
Proof.
  intros Hs Ha. pose proof Hs as (_ & _ & H3 & _). rewrite Ha in H3. destruct (objs s !! n) as [o|] eqn:Hn.
  - destruct (worker_turn_ok k false o (H3 n o Hn)) as (Hok & Hacc & _).
    assert (alter worker_turn n (objs s) = <[n := worker_turn o]> (objs s)) as ->
      by by apply alter_as_insert.
    split.
    + unfold set_objs. rewrite Ha. apply (system_ok_update _ _ _ o); try done;
        unfold worker_turn; by destruct (worker_pop _).
    + intros x. unfold set_objs. rewrite received_insert, app_nil_r. case_decide as E; [|done]. subst x.
      unfold received. by rewrite Hn.
  - assert (alter worker_turn n (objs s) = objs s) as ->
      by (apply map_eq; intros x; destruct (decide (n = x)) as [<-|]; [by rewrite lookup_alter_eq, Hn|by rewrite lookup_alter_ne]).
    apply result_ok_same; [|done]. by destruct s.
Qed.

Lemma exec_system_ok k o s :
  system_ok k s → (Z.of_nat k < 2 ^ 63 - 1)%Z → result_ok (S k) s (exec o s) (λ n, expected_one n o s).
Proof.
  intros Hs Hk. unfold exec, expected_one. destruct (aborted s) eqn:Ha.
  { apply result_ok_same; [|done]. eapply system_ok_mono; [|exact Hs]; lia. }
  assert (∀ s', result_ok k s s' (λ _, []) → result_ok (S k) s s' (λ _, [])) as Hup.
  { intros s' [H1 H2]. split; [|done]. eapply system_ok_mono; [|exact H1]; lia. }
  destruct o as [i kd lev opened text|i|st|z|n].
  - case_decide as Hi; apply Hup; [by apply result_ok_same|]. apply new_logger_ok; [done..|]. by apply eq_None_not_Some.
  - by apply Hup, delete_logger_ok.
  - by apply log_statement_ok.
  - by apply Hup, assign_zone_ok.
  - by apply Hup, turn_ok.
Qed.

Lemma run_ok ops k s :
  system_ok k s → (Z.of_nat (k + length ops) < 2 ^ 63 - 1)%Z →
  result_ok (k + length ops) s (run ops s) (λ n, expected n ops s).
Proof.
  revert k s. induction ops as [|o ops IH]; intros k s Hs Hk; simpl in *.
  { rewrite Nat.add_0_r. by apply result_ok_same. }
  destruct (exec_system_ok k o s Hs ltac:(lia)) as [H1 H2].
  destruct (IH (S k) (exec o s) H1 ltac:(lia)) as [H3 H4].
  rewrite Nat.add_succ_r. split; [done|]. intros n. by rewrite H4, H2, <-app_assoc.
Qed.

Lemma boot_ok : system_ok 0 boot.
Proof.
  forget_parameters. split_and!; [apply (Stack.stack_exec_all_ok _ [])| |apply map_Forall_empty|done].
  unfold owners_ok; simpl. split_and!; [constructor|set_solver|set_solver|set_solver].
Qed.

(** C4: the logging system as a whole: whatever loggers are made and deleted, zones
    set, and however the workers are scheduled, the object behind a [Logger] gets
    exactly the lines of the statements made while it was on top of the stack and
    whose level was at least its own, formatted, in order; it is alive as long as its
    [Logger]; what is written is always the beginning of that, and all of it once the
    [Logger] is gone or the process was aborted by a line to it, when its file is
    closed and holds these lines after what it held before. *)
Theorem logged_lines_written (ops : list op) (n : nat) (o : object) (s := run ops boot) (lines := expected n ops boot) :
  (Z.of_nat (length ops) < 2 ^ 63 - 1)%Z → objs s !! n = Some o →
  accepted (writer o) = lines ∧ (∃ rest, lines = out (writer o) ++ rest) ∧
  (live o = true ↔ ∃ i, Stack.loggers (stack s) !! i = Some n) ∧
  (live o = false ∨ aborted s = true ∧ list.last (Stack.items (stack s)) = Some n →
   worker (writer o) = Joined ∧ out (writer o) = lines ∧
   (kind o = FileSink → Sink.ofs (file o) = false ∧
      Sink.file_text (file o) = Sink.found (file o) ++ Sink.lines_text lines)).
Proof.
  intros Hlen Hn. destruct (run_ok ops 0 boot boot_ok Hlen) as [(_ & (_ & Hown & _ & Hl) & H3 & H4) Hrec].
  fold s in Hown, Hl, H3, H4, Hrec.
  assert (accepted (writer o) = lines) as Hacc by (specialize (Hrec n); unfold received in Hrec; by rewrite Hn in Hrec).
  destruct (H3 n o Hn) as (Hr & _ & Hok). rewrite <-Hacc. split_and!; [done|..].
  - by apply queue_ok_prefix, reachable_ok.
  - rewrite <-Hown, Hl. split; [by eauto|]. intros (o' & Ho' & ?). by simplify_eq.
  - intros Hend. assert (finished o) as (_ & Hw & Ho & Hf).
    { destruct Hend as [Hd|[Hab Hlast]]; [destruct Hok as [[? _]|[_ ?]]; [congruence|done]|].
      destruct (H4 Hab) as (top & o' & Hlast' & Ho' & Hf). simplify_eq. congruence. }
    split_and!; [done|done|]. intros Hk. split; [by apply Hf|]. unfold Sink.file_text. by rewrite <-Ho.
Qed.
End system.

(** A program: a stream logger, over it a file logger that takes only errors, and the
    file logger deleted with a line still queued. *)
Definition sample_statement (lev : Level.values) (d : str) : statement (time := ()) :=
  Statement lev (lit "src/main.cpp") 7 (lit "1") () () d.
Definition sample_ops : list (op (time := ())) :=
  [New 0 OstreamSink Level.Info true []; Log (sample_statement Level.Info (lit "up"));
   New 1 FileSink Level.Error true (lit "old"); Log (sample_statement Level.Info (lit "skipped"));
   Log (sample_statement Level.Error (lit "bad")); Turn 1; Log (sample_statement Level.Error (lit "worse"));
   Delete 1; Log (sample_statement Level.Info (lit "down"))].
Definition sample_run : system (zone := ()) :=
  run () (λ _, None) (λ _ _, []) (λ _, lit "T") None false false sample_ops boot.

Lemma logged_lines_written_witness :
  option_map (λ o, (live o, Sink.file_text (file o))) (objs sample_run !! 1) =
  Some (false, lit "old" ++ Sink.lines_text [lit "T|main.cpp:7|1|ERROR|bad"; lit "T|main.cpp:7|1|ERROR|worse"]).
Proof.
  destruct (objs sample_run !! 1) as [o|] eqn:E; [|by vm_compute in E].
  assert (live o = false ∧ kind o = FileSink ∧ Sink.found (file o) = lit "old") as (Hl & Hk & Hf)
    by (vm_compute in E; injection E as <-; done).
  destruct (logged_lines_written () (λ _, None) (λ _ _, []) (λ _, lit "T") None false false sample_ops 1 o
    ltac:(simpl; lia) E) as (_ & _ & _ & H).
  destruct (H (or_introl Hl)) as (_ & _ & Hfile). destruct (Hfile Hk) as [_ Ht]. simpl.
  rewrite Hl, Ht, Hf. vm_compute. reflexivity.
Defined.
End LogSystem.
