(* ===== verification/DeadLock.v ===== *)
(** * Dead-lock detection: dead_lock_detect.hpp, dead_lock_detect.cpp

    Watched threads are the executors the checker handed out, alive as long as
    someone shares them; times are nanoseconds of the steady clock, read anew
    for every executor.  [Checker] models the sequential operations, [Runner]
    the thread that checks periodically, as a step relation with the mutex. *)

From S2P Require Import Prelude.

Module Checker.

Record DeadLockChecker := Checker {
  _timeout : Z;
  _alerter : bool;               (** whether the functor is set *)
  _items : list nat;             (** the weak pointers *)
  _running : bool;
}.

(** The live executors with the time of their last sign of life; [alerts] counts
    the calls of the alerter, and [fresh] is the name of the next executor. *)
Record world := World {
  executors : gmap nat Z;
  alerts : nat;
  fresh : nat;
  checker : DeadLockChecker;
}.

Definition set_checker (c : DeadLockChecker) (w : world) : world :=
  World (executors w) (alerts w) (fresh w) c.
Definition set_items (l : list nat) (c : DeadLockChecker) : DeadLockChecker :=
  Checker (_timeout c) (_alerter c) l (_running c).
Definition set_running (b : bool) (c : DeadLockChecker) : DeadLockChecker :=
  Checker (_timeout c) (_alerter c) (_items c) b.

(** The constructor. *)
Definition make_checker (timeout : Z) (alerter : bool) : res DeadLockChecker :=
  throw_if (timeout <=? 0)%Z (NstlException "timeout must be greater than zero");;
  throw_if (negb alerter) (NstlException "alerter function is empty");;
  Ok (Checker timeout alerter [] false).

(** [std::chrono::duration_cast] to nanoseconds of [rep] units of [num / den]
    nanoseconds, in signed numbers of 64 bits. *)
Definition to_nanoseconds (num den rep : Z) : res Z :=
  throw_if (negb ((- 2 ^ 63 <=? rep * num)%Z && (rep * num <? 2 ^ 63)%Z))
    (UndefinedBehaviour "duration_cast: signed overflow");;
  Ok (Z.quot (rep * num) den).
(** The constructor for a timeout in another unit. *)
Definition make_checker_in (num den rep : Z) (alerter : bool) : res DeadLockChecker :=
  timeout ← to_nanoseconds num den rep;
  make_checker timeout alerter.

(** A timeout in another unit is accepted from one nanosecond on; less is cut to zero. *)
Lemma make_checker_in_ok num den rep :
  (0 < num)%Z → (0 < den)%Z → (0 ≤ rep)%Z → (rep * num < 2 ^ 63)%Z →
  make_checker_in num den rep true =
  if (den <=? rep * num)%Z then Ok (Checker (rep * num / den) true [] false)
  else Throw (NstlException "timeout must be greater than zero").
Proof.
  intros Hn Hd Hr Hm. unfold make_checker_in, to_nanoseconds, make_checker. munfold_goal.
  rewrite (proj2 (Z.leb_le _ _)) by lia. rewrite (proj2 (Z.ltb_lt _ _)) by lia. simpl.
  rewrite Z.quot_div_nonneg by lia. destruct (Z.leb_spec den (rep * num)) as [Hl|Hl].
  - assert (0 < rep * num / den)%Z by (apply Z.div_str_pos; lia).
    destruct (Z.leb_spec (rep * num / den) 0); simpl; [lia|done].
  - rewrite Z.div_small by lia. done.
Qed.

(** The constructors of [PerfCheck] and of an executor: the time point given, or the
    one of the clock. *)
Definition start_point (tp : option Z) (now : Z) : Z := default now tp.

(** [PerfCheck::snap], [bump] and [elapsed]. *)
Definition snap (tp now : Z) : Z := (now - tp)%Z.
Definition bump (i : nat) (now : Z) (w : world) : world :=
  World (alter (λ _, now) i (executors w)) (alerts w) (fresh w) (checker w).
Definition elapsed (tp now : Z) : Z := (now - tp)%Z.

(** The loop of [_check]; [now] gives the clock at each call of [elapsed]. *)
Fixpoint check_loop (execs : gmap nat Z) (timeout : Z) (now : nat → Z) (items : list nat)
    (retval : bool) : list nat * bool :=
  match items with
  | [] => ([], retval)
  | i :: items =>
    match execs !! i with
    | Some tp =>
      let retval := if (timeout <? elapsed tp (now i))%Z then true else retval in
      let '(rest, retval) := check_loop execs timeout now items retval in
      (i :: rest, retval)
    | None => check_loop execs timeout now items retval
    end
  end.
Definition _check (now : nat → Z) : M world bool := λ w,
  let c := checker w in
  let '(items, retval) := check_loop (executors w) (_timeout c) now (_items c) false in
  (set_checker (set_items items c) w, Ok retval).

Definition call_alerter : M world () :=
  mmodify (λ w, World (executors w) (S (alerts w)) (fresh w) (checker w)).

Definition check (now : nat → Z) : M world bool :=
  dead ← _check now;
  if dead : bool then call_alerter;; mret true else mret false.

Definition addCheckedThread (now : Z) : M world nat := λ w,
  let i := fresh w in
  (World (<[i := start_point None now]> (executors w)) (alerts w) (S i)
     (set_items (_items (checker w) ++ [i]) (checker w)), Ok i).
(** The last owner drops an executor. *)
Definition drop_executor (i : nat) (w : world) : world :=
  World (delete i (executors w)) (alerts w) (fresh w) (checker w).

Definition stop : M world () := mmodify (λ w, set_checker (set_running false (checker w)) w).
Definition destroy_checker : M world () := stop.
Definition empty (w : world) : bool := bool_decide (_items (checker w) = []).

(** Whether an executor has been silent for too long. *)
Definition stuck (w : world) (now : nat → Z) (i : nat) : Prop :=
  ∃ tp, executors w !! i = Some tp ∧ (_timeout (checker w) < now i - tp)%Z.

Lemma check_loop_spec execs timeout now items retval :
  let r := check_loop execs timeout now items retval in
  fst r = filter (λ i, is_Some (execs !! i)) items ∧
  (snd r = true ↔ retval = true ∨
     ∃ i tp, i ∈ items ∧ execs !! i = Some tp ∧ (timeout < now i - tp)%Z).
Proof.
  revert retval. induction items as [|i items IH]; intros retval; simpl.
  { split; [done|]. split; [by left|]. intros [?|(i & tp & Hi & _)]; [done|]. by apply elem_of_nil in Hi. }
  destruct (execs !! i) as [tp|] eqn:Hi.
  - unfold elapsed. specialize (IH (if (timeout <? now i - tp)%Z then true else retval)).
    destruct (check_loop _ _ _ items _) as [rest r] eqn:E; simpl in *. destruct IH as [-> IH].
    rewrite filter_cons_True by (by rewrite Hi). split; [done|]. rewrite IH.
    setoid_rewrite elem_of_cons. destruct (Z.ltb_spec timeout (now i - tp)); naive_solver lia.
  - rewrite filter_cons_False by (rewrite Hi; by intros [? ?]).
    destruct (IH retval) as [-> IH2]. split; [done|]. rewrite IH2.
    setoid_rewrite elem_of_cons. naive_solver.
Qed.

(** [check] reports a dead lock, and calls the alerter, exactly when some
    watched thread that is still alive has given no sign for longer than the
    timeout; it keeps the live threads in their order and forgets the others. *)
Theorem check_correct (w : world) (now : nat → Z) :
  ∃ w' dead, check now w = (w', Ok dead) ∧
    (dead = true ↔ ∃ i, i ∈ _items (checker w) ∧ stuck w now i) ∧
    alerts w' = alerts w + (if dead then 1 else 0) ∧
    _items (checker w') = filter (λ i, is_Some (executors w !! i)) (_items (checker w)) ∧
    executors w' = executors w.
Proof.
  unfold check, _check. munfold_goal.
  pose proof (check_loop_spec (executors w) (_timeout (checker w)) now (_items (checker w)) false)
    as [Hi Hr].
  destruct (check_loop _ _ _ _ _) as [items dead]; simpl in *. subst items.
  assert (dead = true ↔ ∃ i, i ∈ _items (checker w) ∧ stuck w now i) as Hd.
  { rewrite Hr. unfold stuck. naive_solver. }
  destruct dead; eexists _, _; (split; [done|]); (split; [done|]); simpl; (split; [lia|]); done.
Qed.
End Checker.

(** ** The periodic runner *)

Module Runner.
Import Checker.

(** What the runner thread is doing: not started, in [wait_for], calling the
    alerter, or returned from [runner]. *)
Inductive phase := Idle | Waiting | Alerting | Exited.

(** The checker's data and the runner. *)
Record state := State { data : world; thread : phase }.

(** [runner] up to the first wait, which releases the mutex. *)
Definition runner_start (s : state) : state :=
  State (set_checker (set_running true (checker (data s))) (data s)) Waiting.

(** The wait ends, by time or by a notification; the runner checks and either
    goes on to the alerter with the mutex released, or tests [_running]. *)
Definition next_phase (w : world) : phase := if _running (checker w) then Waiting else Exited.
Definition runner_wake (now : nat → Z) (s : state) : state :=
  match _check now (data s) with
  | (w, Ok true) => State w Alerting
  | (w, _) => State w (next_phase w)
  end.
(** The alerter returns, and the guard takes the mutex again. *)
Definition runner_alerted (s : state) : state :=
  match call_alerter (data s) with (w, _) => State w (next_phase w) end.

Definition running (s : state) : bool := _running (checker (data s)).

(** The steps of the runner thread, and those of the other threads, which act
    while it waits or calls the alerter with the mutex free. *)
Inductive runner_step : state → state → Prop :=
| runner_step_wake now s : thread s = Waiting → runner_step s (runner_wake now s)
| runner_step_alerted s : thread s = Alerting → runner_step s (runner_alerted s).
Inductive other_step : state → state → Prop :=
| step_stop s : other_step s (State (fst (stop (data s))) (thread s))
| step_check now s : other_step s (State (fst (check now (data s))) (thread s))
| step_add now s : other_step s (State (fst (addCheckedThread now (data s))) (thread s))
| step_bump i now s : other_step s (State (bump i now (data s)) (thread s))
| step_drop i s : other_step s (State (drop_executor i (data s)) (thread s)).

(** An interleaving with [n] steps of the runner. *)
Inductive trace : state → nat → state → Prop :=
| trace_refl s : trace s 0 s
| trace_other s s1 n s2 : other_step s s1 → trace s1 n s2 → trace s n s2
| trace_runner s s1 n s2 : runner_step s s1 → trace s1 n s2 → trace s (S n) s2.

Lemma check_running now w : _running (checker (fst (_check now w))) = _running (checker w).
Proof. unfold _check. by destruct (check_loop _ _ _ _ _). Qed.

(** How many steps the runner may still take with the flag down. *)
Definition budget (p : phase) : nat :=
  match p with Waiting => 2 | Alerting => 1 | Idle | Exited => 0 end.

Lemma other_step_running s s' :
  other_step s s' → running s = false → running s' = false ∧ thread s' = thread s.
Proof.
  unfold running. intros Hst Hr.
  destruct Hst as [s|now s|now s|i now s|i s]; simpl; try done. split; [|done].
  pose proof (check_running now (data s)) as E. unfold check, mbind, M_bind.
  destruct (_check now (data s)) as [w [[]|e]]; simpl in *; congruence.
Qed.

Lemma runner_step_running s s' :
  runner_step s s' → running s = false →
  running s' = false ∧ thread s' ≠ Idle ∧ budget (thread s') < budget (thread s).
Proof.
  unfold running. intros Hst Hr. destruct Hst as [now s Ht|s Ht]; rewrite Ht; simpl.
  - unfold runner_wake. pose proof (check_running now (data s)) as E.
    destruct (_check now (data s)) as [w [[]|e]]; simpl in *; rewrite Hr in E.
    + split_and!; [done..|lia].
    + unfold next_phase. rewrite E. split_and!; [done..|simpl; lia].
    + unfold next_phase. rewrite E. split_and!; [done..|simpl; lia].
  - unfold runner_alerted, next_phase; simpl. rewrite Hr. split_and!; [done..|simpl; lia].
Qed.

Lemma trace_budget s n s' :
  trace s n s' → running s = false → thread s ≠ Idle →
  running s' = false ∧ thread s' ≠ Idle ∧ n + budget (thread s') ≤ budget (thread s).
Proof.
  induction 1 as [s|s s1 n s2 Hst _ IH|s s1 n s2 Hst _ IH]; intros Hr Hi; [done|..].
  - destruct (other_step_running _ _ Hst Hr) as [Hr1 Ht]. rewrite <-Ht in *. by apply IH.
  - destruct (runner_step_running _ _ Hst Hr) as (Hr1 & Hi1 & Hb).
    destruct (IH Hr1 Hi1) as (? & ? & ?). split_and!; [done..|lia].
Qed.


(** A [stop] that comes before [runner] has no effect: [runner] raises the flag. *)
Lemma stop_before_runner_lost w :
  running (runner_start (State (fst (stop w)) Idle)) = true.
Proof. done. Qed.

(** A stopped runner whose only thread is silent for too long. *)
Definition sample_state : state :=
  State (World {[0 := 0%Z]} 0 1 (Checker 10 true [0] false)) Waiting.
Definition sample_end : state :=
  runner_alerted (runner_wake (λ _, 11%Z) sample_state).

End Runner.
