(* ===== verification/FileTrigger.v ===== *)
(** * File trigger: file_trigger.hpp, file_trigger_linux.cpp

    A trigger owns a descriptor of a growing file, an inotify descriptor that
    tells of changes and the two ends of an exit pipe.  Its constructor reads what
    is there, then a thread waits for events with epoll and hands new data to the
    callback.  The kernel is a relation: how much a [read] returns, when it is
    interrupted or fails, which ready descriptors [epoll_wait] reports and in
    which order.  Writers append to the file at any moment. *)

From S2P Require Import Prelude Raii.

Module FileTrigger.

(** ** Construction *)

(** [set_non_blocking] over the two [fcntl] calls: the flags, or a failure, and
    the answer to setting them.  [O_NONBLOCK] is 2048 on Linux. *)
Definition O_NONBLOCK : Z := 2048.
Definition set_non_blocking (flags : Z) (setfl : Z → Z) : res bool :=
  throw_if (flags <? 0)%Z (NstlException "fcntl F_GETFL failed: ");;
  if negb (Z.land flags O_NONBLOCK =? 0)%Z then Ok false
  else throw_if (setfl (Z.lor flags O_NONBLOCK) <? 0)%Z
         (NstlException "fcntl F_SETFL failed with O_NONBLOCK: ");; Ok true.

(** The two factories up to the construction of the object; the descriptor is
    closed by its owner when they throw. *)
Definition factory_checks (hndl : Z) (refusal : string) (buffer_size : nat) (cb : bool) : res () :=
  throw_if (negb (Handle.file_int_valid hndl)) (NstlException refusal);;
  throw_if (buffer_size =? 0)%nat (NstlException "Buffer must not be empty");;
  throw_if (negb cb) (NstlException "Callback must be valid").
Definition factory_path (open_native : str → Z) (file : str) (cb : bool) (buffer_size : nat) : res Z :=
  let hndl := open_native file in
  factory_checks hndl " cannot be opened for read" buffer_size cb;; Ok hndl.
Definition factory_handle (flags : Z) (setfl : Z → Z) (handle : Z) (cb : bool) (buffer_size : nat) : res Z :=
  factory_checks handle "Invalid handle passed through" buffer_size cb;;
  set_non_blocking flags setfl;; Ok handle.

(** ** State *)

(** The descriptors the worker waits for. *)
Inductive fd := Inotify | ExitRead.
#[export] Instance fd_eq_dec : EqDecision fd.
Proof. solve_decision. Defined.

(** Where the code is: in the first read of the constructor, in [epoll_wait], at
    the event loop with the events left, in [_read_data] of an event, returned, or
    left by an exception. *)
Inductive phase :=
| Constructing
| Waiting
| Events (evs : list fd) (exit_requested : bool)
| Reading (evs : list fd) (exit_requested : bool)
| Done
| Failed.
#[export] Instance phase_eq_dec : EqDecision phase.
Proof. solve_decision. Defined.

Record state := State {
  content : str;          (** the file *)
  pos : nat;              (** the offset of the descriptor *)
  pending : bool;         (** unread inotify events *)
  exit_byte : bool;       (** the byte of [stop] in the pipe *)
  chunks : list str;      (** what the callback got *)
  skipped : nat;          (** bytes read without calling it *)
  _running : bool;
  thread : phase;
}.
Definition initial (c : str) : state := State c 0 false false [] 0 true Constructing.

Definition set_thread (p : phase) (s : state) : state :=
  State (content s) (pos s) (pending s) (exit_byte s) (chunks s) (skipped s) (_running s) p.
Definition unread (s : state) : str := drop (pos s) (content s).

Section trigger.
Context (_sow : bool) (_buffer_size : nat).

(** ** Reading *)

Inductive read_result := Bytes (d : str) | Eof | Again | Interrupted | Error.

(** What [read] may answer: some of the unread bytes, at most a buffer full;
    the end or [EAGAIN] only when there are none. *)
Definition kernel_read (s : state) (r : read_result) : Prop :=
  match r with
  | Bytes d => d ≠ [] ∧ length d ≤ _buffer_size ∧ d `prefix_of` unread s
  | Eof | Again => unread s = []
  | Interrupted | Error => True
  end.

(** One turn of the loop of [_read_data]; [None] is another turn. *)
Definition read_data_turn (exec : bool) (r : read_result) (s : state) : state * option (res bool) :=
  match r with
  | Again => (s, Some (Ok true))
  | Interrupted => (s, None)
  | Error => (s, Some (Throw (NstlException "Failed over reading handler")))
  | Eof => (s, Some (Ok false))
  | Bytes d =>
    (State (content s) (pos s + length d) (pending s) (exit_byte s)
       (if exec then chunks s ++ [d] else chunks s)
       (if exec then skipped s else skipped s + length d) (_running s) (thread s), None)
  end.

(** [_drain_inotify]. *)
Definition drain_inotify (s : state) : state :=
  State (content s) (pos s) false (exit_byte s) (chunks s) (skipped s) (_running s) (thread s).

(** ** The constructor and the worker *)

(** A turn of the first read; at its end the exit pipe is made, which may fail,
    and the thread starts. *)
Definition construct_turn (r : read_result) (pipe : bool) (s : state) : state :=
  match read_data_turn _sow r s with
  | (s, None) => s
  | (s, Some (Ok _)) => set_thread (if pipe then Waiting else Failed) s
  | (s, Some (Throw _)) => set_thread Failed s
  end.

(** [epoll_wait] reports events. *)
Definition ready (s : state) (f : fd) : bool :=
  match f with Inotify => pending s | ExitRead => exit_byte s end.
Definition kernel_events (s : state) (evs : list fd) : Prop :=
  evs ≠ [] ∧ NoDup evs ∧ Forall (λ f, ready s f = true) evs.

(** The next event, or the test after the loop over them. *)
Definition event_turn (evs : list fd) (exit_requested : bool) (s : state) : state :=
  match evs with
  | Inotify :: evs => set_thread (Reading evs exit_requested) (drain_inotify s)
  | ExitRead :: evs => set_thread (Events evs true) s
  | [] => set_thread (if exit_requested then Done else Waiting) s
  end.

Definition reading_turn (evs : list fd) (exit_requested : bool) (r : read_result) (s : state) : state :=
  match read_data_turn true r s with
  | (s, None) => s
  | (s, Some (Ok _)) => set_thread (Events evs exit_requested) s
  | (s, Some (Throw _)) => set_thread Failed s
  end.

(** ** Other threads *)

Definition append (d : str) (s : state) : state :=
  State (content s ++ d) (pos s) true (exit_byte s) (chunks s) (skipped s) (_running s) (thread s).
(** [stop] up to [join]; the pipe is empty before, so the write succeeds. *)
Definition stop (s : state) : state :=
  if _running s then
    State (content s) (pos s) (pending s) true (chunks s) (skipped s) false (thread s)
  else s.
(** [join] returns when the thread has ended. *)
Definition joinable (s : state) : bool :=
  match thread s with Done | Failed => true | _ => false end.

(** The steps that make progress in the trigger's own code (an interrupted call
    is repeated and changes nothing), and the steps of the others. *)
Inductive own_step : state → state → Prop :=
| step_construct s r pipe : thread s = Constructing → kernel_read s r → r ≠ Interrupted →
    own_step s (construct_turn r pipe s)
| step_construct_throws s d : thread s = Constructing → kernel_read s (Bytes d) → _sow = true →
    own_step s (set_thread Failed (read_data_turn _sow (Bytes d) s).1)
| step_wait s evs : thread s = Waiting → kernel_events s evs → own_step s (set_thread (Events evs false) s)
| step_wait_fails s : thread s = Waiting → own_step s (set_thread Failed s)
| step_event s evs ex : thread s = Events evs ex → own_step s (event_turn evs ex s)
| step_read s evs ex r : thread s = Reading evs ex → kernel_read s r → r ≠ Interrupted →
    own_step s (reading_turn evs ex r s)
| step_callback_throws s evs ex d : thread s = Reading evs ex → kernel_read s (Bytes d) →
    own_step s (set_thread Failed (read_data_turn true (Bytes d) s).1).
Inductive other_step : state → state → Prop :=
| step_append s d : d ≠ [] → other_step s (append d s)
| step_stop s : thread s ≠ Constructing → other_step s (stop s).
Definition step (s s' : state) : Prop := own_step s s' ∨ other_step s s'.

(** ** The invariant *)

(** The callback got the bytes read after the skipped ones, in order and in
    pieces of at most a buffer. *)
Definition delivered_ok (s : state) : Prop :=
  skipped s ≤ pos s ∧ pos s ≤ length (content s) ∧
  concat (chunks s) = drop (skipped s) (take (pos s) (content s)) ∧
  Forall (λ d, d ≠ [] ∧ length d ≤ _buffer_size) (chunks s) ∧
  (_sow = true → skipped s = 0) ∧
  (thread s = Constructing → _sow = false → skipped s = pos s).

(** Unread bytes are announced, or about to be read. *)
Definition announced (s : state) : Prop :=
  unread s = [] ∨ pending s = true ∨
  match thread s with Waiting | Events _ _ => False | _ => True end.

(** The events at hand are ready, an exit was asked for. *)
Definition events_ok (s : state) : Prop :=
  match thread s with
  | Events evs ex => NoDup evs ∧ Forall (λ f, ready s f = true) evs ∧ (ex = true → exit_byte s = true)
  | Reading evs ex => NoDup evs ∧ Inotify ∉ evs ∧ Forall (λ f, ready s f = true) evs ∧
                      (ex = true → exit_byte s = true)
  | Done => exit_byte s = true
  | _ => True
  end.
Definition trigger_ok (s : state) : Prop := delivered_ok s ∧ announced s ∧ events_ok s.

Lemma unread_read s d :
  pos s ≤ length (content s) → d `prefix_of` unread s →
  pos s + length d ≤ length (content s) ∧
  take (pos s + length d) (content s) = take (pos s) (content s) ++ d.
Proof.
  apply take_read.
Qed.

(** A read keeps what was delivered in order, whether it calls back or not. *)
Lemma read_delivered s r exec p :
  delivered_ok s → kernel_read s r →
  (thread s = Constructing → exec = _sow) → (thread s ≠ Constructing → exec = true) →
  (p = Constructing → thread s = Constructing) →
  delivered_ok (set_thread p (read_data_turn exec r s).1).
Proof.
  intros (H1 & H2 & H3 & H4 & H5 & H6) Hr He1 He2 Hp.
  destruct r as [d| | | |]; simpl in *; try (unfold delivered_ok; simpl; split_and!; tauto).
  destruct Hr as (Hd & Hlen & Hpre). destruct (unread_read s d H2 Hpre) as [Hle Htake].
  unfold delivered_ok; simpl. rewrite Htake. destruct exec; simpl.
  - split_and!; [lia|lia| | |done|].
    + rewrite concat_app, H3; simpl. rewrite app_nil_r, drop_app_le; [done|]. rewrite length_take_le; lia.
    + apply list.Forall_app. split; [done|]. by constructor.
    + intros HC Hs. rewrite <-He1 in Hs; [done|auto].
  - destruct (decide (thread s = Constructing)) as [HC|HC]; [|by specialize (He2 HC)].
    specialize (H6 HC (eq_sym (He1 HC))).
    split_and!; [lia|lia| |done|intros E; specialize (He1 HC); congruence|lia].
    rewrite H3, !drop_ge; [done|rewrite length_app, length_take_le; lia|rewrite length_take_le; lia].
Qed.

Lemma delivered_thread s p :
  delivered_ok s → p ≠ Constructing → delivered_ok (set_thread p s).
Proof. intros (?&?&?&?&?&?) ?. unfold delivered_ok; simpl. by split_and!. Qed.

Lemma delivered_same s s' :
  content s' = content s → pos s' = pos s → chunks s' = chunks s → skipped s' = skipped s →
  thread s' = thread s → delivered_ok s → delivered_ok s'.
Proof. unfold delivered_ok. intros -> -> -> -> ->. done. Qed.

Lemma initial_ok c : trigger_ok (initial c).
Proof.
  split_and!; [|by right; right|done]. unfold delivered_ok; simpl. split_and!; try done; lia.
Qed.

(** Turns of the constructor and of [_read_data] keep what was delivered. *)
Lemma construct_delivered s r pipe :
  thread s = Constructing → kernel_read s r → delivered_ok s → delivered_ok (construct_turn r pipe s).
Proof.
  intros Ht Hr Hd.
  pose proof (λ p Hp, read_delivered s r _sow p Hd Hr (λ _, eq_refl) (λ H, False_ind _ (H Ht)) Hp) as Hread.
  unfold construct_turn. destruct r as [d| | | |]; simpl in *.
  - by eapply delivered_same; [..|exact (Hread Constructing (λ _, Ht))]; simpl.
  - apply Hread. by destruct pipe.
  - apply Hread. by destruct pipe.
  - done.
  - by apply Hread.
Qed.

Lemma reading_delivered s evs ex r :
  thread s = Reading evs ex → kernel_read s r → delivered_ok s → delivered_ok (reading_turn evs ex r s).
Proof.
  intros Ht Hr Hd. assert (Hn : thread s ≠ Constructing) by congruence.
  assert (Hread : ∀ p, p ≠ Constructing → delivered_ok (set_thread p (read_data_turn true r s).1)).
  { intros p Hp. by apply read_delivered. }
  unfold reading_turn. destruct r as [d| | | |]; simpl in *; by apply Hread.
Qed.

(** A turn of the constructor. *)
Lemma construct_ok s r pipe :
  thread s = Constructing → kernel_read s r → trigger_ok s → trigger_ok (construct_turn r pipe s).
Proof.
  intros Ht Hr (Hd & Ha & He). split; [by apply construct_delivered|].
  unfold construct_turn, announced, events_ok. destruct r as [d| | | |]; simpl in *; rewrite ?Ht.
  - split; [tauto|done].
  - split; [by left|by destruct pipe].
  - split; [by left|by destruct pipe].
  - split; [tauto|done].
  - split; [tauto|done].
Qed.

(** A turn of [_read_data] for an event. *)
Lemma reading_ok s evs ex r :
  thread s = Reading evs ex → kernel_read s r → trigger_ok s → trigger_ok (reading_turn evs ex r s).
Proof.
  intros Ht Hr (Hd & Ha & He). split; [by apply reading_delivered|].
  unfold events_ok in He. rewrite Ht in He. destruct He as (He1 & He2 & He3 & He4).
  unfold reading_turn, announced, events_ok. destruct r as [d| | | |]; simpl in *; rewrite ?Ht.
  - split; [tauto|done].
  - split; [by left|done].
  - split; [by left|done].
  - split; [tauto|done].
  - split; [tauto|done].
Qed.

Lemma event_ok s evs ex : thread s = Events evs ex → trigger_ok s → trigger_ok (event_turn evs ex s).
Proof.
  intros Ht (Hd & Ha & He). unfold events_ok in He. rewrite Ht in He. destruct He as (He1 & He2 & He3).
  unfold announced in Ha. rewrite Ht in Ha.
  destruct evs as [|[|] evs]; simpl; [..|apply list.NoDup_cons in He1 as [Hn He1];
    apply list.Forall_cons in He2 as [Hf He2]|apply list.NoDup_cons in He1 as [Hn He1];
    apply list.Forall_cons in He2 as [Hf He2]].
  - split_and!; [by apply delivered_thread; [|destruct ex]|unfold announced; simpl; tauto|].
    destruct ex; [by apply He3|done].
  - split_and!; [|unfold announced; simpl; tauto|].
    + apply delivered_thread; [|done]. by eapply delivered_same; [..|exact Hd].
    + split_and!; [done|done| |done]. apply list.Forall_forall. intros [|] Hin; [done|].
      by apply (proj1 (list.Forall_forall _ _) He2 ExitRead).
  - split_and!; [by apply delivered_thread|unfold announced; simpl; tauto|]. by split_and!.
Qed.

Lemma own_step_ok s s' : own_step s s' → trigger_ok s → trigger_ok s'.
Proof.
  intros Hst Hok. destruct Hst as
    [s r pipe Ht Hr Hni|s d Ht Hr Hsow|s evs Ht Hev|s Ht|s evs ex Ht|s evs ex r Ht Hr Hni|s evs ex d Ht Hr];
    eauto using construct_ok, reading_ok, event_ok; destruct Hok as (Hd & Ha & He).
  - split_and!; [by apply read_delivered|by right; right|done].
  - unfold announced in Ha. rewrite Ht in Ha. destruct Hev as (Hne & Hnd & Hall).
    split_and!; [by apply delivered_thread|unfold announced; simpl; tauto|by split_and!].
  - split_and!; [by apply delivered_thread|by right; right|done].
  - split_and!; [apply read_delivered; try done; congruence|by right; right|done].
Qed.

Lemma append_delivered s d p :
  delivered_ok s →
  delivered_ok (State (content s ++ d) (pos s) p (exit_byte s) (chunks s) (skipped s) (_running s) (thread s)).
Proof.
  intros (H1 & H2 & H3 & H4 & H5 & H6). unfold delivered_ok; simpl.
  rewrite length_app, take_app_le by lia. split_and!; try done; lia.
Qed.

Lemma other_step_ok s s' : other_step s s' → trigger_ok s → trigger_ok s'.
Proof.
  intros Hst (Hok & Ha & He). destruct Hst as [s d Hd|s Ht].
  - split_and!; [by apply append_delivered|by right; left|].
    + unfold events_ok in *; simpl. destruct (thread s) as [| |evs ex|evs ex| |]; simpl; try done.
      * destruct He as (? & Hall & ?). split_and!; [done| |done].
        eapply list.Forall_impl; [exact Hall|]. by intros [|].
      * destruct He as (? & ? & Hall & ?). split_and!; [done|done| |done].
        eapply list.Forall_impl; [exact Hall|]. by intros [|].
  - unfold stop. destruct (_running s); [|done]. split_and!; [done|done|].
    unfold events_ok in *; simpl. destruct (thread s) as [| |evs ex|evs ex| |]; simpl; try done.
    + destruct He as (? & Hall & ?). split_and!; [done| |done].
      eapply list.Forall_impl; [exact Hall|]. by intros [|].
    + destruct He as (? & ? & Hall & ?). split_and!; [done|done| |done].
      eapply list.Forall_impl; [exact Hall|]. by intros [|].
Qed.

(** Without [sow] nothing is delivered before the thread starts. *)
Lemma sow_no_chunks s :
  delivered_ok s → thread s = Constructing → _sow = false → chunks s = [].
Proof.
  intros (H1 & H2 & H3 & H4 & H5 & H6) Ht Hs. specialize (H6 Ht Hs).
  rewrite H6, drop_ge in H3 by (rewrite length_take_le; lia).
  destruct (chunks s) as [|d l]; [done|]. apply list.Forall_cons in H4 as [[Hd _] _].
  simpl in H3. by apply app_eq_nil in H3 as [? _].
Qed.

(** A trigger with nothing announced has delivered everything. *)
Lemma caught_up s :
  delivered_ok s → announced s → thread s = Waiting → pending s = false →
  concat (chunks s) = drop (skipped s) (content s).
Proof.
  intros (_ & _ & H3 & _) Ha Ht Hp. unfold announced in Ha. rewrite Ht, Hp in Ha.
  destruct Ha as [Hu|[?|[]]]; [|done].
  rewrite H3, take_ge; [done|]. unfold unread in Hu. apply (f_equal length) in Hu.
  rewrite length_drop in Hu; simpl in Hu. lia.
Qed.

Lemma trigger_reachable_ok c s : rtc step (initial c) s → trigger_ok s.
Proof.
  intros Hr. pose proof (initial_ok c) as Hok. revert Hr Hok. induction 1 as [|s s1 s2 [Hst|Hst] _ IH]; eauto using own_step_ok, other_step_ok.
Qed.

(** In every interleaving of the trigger with writers that append to the file
    and with [stop], the callback has got exactly the bytes the trigger read, in
    order, without loss or repetition, in non-empty pieces of at most a buffer;
    with [sow] from the first byte of the file on, otherwise from where the
    constructor stopped reading.  Whenever the worker waits and no change is
    announced, it has delivered the whole file: no append is missed, whatever
    moment it comes at. *)
Theorem file_trigger_delivers (c : str) (s : state) :
  rtc step (initial c) s →
  concat (chunks s) = drop (skipped s) (take (pos s) (content s)) ∧
  Forall (λ d, d ≠ [] ∧ length d ≤ _buffer_size) (chunks s) ∧
  (_sow = true → skipped s = 0) ∧
  (thread s = Constructing → _sow = false → chunks s = []) ∧
  (thread s = Waiting → pending s = false → concat (chunks s) = drop (skipped s) (content s)).
Proof.
  intros Hr. destruct (trigger_reachable_ok c s Hr) as (Hd & Ha & _).
  pose proof Hd as (_ & _ & H3 & H4 & H5 & _). split_and!; [done..| |].
  - by apply sow_no_chunks.
  - intros Ht Hp. by apply caught_up.
Qed.

(** ** Stopping *)

(** A measure of the steps left once the exit byte is in the pipe and nobody
    writes any more. *)
Definition phase_weight (p : phase) : nat :=
  match p with
  | Constructing => 0
  | Waiting => 5
  | Events evs ex =>
    if ex || bool_decide (ExitRead ∈ evs) then 1 + length evs
    else if bool_decide (Inotify ∈ evs) then 4 else 6
  | Reading _ _ => 7
  | Done | Failed => 0
  end.
Definition weight (s : state) : nat :=
  length (unread s) + (if pending s then 10 else 0) + phase_weight (thread s).

Lemma events_length (evs : list fd) : NoDup evs → length evs ≤ 2.
Proof.
  intros Hnd. change 2 with (length [Inotify; ExitRead]). apply submseteq_length.
  apply NoDup_submseteq; [done|]. intros [|] _; set_solver.
Qed.

Lemma event_weight evs ex s :
  Forall (λ f, ready s f = true) evs → thread s = Events evs ex →
  weight (event_turn evs ex s) < weight s.
Proof.
  intros He Ht. unfold weight. rewrite Ht. destruct evs as [|[|] evs].
  - destruct ex; unfold unread; simpl; lia.
  - apply list.Forall_cons in He as [Hp _]. simpl in Hp. rewrite Hp. unfold unread; simpl. lia.
  - assert (E : phase_weight (Events (ExitRead :: evs) ex) = 2 + length evs).
    { unfold phase_weight. by rewrite bool_decide_eq_true_2, orb_true_r by set_solver. }
    rewrite E. unfold unread; simpl. lia.
Qed.

Lemma reading_weight evs ex r s :
  kernel_read s r → r ≠ Interrupted → NoDup evs → Inotify ∉ evs → thread s = Reading evs ex →
  weight (reading_turn evs ex r s) < weight s.
Proof.
  intros Hr Hni Hnd Hin Ht. pose proof (events_length evs Hnd). unfold weight, reading_turn. rewrite Ht.
  destruct r as [d| | | |]; simpl; [|unfold unread; simpl..|done|unfold unread; simpl; lia].
  - rewrite Ht. destruct Hr as (Hd & _ & [k Hk]). unfold unread in *; simpl.
    apply (f_equal length) in Hk. rewrite length_app, length_drop in Hk. rewrite !length_drop.
    destruct d; [done|]. simpl in *. lia.
  - rewrite (bool_decide_eq_false_2 _ Hin). destruct (ex || _); lia.
  - rewrite (bool_decide_eq_false_2 _ Hin). destruct (ex || _); lia.
Qed.

Lemma wait_weight evs s :
  kernel_events s evs → thread s = Waiting → weight (set_thread (Events evs false) s) < weight s.
Proof.
  intros (Hne & Hnd & _) Ht. pose proof (events_length evs Hnd).
  unfold weight, unread; simpl. rewrite Ht; simpl. case_bool_decide as Hx; [lia|].
  rewrite bool_decide_eq_true_2; [lia|]. destruct evs as [|[|] evs]; [done|left|]. by destruct Hx; left.
Qed.

Lemma own_step_weight s s' :
  own_step s s' → trigger_ok s → thread s ≠ Constructing →
  weight s' < weight s ∧ thread s' ≠ Constructing ∧ exit_byte s' = exit_byte s.
Proof.
  intros Hst (_ & _ & He) Hc. unfold events_ok in *. destruct Hst as
    [s r pipe Ht Hr Hni|s d Ht Hr Hsow|s evs Ht Hev|s Ht|s evs ex Ht|s evs ex r Ht Hr Hni|s evs ex d Ht Hr];
    rewrite Ht in He; try done.
  - by split_and!; [apply wait_weight|..].
  - split_and!; [|done..]. unfold weight, unread; simpl. rewrite Ht; simpl. lia.
  - destruct He as (_ & He & _). split_and!; [by apply event_weight|..]; by destruct evs as [|[|]], ex.
  - destruct He as (? & ? & _). split_and!; [by apply reading_weight|..]; unfold reading_turn; destruct r; simpl; try done; by rewrite Ht.
  - split_and!; [|done..]. unfold weight, unread; simpl. rewrite Ht, !length_drop; simpl. lia.
Qed.

Lemma own_steps_weight n s s' :
  nsteps own_step n s s' → trigger_ok s → thread s ≠ Constructing →
  n + weight s' ≤ weight s ∧ trigger_ok s' ∧ thread s' ≠ Constructing ∧ exit_byte s' = exit_byte s.
Proof.
  induction 1 as [s|n s s1 s2 Hst _ IH]; intros Hok Hc; [done|].
  destruct (own_step_weight _ _ Hst Hok Hc) as (Hw & Hc1 & Hx1).
  destruct (IH (own_step_ok _ _ Hst Hok) Hc1) as (? & ? & ? & ?).
  split_and!; [lia|done|done|congruence].
Qed.

(** The byte is in the pipe once the flag is down. *)
Lemma step_exit_byte s s' :
  step s s' → (_running s = false → exit_byte s = true) → _running s' = false → exit_byte s' = true.
Proof.
  intros [Hst|Hst] H.
  - destruct Hst as [s r pipe|s d|s evs|s|s evs ex|s evs ex r|s evs ex d]; simpl; try done.
    + unfold construct_turn. by destruct r.
    + by destruct evs as [|[|]].
    + unfold reading_turn. by destruct r.
  - destruct Hst as [s d|s]; [done|]. unfold stop. destruct (_running s) eqn:E; [done|]. by rewrite E.
Qed.
Lemma reachable_exit_byte c s :
  rtc step (initial c) s → _running s = false → exit_byte s = true.
Proof.
  intros Hr. assert (H : _running (initial c) = false → exit_byte (initial c) = true) by done. revert Hr H.
  induction 1; eauto using step_exit_byte.
Qed.

(** Until the thread has ended it can go on. *)
Lemma own_progress s :
  0 < _buffer_size → thread s ≠ Constructing → exit_byte s = true → joinable s = false →
  ∃ s', own_step s s'.
Proof.
  intros Hb Hc Hx Hj. unfold joinable in Hj. destruct (thread s) as [| |evs ex|evs ex| |] eqn:Ht; try done.
  - eexists. apply (step_wait s [ExitRead]); [done|]. split_and!; [done|apply NoDup_singleton|].
    by constructor.
  - eexists. by apply (step_event s evs ex).
  - destruct (unread s) as [|x u] eqn:Hu.
    + eexists. by apply (step_read s evs ex Eof).
    + eexists. apply (step_read s evs ex (Bytes [x])); [done| |done].
      split_and!; [done|simpl; lia|]. rewrite Hu. by exists u.
Qed.

(** C39: [stop] ends the worker: once the exit byte is in the pipe, the thread
    takes at most as many more steps as there are unread bytes, and seventeen, as
    long as nobody appends meanwhile; until it has ended it can take a step, so
    [join] returns. *)
Theorem file_trigger_stops (c : str) (s s' : state) (n : nat) :
  0 < _buffer_size → rtc step (initial c) s → thread s ≠ Constructing →
  nsteps own_step n (stop s) s' →
  n ≤ length (unread s) + 17 ∧ (joinable s' = true ∨ ∃ s'', own_step s' s'').
Proof.
  intros Hb Hr Hc Hn. pose proof (trigger_reachable_ok c s Hr) as Hok.
  assert (Hx : exit_byte (stop s) = true).
  { unfold stop. destruct (_running s) eqn:E; [done|]. by eapply reachable_exit_byte. }
  assert (Hst : trigger_ok (stop s)) by (eapply other_step_ok; [by apply step_stop|done]).
  assert (Ht : thread (stop s) = thread s) by (unfold stop; by destruct (_running s)).
  assert (Hu : unread (stop s) = unread s) by (unfold stop; by destruct (_running s)).
  destruct (own_steps_weight n _ _ Hn Hst) as (Hw & _ & Hc' & Hx'); [congruence|]. split.
  - unfold weight in Hw at 2. rewrite Hu in Hw.
    assert (phase_weight (thread (stop s)) ≤ 7).
    { unfold trigger_ok, events_ok in Hst. destruct Hst as (_ & _ & He).
      destruct (thread (stop s)) as [| |evs ex|evs ex| |]; simpl; try lia.
      destruct He as (Hnd & _). pose proof (events_length evs Hnd). repeat case_match; lia. }
    destruct (pending (stop s)); lia.
  - destruct (joinable s') eqn:Hj; [by left|right]. apply own_progress; try done. congruence.
Qed.
End trigger.

(** A trigger with a buffer of two bytes on a file of three, one more appended. *)
Definition demo (sow : bool) (p : phase) : state :=
  State (lit "abc") 3 false false (if sow then [lit "ab"; lit "c"] else []) (if sow then 0 else 3) true p.
Definition demo_waiting : state := demo true Waiting.
Definition demo_end (sow : bool) : state :=
  State (lit "abcd") 4 false false (chunks (demo sow Waiting) ++ [lit "d"]) (skipped (demo sow Waiting)) true Waiting.

Lemma demo_reads sow : rtc (step sow 2) (initial (lit "abc")) (demo sow Constructing).
Proof.
  eapply rtc_l; [left; apply (step_construct _ _ _ (Bytes (lit "ab")) true); [done| |done]|].
  { split_and!; [done|simpl; lia|by exists (lit "c")]. }
  eapply rtc_l; [left; apply (step_construct _ _ _ (Bytes (lit "c")) true); [done| |done]|].
  { split_and!; [done|simpl; lia|by exists []]. }
  by destruct sow.
Qed.
Lemma demo_constructed sow : step sow 2 (demo sow Constructing) (demo sow Waiting).
Proof. left. by apply (step_construct sow 2 (demo sow Constructing) Eof true). Qed.
Lemma demo_reaches_waiting : rtc (step true 2) (initial (lit "abc")) demo_waiting.
Proof. eapply rtc_r; [apply demo_reads|apply demo_constructed]. Qed.

Lemma demo_goes_on sow : rtc (step sow 2) (demo sow Waiting) (demo_end sow).
Proof.
  eapply rtc_l; [right; by apply (step_append (demo sow Waiting) (lit "d"))|].
  eapply rtc_l; [left; apply (step_wait _ _ _ [Inotify]); [done|]|].
  { split_and!; [done|apply NoDup_singleton|by constructor]. }
  eapply rtc_l; [left; by eapply step_event|].
  eapply rtc_l; [left; eapply (step_read _ _ _ _ _ (Bytes (lit "d"))); [done| |done]|].
  { split_and!; [done|simpl; lia|by exists []]. }
  eapply rtc_l; [left; by eapply (step_read _ _ _ _ _ Eof)|].
  apply rtc_once. left. by apply (step_event sow 2 (set_thread (Events [] false) (demo_end sow)) [] false).
Qed.

Lemma file_trigger_delivers_witness : concat (chunks (demo_end true)) = lit "abcd".
Proof.
  apply (file_trigger_delivers true 2 (lit "abc") (demo_end true)); [|done..].
  etrans; [apply demo_reaches_waiting|apply demo_goes_on].
Defined.

Lemma file_trigger_stops_witness :
  ∃ n s', nsteps (own_step true 2) n (stop demo_waiting) s' ∧ thread s' = Done ∧ n ≤ 17.
Proof.
  exists 3, (set_thread Done (stop demo_waiting)).
  assert (H : nsteps (own_step true 2) 3 (stop demo_waiting) (set_thread Done (stop demo_waiting))).
  { eapply nsteps_l; [apply (step_wait _ _ _ [ExitRead]); [done|]|].
    { split_and!; [done|apply NoDup_singleton|by constructor]. }
    eapply nsteps_l; [by eapply step_event|]. 
    apply nsteps_once. by apply (step_event true 2 (set_thread (Events [] true) (stop demo_waiting)) [] true). }
  split_and!; [exact H|reflexivity|].
  apply (file_trigger_stops true 2 (lit "abc") demo_waiting _ 3 ltac:(lia) demo_reaches_waiting ltac:(done) H).
Defined.
End FileTrigger.
