(* ===== verification/FileTail.v ===== *)
(** * The contract of a file trigger, and the ports to macOS and Windows

    [Tail] is the abstract machine every trigger refines: a file that grows and
    what the callback has seen of it, from an offset on.  The class [Trigger]
    states the simulation, and what a user of a trigger may rely on is proved
    against it.  The Linux trigger, [Apple] (file_trigger_apple.cpp) and [Win32]
    (file_trigger_win32.cpp) are its instances. *)

From S2P Require Import Prelude Raii FileTrigger.

(** ** The abstract machine *)

Module Tail.
Record tail := MkTail { file : str; seen : str; skip : nat }.

(** The file grows, a part of it is skipped before anything is seen, the next
    bytes are seen. *)
Inductive tstep : tail → tail → Prop :=
| t_append f s k d : tstep (MkTail f s k) (MkTail (f ++ d) s k)
| t_skip f k n : k + n ≤ length f → tstep (MkTail f [] k) (MkTail f [] (k + n))
| t_see f s k d : d `prefix_of` drop (k + length s) f → tstep (MkTail f s k) (MkTail f (s ++ d) k).

(** What was seen is the part of the file from the offset on. *)
Definition tail_ok (t : tail) : Prop := seen t `prefix_of` drop (skip t) (file t) ∧ skip t ≤ length (file t).

Lemma tstep_ok t t' : tstep t t' → tail_ok t → tail_ok t'.
Proof.
  unfold tail_ok. intros Hst [Hp Hk]. destruct Hst as [f s k d|f k n Hn|f s k d Hd]; simpl in *.
  - rewrite length_app, drop_app_le by done. split; [by apply prefix_app_r|lia].
  - split; [apply prefix_nil|done].
  - split; [|done]. rewrite <-drop_drop in Hd. destruct Hp as [r Hr]. rewrite Hr in *.
    rewrite drop_app_length in Hd. by apply prefix_app.
Qed.

(** What was seen stays seen, and the file only grows. *)
Lemma tstep_mono t t' : tstep t t' → seen t `prefix_of` seen t' ∧ file t `prefix_of` file t'.
Proof.
  intros [f s k d|f k n Hn|f s k d Hd]; simpl; split; try done; by apply prefix_app_r.
Qed.
End Tail.
Import Tail.

(** ** The contract *)

(** An implementation with its steps, its invariant, and the simulation. *)
Class Trigger (S : Type) := {
  trigger_step : S → S → Prop;
  trigger_inv : S → Prop;
  abs : S → tail;
  (** nothing more is to be seen of the file as it is *)
  idle : S → Prop;
  abs_ok s : trigger_inv s → tail_ok (abs s);
  inv_step s s' : trigger_inv s → trigger_step s s' → trigger_inv s';
  simulates s s' : trigger_inv s → trigger_step s s' → rtc tstep (abs s) (abs s');
  idle_complete s : trigger_inv s → idle s → seen (abs s) = drop (skip (abs s)) (file (abs s));
}.

(** What a user relies on, for every implementation. *)
Section client.
Context {St : Type} `{Trigger St}.

Lemma run_inv s s' : trigger_inv s → rtc trigger_step s s' → trigger_inv s'.
Proof. induction 2 as [|s s1 s2 Hst _ IH]; [done|]. eauto using inv_step. Qed.

Lemma run_simulates s s' : trigger_inv s → rtc trigger_step s s' → rtc tstep (abs s) (abs s').
Proof.
  intros Hi Hr. induction Hr as [|s s1 s2 Hst _ IH]; [done|].
  etrans; [by apply simulates|]. apply IH. eauto using inv_step.
Qed.

Lemma tail_mono t t' : rtc tstep t t' → seen t `prefix_of` seen t' ∧ file t `prefix_of` file t'.
Proof.
  induction 1 as [t|t t1 t2 Hst _ [IH1 IH2]]; [done|]. destruct (tstep_mono _ _ Hst). by split; etrans.
Qed.

(** Between two moments of a run: what was seen stays seen, the file only grows,
    what is seen is the file from the offset [from] on, and all of it when idle. *)
Definition follows_file (from : nat) (t t' : tail) (is_idle : Prop) : Prop :=
  seen t `prefix_of` seen t' ∧ file t `prefix_of` file t' ∧
  seen t' `prefix_of` drop from (file t') ∧
  (is_idle → seen t' = drop from (file t')).

Lemma trigger_contract (s0 s s' : St) :
  trigger_inv s0 → rtc trigger_step s0 s → rtc trigger_step s s' →
  follows_file (skip (abs s')) (abs s) (abs s') (idle s').
Proof.
  intros H0 Hs Hs'. pose proof (run_inv _ _ H0 Hs) as Hi. pose proof (run_inv _ _ Hi Hs') as Hi'.
  destruct (tail_mono _ _ (run_simulates _ _ Hi Hs')). destruct (abs_ok s' Hi').
  split_and!; [done..|]. by apply idle_complete.
Qed.
End client.

(** Every run from [s] on follows the file from the same offset on. *)
Definition tails {St} (step : St → St → Prop) (view : St → tail) (is_idle : St → Prop) (from : nat) (s : St) : Prop :=
  ∀ s1 s2, rtc step s s1 → rtc step s1 s2 → follows_file from (view s1) (view s2) (is_idle s2).

(** ** The Linux trigger *)

Module Linux.
Import FileTrigger.
Section linux.
Context (_sow : bool) (_buffer_size : nat).

Definition abs_state (s : state) : tail := MkTail (content s) (concat (chunks s)) (skipped s).

(** Data a read hands on, or skips, as steps of the abstract machine. *)
Lemma read_simulates s r exec :
  delivered_ok _sow _buffer_size s → kernel_read _buffer_size s r →
  (exec = false → chunks s = []) →
  rtc tstep (abs_state s) (abs_state (read_data_turn exec r s).1).
Proof.
  intros (H1 & H2 & H3 & _) Hr He. destruct r as [d| | | |]; simpl; try done.
  destruct Hr as (_ & _ & Hd). unfold abs_state; simpl. apply rtc_once. destruct exec; simpl.
  - rewrite concat_app; simpl. rewrite app_nil_r. constructor.
    apply (f_equal length) in H3. rewrite length_drop, length_take_le in H3 by done.
    rewrite H3. replace (skipped s + (pos s - skipped s)) with (pos s) by lia. done.
  - rewrite He by done. simpl. constructor. destruct (unread_read s d H2 Hd) as [? _]. lia.
Qed.

Lemma step_simulates s s' :
  trigger_ok _sow _buffer_size s → step _sow _buffer_size s s' → rtc tstep (abs_state s) (abs_state s').
Proof.
  intros (Hd & _) [Hst|Hst].
  - destruct Hst as
      [s r pipe Ht Hr _|s d Ht Hr Hsow|s evs Ht Hev|s Ht|s evs ex Ht|s evs ex r Ht Hr _|s evs ex d Ht Hr]; try done.
    + pose proof (read_simulates s r _sow Hd Hr (sow_no_chunks _ _ s Hd Ht)) as Hs.
      unfold construct_turn. by destruct r.
    + by apply (read_simulates s (Bytes d) _sow Hd Hr (sow_no_chunks _ _ s Hd Ht)).
    + by destruct evs as [|[|] evs].
    + pose proof (read_simulates s r true Hd Hr) as Hs. unfold reading_turn. destruct r; by apply Hs.
    + by apply (read_simulates s (Bytes d) true Hd Hr).
  - destruct Hst as [s d Hne|s Ht]; [apply rtc_once; constructor|]. unfold stop. by destruct (_running s).
Qed.

(** The bytes delivered are those of the file from the skipped ones on. *)
Lemma delivered_tail s : delivered_ok _sow _buffer_size s → tail_ok (abs_state s).
Proof.
  intros (H1 & H2 & H3 & _). split; simpl; [|lia].
  rewrite H3, <-(take_drop (pos s) (content s)) at 1.
  exists (drop (pos s) (content s)).
  rewrite <-(take_drop (pos s) (content s)) at 1. rewrite drop_app_le by (rewrite length_take_le; lia).
  by rewrite take_drop.
Qed.

Lemma step_inv s s' :
  trigger_ok _sow _buffer_size s → step _sow _buffer_size s s' → trigger_ok _sow _buffer_size s'.
Proof. intros Hi [Hst|Hst]; eauto using own_step_ok, other_step_ok. Qed.

(** The constructor returned: its first read met the end of the file, the pipe was made and
    the thread started. *)
Definition constructs (s s' : state) : Prop :=
  thread s = Constructing ∧ thread s' = Waiting ∧ step _sow _buffer_size s s'.
(** What the callback is not given: with the start of the world nothing, otherwise
    what was there when the constructor returned. *)
Definition offset (s : state) : nat := if _sow then 0 else length (content s).

Lemma constructs_read s s' :
  constructs s s' → ∃ r pipe, kernel_read _buffer_size s r ∧ s' = construct_turn _sow r pipe s ∧ (r = Eof ∨ r = Again).
Proof.
  intros (Ht & Ht' & [Hst|Hst]).
  - destruct Hst as [s r pipe _ Hr _|s d _ _ _|s evs Hs _|s Hs|s evs ex Hs|s evs ex r Hs _ _|s evs ex d Hs _]; try congruence; [|done].
    exists r, pipe. split_and!; [done|done|]. unfold construct_turn in Ht'. destruct r; simpl in *; try congruence; auto.
  - destruct Hst as [s d _|s Hs]; [simpl in *; congruence|done].
Qed.

(** What the constructor has skipped is skipped for good. *)
Lemma read_skipped s r : skipped (read_data_turn true r s).1 = skipped s.
Proof. by destruct r. Qed.
Lemma construct_done s r pipe :
  delivered_ok _sow _buffer_size s → thread s = Constructing → kernel_read _buffer_size s r → (r = Eof ∨ r = Again) →
  skipped (construct_turn _sow r pipe s) = offset (construct_turn _sow r pipe s) ∧
  concat (chunks (construct_turn _sow r pipe s)) = drop (offset (construct_turn _sow r pipe s)) (content (construct_turn _sow r pipe s)).
Proof.
  intros (H1 & H2 & H3 & _ & H5 & H6) Ht Hr He. assert (unread s = []) as Hu by (destruct He as [-> | ->]; exact Hr).
  assert (pos s = length (content s)) as Hp.
  { apply (f_equal length) in Hu. unfold unread in Hu. rewrite length_drop in Hu. simpl in Hu. lia. }
  assert (skipped s = offset s) as Hs by (unfold offset; destruct _sow; [by apply H5|by rewrite H6]).
  rewrite Hp, firstn_all, Hs in H3. by destruct He as [-> | ->].
Qed.
Lemma step_skipped s s' :
  step _sow _buffer_size s s' → thread s ≠ Constructing → thread s' ≠ Constructing ∧ skipped s' = skipped s.
Proof.
  intros [Hst|Hst] Ht.
  - destruct Hst as [s r pipe Hc _ _|s d Hc _ _|s evs _ _|s _|s evs ex _|s evs ex r Hs _ _|s evs ex d _ _]; try done.
    + by destruct evs as [|[|] evs]; simpl; [destruct ex|..].
    + pose proof (read_skipped s r) as Hk. unfold reading_turn. destruct r; simpl in *; split; try done; congruence.
  - destruct Hst as [s d _|s _]; [done|]. unfold stop. by destruct (_running s).
Qed.
Lemma run_skipped s s' :
  rtc (step _sow _buffer_size) s s' → thread s ≠ Constructing → skipped s' = skipped s.
Proof.
  induction 1 as [|s s1 s2 Hst _ IH]; intros Ht; [done|]. destruct (step_skipped _ _ Hst Ht) as [Ht1 <-]. by apply IH.
Qed.

#[export] Instance linux_trigger : Trigger state := {|
  trigger_step := step _sow _buffer_size;
  trigger_inv := trigger_ok _sow _buffer_size;
  abs := abs_state;
  idle s := thread s = Waiting ∧ pending s = false;
  abs_ok s Hi := delivered_tail s (proj1 Hi);
  inv_step := step_inv;
  simulates := step_simulates;
  idle_complete s Hi Hw := caught_up _ _ s (proj1 Hi) (proj1 (proj2 Hi)) (proj1 Hw) (proj2 Hw);
|}.
End linux.
End Linux.

(** ** file_trigger_apple.cpp *)

Module Apple.
Import FileTrigger.

(** The data of the Linux trigger, with kqueue in the place of inotify and epoll:
    [Inotify] stands for the vnode filter on the file.  The watches are registered
    by the worker, after the first read of the constructor; [late] records that
    something was appended between the two. *)
Record apple := Mac { base : state; registered : bool; late : bool }.
Definition initial_apple (c : str) : apple := Mac (FileTrigger.initial c) false false.

Definition set_close_on_exec (r : Z) : res () :=
  throw_if (r <? 0)%Z (NstlException "fcntl F_SETFD failed with FD_CLOEXEC: ").

Section apple.
Context (_sow : bool) (_buffer_size : nat).

(** The first call of [kevent], which registers. *)
Definition register_watches (ok : bool) (a : apple) : apple :=
  if ok then Mac (base a) true (late a) else Mac (set_thread Failed (base a)) (registered a) (late a).

(** [kevent] reports events; [EV_CLEAR] resets the vnode filter. *)
Definition kevent_turn (evs : list fd) (s : state) : state :=
  set_thread (Events evs false) (if bool_decide (Inotify ∈ evs) then drain_inotify s else s).

Definition event_turn (evs : list fd) (exit_requested : bool) (s : state) : state :=
  match evs with
  | Inotify :: evs => set_thread (Reading evs exit_requested) s
  | ExitRead :: evs => set_thread (Events evs true) s
  | [] => set_thread (if exit_requested then Done else Waiting) s
  end.

(** A write to the file is announced when the filter is registered. *)
Definition append (d : str) (a : apple) : apple :=
  let s := base a in
  Mac (State (content s ++ d) (pos s) (pending s || registered a) (exit_byte s) (chunks s) (skipped s)
         (_running s) (thread s))
    (registered a) (late a || (negb (registered a) && negb (bool_decide (thread s = Constructing)))).

Inductive apple_step : apple → apple → Prop :=
| a_construct a r pipe : thread (base a) = Constructing → kernel_read _buffer_size (base a) r →
    apple_step a (Mac (construct_turn _sow r pipe (base a)) (registered a) (late a))
| a_register a ok : thread (base a) = Waiting → registered a = false → apple_step a (register_watches ok a)
| a_wait a evs : thread (base a) = Waiting → registered a = true → kernel_events (base a) evs →
    apple_step a (Mac (kevent_turn evs (base a)) true (late a))
| a_wait_fails a : thread (base a) = Waiting → apple_step a (Mac (set_thread Failed (base a)) (registered a) (late a))
| a_event a evs ex : thread (base a) = Events evs ex →
    apple_step a (Mac (event_turn evs ex (base a)) (registered a) (late a))
| a_read a evs ex r : thread (base a) = Reading evs ex → kernel_read _buffer_size (base a) r →
    apple_step a (Mac (reading_turn evs ex r (base a)) (registered a) (late a))
| a_callback_throws a evs ex d : thread (base a) = Reading evs ex → kernel_read _buffer_size (base a) (Bytes d) →
    apple_step a (Mac (set_thread Failed (read_data_turn true (Bytes d) (base a)).1) (registered a) (late a))
| a_append a d : d ≠ [] → apple_step a (append d a)
| a_stop a : thread (base a) ≠ Constructing → apple_step a (Mac (stop (base a)) (registered a) (late a)).

Definition abs_apple (a : apple) : tail := Linux.abs_state (base a).

(** Unread bytes are announced, or about to be read, or came too late. *)
Definition apple_announced (a : apple) : Prop :=
  unread (base a) = [] ∨ pending (base a) = true ∨ late a = true ∨
  match thread (base a) with Waiting => False | Events evs _ => Inotify ∈ evs | _ => True end.
Definition apple_ok (a : apple) : Prop := delivered_ok _sow _buffer_size (base a) ∧ apple_announced a.

Lemma apple_step_ok a a' : apple_ok a → apple_step a a' → apple_ok a'.
Proof.
  intros [Hd Ha] Hst. unfold apple_announced in Ha. destruct Hst as
    [a r pipe Ht Hr|a ok Ht Hreg|a evs Ht Hreg Hev|a Ht|a evs ex Ht|a evs ex r Ht Hr|a evs ex d Ht Hr|a d Hne|a Ht];
    try rewrite Ht in Ha.
  - split; [by apply construct_delivered|]. unfold apple_announced, construct_turn; simpl.
    destruct r as [d| | | |]; simpl in *; rewrite ?Ht; try tauto; by left.
  - unfold register_watches. destruct ok; [split; [done|]; unfold apple_announced; simpl; rewrite Ht; tauto|].
    split; [by apply delivered_thread|]. unfold apple_announced; simpl. tauto.
  - unfold apple_ok, apple_announced, kevent_turn; simpl. case_bool_decide as Hin; simpl.
    + split; [|tauto]. apply delivered_thread; [|done]. by eapply delivered_same; [..|exact Hd].
    + split; [by apply delivered_thread|]. unfold unread in *; simpl. tauto.
  - split; [by apply delivered_thread|]. unfold apple_announced; simpl. tauto.
  - unfold apple_ok, apple_announced; simpl. destruct evs as [|[|] evs]; simpl.
    + rewrite elem_of_nil in Ha. split; [by apply delivered_thread; [|destruct ex]|]. unfold unread in *; simpl.
      destruct ex; tauto.
    + split; [by apply delivered_thread|]. tauto.
    + rewrite elem_of_cons in Ha. split; [by apply delivered_thread|]. unfold unread in *; simpl. naive_solver.
  - split; [by apply reading_delivered|]. unfold apple_announced, reading_turn; simpl.
    destruct r as [d| | | |]; simpl in *; rewrite ?Ht; try tauto; by left.
  - split; [apply read_delivered; try done; congruence|]. unfold apple_announced; simpl. tauto.
  - split; [by apply append_delivered|]. unfold apple_announced; simpl.
    destruct (registered a); simpl; [rewrite orb_true_r; tauto|].
    case_bool_decide as Ht; simpl; [rewrite Ht; tauto|rewrite orb_true_r; tauto].
  - split; simpl; [|unfold stop; by destruct (_running (base a))].
    unfold stop. destruct (_running (base a)); [|done]. by eapply delivered_same; [..|exact Hd].
Qed.

Lemma apple_step_simulates a a' : apple_ok a → apple_step a a' → rtc tstep (abs_apple a) (abs_apple a').
Proof.
  intros [Hd _] Hst. unfold abs_apple. destruct Hst as
    [a r pipe Ht Hr|a ok Ht Hreg|a evs Ht Hreg Hev|a Ht|a evs ex Ht|a evs ex r Ht Hr|a evs ex d Ht Hr|a d Hne|a Ht];
    simpl; try done.
  - pose proof (Linux.read_simulates _ _ (base a) r _sow Hd Hr (sow_no_chunks _ _ _ Hd Ht)).
    unfold construct_turn. by destruct r.
  - by destruct ok.
  - unfold kevent_turn. by case_bool_decide.
  - by destruct evs as [|[|] evs].
  - pose proof (Linux.read_simulates _ _ (base a) r true Hd Hr) as Hs. unfold reading_turn. destruct r; by apply Hs.
  - by apply (Linux.read_simulates _ _ (base a) (Bytes d) true Hd Hr).
  - apply rtc_once. constructor.
  - unfold stop. by destruct (_running (base a)).
Qed.

(** The constructor returned. *)
Definition apple_constructs (a a' : apple) : Prop :=
  thread (base a) = Constructing ∧ thread (base a') = Waiting ∧ apple_step a a'.
Lemma apple_constructs_read a a' :
  apple_constructs a a' →
  ∃ r pipe, kernel_read _buffer_size (base a) r ∧ base a' = construct_turn _sow r pipe (base a) ∧ (r = Eof ∨ r = Again).
Proof.
  intros (Ht & Ht' & Hst).
  destruct Hst as [a r pipe _ Hr|a ok Hs _|a evs Hs _ _|a Hs|a evs ex Hs|a evs ex r Hs _|a evs ex d Hs _|a d _|a Hs]; try congruence; try done.
  - exists r, pipe. split_and!; [done|done|]. simpl in Ht'. unfold construct_turn in Ht'. destruct r; simpl in *; try congruence; auto.
  - simpl in *. congruence.
Qed.
Lemma apple_step_skipped a a' :
  apple_step a a' → thread (base a) ≠ Constructing →
  thread (base a') ≠ Constructing ∧ skipped (base a') = skipped (base a).
Proof.
  intros Hst Ht.
  destruct Hst as [a r pipe Hc _|a ok _ _|a evs _ _ _|a _|a evs ex _|a evs ex r Hs _|a evs ex d _ _|a d _|a _]; simpl; try done.
  - by destruct ok.
  - unfold kevent_turn. by destruct (bool_decide _).
  - by destruct evs as [|[|] evs]; simpl; [destruct ex|..].
  - pose proof (Linux.read_skipped (base a) r) as Hk. unfold reading_turn. destruct r; simpl in *; split; try done; congruence.
  - unfold stop. by destruct (_running (base a)).
Qed.
Lemma apple_run_skipped a a' :
  rtc apple_step a a' → thread (base a) ≠ Constructing → skipped (base a') = skipped (base a).
Proof.
  induction 1 as [|a a1 a2 Hst _ IH]; intros Ht; [done|]. destruct (apple_step_skipped _ _ Hst Ht) as [Ht1 <-]. by apply IH.
Qed.

(** Idle: the watches are registered, nothing is announced and nothing came too
    late. *)
Definition apple_idle (a : apple) : Prop :=
  thread (base a) = Waiting ∧ pending (base a) = false ∧ late a = false.

Lemma apple_caught_up a :
  apple_ok a → apple_idle a → seen (abs_apple a) = drop (skip (abs_apple a)) (file (abs_apple a)).
Proof.
  intros [Hd Ha] (Ht & Hp & Hl). apply (caught_up _ _ _ Hd); [|done|done].
  unfold apple_announced in Ha. rewrite Ht, Hp, Hl in Ha. left. naive_solver.
Qed.

#[export] Instance apple_trigger : Trigger apple := {|
  trigger_step := apple_step;
  trigger_inv := apple_ok;
  abs := abs_apple;
  idle := apple_idle;
  abs_ok a Hi := Linux.delivered_tail _ _ _ (proj1 Hi);
  inv_step := apple_step_ok;
  simulates := apple_step_simulates;
  idle_complete := apple_caught_up;
|}.

Lemma initial_apple_ok c : apple_ok (initial_apple c).
Proof. split; [apply initial_ok|]. unfold apple_announced; simpl. tauto. Qed.
End apple.

(** The macOS trigger can miss an append: it registers the watch only after
    the constructor's last read, so that bytes written in between are announced to
    nobody.  The worker then waits, with nothing to wake it, while the file has
    bytes the callback never saw. *)
Theorem apple_append_missed (c d : str) (sow : bool) (n : nat) :
  d ≠ [] → 0 < length c ≤ n →
  ∃ a, rtc (apple_step sow n) (initial_apple c) a ∧
    thread (base a) = Waiting ∧ registered a = true ∧ pending (base a) = false ∧ exit_byte (base a) = false ∧
    content (base a) = c ++ d ∧ unread (base a) = d ∧
    (∀ evs, ¬ kernel_events (base a) evs).
Proof.
  intros Hd Hc.
  set (s1 := (read_data_turn sow (Bytes c) (FileTrigger.initial c)).1).
  set (a2 := Mac (set_thread Waiting s1) false false).
  exists (register_watches true (append d a2)). split.
  - eapply rtc_l; [apply (a_construct _ _ (initial_apple c) (Bytes c) true); [done|]|].
    { split_and!; [by destruct c; simpl in *; [lia|]|lia|done]. }
    eapply rtc_l; [apply (a_construct _ _ (Mac s1 false false) Eof true); [done|]|].
    { simpl. unfold unread, s1; simpl. by rewrite drop_all. }
    eapply rtc_l; [by apply (a_append _ _ a2 d)|]. apply rtc_once. by apply a_register.
  - simpl. split_and!; try done.
    + unfold unread; simpl. by rewrite drop_app_length.
    + intros evs (Hne & _ & Hall). destruct evs as [|[|] evs]; [done|..];
        apply list.Forall_cons in Hall as [Hr _]; done.
Qed.

Lemma apple_append_missed_witness :
  ∃ a, rtc (apple_step true 4) (initial_apple (lit "ab")) a ∧ unread (base a) = lit "c".
Proof.
  destruct (apple_append_missed (lit "ab") (lit "c") true 4) as (a & Hr & _ & _ & _ & _ & _ & Hu & _);
    [done|simpl; lia|]. by exists a.
Defined.
End Apple.

(** ** file_trigger_win32.cpp *)

Module Win32.

(** [set_overlapped_offset]: the two halves of an offset. *)
Definition set_overlapped_offset (offset : Z) : Z * Z :=
  (Z.land offset (2 ^ 32 - 1), Z.shiftr offset 32).

Lemma overlapped_offset_exact offset :
  (0 ≤ offset < 2 ^ 64)%Z →
  let '(lo, hi) := set_overlapped_offset offset in
  (0 ≤ lo < 2 ^ 32 ∧ 0 ≤ hi < 2 ^ 32 ∧ lo + hi * 2 ^ 32 = offset)%Z.
Proof.
  intros Ho. unfold set_overlapped_offset. change (2 ^ 32 - 1)%Z with (Z.ones 32).
  rewrite Z.land_ones, Z.shiftr_div_pow2 by lia.
  pose proof (Z.mod_pos_bound offset (2 ^ 32) ltac:(lia)). pose proof (Z.div_mod offset (2 ^ 32) ltac:(lia)).
  pose proof (Z.div_pos offset (2 ^ 32) ltac:(lia) ltac:(lia)).
  pose proof (Z.div_lt_upper_bound offset (2 ^ 32) (2 ^ 32) ltac:(lia) ltac:(lia)). lia.
Qed.

(** The factories up to the construction of the object: the size of the file at
    that moment, or a failure of [GetFileSizeEx]. *)
Definition factory (handler : Handle.win_handle) (refusal : string) (cb : bool) (buffer_size : Z)
    (file_size : option nat) : res nat :=
  throw_if (negb (Handle.windows_valid handler)) (NstlException refusal);;
  throw_if (negb cb) (NstlException "invalid callback");;
  throw_if (buffer_size =? 0)%Z (NstlException "Buffer must not be empty");;
  match file_size with
  | Some n => Ok n
  | None => Throw (NstlException "GetFileSizeEx failed: ")
  end.

(** Where the worker is: before a [ReadFile], waiting for it to complete, waiting
    for the exit event after the end of the file, returned, or left by an
    exception.  [grown] records that the file grew since its end was seen. *)
Inductive phase := Reading | PendingIO | EofWait | Done | Failed.
#[export] Instance win_phase_eq_dec : EqDecision phase.
Proof. solve_decision. Defined.
Record state := State {
  content : str;
  file_offset : nat;
  chunks : list str;
  exit_event : bool;
  _running : bool;
  grown : bool;
  thread : phase;
}.
Definition initial (c : str) : state := State c 0 [] false true false Reading.
Definition set_thread (p : phase) (s : state) : state :=
  State (content s) (file_offset s) (chunks s) (exit_event s) (_running s) (grown s) p.
Definition unread (s : state) : str := drop (file_offset s) (content s).
(** The end of the file was seen. *)
Definition at_eof (s : state) : state :=
  State (content s) (file_offset s) (chunks s) (exit_event s) (_running s) false EofWait.

Section win32.
Context (_sow : bool) (_sow_boundary : nat) (_buffer_size : Z).

(** [static_cast<DWORD>(buffer.size())]. *)
Definition read_size : nat := Z.to_nat (wrap 32 _buffer_size).

(** What [GetOverlappedResult] may answer. *)
Inductive overlapped := Transferred (d : str) | OverEof | OverFail.
Definition kernel_overlapped (s : state) (o : overlapped) : Prop :=
  match o with
  | Transferred d => d `prefix_of` unread s ∧ length d ≤ read_size ∧ (d = [] → unread s = [] ∨ read_size = 0)
  | OverEof => unread s = []
  | OverFail => True
  end.

(** The part of a chunk that goes to the callback. *)
Definition deliver_from (chunk_start offset : nat) : nat :=
  if negb _sow && (chunk_start <? _sow_boundary)%nat then min offset _sow_boundary else chunk_start.
Definition deliver (d : str) (s : state) : state :=
  let chunk_start := file_offset s in
  let offset := chunk_start + length d in
  let from := deliver_from chunk_start offset in
  State (content s) offset
    (if (from <? offset)%nat then chunks s ++ [drop (from - chunk_start) d] else chunks s)
    (exit_event s) (_running s) (grown s) Reading.
(** The code after a completed read. *)
Definition complete (o : overlapped) (s : state) : state :=
  match o with
  | Transferred [] => at_eof s
  | Transferred d => deliver d s
  | OverEof => at_eof s
  | OverFail => set_thread Failed s
  end.

Definition append (d : str) (s : state) : state :=
  State (content s ++ d) (file_offset s) (chunks s) (exit_event s) (_running s) true (thread s).
Definition stop (s : state) : state :=
  if _running s then State (content s) (file_offset s) (chunks s) true false (grown s) (thread s) else s.

Inductive own_step : state → state → Prop :=
| w_read_sync s o : thread s = Reading → kernel_overlapped s o → own_step s (complete o s)
| w_read_pending s : thread s = Reading → own_step s (set_thread PendingIO s)
| w_read_eof s : thread s = Reading → unread s = [] → own_step s (at_eof s)
| w_io_done s o : thread s = PendingIO → kernel_overlapped s o → own_step s (complete o s)
| w_io_exit s : thread s = PendingIO → exit_event s = true → own_step s (set_thread Done s)
| w_eof_poll s : thread s = EofWait → exit_event s = false → own_step s (set_thread Reading s)
| w_eof_exit s : thread s = EofWait → exit_event s = true → own_step s (set_thread Done s)
| w_fails s : thread s ≠ Done → thread s ≠ Failed → own_step s (set_thread Failed s)
| w_callback_throws s d : (thread s = Reading ∨ thread s = PendingIO) → kernel_overlapped s (Transferred d) →
    own_step s (set_thread Failed (deliver d s)).
Inductive other_step : state → state → Prop :=
| w_append s d : d ≠ [] → other_step s (append d s)
| w_stop s : other_step s (stop s).
Definition step (s s' : state) : Prop := own_step s s' ∨ other_step s s'.

(** ** Correctness *)

Definition skip_bytes : nat := if _sow then 0 else _sow_boundary.
Definition win_delivered (s : state) : Prop :=
  file_offset s ≤ length (content s) ∧ skip_bytes ≤ length (content s) ∧
  concat (chunks s) = drop skip_bytes (take (file_offset s) (content s)).
Definition abs_win (s : state) : tail := MkTail (content s) (concat (chunks s)) skip_bytes.

(** Skipping up to the boundary inside a chunk is skipping in the file. *)
Lemma deliver_concat s d :
  concat (chunks (deliver d s)) =
  concat (chunks s) ++ drop (deliver_from (file_offset s) (file_offset s + length d) - file_offset s) d.
Proof.
  unfold deliver; simpl. set (from := deliver_from _ _). destruct (Nat.ltb_spec from (file_offset s + length d)).
  - rewrite concat_app; simpl. by rewrite app_nil_r.
  - rewrite drop_ge by lia. by rewrite app_nil_r.
Qed.
Lemma deliver_from_drop start (d : str) :
  drop (deliver_from start (start + length d) - start) d = drop (skip_bytes - start) d.
Proof.
  unfold deliver_from, skip_bytes. destruct _sow; simpl; [by rewrite Nat.sub_diag|].
  destruct (Nat.ltb_spec start _sow_boundary); [|f_equal; lia].
  destruct (Nat.le_ge_cases (start + length d) _sow_boundary).
  - rewrite !drop_ge by lia. done.
  - f_equal. lia.
Qed.

Lemma deliver_ok s d :
  win_delivered s → d `prefix_of` unread s →
  win_delivered (deliver d s) ∧ rtc tstep (abs_win s) (abs_win (deliver d s)).
Proof.
  intros (H1 & H2 & H3) Hd. destruct (take_read _ _ _ H1 Hd) as [Hle Htake].
  assert (Hcat : concat (chunks (deliver d s)) = drop skip_bytes (take (file_offset s + length d) (content s))).
  { rewrite deliver_concat, deliver_from_drop, H3, Htake, drop_app, length_take_le by done. done. }
  split; [by split_and!|]. apply rtc_once. unfold abs_win. simpl content. rewrite deliver_concat.
  constructor. rewrite <-drop_drop. rewrite deliver_concat in Hcat.
  rewrite <-(take_drop (file_offset s + length d) (content s)) at 1.
  destruct (decide (skip_bytes ≤ file_offset s + length d)) as [Hs|Hs].
  - rewrite drop_app_le by (rewrite length_take_le; lia). rewrite <-Hcat, <-(assoc_L (++)), drop_app_length. by eexists.
  - rewrite deliver_from_drop, drop_ge by lia. apply prefix_nil.
Qed.

Lemma win_frame s s' :
  content s' = content s → file_offset s' = file_offset s → chunks s' = chunks s →
  win_delivered s → win_delivered s' ∧ rtc tstep (abs_win s) (abs_win s').
Proof. unfold win_delivered, abs_win. intros -> -> ->. done. Qed.

Lemma complete_ok s o :
  win_delivered s → kernel_overlapped s o →
  win_delivered (complete o s) ∧ rtc tstep (abs_win s) (abs_win (complete o s)).
Proof.
  intros Hw Ho. destruct o as [[|x d]| |]; try by apply win_frame. destruct Ho as [Hd _]. by apply deliver_ok.
Qed.

Lemma win_step_ok s s' :
  win_delivered s → step s s' → win_delivered s' ∧ rtc tstep (abs_win s) (abs_win s').
Proof.
  intros Hw [Hst|Hst].
  - destruct Hst as [s o _ Ho|s _|s _ _|s o _ Ho|s _ _|s _ _|s _ _|s _ _|s d _ [Hd _]];
      try (by apply complete_ok); try by apply win_frame.
    by apply (deliver_ok s d).
  - destruct Hst as [s d _|s]; [|unfold stop; destruct (_running s); by apply win_frame].
    destruct Hw as (H1 & H2 & H3). split; [|apply rtc_once; constructor].
    unfold win_delivered; simpl. rewrite length_app, take_app_le by done. split_and!; [lia|lia|done].
Qed.

(** The own steps that are left once the exit event is set and nobody writes. *)
Definition win_weight (s : state) : nat :=
  match thread s with
  | Reading => 3 + 3 * length (unread s)
  | PendingIO => 2 + 3 * length (unread s)
  | EofWait => 1
  | Done | Failed => 0
  end.

Lemma complete_weight s o :
  win_delivered s → kernel_overlapped s o →
  (thread s = Reading ∨ thread s = PendingIO) → win_weight (complete o s) < win_weight s.
Proof.
  intros (Hle & _) Ho Ht. assert (2 + 3 * length (unread s) ≤ win_weight s) as Hw.
  { unfold win_weight. destruct Ht as [-> | ->]; lia. }
  destruct o as [[|x d]| |]; simpl; unfold win_weight at 1; simpl; try lia.
  destruct Ho as [[k Hk] _]. unfold unread in *; simpl. apply (f_equal length) in Hk.
  rewrite length_app, length_drop in Hk. rewrite !length_drop in *. simpl in *. lia.
Qed.

Lemma win_own_weight s s' :
  own_step s s' → win_delivered s → exit_event s = true →
  win_weight s' < win_weight s ∧ exit_event s' = true.
Proof.
  intros Hst Hd Hx. split.
  - destruct Hst as [s o Ht Ho|s Ht|s Ht _|s o Ht Ho|s Ht _|s Ht He|s Ht _|s H1 H2|s d Ht _];
      try (apply complete_weight; tauto); try congruence;
      unfold win_weight; simpl; unfold unread; simpl; try (rewrite Ht; lia).
    + destruct (thread s); try done; lia.
    + destruct Ht as [-> | ->]; lia.
  - destruct Hst as [s [[|x d]| |]|s|s|s [[|x d]| |]|s|s|s|s|s d]; done.
Qed.

(** [stop] ends the worker. *)
Lemma win_trigger_stops n s s' :
  nsteps own_step n s s' → win_delivered s → exit_event s = true →
  n ≤ 3 + 3 * length (unread s) ∧ (thread s' = Done ∨ thread s' = Failed ∨ ∃ s'', own_step s' s'').
Proof.
  intros Hn Hd Hx.
  assert (n + win_weight s' ≤ win_weight s) as Hw.
  { induction Hn as [s|n s s1 s2 Hst _ IH]; [done|].
    destruct (win_own_weight _ _ Hst Hd Hx) as [Hw Hx1].
    assert (Hd1 : win_delivered s1) by (eapply win_step_ok; [done|by left]). specialize (IH Hd1 Hx1). lia. }
  split.
  - assert (win_weight s ≤ 3 + 3 * length (unread s)) by (unfold win_weight; destruct (thread s); lia). lia.
  - destruct (thread s') eqn:E; try tauto; right; right; exists (set_thread Failed s'); apply w_fails; congruence.
Qed.

(** A buffer whose size is a multiple of 2^32 is cut to nothing: no byte is ever
    delivered. *)
Lemma wide_buffer_sees_nothing c s :
  read_size = 0 → rtc step (initial c) s → chunks s = [].
Proof.
  intros Hz Hr. assert (H : chunks (initial c) = [] ∧ file_offset (initial c) = 0) by done.
  revert H. enough (∀ s0, rtc step s0 s → chunks s0 = [] ∧ file_offset s0 = 0 → chunks s = []) as Hgo by eauto.
  clear Hr. induction 1 as [s|s0 s1 s Hst _ IH]; [tauto|]. intros [Hc Ho]. apply IH.
  assert (Hdel : ∀ d, kernel_overlapped s0 (Transferred d) → d = []).
  { intros d (_ & Hl & _). rewrite Hz in Hl. by apply length_zero_iff_nil; lia. }
  destruct Hst as [Hst|Hst].
  - destruct Hst as [s0 [[|x d]| |] _ Hk|s0|s0|s0 [[|x d]| |] _ Hk|s0|s0|s0|s0|s0 d _ Hk]; simpl; try done;
      try (by specialize (Hdel _ Hk)).
    specialize (Hdel _ Hk). subst d. unfold deliver, deliver_from; simpl. rewrite Ho; simpl.
    by destruct _sow, _sow_boundary.
  - destruct Hst as [s0 d _|s0]; [done|]. unfold stop. by destruct (_running s0).
Qed.
(** With a buffer that is not cut to nothing, the end of the file is seen only
    when everything was read. *)
Context (read_size_pos : 0 < read_size).
Definition win_ok (s : state) : Prop :=
  win_delivered s ∧ (thread s = EofWait → grown s = false → unread s = []).

Lemma win_step_inv s s' : win_ok s → step s s' → win_ok s'.
Proof using read_size_pos.
  intros [Hw He] Hst. split; [by eapply win_step_ok|].
  assert (Hc : ∀ o, kernel_overlapped s o → thread (complete o s) = EofWait → unread (complete o s) = []).
  { intros [[|x d]| |] Ho; simpl; try done. destruct Ho as (_ & _ & [?|?]); [done|done|lia]. }
  destruct Hst as [Hst|Hst].
  - destruct Hst as [s o _ Ho|s _|s _ Hu|s o _ Ho|s _ _|s _ _|s _ _|s _ _|s d _ _]; simpl; auto; done.
  - destruct Hst as [s d _|s]; simpl; [done|]. unfold stop. by destruct (_running s).
Qed.

Definition win_idle (s : state) : Prop := thread s = EofWait ∧ grown s = false.

Lemma win_caught_up s :
  win_ok s → win_idle s → seen (abs_win s) = drop (skip (abs_win s)) (file (abs_win s)).
Proof.
  intros [(H1 & H2 & H3) He] [Ht Hg]. simpl. rewrite H3, take_ge; [done|].
  specialize (He Ht Hg). apply (f_equal length) in He. unfold unread in He. rewrite length_drop in He. simpl in He. lia.
Qed.

Lemma win_abs_ok s : win_ok s → tail_ok (abs_win s).
Proof.
  intros [(H1 & H2 & H3) _]. split; simpl; [|done]. rewrite H3.
  destruct (decide (skip_bytes ≤ file_offset s)).
  - exists (drop (file_offset s) (content s)). rewrite <-(take_drop (file_offset s) (content s)) at 1.
    by rewrite drop_app_le by (rewrite length_take_le; lia).
  - rewrite drop_ge by (rewrite length_take_le; lia). apply prefix_nil.
Qed.

#[export] Instance win_trigger : Trigger state := {|
  trigger_step := step;
  trigger_inv := win_ok;
  abs := abs_win;
  idle := win_idle;
  abs_ok := win_abs_ok;
  inv_step := win_step_inv;
  simulates s s' Hi Hst := proj2 (win_step_ok s s' (proj1 Hi) Hst);
  idle_complete := win_caught_up;
|}.

End win32.
End Win32.

(** ** All platforms *)


