(* ===== verification/TriggerLife.v ===== *)
(** * The handles of file triggers: the factories, constructors and destructors of
    file_trigger_linux.cpp, file_trigger_apple.cpp and file_trigger_win32.cpp

    A trigger owns the handle of its file and the handles it makes for its worker.
    [Owners] is the part of the systems that gives out handles, with the owners of a
    scope; [Posix] and [Windows] are the factories with every failure they handle;
    [Programs] are programs that make, stop and destroy triggers; [Worker] is the
    thread function that ends in the log. *)

From S2P Require Import Prelude Strings Raii FileTrigger FileTail Logger LogSystem.

(** ** Handles and owners *)

Module Owners.
Import Handle.

#[export] Instance win_handle_countable : Countable win_handle.
Proof. apply (inj_countable' (λ h, match h with HANDLE p => p end) HANDLE). by intros []. Defined.

(** What a system promises: a call that makes a handle returns one that is not in
    use, and a value that is no handle when it fails.  A handle an owner would not
    recognise is in use from the start ([reserved]). *)
Class HandleKernel (T : Type) `{HandleTools T, !Countable T} := {
  failed : T;
  pick : gset T → T;
  reserved : gset T → Prop;
  failed_invalid : valid failed = false;
  pick_fresh : ∀ X, pick X ∉ X;
  pick_valid : ∀ X, reserved X → valid (pick X) = true;
  reserved_union : ∀ X Y, reserved X → reserved (X ∪ Y);
}.

Section owners.
Context {T : Type} `{HK : HandleKernel T}.

Record kernel := Kernel { opened : gset T; bad_closes : list T }.

Definition sys_new (ok : bool) : M kernel T := λ k,
  if ok then (Kernel ({[pick (opened k)]} ∪ opened k) (bad_closes k), Ok (pick (opened k))) else (k, Ok failed).
Definition sys_close (h : T) (k : kernel) : kernel :=
  if decide (h ∈ opened k) then Kernel (opened k ∖ {[h]}) (bad_closes k)
  else Kernel (opened k) (bad_closes k ++ [h]).
(** The destructor of a [custom_raii]. *)
Definition drop (h : T) (k : kernel) : kernel := if valid h then sys_close h k else k.
(** The owner of a handle over the rest of its scope: an exception destroys it, a
    result takes it over. *)
Definition owned {A} (h : T) (m : M kernel A) : M kernel A := λ k,
  match m k with
  | (k', Throw e) => (drop h k', Throw e)
  | r => r
  end.

(** The handles [l] are open besides those of [base], each owned once. *)
Definition holds (base : gset T) (l : list T) (k : kernel) : Prop :=
  opened k = base ∪ list_to_set l ∧ NoDup l ∧ Forall (λ h, h ∉ base ∧ valid h = true) l ∧
  bad_closes k = [] ∧ reserved base.

#[export] Instance holds_proper base : Proper ((≡ₚ) ==> (=) ==> iff) (holds base).
Proof.
  assert (∀ l l' k, l ≡ₚ l' → holds base l k → holds base l' k) as H'.
  { intros l l' k Hl (H1 & H2 & H3 & H4). unfold holds. rewrite H1. split_and!; [|by rewrite <-Hl..|apply H4|apply H4].
    f_equal. apply set_eq. intros x. rewrite !elem_of_list_to_set. by rewrite Hl. }
  intros l l' Hl k k' <-. split; by apply H'.
Qed.

Lemma sys_new_holds base l k : holds base l k →
  ∃ h, sys_new true k = (Kernel ({[h]} ∪ opened k) (bad_closes k), Ok h) ∧ valid h = true ∧
    holds base (h :: l) (Kernel ({[h]} ∪ opened k) (bad_closes k)).
Proof.
  intros (H1 & H2 & H3 & H4 & H5). unfold sys_new. exists (pick (opened k)). split; [done|].
  pose proof (pick_fresh (opened k)) as Hp.
  assert (valid (pick (opened k)) = true) as Hv by (apply pick_valid; rewrite H1; by apply reserved_union).
  split; [done|]. rewrite H1 in Hp at 2. unfold holds; simpl. split_and!; [|..|done|done].
  - rewrite H1 at 2. set_solver.
  - constructor; [|done]. set_solver.
  - constructor; [|done]. split; [set_solver|done].
Qed.

Lemma drop_holds base h l k : holds base (h :: l) k → holds base l (drop h k).
Proof.
  intros (H1 & H2 & H3 & H4 & H5). apply list.Forall_cons in H3 as [[Hb Hv] H3]. apply list.NoDup_cons in H2 as [Hn H2].
  unfold drop, sys_close. rewrite Hv, decide_True by set_solver. unfold holds; simpl. split_and!; [|done..].
  rewrite H1. apply set_eq. intros x. simpl. rewrite elem_of_difference, !elem_of_union, !elem_of_list_to_set, !elem_of_singleton.
  split; [naive_solver|]. intros Hx. split; [naive_solver|]. intros ->. naive_solver.
Qed.

Lemma drop_failed h k : valid h = false → drop h k = k.
Proof. intros Hv. unfold drop. by rewrite Hv. Qed.

(** What a call does to the handles: it was given those of [l] with the others of
    [rest] in the background.  It succeeds when [ok] says so, and keeps what its
    result holds; otherwise it gives back what it got, or, when it [takes] it, has
    closed it. *)
Definition keeps {A} (base : gset T) (rest l : list T) (ok : bool) (post : A → list T → Prop) (m : M kernel A) : Prop :=
  ∀ k, holds base (l ++ rest) k →
  match m k with
  | (k', Ok a) => ok = true ∧ ∃ l', post a l' ∧ holds base (l' ++ rest) k'
  | (k', Throw _) => ok = false ∧ holds base (l ++ rest) k'
  end.
Definition takes {A} (base : gset T) (rest l : list T) (ok : bool) (post : A → list T → Prop) (m : M kernel A) : Prop :=
  ∀ k, holds base (l ++ rest) k →
  match m k with
  | (k', Ok a) => ok = true ∧ ∃ l', post a l' ∧ holds base (l' ++ rest) k'
  | (k', Throw _) => ok = false ∧ holds base rest k'
  end.

Lemma keeps_ret {A} base rest l (post : A → list T → Prop) a : post a l → keeps base rest l true post (mret a).
Proof. intros Hp k Hk. simpl. split; [done|]. by exists l. Qed.
Lemma keeps_throw_if {A} base rest l ok (post : A → list T → Prop) b e m :
  (b = false → keeps base rest l ok post m) → keeps base rest l (negb b && ok) post (mthrow_if b e;; m).
Proof. intros Hm k Hk. munfold_goal. destruct b; [done|]. by apply Hm. Qed.
Lemma keeps_lift {A B} base rest l ok (post : A → list T → Prop) (r : res B) m :
  keeps base rest l ok post m → keeps base rest l (res_is_ok r && ok) post (mlift r;; m).
Proof. intros Hm k Hk. munfold_goal. destruct r; [|done]. by apply Hm. Qed.
Lemma keeps_ok {A} base rest l ok ok' (post : A → list T → Prop) m :
  ok = ok' → keeps base rest l ok post m → keeps base rest l ok' post m.
Proof. by intros <-. Qed.
(** The test of a handle just made. *)
Lemma keeps_valid {A} base rest l ok (post : A → list T → Prop) h e m :
  valid h = true → keeps base rest l ok post m → keeps base rest l ok post (mthrow_if (negb (valid h)) e;; m).
Proof. intros Hv Hm. rewrite Hv. exact Hm. Qed.
Lemma keeps_not_valid {A} base rest l (post : A → list T → Prop) h e (m : M kernel A) :
  valid h = false → keeps base rest l false post (mthrow_if (negb (valid h)) e;; m).
Proof. intros Hv k Hk. munfold_goal. by rewrite Hv. Qed.
(** A handle made and owned for the rest of the scope. *)
Lemma keeps_new {A} base rest l b ok (post : A → list T → Prop) (f : T → M kernel A) :
  (∀ h, valid h = true → keeps base rest (h :: l) ok post (f h)) → keeps base rest l false post (f failed) →
  keeps base rest l (b && ok) post (h ← sys_new b; owned h (f h)).
Proof.
  intros H1 H2 k Hk. munfold_goal. unfold owned. destruct b.
  - destruct (sys_new_holds _ _ _ Hk) as (h & -> & Hv & Hh). specialize (H1 h Hv _ Hh).
    destruct (f h _) as [k' [a|e]]; [done|]. simpl. destruct H1 as [? H1]. split; [done|]. by apply drop_holds.
  - simpl. specialize (H2 k Hk). destruct (f failed k) as [k' [a|e]]; [naive_solver|].
    by rewrite drop_failed by apply failed_invalid.
Qed.
Lemma keeps_new_true {A} base rest l ok (post : A → list T → Prop) (f : T → M kernel A) :
  (∀ h, valid h = true → keeps base rest (h :: l) ok post (f h)) →
  keeps base rest l ok post (h ← sys_new true; owned h (f h)).
Proof.
  intros H1 k Hk. unfold mbind, M_bind, owned. destruct (sys_new_holds _ _ _ Hk) as (h & -> & Hv & Hh).
  specialize (H1 h Hv _ Hh). destruct (f h _) as [k' [a|e]]; [done|]. split; [apply H1|]. apply drop_holds, H1.
Qed.
(** An argument that is moved in. *)
Lemma takes_owned {A} base rest h ok (post : A → list T → Prop) (m : M kernel A) :
  keeps base rest [h] ok post m → takes base rest [h] ok post (owned h m).
Proof.
  intros Hm k Hk. unfold owned. specialize (Hm k Hk). destruct (m k) as [k' [a|e]]; [done|].
  split; [apply Hm|]. apply drop_holds, Hm.
Qed.
Lemma takes_bind {A} base rest h ok1 ok2 (post : A → list T → Prop) (m1 : M kernel ()) (m2 : M kernel A) :
  takes base rest [h] ok1 (λ _ l, l = [h]) m1 → takes base rest [h] ok2 post m2 →
  takes base rest [h] (ok1 && ok2) post (m1;; m2).
Proof.
  intros H1 H2 k Hk. munfold_goal. specialize (H1 k Hk). destruct (m1 k) as [k' [[]|e]].
  - destruct H1 as (-> & l' & -> & Hk'). by apply H2.
  - by destruct H1 as [-> ?].
Qed.
(** A handle made and passed on. *)
Lemma keeps_new_takes {A} base rest b ok (post : A → list T → Prop) (f : T → M kernel A) :
  (∀ h, valid h = true → takes base rest [h] ok post (f h)) → keeps base rest [] false post (f failed) →
  keeps base rest [] (b && ok) post (h ← sys_new b; f h).
Proof.
  intros H1 H2 k Hk. munfold_goal. destruct b.
  - destruct (sys_new_holds _ _ _ Hk) as (h & -> & Hv & Hh). by specialize (H1 h Hv _ Hh).
  - simpl. by apply H2.
Qed.
Lemma keeps_owned_invalid {A} base rest l h ok (post : A → list T → Prop) (m : M kernel A) :
  valid h = false → keeps base rest l ok post m → keeps base rest l ok post (owned h m).
Proof.
  intros Hv Hm k Hk. unfold owned. specialize (Hm k Hk). destruct (m k) as [k' [a|e]]; [done|]. by rewrite drop_failed.
Qed.
Lemma keeps_fail {A} base rest l (post : A → list T → Prop) (m1 : M kernel ()) (m2 : M kernel A) :
  keeps base rest l false (λ _ _, False) m1 → keeps base rest l false post (m1;; m2).
Proof. intros H1 k Hk. munfold_goal. specialize (H1 k Hk). destruct (m1 k) as [k' [[]|e]]; naive_solver. Qed.
End owners.
Arguments kernel T {_ _}.

(** The thread of an object: it has not come to its first call yet, it works with handles of
    its own, or its function has returned. *)
Inductive worker (T : Type) := NotStarted | Working (l : list T) | Ended.
Arguments NotStarted {T}.
Arguments Working {T}.
Arguments Ended {T}.
(** An object: the handles of its members in the order of their declaration, its
    flag, whether its thread can be joined, and the thread. *)
Record trigger (T : Type) := Trigger { members : list T; _running : bool; joinable : bool; thread : worker T }.
Arguments Trigger {T}.
Arguments members {T}.
Arguments _running {T}.
Arguments joinable {T}.
Arguments thread {T}.
Definition worker_handles {T} (t : trigger T) : list T := match thread t with Working l => l | _ => [] end.
Definition holds_members {T} (t : trigger T) (l : list T) : Prop :=
  members t ≡ₚ l ∧ _running t = true ∧ joinable t = true ∧ thread t = NotStarted.

Lemma holds_members_perm {T} (l l' : list T) : l ≡ₚ l' → holds_members (Trigger l true true NotStarted) l'.
Proof. done. Qed.

(** Handles that are closed one after the other. *)
Definition drop_all {T} `{HandleKernel T} (l : list T) (k : kernel T) : kernel T := foldl (flip drop) k l.
Lemma drop_all_holds {T} `{HandleKernel T} base l rest k : holds base (l ++ rest) k → holds base rest (drop_all l k).
Proof.
  revert k. induction l as [|h l IH]; intros k Hk; simpl; [done|]. apply IH. by apply drop_holds.
Qed.
(** The end of [stop]: [join] returns when the thread has, which then has closed what it
    had opened. *)
Definition join {T} `{HandleKernel T} (t : trigger T) (k : kernel T) : kernel T * (trigger T * res ()) :=
  (drop_all (worker_handles t) k, (Trigger (members t) false false Ended, Ok ())).

(** The calls of a constructor one after the other. *)
Ltac keep :=
  repeat first
    [ apply keeps_ret
    | apply keeps_new_true; intros ? ?
    | eapply keeps_new; [intros ? ?; apply keeps_valid; [assumption|]|apply keeps_not_valid, failed_invalid]
    | apply keeps_throw_if; intros _
    | apply keeps_lift ].
End Owners.

(** ** Linux and macOS *)

Module Posix.
Import Handle Owners.

Section posix.
Context `{HK : !HandleKernel Z}.

(** The answers of the system to the calls of the constructor, in order; the first
    read may also end in an exception of the callback. *)
Record linux_answers := LinuxAnswers {
  inotify_init1_ok : bool; add_watch_ok : bool; resize_ok : bool; first_read : res bool; pipe2_ok : bool;
  thread_ok : bool }.

(** [file_trigger_linux::file_trigger_linux]. *)
Definition file_trigger_linux (a : linux_answers) (_hndl : Z) : M (kernel Z) (trigger Z) :=
  owned _hndl (
    _inotify_fd ← sys_new (inotify_init1_ok a);
    owned _inotify_fd (
      mthrow_if (negb (valid _inotify_fd)) (NstlException "inotify_init1 failed");;
      mthrow_if (negb (add_watch_ok a)) (NstlException "inotify_add_watch failed");;
      mthrow_if (negb (resize_ok a)) BadAlloc;;
      mlift (first_read a);;
      mthrow_if (negb (pipe2_ok a)) (NstlException "Exit pipe cannot be created");;
      _exit_read ← sys_new true;
      owned _exit_read (
        _exit_write ← sys_new true;
        owned _exit_write (
          mthrow_if (negb (thread_ok a)) (RuntimeError "std::thread");;
          mret (Trigger [_hndl; _inotify_fd; _exit_read; _exit_write] true true NotStarted))))).

(** [set_non_blocking] of file_trigger_apple.cpp; [O_NONBLOCK] is 4 on macOS. *)
Definition apple_O_NONBLOCK : Z := 4.
Definition apple_set_non_blocking (flags : Z) (setfl : Z → Z) : res bool :=
  throw_if (flags <? 0)%Z (NstlException "fcntl F_GETFL failed: ");;
  if negb (Z.land flags apple_O_NONBLOCK =? 0)%Z then Ok false
  else throw_if (setfl (Z.lor flags apple_O_NONBLOCK) <? 0)%Z
         (NstlException "fcntl F_SETFL failed with O_NONBLOCK: ");; Ok true.

(** [file_trigger_apple::file_trigger_apple]; the flags and the answers of the calls
    of [fcntl] on the two ends of the pipe. *)
Record apple_answers := AppleAnswers {
  kqueue_ok : bool; kq_cloexec : Z; apple_resize_ok : bool; apple_first_read : res bool; pipe_ok : bool;
  read_flags : Z; write_flags : Z; setfl : Z → Z → Z; read_cloexec : Z; write_cloexec : Z; apple_thread_ok : bool }.

Definition file_trigger_apple (a : apple_answers) (_hndl : Z) : M (kernel Z) (trigger Z) :=
  owned _hndl (
    _kq ← sys_new (kqueue_ok a);
    owned _kq (
      mthrow_if (negb (valid _kq)) (NstlException "kqueue failed");;
      mlift (Apple.set_close_on_exec (kq_cloexec a));;
      mthrow_if (negb (apple_resize_ok a)) BadAlloc;;
      mlift (apple_first_read a);;
      mthrow_if (negb (pipe_ok a)) (NstlException "Exit pipe cannot be created");;
      _exit_read ← sys_new true;
      owned _exit_read (
        _exit_write ← sys_new true;
        owned _exit_write (
          mlift (apple_set_non_blocking (read_flags a) (setfl a (read_flags a)));;
          mlift (apple_set_non_blocking (write_flags a) (setfl a (write_flags a)));;
          mlift (Apple.set_close_on_exec (read_cloexec a));;
          mlift (Apple.set_close_on_exec (write_cloexec a));;
          mthrow_if (negb (apple_thread_ok a)) (RuntimeError "std::thread");;
          mret (Trigger [_hndl; _kq; _exit_read; _exit_write] true true NotStarted))))).

(** The factories, for either class: [construct] is its constructor,
    [set_non_blocking] the function of its file, and [made] whether the allocation of
    the object succeeds. *)
Section factory.
Context (set_non_blocking : Z → (Z → Z) → res bool) (construct : Z → M (kernel Z) (trigger Z)) (made : bool).

Definition open_native (ok : bool) : M (kernel Z) Z := sys_new ok.
Definition make_shared (hndl : Z) (checks : res ()) : M (kernel Z) (trigger Z) :=
  owned hndl (mlift checks;; mthrow_if (negb made) BadAlloc;; mret ());; construct hndl.
Definition factory_path (open_ok cb : bool) (buffer_size : nat) : M (kernel Z) (trigger Z) :=
  hndl ← open_native open_ok;
  make_shared hndl (FileTrigger.factory_checks hndl " cannot be opened for read" buffer_size cb).
Definition factory_handle (flags : Z) (setfl : Z → Z) (handle : Z) (cb : bool) (buffer_size : nat) :
    M (kernel Z) (trigger Z) :=
  make_shared handle
    (FileTrigger.factory_checks handle "Invalid handle passed through" buffer_size cb;;
     set_non_blocking flags setfl;; Ok ()).
End factory.

(** [stop] of either class: the flag, then the byte in the pipe, whose failure is
    reported, then the join. *)
Definition stop (write_ok : bool) (t : trigger Z) (k : kernel Z) : kernel Z * (trigger Z * res ()) :=
  if _running t then
    if write_ok then join t k
    else (k, (Trigger (members t) false (joinable t) (thread t), Throw (NstlException "Failed to write file")))
  else (k, (t, Ok ())).

(** The start of [_worker_impl] on Linux, up to its loop: the epoll descriptor and what it
    watches.  A descriptor that could not be made is found by the first [epoll_ctl]. *)
Record linux_work := LinuxWork { epoll_create1_ok : bool; add_target_ok : bool; add_exit_ok : bool }.
Definition worker_linux (a : linux_work) : M (kernel Z) (list Z) :=
  epfd ← sys_new (epoll_create1_ok a);
  owned epfd (
    mthrow_if (negb (valid epfd)) (NstlException "epoll_ctl failed (target)");;
    mthrow_if (negb (add_target_ok a)) (NstlException "epoll_ctl failed (target)");;
    mthrow_if (negb (add_exit_ok a)) (NstlException "epoll_ctl failed (exit)");;
    mret [epfd]).
(** On macOS: the watches are registered with the queue of the object. *)
Definition worker_apple (register_ok : bool) : M (kernel Z) (list Z) :=
  mthrow_if (negb register_ok) (NstlException "kevent failed to register watches");; mret [].

(** ** The constructors and factories own their handles *)

Definition linux_ok (a : linux_answers) : bool :=
  inotify_init1_ok a && add_watch_ok a && resize_ok a && res_is_ok (first_read a) && pipe2_ok a && thread_ok a.
Lemma linux_takes base rest a h : takes base rest [h] (linux_ok a) holds_members (file_trigger_linux a h).
Proof.
  unfold file_trigger_linux. apply takes_owned. eapply keeps_ok; [|keep].
  - unfold linux_ok. rewrite !negb_involutive, andb_true_r, !andb_assoc. reflexivity.
  - apply holds_members_perm. solve_Permutation.
Qed.

Definition apple_ok (a : apple_answers) : bool :=
  kqueue_ok a && negb (kq_cloexec a <? 0)%Z && apple_resize_ok a &&
  res_is_ok (apple_first_read a) && pipe_ok a &&
  res_is_ok (apple_set_non_blocking (read_flags a) (setfl a (read_flags a))) &&
  res_is_ok (apple_set_non_blocking (write_flags a) (setfl a (write_flags a))) &&
  negb (read_cloexec a <? 0)%Z && negb (write_cloexec a <? 0)%Z &&
  apple_thread_ok a.
Lemma apple_takes base rest a h : takes base rest [h] (apple_ok a) holds_members (file_trigger_apple a h).
Proof.
  unfold file_trigger_apple. apply takes_owned. eapply keeps_ok; [|keep].
  - unfold apple_ok. rewrite !negb_involutive, andb_true_r, !andb_assoc. reflexivity.
  - apply holds_members_perm. solve_Permutation.
Qed.

Lemma worker_linux_keeps base rest a :
  keeps base rest [] (epoll_create1_ok a && add_target_ok a && add_exit_ok a) (λ l l', l = l') (worker_linux a).
Proof.
  unfold worker_linux. eapply keeps_ok; [|keep; done]. by rewrite !negb_involutive, andb_true_r, andb_assoc.
Qed.
Lemma worker_apple_keeps base rest b : keeps base rest [] b (λ l l', l = l') (worker_apple b).
Proof. unfold worker_apple. eapply keeps_ok; [|keep; done]. by rewrite negb_involutive, andb_true_r. Qed.

Section factories.
Context (set_non_blocking : Z → (Z → Z) → res bool) (construct : Z → M (kernel Z) (trigger Z)) (made ok : bool).
Context (Hc : ∀ base rest h, takes base rest [h] ok holds_members (construct h)).

Lemma make_shared_takes base rest h checks :
  takes base rest [h] (res_is_ok checks && made && ok) holds_members (make_shared construct made h checks).
Proof using Hc.
  unfold make_shared. apply takes_bind; [|done]. apply takes_owned. eapply keeps_ok; [|keep; done].
  by rewrite negb_involutive, andb_true_r.
Qed.

(** A file that is opened is owned by the trigger or closed again. *)
Lemma factory_path_keeps base rest open_ok cb size :
  keeps base rest [] (open_ok && (cb && negb (size =? 0)%nat && made && ok)) holds_members
    (factory_path construct made open_ok cb size).
Proof using Hc.
  unfold factory_path, open_native. apply keeps_new_takes.
  - intros h Hv. pose proof (make_shared_takes base rest h
      (FileTrigger.factory_checks h " cannot be opened for read" size cb)) as Ht.
    replace (cb && negb (size =? 0)%nat) with
      (res_is_ok (FileTrigger.factory_checks h " cannot be opened for read" size cb)); [done|].
    unfold FileTrigger.factory_checks. munfold_goal. change (Handle.file_int_valid h) with (valid h). rewrite Hv.
    by destruct (size =? 0)%nat, cb.
  - unfold make_shared. apply keeps_fail. apply keeps_owned_invalid; [apply failed_invalid|].
    intros k Hk. munfold_goal. unfold FileTrigger.factory_checks. munfold_goal.
    change (Handle.file_int_valid failed) with (valid failed). by rewrite failed_invalid.
Qed.

(** A handle that is passed in is owned by the trigger or closed, when it is one. *)
Lemma factory_handle_takes base rest flags setfl h cb size :
  valid h = true →
  takes base rest [h]
    (cb && negb (size =? 0)%nat && res_is_ok (set_non_blocking flags setfl) && made && ok)
    holds_members (factory_handle set_non_blocking construct made flags setfl h cb size).
Proof using Hc.
  intros Hv. unfold factory_handle.
  replace (cb && negb (size =? 0)%nat && res_is_ok (set_non_blocking flags setfl)) with
    (res_is_ok (FileTrigger.factory_checks h "Invalid handle passed through" size cb;; set_non_blocking flags setfl;; Ok ()));
    [by apply make_shared_takes|].
  unfold FileTrigger.factory_checks. munfold_goal.
  change (Handle.file_int_valid h) with (valid h). rewrite Hv.
  destruct (size =? 0)%nat, cb; simpl; try done. by destruct (set_non_blocking flags setfl).
Qed.
End factories.
End posix.
End Posix.

(** ** Windows *)

Module Windows.
Import Handle Owners.

Section windows.
Context `{HK : !HandleKernel win_handle}.

(** [file_trigger_win32::file_trigger_win32]. *)
Record win_answers := WinAnswers { create_event_ok : bool; win_thread_ok : bool }.
Definition file_trigger_win32 (a : win_answers) (_file : win_handle) : M (kernel win_handle) (trigger win_handle) :=
  owned _file (
    _exit_event ← sys_new (create_event_ok a);
    owned _exit_event (
      mthrow_if (negb (valid _exit_event)) (NstlException "exit event cannot be created");;
      mthrow_if (negb (win_thread_ok a)) (RuntimeError "std::thread");;
      mret (Trigger [_file; _exit_event] true true NotStarted))).

(** The factories; [file_size] is the answer of [GetFileSizeEx]. *)
Definition open_native (ok : bool) : M (kernel win_handle) win_handle := sys_new ok.
Definition make_shared (a : win_answers) (made : bool) (handler : win_handle) (checks : res nat) :
    M (kernel win_handle) (trigger win_handle) :=
  owned handler (mlift checks;; mthrow_if (negb made) BadAlloc;; mret ());; file_trigger_win32 a handler.
Definition factory_path (a : win_answers) (made open_ok cb : bool) (buffer_size : Z) (file_size : option nat) :
    M (kernel win_handle) (trigger win_handle) :=
  handler ← open_native open_ok;
  make_shared a made handler (Win32.factory handler " cannot be opened to read" cb buffer_size file_size).
Definition factory_handle (a : win_answers) (made cb : bool) (buffer_size : Z) (file_size : option nat)
    (hndl : win_handle) : M (kernel win_handle) (trigger win_handle) :=
  make_shared a made hndl (Win32.factory hndl "Invalid handler set" cb buffer_size file_size).

(** [stop]: the event, then the join. *)
Definition stop (t : trigger win_handle) (k : kernel win_handle) : kernel win_handle * (trigger win_handle * res ()) :=
  if _running t then join t k else (k, (t, Ok ())).

(** The start of [_worker_impl]: the event of the file and the buffer. *)
Record win_work := WinWork { file_event_ok : bool; buffer_ok : bool }.
Definition worker_win32 (a : win_work) : M (kernel win_handle) (list win_handle) :=
  file_event ← sys_new (file_event_ok a);
  owned file_event (
    mthrow_if (negb (valid file_event)) (NstlException "File event cannot be created");;
    mthrow_if (negb (buffer_ok a)) BadAlloc;;
    mret [file_event]).

Lemma worker_win32_keeps base rest a :
  keeps base rest [] (file_event_ok a && buffer_ok a) (λ l l', l = l') (worker_win32 a).
Proof. unfold worker_win32. eapply keeps_ok; [|keep; done]. by rewrite negb_involutive, andb_true_r. Qed.

Lemma win32_takes base rest a h :
  takes base rest [h] (create_event_ok a && win_thread_ok a) holds_members (file_trigger_win32 a h).
Proof.
  unfold file_trigger_win32. apply takes_owned. eapply keeps_ok; [|keep].
  - by rewrite negb_involutive, andb_true_r.
  - apply holds_members_perm. solve_Permutation.
Qed.

Lemma win_make_shared_takes base rest a made h checks :
  takes base rest [h] (res_is_ok checks && made && (create_event_ok a && win_thread_ok a)) holds_members
    (make_shared a made h checks).
Proof.
  unfold make_shared. apply takes_bind; [|apply win32_takes]. apply takes_owned. eapply keeps_ok; [|keep; done].
  by rewrite negb_involutive, andb_true_r.
Qed.

(** The checks of a factory on a handle it recognises. *)
Definition checks_ok (cb : bool) (buffer_size : Z) (file_size : option nat) : bool :=
  cb && negb (buffer_size =? 0)%Z && bool_decide (is_Some file_size).
Lemma factory_checks_ok h refusal cb size file_size :
  valid h = true → res_is_ok (Win32.factory h refusal cb size file_size) = checks_ok cb size file_size.
Proof.
  intros Hv. unfold Win32.factory, checks_ok. munfold_goal. change (windows_valid h) with (valid h). rewrite Hv.
  destruct cb, (size =? 0)%Z, file_size; simpl; try done; by rewrite bool_decide_eq_false_2 by (by intros []).
Qed.

Lemma win_factory_path_keeps base rest a made open_ok cb size file_size :
  keeps base rest [] (open_ok && (checks_ok cb size file_size && made && (create_event_ok a && win_thread_ok a)))
    holds_members (factory_path a made open_ok cb size file_size).
Proof.
  unfold factory_path, open_native. apply keeps_new_takes.
  - intros h Hv. rewrite <-(factory_checks_ok h " cannot be opened to read") by done. apply win_make_shared_takes.
  - unfold make_shared. apply keeps_fail. apply keeps_owned_invalid; [apply failed_invalid|].
    intros k Hk. unfold Win32.factory. munfold_goal. change (windows_valid failed) with (valid failed).
    by rewrite failed_invalid.
Qed.

Lemma win_factory_handle_takes base rest a made cb size file_size h :
  valid h = true →
  takes base rest [h] (checks_ok cb size file_size && made && (create_event_ok a && win_thread_ok a)) holds_members
    (factory_handle a made cb size file_size h).
Proof.
  intros Hv. unfold factory_handle. rewrite <-(factory_checks_ok h "Invalid handler set") by done. apply win_make_shared_takes.
Qed.
End windows.
End Windows.

(** ** Programs over triggers *)

Module Programs.
Import Handle Owners.

(** The operations of a system: the two factories, [stop] and the start of the worker, with
    what the system answers to them. *)
Class TriggerSystem (T : Type) `{HK : HandleKernel T} := {
  path_call : Type;
  handle_call : Type;
  work_call : Type;
  by_path : path_call → M (kernel T) (trigger T);
  by_handle : handle_call → T → M (kernel T) (trigger T);
  stop : bool → trigger T → kernel T → kernel T * (trigger T * res ());
  work : work_call → M (kernel T) (list T);
}.

(** What the programs below need of them: a call succeeds when [path_ok] or [handle_ok] says
    so and leaves nothing open when it does not, and [stop] joins the thread or leaves it. *)
Class TriggerLaws {T : Type} `{HK : HandleKernel T} (TS : TriggerSystem T) (path_ok : path_call → bool)
    (handle_ok : handle_call → bool) := {
  by_path_keeps : ∀ base rest c, keeps base rest [] (path_ok c) holds_members (by_path c);
  by_handle_takes : ∀ base rest c h,
    valid h = true → takes base rest [h] (handle_ok c) holds_members (by_handle c h);
  stop_cases : ∀ b t k, stop b t k = join t k ∨
    (stop b t k).1 = k ∧ members (stop b t k).2.1 = members t ∧ thread (stop b t k).2.1 = thread t ∧
    joinable (stop b t k).2.1 = joinable t;
  work_keeps : ∀ base rest c, ∃ ok, keeps base rest [] ok (λ l l', l = l') (work c);
}.

(** The calls of the two factories of Linux and of macOS. *)
Record posix_call (A : Type) := PosixCall {
  answers : A; made : bool; open_ok : bool; fcntl_flags : Z; fcntl_set : Z → Z; cb : bool; buffer_size : nat }.
Arguments PosixCall {A}.
Arguments answers {A}.
Arguments made {A}.
Arguments open_ok {A}.
Arguments fcntl_flags {A}.
Arguments fcntl_set {A}.
Arguments cb {A}.
Arguments buffer_size {A}.

Section posix.
Context `{HK : !HandleKernel Z} {A : Type} (set_non_blocking : Z → (Z → Z) → res bool)
  (construct : A → Z → M (kernel Z) (trigger Z)) (ok : A → bool).
Context (Hc : ∀ a base rest h, takes base rest [h] (ok a) holds_members (construct a h)).

Definition posix_path_ok (c : posix_call A) : bool :=
  open_ok c && (cb c && negb (buffer_size c =? 0)%nat && made c && ok (answers c)).
Definition posix_handle_ok (c : posix_call A) : bool :=
  cb c && negb (buffer_size c =? 0)%nat && res_is_ok (set_non_blocking (fcntl_flags c) (fcntl_set c)) &&
  made c && ok (answers c).

Context {W : Type} (worker : W → M (kernel Z) (list Z)).
Context (Hw : ∀ a, ∃ ok, ∀ base rest, keeps base rest [] ok (λ l l', l = l') (worker a)).

Definition posix_system : TriggerSystem Z := {|
  by_path c := Posix.factory_path (construct (answers c)) (made c) (open_ok c) (cb c) (buffer_size c);
  by_handle c h :=
    Posix.factory_handle set_non_blocking (construct (answers c)) (made c) (fcntl_flags c) (fcntl_set c) h (cb c) (buffer_size c);
  stop := Posix.stop;
  work := worker;
|}.
Lemma posix_laws : TriggerLaws posix_system posix_path_ok posix_handle_ok.
Proof using Hc Hw.
  constructor.
  - intros base rest c. apply Posix.factory_path_keeps. apply Hc.
  - intros base rest c h Hv. by apply Posix.factory_handle_takes.
  - intros b t k. simpl. unfold Posix.stop. destruct (_running t), b; auto.
  - intros base rest c. destruct (Hw c) as [b H]. by exists b.
Qed.
End posix.

Definition linux_system `{HK : !HandleKernel Z} : TriggerSystem Z :=
  posix_system FileTrigger.set_non_blocking Posix.file_trigger_linux Posix.worker_linux.
Definition apple_system `{HK : !HandleKernel Z} : TriggerSystem Z :=
  posix_system Posix.apple_set_non_blocking Posix.file_trigger_apple Posix.worker_apple.

Lemma linux_laws `{HK : !HandleKernel Z} :
  TriggerLaws linux_system (posix_path_ok Posix.linux_ok) (posix_handle_ok FileTrigger.set_non_blocking Posix.linux_ok).
Proof. apply posix_laws; [intros; apply Posix.linux_takes|]. intros a. eexists. intros base rest. apply Posix.worker_linux_keeps. Qed.
Lemma apple_laws `{HK : !HandleKernel Z} :
  TriggerLaws apple_system (posix_path_ok Posix.apple_ok) (posix_handle_ok Posix.apple_set_non_blocking Posix.apple_ok).
Proof. apply posix_laws; [intros; apply Posix.apple_takes|]. intros a. eexists. intros base rest. apply Posix.worker_apple_keeps. Qed.

Record win_call := WinCall {
  w_answers : Windows.win_answers; w_made : bool; w_open_ok : bool; w_cb : bool; w_buffer_size : Z;
  file_size : option nat }.
Definition win_handle_ok (c : win_call) : bool :=
  Windows.checks_ok (w_cb c) (w_buffer_size c) (file_size c) && w_made c &&
  (Windows.create_event_ok (w_answers c) && Windows.win_thread_ok (w_answers c)).
Definition win_path_ok (c : win_call) : bool := w_open_ok c && win_handle_ok c.
Definition windows_system `{HK : !HandleKernel win_handle} : TriggerSystem win_handle := {|
  by_path c := Windows.factory_path (w_answers c) (w_made c) (w_open_ok c) (w_cb c) (w_buffer_size c) (file_size c);
  by_handle c := Windows.factory_handle (w_answers c) (w_made c) (w_cb c) (w_buffer_size c) (file_size c);
  stop _ := Windows.stop;
  work := Windows.worker_win32;
|}.
Lemma windows_laws `{HK : !HandleKernel win_handle} : TriggerLaws windows_system win_path_ok win_handle_ok.
Proof.
  constructor.
  - intros base rest c. apply Windows.win_factory_path_keeps.
  - intros base rest c h. apply Windows.win_factory_handle_takes.
  - intros b t k. simpl. unfold Windows.stop. destruct (_running t); auto.
  - intros base rest c. eexists. apply Windows.worker_win32_keeps.
Qed.

Section programs.
Context {T : Type} `{HK : HandleKernel T} (TS : TriggerSystem T).

(** The system, the triggers by name, the handles the program holds itself, and
    whether [std::terminate] was called. *)
Record state := State {
  kern : kernel T; trigs : gmap nat (trigger T); caller : list T; terminated : bool }.
Definition start (base : gset T) : state := State (Kernel base []) ∅ [] false.

(** [~file_trigger]: an exception of [stop], or a thread that nobody joined, ends the
    program; the members go in the reverse order of their declaration. *)
Definition destroy (write_ok : bool) (t : trigger T) (k : kernel T) : option (kernel T) :=
  match stop write_ok t k with
  | (_, (_, Throw _)) => None
  | (k', (t', Ok _)) => if joinable t' then None else Some (drop_all (reverse (members t')) k')
  end.

(** What the program does, and what the threads of its triggers do meanwhile. *)
Inductive op :=
| Open (ok : bool)
| ByPath (i : nat) (c : path_call)
| ByHandle (i : nat) (c : handle_call) (h : T)
| Stop (i : nat) (write_ok : bool)
| Destroy (i : nat) (write_ok : bool)
| WorkerStarts (i : nat) (c : work_call)
| WorkerEnds (i : nat).

Definition made_trigger (i : nat) (s : state) (l : list T) (r : kernel T * res (trigger T)) : state :=
  match r with
  | (k, Ok t) => State k (<[i := t]> (trigs s)) l false
  | (k, Throw _) => State k (trigs s) l false
  end.
Definition set_worker (w : worker T) (t : trigger T) : trigger T := Trigger (members t) (_running t) (joinable t) w.
(** A thread comes to its loop, or leaves it by the exit event or an exception. *)
Definition worker_starts (i : nat) (c : work_call) (t : trigger T) (s : state) : state :=
  match work c (kern s) with
  | (k, Ok l) => State k (<[i := set_worker (Working l) t]> (trigs s)) (caller s) false
  | (k, Throw _) => State k (<[i := set_worker Ended t]> (trigs s)) (caller s) false
  end.
Definition worker_ends (i : nat) (l : list T) (t : trigger T) (s : state) : state :=
  State (drop_all l (kern s)) (<[i := set_worker Ended t]> (trigs s)) (caller s) false.
(** A name is used for one trigger at a time, and a handle is passed on by the one
    who holds it. *)
Definition exec (o : op) (s : state) : state :=
  if terminated s then s
  else
    match o with
    | Open ok =>
      match sys_new ok (kern s) with
      | (k, Ok h) => State k (trigs s) (if valid h then h :: caller s else caller s) false
      | (k, Throw _) => State k (trigs s) (caller s) false
      end
    | ByPath i c => if decide (is_Some (trigs s !! i)) then s else made_trigger i s (caller s) (by_path c (kern s))
    | ByHandle i c h =>
      if decide (is_Some (trigs s !! i) ∨ h ∉ caller s) then s
      else made_trigger i s (filter (λ x, x ≠ h) (caller s)) (by_handle c h (kern s))
    | Stop i b =>
      match trigs s !! i with
      | None => s
      | Some t => let '(k, (t', _)) := stop b t (kern s) in State k (<[i := t']> (trigs s)) (caller s) false
      end
    | Destroy i b =>
      match trigs s !! i with
      | None => s
      | Some t =>
        match destroy b t (kern s) with
        | Some k => State k (delete i (trigs s)) (caller s) false
        | None => State (kern s) (trigs s) (caller s) true
        end
      end
    | WorkerStarts i c =>
      match trigs s !! i with
      | Some t => match joinable t, thread t with true, NotStarted => worker_starts i c t s | _, _ => s end
      | None => s
      end
    | WorkerEnds i =>
      match trigs s !! i with
      | Some t => match joinable t, thread t with true, Working l => worker_ends i l t s | _, _ => s end
      | None => s
      end
    end.
Definition run (ops : list op) (s : state) : state := foldl (λ s o, exec o s) s ops.

(** The handles of the triggers and their threads; a thread that was joined has none. *)
Definition handles (t : trigger T) : list T := members t ++ worker_handles t.
Definition owned_by (m : gmap nat (trigger T)) : list T := (map_to_list m).*2 ≫= handles.
Definition joined_ok (t : trigger T) : Prop := joinable t = false → worker_handles t = [].
Definition state_ok (base : gset T) (s : state) : Prop :=
  holds base (owned_by (trigs s) ++ caller s) (kern s) ∧ map_Forall (λ _, joined_ok) (trigs s).

Lemma owned_by_insert m i t : m !! i = None → owned_by (<[i := t]> m) ≡ₚ handles t ++ owned_by m.
Proof. intros Hi. unfold owned_by. by rewrite map_to_list_insert. Qed.
Lemma owned_by_delete m i t : m !! i = Some t → owned_by m ≡ₚ handles t ++ owned_by (delete i m).
Proof.
  intros Hi. rewrite <-(owned_by_insert _ i) by apply lookup_delete_eq. by rewrite insert_delete_id.
Qed.
(** An object that changed keeps the others as they are. *)
Lemma replace_ok base i t t' k s :
  trigs s !! i = Some t → state_ok base s → joined_ok t' →
  (∀ rest, holds base (handles t ++ rest) (kern s) → holds base (handles t' ++ rest) k) →
  state_ok base (State k (<[i := t']> (trigs s)) (caller s) false).
Proof.
  intros Hi [Hh Hj] Ht' Hk. split; simpl; [|by apply map_Forall_insert_2].
  rewrite (owned_by_delete _ i t) in Hh by done. rewrite <-insert_delete_eq, owned_by_insert by apply lookup_delete_eq.
  rewrite <-(assoc_L (++)) in Hh |- *. by apply Hk.
Qed.

Lemma made_trigger_ok base s i l r ok :
  map_Forall (λ _, joined_ok) (trigs s) → trigs s !! i = None →
  match r with
  | (k, Ok t) => ok = true ∧ ∃ l', holds_members t l' ∧ holds base (l' ++ owned_by (trigs s) ++ l) k
  | (k, Throw _) => ok = false ∧ holds base (owned_by (trigs s) ++ l) k
  end →
  state_ok base (made_trigger i s l r) ∧ (is_Some (trigs (made_trigger i s l r) !! i) ↔ ok = true).
Proof.
  intros Hj Hi. destruct r as [k [t|e]]; simpl.
  - intros (-> & l' & (Hl' & _ & Hjt & Hw) & Hk). rewrite lookup_insert_eq. split; [|by split; [|eauto]].
    split; simpl; [|apply map_Forall_insert_2; [|done]; intros ?; congruence].
    rewrite owned_by_insert by done. unfold handles, worker_handles. rewrite Hw, app_nil_r, Hl', <-(assoc_L (++)). done.
  - intros [-> Hk]. split; [done|]. rewrite Hi. split; [by intros [? ?]|done].
Qed.

Lemma filter_once (l : list T) h : NoDup l → h ∈ l → l ≡ₚ h :: filter (λ x, x ≠ h) l.
Proof.
  intros Hd (a & b & ->)%list_elem_of_split. apply list.NoDup_app in Hd as (_ & Ha & Hb).
  apply list.NoDup_cons in Hb as [Hb _].
  rewrite list.filter_app, filter_cons_False by naive_solver.
  assert (∀ l' : list T, h ∉ l' → filter (λ x, x ≠ h) l' = l') as Hid.
  { clear. induction l' as [|x l' IH]; intros Hn; [done|]. rewrite filter_cons_True by set_solver. f_equal. set_solver. }
  rewrite !Hid; [by rewrite Permutation_middle|done|]. intros Hx. apply (Ha h Hx). set_solver.
Qed.

Lemma caller_held base s h : state_ok base s → h ∈ caller s → valid h = true ∧ NoDup (caller s).
Proof.
  intros [(_ & Hd & Hf & _) _] Hh. rewrite list.Forall_forall in Hf. split; [apply Hf; set_solver|].
  by apply list.NoDup_app in Hd as (_ & _ & ?).
Qed.

Context (path_ok : path_call → bool) (handle_ok : handle_call → bool) (laws : TriggerLaws TS path_ok handle_ok).

Lemma by_path_ok base s i c :
  state_ok base s → trigs s !! i = None →
  let s' := made_trigger i s (caller s) (by_path c (kern s)) in
  state_ok base s' ∧ (is_Some (trigs s' !! i) ↔ path_ok c = true).
Proof using laws. intros [Hs Hj] Hi. apply made_trigger_ok; [done..|]. exact (by_path_keeps base _ c (kern s) Hs). Qed.

Lemma by_handle_ok base s i c h :
  state_ok base s → trigs s !! i = None → h ∈ caller s →
  let s' := made_trigger i s (filter (λ x, x ≠ h) (caller s)) (by_handle c h (kern s)) in
  state_ok base s' ∧ (is_Some (trigs s' !! i) ↔ handle_ok c = true).
Proof using laws.
  intros Hs Hi Hh. destruct (caller_held _ _ _ Hs Hh) as [Hv Hd]. destruct Hs as [Hs Hj]. apply made_trigger_ok; [done..|].
  apply (by_handle_takes base _ c h Hv (kern s)).
  rewrite (filter_once (caller s) h Hd Hh), <-Permutation_middle in Hs. exact Hs.
Qed.

(** The thread is joined and has closed what it had, or nothing changes hands. *)
Lemma join_holds base t rest k : holds base (handles t ++ rest) k → holds base (members t ++ rest) (drop_all (worker_handles t) k).
Proof. intros Hk. apply drop_all_holds. revert Hk. unfold handles. by rewrite <-(assoc_L (++)), Permutation_app_swap_app. Qed.

Lemma stop_ok base i b t s :
  trigs s !! i = Some t → state_ok base s → terminated s = false → state_ok base (exec (Stop i b) s).
Proof using laws.
  intros Hi Hs Ht. unfold exec. rewrite Ht, Hi. pose proof (stop_cases b t (kern s)) as Hc.
  destruct (stop b t (kern s)) as [k [t' r]]. simpl in Hc. destruct Hc as [[= -> -> _]|(-> & Hm & Hw & Hj)].
  - apply (replace_ok base i t); [done|done|done|]. intros rest. unfold handles at 2, worker_handles at 2. simpl.
    rewrite app_nil_r. apply join_holds.
  - apply (replace_ok base i t); [done|done|..].
    + intros Hj'. unfold worker_handles. rewrite Hw. destruct Hs as [_ Hjo]. apply (Hjo i t Hi). congruence.
    + intros rest. unfold handles, worker_handles. by rewrite Hm, Hw.
Qed.

Lemma trigger_destroy_ok base i b t s :
  trigs s !! i = Some t → state_ok base s → terminated s = false → state_ok base (exec (Destroy i b) s).
Proof using laws.
  intros Hi Hs Ht. unfold exec, destroy. rewrite Ht, Hi. pose proof (stop_cases b t (kern s)) as Hc.
  destruct (stop b t (kern s)) as [k [t' [[]|e]]]; [|done]. simpl in Hc. destruct (joinable t') eqn:Hj'; [done|].
  destruct Hs as [Hh Hjo]. split; simpl; [|by apply map_Forall_delete].
  rewrite (owned_by_delete _ i t) in Hh by done. rewrite <-(assoc_L (++)) in Hh. apply drop_all_holds.
  rewrite reverse_Permutation. destruct Hc as [[= -> ->]|(-> & Hm & Hw & Hj)]; simpl in *; [by apply join_holds|].
  assert (worker_handles t = []) as Hn by (apply (Hjo i t Hi); congruence).
  unfold handles in Hh. rewrite Hn, app_nil_r in Hh. by rewrite Hm.
Qed.

Lemma worker_starts_ok base i c t s :
  trigs s !! i = Some t → joinable t = true → thread t = NotStarted → state_ok base s → state_ok base (worker_starts i c t s).
Proof using laws.
  intros Hi Hj Hw Hs. unfold worker_starts.
  assert (∀ rest, holds base (handles t ++ rest) (kern s) →
    match work c (kern s) with
    | (k, Ok l) => holds base (handles (set_worker (Working l) t) ++ rest) k
    | (k, Throw _) => holds base (handles (set_worker Ended t) ++ rest) k
    end) as Hk.
  { intros rest Hr. unfold handles, worker_handles in *. rewrite Hw, app_nil_r in Hr.
    destruct (work_keeps base (members t ++ rest) c) as [ok H1]. specialize (H1 (kern s) Hr).
    destruct (work c (kern s)) as [k [l|e]]; simpl; [|rewrite app_nil_r; apply H1].
    destruct H1 as (_ & l' & <- & H1). rewrite <-(assoc_L (++)). by rewrite Permutation_app_swap_app. }
  destruct (work c (kern s)) as [k [l|e]]; (apply (replace_ok base i t); [done|done| |done]); intros ?; simpl in *; congruence.
Qed.

Lemma worker_ends_ok base i l t s :
  trigs s !! i = Some t → joinable t = true → thread t = Working l → state_ok base s → state_ok base (worker_ends i l t s).
Proof using laws.
  intros Hi Hj Hw Hs. apply (replace_ok base i t); [done|done|intros ?; simpl in *; congruence|]. intros rest Hr.
  unfold handles at 1, worker_handles. simpl. rewrite app_nil_r.
  replace l with (worker_handles t) by (unfold worker_handles; by rewrite Hw). by apply join_holds.
Qed.

Lemma trigger_exec_ok base o s : state_ok base s → state_ok base (exec o s).
Proof using laws.
  intros Hs. destruct (terminated s) eqn:Ht; [unfold exec; by rewrite Ht|]. destruct o as [ok|i c|i c h|i b|i b|i c|i].
  - unfold exec. rewrite Ht. destruct Hs as [Hs Hj]. destruct ok.
    + destruct (sys_new_holds _ _ _ Hs) as (h & -> & Hv & Hh). rewrite Hv. split; [|done]; simpl.
      by rewrite <-Permutation_middle.
    + simpl. by rewrite failed_invalid.
  - unfold exec. rewrite Ht. case_decide as Hi; [done|]. apply by_path_ok; [done|]. by apply eq_None_not_Some.
  - unfold exec. rewrite Ht. case_decide as Hi; [done|]. apply by_handle_ok; [done|apply eq_None_not_Some; tauto|].
    destruct (decide (h ∈ caller s)); tauto.
  - destruct (trigs s !! i) as [t|] eqn:Hi; [by apply (stop_ok base i b t)|]. unfold exec. by rewrite Ht, Hi.
  - destruct (trigs s !! i) as [t|] eqn:Hi; [by apply (trigger_destroy_ok base i b t)|]. unfold exec. by rewrite Ht, Hi.
  - unfold exec. rewrite Ht. destruct (trigs s !! i) as [t|] eqn:Hi; [|done]. destruct (joinable t) eqn:Hj; [|done].
    destruct (thread t) eqn:Hw; try done. by apply worker_starts_ok.
  - unfold exec. rewrite Ht. destruct (trigs s !! i) as [t|] eqn:Hi; [|done]. destruct (joinable t) eqn:Hj; [|done].
    destruct (thread t) eqn:Hw; try done. by apply worker_ends_ok.
Qed.

(** Whatever a program does and the system answers: the open handles are those from before,
    those of the triggers and their threads and those the program holds, each with one
    owner, and none is closed twice; a factory makes a trigger exactly when [path_ok]
    or [handle_ok] holds of the answers, and has the handle it is passed in any case. *)
Definition handles_owned : Prop := ∀ (base : gset T) (ops : list op) (s := run ops (start base)), reserved base →
  opened (kern s) = base ∪ list_to_set (owned_by (trigs s) ++ caller s) ∧
  NoDup (owned_by (trigs s) ++ caller s) ∧ bad_closes (kern s) = [] ∧
  (∀ i c, terminated s = false → trigs s !! i = None →
     (is_Some (trigs (exec (ByPath i c) s) !! i) ↔ path_ok c = true)) ∧
  (∀ i c h, terminated s = false → trigs s !! i = None → h ∈ caller s →
     (is_Some (trigs (exec (ByHandle i c h) s) !! i) ↔ handle_ok c = true) ∧ h ∉ caller (exec (ByHandle i c h) s)).

Lemma programs_own : handles_owned.
Proof using laws.
  intros base ops s Hb. assert (state_ok base s) as Hs.
  { unfold s, run. clear s. assert (state_ok base (start base)) as H0.
    { split; [|done]. unfold holds; simpl. split_and!; [set_solver|constructor|constructor|done|done]. }
    revert H0. generalize (start base). induction ops as [|o ops IH]; intros s0 H0; simpl; [done|].
    by apply IH, trigger_exec_ok. }
  pose proof Hs as [(H1 & H2 & _ & H4 & _) _]. split_and!; [done|done|done|..].
  - intros i c Ht Hi. unfold exec. rewrite Ht, decide_False by (rewrite Hi; by intros [? ?]). by apply (by_path_ok base).
  - intros i c h Ht Hi Hh. unfold exec. rewrite Ht, decide_False by (rewrite Hi; intros [[? ?]|?]; done).
    split; [by apply (by_handle_ok base)|]. destruct (by_handle c h (kern s)) as [k [t|e]]; simpl;
      by intros [? _]%list_elem_of_filter.
Qed.
End programs.

(** C8: programs over file triggers own their handles, on each of the three systems:
    whatever the calls of the system answer, at every moment the open handles are
    those of the triggers, those of their running threads (the epoll descriptor on Linux, the
    event of the file on Windows), those the program holds itself and those from before, each
    with one owner, and none is closed twice.  A factory makes a trigger exactly when
    the file was opened, the arguments are accepted, and every call of the factory and the
    constructor succeeds; a handle that is passed to one belongs to the trigger or is closed. *)
Theorem trigger_handles_owned `{HK : !HandleKernel Z} `{HW : !HandleKernel win_handle} :
  handles_owned linux_system (posix_path_ok Posix.linux_ok) (posix_handle_ok FileTrigger.set_non_blocking Posix.linux_ok) ∧
  handles_owned apple_system (posix_path_ok Posix.apple_ok) (posix_handle_ok Posix.apple_set_non_blocking Posix.apple_ok) ∧
  handles_owned windows_system win_path_ok win_handle_ok.
Proof.
  split_and!; apply programs_own; [apply linux_laws|apply apple_laws|apply windows_laws].
Qed.

(** A [stop] that could not write is not repeated: the destructor finds the flag
    cleared and the thread still joinable. *)
Lemma failed_stop_terminates `{HK : !HandleKernel Z} (i : nat) (l : list Z) (k : kernel Z) (b : bool) (w : worker Z) :
  let s := State k {[i := Trigger l true true w]} [] false in
  terminated (exec linux_system (Destroy linux_system i b) (exec linux_system (Stop linux_system i false) s)) = true.
Proof.
  unfold exec; simpl. rewrite lookup_singleton_eq. simpl. rewrite lookup_insert_eq. done.
Qed.

(** ** A concrete system *)

(** Handles above all that are in use. *)
Definition above (X : gset Z) : Z := (1 + foldr Z.max 0 (elements X))%Z.
Lemma above_not_used (X : gset Z) : above X ∉ X ∧ (0 < above X)%Z.
Proof.
  assert (∀ l x, x ∈ l → (x ≤ foldr Z.max 0 l)%Z) as Hl.
  { induction l as [|y l IH]; intros x Hx; simpl; [by apply not_elem_of_nil in Hx|].
    apply elem_of_cons in Hx as [->|Hx]; [lia|]. specialize (IH x Hx). lia. }
  unfold above. split.
  - intros Hx. apply elem_of_elements, Hl in Hx. lia.
  - assert (∀ l, (0 ≤ foldr Z.max 0 l)%Z) as H0 by (induction l; simpl; lia). specialize (H0 (elements X)). lia.
Qed.
#[export] Instance posix_kernel : HandleKernel Z.
Proof.
  refine {| failed := (-1)%Z; pick := above; reserved := λ X, 0%Z ∈ X |}; try done.
  - intros X. apply above_not_used.
  - intros X _. apply Z.ltb_lt, above_not_used.
  - set_solver.
Defined.
Definition handle_value (h : win_handle) : Z := match h with HANDLE p => p end.
#[export] Instance windows_kernel : HandleKernel win_handle.
Proof.
  refine {| failed := HANDLE 0; pick := λ X, HANDLE (above (set_map handle_value X)); reserved := λ _, True |}; try done.
  - intros X Hx. destruct (above_not_used (set_map handle_value X)) as [Hn _]. apply Hn.
    apply elem_of_map. exists (HANDLE (above (set_map handle_value X))). done.
  - intros X _. destruct (above_not_used (set_map handle_value X)) as [_ Hn]. simpl. unfold windows_valid.
    rewrite !bool_decide_eq_true_2; [done|intros [= ?]; lia..].
Defined.

(** A file opened and handed over, a second trigger whose pipe fails, and the end of
    the first. *)
Definition good_linux : Posix.linux_answers := Posix.LinuxAnswers true true true (Ok true) true true.
Definition no_pipe : Posix.linux_answers := Posix.LinuxAnswers true true true (Ok true) false true.
Definition linux_call (a : Posix.linux_answers) : posix_call Posix.linux_answers :=
  PosixCall a true true 0 (λ _, 0%Z) true 4096.
Definition sample_ops : list (op linux_system) :=
  [Open _ true; ByHandle linux_system 0 (linux_call good_linux) 3%Z; WorkerStarts linux_system 0 (Posix.LinuxWork true true true);
   ByPath linux_system 1 (linux_call no_pipe)].

Lemma trigger_handles_owned_witness :
  let s := run linux_system sample_ops (start {[0; 1; 2]}%Z) in
  owned_by (trigs s) = [3; 4; 5; 6; 7]%Z ∧ caller s = [] ∧ opened (kern s) = {[0; 1; 2]}%Z ∪ {[3; 4; 5; 6; 7]}%Z.
Proof.
  destruct trigger_handles_owned as [H _]. destruct (H {[0; 1; 2]}%Z sample_ops) as (H1 & _); [set_solver|].
  cbv zeta. rewrite H1. split_and!; by vm_compute.
Defined.
End Programs.

(** ** The thread function *)

Module Worker.
Import LogSystem.

Section worker.
Context {zone time : Type} (current_zone : zone) (locate_zone : str → option zone).
Context (zoned : zone → time → str) (utc : time → str) (log_tz : option str) (has_clock win32 : bool).
Context (what : exn → str).

(** [_worker] of the three classes: an exception of [_worker_impl] is logged at a
    line of its file. *)
Definition worker (p : place) (line : Z) (impl : res ()) : M (system (zone := zone)) () :=
  match impl with
  | Ok _ => mret ()
  | Throw e =>
    NSTL_ERROR current_zone locate_zone zoned utc log_tz has_clock win32 p line
      (lit "file_trigger worker stopped due to an exception: " ++ what e)
  end.
Definition worker_linux (p : place) (impl : res ()) := worker p 102 impl.
Definition worker_apple (p : place) (impl : res ()) := worker p 96 impl.
Definition worker_win32 (p : place) (impl : res ()) := worker p 62 impl.

(** A worker that fails adds one line to the logger on top, if it takes errors, and
    does nothing else to the logging system. *)
Lemma worker_logs k p line impl s :
  system_ok k s → aborted s = false → (Z.of_nat k < 2 ^ 63 - 1)%Z →
  result_ok (S k) s (fst (worker p line impl s))
    (λ n, match impl with
          | Ok _ => []
          | Throw e => line_for current_zone locate_zone zoned utc log_tz has_clock win32 n
              (Statement Level.Error (at_path p) line (at_tid p) (at_system_time p) (at_clock_time p)
                 (lit "file_trigger worker stopped due to an exception: " ++ what e)) s
          end).
Proof.
  intros Hs Ha Hk. destruct impl as [[]|e]; simpl.
  - apply result_ok_same; [|done]. eapply system_ok_mono; [|exact Hs]; lia.
  - by apply log_statement_ok.
Qed.
End worker.
End Worker.
