(* ===== verification/HttpClient.v ===== *)
(** * HTTP client: http_client.hpp, http_client.cpp

    The client objects, the libcurl handles they own with the options set on
    them, and the header lists.  libcurl is a parameter: which options it
    refuses, whether a header can be appended, and what a transfer with given
    options and headers brings after the transfers before it.  A transfer that fails writes its message to the buffer the handle
    was told to use; using a freed list or the buffer of a destroyed object is
    undefined. *)

From S2P Require Import Prelude Strings.

Module Http.

(** [is_ssl_supported], over the features that [curl_version_info] states. *)
Definition CURL_VERSION_SSL : Z := 4.
Definition is_ssl_supported (features : Z) : bool := negb (Z.land features CURL_VERSION_SSL =? 0)%Z.
Lemma is_ssl_supported_bit features : is_ssl_supported features = Z.testbit features 2.
Proof.
  unfold is_ssl_supported. change CURL_VERSION_SSL with (2 ^ 2)%Z. rewrite Z.land_comm.
  destruct (Z.testbit features 2) eqn:E.
  - apply negb_true_iff, Z.eqb_neq. intros H. apply (f_equal (λ z, Z.testbit z 2)) in H.
    rewrite Z.land_spec, E in H. done.
  - apply negb_false_iff, Z.eqb_eq. apply Z.bits_inj'. intros n Hn. rewrite Z.land_spec, Z.pow2_bits_eqb, Z.bits_0 by lia.
    destruct (Z.eqb_spec 2 n) as [<-|]; [by rewrite E|done].
Qed.

(** The options the client sets. *)
Inductive copt :=
| NOSIGNAL | ERRORBUFFER | DEBUGFUNCTION | VERBOSE | CONNECTTIMEOUT_MS | TIMEOUT_MS
| LOW_SPEED_TIME | LOW_SPEED_LIMIT | TCP_KEEPALIVE | TCP_KEEPIDLE | TCP_KEEPINTVL | TCP_KEEPCNT
| WRITEFUNCTION | HEADERFUNCTION | URL | HTTPHEADER | SSL_VERIFYPEER | FOLLOWLOCATION | MAXREDIRS
| HTTPGET | WRITEDATA | HEADERDATA | POST | POSTFIELDSIZE | POSTFIELDS.
#[export] Instance copt_eq_dec : EqDecision copt.
Proof. solve_decision. Defined.

(** Their values: numbers, strings, functions of this file, a member of a client
    object, a header list, the local string of a call, and null. *)
Inductive cval :=
| VLong (z : Z) | VStr (s : str) | VFun | VClient (i : nat) | VList (l : nat) | VLocal | VNull.
#[export] Instance cval_eq_dec : EqDecision cval.
Proof. solve_decision. Defined.

(** A handle is the record of the options set on it, the latest first: a later
    call on the same option, or on the other request method, overrides. *)
Abbreviation options := (list (copt * cval)).
Fixpoint last_set (o : copt) (f : options) : option cval :=
  match f with
  | [] => None
  | (o', v) :: f => if decide (o' = o) then Some v else last_set o f
  end.
(** The request method: the latest of [HTTPGET] and [POST]. *)
Fixpoint request_method (f : options) : option copt :=
  match f with
  | [] => None
  | (o, _) :: f => if decide (o = HTTPGET) then Some HTTPGET
                   else if decide (o = POST) then Some POST else request_method f
  end.

(** [Client].  [_error] is the text of the buffer, [_cbs] names the callback. *)
Record Client := MkClient {
  _error : str;
  _curl : option nat;
  _headers : option nat;
  _cbs : option nat;
  _bw_period : Z;
  _bw_speed : Z;
}.
Definition fresh_client : Client := MkClient [] None None None 10 10000.

(** A request: the options of the handle and the lines of its header list. *)
Abbreviation request := (options * option (list str))%type.

(** The objects, the handles and lists of libcurl, the requests that went out
    and the header lines the callbacks were given. *)
Record world := World {
  clients : gmap nat Client;
  handles : gmap nat options;
  lists : gmap nat (list str);
  sent : list request;
  seen : list (nat * str);
  next_id : nat;
}.
Definition set_clients (f : gmap nat Client → gmap nat Client) (w : world) : world :=
  World (f (clients w)) (handles w) (lists w) (sent w) (seen w) (next_id w).
Definition set_handles (f : gmap nat options → gmap nat options) (w : world) : world :=
  World (clients w) (f (handles w)) (lists w) (sent w) (seen w) (next_id w).
Definition set_lists (f : gmap nat (list str) → gmap nat (list str)) (w : world) : world :=
  World (clients w) (handles w) (f (lists w)) (sent w) (seen w) (next_id w).
Definition add_sent (r : request) (w : world) : world :=
  World (clients w) (handles w) (lists w) (sent w ++ [r]) (seen w) (next_id w).
Definition add_seen (k : nat) (l : str) (w : world) : world :=
  World (clients w) (handles w) (lists w) (sent w) (seen w ++ [(k, l)]) (next_id w).
Definition fresh_id : M world nat := λ w,
  (World (clients w) (handles w) (lists w) (sent w) (seen w) (S (next_id w)), Ok (next_id w)).

(** What a transfer brings: header lines, pieces of the body, and a status code
    or an error message. *)
Record transfer := Transfer {
  t_lines : list str;
  t_chunks : list str;
  t_end : Z + str;
}.

(** [static_cast<std::int32_t>]. *)
Definition to_i32 (z : Z) : Z := (wrap 32 (z + 2 ^ 31) - 2 ^ 31)%Z.

Definition is_http_success (code : Z) : bool := (200 <=? code)%Z && (code <? 300)%Z.

(** [ClientCbs::line] and the two libcurl callbacks; [None] is a null pointer. *)
Definition cbs_line {S} (cb : option (str → M S ())) (data : str) : M S () :=
  match cb with
  | None => mret ()
  | Some f =>
    let hdr_line := NString.right_trim_view data in
    if View.empty hdr_line then mret () else f hdr_line
  end.
Definition writeFunction (ptr : option str) : M str Z :=
  match ptr with
  | Some c => mmodify (λ data, data ++ c);; mret (Z.of_nat (length c))
  | None => mret 0%Z
  end.
Definition headerFunction {S} (ptr : option str) (cb : option (str → M S ())) : M S Z :=
  match ptr with
  | Some c => cbs_line cb c;; mret (Z.of_nat (length c))
  | None => mret 0%Z
  end.
(** The calls libcurl makes during a transfer. *)
Fixpoint receive_body (l : list str) : M str () :=
  match l with
  | [] => mret ()
  | c :: l => writeFunction (Some c);; receive_body l
  end.
Fixpoint receive_lines {S} (cb : option (str → M S ())) (l : list str) : M S () :=
  match l with
  | [] => mret ()
  | c :: l => headerFunction (Some c) cb;; receive_lines cb l
  end.

Section http.
Context (refused : copt → cval → bool).
Context (append_fails : option (list str) → str → bool).
Context (perform : list request → request → transfer).
Context (keepcnt : bool).    (** libcurl 8.9 or later *)
Context (long_bits : Z).     (** 64, or 32 on Windows *)

(** [static_cast<long>]. *)
Definition to_long (z : Z) : Z := (wrap long_bits (z + 2 ^ (long_bits - 1)) - 2 ^ (long_bits - 1))%Z.

(** ** Access to the objects *)

Definition with_client {A} (i : nat) (f : Client → M world A) : M world A := λ w,
  match clients w !! i with
  | Some c => f c w
  | None => (w, Throw (UndefinedBehaviour "no such client"))
  end.
Definition put_client (i : nat) (c : Client) : M world () :=
  mmodify (set_clients <[i := c]>).
Definition upd_client (i : nat) (f : Client → Client) : M world () :=
  with_client i (λ c, put_client i (f c)).

Definition set_error (e : str) (c : Client) : Client :=
  MkClient e (_curl c) (_headers c) (_cbs c) (_bw_period c) (_bw_speed c).
Definition set_headers (h : option nat) (c : Client) : Client :=
  MkClient (_error c) (_curl c) h (_cbs c) (_bw_period c) (_bw_speed c).
Definition set_bw (period speed : Z) (c : Client) : Client :=
  MkClient (_error c) (_curl c) (_headers c) (_cbs c) period speed.
Definition set_cb (b : option nat) (c : Client) : Client :=
  MkClient (_error c) (_curl c) (_headers c) b (_bw_period c) (_bw_speed c).

(** [curl_easy_setopt] on a handle: whether it was accepted. *)
Definition setopt (h : option nat) (o : copt) (v : cval) : M world bool := λ w,
  match h with
  | None => (w, Ok false)
  | Some h =>
    match handles w !! h with
    | None => (w, Throw (UndefinedBehaviour "setopt on a freed handle"))
    | Some f =>
      if refused o v then (w, Ok false) else (set_handles <[h := (o, v) :: f]> w, Ok true)
    end
  end.
(** [curl_easy_cleanup] and [curl_slist_free_all]. *)
Definition free_handle (h : option nat) : M world () :=
  mmodify (set_handles (λ m, match h with Some h => delete h m | None => m end)).
Definition free_list (l : option nat) : M world () :=
  mmodify (set_lists (λ m, match l with Some l => delete l m | None => m end)).

(** [NSTL_CURL_CHECK(curl_easy_setopt(...))]. *)
Definition check_opt (i : nat) (o : copt) (v : cval) : M world () :=
  with_client i (λ c,
    ok ← setopt (_curl c) o v;
    mthrow_if (negb ok) (NstlException " failed: ")).
Fixpoint check_opts (i : nat) (l : list (copt * cval)) : M world () :=
  match l with
  | [] => mret ()
  | (o, v) :: l => check_opt i o v;; check_opts i l
  end.

Definition no_curl : exn :=
  NstlException "curl pointer is nullptr: we should use instance after move".
Definition has_curl (i : nat) : M world () :=
  with_client i (λ c, mthrow_if (bool_decide (_curl c = None)) no_curl).

(** ** Construction, moves and destruction *)

(** The end of an object: its members are released, the last one first. *)
Definition destroy (i : nat) : M world () :=
  with_client i (λ c,
    free_list (_headers c);; free_handle (_curl c);; mmodify (set_clients (delete i))).

(** The members of an object whose constructor throws are released. *)
Definition or_destroy (i : nat) (m : M world ()) : M world () := λ w,
  match m w with
  | (w, Ok _) => (w, Ok ())
  | (w, Throw e) => (destroy i;; mthrow e) w
  end.

(** [Client(verbose)]: [init] is whether [curl_easy_init] gave a handle. *)
Definition make_client (i : nat) (init verbose : bool) : M world () :=
  if init then
    h ← fresh_id;
    mmodify (set_handles <[h := []]>);;
    put_client i (MkClient [] (Some h) None None 10 10000);;
    or_destroy i (check_opts i ([(NOSIGNAL, VLong 1); (ERRORBUFFER, VClient i)] ++
                   (if verbose then [(DEBUGFUNCTION, VFun); (VERBOSE, VLong 1)] else [])))
  else mthrow (NstlException "curl_easy_init failed").

(** [_assign]: the error buffer is registered on the handle the object still
    has, before the handle of the other object is taken over. *)
Definition _assign (this other : nat) : M world () :=
  with_client other (λ oc,
    upd_client this (set_error (_error oc));;
    with_client this (λ tc,
      setopt (_curl tc) ERRORBUFFER (VClient this);;
      upd_client other (set_error []);;
      free_handle (_curl tc);;
      free_list (_headers tc);;
      put_client this (MkClient (_error tc) (_curl oc) (_headers oc) (_cbs oc) (_bw_period tc) (_bw_speed tc));;
      put_client other (MkClient [] None None None (_bw_period oc) (_bw_speed oc)))).
Definition move_construct (this other : nat) : M world () :=
  put_client this fresh_client;; _assign this other.
Definition move_assign (this other : nat) : M world () :=
  if decide (this = other) then mret () else _assign this other.

(** ** Requests *)

Definition common_opts (c : Client) (url : str) (timeout : Z) (verify : bool) : list (copt * cval) :=
  (if (0 <? timeout)%Z then [(CONNECTTIMEOUT_MS, VLong (to_long timeout)); (TIMEOUT_MS, VLong (to_long timeout))] else []) ++
  [(LOW_SPEED_TIME, VLong (_bw_period c)); (LOW_SPEED_LIMIT, VLong (_bw_speed c));
   (TCP_KEEPALIVE, VLong 1); (TCP_KEEPIDLE, VLong 30); (TCP_KEEPINTVL, VLong 10)] ++
  (if keepcnt then [(TCP_KEEPCNT, VLong 3)] else []) ++
  [(WRITEFUNCTION, VFun); (HEADERFUNCTION, VFun); (URL, VStr url)] ++
  (match _headers c with Some l => [(HTTPHEADER, VList l)] | None => [] end) ++
  [(SSL_VERIFYPEER, VLong (if verify then 1 else 0)); (FOLLOWLOCATION, VLong 1); (MAXREDIRS, VLong 10)].

Definition _common (i : nat) (url : option str) (timeout : Z) (verify : bool) : M world () :=
  has_curl i;;
  match url with
  | None => mthrow (NstlException "URL pointer is nullptr!")
  | Some url =>
    upd_client i (set_error []);;
    with_client i (λ c, check_opts i (common_opts c url timeout verify))
  end.

(** [curl_easy_perform]: the headers are read through the list the handle
    names, the lines go to the callback of the object it names, a message goes to
    the buffer it names; then [curl_easy_getinfo]. *)
Definition report (f : options) (msg : str) : M world () :=
  match last_set ERRORBUFFER f with
  | Some (VClient j) => upd_client j (set_error msg)
  | _ => mret ()
  end.
Definition deliver (f : options) (lines : list str) : M world () :=
  match last_set HEADERDATA f with
  | Some (VClient j) =>
    with_client j (λ c, receive_lines ((λ k l, mmodify (add_seen k l)) <$> _cbs c) lines)
  | _ => mret ()
  end.
Definition header_lines (f : options) : M world (option (list str)) := λ w,
  match last_set HTTPHEADER f with
  | Some (VList l) =>
    match lists w !! l with
    | Some hs => (w, Ok (Some hs))
    | None => (w, Throw (UndefinedBehaviour "header list was freed"))
    end
  | _ => (w, Ok None)
  end.
Definition handle_options (i : nat) : M world options :=
  with_client i (λ c w,
    match _curl c ≫= λ h, handles w !! h with
    | Some f => (w, Ok f)
    | None => (w, Throw (UndefinedBehaviour "perform on a freed handle"))
    end).
Definition run (i : nat) : M world (Z * str) :=
  f ← handle_options i;
  hs ← header_lines f;
  w ← mget;
  let t := perform (sent w) (f, hs) in
  mmodify (add_sent (f, hs));;
  deliver f (t_lines t);;
  let retval := (receive_body (t_chunks t) []).1 in
  match t_end t with
  | inl http_code => mret (to_i32 http_code, retval)
  | inr msg => report f msg;; mthrow (NstlException " failed: ")
  end.

Definition get (i : nat) (url : option str) (timeout : Z) (verify : bool) : M world (Z * str) :=
  _common i url timeout verify;;
  check_opts i [(HTTPGET, VLong 1); (WRITEDATA, VLocal); (HEADERDATA, VClient i)];;
  run i.

Definition post_data (i : nat) (url : option str) (data : str) (timeout : Z) (verify : bool)
    : M world (Z * str) :=
  _common i url timeout verify;;
  check_opts i ((POST, VLong 1) ::
    (match data with
     | [] => [(POSTFIELDSIZE, VLong 0); (POSTFIELDS, VNull)]
     | _ => [(POSTFIELDSIZE, VLong (to_long (Z.of_nat (length data)))); (POSTFIELDS, VStr data)]
     end) ++ [(WRITEDATA, VLocal); (HEADERDATA, VClient i)]);;
  run i.
Definition post (i : nat) (url : option str) (timeout : Z) (verify : bool) : M world (Z * str) :=
  post_data i url [] timeout verify.

(** ** Headers and settings *)

(** [add_header]: [curl_slist_append] keeps the head of a list it appends to. *)
Definition add_header (i : nat) (hdr : option str) : M world bool :=
  has_curl i;;
  match hdr with
  | None => mthrow (NstlException "header is nullptr")
  | Some hdr =>
    with_client i (λ c,
      w ← mget;
      match _headers c with
      | Some l =>
        match lists w !! l with
        | Some hs =>
          mthrow_if (append_fails (Some hs) hdr) (NstlException "curl_slist_append failed");;
          mmodify (set_lists <[l := hs ++ [hdr]]>)
        | None => mthrow (UndefinedBehaviour "append to a freed list")
        end
      | None =>
        mthrow_if (append_fails None hdr) (NstlException "curl_slist_append failed");;
        l ← fresh_id;
        mmodify (set_lists <[l := [hdr]]>);;
        upd_client i (set_headers (Some l))
      end;;
      mret true)
  end.

Definition error_view (i : nat) : M world str :=
  has_curl i;; with_client i (λ c, mret (cut_nul (_error c))).
(** [curl_easy_reset] forgets all options. *)
Definition reset (i : nat) : M world () :=
  has_curl i;;
  with_client i (λ c,
    mmodify (set_handles (λ m, match _curl c with Some h => <[h := []]> m | None => m end))).
Definition reset_hdrs (i : nat) : M world () :=
  with_client i (λ c, free_list (_headers c);; put_client i (set_headers None c)).
Definition setHdrCb (i : nat) (cb : option nat) : M world (option nat) :=
  has_curl i;; with_client i (λ c, put_client i (set_cb cb c);; mret (_cbs c)).
Definition minimumBandwidth (i : nat) (period bandwidth : Z) : M world () :=
  has_curl i;;
  mthrow_if (period <? 0)%Z (NstlException "Check period cannot be negative");;
  upd_client i (if (period =? 0)%Z || (bandwidth =? 0)%Z then set_bw 0 0 else set_bw (to_long period) (to_long bandwidth)).
Definition valid (c : Client) : bool := bool_decide (_curl c ≠ None).

(** [url_encode] and [url_decode] over [curl_easy_escape] and
    [curl_easy_unescape], which get the length as an [int]. *)
Definition url_encode (escape : str → Z → option str) (i : nat) (data : str) : M world str :=
  has_curl i;;
  match data with
  | [] => mret []
  | _ => match escape data (to_i32 (Z.of_nat (length data))) with
         | Some encoded => mret (cut_nul encoded)
         | None => mthrow (NstlException " failed to be encoded by curl_easy_escape")
         end
  end.
Definition url_decode (unescape : str → Z → option str) (i : nat) (data : str) : M world str :=
  has_curl i;;
  match data with
  | [] => mret []
  | _ => match unescape data (to_i32 (Z.of_nat (length data))) with
         | Some decoded => mret decoded
         | None => mthrow (NstlException " failed to be decoded by curl_easy_unescape")
         end
  end.

(** ** Programs over clients *)

Inductive op :=
| OMake (i : nat) (init verbose : bool)
| ODestroy (i : nat)
| OGet (i : nat) (url : option str) (timeout : Z) (verify : bool)
| OPost (i : nat) (url : option str) (data : str) (timeout : Z) (verify : bool)
| OAddHeader (i : nat) (hdr : option str)
| OErrorView (i : nat)
| OReset (i : nat)
| OResetHdrs (i : nat)
| OClear (i : nat)       (** [reset] and then [reset_hdrs] *)
| OMoveConstruct (i other : nat)
| OMoveAssign (i other : nat)
| OSetHdrCb (i : nat) (cb : option nat)
| OMinimumBandwidth (i : nat) (period bandwidth : Z).

Definition op_client (o : op) : nat :=
  match o with
  | OMake i _ _ | ODestroy i | OGet i _ _ _ | OPost i _ _ _ _ | OAddHeader i _ | OErrorView i
  | OReset i | OResetHdrs i | OClear i | OMoveConstruct i _ | OMoveAssign i _ | OSetHdrCb i _ | OMinimumBandwidth i _ _ => i
  end.
(** An object is made where there is none, and used while it lives. *)
Definition enabled (w : world) (o : op) : bool :=
  match o with
  | OMake i _ _ => bool_decide (clients w !! i = None)
  | OMoveConstruct i other => bool_decide (clients w !! i = None ∧ is_Some (clients w !! other))
  | OMoveAssign i other => bool_decide (is_Some (clients w !! i) ∧ is_Some (clients w !! other))
  | _ => bool_decide (is_Some (clients w !! op_client o))
  end.
Definition do_op (o : op) : M world () :=
  match o with
  | OMake i init verbose => make_client i init verbose
  | ODestroy i => destroy i
  | OGet i url t v => get i url t v;; mret ()
  | OPost i url data t v => post_data i url data t v;; mret ()
  | OAddHeader i hdr => add_header i hdr;; mret ()
  | OErrorView i => error_view i;; mret ()
  | OReset i => reset i
  | OResetHdrs i => reset_hdrs i
  | OClear i => reset i;; reset_hdrs i
  | OMoveConstruct i other => move_construct i other
  | OMoveAssign i other => move_assign i other
  | OSetHdrCb i cb => setHdrCb i cb;; mret ()
  | OMinimumBandwidth i p b => minimumBandwidth i p b
  end.
(** A program that catches every exception; the outcomes in order. *)
Fixpoint exec (l : list op) (w : world) : world * list (res ()) :=
  match l with
  | [] => (w, [])
  | o :: l =>
    if enabled w o then
      let '(w1, r) := do_op o w in let '(w2, rs) := exec l w1 in (w2, r :: rs)
    else exec l w
  end.
Definition empty_world : world := World ∅ ∅ ∅ [] [] 0.

Definition not_ub {A} (r : res A) : Prop :=
  match r with Throw (UndefinedBehaviour _) => False | _ => True end.

(** ** When a request is sound *)

(** A handle that still names a header list which its client has given up, or the error
    buffer of a client that is gone, is not fit for a request. *)
Definition sound_options (w : world) (c : Client) (f : options) : Prop :=
  (_headers c = None → ∀ l, last_set HTTPHEADER f ≠ Some (VList l)) ∧
  (∀ j, last_set ERRORBUFFER f = Some (VClient j) → is_Some (clients w !! j)).
Definition sound (w : world) (i : nat) : Prop :=
  ∀ c h f, clients w !! i = Some c → _curl c = Some h → handles w !! h = Some f → sound_options w c f.
Definition is_request (o : op) : bool := match o with OGet _ _ _ _ | OPost _ _ _ _ _ => true | _ => false end.
(** The operations after which every request is sound: all but the moves and [reset_hdrs]
    without [reset]. *)
Definition tidy (o : op) : Prop :=
  match o with OResetHdrs _ | OMoveConstruct _ _ | OMoveAssign _ _ => False | _ => True end.

(** ** The invariant *)

(** What an option of the handle of client [i] may point to. *)
Definition fits (i : nat) (c : Client) (ov : copt * cval) : Prop :=
  match ov with
  | (HTTPHEADER, VList l) => _headers c = Some l
  | (ERRORBUFFER, VClient j) | (HEADERDATA, VClient j) => j = i
  | _ => True
  end.

(** Who owns the handles and lists; and, after [t]idy operations only, that every client has a handle
    whose options name nothing but its own. *)
Record Inv (t : bool) (w : world) : Prop := {
  inv_client i c : clients w !! i = Some c →
    (t = true → is_Some (_curl c)) ∧
    (∀ h, _curl c = Some h → ∃ f, handles w !! h = Some f ∧ (t = true → Forall (fits i c) f)) ∧
    ∀ l, _headers c = Some l → is_Some (lists w !! l);
  inv_curl i j c d h : clients w !! i = Some c → clients w !! j = Some d →
    _curl c = Some h → _curl d = Some h → i = j;
  inv_headers i j c d l : clients w !! i = Some c → clients w !! j = Some d →
    _headers c = Some l → _headers d = Some l → i = j;
  inv_handle h f : handles w !! h = Some f →
    h < next_id w ∧ ∃ i c, clients w !! i = Some c ∧ _curl c = Some h;
  inv_list l hs : lists w !! l = Some hs →
    l < next_id w ∧ ∃ i c, clients w !! i = Some c ∧ _headers c = Some l;
}.

Lemma last_set_fits i c o f v : Forall (fits i c) f → last_set o f = Some v → fits i c (o, v).
Proof.
  induction 1 as [|[o' v'] f Hov _ IH]; simpl; [done|].
  case_decide; [|done]. intros [= ->]. by subst.
Qed.

Lemma fits_headers i c c' f :
  _headers c' = _headers c → Forall (fits i c) f → Forall (fits i c') f.
Proof. intros Hh Hf. eapply list.Forall_impl; [done|]. intros [[] []]; simpl; congruence. Qed.

Lemma fits_new_headers i c c' f :
  _headers c = None → Forall (fits i c) f → Forall (fits i c') f.
Proof. intros Hh Hf. eapply list.Forall_impl; [done|]. intros [[] []]; simpl; congruence. Qed.

Section invariant.
Context (t : bool).

Lemma inv_same w w' :
  clients w' = clients w → handles w' = handles w → lists w' = lists w →
  next_id w ≤ next_id w' → Inv t w → Inv t w'.
Proof.
  intros Ec Eh El En [H1 H2 H3 H4 H5].
  constructor; rewrite ?Ec, ?Eh, ?El; try done; intros ?? [??]%H4 || intros ?? [??]%H5; split; eauto; lia.
Qed.

Lemma inv_empty : Inv t empty_world.
Proof. constructor; simpl; intros *; rewrite ?lookup_empty; done. Qed.

Lemma inv_set_handle w i c h f :
  Inv t w → clients w !! i = Some c → _curl c = Some h → (t = true → Forall (fits i c) f) →
  Inv t (set_handles <[h := f]> w).
Proof.
  intros [H1 H2 H3 H4 H5] Hi Hc Hf. constructor; simpl; try done.
  - intros j d Hj. destruct (H1 j d Hj) as (Hs & Hh & Hl). split_and!; [done| |done].
    intros h' Hd. destruct (Hh h' Hd) as (f' & Hh' & Hf'). destruct (decide (h' = h)) as [->|].
    + assert (i = j) by eauto. simplify_eq. exists f. by rewrite lookup_insert_eq.
    + exists f'. by rewrite lookup_insert_ne.
  - intros h' f'. destruct (decide (h' = h)) as [->|]; [|rewrite lookup_insert_ne by done; apply H4].
    intros _. destruct (H1 i c Hi) as (_ & Hh & _). destruct (Hh h Hc) as (f'' & Hh' & _).
    destruct (H4 _ _ Hh') as [? _]. eauto.
Qed.

Lemma inv_put_client w i c c' :
  Inv t w → clients w !! i = Some c → _curl c' = _curl c → _headers c' = _headers c →
  Inv t (set_clients <[i := c']> w).
Proof.
  intros [H1 H2 H3 H4 H5] Hi Hc Hh.
  assert (Hlk : ∀ j d, <[i := c']> (clients w) !! j = Some d →
    ∃ d0, clients w !! j = Some d0 ∧ _curl d = _curl d0 ∧ _headers d = _headers d0).
  { intros j d. rewrite lookup_insert_Some. intros [[-> <-]|[??]]; eauto. }
  assert (Hown : ∀ j d, clients w !! j = Some d → ∃ d', <[i := c']> (clients w) !! j = Some d' ∧
    _curl d' = _curl d ∧ _headers d' = _headers d).
  { intros j d Hj. destruct (decide (i = j)) as [->|].
    - simplify_eq. exists c'. by rewrite lookup_insert_eq.
    - exists d. by rewrite lookup_insert_ne. }
  constructor; simpl.
  - intros j d (d0 & Hj & Ec & Eh)%Hlk. destruct (H1 j d0 Hj) as (? & Hf & ?). rewrite Ec, Eh. split_and!; [done| |done].
    intros h Hd. destruct (Hf h Hd) as (f & ? & ?). eauto 6 using fits_headers.
  - intros j k d e h (d0 & Hj & -> & _)%Hlk (e0 & Hk & -> & _)%Hlk. eauto.
  - intros j k d e h (d0 & Hj & _ & ->)%Hlk (e0 & Hk & _ & ->)%Hlk. eauto.
  - intros h f (? & j & d & Hj & Hd)%H4. destruct (Hown j d Hj) as (d' & ? & E & _).
    split; [done|]. exists j, d'. by rewrite E.
  - intros l hs (? & j & d & Hj & Hd)%H5. destruct (Hown j d Hj) as (d' & ? & _ & E).
    split; [done|]. exists j, d'. by rewrite E.
Qed.

(** Objects, handles and lists that appear. *)
Lemma inv_new_client w i n :
  Inv t w → clients w !! i = None → next_id w = n →
  Inv t (World (<[i := MkClient [] (Some n) None None 10 10000]> (clients w)) (<[n := []]> (handles w))
         (lists w) (sent w) (seen w) (S n)).
Proof.
  intros [H1 H2 H3 H4 H5] Hi <-.
  assert (Hne : ∀ j d, clients w !! j = Some d → _curl d ≠ Some (next_id w)).
  { intros j d Hj E. destruct (H1 j d Hj) as (_ & Hh & _). destruct (Hh _ E) as (f & [? _]%H4 & _). lia. }
  constructor; simpl.
  - intros j d. rewrite lookup_insert_Some. intros [[-> <-]|[? Hj]].
    + split_and!; [done| |done]. intros h [= <-]. exists []. rewrite lookup_insert_eq. by repeat split.
    + destruct (H1 j d Hj) as (? & Hh & ?). split_and!; [done| |done]. intros h Hd.
      rewrite lookup_insert_ne; [by apply Hh|]. intros <-. by apply (Hne j d).
  - intros j k d e h. rewrite !lookup_insert_Some.
    intros [[-> <-]|[? Hj]] [[-> <-]|[? Hk]]; simpl; intros; simplify_eq; eauto; exfalso; eapply Hne; eauto.
  - intros j k d e h. rewrite !lookup_insert_Some.
    intros [[-> <-]|[? Hj]] [[-> <-]|[? Hk]]; simpl; intros; simplify_eq; eauto.
  - intros h f. rewrite lookup_insert_Some. intros [[<- <-]|[? (? & j & d & ? & ?)%H4]].
    + split; [lia|]. eexists i, _. by rewrite lookup_insert_eq.
    + split; [lia|]. exists j, d. rewrite lookup_insert_ne; [done|congruence].
  - intros l hs (? & j & d & ? & ?)%H5. split; [lia|].
    exists j, d. rewrite lookup_insert_ne; [done|congruence].
Qed.

Lemma inv_set_list w i c l hs :
  Inv t w → clients w !! i = Some c → _headers c = Some l → Inv t (set_lists <[l := hs]> w).
Proof.
  intros [H1 H2 H3 H4 H5] Hi Hl. constructor; simpl; try done.
  - intros j d Hj. destruct (H1 j d Hj) as (? & ? & Hd). split_and!; [done|done|].
    intros l' Hl'. apply lookup_insert_is_Some'. auto.
  - intros l' hs'. rewrite lookup_insert_Some. intros [[<- <-]|[? ?]]; [|eauto].
    destruct (H1 i c Hi) as (_ & _ & Hd). destruct (Hd l Hl) as [hs' Hs'].
    destruct (H5 _ _ Hs') as [? _]. eauto.
Qed.

Lemma inv_new_list w i c hs n :
  Inv t w → clients w !! i = Some c → _headers c = None → next_id w = n →
  Inv t (World (<[i := set_headers (Some n) c]> (clients w)) (handles w) (<[n := hs]> (lists w))
         (sent w) (seen w) (S n)).
Proof.
  intros [H1 H2 H3 H4 H5] Hi Hc <-.
  assert (Hne : ∀ j d, clients w !! j = Some d → _headers d ≠ Some (next_id w)).
  { intros j d Hj Hd. destruct (H1 j d Hj) as (_ & _ & Hl).
    destruct (Hl _ Hd) as [? [? _]%H5]. lia. }
  assert (Hown : ∀ j d, clients w !! j = Some d →
    ∃ d', <[i := set_headers (Some (next_id w)) c]> (clients w) !! j = Some d' ∧ _curl d' = _curl d).
  { intros j d Hj. destruct (decide (i = j)) as [->|].
    - simplify_eq. eexists. by rewrite lookup_insert_eq.
    - exists d. by rewrite lookup_insert_ne. }
  constructor; simpl.
  - intros j d. rewrite lookup_insert_Some. intros [[-> <-]|[? Hj]].
    + destruct (H1 j c Hi) as (? & Hf & _). split_and!; [done|..].
      * intros h Hd. destruct (Hf h Hd) as (f & ? & ?). eauto 6 using fits_new_headers.
      * simpl. intros l [= <-]. rewrite lookup_insert_eq. eauto.
    + destruct (H1 j d Hj) as (? & Hf & Hl). split_and!; [done|done|].
      intros l Hd. apply lookup_insert_is_Some'. auto.
  - intros j k d e h. rewrite !lookup_insert_Some.
    intros [[-> <-]|[? Hj]] [[-> <-]|[? Hk]]; simpl; intros; simplify_eq; eauto.
  - intros j k d e h. rewrite !lookup_insert_Some.
    intros [[-> <-]|[? Hj]] [[-> <-]|[? Hk]]; simpl; intros; simplify_eq; eauto; exfalso; eapply Hne; eauto.
  - intros h f (? & j & d & Hj & Hd)%H4. split; [lia|].
    destruct (Hown j d Hj) as (d' & ? & E). exists j, d'. by rewrite E.
  - intros l hs'. rewrite lookup_insert_Some. intros [[<- <-]|[? (? & j & d & Hj & Hd)%H5]].
    + split; [lia|]. eexists i, _. by rewrite lookup_insert_eq.
    + split; [lia|]. exists j, d. rewrite lookup_insert_ne; [done|]. congruence.
Qed.

(** And those that go. *)
Definition without {A} (k : option nat) (m : gmap nat A) : gmap nat A :=
  match k with Some k => delete k m | None => m end.
Lemma lookup_without {A} k (m : gmap nat A) x a : without k m !! x = Some a ↔ k ≠ Some x ∧ m !! x = Some a.
Proof. destruct k as [k|]; simpl; [rewrite lookup_delete_Some|]; naive_solver. Qed.
Lemma without_other {A} k (m : gmap nat A) x : k ≠ Some x → without k m !! x = m !! x.
Proof. destruct k as [k|]; simpl; [|done]. intros. by rewrite lookup_delete_ne by congruence. Qed.

Lemma inv_destroy w i c :
  Inv t w → clients w !! i = Some c →
  Inv t (World (delete i (clients w)) (without (_curl c) (handles w)) (without (_headers c) (lists w))
         (sent w) (seen w) (next_id w)).
Proof.
  intros [H1 H2 H3 H4 H5] Hi. constructor; simpl.
  - intros j d [Hne Hj]%lookup_delete_Some. destruct (H1 j d Hj) as (? & Hh & Hl). split_and!; [done|..].
    + intros h Hd. rewrite without_other by (intros ?; apply Hne; eauto). auto.
    + intros l Hd. rewrite without_other by (intros ?; apply Hne; eauto). auto.
  - intros j k d e h [_ ?]%lookup_delete_Some [_ ?]%lookup_delete_Some. eauto.
  - intros j k d e h [_ ?]%lookup_delete_Some [_ ?]%lookup_delete_Some. eauto.
  - intros h f [Hne (? & j & d & ? & Hd)%H4]%lookup_without. split; [done|].
    exists j, d. rewrite lookup_delete_ne; [done|]. congruence.
  - intros l hs [Hne (? & j & d & ? & Hd)%H5]%lookup_without. split; [done|].
    exists j, d. rewrite lookup_delete_ne; [done|]. congruence.
Qed.

Lemma inv_drop_headers w i c :
  Inv t w → clients w !! i = Some c →
  (t = true → ∀ h, _curl c = Some h → handles w !! h = Some []) →
  Inv t (World (<[i := set_headers None c]> (clients w)) (handles w) (without (_headers c) (lists w))
         (sent w) (seen w) (next_id w)).
Proof.
  intros [H1 H2 H3 H4 H5] Hi Hh. constructor; simpl.
  - intros j d. rewrite lookup_insert_Some. intros [[-> <-]|[Hne Hj]].
    + destruct (H1 j c Hi) as (? & Hf & _). split_and!; [done| |done]. intros h Hd. destruct (Hf h Hd) as (f & Ef & ?).
      exists f. split; [done|]. intros Ht. specialize (Hh Ht h Hd). assert (f = []) as -> by congruence. constructor.
    + destruct (H1 j d Hj) as (? & ? & Hl). split_and!; [done|done|].
      intros l Hl'. rewrite without_other by (intros ?; apply Hne; eauto). auto.
  - intros j k d e h'. rewrite !lookup_insert_Some.
    intros [[-> <-]|[? Hj]] [[-> <-]|[? Hk]]; simpl; intros; simplify_eq; eauto.
  - intros j k d e h'. rewrite !lookup_insert_Some.
    intros [[-> <-]|[? Hj]] [[-> <-]|[? Hk]]; simpl; intros; simplify_eq; eauto.
  - intros h' f (? & j & d & Hj & Hd)%H4. split; [done|]. destruct (decide (i = j)) as [->|].
    + simplify_eq. eexists j, _. by rewrite lookup_insert_eq.
    + exists j, d. by rewrite lookup_insert_ne.
  - intros l hs [Hne (? & j & d & ? & Hd)%H5]%lookup_without.
    split; [done|]. exists j, d. rewrite lookup_insert_ne; [done|]. congruence.
Qed.
End invariant.

(** A client without a handle appears, and one takes over what another has. *)
Lemma inv_bare_client w i :
  Inv false w → clients w !! i = None → Inv false (set_clients <[i := fresh_client]> w).
Proof.
  intros [H1 H2 H3 H4 H5] Hi. constructor; simpl.
  - intros j d. rewrite lookup_insert_Some. intros [[-> <-]|[? Hj]]; [by split_and!|by apply H1].
  - intros j k d e h. rewrite !lookup_insert_Some. intros [[-> <-]|[? Hj]] [[-> <-]|[? Hk]]; simpl; intros; simplify_eq; eauto.
  - intros j k d e h. rewrite !lookup_insert_Some. intros [[-> <-]|[? Hj]] [[-> <-]|[? Hk]]; simpl; intros; simplify_eq; eauto.
  - intros h f (? & j & d & ? & ?)%H4. split; [done|]. exists j, d. rewrite lookup_insert_ne; [done|congruence].
  - intros l hs (? & j & d & ? & ?)%H5. split; [done|]. exists j, d. rewrite lookup_insert_ne; [done|congruence].
Qed.

Lemma inv_take w i j tc oc tc' oc' :
  Inv false w → i ≠ j → clients w !! i = Some tc → clients w !! j = Some oc →
  _curl tc' = _curl oc → _headers tc' = _headers oc → _curl oc' = None → _headers oc' = None →
  Inv false (World (<[j := oc']> (<[i := tc']> (clients w))) (without (_curl tc) (handles w)) (without (_headers tc) (lists w))
    (sent w) (seen w) (next_id w)).
Proof.
  intros [H1 H2 H3 H4 H5] Hij Hi Hj Ec Eh Nc Nh.
  assert (Hlk : ∀ k d, <[j := oc']> (<[i := tc']> (clients w)) !! k = Some d →
    _curl d = None ∧ _headers d = None ∨
    ∃ k' d', clients w !! k' = Some d' ∧ k' ≠ i ∧ _curl d = _curl d' ∧ _headers d = _headers d' ∧ (k = i ∧ k' = j ∨ k = k' ∧ k' ≠ j)).
  { intros k d. rewrite !lookup_insert_Some. intros [[-> <-]|[? [[-> <-]|[? Hk]]]]; [by left|..]; right.
    - exists j, oc. split_and!; try done. by left.
    - exists k, d. split_and!; try done. by right. }
  assert (Hown : ∀ k d, clients w !! k = Some d → k ≠ i →
    ∃ k' d', <[j := oc']> (<[i := tc']> (clients w)) !! k' = Some d' ∧ _curl d' = _curl d ∧ _headers d' = _headers d).
  { intros k d Hk Hne. destruct (decide (k = j)) as [->|].
    - exists i, tc'. rewrite lookup_insert_ne, lookup_insert_eq by done. naive_solver.
    - exists k, d. by rewrite !lookup_insert_ne by done. }
  constructor; simpl.
  - intros k d [[Dc Dh]|(k' & d' & Hk' & Hne & -> & -> & _)]%Hlk; [rewrite Dc, Dh; by split_and!|].
    destruct (H1 k' d' Hk') as (_ & Hf & Hl). split_and!; [done|..].
    + intros h Hd. rewrite without_other by (intros ?; apply Hne; eauto). destruct (Hf h Hd) as (f & ? & _). by exists f.
    + intros l Hd. rewrite without_other by (intros ?; apply Hne; eauto). auto.
  - intros k1 k2 d1 d2 h Hk1 Hk2 E1 E2. apply Hlk in Hk1, Hk2.
    destruct Hk1 as [[? _]|(a1 & b1 & ? & ? & ? & _ & ?)]; [congruence|].
    destruct Hk2 as [[? _]|(a2 & b2 & ? & ? & ? & _ & ?)]; [congruence|].
    assert (a1 = a2) by (apply (H2 a1 a2 b1 b2 h); congruence). naive_solver.
  - intros k1 k2 d1 d2 h Hk1 Hk2 E1 E2. apply Hlk in Hk1, Hk2.
    destruct Hk1 as [[_ ?]|(a1 & b1 & ? & ? & _ & ? & ?)]; [congruence|].
    destruct Hk2 as [[_ ?]|(a2 & b2 & ? & ? & _ & ? & ?)]; [congruence|].
    assert (a1 = a2) by (apply (H3 a1 a2 b1 b2 h); congruence). naive_solver.
  - intros h f [Hne (? & k & d & Hk & Hd)%H4]%lookup_without. split; [done|].
    destruct (Hown k d Hk) as (k' & d' & ? & E & _); [congruence|]. exists k', d'. by rewrite E.
  - intros l hs [Hne (? & k & d & Hk & Hd)%H5]%lookup_without. split; [done|].
    destruct (Hown k d Hk) as (k' & d' & ? & _ & E); [congruence|]. exists k', d'. by rewrite E.
Qed.

(** ** Operations keep the invariant *)

Section operations.
Context (t : bool).

(** A call on client [i] ended without undefined behaviour, the invariant holds
    and the client is still there. *)
Definition good {A} (i : nat) (out : world * res A) : Prop :=
  Inv t out.1 ∧ is_Some (clients out.1 !! i) ∧ not_ub out.2.
Definition safe {A} (i : nat) (m : M world A) : Prop :=
  ∀ w, Inv t w → is_Some (clients w !! i) → good i (m w).

Lemma safe_bind {A B} i (m : M world A) (k : A → M world B) :
  safe i m → (∀ a, safe i (k a)) → safe i (m ≫= k).
Proof.
  intros Hm Hk w Hw Hi. destruct (Hm w Hw Hi) as (Hw' & Hi' & Hr).
  unfold mbind, M_bind. destruct (m w) as [w' [a|e]]; simpl in *; [by apply Hk|done].
Qed.
Lemma safe_ret {A} i (a : A) : safe i (mret a).
Proof. intros w Hw Hi. by split_and!. Qed.
Lemma safe_throw {A} i e : not_ub (Throw (A:=A) e) → safe (A:=A) i (mthrow e).
Proof. intros He w Hw Hi. by split_and!. Qed.
Lemma safe_throw_if i b e : not_ub (Throw (A:=()) e) → safe i (mthrow_if b e).
Proof. intros He w Hw Hi. unfold mthrow_if. by destruct b; split_and!. Qed.
Lemma safe_with {A} i (k : Client → M world A) :
  (∀ w c, Inv t w → clients w !! i = Some c → good i (k c w)) → safe i (with_client i k).
Proof. intros Hk w Hw [c Hc]. unfold with_client. rewrite Hc. by apply Hk. Qed.
Lemma safe_upd i (f : Client → Client) :
  (∀ c, _curl (f c) = _curl c ∧ _headers (f c) = _headers c) → safe i (upd_client i f).
Proof.
  intros Hf. apply safe_with. intros w c Hw Hc. destruct (Hf c). split_and!; simpl.
  - by eapply inv_put_client.
  - rewrite lookup_insert_eq. eauto.
  - done.
Qed.
Lemma safe_has_curl i : safe i (has_curl i).
Proof. apply safe_with. intros w c Hw Hc. unfold mthrow_if. case_bool; by split_and!; eauto. Qed.
(** What is done after the check of the handle. *)
Lemma safe_with_curl {A} i (k : Client → M world A) :
  (∀ w c h f, Inv t w → clients w !! i = Some c → _curl c = Some h → handles w !! h = Some f →
     (t = true → Forall (fits i c) f) → good i (k c w)) →
  safe i (has_curl i;; with_client i k).
Proof.
  intros Hk w Hw [c Hc]. unfold has_curl, with_client. munfold_goal. rewrite Hc. destruct (_curl c) as [h|] eqn:Hh; simpl.
  - rewrite Hc. destruct (inv_client _ _ Hw _ _ Hc) as (_ & Hf & _). destruct (Hf h Hh) as (f & ? & ?). by eapply Hk.
  - by split_and!; eauto.
Qed.

(** Options are set one by one until one is refused. *)
Lemma check_opts_cases i l w c h f :
  clients w !! i = Some c → _curl c = Some h → handles w !! h = Some f →
  ∃ l' r, l' `prefix_of` l ∧ check_opts i l w = (set_handles <[h := rev l' ++ f]> w, r) ∧
    ((r = Ok () ∧ l' = l) ∨
     (r = Throw (NstlException " failed: ") ∧ ∃ o v, (o, v) ∈ l ∧ refused o v = true)).
Proof.
  intros Hc Hh. revert w f Hc. induction l as [|[o v] l IH]; intros w f Hc Hf; simpl.
  { exists [], (Ok ()). split_and!; [done| |by left]. munfold_goal. f_equal. destruct w; simpl in *.
    unfold set_handles; simpl. by rewrite insert_id. }
  unfold mbind at 1, M_bind at 1, check_opt, with_client. rewrite Hc.
  unfold mbind, M_bind, setopt. rewrite Hh, Hf. destruct (refused o v) eqn:Er; simpl.
  { exists [], (Throw (NstlException " failed: ")). split; [apply prefix_nil|]. split.
    - f_equal. destruct w; simpl in *. unfold set_handles; simpl. by rewrite insert_id.
    - right. split; [done|]. exists o, v. split; [left|done]. }
  destruct (IH (set_handles <[h := (o, v) :: f]> w) ((o, v) :: f)) as (l' & r & Hp & -> & Hr);
    [done|simpl; by rewrite lookup_insert_eq|].
  exists ((o, v) :: l'), r. split; [by apply prefix_cons|]. split.
  - f_equal. unfold set_handles; simpl. rewrite insert_insert_eq.
    by rewrite <-(assoc_L (++)).
  - destruct Hr as [[-> ->]|[-> (o' & v' & ? & ?)]]; [by left|right].
    split; [done|]. exists o', v'. split; [by right|done].
Qed.

Lemma check_opts_good i c h l w :
  Inv t w → clients w !! i = Some c → _curl c = Some h → (t = true → Forall (fits i c) l) → good i (check_opts i l w).
Proof.
  intros Hw Hc Hh Hl. destruct (inv_client _ _ Hw _ _ Hc) as (_ & Hf & _). destruct (Hf h Hh) as (f & Hf' & Hfits).
  destruct (check_opts_cases i l w c h f) as (l' & r & [l2 ->] & -> & Hr); try done.
  split_and!; simpl; [|by eauto|destruct Hr as [[-> _]|[-> _]]; done].
  eapply inv_set_handle; eauto. intros Ht. specialize (Hl Ht). apply list.Forall_app in Hl as [Hl _].
  apply list.Forall_app. split; [|by apply Hfits]. by apply Forall_rev.
Qed.

Lemma last_set_app o f1 f2 :
  last_set o (f1 ++ f2) = match last_set o f1 with Some v => Some v | None => last_set o f2 end.
Proof. induction f1 as [|[o' v] f1 IH]; simpl; [done|]. by case_decide. Qed.
Lemma common_header_list c url to v f :
  last_set HTTPHEADER (rev (common_opts c url to v) ++ f) =
  match _headers c with Some l => Some (VList l) | None => last_set HTTPHEADER f end.
Proof. unfold common_opts. by destruct (0 <? to)%Z, keepcnt, (_headers c). Qed.
Lemma common_error_buffer c url to v f :
  last_set ERRORBUFFER (rev (common_opts c url to v) ++ f) = last_set ERRORBUFFER f.
Proof. unfold common_opts. by destruct (0 <? to)%Z, keepcnt, (_headers c). Qed.

Lemma common_opts_fits i c url to v : Forall (fits i c) (common_opts c url to v).
Proof.
  unfold common_opts. repeat (apply list.Forall_app; split).
  - by destruct (0 <? to)%Z; repeat constructor.
  - by repeat constructor.
  - by destruct keepcnt; repeat constructor.
  - by repeat constructor.
  - destruct (_headers c) eqn:E; repeat constructor. done.
  - by repeat constructor.
Qed.

(** The callbacks only add to what was seen. *)
Lemma receive_lines_seen cb lines w :
  ∃ s, receive_lines ((λ k l, mmodify (add_seen k l)) <$> cb) lines w =
    (World (clients w) (handles w) (lists w) (sent w) s (next_id w), Ok ()).
Proof.
  revert w. induction lines as [|l lines IH]; intros w; simpl; [exists (seen w); by destruct w|].
  unfold headerFunction, cbs_line. destruct cb as [k|]; simpl; munfold_goal.
  - destruct (View.empty _); [apply IH|]. destruct (IH (add_seen k (NString.right_trim_view l) w)) as [s Hs].
    exists s. exact Hs.
  - apply IH.
Qed.

Lemma deliver_seen f lines w :
  ∃ s r, deliver f lines w = (World (clients w) (handles w) (lists w) (sent w) s (next_id w), r) ∧
    ((∀ j, last_set HEADERDATA f = Some (VClient j) → is_Some (clients w !! j)) → r = Ok ()).
Proof.
  unfold deliver. destruct (last_set HEADERDATA f) as [[| | |j| | |]|];
    try (by exists (seen w), (Ok ()); destruct w).
  unfold with_client. destruct (clients w !! j) as [c|] eqn:E.
  - destruct (receive_lines_seen (_cbs c) lines w) as [s ->]. by exists s, (Ok ()).
  - exists (seen w), (Throw (UndefinedBehaviour "no such client")). split; [by destruct w|].
    intros H. destruct (H j eq_refl) as [? ?]. congruence.
Qed.

(** What [curl_easy_perform] may touch. *)
Lemma run_good i w c h f :
  Inv t w → clients w !! i = Some c → _curl c = Some h → handles w !! h = Some f →
  Inv t (run i w).1 ∧ is_Some (clients (run i w).1 !! i) ∧
  ((∀ l, last_set HTTPHEADER f = Some (VList l) → is_Some (lists w !! l)) →
   (∀ j, last_set HEADERDATA f = Some (VClient j) → is_Some (clients w !! j)) →
   (∀ j, last_set ERRORBUFFER f = Some (VClient j) → is_Some (clients w !! j)) → not_ub (run i w).2).
Proof.
  intros Hw Hc Hh Hf.
  assert (handle_options i w = (w, Ok f)) as Eopt.
  { unfold handle_options, with_client. rewrite Hc, Hh. simpl. by rewrite Hf. }
  assert (∃ r, header_lines f w = (w, r) ∧
    ((∀ l, last_set HTTPHEADER f = Some (VList l) → is_Some (lists w !! l)) → ∃ hs, r = Ok hs)) as (r & Ehdr & Hr).
  { unfold header_lines. destruct (last_set HTTPHEADER f) as [[| | | |l| |]|]; eauto.
    destruct (lists w !! l) as [hs|] eqn:E; [eauto|]. eexists. split; [done|]. intros H.
    destruct (H l eq_refl) as [? ?]. congruence. }
  unfold run. munfold_goal. rewrite Eopt, Ehdr.
  destruct r as [hs|e]; [|split_and!; [done|eauto|]; intros H1; by destruct (Hr H1) as [? [=]]].
  set (x := perform _ _). clearbody x.
  destruct (deliver_seen f (t_lines x) (add_sent (f, hs) w)) as (s & r & -> & Hd).
  set (w' := World _ _ _ _ _ _). assert (Hw' : Inv t w') by (by apply (inv_same t w)).
  destruct r as [[]|e]; [|split_and!; [done|eauto|]; intros _ H2; by specialize (Hd H2)].
  destruct (t_end x) as [code|msg]; simpl; [by split_and!; eauto|].
  unfold report. destruct (last_set ERRORBUFFER f) as [[| | |j| | |]|]; try (by split_and!; eauto).
  unfold upd_client, with_client. simpl. destruct (clients w !! j) as [d|] eqn:Ej; simpl.
  - split_and!; [by eapply (inv_put_client t w')|apply lookup_insert_is_Some'; eauto|done].
  - split_and!; [done|eauto|]. intros _ _ H3. destruct (H3 j eq_refl). congruence.
Qed.

(** A request: the options are set, and those that name something of another object do so
    only if they did before. *)
Lemma request_good i url to v l w :
  (∀ c, Forall (fits i c) l) → last_set HTTPHEADER (rev l) = None → last_set ERRORBUFFER (rev l) = None →
  last_set HEADERDATA (rev l) = Some (VClient i) →
  Inv t w → is_Some (clients w !! i) →
  let out := (_common i url to v;; check_opts i l;; run i) w in
  Inv t out.1 ∧ is_Some (clients out.1 !! i) ∧ (sound w i → not_ub out.2).
Proof.
  intros Hl Lh Le Ld Hw [c Hc]. unfold _common, has_curl, upd_client, put_client, with_client. munfold_goal. rewrite Hc.
  destruct (_curl c) as [h|] eqn:Hh; simpl; [|by split_and!; eauto]. destruct url as [url|]; simpl; [|by split_and!; eauto].
  rewrite Hc. simpl. rewrite lookup_insert_eq. set (c1 := set_error [] c). set (w1 := set_clients _ w).
  assert (Hw1 : Inv t w1) by (by eapply inv_put_client).
  assert (Hc1 : clients w1 !! i = Some c1) by (simpl; by rewrite lookup_insert_eq).
  destruct (inv_client _ _ Hw _ _ Hc) as (_ & Hf & Hlist). destruct (Hf h Hh) as (f & Ef & _).
  destruct (check_opts_good i c1 h (common_opts c1 url to v) w1 Hw1 Hc1 Hh (λ _, common_opts_fits _ _ _ _ _)) as (Hw2 & Hi2 & Hr2).
  destruct (check_opts_cases i (common_opts c1 url to v) w1 c1 h f) as (l2 & r2 & _ & E2 & H2); [done..|]. rewrite E2 in *.
  destruct H2 as [[-> ->]|[-> _]]; [|done]. simpl in Hw2, Hi2.
  set (w2 := set_handles _ w1) in *. set (f2 := rev (common_opts c1 url to v) ++ f).
  destruct (check_opts_good i c1 h l w2 Hw2 Hc1 Hh (λ _, Hl c1)) as (Hw3 & Hi3 & Hr3).
  destruct (check_opts_cases i l w2 c1 h f2) as (l3 & r3 & _ & E3 & H3); [done|done|simpl; by rewrite lookup_insert_eq|].
  rewrite E3 in *. destruct H3 as [[-> ->]|[-> _]]; [|done]. simpl in Hw3, Hi3.
  set (w3 := set_handles _ w2) in *.
  destruct (run_good i w3 c1 h (rev l ++ f2)) as (Hw4 & Hi4 & Hub); [done|done|done|simpl; by rewrite lookup_insert_eq|].
  split_and!; [done..|]. intros Hs. destruct (Hs c h f Hc Hh Ef) as [Sh Se]. apply Hub.
  - intros hl. rewrite last_set_app, Lh. unfold f2. rewrite common_header_list. simpl.
    destruct (_headers c) as [hl'|] eqn:Eh; [intros [= ->]; by apply Hlist|]. intros E. by destruct (Sh eq_refl hl).
  - intros j. rewrite last_set_app, Ld. intros [= <-]. exists c1. exact Hc1.
  - intros j. rewrite last_set_app, Le. unfold f2. rewrite common_error_buffer. intros E.
    simpl. apply lookup_insert_is_Some'. right. by apply Se.
Qed.
(** The two kinds of requests. *)
Inductive call := Get | Post (data : str).
Definition do_call (k : call) : nat → option str → Z → bool → M world (Z * str) :=
  match k with Get => get | Post data => λ i url t v, post_data i url data t v end.
Definition call_opts (i : nat) (k : call) : options :=
  match k with
  | Get => [(HTTPGET, VLong 1); (WRITEDATA, VLocal); (HEADERDATA, VClient i)]
  | Post data => (POST, VLong 1) ::
      (match data with
       | [] => [(POSTFIELDSIZE, VLong 0); (POSTFIELDS, VNull)]
       | _ => [(POSTFIELDSIZE, VLong (to_long (Z.of_nat (length data)))); (POSTFIELDS, VStr data)]
       end) ++ [(WRITEDATA, VLocal); (HEADERDATA, VClient i)]
  end.

Lemma call_opts_fits i c k : Forall (fits i c) (call_opts i k).
Proof. destruct k as [|[]]; by repeat constructor. Qed.

Lemma do_call_eq k i url to v :
  do_call k i url to v = (_common i url to v;; check_opts i (call_opts i k);; run i).
Proof. by destruct k. Qed.

Lemma call_good k i url to v w :
  Inv t w → is_Some (clients w !! i) →
  let out := do_call k i url to v w in
  Inv t out.1 ∧ is_Some (clients out.1 !! i) ∧ (sound w i → not_ub out.2).
Proof.
  intros Hw Hi. rewrite do_call_eq. apply request_good; [|by destruct k as [|[]]..|done|done]. intros c. apply call_opts_fits.
Qed.

Lemma add_header_safe i hdr : safe i (add_header i hdr).
Proof.
  unfold add_header. destruct hdr as [hdr|]; [|apply safe_bind; [apply safe_has_curl|]; intros _; by apply safe_throw].
  apply safe_with_curl. intros w c h f Hw Hc Hh Hf Hfits. destruct (inv_client _ _ Hw _ _ Hc) as (_ & _ & Hl).
  munfold_goal. destruct (_headers c) as [l|] eqn:E.
  - destruct (Hl l eq_refl) as [hs Ehs]. rewrite Ehs. destruct (append_fails _ _); simpl.
    + by split_and!; eauto.
    + split_and!; simpl; eauto using inv_set_list.
  - destruct (append_fails _ _); simpl; [by split_and!; eauto|].
    unfold upd_client, with_client, put_client, fresh_id; simpl. rewrite Hc; simpl.
    split_and!; simpl; [|rewrite lookup_insert_eq; eauto|done].
    by apply (inv_new_list t w).
Qed.

Lemma reset_safe i : safe i (reset i).
Proof.
  apply safe_with_curl. intros w c h f Hw Hc Hh Hf _. rewrite Hh.
  split_and!; simpl; [|by eauto|done]. by eapply inv_set_handle.
Qed.

Lemma clear_safe i : safe i (reset i;; reset_hdrs i).
Proof.
  intros w Hw [c Hc]. pose proof (reset_safe i w Hw ltac:(eauto)) as Hr. unfold mbind, M_bind.
  assert (∃ r, reset i w = (set_handles (λ m, match _curl c with Some h => <[h := []]> m | None => m end) w, r) ∧
    (r = Ok () → is_Some (_curl c))) as (r & Er & Hs).
  { unfold reset, has_curl, with_client. munfold_goal. rewrite Hc; simpl. rewrite Hc. destruct (_curl c); simpl; eauto.
    eexists. split; [by destruct w|done]. }
  rewrite Er in *. destruct Hr as (Hw' & Hi' & Hr). destruct r as [[]|e]; [|done]. destruct (Hs eq_refl) as [h Hh]. rewrite Hh in *.
  unfold reset_hdrs, with_client; simpl. rewrite Hc. munfold_goal.
  split_and!; simpl; [|rewrite lookup_insert_eq; eauto|done].
  eapply inv_same; [..|eapply (inv_drop_headers t _ i c Hw')]; simpl; try done.
  intros _ h' Hh'. assert (h' = h) as -> by congruence. by rewrite lookup_insert_eq.
Qed.

Lemma set_hdr_cb_safe i cb : safe i (setHdrCb i cb).
Proof.
  apply safe_with_curl. intros w c h f Hw Hc Hh Hf _.
  split_and!; simpl; [by eapply inv_put_client|rewrite lookup_insert_eq; eauto|done].
Qed.

Lemma minimum_bandwidth_safe i p b : safe i (minimumBandwidth i p b).
Proof.
  apply safe_bind; [apply safe_has_curl|]. intros _. apply safe_bind; [by apply safe_throw_if|]. intros _.
  apply safe_upd. by destruct (_ || _).
Qed.

Lemma error_view_safe i : safe i (error_view i).
Proof. apply safe_with_curl. intros. by split_and!; eauto. Qed.

Lemma destroy_good i c w :
  Inv t w → clients w !! i = Some c → Inv t (destroy i w).1 ∧ (destroy i w).2 = Ok ().
Proof.
  intros Hw Hc. unfold destroy, with_client. rewrite Hc. munfold_goal. split; [|done].
  eapply inv_same; [..|by apply (inv_destroy t w i c)]; done.
Qed.

Lemma make_client_good i init verbose w :
  Inv t w → clients w !! i = None →
  Inv t (make_client i init verbose w).1 ∧ not_ub (make_client i init verbose w).2.
Proof.
  intros Hw Hc. unfold make_client. destruct init; [|done].
  set (l := _ ++ _). assert (Hl : ∀ c, Forall (fits i c) l)
    by (intros c; subst l; by destruct verbose; repeat constructor).
  clearbody l. munfold_goal. unfold or_destroy. set (w1 := set_clients _ _).
  assert (Hw1 : Inv t w1) by (by eapply inv_same; [..|apply (inv_new_client t w i _ Hw Hc eq_refl)]).
  assert (Hc1 : clients w1 !! i = Some (MkClient [] (Some (next_id w)) None None 10 10000))
    by (simpl; by rewrite lookup_insert_eq).
  destruct (check_opts_good i _ (next_id w) l w1 Hw1 Hc1 eq_refl (λ _, Hl _)) as (Hw2 & [c2 Hc2] & Hr).
  destruct (check_opts i l w1) as [w2 [[]|e]]; simpl in *; [done|].
  destruct (destroy_good i c2 w2 Hw2 Hc2) as [Hw3 Er].
  munfold_goal. destruct (destroy i w2) as [w3 r3]; simpl in *. by subst.
Qed.
End operations.

(** The operations that are not tidy. *)
Lemma reset_hdrs_good i c w :
  Inv false w → clients w !! i = Some c → Inv false (reset_hdrs i w).1 ∧ (reset_hdrs i w).2 = Ok ().
Proof.
  intros Hw Hc. unfold reset_hdrs, with_client. rewrite Hc. munfold_goal. split; [|done].
  eapply inv_same; [..|eapply (inv_drop_headers false w i c Hw Hc)]; done.
Qed.
Lemma assign_good i j tc oc w :
  Inv false w → i ≠ j → clients w !! i = Some tc → clients w !! j = Some oc →
  Inv false (_assign i j w).1 ∧ (_assign i j w).2 = Ok ().
Proof.
  intros Hw Hij Hi Hj. unfold _assign, upd_client, with_client, put_client, free_handle, free_list. munfold_goal.
  rewrite Hj, Hi. simpl. rewrite lookup_insert_eq. unfold setopt.
  destruct (inv_client _ _ Hw _ _ Hi) as (_ & Hf & _).
  assert (Hgo : ∀ m : gmap nat options, (m = handles w ∨ ∃ h f, _curl tc = Some h ∧ is_Some (handles w !! h) ∧ m = <[h := f]> (handles w)) →
    Inv false (World (<[j := MkClient [] None None None (_bw_period oc) (_bw_speed oc)]>
      (<[i := MkClient (_error oc) (_curl oc) (_headers oc) (_cbs oc) (_bw_period tc) (_bw_speed tc)]>
      (<[j := set_error [] oc]> (<[i := set_error (_error oc) tc]> (clients w)))))
      (without (_curl tc) m) (without (_headers tc) (lists w)) (sent w) (seen w) (next_id w))).
  { intros m Hm.
    assert (without (_curl tc) m = without (_curl tc) (handles w)) as ->.
    { destruct Hm as [->|(h & f & -> & _ & ->)]; [done|]. simpl. by rewrite delete_insert_eq. }
    eapply inv_same; [..|eapply (inv_take w i j tc oc
      (MkClient (_error oc) (_curl oc) (_headers oc) (_cbs oc) (_bw_period tc) (_bw_speed tc))
      (MkClient [] None None None (_bw_period oc) (_bw_speed oc)) Hw Hij Hi Hj)];
      simpl; try done.
    apply map_eq. intros k. destruct (decide (k = j)) as [->|]; [by rewrite !lookup_insert_eq|].
    rewrite !(lookup_insert_ne _ j) by done. destruct (decide (k = i)) as [->|]; [by rewrite !lookup_insert_eq|].
    by rewrite !lookup_insert_ne by done. }
  destruct (_curl tc) as [h|] eqn:Hh; simpl.
  - destruct (Hf h eq_refl) as (f & Ef & _). rewrite Hh, Ef. destruct (refused _ _); simpl;
      rewrite lookup_insert_ne, Hj by done; simpl; (split; [|done]); [apply (Hgo (handles w))|eapply Hgo]; eauto 6.
  - rewrite Hh; simpl; rewrite lookup_insert_ne, Hj by done. simpl. split; [|done]. apply (Hgo (handles w)). by left.
Qed.

Lemma move_construct_good i j oc w :
  Inv false w → clients w !! i = None → clients w !! j = Some oc →
  Inv false (move_construct i j w).1 ∧ (move_construct i j w).2 = Ok ().
Proof.
  intros Hw Hi Hj. unfold move_construct, put_client. munfold_goal.
  apply (assign_good i j fresh_client oc); simpl; [by apply inv_bare_client|congruence|by rewrite lookup_insert_eq|].
  rewrite lookup_insert_ne by congruence. done.
Qed.

(** Soundness of a client's handle can be decided. *)
Lemma not_sound_dec w i : ¬ sound w i ∨ sound w i.
Proof.
  destruct (clients w !! i) as [c|] eqn:Ec; [|right; intros c h f; congruence].
  destruct (_curl c) as [h|] eqn:Eh; [|right; intros c' h f; congruence].
  destruct (handles w !! h) as [f|] eqn:Ef; [|right; intros c' h' f; congruence].
  assert (sound_options w c f ↔ sound w i) as Hiff.
  { split; [intros H c' h' f' ? ? ?; by simplify_eq|]. intros H. by eapply H. }
  rewrite <-Hiff. unfold sound_options.
  assert (Decision (_headers c = None → ∀ l, last_set HTTPHEADER f ≠ Some (VList l))) as [H1|H1].
  { destruct (_headers c); [by left|]. destruct (last_set HTTPHEADER f) as [[]|]; first [by left; naive_solver|right; naive_solver]. }
  - assert (Decision (∀ j, last_set ERRORBUFFER f = Some (VClient j) → is_Some (clients w !! j))) as [H2|H2].
    { destruct (last_set ERRORBUFFER f) as [[| | |j| | |]|]; try (left; naive_solver).
      destruct (clients w !! j) eqn:Ej; [left; naive_solver|right]. intros H. destruct (H j eq_refl). congruence. }
    + by right.
    + left. tauto.
  - left. tauto.
Qed.

(** After tidy operations every request is sound. *)
Lemma tidy_sound w i : Inv true w → sound w i.
Proof.
  intros Hw c h f Hc Hh Hf. destruct (inv_client _ _ Hw _ _ Hc) as (_ & Hfits & _).
  destruct (Hfits h Hh) as (f' & ? & Hfit). simplify_eq. specialize (Hfit eq_refl). split.
  - intros Hn l E. pose proof (last_set_fits _ _ _ _ _ Hfit E) as Hl. simpl in Hl. congruence.
  - intros j E. pose proof (last_set_fits _ _ _ _ _ Hfit E) as Hl. simpl in Hl. subst j. eauto.
Qed.

(** Every operation keeps the invariant, and only a request that is not sound is undefined. *)
Lemma do_op_good t o w :
  Inv t w → enabled w o = true → (t = true → tidy o) →
  Inv t (do_op o w).1 ∧ (not_ub (do_op o w).2 ∨ is_request o = true ∧ ¬ sound w (op_client o) ∧ t = false).
Proof.
  intros Hw He Ht.
  assert (Hsafe : ∀ A (m : M world A), safe t (op_client o) m → is_Some (clients w !! op_client o) →
    Inv t ((m;; mret ()) w).1 ∧ not_ub ((m;; mret ()) w).2).
  { intros A m Hm Hi. destruct (safe_bind t _ _ _ Hm (λ _, safe_ret t _ ()) w Hw Hi) as (? & _ & ?). done. }
  assert (Hunit : ∀ m : M world (), safe t (op_client o) m → is_Some (clients w !! op_client o) →
    Inv t (m w).1 ∧ not_ub (m w).2).
  { intros m Hm Hi. destruct (Hm w Hw Hi) as (? & _ & ?). done. }
  assert (Hreq : ∀ k i url to v, is_Some (clients w !! i) →
    let out := (do_call k i url to v;; mret ()) w in Inv t out.1 ∧ (not_ub out.2 ∨ ¬ sound w i ∧ t = false)).
  { intros k i url to v Hi. destruct (call_good t k i url to v w Hw Hi) as (Hw' & _ & Hub). unfold mbind, M_bind.
    assert (¬ sound w i ∨ sound w i) as [Hs|Hs] by (destruct t; [right; by apply tidy_sound|apply not_sound_dec]).
    - assert (t = false) as -> by (destruct t; [by destruct (Hs (tidy_sound w i Hw))|done]).
      destruct (do_call k i url to v w) as [w' [r|e]]; simpl in *; auto.
    - specialize (Hub Hs). destruct (do_call k i url to v w) as [w' [r|e]]; simpl in *; auto. }
  destruct o; simpl in *; apply bool_decide_eq_true in He;
    try (destruct (Hreq Get i url timeout verify He) as [? [?|[? ?]]]; by auto);
    try (destruct (Hreq (Post data) i url timeout verify He) as [? [?|[? ?]]]; by auto).
  - destruct (make_client_good t i init verbose w Hw He). auto.
  - destruct He as [c Hc]. destruct (destroy_good t i c w Hw Hc) as [? ->]. split; [done|by left].
  - destruct (Hsafe _ _ (add_header_safe t i hdr) He). auto.
  - destruct (Hsafe _ _ (error_view_safe t i) He). auto.
  - destruct (Hunit _ (reset_safe t i) He). auto.
  - destruct t; [by destruct (Ht eq_refl)|]. destruct He as [c Hc]. destruct (reset_hdrs_good i c w Hw Hc) as [? ->]. split; [done|by left].
  - destruct (Hunit _ (clear_safe t i) He). auto.
  - destruct t; [by destruct (Ht eq_refl)|]. destruct He as [Hi [oc Hj]].
    destruct (move_construct_good i other oc w Hw Hi Hj) as [? ->]. split; [done|by left].
  - destruct t; [by destruct (Ht eq_refl)|]. destruct He as [[tc Hi] [oc Hj]]. unfold move_assign. case_decide; [split; [done|by left]|].
    destruct (assign_good i other tc oc w) as [? ->]; [done..|]. split; [done|by left].
  - destruct (Hsafe _ _ (set_hdr_cb_safe t i cb) He). auto.
  - destruct (Hunit _ (minimum_bandwidth_safe t i period bandwidth) He). auto.
Qed.

Lemma exec_good t l w :
  Inv t w → (t = true → Forall tidy l) → Inv t (exec l w).1 ∧ (t = true → Forall not_ub (exec l w).2).
Proof.
  revert w. induction l as [|o l IH]; intros w Hw Ht; simpl; [done|].
  assert (t = true → tidy o ∧ Forall tidy l) as Ht' by (intros E; by apply list.Forall_cons, Ht).
  destruct (enabled w o) eqn:He; [|apply IH; naive_solver].
  destruct (do_op_good t o w Hw He) as [Hw1 Hr]; [naive_solver|]. destruct (do_op o w) as [w1 r]; simpl in *.
  destruct (IH w1 Hw1) as [Hw2 Hrs]; [naive_solver|]. destruct (exec l w1) as [w2 rs]; simpl in *. split; [done|].
  intros E. constructor; [naive_solver|auto].
Qed.


(** ** What a request sends and returns *)

Lemma receive_body_concat l s : (receive_body l s).1 = s ++ concat l.
Proof.
  revert s. induction l as [|c l IH]; intros s; simpl; [by rewrite app_nil_r|].
  munfold_goal. rewrite IH. by rewrite <-(assoc_L (++)).
Qed.

Section accepted.
Context (accepted : ∀ o v, refused o v = false).

Lemma check_opts_accepted i l w c h f :
  clients w !! i = Some c → _curl c = Some h → handles w !! h = Some f →
  check_opts i l w = (set_handles <[h := rev l ++ f]> w, Ok ()).
Proof using accepted.
  intros. destruct (check_opts_cases i l w c h f) as (l' & r & _ & -> & [[-> ->]|[_ (o & v & _ & E)]]); try done.
  by rewrite accepted in E.
Qed.

(** Up to the transfer a request only sets options and clears the error. *)
Lemma request_prepares i c h f url t v l w :
  clients w !! i = Some c → _curl c = Some h → handles w !! h = Some f →
  (_common i (Some url) t v;; check_opts i l;; run i) w =
  run i (World (<[i := set_error [] c]> (clients w))
           (<[h := rev l ++ rev (common_opts c url t v) ++ f]> (handles w))
           (lists w) (sent w) (seen w) (next_id w)).
Proof using accepted.
  intros Hc Hh Hf. unfold _common, has_curl, with_client, upd_client, put_client, with_client.
  munfold_goal. rewrite Hc; simpl. rewrite Hh; simpl. rewrite Hc; simpl.
  rewrite lookup_insert_eq.
  rewrite (check_opts_accepted i _ _ (set_error [] c) h f); simpl; [|by rewrite lookup_insert_eq|done|done].
  rewrite (check_opts_accepted i l _ (set_error [] c) h (rev (common_opts c url t v) ++ f)); simpl;
    [|by rewrite lookup_insert_eq|done|by rewrite lookup_insert_eq].
  f_equal. unfold set_handles; simpl. by rewrite insert_insert_eq.
Qed.
End accepted.

(** The transfer itself. *)
Lemma run_result i c h f hs w :
  clients w !! i = Some c → _curl c = Some h → handles w !! h = Some f →
  header_lines f w = (w, Ok hs) → last_set HEADERDATA f = Some (VClient i) →
  (∀ j, last_set ERRORBUFFER f = Some (VClient j) → is_Some (clients w !! j)) →
  let t := perform (sent w) (f, hs) in
  let '(w', r) := run i w in
  sent w' = sent w ++ [(f, hs)] ∧ handles w' = handles w ∧
  match t_end t with
  | inl code => r = Ok (to_i32 code, concat (t_chunks t))
  | inr msg => r = Throw (NstlException " failed: ") ∧
      (last_set ERRORBUFFER f = Some (VClient i) → error_view i w' = (w', Ok (cut_nul msg)))
  end.
Proof.
  intros Hc Hh Hf Ehs Hdat Hbuf t.
  unfold run, handle_options. unfold with_client at 1. munfold_goal. rewrite Hc, Hh; simpl. rewrite Hf, Ehs.
  destruct (deliver_seen f (t_lines t) (add_sent (f, hs) w)) as (s & r & Es & Hr).
  assert (r = Ok ()) as -> by (apply Hr; rewrite Hdat; intros j [= <-]; simpl; eauto).
  fold t. rewrite Es, receive_body_concat. destruct (t_end t) as [code|msg]; [done|].
  unfold report. destruct (last_set ERRORBUFFER f) as [[| | |j| | |]|] eqn:E; try done.
  destruct (Hbuf j eq_refl) as [d Hd].
  unfold upd_client, with_client at 1; simpl. rewrite Hd; simpl. split_and!; try done. intros [= ->]. simplify_eq.
  unfold error_view, has_curl, with_client. munfold_goal. rewrite lookup_insert_eq; simpl.
  rewrite Hh; simpl. by rewrite lookup_insert_eq.
Qed.

(** The options a client's request must carry when its handle had the options [f] before. *)
Definition carries (k : call) (c : Client) (url : str) (t : Z) (v : bool) (f f' : options) : Prop :=
  last_set URL f' = Some (VStr url) ∧
  last_set SSL_VERIFYPEER f' = Some (VLong (if v then 1 else 0)) ∧
  last_set LOW_SPEED_TIME f' = Some (VLong (_bw_period c)) ∧
  last_set LOW_SPEED_LIMIT f' = Some (VLong (_bw_speed c)) ∧
  last_set FOLLOWLOCATION f' = Some (VLong 1) ∧ last_set MAXREDIRS f' = Some (VLong 10) ∧
  last_set TIMEOUT_MS f' = (if (0 <? t)%Z then Some (VLong (to_long t)) else last_set TIMEOUT_MS f) ∧
  last_set CONNECTTIMEOUT_MS f' = (if (0 <? t)%Z then Some (VLong (to_long t)) else last_set CONNECTTIMEOUT_MS f) ∧
  last_set ERRORBUFFER f' = last_set ERRORBUFFER f ∧
  match k with
  | Get => request_method f' = Some HTTPGET
  | Post data => request_method f' = Some POST ∧
      last_set POSTFIELDSIZE f' = Some (VLong (if decide (data = []) then 0 else to_long (Z.of_nat (length data)))) ∧
      last_set POSTFIELDS f' = Some (if decide (data = []) then VNull else VStr data)
  end.

Lemma call_carries i k c url t v f :
  carries k c url t v f (rev (call_opts i k) ++ rev (common_opts c url t v) ++ f).
Proof.
  unfold carries, common_opts.
  destruct k as [|[|]], (0 <? t)%Z, keepcnt, (_headers c); simpl; by split_and!.
Qed.

Lemma call_headers i k c url t v f w :
  (_headers c = None → ∀ l, last_set HTTPHEADER f ≠ Some (VList l)) →
  (∀ l, _headers c = Some l → is_Some (lists w !! l)) →
  header_lines (rev (call_opts i k) ++ rev (common_opts c url t v) ++ f) w =
  (w, Ok (_headers c ≫= λ l, lists w !! l)).
Proof.
  intros Hf Hl. unfold header_lines. rewrite last_set_app.
  assert (last_set HTTPHEADER (rev (call_opts i k)) = None) as -> by (by destruct k as [|[|]]).
  rewrite common_header_list. destruct (_headers c) as [l|] eqn:E; simpl.
  - destruct (Hl l eq_refl) as [hs ->]. done.
  - specialize (Hf eq_refl). destruct (last_set HTTPHEADER f) as [[]|]; try done. by destruct (Hf l).
Qed.

(** C37: when libcurl accepts the options, GET and POST send exactly one request,
    whose options are the URL, method, body, time-outs (those of an earlier call
    when the argument is not positive), bandwidth limits and certificate check of
    this call and whose headers are the ones added so far; the result is the
    status code with the whole body, or an exception after which [error_view]
    shows libcurl's message while the handle knows the client's buffer.  This holds after any
    history of tidy operations, and after any history at all while the handle is sound. *)
Theorem request_correct (l : list op) w rs i c h f k url t v :
  (∀ o x, refused o x = false) → exec l empty_world = (w, rs) → Forall tidy l ∨ sound w i →
  clients w !! i = Some c → _curl c = Some h → handles w !! h = Some f →
  let '(w', r) := do_call k i (Some url) t v w in
  ∃ f', let hs := _headers c ≫= λ hl, lists w !! hl in
    let t' := perform (sent w) (f', hs) in
    sent w' = sent w ++ [(f', hs)] ∧ carries k c url t v f f' ∧
    match t_end t' with
    | inl code => r = Ok (to_i32 code, concat (t_chunks t'))
    | inr msg => r = Throw (NstlException " failed: ") ∧
        (last_set ERRORBUFFER f = Some (VClient i) → error_view i w' = (w', Ok (cut_nul msg)))
    end.
Proof.
  intros Hacc Hrun Hsound Hc Hh Hf. destruct (exec_good false l _ (inv_empty false) ltac:(done)) as [Hw _].
  assert (sound w i) as Hs.
  { destruct Hsound as [Ht|?]; [|done]. destruct (exec_good true l _ (inv_empty true) (λ _, Ht)) as [Hwt _].
    rewrite Hrun in Hwt. by apply tidy_sound. }
  rewrite Hrun in Hw; simpl in Hw. destruct (Hs c h f Hc Hh Hf) as [Sh Se].
  destruct (inv_client _ _ Hw _ _ Hc) as (_ & _ & Hl).
  rewrite do_call_eq, (request_prepares Hacc i c h f) by done.
  set (f' := rev _ ++ _). set (w1 := World _ _ _ _ _ _).
  assert (last_set ERRORBUFFER f' = last_set ERRORBUFFER f) as Herr.
  { pose proof (call_carries i k c url t v f) as Hcar. unfold carries in Hcar. destruct_and! Hcar. done. }
  pose proof (run_result i (set_error [] c) h f' (_headers c ≫= λ hl, lists w !! hl) w1) as Hrun'.
  simpl in Hrun'. rewrite !lookup_insert_eq in Hrun'.
  destruct (run i w1) as [w' r]. exists f'. destruct Hrun' as (Hsent & _ & Hr); [done|done|done| | | |].
  - exact (call_headers i k c url t v f w1 Sh Hl).
  - by destruct k as [|[|]].
  - rewrite Herr. intros j E. simpl. apply lookup_insert_is_Some'. right. by apply Se.
  - split_and!; [done|apply call_carries|]. destruct (t_end _); [done|]. destruct Hr as [-> He]. split; [done|].
    intros HE. apply He. congruence.
Qed.

(** ** Moved clients *)

(** A failing request of an object [j] whose handle still names object [i]. *)
Lemma foreign_error_buffer i j c h f url t v msg w :
  (∀ o x, refused o x = false) → (∀ s r, t_end (perform s r) = inr msg) →
  clients w !! j = Some c → _curl c = Some h → handles w !! h = Some f →
  (_headers c = None → ∀ l, last_set HTTPHEADER f ≠ Some (VList l)) → (∀ l, _headers c = Some l → is_Some (lists w !! l)) →
  last_set ERRORBUFFER f = Some (VClient i) → i ≠ j →
  ∃ w', clients w' !! j = Some (set_error [] c) ∧
    get j (Some url) t v w =
      (w', Throw (match clients w !! i with
                  | Some _ => NstlException " failed: "
                  | None => UndefinedBehaviour "no such client"
                  end)).
Proof.
  intros Hacc Hfail Hc Hh Hf Hfits Hl Herr Hij.
  change (get j) with (do_call Get j). rewrite do_call_eq, (request_prepares Hacc j c h f) by done.
  set (f' := rev _ ++ _). set (w1 := World _ _ _ _ _ _).
  unfold run, handle_options. unfold with_client at 1. munfold_goal.
  rewrite !lookup_insert_eq; simpl. rewrite Hh; simpl. rewrite lookup_insert_eq.
  pose proof (call_headers j Get c url t v f w1 Hfits Hl) as Ehs. fold f' in Ehs. rewrite Ehs.
  pose proof (call_carries j Get c url t v f) as Hcar. fold f' in Hcar.
  assert (Herr' : last_set ERRORBUFFER f' = Some (VClient i)) by (unfold carries in Hcar; destruct_and! Hcar; congruence).
  assert (Hdat : last_set HEADERDATA f' = Some (VClient j)) by done.
  unfold deliver. rewrite Hdat. unfold with_client at 1; simpl. rewrite lookup_insert_eq.
  set (lines := t_lines _). destruct (receive_lines_seen (_cbs (set_error [] c)) lines
    (add_sent (f', _headers c ≫= λ l, lists w !! l) w1)) as [s ->].
  rewrite Hfail. unfold report. rewrite Herr'. unfold upd_client, with_client; simpl.
  rewrite lookup_insert_ne by done. destruct (clients w !! i) as [d|].
  all: eexists; split; [|reflexivity]; simpl.
  - by rewrite lookup_insert_ne, lookup_insert_eq.
  - by rewrite lookup_insert_eq.
Qed.

(** What a move leaves in the two objects. *)
Definition moved (c : Client) : Client := MkClient (_error c) (_curl c) (_headers c) (_cbs c) 10 10000.
Definition emptied (c : Client) : Client := MkClient [] None None None (_bw_period c) (_bw_speed c).
Lemma move_construct_state i j c w :
  i ≠ j → clients w !! i = Some c →
  ∃ w1, move_construct j i w = (w1, Ok ()) ∧ clients w1 !! j = Some (moved c) ∧
    clients w1 !! i = Some (emptied c) ∧ handles w1 = handles w ∧ lists w1 = lists w.
Proof.
  intros Hij Hc.
  unfold move_construct, _assign, upd_client, with_client, put_client, free_handle, free_list.
  munfold_goal. rewrite lookup_insert_ne, Hc by done. simpl.
  rewrite !lookup_insert_eq. simpl. rewrite !lookup_insert_eq. simpl.
  rewrite !lookup_insert_ne, Hc by done. simpl. eexists. split; [reflexivity|]; simpl.
  rewrite lookup_insert_ne, !lookup_insert_eq by done. done.
Qed.

(** A moved client loses its error messages: the handle keeps naming the
    error buffer of the object it was moved from, because [_assign] registers the
    new buffer before it takes the handle over.  A failing request of the new
    object leaves its [error_view] empty, and once the old object is gone the
    message is written to a buffer that no longer exists. *)
Theorem moved_client_error_lost (l : list op) w rs i j c h f url t v msg :
  (∀ o x, refused o x = false) → (∀ s r, t_end (perform s r) = inr msg) →
  exec l empty_world = (w, rs) → Forall tidy l →
  clients w !! i = Some c → _curl c = Some h → handles w !! h = Some f →
  last_set ERRORBUFFER f = Some (VClient i) → clients w !! j = None →
  let '(w1, _) := move_construct j i w in
  (let '(w2, r) := get j (Some url) t v w1 in
   r = Throw (NstlException " failed: ") ∧ (error_view j w2).2 = Ok []) ∧
  (let '(w2, _) := destroy i w1 in
   (get j (Some url) t v w2).2 = Throw (UndefinedBehaviour "no such client")).
Proof.
  intros Hacc Hfail Hrun Htidy Hc Hh Hf Herr Hj.
  destruct (exec_good true l _ (inv_empty true) (λ _, Htidy)) as [Hw _]. rewrite Hrun in Hw; simpl in Hw.
  destruct (inv_client _ _ Hw _ _ Hc) as (_ & _ & Hl).
  destruct (tidy_sound w i Hw c h f Hc Hh Hf) as [Hfits _].
  assert (Hij : i ≠ j) by congruence.
  destruct (move_construct_state i j c w Hij Hc) as (w1 & Em & Hj1 & Hi1 & Eh & El). rewrite Em.
  assert (Hl1 : ∀ hl, _headers (moved c) = Some hl → is_Some (lists w1 !! hl)) by (by rewrite El).
  split.
  - destruct (foreign_error_buffer i j (moved c) h f url t v msg w1) as (w2 & Hj2 & ->); try done.
    { by rewrite Eh. }
    rewrite Hi1. split; [done|]. unfold error_view, has_curl, with_client. munfold_goal.
    rewrite Hj2; simpl. rewrite Hh; simpl. by rewrite Hj2.
  - unfold destroy at 1, with_client at 1. rewrite Hi1. munfold_goal.
    destruct (foreign_error_buffer i j (moved c) h f url t v msg
      (set_clients (delete i) (set_handles (λ m, m) (set_lists (λ m, m) w1)))) as (w2 & Hj2 & ->); try done; simpl.
    + by rewrite lookup_delete_ne.
    + by rewrite Eh.
    + by rewrite lookup_delete_eq.
Qed.
End http.

(** A client with one header, whose transfers bring a body in two pieces or fail. *)
Definition demo_ops : list op := [OMake 0 true false; OAddHeader 0 (Some (lit "X: 1"))].
Lemma demo_tidy : Forall tidy demo_ops.
Proof. by repeat constructor. Qed.
Definition never : copt → cval → bool := λ _ _, false.
Definition no_fail : option (list str) → str → bool := λ _ _, false.
Definition answers : list request → request → transfer :=
  λ _ _, Transfer [] [lit "he"; lit "llo"] (inl 200%Z).
Definition fails : list request → request → transfer :=
  λ _ _, Transfer [] [] (inr (lit "no route")).
Definition demo_client : Client := MkClient [] (Some 0) (Some 1) None 10 10000.
Definition demo_options : options := [(ERRORBUFFER, VClient 0); (NOSIGNAL, VLong 1)].

Lemma request_correct_witness :
  let w := (exec never no_fail answers true 64 demo_ops empty_world).1 in
  (get never answers true 64 0 (Some (lit "http://a")) 100 true w).2 = Ok (200%Z, lit "hello") ∧
  ∃ f', sent (get never answers true 64 0 (Some (lit "http://a")) 100 true w).1 = [(f', Some [lit "X: 1"])] ∧
    carries 64 Get demo_client (lit "http://a") 100 true demo_options f'.
Proof.
  intros w. split; [by vm_compute|].
  pose proof (request_correct never no_fail answers true 64 demo_ops w
    (exec never no_fail answers true 64 demo_ops empty_world).2 0 demo_client 0 demo_options Get
    (lit "http://a") 100 true (λ _ _, eq_refl) eq_refl (or_introl demo_tidy) eq_refl eq_refl eq_refl) as H.
  change (do_call never answers true 64 Get 0) with (get never answers true 64 0) in H.
  destruct (get never answers true 64 0 (Some (lit "http://a")) 100 true w) as [w' r].
  destruct H as (f' & Hs & Hcar & _). exists f'. split; [exact Hs|exact Hcar].
Defined.

Lemma moved_client_error_lost_witness :
  let w := (exec never no_fail fails true 64 demo_ops empty_world).1 in
  let w1 := (move_construct never 1 0 w).1 in
  (error_view 1 (get never fails true 64 1 (Some (lit "http://a")) 0 true w1).1).2 = Ok [].
Proof.
  intros w w1.
  pose proof (moved_client_error_lost never no_fail fails true 64 demo_ops w
    (exec never no_fail fails true 64 demo_ops empty_world).2 0 1 demo_client 0 demo_options
    (lit "http://a") 0 true (lit "no route") (λ _ _, eq_refl) (λ _ _, eq_refl)
    eq_refl demo_tidy eq_refl eq_refl eq_refl eq_refl eq_refl) as H.
  subst w1. destruct (move_construct never 1 0 w) as [w1 r1]. destruct H as [H _]. cbn [fst].
  destruct (get never fails true 64 1 (Some (lit "http://a")) 0 true w1) as [w2 r2]. exact (proj2 H).
Defined.

(** Dropping the headers alone leaves the handle with the freed list: the next
    request reads it. *)
Lemma reset_hdrs_dangling :
  let w := (exec never no_fail answers true 64 (demo_ops ++ [OGet 0 (Some (lit "http://a")) 0 true]) empty_world).1 in
  (get never answers true 64 0 (Some (lit "http://a")) 0 true (reset_hdrs 0 w).1).2 =
  Throw (UndefinedBehaviour "header list was freed").
Proof. by vm_compute. Qed.

(** Where [long] has 32 bits, the size of a body of 2 GiB is handed over as a negative number. *)
Lemma post_size_wraps : to_long 32 (2 ^ 31) = (- 2 ^ 31)%Z ∧ to_long 64 (2 ^ 31) = (2 ^ 31)%Z.
Proof. by vm_compute. Qed.

(** [reset] forgets the options of the constructor too: the message of a transfer that
    fails afterwards is lost, and libcurl may use signals again. *)
Lemma reset_forgets_options :
  let w := (exec never no_fail fails true 64 demo_ops empty_world).1 in
  let failing w := (get never fails true 64 0 (Some (lit "http://a")) 0 true w).1 in
  (error_view 0 (failing w)).2 = Ok (lit "no route") ∧
  (error_view 0 (failing (reset 0 w).1)).2 = Ok [] ∧
  (λ r : request, last_set NOSIGNAL r.1) <$> sent (failing w) = [Some (VLong 1)] ∧
  (λ r : request, last_set NOSIGNAL r.1) <$> sent (failing (reset 0 w).1) = [None].
Proof. by vm_compute. Qed.
End Http.
