(* ===== verification/Signals.v ===== *)
(** * Signals: global_init.cpp, signal_barrier_common.cpp, signal_barrier.cpp,
    signal_barrier_linux.cpp

    [SigVal] models the signal values and their conversions, [GlobalInit] the
    once-only initialisation that opens the signal descriptor, [Polling] the
    barrier of macOS and Windows that polls an atomic set by handlers, [Epoll] the
    barrier of Linux that waits for the signal descriptor and a timer. *)

From S2P Require Import Prelude Raii.

(** ** Signal values *)

Module SigVal.
Inductive SigVal := Unknown | SigInt | SigTerm | SigQuit | SigLogoff | SigShutdown.
#[export] Instance SigVal_eq_dec : EqDecision SigVal.
Proof. solve_decision. Defined.

Definition SIGINT : Z := 2.
Definition SIGQUIT : Z := 3.
Definition SIGTERM : Z := 15.

Definition to_signal_conv (v : SigVal) : Z :=
  match v with
  | Unknown => -1 | SigInt => 2 | SigTerm => 15 | SigQuit => 3 | SigLogoff => 12 | SigShutdown => 13
  end.

(** [quit] is whether the platform has [SIGQUIT]. *)
Definition from_signal_conv (quit : bool) (value : Z) : res SigVal :=
  if (value =? SIGINT)%Z then Ok SigInt
  else if (value =? SIGTERM)%Z then Ok SigTerm
  else if quit && (value =? SIGQUIT)%Z then Ok SigQuit
  else Throw (NstlException " signal cannot be converted to SigVal").

Definition print (v : SigVal) : str :=
  match v with
  | SigInt => lit "SIGINT" | SigTerm => lit "SIGTERM" | SigQuit => lit "SIGQUIT"
  | SigLogoff => lit "SIGLOGOFF" | SigShutdown => lit "SIGSHUTDOWN" | Unknown => lit "Unknown"
  end.

(** The three signals the barriers are woken by. *)
Definition barrier_signal (z : Z) : bool := (z =? SIGINT)%Z || (z =? SIGTERM)%Z || (z =? SIGQUIT)%Z.

Lemma from_signal_conv_inv z v : from_signal_conv true z = Ok v → to_signal_conv v = z.
Proof.
  unfold from_signal_conv, SIGINT, SIGTERM, SIGQUIT; simpl. case_bool; intros [= <-]; simpl; lia.
Qed.
Lemma barrier_signal_conv z : barrier_signal z = true → ∃ v, from_signal_conv true z = Ok v.
Proof.
  unfold barrier_signal, from_signal_conv, SIGINT, SIGTERM, SIGQUIT; simpl. case_bool; eauto; done.
Qed.
End SigVal.

(** ** global_init *)

Module GlobalInit.

(** The system the library is compiled for. *)
Inductive platform := Linux | MacOS | Windows.
#[export] Instance platform_eq_dec : EqDecision platform.
Proof. solve_decision. Defined.

(** The globals of the file, the open descriptors, and the uses of libcurl and Winsock. *)
Record process := Process {
  init_done : bool;
  sfd_global : Z;
  opened : gset Z;
  curl_uses : nat;
  wsa_uses : nat;
}.
Definition set_done (b : bool) (p : process) : process :=
  Process b (sfd_global p) (opened p) (curl_uses p) (wsa_uses p).
Definition set_sfd (fd : Z) (p : process) : process :=
  Process (init_done p) fd (opened p) (curl_uses p) (wsa_uses p).
Definition set_open (f : gset Z → gset Z) (p : process) : process :=
  Process (init_done p) (sfd_global p) (f (opened p)) (curl_uses p) (wsa_uses p).
Definition set_curl (f : nat → nat) (p : process) : process :=
  Process (init_done p) (sfd_global p) (opened p) (f (curl_uses p)) (wsa_uses p).
Definition set_wsa (f : nat → nat) (p : process) : process :=
  Process (init_done p) (sfd_global p) (opened p) (curl_uses p) (f (wsa_uses p)).
Definition invalid_file_handle : Z := -1.
Definition fresh_process : process := Process false invalid_file_handle ∅ 0 0.

(** What the system answers to one construction. *)
Record answers := Answers {
  sigprocmask_ok : bool;
  signalfd : Z;              (** a new descriptor, or negative *)
  curl_ok : bool;
  wsa_ok : bool;
}.

Section global_init.
Context (os : platform).

Definition openSignalFile (ans : answers) (signal_init : bool) : M process Z :=
  if decide (os = Linux) then
    if negb signal_init then mret invalid_file_handle
    else
      mthrow_if (negb (sigprocmask_ok ans)) (NstlException "sigprocmask failed");;
      mthrow_if (signalfd ans <? 0)%Z (NstlException "signalfd failed");;
      mmodify (set_open (λ fds, {[signalfd ans]} ∪ fds));;
      mret (signalfd ans)
  else mret invalid_file_handle.

Definition getSignalFile (p : process) : Z := sfd_global p.

(** The constructor; the object is its [_curl_init]. *)
Definition global_init (ans : answers) (signal_init curl_init : bool) : M process bool :=
  p ← mget;
  mmodify (set_done true);;
  mthrow_if (init_done p) (NstlException "global_init did run once");;
  sfd ← openSignalFile ans signal_init;
  mmodify (set_sfd sfd);;
  (if curl_init then
     mthrow_if (negb (curl_ok ans)) (NstlException "curl_global_init failed: ");;
     mmodify (set_curl S)
   else if decide (os = Windows) then
     mthrow_if (negb (wsa_ok ans)) (NstlException "TCP/IP init failed");;
     mmodify (set_wsa S)
   else mret ());;
  mret curl_init.

Definition destroy (curl_init : bool) (p : process) : process :=
  let p := if curl_init then set_curl pred p else if decide (os = Windows) then set_wsa pred p else p in
  if decide (os = Linux) then
    let sfd := sfd_global p in
    let p := set_sfd invalid_file_handle p in
    if (0 <=? sfd)%Z then set_open (λ fds, fds ∖ {[sfd]}) p else p
  else p.

(** A block that owns a [global_init]. *)
Definition with_global_init {A} (ans : answers) (signal_init curl_init : bool) (body : M process A)
    : M process A := λ p,
  match global_init ans signal_init curl_init p with
  | (p, Ok obj) => let '(p', r) := body p in (destroy obj p', r)
  | (p, Throw e) => (p, Throw e)
  end.

(** Attempts to construct one, each with the answers of the system, and the
    destruction of the object built, if any. *)
Inductive op := Construct (ans : answers) (signal_init curl_init : bool) | Destroy.
Fixpoint exec (l : list op) (obj : option bool) (p : process) : process * option bool * nat :=
  match l with
  | [] => (p, obj, 0)
  | Construct ans s c :: l =>
    match global_init ans s c p with
    | (p, Ok o) => let '(p, obj, n) := exec l (Some o) p in (p, obj, S n)
    | (p, Throw _) => exec l obj p
    end
  | Destroy :: l =>
    match obj with
    | Some o => exec l None (destroy o p)
    | None => exec l None p
    end
  end.

Lemma init_done_blocks ans s c p :
  init_done p = true → global_init ans s c p = (p, Throw (NstlException "global_init did run once")).
Proof. intros H. unfold global_init. munfold_goal. rewrite H. destruct p; simpl in *. by subst. Qed.

Lemma global_init_done ans s c p : init_done (global_init ans s c p).1 = true.
Proof.
  unfold global_init, openSignalFile. munfold_goal.
  destruct (init_done p), os, s, (sigprocmask_ok ans), (signalfd ans <? 0)%Z, c, (curl_ok ans), (wsa_ok ans); done.
Qed.

Lemma destroy_done o p : init_done (destroy o p) = init_done p.
Proof. unfold destroy. by destruct o, os; simpl; try destruct (0 <=? sfd_global p)%Z. Qed.

Lemma exec_done l obj p : init_done p = true → (exec l obj p).2 = 0.
Proof.
  revert obj p. induction l as [|[ans s c|] l IH]; intros obj p Hp; simpl; [done|..].
  - rewrite init_done_blocks by done. by apply IH.
  - destruct obj as [o|]; [|by apply IH]. apply IH. by rewrite destroy_done.
Qed.

Lemma exec_once l obj p : (exec l obj p).2 ≤ 1.
Proof.
  revert obj p. induction l as [|[ans s c|] l IH]; intros obj p; simpl; [lia|..].
  - pose proof (global_init_done ans s c p) as Hd. destruct (global_init ans s c p) as [p1 [o|e]]; simpl in *.
    + pose proof (exec_done l (Some o) p1 Hd). destruct (exec l (Some o) p1) as [[? ?] n]; simpl in *. lia.
    + rewrite exec_done by done. lia.
  - destruct obj as [o|]; apply IH.
Qed.

(** What makes a construction fail. *)
Definition refused (ans : answers) (s c : bool) (p : process) : Prop :=
  init_done p = true ∨ os = Linux ∧ s = true ∧ (sigprocmask_ok ans = false ∨ (signalfd ans < 0)%Z) ∨
  c = true ∧ curl_ok ans = false ∨ c = false ∧ os = Windows ∧ wsa_ok ans = false.
Lemma global_init_errors ans s c p :
  match (global_init ans s c p).2 with
  | Ok _ => ¬ refused ans s c p
  | Throw e => (∃ m, e = NstlException m) ∧ refused ans s c p
  end.
Proof.
  unfold refused, global_init, openSignalFile. munfold_goal.
  destruct (init_done p), os, s, (sigprocmask_ok ans), (Z.ltb_spec (signalfd ans) 0), c, (curl_ok ans), (wsa_ok ans);
    simpl; first [split; [by eexists|naive_solver]|naive_solver lia].
Qed.

(** The libraries that the object of a [global_init] uses. *)
Definition libraries (p : process) : nat * nat := (curl_uses p, wsa_uses p).
Definition library_of (c : bool) (n : nat * nat) : nat * nat :=
  if c then (S n.1, n.2) else if decide (os = Windows) then (n.1, S n.2) else n.
Definition signal_file (ans : answers) (s : bool) : Z :=
  if decide (os = Linux) then if s then signalfd ans else invalid_file_handle else invalid_file_handle.

(** What a construction leaves behind. *)
Lemma global_init_result ans s c p :
  init_done p = false → sfd_global p = invalid_file_handle → (0 ≤ signalfd ans → signalfd ans ∉ opened p)%Z →
  match global_init ans s c p with
  | (p', Ok o) => o = c ∧ opened (destroy o p') = opened p ∧ libraries (destroy o p') = libraries p ∧
      libraries p' = library_of c (libraries p) ∧ getSignalFile p' = signal_file ans s
  | (p', Throw _) => libraries p' = libraries p ∧
      opened p' = (if bool_decide (os = Linux) && s && sigprocmask_ok ans && (0 <=? signalfd ans)%Z
                   then {[signalfd ans]} ∪ opened p else opened p)
  end.
Proof.
  intros Hi Hs Hf. unfold global_init, openSignalFile, destroy, getSignalFile, signal_file, library_of, libraries.
  munfold_goal. rewrite Hi.
  destruct os, s, (sigprocmask_ok ans), (Z.ltb_spec (signalfd ans) 0), (Z.leb_spec 0 (signalfd ans)),
    c, (curl_ok ans), (wsa_ok ans); simpl; try lia; try done.
  all: rewrite ?(proj2 (Z.leb_le _ _)) by lia; split_and!; simpl; try done; try lia.
  all: rewrite difference_union_distr_l_L, difference_diag_L; set_solver.
Qed.

(** C30: whatever is tried in whatever order, at most one [global_init] is
    constructed in the life of a process, also after it was destroyed; a block
    that owns it, and leaves its globals alone, gives back the signal descriptor
    and libcurl, or Winsock, and inside it exactly the library is in use that was asked for
    and the descriptor is there exactly when signals were asked for on Linux. *)
Theorem global_init_once (l : list op) (obj : option bool) (p : process) {A}
    (ans : answers) (s c : bool) (body : M process A) :
  (exec l obj p).2 ≤ 1 ∧
  (init_done p = false → sfd_global p = invalid_file_handle →
   (0 ≤ signalfd ans → signalfd ans ∉ opened p)%Z → (∀ p, (body p).1 = p) →
   match global_init ans s c p with
   | (p1, Ok _) =>
     getSignalFile p1 = signal_file ans s ∧ libraries p1 = library_of c (libraries p) ∧
     let p2 := (with_global_init ans s c body p).1 in
     opened p2 = opened p ∧ libraries p2 = libraries p ∧ init_done p2 = true
   | (p1, Throw _) => libraries p1 = libraries p ∧ init_done p1 = true
   end).
Proof.
  split; [apply exec_once|]. intros Hi Hs Hf Hbody.
  pose proof (global_init_result ans s c p Hi Hs Hf) as Hr.
  pose proof (global_init_done ans s c p) as Hd. unfold with_global_init.
  destruct (global_init ans s c p) as [p1 [o|e]]; simpl in *.
  - destruct Hr as (-> & Ho & Hc & Hl & Hg). specialize (Hbody p1).
    destruct (body p1) as [p2 r]; simpl in *; subst p2. split_and!; try done. by rewrite destroy_done.
  - by destruct Hr as [? _].
Qed.

(** A descriptor that was opened stays open when libcurl cannot be initialised. *)
Lemma global_init_leak ans p :
  os = Linux → init_done p = false → sigprocmask_ok ans = true → (0 ≤ signalfd ans)%Z → curl_ok ans = false →
  let '(p1, r) := global_init ans true true p in
  (∃ e, r = Throw e) ∧ signalfd ans ∈ opened p1 ∧ getSignalFile p1 = signalfd ans.
Proof.
  intros Hl Hi Hm Hs Hc. unfold global_init, openSignalFile. rewrite Hl, Hm, Hc. munfold_goal. rewrite Hi; simpl.
  rewrite (proj2 (Z.ltb_ge _ _)) by lia. simpl. split_and!; [eauto|set_solver|done].
Qed.
End global_init.

Lemma global_init_once_witness :
  let ans := Answers true 3 true true in
  opened (with_global_init Linux ans true true (mret 0) fresh_process).1 = ∅.
Proof.
  intros ans.
  destruct (global_init_once Linux [] None fresh_process ans true true (mret 0)) as [_ H].
  destruct H as (_ & _ & H & _); [done|done|intros _; set_solver|done|]. exact H.
Defined.
End GlobalInit.

(** ** The polling barrier *)

Module Polling.
Import SigVal.

(** A signal disposition: the default, the barrier's [signal_receiver], or
    another handler of the program. *)
Inductive handler := SIG_DFL | signal_receiver | Other (n : nat).

(** The globals of the file, the dispositions of the process and how often
    [ConsoleHandler] is registered with the console. *)
Record globals := Globals {
  in_use : bool;
  signal_received : Z;
  app_running : Z;                 (** the Windows console event *)
  int_hndlr : handler;
  int_term : handler;
  int_quit : handler;
  disposition : Z → handler;
  console_handlers : nat;
}.
Definition running_true : Z := 2 ^ 32 - 1.

Definition set_in_use (b : bool) (g : globals) : globals :=
  Globals b (signal_received g) (app_running g) (int_hndlr g) (int_term g) (int_quit g) (disposition g) (console_handlers g).
Definition set_app_running (z : Z) (g : globals) : globals :=
  Globals (in_use g) (signal_received g) z (int_hndlr g) (int_term g) (int_quit g) (disposition g) (console_handlers g).
Definition set_int_hndlr (h : handler) (g : globals) : globals :=
  Globals (in_use g) (signal_received g) (app_running g) h (int_term g) (int_quit g) (disposition g) (console_handlers g).
Definition set_int_term (h : handler) (g : globals) : globals :=
  Globals (in_use g) (signal_received g) (app_running g) (int_hndlr g) h (int_quit g) (disposition g) (console_handlers g).
Definition set_int_quit (h : handler) (g : globals) : globals :=
  Globals (in_use g) (signal_received g) (app_running g) (int_hndlr g) (int_term g) h (disposition g) (console_handlers g).
Definition set_disposition (sig : Z) (h : handler) (g : globals) : globals :=
  Globals (in_use g) (signal_received g) (app_running g) (int_hndlr g) (int_term g) (int_quit g)
    (λ s, if (s =? sig)%Z then h else disposition g s) (console_handlers g).
(** [SetConsoleCtrlHandler(ConsoleHandler, TRUE)]. *)
Definition add_console_handler (g : globals) : globals :=
  Globals (in_use g) (signal_received g) (app_running g) (int_hndlr g) (int_term g) (int_quit g) (disposition g)
    (S (console_handlers g)).

Section polling.
(** Whether the platform is Windows, which has no [SIGQUIT]. *)
Context (win32 : bool).

(** [ConsoleHandler], with whether it took the event, and [signal_receiver]. *)
Definition CTRL_C_EVENT : Z := 0.
Definition CTRL_CLOSE_EVENT : Z := 2.
Definition CTRL_LOGOFF_EVENT : Z := 5.
Definition CTRL_SHUTDOWN_EVENT : Z := 6.
Definition console_event (sig : Z) : bool :=
  (sig =? CTRL_C_EVENT)%Z || (sig =? CTRL_CLOSE_EVENT)%Z || (sig =? CTRL_LOGOFF_EVENT)%Z || (sig =? CTRL_SHUTDOWN_EVENT)%Z.
Definition ConsoleHandler (sig : Z) (g : globals) : globals * bool :=
  if console_event sig then (set_app_running sig g, true) else (g, false).
Definition receive (value : Z) (g : globals) : globals :=
  Globals (in_use g) value (app_running g) (int_hndlr g) (int_term g) (int_quit g) (disposition g) (console_handlers g).

(** [load_value]. *)
Definition console_value (wvalue : Z) : option SigVal :=
  if (wvalue =? CTRL_C_EVENT)%Z then Some SigInt
  else if (wvalue =? CTRL_CLOSE_EVENT)%Z then Some SigTerm
  else if (wvalue =? CTRL_LOGOFF_EVENT)%Z then Some SigLogoff
  else if (wvalue =? CTRL_SHUTDOWN_EVENT)%Z then Some SigShutdown
  else None.
Definition load_value : M globals (option SigVal) :=
  g ← mget;
  mput (receive 0 g);;
  if (0 <? signal_received g)%Z then
    v ← mlift (from_signal_conv (negb win32) (signal_received g)); mret (Some v)
  else if win32 then
    mmodify (set_app_running running_true);;
    mret (if (app_running g =? running_true)%Z then None else console_value (app_running g))
  else mret None.

(** [std::signal]: installs a handler and gives the one before. *)
Definition signal (sig : Z) (h : handler) : M globals handler := λ g,
  (set_disposition sig h g, Ok (disposition g sig)).

(** [SignalBarrier(period)]; [console] is whether the console handler could be
    set.  The object is its [_period]. *)
Definition make_barrier (console : bool) (period : Z) : M globals Z :=
  mthrow_if (period <=? 0)%Z (NstlException "period time must be greater than 0");;
  g ← mget;
  mmodify (set_in_use true);;
  mthrow_if (in_use g) (NstlException "SignalBarrier is already in use");;
  h ← signal SIGINT signal_receiver; mmodify (set_int_hndlr h);;
  h ← signal SIGTERM signal_receiver; mmodify (set_int_term h);;
  (if win32 then mret () else h ← signal SIGQUIT signal_receiver; mmodify (set_int_quit h));;
  (if win32 then
     mthrow_if (negb console) (NstlException "SetConsoleCtrlHandler failed");; mmodify add_console_handler
   else mret ());;
  mret period.

(** [~SignalBarrier]. *)
Definition destroy : M globals () :=
  g ← mget; h ← signal SIGINT (int_hndlr g); mmodify (set_int_hndlr h);;
  g ← mget; h ← signal SIGTERM (int_term g); mmodify (set_int_term h);;
  (if win32 then mret () else g ← mget; h ← signal SIGQUIT (int_quit g); mmodify (set_int_quit h));;
  mmodify (set_in_use false).

(** ** Waiting *)

(** What the system sends to a process: a signal, or an event of its console. *)
Inductive event := Signal (sig : Z) | Console (ev : Z).

(** What arrives before the [k]-th poll, and the clock after it. *)
Context (arrivals : nat → list event) (clock : nat → Z).

(** What ends the process: a signal that is left to its default action. *)
Definition killed : exn := Terminated "a signal of default action".
(** A signal reaches the handler installed for it; on Windows its disposition is the default
    again before the handler runs, on macOS the handler stays.  An event of the console
    reaches [ConsoleHandler] when it is registered.  The signals that the barrier does not
    know do not end the process here. *)
Definition arrive (e : event) : M globals () := λ g,
  match e with
  | Signal sig =>
    match disposition g sig with
    | signal_receiver => (receive sig (if win32 then set_disposition sig SIG_DFL g else g), Ok ())
    | SIG_DFL => (g, if res_is_ok (from_signal_conv (negb win32) sig) then Throw killed else Ok ())
    | Other _ => (g, Ok ())
    end
  | Console ev => (if decide (0 < console_handlers g) then (ConsoleHandler ev g).1 else g, Ok ())
  end.
Fixpoint arrive_all (l : list event) : M globals () :=
  match l with [] => mret () | e :: l => arrive e;; arrive_all l end.
Definition poll (k : nat) : M globals (option SigVal) := arrive_all (arrivals k);; load_value.

(** [wait] from the [k]-th poll on. *)
Fixpoint wait (fuel k : nat) : M globals SigVal :=
  match fuel with
  | O => mthrow (UndefinedBehaviour "wait: out of fuel")
  | S fuel =>
    value ← poll k;
    match value with Some v => mret v | None => wait fuel (S k) end
  end.

(** [wait_for] from the [k]-th poll on; the test of the loop follows the poll. *)
Fixpoint wait_for_loop (fuel k : nat) (start to : Z) : M globals (option SigVal) :=
  match fuel with
  | O => mthrow (UndefinedBehaviour "wait_for: out of fuel")
  | S fuel =>
    value ← poll k;
    match value with
    | Some v => mret (Some v)
    | None => if (clock k - start <? to)%Z then wait_for_loop fuel (S k) start to else mret None
    end
  end.
(** Each turn sleeps for a period at least. *)
Definition wait_for_fuel (period to : Z) : nat := Z.to_nat (to / period) + 2.
Definition wait_for (period start to : Z) : M globals (option SigVal) :=
  wait_for_loop (wait_for_fuel period to) 0 start to.

(** ** Dispositions *)

Definition convertible (sig : Z) : bool := res_is_ok (from_signal_conv (negb win32) sig).

(** The barrier's handlers are in place, but for those of the signals in [spent], which only
    Windows takes away. *)
Definition handlers (spent : gset Z) (g : globals) : Prop :=
  (∀ sig, convertible sig = true → disposition g sig = if decide (sig ∈ spent) then SIG_DFL else signal_receiver) ∧
  (∀ sig, convertible sig = false → disposition g sig ≠ signal_receiver) ∧
  (win32 = false → spent = ∅) ∧ (0 < console_handlers g ↔ win32 = true).
(** No signal was received since the last poll either. *)
Definition armed (spent : gset Z) (g : globals) : Prop :=
  handlers spent g ∧ signal_received g = 0%Z ∧
  (app_running g = running_true ∨ win32 = true ∧ console_event (app_running g) = true).
(** A process that has no barrier and never had one. *)
Definition unarmed (g : globals) : Prop :=
  in_use g = false ∧ (∀ sig, disposition g sig ≠ signal_receiver) ∧ signal_received g = 0%Z ∧
  app_running g = running_true ∧ console_handlers g = 0.

Lemma conv_positive q sig v : from_signal_conv q sig = Ok v → (0 < sig)%Z.
Proof.
  unfold from_signal_conv, SIGINT, SIGTERM, SIGQUIT. destruct q; simpl; case_bool; intros; simplify_eq; lia.
Qed.

Lemma make_barrier_armed console period g g' p :
  make_barrier console period g = (g', Ok p) → unarmed g →
  armed ∅ g' ∧ p = period ∧ (0 < period)%Z ∧ in_use g' = true ∧ app_running g' = running_true.
Proof.
  unfold armed, handlers, unarmed, convertible, make_barrier, signal. munfold_goal.
  destruct (Z.leb_spec period 0); simpl; [done|]. intros Hm (Hu & Hd & H1 & H2 & H3). rewrite Hu in Hm. simpl in Hm.
  destruct win32, console; simplify_eq/=; split_and!; try done; try lia; try by left.
  all: intros sig; specialize (Hd sig); rewrite ?decide_False by set_solver;
    unfold from_signal_conv, SIGINT, SIGTERM, SIGQUIT; simpl; case_bool; done.
Qed.

(** A barrier's scope gives the dispositions back, but leaves the console handler. *)
Lemma barrier_scope_restores console period g g1 g2 g3 p :
  make_barrier console period g = (g1, Ok p) →
  (∀ sig, convertible sig = false → disposition g2 sig = disposition g1 sig) → int_hndlr g2 = int_hndlr g1 → int_term g2 = int_term g1 →
  int_quit g2 = int_quit g1 → console_handlers g2 = console_handlers g1 → destroy g2 = (g3, Ok ()) →
  in_use g3 = false ∧ (∀ sig, disposition g3 sig = disposition g sig) ∧
  console_handlers g3 = (if win32 then S (console_handlers g) else console_handlers g).
Proof.
  unfold convertible, make_barrier, destroy, signal. munfold_goal.
  destruct (Z.leb_spec period 0); simpl; [done|]. destruct (in_use g); simpl; [done|].
  destruct win32, console; simpl; intros [= <- <-]; simpl; intros Hd H1 H2 H3 H4 [= <-]; simpl;
    (split_and!; [done| |done]); intros sig; specialize (Hd sig); rewrite H1, H2, ?H3;
    unfold from_signal_conv, SIGINT, SIGTERM, SIGQUIT in *; simpl in *; case_bool; (congruence || by rewrite Hd).
Qed.

(** ** What a wait returns *)

(** The signals and the events that the handlers of a barrier take. *)
Definition signals (l : list event) : list Z :=
  filter (λ z, convertible z = true) (omap (λ e, match e with Signal sig => Some sig | Console _ => None end) l).
Definition consoles (l : list event) : list Z :=
  if win32 then
    filter (λ z, console_event z = true) (omap (λ e, match e with Console ev => Some ev | Signal _ => None end) l)
  else [].
(** What the next poll finds when [l] arrives and the console event [c] is waiting: the
    value and the event that waits afterwards.  The latest signal goes before
    the latest event, which then stays. *)
Definition heard (c : Z) (l : list event) : option (SigVal * Z) :=
  let c := default c (list.last (consoles l)) in
  match list.last (signals l) with
  | Some sig => match from_signal_conv (negb win32) sig with Ok v => Some (v, c) | Throw _ => None end
  | None => if win32 then if (c =? running_true)%Z then None else (λ v, (v, running_true)) <$> console_value c else None
  end.

(** A signal that arrives when its handler was taken away ends the process. *)
Definition survives (spent : gset Z) (l : list Z) : Prop := win32 = true → NoDup l ∧ ∀ sig, sig ∈ l → sig ∉ spent.
(** The dispositions after the signals [l], and those taken away. *)
Definition spend (l : list Z) (g : globals) : globals :=
  if win32 then foldl (λ g sig, set_disposition sig SIG_DFL g) g l else g.
Definition spent_by (l : list Z) : gset Z := if win32 then list_to_set l else ∅.

Lemma signals_cons e l :
  signals (e :: l) = match e with Signal sig => if convertible sig then [sig] else [] | Console _ => [] end ++ signals l.
Proof.
  unfold signals. destruct e as [sig|ev]; [|done].
  simpl. destruct (convertible sig) eqn:Hv; [by rewrite list.filter_cons_True|]. by rewrite list.filter_cons_False by (by rewrite Hv).
Qed.
Lemma consoles_cons e l :
  consoles (e :: l) = match e with Console ev => if win32 && console_event ev then [ev] else [] | Signal _ => [] end ++ consoles l.
Proof.
  unfold consoles. destruct win32; [|by destruct e]. destruct e as [sig|ev]; [done|].
  simpl. destruct (console_event ev) eqn:Hv; [by rewrite list.filter_cons_True|]. by rewrite list.filter_cons_False by (by rewrite Hv).
Qed.

Lemma survives_cons spent sig l :
  sig ∉ spent → survives spent (sig :: l) ↔ survives ({[sig]} ∪ spent) l.
Proof. unfold survives. rewrite list.NoDup_cons. set_solver. Qed.
Lemma handlers_spend spent g sig :
  handlers spent g → convertible sig = true → win32 = true → handlers ({[sig]} ∪ spent) (set_disposition sig SIG_DFL g).
Proof.
  intros (Hd & Hn & Hs & Hc) Hv Hw. split_and!; [..|by rewrite Hw|done]; intros s H; simpl.
  - destruct (Z.eqb_spec s sig) as [->|?]; [by rewrite decide_True by set_solver|]. rewrite (Hd s H).
    by rewrite (decide_ext (s ∈ {[sig]} ∪ spent) (s ∈ spent)) by set_solver.
  - destruct (Z.eqb_spec s sig); [congruence|by apply Hn].
Qed.
Lemma handlers_spend_all spent g l :
  handlers spent g → Forall (λ sig, convertible sig = true) l → handlers (spent_by l ∪ spent) (spend l g).
Proof.
  unfold spend, spent_by. intros Hg Hl. destruct win32 eqn:Hw; [|by rewrite (left_id_L ∅ (∪))].
  revert spent g Hg. induction Hl as [|sig l Hv _ IH]; intros spent g Hg; simpl; [by rewrite (left_id_L ∅ (∪))|].
  pose proof (IH _ _ (handlers_spend _ _ _ Hg Hv Hw)) as H. by rewrite (comm_L (∪) {[sig]}), <-(assoc_L (∪)).
Qed.
Lemma signals_convertible l : Forall (λ sig, convertible sig = true) (signals l).
Proof. apply list.Forall_forall. by intros sig [? _]%list_elem_of_filter. Qed.

Lemma spend_cons sig l g : spend (sig :: l) g = spend l (if win32 then set_disposition sig SIG_DFL g else g).
Proof. unfold spend. by destruct win32. Qed.
Lemma spend_receive l v g : spend l (receive v g) = receive v (spend l g).
Proof. unfold spend. destruct win32; [|done]. revert g. induction l as [|sig l IH]; intros g; [done|apply (IH (set_disposition sig SIG_DFL g))]. Qed.
Lemma spend_set_app_running l c g : spend l (set_app_running c g) = set_app_running c (spend l g).
Proof. unfold spend. destruct win32; [|done]. revert g. induction l as [|sig l IH]; intros g; [done|apply (IH (set_disposition sig SIG_DFL g))]. Qed.
Lemma receive_same v g : signal_received g = v → receive v g = g.
Proof. by intros <-; destruct g. Qed.
(** Only the dispositions of the signals change. *)
Lemma spend_frame l g :
  in_use (spend l g) = in_use g ∧ signal_received (spend l g) = signal_received g ∧ app_running (spend l g) = app_running g ∧
  int_hndlr (spend l g) = int_hndlr g ∧ int_term (spend l g) = int_term g ∧ int_quit (spend l g) = int_quit g ∧
  console_handlers (spend l g) = console_handlers g ∧ ∀ sig, sig ∉ l → disposition (spend l g) sig = disposition g sig.
Proof.
  unfold spend. destruct win32; [|done]. revert g. induction l as [|s l IH]; intros g; [done|].
  destruct (IH (set_disposition s SIG_DFL g)) as (? & ? & ? & ? & ? & ? & ? & H). split_and!; [done..|].
  intros sig [? ?]%not_elem_of_cons. simpl. rewrite (H sig) by done. simpl. by rewrite (proj2 (Z.eqb_neq sig s)).
Qed.

Lemma arrive_all_spec spent g l :
  handlers spent g →
  survives spent (signals l) ∧
    arrive_all l g = (receive (default (signal_received g) (list.last (signals l)))
      (set_app_running (default (app_running g) (list.last (consoles l))) (spend (signals l) g)), Ok ()) ∨
  ¬ survives spent (signals l) ∧ ∃ g', arrive_all l g = (g', Throw killed).
Proof.
  revert spent g. induction l as [|e l IH]; intros spent g Hg.
  { left. split; [intros _; split; [constructor|set_solver]|]. unfold consoles, spend. by destruct g, win32. }
  rewrite signals_cons, consoles_cons. pose proof Hg as (Hd & Hn & Hs & Hc). simpl. unfold mbind, M_bind, arrive.
  destruct e as [sig|ev]; simpl.
  - specialize (Hd sig). specialize (Hn sig). fold (convertible sig). destruct (convertible sig) eqn:Hv; simpl.
    + rewrite (Hd eq_refl). case_decide as Hsp.
      { right. assert (win32 = true) as Hw by (destruct win32; [done|set_solver]). split; [|by eexists].
        intros [_ H]%(λ f, f Hw). specialize (H sig). set_solver. }
      rewrite (survives_cons _ _ _ Hsp), last_cons, spend_cons. set (g1 := if win32 then _ else _).
      assert (handlers (if win32 then {[sig]} ∪ spent else spent) g1) as Hg1.
      { unfold g1. destruct win32 eqn:Hw; [by apply handlers_spend|done]. }
      assert (app_running g1 = app_running g) as Ha by (unfold g1; by destruct win32).
      assert (∀ X, survives (if win32 then X else spent) (signals l) ↔ survives X (signals l)) as Hsv
        by (intros X; unfold survives; by destruct win32).
      destruct (IH _ (receive sig g1) Hg1) as [[Hl E]|[Hl E]]; rewrite Hsv in Hl; [left|by right].
      split; [done|]. rewrite E, spend_receive. simpl. rewrite Ha. by destruct (list.last (signals l)).
    + assert (disposition g sig ≠ signal_receiver) by auto. destruct (disposition g sig); [|done|]; by apply IH.
  - destruct win32 eqn:Hw; simpl.
    + rewrite decide_True by (by apply Hc). unfold ConsoleHandler. destruct (console_event ev); simpl; [|by apply IH].
      destruct (IH _ (set_app_running ev g) Hg) as [[Hl E]|[Hl E]]; [left|by right]. split; [done|].
      rewrite E, spend_set_app_running, last_cons. simpl. by destruct (list.last (consoles l)).
    + rewrite decide_False by (by rewrite Hc). by apply IH.
Qed.

(** The event that waits after some arrivals. *)
Lemma waiting_event c l :
  let c' := default c (list.last (consoles l)) in
  (consoles l = [] ∧ c' = c) ∨ (win32 = true ∧ console_event c' = true).
Proof.
  destruct (consoles l) as [|ev cl _] eqn:Hc using rev_ind; [by left|right]. rewrite list.last_snoc; simpl.
  unfold consoles in Hc. destruct win32; [split; [done|]|by destruct cl].
  assert (ev ∈ cl ++ [ev]) as Hev by set_solver. rewrite <-Hc in Hev. by apply list_elem_of_filter in Hev as [? _].
Qed.

Lemma latest_signal l sig :
  list.last (signals l) = Some sig → ∃ v, from_signal_conv (negb win32) sig = Ok v ∧ (0 < sig)%Z.
Proof.
  intros [l' Hl]%last_Some. assert (sig ∈ signals l) as [Hv _]%list_elem_of_filter by (rewrite Hl; set_solver).
  unfold convertible in Hv. destruct (from_signal_conv (negb win32) sig) as [v|] eqn:Hv'; [|done].
  exists v. split; [done|]. by eapply conv_positive.
Qed.

Lemma console_event_value z : console_event z = true → (∃ v, console_value z = Some v) ∧ z ≠ running_true.
Proof.
  intros H. split; [|by intros ->]. revert H. unfold console_event, console_value. case_bool; eauto; done.
Qed.

Lemma load_heard g l :
  (app_running g = running_true ∨ win32 = true ∧ console_event (app_running g) = true) →
  load_value (receive (default 0%Z (list.last (signals l)))
    (set_app_running (default (app_running g) (list.last (consoles l))) g)) =
  match heard (app_running g) l with
  | Some (v, c) => (receive 0 (set_app_running c g), Ok (Some v))
  | None => (receive 0 g, Ok None)
  end.
Proof.
  intros Ha. unfold load_value, heard. munfold_goal. pose proof (waiting_event (app_running g) l) as Hc.
  set (c := default (app_running g) _) in *. clearbody c.
  destruct (list.last (signals l)) as [sig|] eqn:Hl; simpl.
  - apply latest_signal in Hl as (v & -> & Hp). by rewrite (proj2 (Z.ltb_lt _ _)) by lia.
  - destruct win32.
    + destruct (Z.eqb_spec c running_true) as [->|Hr].
      * destruct Hc as [[_ Hc]|[_ []%console_event_value]]; [|done]. destruct g; simpl in *; by subst.
      * assert (console_event c = true) as [[v ->] _]%console_event_value
          by (destruct Hc as [[_ ->]|[_ ?]], Ha as [?|[_ ?]]; done).
        done.
    + destruct Hc as [[_ ->]|[? _]]; [|done]. by destruct g.
Qed.

(** A poll that finds nothing had nothing to find. *)
Lemma heard_None c l :
  (c = running_true ∨ win32 = true ∧ console_event c = true) → heard c l = None → signals l = [] ∧ consoles l = [].
Proof.
  unfold heard. pose proof (waiting_event c l) as He. intros Hc Hh.
  destruct (list.last (signals l)) as [sig|] eqn:Hl; [apply latest_signal in Hl as (v & Hv & _); by rewrite Hv in Hh|].
  apply last_None in Hl. split; [done|]. destruct He as [[? _]|[Hw [[v Hv] Hr]%console_event_value]]; [done|].
  rewrite Hw, Hv in Hh. by rewrite (proj2 (Z.eqb_neq _ _) Hr) in Hh.
Qed.

(** What a poll does: it finds what was [heard], and the handlers of the signals are spent,
    unless one of them had lost its handler. *)
Lemma poll_heard spent g k :
  armed spent g →
  match heard (app_running g) (arrivals k) with
  | Some (v, c) =>
      survives spent (signals (arrivals k)) ∧ poll k g = (spend (signals (arrivals k)) (set_app_running c g), Ok (Some v)) ∨
      ¬ survives spent (signals (arrivals k)) ∧ ∃ g', poll k g = (g', Throw killed)
  | None => poll k g = (g, Ok None)
  end.
Proof.
  intros (Hh & Hs & Ha). set (l := arrivals k).
  assert (survives spent (signals l) ∧ poll k g = (λ '(g', r), (spend (signals l) g', r))
      match heard (app_running g) l with Some (v, c) => (set_app_running c g, Ok (Some v)) | None => (g, Ok None) end ∨
    ¬ survives spent (signals l) ∧ ∃ g', poll k g = (g', Throw killed)) as H.
  { unfold poll, mbind, M_bind. fold l. destruct (arrive_all_spec spent g l Hh) as [[? ->]|[? [g' ->]]]; [left|right; eauto].
    split; [done|]. destruct (spend_frame (signals l) g) as (_ & Hs' & Ha' & _). rewrite Hs in *.
    pose proof (load_heard (spend (signals l) g) l) as Hload. rewrite Ha' in Hload. rewrite (Hload Ha).
    destruct (heard (app_running g) l) as [[v c]|]; rewrite ?spend_set_app_running; do 2 f_equal;
      by apply receive_same. }
  destruct (heard (app_running g) l) as [[v c]|] eqn:Hv; [done|].
  destruct (heard_None _ _ Ha Hv) as [E _]. rewrite E in H. destruct H as [[_ ->]|[[] _]]; [unfold spend; by destruct win32|].
  intros _. split; [constructor|set_solver].
Qed.

Lemma heard_armed spent g l v c :
  armed spent g → heard (app_running g) l = Some (v, c) →
  armed (spent_by (signals l) ∪ spent) (spend (signals l) (set_app_running c g)).
Proof.
  intros (Hd & Hs & Ha) Hh. destruct (spend_frame (signals l) (set_app_running c g)) as (_ & Hs' & Ha' & _).
  split_and!; [by apply handlers_spend_all, signals_convertible|by rewrite Hs'|]. rewrite Ha'. simpl. unfold heard in Hh.
  pose proof (waiting_event (app_running g) l) as He. set (c' := default _ _) in *. clearbody c'.
  destruct (list.last (signals l)).
  - destruct (from_signal_conv _ _); simplify_eq. destruct He as [[_ ->]|?]; [done|by right].
  - destruct win32; [|done]. destruct (c' =? running_true)%Z; [done|]. destruct (console_value c'); simplify_eq/=. by left.
Qed.

(** Nothing arrived that the barrier waits for. *)
Definition quiet (l : list event) : Prop := signals l = [] ∧ consoles l = [].

(** What a wait that stops at the [n]-th poll gives and leaves: what was heard there, and a
    barrier that waits on, without the handlers that were spent; or the end of the process. *)
Definition stops_at (spent : gset Z) (g : globals) (n : nat) (out : globals * res SigVal) : Prop :=
  match out with
  | (g', Ok v) => ∃ c, heard (app_running g) (arrivals n) = Some (v, c) ∧ survives spent (signals (arrivals n)) ∧
      g' = spend (signals (arrivals n)) (set_app_running c g) ∧ armed (spent_by (signals (arrivals n)) ∪ spent) g'
  | (_, Throw e) => e = killed ∧ ¬ survives spent (signals (arrivals n))
  end.

Lemma poll_stops spent g k :
  armed spent g →
  (quiet (arrivals k) ∧ app_running g = running_true) ∧ poll k g = (g, Ok None) ∨
  ∃ g' r, stops_at spent g k (g', r) ∧ poll k g = (g', Some <$> r).
Proof.
  intros Hg. pose proof (poll_heard _ _ k Hg) as H. destruct (heard (app_running g) (arrivals k)) as [[v c]|] eqn:Hh.
  - right. destruct H as [[Hs E]|[Hs [g' E]]].
    + eexists _, (Ok v). split; [|exact E]. exists c. split_and!; [done..|by eapply heard_armed].
    + by eexists g', (Throw killed).
  - left. split; [|done]. destruct Hg as (_ & _ & Ha). pose proof (heard_None _ _ Ha Hh) as [Hs Hc].
    split; [done|]. destruct Ha as [?|[Hw [[v Hv] Hr]%console_event_value]]; [done|].
    unfold heard in Hh. rewrite Hs, Hc, Hw in Hh. simpl in Hh. by rewrite (proj2 (Z.eqb_neq _ _) Hr), Hv in Hh.
Qed.

(** [wait] ends at the first poll that finds something. *)
Lemma wait_correct spent g k fuel :
  armed spent g →
  (∃ n, k ≤ n < k + fuel ∧ (∀ j, k ≤ j < n → quiet (arrivals j)) ∧ stops_at spent g n (wait fuel k g)) ∨
  wait fuel k g = (g, Throw (UndefinedBehaviour "wait: out of fuel")) ∧ ∀ j, k ≤ j < k + fuel → quiet (arrivals j).
Proof.
  intros Hg. revert k. induction fuel as [|fuel IH]; intros k; simpl; [right; split; [done|lia]|].
  unfold mbind, M_bind. destruct (poll_stops spent g k Hg) as [[[Hq _] ->]|(g' & r & Hs & ->)].
  2: { left. exists k. split_and!; [lia|lia|intros; lia|]. by destruct r. }
  assert (∀ b, (∀ j, S k ≤ j < b → quiet (arrivals j)) → ∀ j, k ≤ j < b → quiet (arrivals j)) as Hsplit.
  { intros b H j Hj. destruct (decide (j = k)) as [->|]; [done|apply H; lia]. }
  destruct (IH (S k)) as [(n & ? & ? & ?)|[-> H]]; [left; exists n; split_and!; [lia|lia|by apply Hsplit|done]|right].
  split; [done|]. apply Hsplit. intros j ?. apply H. lia.
Qed.

(** [wait_for] does, too, when the time is not over before. *)
Definition in_time (start to : Z) (k n : nat) : Prop :=
  k ≤ n ∧ ∀ j, k ≤ j < n → (clock j - start < to)%Z ∧ quiet (arrivals j).
Definition wait_for_result (spent : gset Z) (start to : Z) (k : nat) (g : globals) (out : globals * res (option SigVal)) : Prop :=
  ∃ n, in_time start to k n ∧
  ((∃ g' r, out = (g', Some <$> r) ∧ stops_at spent g n (g', r)) ∨
   out = (g, Ok None) ∧ quiet (arrivals n) ∧ app_running g = running_true ∧ (to ≤ clock n - start)%Z).

Lemma wait_for_loop_correct spent period start to g fuel k :
  armed spent g → (0 < period)%Z → (∀ k, clock k + period ≤ clock (S k))%Z →
  (to - (clock k - start) ≤ (Z.of_nat fuel - 1) * period)%Z → 0 < fuel →
  wait_for_result spent start to k g (wait_for_loop fuel k start to g).
Proof.
  intros Hg Hp Hclock. revert k. induction fuel as [|fuel IH]; intros k Hf Hpos; [lia|].
  simpl. unfold mbind, M_bind. destruct (poll_stops spent g k Hg) as [[[Hq Ha] ->]|(g' & r & Hs & ->)].
  2: { exists k. split; [split; [done|lia]|]. left. exists g', r. split; [by destruct r|done]. }
  destruct (Z.ltb_spec (clock k - start) to) as [Hlt|Hge].
  - specialize (Hclock k). destruct (IH (S k)) as (n & [? Hj] & Hr); [nia|destruct fuel; lia|].
    exists n. split; [split; [lia|]|done]. intros j Hj'. destruct (decide (j = k)) as [->|]; [done|apply Hj; lia].
  - exists k. split; [split; [done|lia]|]. right. by split_and!.
Qed.

(** The handler of a signal is not installed again after it ran. *)
Lemma second_signal_ends spent g sig :
  armed spent g → convertible sig = true → sig ∈ spent → arrive (Signal sig) g = (g, Throw killed).
Proof.
  intros ((Hd & _) & _) Hv Hin. simpl. rewrite (Hd sig Hv), decide_True by done. fold (convertible sig). by rewrite Hv.
Qed.

(** The destructor leaves [ConsoleHandler] registered: on Windows the process does not
    end any more when the user presses Ctrl+C after a barrier. *)
Lemma console_handler_stays console period g g1 g3 p :
  win32 = true → make_barrier console period g = (g1, Ok p) → destroy g1 = (g3, Ok ()) →
  0 < console_handlers g3 ∧ (ConsoleHandler CTRL_C_EVENT g3).2 = true ∧ in_use g3 = false.
Proof.
  intros Hw Hm Hd. destruct (barrier_scope_restores _ _ _ _ _ _ _ Hm (λ _ _, eq_refl) eq_refl eq_refl eq_refl eq_refl Hd) as (? & _ & Hc).
  rewrite Hw in Hc. split_and!; [lia|done|done].
Qed.
End polling.

(** A barrier polled every ten milliseconds; SIGTERM arrives before the third poll.  On Windows
    a second one before the next wait ends the process. *)
Definition demo_globals : globals :=
  Globals false 0 running_true SIG_DFL SIG_DFL SIG_DFL (λ _, SIG_DFL) 0.
Definition demo_arrivals (k : nat) : list event := if (k =? 2)%nat then [Signal 15] else [].
Definition demo_clock (k : nat) : Z := (10 * Z.of_nat k)%Z.

End Polling.

(** ** The epoll barrier *)

Module Epoll.
Import SigVal.

(** What an [epoll_wait] brings: signals that arrived and timer expirations
    before it returned, and the descriptors it reports. *)
Inductive wait_answer := WEvents (evs : list Z) | WIntr | WFail.
Record turn := Turn { arrive : list Z; expire : Z; answer : wait_answer }.
(** Faults of a [read] on one of the descriptors before its regular answer. *)
Inductive fault := FIntr | FFail | FShort.
#[export] Instance fault_eq_dec : EqDecision fault.
Proof. solve_decision. Defined.

(** The descriptors that are open, those an epoll descriptor watches, what the
    kernel will answer, and what it holds for the signal and timer descriptors: a
    signal is pending or not, however often it was sent. *)
Record kernel := Kernel {
  opened : gset Z;
  watched : gmap Z (gset Z);
  script : list turn;
  faults : list fault;
  pending : gset Z;
  expirations : Z;
}.
Definition set_opened (f : gset Z → gset Z) (k : kernel) : kernel :=
  Kernel (f (opened k)) (watched k) (script k) (faults k) (pending k) (expirations k).
Definition set_watched (f : gmap Z (gset Z) → gmap Z (gset Z)) (k : kernel) : kernel :=
  Kernel (opened k) (f (watched k)) (script k) (faults k) (pending k) (expirations k).
Definition set_faults (l : list fault) (k : kernel) : kernel :=
  Kernel (opened k) (watched k) (script k) l (pending k) (expirations k).
Definition set_pending (X : gset Z) (k : kernel) : kernel :=
  Kernel (opened k) (watched k) (script k) (faults k) X (expirations k).
Definition set_expirations (n : Z) (k : kernel) : kernel :=
  Kernel (opened k) (watched k) (script k) (faults k) (pending k) n.

(** A guard of [on_scope_exit] whose function may throw: its destructor is [noexcept], so
    that an exception there ends the process, and nothing more is destroyed then. *)
Definition guard {A} (clean : M kernel ()) (body : M kernel A) : M kernel A := λ k,
  match body k with
  | (k1, Throw (Terminated what)) => (k1, Throw (Terminated what))
  | (k1, r) =>
    match clean k1 with
    | (k2, Ok _) => (k2, r)
    | (k2, Throw _) => (k2, Throw (Terminated "exception in a destructor"))
    end
  end.

Section epoll.
(** The descriptors the system gives, or none, whether it accepts the settings, and which
    of the pending signals a [read] gives: their order is not specified. *)
Context (new_timer new_epoll : option Z) (settime_ok : Z * Z → bool) (ctl_ok del_ok : Z → bool).
Context (pick : gset Z → Z) (_sfd : Z).

Definition close (fd : Z) : M kernel () := mmodify (set_opened (λ s, s ∖ {[fd]})).

(** [SignalBarrier(period)]: the descriptor of [global_init]. *)
Definition make_barrier (p : GlobalInit.process) : res Z :=
  throw_if (GlobalInit.getSignalFile p <? 0)%Z
    (NstlException "signal file is not open: global_init should be initialized with signal enabled");;
  Ok (GlobalInit.getSignalFile p).

Definition epoll_add (epfd fd : Z) : M kernel () :=
  mthrow_if (negb (ctl_ok fd)) (NstlException "epoll add failed");;
  mmodify (set_watched (alter (λ s, {[fd]} ∪ s) epfd)).
Definition epoll_remove (epfd fd : Z) : M kernel () :=
  mthrow_if (negb (del_ok fd)) (NstlException "epoll add failed");;
  mmodify (set_watched (alter (λ s, s ∖ {[fd]}) epfd)).

(** The seconds and nanoseconds of the timer. *)
Definition timer_spec (to : Z) : Z * Z :=
  let seconds := (to / 10 ^ 9)%Z in (seconds, (to - seconds * 10 ^ 9)%Z).
Definition create_timer_file (to : Z) : M kernel Z :=
  match new_timer with
  | None => mthrow (NstlException "timerfd_create")
  | Some tfd =>
    mmodify (λ k, set_expirations 0 (set_opened (λ s, {[tfd]} ∪ s) k));;
    mthrow_if (negb (settime_ok (timer_spec to))) (NstlException "timerfd_settime failed");;
    mret tfd
  end.
Definition epoll_create1 : M kernel Z :=
  match new_epoll with
  | None => mthrow (NstlException "epoll_create1 failed")
  | Some epfd =>
    mmodify (λ k, set_watched <[epfd := ∅]> (set_opened (λ s, {[epfd]} ∪ s) k));; mret epfd
  end.
(** Closing the epoll descriptor forgets what it watched. *)
Definition close_epoll (epfd : Z) : M kernel () := close epfd;; mmodify (set_watched (delete epfd)).

(** [read_signal] and [read_timer]: each turn consumes a fault or a signal. *)
Fixpoint read_signal_loop (fuel : nat) : M kernel Z :=
  match fuel with
  | O => mthrow (UndefinedBehaviour "read_signal: out of fuel")
  | S fuel =>
    k ← mget;
    match faults k with
    | FIntr :: l => mput (set_faults l k);; read_signal_loop fuel
    | FFail :: l => mput (set_faults l k);; mthrow (NstlException "read(signalfd) failed")
    | FShort :: l => mput (set_faults l k);; mthrow (NstlException "short read on signalfd: ")
    | [] =>
      if decide (pending k = ∅) then mret 0%Z
      else
        let sig := pick (pending k) in
        mput (set_pending (pending k ∖ {[sig]}) k);;
        if barrier_signal sig then mret sig else read_signal_loop fuel
    end
  end.
Definition read_signal : M kernel Z :=
  k ← mget; read_signal_loop (S (length (faults k) + size (pending k))).
Fixpoint read_timer_loop (fuel : nat) : M kernel Z :=
  match fuel with
  | O => mthrow (UndefinedBehaviour "read_timer: out of fuel")
  | S fuel =>
    k ← mget;
    match faults k with
    | FIntr :: l => mput (set_faults l k);; read_timer_loop fuel
    | FFail :: l => mput (set_faults l k);; mthrow (NstlException "read(timer) failed")
    | FShort :: l => mput (set_faults l k);; mthrow (NstlException "short read on timerfd: ")
    | [] => mput (set_expirations 0 k);; mret (expirations k)
    end
  end.
Definition read_timer : M kernel Z := k ← mget; read_timer_loop (S (length (faults k))).

(** The loop over the reported events; [timer] is the timer descriptor of
    [wait_for].  [None] is no decision yet. *)
Fixpoint events_loop (timer : option Z) (evs : list Z) : M kernel (option (option SigVal)) :=
  match evs with
  | [] => mret None
  | fd :: evs =>
    if (fd =? _sfd)%Z then
      retval ← read_signal;
      if (0 <? retval)%Z then v ← mlift (from_signal_conv true retval); mret (Some (Some v))
      else events_loop timer evs
    else if bool_decide (timer = Some fd) then
      n ← read_timer;
      if (0 <? n)%Z then mret (Some None) else events_loop timer evs
    else events_loop timer evs
  end.

(** [epoll_wait]: time passes until it answers. *)
Definition epoll_wait : M kernel (option wait_answer) := λ k,
  match script k with
  | [] => (k, Ok None)
  | t :: l =>
    (Kernel (opened k) (watched k) l (faults k) (pending k ∪ list_to_set (arrive t)) (expirations k + expire t),
     Ok (Some (answer t)))
  end.
Definition blocked : exn := UndefinedBehaviour "epoll_wait: blocked".
Fixpoint wait_loop (fuel : nat) (timer : option Z) : M kernel (option SigVal) :=
  match fuel with
  | O => mthrow blocked
  | S fuel =>
    a ← epoll_wait;
    match a with
    | None => mthrow blocked
    | Some WIntr => wait_loop fuel timer
    | Some WFail => mthrow (NstlException "epoll_wait failed")
    | Some (WEvents evs) =>
      r ← events_loop timer evs;
      match r with Some v => mret v | None => wait_loop fuel timer end
    end
  end.
Definition wait_main (timer : option Z) : M kernel (option SigVal) :=
  k ← mget; wait_loop (S (length (script k))) timer.

Definition wait : M kernel (option SigVal) :=
  epfd ← epoll_create1;
  guard (close_epoll epfd) (
    epoll_add epfd _sfd;;
    guard (epoll_remove epfd _sfd) (wait_main None)).

Definition wait_for (to : Z) : M kernel (option SigVal) :=
  mthrow_if (to <=? 0)%Z (NstlException "timeout must be greater than zero");;
  timer_fd ← create_timer_file to;
  guard (close timer_fd) (
    epfd ← epoll_create1;
    guard (close_epoll epfd) (
      epoll_add epfd _sfd;;
      guard (epoll_remove epfd _sfd) (
        epoll_add epfd timer_fd;;
        guard (epoll_remove epfd timer_fd) (wait_main (Some timer_fd))))).

(** The timer is armed with a valid time. *)
Lemma timer_spec_valid to : (0 < to)%Z →
  let '(sec, nsec) := timer_spec to in
  (0 ≤ sec ∧ 0 ≤ nsec < 10 ^ 9 ∧ sec * 10 ^ 9 + nsec = to ∧ ¬ (sec = 0 ∧ nsec = 0))%Z.
Proof.
  intros Hto. unfold timer_spec. pose proof (Z.div_mod to (10 ^ 9) ltac:(lia)).
  pose proof (Z.mod_pos_bound to (10 ^ 9) ltac:(lia)). pose proof (Z.div_pos to (10 ^ 9) ltac:(lia) ltac:(lia)). lia.
Qed.

(** The signals that some turns bring. *)
Definition arrived (used : list turn) : gset Z := list_to_set (concat (arrive <$> used)).
Lemma arrived_cons X t used : X ∪ arrived (t :: used) = X ∪ list_to_set (arrive t) ∪ arrived used.
Proof. unfold arrived. simpl. by rewrite list_to_set_app_L, (assoc_L (∪)). Qed.
Lemma arrived_nil X : X ∪ arrived [] = X.
Proof. apply (right_id_L ∅ (∪)). Qed.

Context (pick_in : ∀ X, X ≠ ∅ → pick X ∈ X).

(** ** Reading *)

(** Only the faults, of which some are used up, and what is named apart may differ. *)
Definition same_files (k k' : kernel) : Prop :=
  opened k' = opened k ∧ watched k' = watched k ∧ script k' = script k ∧ ∃ used, faults k = used ++ faults k'.
Definition masked (X : gset Z) : Prop := ∀ z, z ∈ X → barrier_signal z = true.
(** A fault that is reported. *)
Definition faulty (k : kernel) : Prop := ∃ f, f ∈ faults k ∧ f ≠ FIntr.
Definition system_error (e : exn) : Prop := ∃ s, e = NstlException s.

Lemma same_files_refl k : same_files k k.
Proof. split_and!; [done..|by exists []]. Qed.
Lemma same_files_data k X n : same_files k (Kernel (opened k) (watched k) (script k) (faults k) X n).
Proof. split_and!; [done..|by exists []]. Qed.
Lemma same_files_trans k1 k2 k3 : same_files k1 k2 → same_files k2 k3 → same_files k1 k3.
Proof.
  intros (? & ? & ? & u1 & Hu1) (? & ? & ? & u2 & Hu2). split_and!; [congruence..|].
  exists (u1 ++ u2). by rewrite Hu1, Hu2, (assoc_L (++)).
Qed.
Lemma same_files_faulty k k' : same_files k k' → faulty k' → faulty k.
Proof. intros (_ & _ & _ & u & H) (f & Hf & Hne). exists f. rewrite H, elem_of_app. auto. Qed.
Lemma same_files_next k f l : faults k = f :: l → same_files k (set_faults l k).
Proof. intros H. split_and!; [done..|by exists [f]]. Qed.
Lemma faulty_head k f l : faults k = f :: l → f ≠ FIntr → faulty k.
Proof. intros H Hf. exists f. rewrite H, elem_of_cons. auto. Qed.

Lemma read_signal_spec k :
  masked (pending k) →
  match read_signal k with
  | (k', Ok r) => same_files k k' ∧ expirations k' = expirations k ∧
      (r = 0%Z ∧ pending k = ∅ ∧ pending k' = ∅ ∨
       barrier_signal r = true ∧ r ∈ pending k ∧ pending k' = pending k ∖ {[r]})
  | (k', Throw e) => same_files k k' ∧ pending k' = pending k ∧ system_error e ∧ faulty k
  end.
Proof.
  change (read_signal k) with (read_signal_loop (S (length (faults k) + size (pending k))) k).
  set (n := S _). assert (Hn : length (faults k) < n) by lia. clearbody n.
  revert k Hn. induction n as [|n IH]; intros k Hn Hm; [lia|]. simpl. munfold_goal.
  destruct (faults k) as [|[] l] eqn:Hf; simpl in Hn.
  - case_decide as Hp; simpl.
    + split_and!; [apply same_files_refl|done|]. by left.
    + pose proof (pick_in _ Hp) as Hin. rewrite (Hm _ Hin). split; [apply same_files_data|]. split; [done|]. right. auto.
  - specialize (IH (set_faults l k) ltac:(simpl; lia) Hm). pose proof (same_files_next _ _ _ Hf) as Hs.
    pose proof (same_files_trans _ _ (read_signal_loop n (set_faults l k)).1 Hs) as Ht.
    destruct (read_signal_loop n (set_faults l k)) as [k' [r|e]]; cbn in Ht, IH; destruct IH as (H1 & H2 & H3).
    + split_and!; [by apply Ht|done|done].
    + split_and!; [by apply Ht|done|apply H3|]. by eapply same_files_faulty; [|apply H3].
  - split_and!; [by eapply same_files_next|done|by eexists|by eapply faulty_head].
  - split_and!; [by eapply same_files_next|done|by eexists|by eapply faulty_head].
Qed.

Lemma read_timer_spec k :
  match read_timer k with
  | (k', Ok n) => same_files k k' ∧ pending k' = pending k ∧ n = expirations k ∧ expirations k' = 0%Z
  | (k', Throw e) => same_files k k' ∧ pending k' = pending k ∧ system_error e ∧ faulty k
  end.
Proof.
  change (read_timer k) with (read_timer_loop (S (length (faults k))) k).
  set (n := S _). assert (Hn : length (faults k) < n) by lia. clearbody n.
  revert k Hn. induction n as [|n IH]; intros k Hn; [lia|]. simpl. munfold_goal.
  destruct (faults k) as [|[] l] eqn:Hf; simpl in Hn.
  - split; [apply same_files_data|done].
  - specialize (IH (set_faults l k) ltac:(simpl; lia)). pose proof (same_files_next _ _ _ Hf) as Hs.
    pose proof (same_files_trans _ _ (read_timer_loop n (set_faults l k)).1 Hs) as Ht.
    destruct (read_timer_loop n (set_faults l k)) as [k' [r|e]]; cbn in Ht, IH; destruct IH as (H1 & H2 & H3).
    + split; [by apply Ht|]. by split.
    + split_and!; [by apply Ht|done|apply H3|]. by eapply same_files_faulty; [|apply H3].
  - split_and!; [by eapply same_files_next|done|by eexists|by eapply faulty_head].
  - split_and!; [by eapply same_files_next|done|by eexists|by eapply faulty_head].
Qed.

(** A batch of events consumes one signal and returns it, or stops for the timer,
    or leaves everything as it was, and then had nothing to find. *)
Definition batch_result (timer : option Z) (evs : list Z) (k : kernel)
    (out : kernel * res (option (option SigVal))) : Prop :=
  same_files k out.1 ∧
  match out with
  | (k', Ok (Some (Some v))) => _sfd ∈ evs ∧ ∃ sig, sig ∈ pending k ∧ pending k' = pending k ∖ {[sig]} ∧ from_signal_conv true sig = Ok v
  | (k', Ok (Some None)) => pending k' = pending k ∧ is_Some timer ∧ (0 < expirations k)%Z
  | (k', Ok None) => pending k' = pending k ∧ expirations k' = expirations k ∧
      (_sfd ∈ evs → pending k = ∅) ∧ (∀ fd, timer = Some fd → fd ≠ _sfd → fd ∈ evs → expirations k ≤ 0)%Z
  | (k', Throw e) => pending k' = pending k ∧ system_error e ∧ faulty k
  end.

Lemma batch_result_next timer fd evs k k1 out :
  same_files k k1 → pending k1 = pending k → expirations k1 = expirations k →
  (fd = _sfd → pending k = ∅) → (timer = Some fd → fd ≠ _sfd → expirations k ≤ 0)%Z →
  batch_result timer evs k1 out → batch_result timer (fd :: evs) k out.
Proof.
  unfold batch_result. intros Hs Hp Hx H1 H2 [Hs1 H]. split; [by eapply same_files_trans|].
  rewrite Hp, Hx in H. destruct out as [k' [[[v|]|]|e]]; simpl in *.
  - split; [set_solver|]. apply H.
  - done.
  - destruct H as (? & ? & H3 & H4). split_and!; [done|done|..].
    + intros [->|?]%elem_of_cons; auto.
    + intros f Hf Hne [->|?]%elem_of_cons; [auto|by eapply H4].
  - destruct H as (? & ? & ?). split_and!; [done|done|]. by eapply same_files_faulty.
Qed.

Lemma events_loop_spec timer evs k :
  masked (pending k) → (0 ≤ expirations k)%Z → batch_result timer evs k (events_loop timer evs k).
Proof.
  revert k. induction evs as [|fd evs IH]; intros k Hm He; simpl.
  { split; [apply same_files_refl|]. split_and!; [done|done|set_solver|set_solver]. }
  assert (Hnext : ∀ k1, same_files k k1 → pending k1 = pending k → expirations k1 = expirations k →
    (fd = _sfd → pending k = ∅) → (timer = Some fd → fd ≠ _sfd → expirations k ≤ 0)%Z →
    batch_result timer (fd :: evs) k (events_loop timer evs k1)).
  { intros k1 Hs Hp Hx H1 H2. eapply batch_result_next; [done..|]. apply IH; [by rewrite Hp|by rewrite Hx]. }
  destruct (Z.eqb_spec fd _sfd) as [->|Hne]; [|case_bool_decide as Ht; [|apply Hnext; try done; apply same_files_refl]];
    unfold mbind, M_bind.
  - pose proof (read_signal_spec k Hm) as Hr. destruct (read_signal k) as [k1 [r|e]]; [|done].
    destruct Hr as (Hs & Hx & [(-> & Hp & Hp1)|(Hb & Hin & Hp)]); simpl; [apply Hnext; try done; congruence|].
    destruct (barrier_signal_conv r Hb) as [v Hv]. pose proof (Polling.conv_positive _ _ _ Hv).
    rewrite (proj2 (Z.ltb_lt 0 r)) by lia. munfold_goal. rewrite Hv. split; [done|]. split; [set_solver|]. by exists r.
  - pose proof (read_timer_spec k) as Hr. destruct (read_timer k) as [k1 [n|e]]; [|done].
    destruct Hr as (Hs & Hp & -> & Hx). destruct (Z.ltb_spec 0 (expirations k)).
    + by split_and!; eauto.
    + apply Hnext; [done|done|lia|done|lia].
Qed.

(** ** Waiting *)

(** The signals that are pending at every report of the signal descriptor, when none is taken. *)
Definition expired (used : list turn) : Z := foldr (λ t n, expire t + n)%Z 0%Z used.
Definition reported (fd : Z) (t : turn) : bool :=
  match answer t with WEvents evs => bool_decide (fd ∈ evs) | _ => false end.
Fixpoint reports (X : gset Z) (l : list turn) : list (gset Z) :=
  match l with
  | [] => []
  | t :: l =>
    let X := X ∪ list_to_set (arrive t) in
    if reported _sfd t then X :: reports X l else reports X l
  end.
Definition silent (X : gset Z) : Prop := X = ∅.
Definition regular (t : turn) : Prop := masked (list_to_set (arrive t)) ∧ (0 ≤ expire t)%Z.

(** What a wait makes of the answers of the kernel it uses up, when [x] expirations of the timer
    have been counted before: it takes one of the signals at the first report of the
    descriptor that finds any, or nothing, after the timer expired; it fails only in
    [trouble], and blocks only when no report finds a signal, or the timer expired. *)
Definition effect (timer : option Z) (trouble : Prop) (x : Z) (k : kernel) (out : kernel * res (option SigVal)) : Prop :=
  ∃ used, script k = used ++ script out.1 ∧
  match out with
  | (k', Ok (Some v)) => ∃ quiet sig, reports (pending k) used = quiet ++ [pending k ∪ arrived used] ∧ Forall silent quiet ∧
      sig ∈ pending k ∪ arrived used ∧ pending k' = (pending k ∪ arrived used) ∖ {[sig]} ∧ from_signal_conv true sig = Ok v
  | (k', Ok None) => pending k' = pending k ∪ arrived used ∧ is_Some timer ∧ (0 < x + expired used)%Z
  | (k', Throw e) => pending k' = pending k ∪ arrived used ∧
      (system_error e ∧ trouble ∨
       e = blocked ∧ script k' = [] ∧ Forall silent (reports (pending k) (script k)) ∧
       ∀ fd used t rest, timer = Some fd → fd ≠ _sfd → script k = used ++ t :: rest → reported fd t = true →
         (x + expired (used ++ [t]) ≤ 0)%Z)
  end.
Definition wait_fails (l : list turn) : Prop := ∃ t, t ∈ l ∧ answer t = WFail.

Lemma effect_trouble timer (P Q : Prop) x k out : (P → Q) → effect timer P x k out → effect timer Q x k out.
Proof.
  intros H (used & Hu & Hr). exists used. split; [done|]. destruct out as [k' [[v|]|e]]; [done|done|].
  destruct Hr as (Hp & [[? ?]|?]); (split; [done|]); [left|right]; auto.
Qed.
Lemma effect_error timer (P : Prop) x k e : system_error e → P → effect timer P x k (k, Throw e).
Proof. intros. exists []. simpl. rewrite arrived_nil. split; [done|]. split; [done|]. by left. Qed.

(** One more turn before the rest, in which nothing was found. *)
Lemma effect_turn timer t l x P k k1 out :
  script k = t :: l → script k1 = l → pending k1 = pending k ∪ list_to_set (arrive t) →
  (reported _sfd t = true → pending k1 = ∅) →
  (∀ fd, timer = Some fd → fd ≠ _sfd → reported fd t = true → x + expire t ≤ 0)%Z →
  effect timer P (x + expire t) k1 out → effect timer P x k out.
Proof.
  intros Hs Hs1 Hp Hq Ht (used & Hu & Hr). exists (t :: used). rewrite Hs. rewrite Hs1 in Hu. split; [by rewrite Hu|].
  assert (∀ l, Forall silent (reports (pending k1) l) → Forall silent (reports (pending k) (t :: l))) as Hsil.
  { intros l' H. cbn [reports]. rewrite <-Hp. destruct (reported _sfd t); [constructor; [by apply Hq|done]|done]. }
  destruct out as [k' [[v|]|e]]; rewrite arrived_cons, <-Hp; simpl in *.
  - destruct Hr as (quiet & sig & H1 & H2 & H3). rewrite <-Hp. destruct (reported _sfd t).
    + exists (pending k1 :: quiet), sig. rewrite H1. split_and!; [done|constructor; [by apply Hq|done]|apply H3..].
    + exists quiet, sig. by split_and!; [..|apply H3|apply H3|apply H3].
  - destruct Hr as (? & ? & ?). split_and!; [done|done|lia].
  - destruct Hr as (? & [?|(-> & ? & H1 & H2)]); (split; [done|]); [by left|right].
    split_and!; [done|done|rewrite Hs1 in H1; by apply Hsil|]. intros fd us t' rest Hfd Hne Hk Hrep.
    destruct us as [|t0 us]; simplify_eq/=; [specialize (Ht fd eq_refl Hne Hrep); lia|].
    specialize (H2 fd us t' rest eq_refl Hne ltac:(congruence) Hrep). lia.
Qed.

Lemma wait_loop_spec timer fuel k :
  length (script k) < fuel → Forall regular (script k) → masked (pending k) → (0 ≤ expirations k)%Z →
  effect timer (faulty k ∨ wait_fails (script k)) (expirations k) k (wait_loop fuel timer k) ∧
  same_files (Kernel (opened k) (watched k) (script (wait_loop fuel timer k).1) (faults k) (pending k) (expirations k))
    (wait_loop fuel timer k).1.
Proof.
  revert k. induction fuel as [|fuel IH]; intros k Hn Hreg Hm He; [lia|].
  simpl. unfold mbind, M_bind, epoll_wait. destruct (script k) as [|t l] eqn:Hs.
  { split; [|split_and!; [done..|by exists []]]. exists []. simpl. rewrite arrived_nil, Hs. split; [done|]. split; [done|]. right.
    split_and!; [done|done|constructor|]. by intros fd [|] ? ? _ _ [=]. }
  apply list.Forall_cons in Hreg as [[Hmt Het] Hreg]. set (k1 := Kernel _ _ _ _ _ _).
  assert (Hm1 : masked (pending k1)) by (intros z [?|?]%elem_of_union; auto).
  assert (He1 : (0 ≤ expirations k1)%Z) by (simpl; lia).
  assert (Hf1 : faulty k1 → faulty k) by done.
  assert (Hgo : ∀ k2, same_files k1 k2 → pending k2 = pending k1 → expirations k2 = expirations k1 →
    (reported _sfd t = true → pending k1 = ∅) →
    (∀ fd, timer = Some fd → fd ≠ _sfd → reported fd t = true → expirations k1 ≤ 0)%Z →
    effect timer (faulty k ∨ wait_fails (t :: l)) (expirations k) k (wait_loop fuel timer k2) ∧
    same_files (Kernel (opened k) (watched k) (script (wait_loop fuel timer k2).1) (faults k) (pending k) (expirations k))
      (wait_loop fuel timer k2).1).
  { intros k2 Hs2 Hp Hx Hq Ht. pose proof Hs2 as (Ho & Hw & Hsc & u & Hfl). simpl in Hsc.
    destruct (IH k2) as [H1 H2]; [rewrite Hsc; simpl in *; lia|by rewrite Hsc|by rewrite Hp|by rewrite Hx|]. split.
    - eapply (effect_turn timer t l); [done|done|by rewrite Hp|by rewrite Hp|done|]. rewrite Hx in H1. simpl in H1.
      eapply effect_trouble; [|exact H1]. rewrite Hsc. intros [Hf|(t' & ? & ?)]; [left; by apply Hf1, (same_files_faulty k1 k2)|].
      right. exists t'. split; [by right|done].
    - destruct H2 as (? & ? & _ & u2 & Hu2). simpl in *. split_and!; simpl; [congruence|congruence|done|].
      exists (u ++ u2). by rewrite Hfl, Hu2, (assoc_L (++)). }
  destruct (answer t) as [evs| |] eqn:Ha; simpl.
  - pose proof (events_loop_spec timer evs k1 Hm1 He1) as [Hsame Hb].
    assert (∀ fd, reported fd t = true → fd ∈ evs) as Hrep.
    { intros fd. unfold reported. rewrite Ha. by rewrite bool_decide_eq_true. }
    destruct (events_loop timer evs k1) as [k2 [[[v|]|]|e]]; simpl in *.
    + destruct Hb as (Hin & sig & ? & ? & ?). destruct Hsame as (? & ? & Hsc & ?). split; [|done].
      exists [t]. split; [simpl; by rewrite Hs, Hsc|]. rewrite arrived_cons, arrived_nil. exists [], sig. simpl.
      unfold reported. rewrite Ha, bool_decide_true by done. done.
    + destruct Hb as (Hp & ? & ?). destruct Hsame as (? & ? & Hsc & ?). split; [|done].
      exists [t]. split; [simpl; by rewrite Hs, Hsc|]. rewrite arrived_cons, arrived_nil. split_and!; [done|done|simpl; lia].
    + destruct Hb as (Hp & Hx & H1 & H2). apply Hgo; [done..|by intros ?%Hrep; auto|]. intros fd ? ? ?%Hrep. eauto.
    + destruct Hb as (Hp & ? & ?). destruct Hsame as (? & ? & Hsc & ?). split; [|done].
      exists [t]. split; [simpl; by rewrite Hs, Hsc|]. rewrite arrived_cons, arrived_nil. split; [done|]. left. auto.
  - apply Hgo; [apply same_files_refl|done|done|..]; unfold reported; rewrite Ha; done.
  - split; [|split_and!; [done..|by exists []]]. exists [t]. split; [done|]. rewrite arrived_cons, arrived_nil. simpl.
    split; [done|]. left. split; [by eexists|]. right. exists t. split; [by left|done].
Qed.

(** ** The calls as a whole *)

(** A block that owns an epoll descriptor with the watches [fds]. *)
Fixpoint watching {A} (epfd : Z) (fds : list Z) (body : M kernel A) : M kernel A :=
  match fds with
  | [] => body
  | fd :: fds => epoll_add epfd fd;; guard (epoll_remove epfd fd) (watching epfd fds body)
  end.
Definition with_epoll {A} (fds : list Z) (body : M kernel A) : M kernel A :=
  epfd ← epoll_create1; guard (close_epoll epfd) (watching epfd fds body).

Lemma wait_eq : wait = with_epoll [_sfd] (wait_main None).
Proof. done. Qed.
Lemma wait_for_eq to :
  wait_for to = (mthrow_if (to <=? 0)%Z (NstlException "timeout must be greater than zero");;
    timer_fd ← create_timer_file to;
    guard (close timer_fd) (with_epoll [_sfd; timer_fd] (wait_main (Some timer_fd)))).
Proof. done. Qed.

(** A descriptor that the system does not take back ends the process; in every other case
    the effect is as said, the epoll sets are as before, and the descriptors but for
    [left]. *)
Definition terminates {A} (r : res A) : Prop := ∃ what, r = Throw (Terminated what).
Definition call_result (timer : option Z) (fds : list Z) (trouble : Prop) (x : Z) (left : gset Z) (k : kernel)
    (out : kernel * res (option SigVal)) : Prop :=
  terminates out.2 ∧ (∃ fd, fd ∈ fds ∧ del_ok fd = false) ∨
  ¬ terminates out.2 ∧ effect timer trouble x k out ∧ watched out.1 = watched k ∧ opened out.1 = left ∪ opened k.
(** What the system may refuse. *)
Definition troubled (fds : list Z) (k : kernel) : Prop :=
  faulty k ∨ wait_fails (script k) ∨ new_epoll = None ∨ ∃ fd, fd ∈ fds ∧ ctl_ok fd = false.
Definition timer_refused (to : Z) : Prop := (to ≤ 0)%Z ∨ new_timer = None ∨ settime_ok (timer_spec to) = false.

Lemma not_terminates_Ok {A} (a : A) : ¬ terminates (Ok a).
Proof. by intros [? ?]. Qed.
Lemma guard_cases {A} clean (body : M kernel A) k :
  (∀ k1, ∃ k2, clean k1 = (k2, Ok ())) →
  terminates (body k).2 ∧ guard clean body k = body k ∨
  ¬ terminates (body k).2 ∧ guard clean body k = ((clean (body k).1).1, (body k).2).
Proof.
  intros Hc. unfold guard. destruct (body k) as [k1 [a|e]]; simpl.
  - right. split; [apply not_terminates_Ok|]. by destruct (Hc k1) as [k2 ->].
  - destruct (Hc k1) as [k2 E]. destruct e; try (right; split; [by intros [? ?]|by rewrite E]). left. split; [by eexists|done].
Qed.

Lemma delete_alter_same epfd f (m : gmap Z (gset Z)) : delete epfd (alter f epfd m) = delete epfd m.
Proof.
  apply map_eq. intros i. destruct (decide (i = epfd)) as [->|]; [by rewrite !lookup_delete_eq|].
  by rewrite !lookup_delete_ne, lookup_alter_ne by done.
Qed.

(** The effect does not depend on the descriptors. *)
Lemma effect_files timer P x k k1 out k2 :
  effect timer P x k1 out → script k1 = script k → pending k1 = pending k →
  script k2 = script out.1 → pending k2 = pending out.1 → effect timer P x k (k2, out.2).
Proof.
  intros (used & Hu & Hr) Hs Hp Hs2 Hp2. exists used. rewrite Hs in *. rewrite Hp in *. simpl. split; [by rewrite Hs2|].
  destruct out as [k' [[v|]|e]]; simpl in *; rewrite ?Hp2, ?Hs2; [done|done|]. done.
Qed.

Lemma watching_result timer epfd fds k :
  Forall regular (script k) → masked (pending k) → (0 ≤ expirations k)%Z →
  let out := watching epfd fds (wait_main timer) k in
  terminates out.2 ∧ (∃ fd, fd ∈ fds ∧ del_ok fd = false) ∨
  ¬ terminates out.2 ∧
    effect timer (faulty k ∨ wait_fails (script k) ∨ ∃ fd, fd ∈ fds ∧ ctl_ok fd = false) (expirations k) k out ∧
    opened out.1 = opened k ∧ delete epfd (watched out.1) = delete epfd (watched k).
Proof.
  intros Hr Hm He. revert k Hr Hm He. induction fds as [|fd fds IH]; intros k Hr Hm He; simpl.
  - right. change (wait_main timer k) with (wait_loop (S (length (script k))) timer k).
    destruct (wait_loop_spec timer (S (length (script k))) k) as [H (Ho & Hw & _)]; [lia|done..|].
    remember (wait_loop (S (length (script k))) timer k) as out. clear Heqout. cbn in Ho, Hw.
    split_and!; [|by eapply effect_trouble; [|exact H]; tauto|done|by rewrite Hw].
    destruct H as (used & _ & H). destruct out as [k' [[v|]|e]]; simpl; try apply not_terminates_Ok.
    destruct H as (_ & [[[s ->] _]|[-> _]]); by intros [? ?].
  - unfold mbind, M_bind, epoll_add. munfold_goal. destruct (ctl_ok fd) eqn:Hctl; simpl.
    2: { right. split_and!; [by intros [? ?]| |done|done]. apply effect_error; [by eexists|]. right. right. exists fd. set_solver. }
    set (k1 := set_watched _ k). destruct (IH k1) as [[Ht (f & ? & ?)]|(Ht & H & Ho & Hw)]; [done..| |].
    { left. split; [|exists f; set_solver]. unfold guard. destruct Ht as [what Ht].
      destruct (watching epfd fds (wait_main timer) k1) as [k2 r]; simpl in *. subst r. by eexists. }
    destruct (del_ok fd) eqn:Hdel.
    + destruct (guard_cases (epoll_remove epfd fd) (watching epfd fds (wait_main timer)) k1) as [[? _]|[_ E]]; [|done|].
      { intros k2. eexists. unfold epoll_remove. rewrite Hdel. done. }
      rewrite E. unfold epoll_remove. rewrite Hdel. right. simpl. split_and!; [done| |done|].
      * eapply effect_trouble; [|by eapply effect_files; [exact H|..]].
        intros [?|[?|(f & ? & ?)]]; [tauto|tauto|]. right. right. exists f. set_solver.
      * rewrite delete_alter_same, Hw. apply delete_alter_same.
    + left. split; [|exists fd; set_solver]. unfold guard, epoll_remove. rewrite Hdel. munfold_goal.
      destruct (watching epfd fds (wait_main timer) k1) as [k2 [a|e]]; [by eexists|]. destruct e; by eexists.
Qed.

Lemma with_epoll_result timer fds k :
  (∀ fd, new_epoll = Some fd → fd ∉ opened k ∧ watched k !! fd = None) →
  Forall regular (script k) → masked (pending k) → (0 ≤ expirations k)%Z →
  call_result timer fds (troubled fds k) (expirations k) ∅ k (with_epoll fds (wait_main timer) k).
Proof.
  intros Hfresh Hr Hm He. unfold with_epoll, epoll_create1, call_result, troubled. destruct new_epoll as [epfd|]; munfold_goal.
  2: { right. split_and!; [by intros [? ?]| |done|set_solver]. apply effect_error; [by eexists|tauto]. }
  destruct (Hfresh epfd eq_refl) as [Hno Hnw]. set (k1 := set_watched _ _).
  destruct (watching_result timer epfd fds k1) as [[Ht ?]|(Ht & H & Ho & Hw)]; [done..| |];
    (destruct (guard_cases (close_epoll epfd) (watching epfd fds (wait_main timer)) k1) as [[? E]|[? E]];
     [by eexists| |]); rewrite E; try done.
  - by left.
  - right. simpl. split_and!; [done| |..].
    + eapply effect_trouble; [|by eapply effect_files; [exact H|..]].
      intros [?|[?|?]]; auto.
    + rewrite Hw. simpl. rewrite delete_insert_eq. by apply delete_id.
    + rewrite Ho. simpl. set_solver.
Qed.

(** The descriptors a new call gets are not in use. *)
Definition fresh_descriptors (k : kernel) : Prop :=
  (∀ fd, new_timer = Some fd → fd ∉ opened k) ∧
  (∀ fd, new_epoll = Some fd → fd ∉ opened k ∧ watched k !! fd = None ∧ new_timer ≠ Some fd).
(** The descriptor that stays open when the timer cannot be set. *)
Definition leaked (to : Z) : gset Z :=
  match new_timer with
  | Some fd => if (0 <? to)%Z && negb (settime_ok (timer_spec to)) then {[fd]} else ∅
  | None => ∅
  end.
(** The descriptors that a [wait_for] watches. *)
Definition timed_fds : list Z := _sfd :: match new_timer with Some fd => [fd] | None => [] end.

Lemma wait_for_result to k :
  fresh_descriptors k → Forall regular (script k) → masked (pending k) →
  call_result new_timer timed_fds (timer_refused to ∨ troubled timed_fds k) 0 (leaked to) k (wait_for to k).
Proof.
  intros [Ht He] Hr Hm. rewrite wait_for_eq. unfold create_timer_file, leaked, timed_fds, timer_refused. munfold_goal.
  assert (∀ left s, (left ∪ opened k = opened k) → ((to ≤ 0)%Z ∨ new_timer = None ∨ settime_ok (timer_spec to) = false) →
    call_result new_timer timed_fds (((to ≤ 0)%Z ∨ new_timer = None ∨ settime_ok (timer_spec to) = false) ∨ troubled timed_fds k)
      0 left k (k, Throw (NstlException s))) as Herr.
  { intros left s Hl Hw. right. split_and!; [by intros [? ?]| |done|done]. apply effect_error; [by eexists|by left]. }
  destruct (Z.leb_spec to 0) as [Hle|Hgt]; simpl.
  { rewrite (proj2 (Z.ltb_ge 0 to)) by lia; simpl. apply Herr; [|by left]. destruct new_timer; set_solver. }
  rewrite (proj2 (Z.ltb_lt 0 to)) by lia; simpl. unfold timed_fds in *.
  destruct new_timer as [tfd|]; [|apply Herr; [set_solver|by right; left]].
  destruct (settime_ok (timer_spec to)) eqn:Hset; simpl.
  2: { right. split_and!; [by intros [? ?]| |done|done]. eapply (effect_files _ _ _ k k (k, Throw (NstlException "timerfd_settime failed"))); try done.
       apply effect_error; [by eexists|]. left. auto. }
  set (k1 := set_expirations _ _). set (fds := [_sfd; tfd]).
  destruct (with_epoll_result (Some tfd) fds k1) as [[Hd ?]|(Hd & H & Hw & Ho)]; [|done|done|simpl; lia|..].
  { intros fd Hfd. destruct (He fd Hfd) as (? & ? & ?). simpl. set_solver. }
  all: destruct (guard_cases (close tfd) (with_epoll fds (wait_main (Some tfd))) k1) as [[? E]|[? E]]; [by eexists| |];
    rewrite E; try done.
  { by left. }
  right. simpl. split_and!; [done| |done|].
  - eapply effect_trouble; [|by eapply effect_files; [exact H|..]]. auto.
  - rewrite Ho. simpl. specialize (Ht tfd eq_refl). set_solver.
Qed.

End epoll.

(** A timer that expires in the second turn, after SIGINT and SIGTERM have come, SIGINT twice. *)
Definition demo_kernel : kernel :=
  Kernel {[3%Z]} ∅ [Turn [2%Z] 0 WIntr; Turn [2; 15]%Z 1 (WEvents [3; 7]%Z)] [FIntr] ∅ 0.
(** A choice among the pending signals. *)
Definition first_of (X : gset Z) : Z := default 0%Z (head (elements X)).
Lemma first_of_in (X : gset Z) : X ≠ ∅ → first_of X ∈ X.
Proof.
  intros Hne. unfold first_of. destruct (elements X) as [|x l] eqn:E; [by apply elements_empty_inv, leibniz_equiv in E|].
  simpl. apply elem_of_elements. rewrite E. set_solver.
Qed.

End Epoll.
