(* ===== verification/Barrier.v ===== *)
(** * The contract of a signal barrier: signal_barrier.hpp

    [SignalBarrier] states what the class of signal_barrier.hpp promises to a program that
    waits in its scope, in terms of the values that the barrier can see each time it looks.
    The barrier of signal_barrier_linux.cpp and that of signal_barrier.cpp, compiled for
    macOS or for Windows, are its instances. *)

From S2P Require Import Prelude Raii Signals.
Import SigVal.

(** A block that owns an object: its destructor runs when the block is left. *)
Definition with_object {W O A} (make : M W O) (drop : O → W → W) (body : O → M W A) : M W A :=
  o ← make; ScopeExit.on_scope_exit (drop o) (body o).

Definition no_values (b : list SigVal) : Prop := b = [].
Definition terminated (e : exn) : Prop := ∃ what, e = Terminated what.

(** The operations of the class over the world [W], and their laws.  The barrier with the
    given signal descriptor looks several times, and sees one of the [batches] of values
    each time; of the first that is not empty it gives a value that it [picks].  It fails
    only in [trouble], and the process is ended only when it is [doomed]. *)
Class SignalBarrier (W : Type) := {
  object : Type;
  make_barrier : GlobalInit.process → M W object;
  wait : object → M W SigVal;
  destroy : object → W → W;
  fit : W → Prop;
  batches : Z → W → list (list SigVal);
  picks : list SigVal → SigVal → Prop;
  blocked : exn;
  restored : W → W → Prop;
  trouble : Z → W → Prop;
  doomed : Z → W → Prop;
  (** the errors of the constructor that leave something behind *)
  spoils : exn → Prop;
  barrier_law p w :
    fit w →
    let fd := GlobalInit.getSignalFile p in
    match with_object (make_barrier p) destroy wait w with
    | (w', Ok v) =>
      (∃ quiet b rest, batches fd w = quiet ++ b :: rest ∧ Forall no_values quiet ∧ picks b v) ∧ restored w w'
    | (w', Throw e) =>
      Epoll.system_error e ∧ trouble fd w ∧ (restored w w' ∨ spoils e) ∨
      e = blocked ∧ Forall no_values (batches fd w) ∧ restored w w' ∨
      terminated e ∧ doomed fd w
    end;
}.

(** ** Linux *)

Module EpollBarrier.
Section instance.
Context (new_epoll : option Z) (ctl_ok del_ok : Z → bool) (pick : gset Z → Z).
Context (pick_in : ∀ X, X ≠ ∅ → pick X ∈ X).

Definition fit (k : Epoll.kernel) : Prop :=
  (∀ fd, new_epoll = Some fd → fd ∉ Epoll.opened k ∧ Epoll.watched k !! fd = None) ∧
  Forall Epoll.regular (Epoll.script k) ∧ Epoll.masked (Epoll.pending k) ∧ (0 ≤ Epoll.expirations k)%Z.
(** The signals that are pending at every report of the descriptor, while none is taken. *)
Definition value_batch (X : gset Z) : list SigVal :=
  omap (λ sig, match from_signal_conv true sig with Ok v => Some v | Throw _ => None end) (elements X).
Definition batches (fd : Z) (k : Epoll.kernel) : list (list SigVal) :=
  value_batch <$> Epoll.reports fd (Epoll.pending k) (Epoll.script k).
(** The overload of [wait] without a time never returns without a value. *)
Definition wait (sfd : Z) : M Epoll.kernel SigVal :=
  v ← Epoll.wait new_epoll ctl_ok del_ok pick sfd;
  match v with Some v => mret v | None => mthrow (UndefinedBehaviour "wait returns a signal") end.
Definition restored (k k' : Epoll.kernel) : Prop :=
  Epoll.opened k' = Epoll.opened k ∧ Epoll.watched k' = Epoll.watched k.
Definition trouble (fd : Z) (k : Epoll.kernel) : Prop := (fd < 0)%Z ∨ Epoll.troubled new_epoll ctl_ok [fd] k.
Definition doomed (fd : Z) (k : Epoll.kernel) : Prop := del_ok fd = false.

Lemma reports_app fd X l1 l2 :
  Epoll.reports fd X (l1 ++ l2) = Epoll.reports fd X l1 ++ Epoll.reports fd (X ∪ Epoll.arrived l1) l2.
Proof.
  revert X. induction l1 as [|t l1 IH]; intros X; simpl; [by rewrite Epoll.arrived_nil|].
  rewrite IH, Epoll.arrived_cons. by destruct (Epoll.reported fd t).
Qed.
Lemma silent_batches l : Forall Epoll.silent l → Forall no_values (value_batch <$> l).
Proof. intros H. apply Forall_fmap. eapply list.Forall_impl; [exact H|]. by intros X ->. Qed.
Lemma value_batch_in X sig v : sig ∈ X → from_signal_conv true sig = Ok v → v ∈ value_batch X.
Proof. intros ? Hv. apply list_elem_of_omap. exists sig. by rewrite elem_of_elements, Hv. Qed.

Lemma epoll_law p k :
  fit k →
  let fd := GlobalInit.getSignalFile p in
  match with_object (mlift (Epoll.make_barrier p)) (λ _ k, k) wait k with
  | (k', Ok v) =>
    (∃ quiet b rest, batches fd k = quiet ++ b :: rest ∧ Forall no_values quiet ∧ v ∈ b) ∧ restored k k'
  | (k', Throw e) =>
    Epoll.system_error e ∧ trouble fd k ∧ (restored k k' ∨ False) ∨
    e = Epoll.blocked ∧ Forall no_values (batches fd k) ∧ restored k k' ∨
    terminated e ∧ doomed fd k
  end.
Proof.
  intros (Hf & Hr & Hm & He). unfold with_object, Epoll.make_barrier, wait. munfold_goal.
  destruct (Z.ltb_spec (GlobalInit.getSignalFile p) 0) as [Hlt|Hge]; simpl.
  { left. split_and!; [by eexists|by left|by left]. }
  unfold ScopeExit.on_scope_exit. set (sfd := GlobalInit.getSignalFile p).
  pose proof (Epoll.with_epoll_result new_epoll (λ _, true) ctl_ok del_ok pick sfd pick_in None [sfd] k Hf Hr Hm He) as H.
  rewrite <-Epoll.wait_eq in H.
  destruct H as [[[what Ht] (fd & Hfd & Hdel)]|(Hnt & (used & Hu & H) & Hw & Ho)];
    destruct (Epoll.wait new_epoll ctl_ok del_ok pick sfd k) as [k' [[v|]|e]]; simpl in *; try done.
  - right. right. split; [exists what; congruence|]. by apply list_elem_of_singleton in Hfd as ->.
  - destruct H as (quiet & sig & Hq & Hs & Hin & _ & Hv). split; [|split; [set_solver|done]].
    unfold batches. rewrite Hu, reports_app, Hq. rewrite !fmap_app, <-(assoc_L (++)). simpl.
    eexists _, _, _. split_and!; [done|by apply silent_batches|by eapply value_batch_in].
  - by destruct H as (_ & [? ?] & _).
  - assert (restored k k') as Hres by (split; [set_solver|done]).
    destruct H as (_ & [[? ?]|(-> & _ & Hs & _)]); [left|right; left]; split_and!; auto; [by right|by apply silent_batches].
Qed.

#[export] Instance barrier : SignalBarrier Epoll.kernel := {|
  object := Z;
  make_barrier p := mlift (Epoll.make_barrier p);
  Barrier.wait := wait;
  destroy _ k := k;
  Barrier.fit := fit;
  Barrier.batches := batches;
  picks b v := v ∈ b;
  blocked := Epoll.blocked;
  Barrier.restored := restored;
  Barrier.trouble := trouble;
  Barrier.doomed := doomed;
  spoils _ := False;
  barrier_law := epoll_law;
|}.
End instance.
End EpollBarrier.

(** ** macOS and Windows *)

Module PollingBarrier.
Section instance.
(** Whether [SetConsoleCtrlHandler] succeeds, the period, and what arrives before each of
    the [polls] polls that are looked at. *)
Context (win32 console : bool) (period : Z) (arrivals : nat → list Polling.event) (polls : nat).

(** The values of the arrivals before one poll: a signal goes before a console event. *)
Definition batch (l : list Polling.event) : list SigVal :=
  omap Polling.console_value (Polling.consoles win32 l) ++
  omap (λ sig, match from_signal_conv (negb win32) sig with Ok v => Some v | Throw _ => None end) (Polling.signals win32 l).
Definition batches (fd : Z) (g : Polling.globals) : list (list SigVal) := (λ k, batch (arrivals k)) <$> seq 0 polls.
Definition restored (g g' : Polling.globals) : Prop :=
  Polling.in_use g' = Polling.in_use g ∧ ∀ sig, Polling.disposition g' sig = Polling.disposition g sig.
Definition trouble (fd : Z) (g : Polling.globals) : Prop := (period ≤ 0)%Z ∨ win32 = true ∧ console = false.
(** On Windows the process ends when the first signals contain one twice. *)
Definition doomed (fd : Z) (g : Polling.globals) : Prop :=
  win32 = true ∧ ∃ n, n < polls ∧ (∀ j, j < n → batch (arrivals j) = []) ∧ ¬ NoDup (Polling.signals win32 (arrivals n)).
Definition spoils (e : exn) : Prop := win32 = true ∧ e = NstlException "SetConsoleCtrlHandler failed".

Lemma heard_batch l v c : Polling.heard win32 Polling.running_true l = Some (v, c) → list.last (batch l) = Some v.
Proof.
  unfold Polling.heard, batch. destruct (list.last (Polling.signals win32 l)) as [sig|] eqn:Hs.
  - apply last_Some in Hs as [l' ->]. rewrite omap_app. simpl.
    destruct (from_signal_conv (negb win32) sig); intros [= <- <-]. by rewrite (assoc_L (++)), list.last_snoc.
  - apply last_None in Hs. rewrite Hs. simpl. rewrite app_nil_r. destruct win32; [|done].
    destruct (list.last (Polling.consoles true l)) as [ev|] eqn:Hc; [|done].
    apply last_Some in Hc as [l' ->]. simpl. rewrite omap_app. simpl. destruct (ev =? Polling.running_true)%Z; [done|].
    destruct (Polling.console_value ev); intros [= <- <-]. by rewrite list.last_snoc.
Qed.

Lemma quiet_batch l : Polling.quiet win32 l → batch l = [].
Proof. intros [H1 H2]. unfold batch. by rewrite H1, H2. Qed.

Lemma survives_fresh l : ¬ Polling.survives win32 ∅ l → win32 = true ∧ ¬ NoDup l.
Proof. unfold Polling.survives. destruct win32; [|intros []; done]. intros H. split; [done|]. intros Hn. apply H. intros _. set_solver. Qed.

Lemma make_error g :
  Polling.in_use g = false →
  match Polling.make_barrier win32 console period g with
  | (g', Ok _) => True
  | (g', Throw e) => Epoll.system_error e ∧ trouble 0 g ∧ (restored g g' ∨ spoils e)
  end.
Proof.
  intros Hu. unfold restored, trouble, spoils, Polling.make_barrier, Polling.signal. munfold_goal.
  destruct (Z.leb_spec period 0); simpl; [split_and!; [by eexists|by left|by left]|]. rewrite Hu. simpl.
  destruct win32, console; simpl; try done. split_and!; [by eexists|by right|by right].
Qed.

(** The destructor gives back what the constructor took, whatever was heard. *)
Lemma destroy_restores g g1 o l c :
  Polling.unarmed g → Polling.make_barrier win32 console period g = (g1, Ok o) →
  restored g (Polling.destroy win32 (Polling.spend win32 (Polling.signals win32 l) (Polling.set_app_running c g1))).1.
Proof.
  intros Hu Hmk. set (g2 := Polling.spend _ _ _). destruct (Polling.destroy win32 g2) as [g3 r] eqn:Hd.
  assert (r = Ok ()) as -> by (unfold Polling.destroy, Polling.signal in Hd; munfold; destruct win32; by simplify_eq).
  destruct (Polling.spend_frame win32 (Polling.signals win32 l) (Polling.set_app_running c g1)) as (_ & _ & _ & ? & ? & ? & ? & Hdisp).
  edestruct Polling.barrier_scope_restores as (Hin & Hds & _); [exact Hmk|..|exact Hd|]; [|done..|].
  - intros sig Hn. apply Hdisp. intros [? _]%list_elem_of_filter. congruence.
  - simpl. split; [|done]. by rewrite Hin, (proj1 Hu).
Qed.

Lemma polling_law (p : GlobalInit.process) g :
  Polling.unarmed g →
  let fd := GlobalInit.getSignalFile p in
  match with_object (Polling.make_barrier win32 console period) (λ _ g, (Polling.destroy win32 g).1)
    (λ _, Polling.wait win32 arrivals polls 0) g with
  | (g', Ok v) =>
    (∃ quiet b rest, batches fd g = quiet ++ b :: rest ∧ Forall no_values quiet ∧ list.last b = Some v) ∧ restored g g'
  | (g', Throw e) =>
    Epoll.system_error e ∧ trouble fd g ∧ (restored g g' ∨ spoils e) ∨
    e = UndefinedBehaviour "wait: out of fuel" ∧ Forall no_values (batches fd g) ∧ restored g g' ∨
    terminated e ∧ doomed fd g
  end.
Proof.
  intros Hu. unfold with_object. unfold mbind, M_bind.
  pose proof (make_error g (proj1 Hu)) as He.
  destruct (Polling.make_barrier win32 console period g) as [g1 [o|e]] eqn:Hmk; [|by left].
  destruct (Polling.make_barrier_armed _ _ _ _ _ _ Hmk Hu) as (Ha & _ & _ & _ & Hr).
  unfold ScopeExit.on_scope_exit.
  destruct (Polling.wait_correct win32 arrivals ∅ g1 0 polls Ha) as [(n & Hn & Hq & Hs)|[-> Hq]].
  - assert (∀ j, j < n → batch (arrivals j) = []) as Hqb by (intros j ?; apply quiet_batch, Hq; lia).
    destruct (Polling.wait win32 arrivals polls 0 g1) as [g' [v|e]]; simpl in Hs.
    + destruct Hs as (c & Hh & _ & -> & _). rewrite Hr in Hh. split; [|by eapply destroy_restores].
      exists ((λ k, batch (arrivals k)) <$> seq 0 n), (batch (arrivals n)), ((λ k, batch (arrivals k)) <$> seq (S n) (polls - S n)).
      split_and!; [| |by eapply heard_batch].
      * unfold batches. replace polls with (n + S (polls - S n)) at 1 by lia. by rewrite seq_app, fmap_app.
      * apply Forall_fmap, list.Forall_forall. intros j Hj%elem_of_seq. apply Hqb. lia.
    + destruct Hs as [-> [Hw Hnd]%survives_fresh]. right. right. split; [by eexists|]. split; [done|]. exists n. split_and!; [lia|done|done].
  - right. left. split_and!; [done| |].
    + apply Forall_fmap, list.Forall_forall. intros j Hj%elem_of_seq. apply quiet_batch, Hq. lia.
    + pose proof (destroy_restores g g1 o [] (Polling.app_running g1) Hu Hmk) as H. unfold Polling.spend in H.
      destruct win32; by destruct g1.
Qed.

#[export] Instance barrier : SignalBarrier Polling.globals := {|
  object := Z;
  make_barrier _ := Polling.make_barrier win32 console period;
  wait _ := Polling.wait win32 arrivals polls 0;
  destroy _ g := (Polling.destroy win32 g).1;
  fit := Polling.unarmed;
  Barrier.batches := batches;
  picks b v := list.last b = Some v;
  blocked := UndefinedBehaviour "wait: out of fuel";
  Barrier.restored := restored;
  Barrier.trouble := trouble;
  Barrier.doomed := doomed;
  Barrier.spoils := spoils;
  barrier_law := polling_law;
|}.
End instance.
End PollingBarrier.
