(* ===== verification/MultiProc.v ===== *)
(** * The process runners: bin/main_linux.cpp, bin/main_macos.cpp

    [Proc] models the [process] record of the Linux runner with the descriptors it
    owns, [Spawn] the arguments and environments the children are started with and
    the checks of [main], [Multi] the event loop of the Linux runner as a step
    relation with its children, [MacMulti] the loop of the macOS runner. *)

From S2P Require Import Prelude Strings Parse.

(** ** [struct process] *)

Module Proc.
Record process := Process { pid : Z; read_fd : Z; write_fd : Z }.

(** The processes under their names, and the open descriptors. *)
Record world := World { procs : gmap nat process; opened : gset Z; watched : gset Z }.

Definition get (i : nat) : M world process := λ w,
  match procs w !! i with
  | Some p => (w, Ok p)
  | None => (w, Throw (UndefinedBehaviour "no such process object"))
  end.
Definition put (i : nat) (p : process) : M world () :=
  mmodify (λ w, World (<[i := p]> (procs w)) (opened w) (watched w)).
Definition close (fd : Z) : M world () :=
  mmodify (λ w, World (procs w) (opened w ∖ {[fd]}) (watched w ∖ {[fd]})).

(** The constructor; [fds] are the descriptors of [pipe2], or none. *)
Definition make (fds : option (Z * Z)) (i : nat) : M world () :=
  match fds with
  | None => mthrow (RuntimeError "Pipe cannot be opened")
  | Some (r, w) =>
    mmodify (λ s, World (procs s) ({[r; w]} ∪ opened s) (watched s));;
    put i (Process 0 r w)
  end.
Definition reset (i : nat) : M world () :=
  p ← get i;
  (if (0 <=? read_fd p)%Z then close (read_fd p) else mret ());;
  (if (0 <=? write_fd p)%Z then close (write_fd p) else mret ());;
  put i (Process (pid p) (if (0 <=? read_fd p)%Z then -1 else read_fd p)
           (if (0 <=? write_fd p)%Z then -1 else write_fd p)).
(** [swap] exchanges the descriptors, and not the process ids. *)
Definition swap (i j : nat) : M world () :=
  a ← get i; b ← get j;
  put i (Process (pid a) (read_fd b) (write_fd b));;
  b ← get j;
  put j (Process (pid b) (read_fd a) (write_fd a)).
Definition move_construct (this other : nat) : M world () := put this (Process 0 (-1) (-1));; swap this other.
Definition move_assign (this other : nat) : M world () :=
  if decide (this = other) then mret () else reset this;; swap this other.
Definition destroy (i : nat) : M world () :=
  reset i;; mmodify (λ w, World (delete i (procs w)) (opened w) (watched w)).
Definition validPid (p : process) : bool := (0 <? pid p)%Z.
Definition valid (p : process) : bool := validPid p || (0 <=? read_fd p)%Z.
(** [close_read]; [ctl_ok] is whether the descriptor could be taken off. *)
Definition close_read (ctl_ok : bool) (i : nat) : M world () :=
  p ← get i;
  if (read_fd p <? 0)%Z then mret ()
  else
    mthrow_if (negb ctl_ok) (RuntimeError "epoll_ctl failed");;
    close (read_fd p);;
    put i (Process (pid p) (-1) (write_fd p)).

(** A moved process forgets which child it stands for. *)
Lemma move_loses_pid i j p w :
  procs w !! j = Some p → i ≠ j →
  ∃ w', move_construct i j w = (w', Ok ()) ∧
    procs w' !! i = Some (Process 0 (read_fd p) (write_fd p)) ∧
    procs w' !! j = Some (Process (pid p) (-1) (-1)) ∧ opened w' = opened w.
Proof.
  intros Hj Hij. unfold move_construct, swap, put, get. munfold_goal.
  rewrite lookup_insert_eq. simpl. rewrite lookup_insert_ne, Hj by done. simpl.
  rewrite !lookup_insert_ne, Hj by done. simpl. eexists. split; [done|]. simpl.
  rewrite lookup_insert_ne, !lookup_insert_eq by done. done.
Qed.
End Proc.

(** ** Starting the children *)

Module Spawn.
Import SecureString.

Definition uint32 : Parse.int_type := Parse.IntType false 32.

(** What [main] makes of its arguments: the version, or the number of processes
    and the command. *)
Inductive command := Version | Run (threads : Z) (argv : list str).
Definition parse_command (argv : list str) : res command :=
  match argv with
  | _ :: v :: _ =>
    if (strcmp (Some (lit "--version")) (Some v) =? 0)%Z then Ok Version
    else
      throw_if (length argv <? 3)%nat (InvalidArgument "At least 3 args expected");;
      threads ← Parse.parse_view_int uint32 v;
      throw_if (threads =? 0)%Z (RuntimeError "at least one thread must be set");;
      Ok (Run threads (drop 2 argv))
  | _ => Throw (InvalidArgument "At least 3 args expected")
  end.

(** The two variables a child gets besides those of the runner. *)
Definition env_var_big (size : Z) : str := lit "NSTL_PROCESSES_NUMBER=" ++ Parse.print_Z size.
Definition env_var_idx (idx : Z) : str := lit "NSTL_PROCESSES_ID=" ++ Parse.print_Z idx.

(** What a started child sees. *)
Record image := Image { args : list str; environ : list str }.

(** How a forked child goes on: replaced by the command ([None]), or with the code
    its own [main] returns when [execve] fails. *)
Definition child_main (dup_ok exec_ok : bool) : res (option Z) :=
  throw_if (negb dup_ok) (RuntimeError "duplicate handle failed");;
  Ok (if exec_ok then None else Some 1%Z).
Definition mac_child_main (exec_ok : bool) : option Z := if exec_ok then None else Some (-1)%Z.

(** [start_processes] of the Linux runner: [envvars] is reused, cut back to
    [base_size] for each child; [forks] are the answers of [fork] to the parent.
    The children started and their process ids. *)
Fixpoint start_loop (argv : list str) (envvars : list str) (base_size : nat) (forks : list Z) (idx : Z)
    : list (Z * image) * res () :=
  match forks with
  | [] => ([], Ok ())
  | pid :: forks =>
    let envvars := take base_size envvars ++ [env_var_idx idx] in
    if (pid <? 0)%Z then ([], Throw (RuntimeError "::fork failed"))
    else
      let '(l, r) := start_loop argv envvars base_size forks (idx + 1) in
      ((pid, Image argv envvars) :: l, r)
  end.
Definition start_processes (argv envv : list str) (size : nat) (forks : list Z) : list (Z * image) * res () :=
  let envvars := envv ++ [env_var_big (Z.of_nat size)] in
  start_loop argv envvars (length envvars) forks 0.

(** [start_processes] of the macOS runner: the child adds its variable to its
    own copy of the vector. *)
Fixpoint mac_start_loop (argv : list str) (envvars : list str) (forks : list Z) (idx : Z)
    : list (Z * image) * res () :=
  match forks with
  | [] => ([], Ok ())
  | pid :: forks =>
    if (pid <? 0)%Z then ([], Throw (RuntimeError "::fork failed"))
    else
      let '(l, r) := mac_start_loop argv envvars forks (idx + 1) in
      ((pid, Image argv (envvars ++ [env_var_idx idx])) :: l, r)
  end.
Definition mac_start_processes (argv envv : list str) (threads : Z) (forks : list Z) : list (Z * image) * res () :=
  mac_start_loop argv (envv ++ [env_var_big threads]) forks 0.

(** What the [i]-th child should see. *)
Definition child_image (argv envv : list str) (size : Z) (i : nat) : image :=
  Image argv (envv ++ [env_var_big size; env_var_idx (Z.of_nat i)]).

Lemma start_loop_images argv base extra forks idx :
  Forall (λ p, 0 ≤ p)%Z forks →
  start_loop argv (base ++ extra) (length base) forks (Z.of_nat idx) =
  (imap (λ i p, (p, Image argv (base ++ [env_var_idx (Z.of_nat (idx + i))]))) forks, Ok ()).
Proof.
  intros Hf. revert idx extra. induction Hf as [|p forks Hp _ IH]; intros idx extra; simpl; [done|].
  rewrite (proj2 (Z.ltb_ge p 0)) by lia. rewrite take_app_length.
  replace (Z.of_nat idx + 1)%Z with (Z.of_nat (S idx)) by lia. rewrite IH.
  do 2 f_equal; [by rewrite Nat.add_0_r|]. apply imap_ext. intros i x _. simpl. by rewrite Nat.add_succ_r.
Qed.

Lemma mac_start_loop_images argv base forks idx :
  Forall (λ p, 0 ≤ p)%Z forks →
  mac_start_loop argv base forks (Z.of_nat idx) =
  (imap (λ i p, (p, Image argv (base ++ [env_var_idx (Z.of_nat (idx + i))]))) forks, Ok ()).
Proof.
  intros Hf. revert idx. induction Hf as [|p forks Hp _ IH]; intros idx; simpl; [done|].
  rewrite (proj2 (Z.ltb_ge p 0)) by lia.
  replace (Z.of_nat idx + 1)%Z with (Z.of_nat (S idx)) by lia. rewrite IH.
  do 2 f_equal; [by rewrite Nat.add_0_r|]. apply imap_ext. intros i x _. simpl. by rewrite Nat.add_succ_r.
Qed.

(** The Linux and the macOS runner start the same children, although one
    reuses a vector that it cuts back and the other extends a copy: the [i]-th
    child gets the command's arguments and the runner's environment with the
    number of processes and its own index, and no variable of another child. *)
Theorem start_processes_equivalent (argv envv : list str) (forks : list Z) :
  Forall (λ p, 0 ≤ p)%Z forks →
  start_processes argv envv (length forks) forks = mac_start_processes argv envv (Z.of_nat (length forks)) forks ∧
  start_processes argv envv (length forks) forks =
    (imap (λ i p, (p, child_image argv envv (Z.of_nat (length forks)) i)) forks, Ok ()).
Proof.
  intros Hf. unfold start_processes, mac_start_processes.
  pose proof (start_loop_images argv (envv ++ [env_var_big (Z.of_nat (length forks))]) [] forks 0 Hf) as H1.
  pose proof (mac_start_loop_images argv (envv ++ [env_var_big (Z.of_nat (length forks))]) forks 0 Hf) as H2.
  rewrite app_nil_r in H1. change (Z.of_nat 0) with 0%Z in *. rewrite H1, H2. split; [done|].
  f_equal. apply imap_ext. intros i p _. unfold child_image. do 2 f_equal. by rewrite <-(assoc_L (++)).
Qed.
End Spawn.

(** ** The event loop of the Linux runner *)

Module Multi.

Definition SIGINT : Z := 2.
Definition SIGQUIT : Z := 3.
Definition SIGTERM : Z := 15.
Definition SIGCHLD : Z := 17.

(** How a child ended, and the code the runner makes of it. *)
Inductive status := Exited (code : Z) | Signaled (sig : Z).
Definition status_code (st : status) : Z :=
  match st with Exited code => code | Signaled sig => (128 + sig)%Z end.

Inductive life := Running | Zombie (st : status) | Gone.

(** An element of [processes] (its [pid] and whether [read_fd] is open) with the
    child it stands for: its process id, what it wrote, what of it is in the pipe
    and what was passed on to the output, and whether the pipe has news for the
    edge-triggered watch. *)
Record child := Child {
  pid : Z;
  read_open : bool;
  os_pid : Z;
  alive : life;
  written : str;
  pipe : str;
  forwarded : str;
  edge : bool;
}.
Definition validPid (c : child) : bool := (0 <? pid c)%Z.

(** What happened, in order: a signal to the runner, the end of a child. *)
Inductive event := HSignal (sig : Z) | HExit (i : nat) (code : Z).

Inductive ready := EvSignal | EvPipe (i : nat).
#[export] Instance ready_eq_dec : EqDecision ready.
Proof. solve_decision. Defined.

(** Where the runner is: in [epoll_wait], at the events left, in the read loop of
    [read_signal], in its [waitpid] loop, in [read_pipe] of an event or of the last
    round, returned, or left by an exception. *)
Inductive phase :=
| Wait
| Events (evs : list ready)
| Signals (evs : list ready)
| Reaping (evs : list ready)
| Piping (i : nat) (evs : list ready)
| Final (i : nat)
| Returned
| Crashed.

Record state := State {
  children : list child;
  sigs : list Z;              (** signals pending for the descriptor *)
  raised : bool;
  exit_code : Z;
  kills : list (Z * Z);       (** process id and signal of every [kill] *)
  history : list event;
  thread : phase;
}.
Definition set_thread (p : phase) (s : state) : state :=
  State (children s) (sigs s) (raised s) (exit_code s) (kills s) (history s) p.
Definition set_children (f : list child → list child) (s : state) : state :=
  State (f (children s)) (sigs s) (raised s) (exit_code s) (kills s) (history s) (thread s).
Definition set_sigs (f : list Z → list Z) (s : state) : state :=
  State (children s) (f (sigs s)) (raised s) (exit_code s) (kills s) (history s) (thread s).

(** ** [read_signal] *)

(** The signal goes to every child that is still there. *)
Definition kill_all (sig : Z) (l : list child) : list (Z * Z) :=
  (λ c, (pid c, sig)) <$> filter (λ c, validPid c = true) l.

(** A record read from the signal descriptor. *)
Definition on_signal (sig : Z) (evs : list ready) (s : state) : state :=
  if (sig =? SIGINT)%Z || (sig =? SIGTERM)%Z || (sig =? SIGQUIT)%Z then
    State (children s) (sigs s) true (exit_code s) (kills s ++ kill_all sig (children s))
      (history s ++ [HSignal sig]) (Signals evs)
  else if (sig =? SIGCHLD)%Z then set_thread (Reaping evs) s
  else s.

Definition set_pid (p : Z) (c : child) : child :=
  Child p (read_open c) (os_pid c) (alive c) (written c) (pipe c) (forwarded c) (edge c).

(** A child that [waitpid] reports. *)
Definition on_child (p : Z) (st : status) (s : state) : state :=
  match list_find (λ c, pid c = p) (children s) with
  | None => s
  | Some (i, c) =>
    let cs := <[i := set_pid 0 c]> (children s) in
    let code := status_code st in
    if negb (code =? 0)%Z && negb (raised s) then
      State cs (sigs s) true code (kills s ++ kill_all SIGTERM cs) (history s ++ [HExit i code]) (thread s)
    else State cs (sigs s) (raised s) (exit_code s) (kills s) (history s ++ [HExit i code]) (thread s)
  end.

(** ** [read_pipe] *)

Inductive read_result := Bytes (d : str) | Eof | Again | Error.

(** The runner's side of a read; [None] is another turn, [Some true] a return. *)
Definition read_pipe_turn (r : read_result) (c : child) : child * option bool :=
  match r with
  | Bytes d =>
    (Child (pid c) (read_open c) (os_pid c) (alive c) (written c) (drop (length d) (pipe c))
       (forwarded c ++ d) (edge c), None)
  | Eof =>
    (Child (pid c) false (os_pid c) (alive c) (written c) (pipe c) (forwarded c) (edge c), Some true)
  | Again => (c, Some true)
  | Error => (c, Some false)
  end.
(** The pipe hands out what is in it; it is at its end only when the child is gone
    and everything was read. *)
Definition kernel_read (n : nat) (c : child) (r : read_result) : Prop :=
  match r with
  | Bytes d => d ≠ [] ∧ length d ≤ n ∧ d `prefix_of` pipe c
  | Eof => pipe c = [] ∧ alive c ≠ Running
  | Again => pipe c = []
  | Error => True
  end.

Definition piping_turn (i : nat) (c : child) (r : read_result) (next : phase) (s : state) : state :=
  let '(c, res) := read_pipe_turn r c in
  let s := set_children <[i := c]> s in
  match res with
  | None => s
  | Some true => set_thread next s
  | Some false => set_thread Crashed s
  end.

(** ** The main loop *)

Definition loop_head (s : state) : state :=
  set_thread (if existsb validPid (children s) then Wait else Final 0) s.

(** [epoll_wait] reports up to sixteen ready descriptors; an edge is reported
    once. *)
Definition is_ready (s : state) (e : ready) : bool :=
  match e with
  | EvSignal => negb (bool_decide (sigs s = []))
  | EvPipe i => match children s !! i with Some c => edge c && read_open c | None => false end
  end.
Definition clear_edge (c : child) : child :=
  Child (pid c) (read_open c) (os_pid c) (alive c) (written c) (pipe c) (forwarded c) false.
Definition report (evs : list ready) (cs : list child) : list child :=
  imap (λ i c, if bool_decide (EvPipe i ∈ evs) then clear_edge c else c) cs.

Definition event_turn (evs : list ready) (s : state) : state :=
  match evs with
  | [] => loop_head s
  | EvSignal :: evs => set_thread (Signals evs) s
  | EvPipe i :: evs =>
    match children s !! i with
    | Some c => set_thread (if read_open c then Piping i evs else Events evs) s
    | None => set_thread (Events evs) s
    end
  end.
(** ** The children and the outside *)

Definition write (d : str) (c : child) : child :=
  Child (pid c) (read_open c) (os_pid c) (alive c) (written c ++ d) (pipe c ++ d) (forwarded c) true.
Definition set_alive (l : life) (c : child) : child :=
  Child (pid c) (read_open c) (os_pid c) l (written c) (pipe c) (forwarded c) (edge c).
(** A signal becomes pending once. *)
Definition arrive (sig : Z) (l : list Z) : list Z := if bool_decide (sig ∈ l) then l else l ++ [sig].

Section multi.
Context (buffer_size : nat).

Inductive own_step : state → state → Prop :=
| m_wait s evs : thread s = Wait → evs ≠ [] → length evs ≤ 16 → NoDup evs →
    Forall (λ e, is_ready s e = true) evs →
    own_step s (set_thread (Events evs) (set_children (report evs) s))
| m_wait_fails s : thread s = Wait → own_step s (set_thread Crashed s)
| m_event s evs : thread s = Events evs → own_step s (event_turn evs s)
| m_signal s evs sig l1 l2 : thread s = Signals evs → sigs s = l1 ++ sig :: l2 →
    own_step s (on_signal sig evs (set_sigs (λ _, l1 ++ l2) s))
| m_no_signal s evs : thread s = Signals evs → sigs s = [] → own_step s (set_thread (Events evs) s)
| m_reap s evs i c st : thread s = Reaping evs → children s !! i = Some c → alive c = Zombie st →
    own_step s (on_child (os_pid c) st (set_children <[i := set_alive Gone c]> s))
| m_no_child s evs : thread s = Reaping evs →
    Forall (λ c, ∀ st, alive c ≠ Zombie st) (children s) → own_step s (set_thread (Signals evs) s)
| m_pipe s i evs c r : thread s = Piping i evs → children s !! i = Some c → kernel_read buffer_size c r →
    own_step s (piping_turn i c r (Events evs) s)
| m_final s i c r : thread s = Final i → children s !! i = Some c → read_open c = true →
    kernel_read buffer_size c r → own_step s (piping_turn i c r (Final (S i)) s)
| m_final_closed s i c : thread s = Final i → children s !! i = Some c → read_open c = false →
    own_step s (set_thread (Final (S i)) s)
| m_return s i : thread s = Final i → children s !! i = None → own_step s (set_thread Returned s).

Inductive other_step : state → state → Prop :=
| o_write s i c d : children s !! i = Some c → alive c = Running → d ≠ [] →
    other_step s (set_children <[i := write d c]> s)
| o_exit s i c st : children s !! i = Some c → alive c = Running →
    other_step s (set_sigs (arrive SIGCHLD) (set_children <[i := set_alive (Zombie st) c]> s))
| o_signal s sig : other_step s (set_sigs (arrive sig) s).
Definition step (s s' : state) : Prop := own_step s s' ∨ other_step s s'.
End multi.

(** The children as [fork] gave them. *)
Definition new_child (p : Z) : child := Child p true p Running [] [] [] false.
Definition initial (pids : list Z) : state := loop_head (State (new_child <$> pids) [] false 0 [] [] Wait).

(** ** The exit code *)

(** The code a history stands for: nothing failed, or a signal came first, or the
    code of the first child that failed. *)
Fixpoint exit_of (h : list event) : Z :=
  match h with
  | [] => 0
  | HSignal _ :: _ => 0
  | HExit _ code :: h => if (code =? 0)%Z then exit_of h else code
  end.
Definition decisive (h : list event) : bool :=
  existsb (λ e, match e with HSignal _ => true | HExit _ code => negb (code =? 0)%Z end) h.

Lemma exit_of_app h h' : exit_of (h ++ h') = if decisive h then exit_of h else exit_of h'.
Proof.
  induction h as [|[sig|i code] h IH]; simpl; [done..|]. destruct (code =? 0)%Z; simpl; [exact IH|done].
Qed.
Lemma exit_of_idle h : decisive h = false → exit_of h = 0%Z.
Proof. induction h as [|[sig|i code] h IH]; simpl; [done..|]. destruct (code =? 0)%Z; simpl; [exact IH|done]. Qed.
Lemma decisive_app h h' : decisive (h ++ h') = decisive h || decisive h'.
Proof. apply existsb_app. Qed.

Definition exit_ok (s : state) : Prop :=
  raised s = decisive (history s) ∧ exit_code s = exit_of (history s).

Lemma on_signal_exit sig evs s : exit_ok s → exit_ok (on_signal sig evs s).
Proof.
  intros [Hr He]. unfold on_signal. destruct (_ || _); [|by destruct (sig =? SIGCHLD)%Z].
  split; simpl; rewrite ?decisive_app, ?exit_of_app; simpl; [by rewrite orb_true_r|].
  destruct (decisive (history s)) eqn:Hd; [done|]. by rewrite He, exit_of_idle.
Qed.

Lemma on_child_exit p st s : exit_ok s → exit_ok (on_child p st s).
Proof.
  intros [Hr He]. unfold on_child. destruct (list_find _ _) as [[i c]|]; [|done].
  unfold exit_ok. destruct (status_code st =? 0)%Z eqn:Ec, (raised s) eqn:Ers; simpl;
    rewrite decisive_app, exit_of_app; simpl; rewrite Ec; simpl; rewrite <-Hr; simpl; try done.
  by rewrite He, exit_of_idle.
Qed.

Lemma step_exit n s s' : step n s s' → exit_ok s → exit_ok s'.
Proof.
  intros [Hst|Hst] Hok.
  - destruct Hst as [s evs|s|s evs|s evs sig l1 l2|s evs|s evs i c st|s evs|s i evs c r|s i c r|s i c|s i]; try done.
    + destruct evs as [|[|i] evs]; [done..|]. simpl. by destruct (children s !! i).
    + by apply on_signal_exit.
    + by apply on_child_exit.
    + unfold piping_turn. by destruct r.
    + unfold piping_turn. by destruct r.
  - by destruct Hst.
Qed.

(** ** The children *)

Definition child_ok (c : child) : Prop :=
  written c = forwarded c ++ pipe c ∧ (0 < os_pid c)%Z ∧
  pid c = match alive c with Gone => 0%Z | _ => os_pid c end ∧
  (read_open c = false → pipe c = [] ∧ alive c ≠ Running).
Definition children_ok (s : state) : Prop :=
  Forall child_ok (children s) ∧ NoDup (os_pid <$> children s).

(** Changing one child in a way that keeps it well and keeps its process id. *)
Lemma children_ok_insert s i c c' :
  children_ok s → children s !! i = Some c → child_ok c' → os_pid c' = os_pid c →
  children_ok (set_children <[i := c']> s).
Proof.
  intros [Hall Hnd] Hi Hc Hp. split; simpl; [by apply Forall_insert|].
  rewrite list_fmap_insert, Hp, list_insert_id; [done|]. by rewrite list_lookup_fmap, Hi.
Qed.

Lemma read_pipe_child n c r : child_ok c → kernel_read n c r → child_ok (read_pipe_turn r c).1.
Proof.
  intros (H1 & H2 & H3 & H4) Hr.
  destruct r as [d| | |]; try done.
  destruct Hr as (_ & _ & [k Hk]). unfold child_ok; simpl. rewrite Hk, drop_app_length.
    split_and!; [by rewrite H1, Hk, (assoc_L (++))|done|done|].
    intros Hro. destruct (H4 Hro) as [Hp ?]. rewrite Hp in Hk. symmetry in Hk. by apply app_eq_nil in Hk as [_ ->].
Qed.

(** [waitpid] names the child that is found. *)
Lemma find_child s i c :
  children_ok s → children s !! i = Some c → alive c ≠ Gone →
  list_find (λ d, pid d = os_pid c) (<[i := set_alive Gone c]> (children s)) = Some (i, set_alive Gone c).
Proof.
  intros [Hall Hnd] Hi Ha. apply list_find_Some.
  assert (Hlen : i < length (children s)) by (by eapply lookup_lt_Some).
  destruct (proj1 (Forall_lookup _ _) Hall i c Hi) as (_ & Hpos & Hpid & _).
  assert (pid c = os_pid c) as Hp by (rewrite Hpid; by destruct (alive c)).
  split_and!; [by apply list_lookup_insert_eq|by simpl|].
  intros j d Hj Hji. rewrite list_lookup_insert_ne in Hj by lia. intros Heq.
  destruct (proj1 (Forall_lookup _ _) Hall j d Hj) as (_ & _ & Hdp & _).
  assert (os_pid d = os_pid c) as Hoc by (destruct (alive d); lia).
  assert (j = i); [|lia].
  eapply (NoDup_lookup _ _ _ (os_pid c) Hnd); rewrite list_lookup_fmap; [by rewrite Hj, <-Hoc|by rewrite Hi].
Qed.

(** The runner's view of a child that was reaped. *)
Definition reaped (c : child) : child := set_pid 0 (set_alive Gone c).
Lemma on_child_found s i c st :
  children_ok s → children s !! i = Some c → alive c = Zombie st →
  let s' := on_child (os_pid c) st (set_children <[i := set_alive Gone c]> s) in
  children s' = <[i := reaped c]> (children s) ∧ sigs s' = sigs s ∧ thread s' = thread s ∧
  history s' = history s ++ [HExit i (status_code st)] ∧
  kills s' = kills s ++ (if negb (status_code st =? 0)%Z && negb (raised s)
                         then kill_all SIGTERM (<[i := reaped c]> (children s)) else []).
Proof.
  intros Hok Hi Ha. unfold on_child; simpl.
  rewrite (find_child s i c Hok Hi) by (by rewrite Ha). rewrite list_insert_insert_eq.
  destruct (negb (status_code st =? 0)%Z && negb (raised s)); simpl; split_and!; try done. by rewrite app_nil_r.
Qed.

Lemma reaped_ok c : child_ok c → alive c ≠ Running → child_ok (reaped c).
Proof. intros (H1 & H2 & H3 & H4) Ha. unfold child_ok; simpl. naive_solver. Qed.

Lemma report_lookup evs cs i :
  report evs cs !! i = (λ c, if bool_decide (EvPipe i ∈ evs) then clear_edge c else c) <$> cs !! i.
Proof. unfold report. by rewrite list_lookup_imap. Qed.

Lemma step_children n s s' : step n s s' → children_ok s → children_ok s'.
Proof.
  intros Hst Hok. pose proof Hok as [Hall Hnd]. rewrite Forall_lookup in Hall. destruct Hst as [Hst|Hst].
  - destruct Hst as [s evs|s|s evs|s evs sig l1 l2|s evs|s evs i c st Ht Hi Ha|s evs|s i evs c r Ht Hi Hr|
      s i c r Ht Hi Hro Hr|s i c|s i]; try done.
    + split; simpl.
      * rewrite Forall_lookup. intros i c. rewrite report_lookup. destruct (children s !! i) as [d|] eqn:Hi; simpl; [|done].
        intros [= <-]. specialize (Hall i d Hi). by case_bool_decide.
      * replace (os_pid <$> report evs (children s)) with (os_pid <$> children s); [done|].
        apply list_eq. intros i. rewrite !list_lookup_fmap, report_lookup.
        destruct (children s !! i) as [d|]; simpl; [|done]. by case_bool_decide.
    + destruct evs as [|[|i] evs]; [done..|]. simpl. by destruct (children s !! i).
    + unfold on_signal. destruct (_ || _); [done|]. by destruct (sig =? SIGCHLD)%Z.
    + destruct (on_child_found s i c st Hok Hi Ha) as (Hc & _).
      assert (children_ok (set_children <[i := reaped c]> s)) as [H1 H2].
      { eapply children_ok_insert; [done|done| |done]. apply reaped_ok; [by eapply Hall|by rewrite Ha]. }
      unfold children_ok. rewrite Hc. done.
    + pose proof (read_pipe_child n c r (Hall i c Hi) Hr) as Hc.
      assert (children_ok (set_children <[i := (read_pipe_turn r c).1]> s)) as H
        by (eapply children_ok_insert; [done..|]; by destruct r).
      unfold piping_turn. by destruct r.
    + pose proof (read_pipe_child n c r (Hall i c Hi) Hr) as Hc.
      assert (children_ok (set_children <[i := (read_pipe_turn r c).1]> s)) as H
        by (eapply children_ok_insert; [done..|]; by destruct r).
      unfold piping_turn. by destruct r.
  - destruct Hst as [s i c d Hi Ha|s i c st Hi Ha|s sig]; [..|done].
    + eapply children_ok_insert; [done|done| |done]. destruct (Hall i c Hi) as (H1 & H2 & H3 & H4).
      unfold child_ok; simpl. rewrite Ha in *. split_and!; [by rewrite H1, (assoc_L (++))|done|done|naive_solver].
    + eapply (children_ok_insert s); [done|done| |done]. destruct (Hall i c Hi) as (H1 & H2 & H3 & H4).
      unfold child_ok; simpl. rewrite Ha in *. naive_solver.
Qed.

(** ** No child is forgotten *)

Definition has_zombie (s : state) : Prop := ∃ i c st, children s !! i = Some c ∧ alive c = Zombie st.
(** A child that ended is announced, or about to be reaped. *)
Definition wake_ok (s : state) : Prop :=
  has_zombie s → SIGCHLD ∈ sigs s ∨ match thread s with Reaping _ | Crashed => True | _ => False end.

(** Changes that make no new zombie. *)
Lemma zombie_insert s i c c' :
  children s !! i = Some c → alive c' = alive c ∨ alive c' = Gone →
  has_zombie (set_children <[i := c']> s) → has_zombie s.
Proof.
  intros Hi Ha (j & d & st & Hj & Hd). simpl in Hj. apply list_lookup_insert_Some in Hj as [(<- & <- & _)|[_ Hj]].
  - exists i, c, st. split; [done|]. destruct Ha; congruence.
  - by exists j, d, st.
Qed.

Lemma piping_wake s i c r next :
  children s !! i = Some c → (∀ evs, thread s ≠ Reaping evs) → thread s ≠ Crashed → wake_ok s →
  wake_ok (piping_turn i c r next s).
Proof.
  intros Hi Hn1 Hn2 Hw Hz.
  assert (Hz' : has_zombie s).
  { destruct Hz as (j & d & st & Hj & Hd).
    apply (zombie_insert s i c (read_pipe_turn r c).1 Hi); [left; by destruct r|].
    exists j, d, st. unfold piping_turn in Hj. by destruct r. }
  destruct (Hw Hz') as [Hs|Ht]; [left; unfold piping_turn; by destruct r|]. destruct (thread s); naive_solver.
Qed.

Lemma step_wake n s s' : step n s s' → children_ok s → wake_ok s → wake_ok s'.
Proof.
  intros [Hst|Hst] Hok Hw.
  - destruct Hst as [s evs Ht|s Ht|s evs Ht|s evs sig l1 l2 Ht Hs|s evs Ht Hs|s evs i c st Ht Hi Ha|s evs Ht Hno|
      s i evs c r Ht Hi Hr|s i c r Ht Hi Hro Hr|s i c Ht|s i Ht]; unfold wake_ok in Hw; rewrite Ht in Hw.
    + intros (i & c & st & Hi & Hc). left. simpl in *. rewrite report_lookup in Hi.
      destruct (children s !! i) as [d|] eqn:Hd; simplify_eq/=.
      destruct Hw as [?|[]]; [|done]. exists i, d, st. split; [done|]. by case_bool_decide.
    + intros _. by right.
    + intros Hz. assert (has_zombie s ∧ sigs (event_turn evs s) = sigs s) as [Hz' Hs].
      { destruct evs as [|[|i] evs]; [done..|]. simpl in *. by destruct (children s !! i). }
      rewrite Hs. destruct (Hw Hz') as [?|[]]. by left.
    + unfold on_signal. destruct (_ || _) eqn:E; [|destruct (Z.eqb_spec sig SIGCHLD)].
      * intros Hz. destruct (Hw Hz) as [Hin|[]]. left. simpl. rewrite Hs in Hin.
        unfold SIGINT, SIGTERM, SIGQUIT, SIGCHLD in *. apply elem_of_app in Hin as [?|[<-|?]%elem_of_cons]; [set_solver|done|set_solver].
      * intros _. by right.
      * intros Hz. destruct (Hw Hz) as [Hin|[]]. left. simpl. rewrite Hs in Hin. set_solver.
    + intros Hz. destruct (Hw Hz) as [Hin|[]]. rewrite Hs in Hin. by apply elem_of_nil in Hin.
    + destruct (on_child_found s i c st Hok Hi Ha) as (Hc & _ & Hth & _). intros _. right. by rewrite Hth, Ht.
    + intros (i & c & st & Hi & Hc). exfalso. by eapply (proj1 (Forall_lookup _ _) Hno i c Hi).
    + apply piping_wake; [done|congruence..|]. unfold wake_ok. by rewrite Ht.
    + apply piping_wake; [done|congruence..|]. unfold wake_ok. by rewrite Ht.
    + intros Hz. destruct (Hw Hz) as [?|[]]. by left.
    + intros Hz. destruct (Hw Hz) as [?|[]]. by left.
  - destruct Hst as [s i c d Hi Ha|s i c st Hi Ha|s sig].
    + intros Hz. apply Hw. apply (zombie_insert s i c (write d c) Hi); [by left|done].
    + intros _. left. simpl. unfold arrive. case_bool_decide; set_solver.
    + intros Hz. destruct (Hw Hz) as [Hin|?]; [|by right]. left. simpl. unfold arrive. case_bool_decide; set_solver.
Qed.

(** ** Reaped children and the last round *)

Definition ended_ok (s : state) : Prop :=
  ∀ i c, children s !! i = Some c → alive c = Gone → ∃ code, HExit i code ∈ history s.
Definition final_ok (s : state) : Prop :=
  match thread s with
  | Final k => ∀ i c, children s !! i = Some c → alive c = Gone ∧ (i < k → pipe c = [])
  | Returned => ∀ i c, children s !! i = Some c → alive c = Gone ∧ pipe c = []
  | _ => True
  end.

Lemma no_valid_pid s :
  children_ok s → existsb validPid (children s) = false →
  ∀ i c, children s !! i = Some c → alive c = Gone.
Proof.
  intros [Hall _] Hv i c Hi. destruct (proj1 (Forall_lookup _ _) Hall i c Hi) as (_ & Hpos & Hpid & _).
  destruct (decide (validPid c = true)) as [Hc|Hc].
  - exfalso. assert (existsb validPid (children s) = true); [|congruence].
    apply existsb_exists. exists c. split; [|done]. apply list_elem_of_In. by eapply list_elem_of_lookup_2.
  - unfold validPid in Hc. destruct (alive c); try done; rewrite Hpid in Hc;
      by rewrite (proj2 (Z.ltb_lt 0 (os_pid c))) in Hc by lia.
Qed.

Lemma insert_ended s i c c' :
  children s !! i = Some c → alive c' = alive c → ended_ok s → ended_ok (set_children <[i := c']> s).
Proof.
  intros Hi Ha He j d Hj Hd. simpl in *. apply list_lookup_insert_Some in Hj as [(<- & <- & _)|[_ Hj]]; [|eauto].
  apply (He i c Hi). congruence.
Qed.

Lemma step_ended n s s' : step n s s' → children_ok s → ended_ok s → ended_ok s'.
Proof.
  intros [Hst|Hst] Hok He.
  - destruct Hst as [s evs|s|s evs|s evs sig l1 l2|s evs|s evs i c st Ht Hi Ha|s evs|s i evs c r Ht Hi Hr|
      s i c r Ht Hi Hro Hr|s i c|s i]; try done.
    + intros i c Hi Hc. simpl in *. rewrite report_lookup in Hi.
      destruct (children s !! i) as [d|] eqn:Hd; simplify_eq/=. apply (He i d Hd). by case_bool_decide.
    + destruct evs as [|[|i] evs]; [done..|]. simpl. by destruct (children s !! i).
    + unfold on_signal. destruct (_ || _); [|by destruct (sig =? SIGCHLD)%Z].
      intros i c Hi Hc. destruct (He i c Hi Hc) as [code ?]. exists code. simpl. set_solver.
    + destruct (on_child_found s i c st Hok Hi Ha) as (Hc & _ & _ & Hh & _). intros j d Hj Hd.
      rewrite Hc in Hj. rewrite Hh. apply list_lookup_insert_Some in Hj as [(<- & _ & _)|[_ Hj]].
      * exists (status_code st). set_solver.
      * destruct (He j d Hj Hd) as [code ?]. exists code. set_solver.
    + pose proof (insert_ended s i c (read_pipe_turn r c).1 Hi ltac:(by destruct r) He).
      unfold piping_turn. by destruct r.
    + pose proof (insert_ended s i c (read_pipe_turn r c).1 Hi ltac:(by destruct r) He).
      unfold piping_turn. by destruct r.
  - destruct Hst as [s i c d Hi Ha|s i c st Hi Ha|s sig]; [| |done].
    + by eapply insert_ended.
    + intros j d Hj Hd. simpl in *. apply list_lookup_insert_Some in Hj as [(_ & <- & _)|[_ Hj]]; [done|eauto].
Qed.

Lemma step_final n s s' : step n s s' → children_ok s → final_ok s → final_ok s'.
Proof.
  intros [Hst|Hst] Hok Hf.
  - unfold final_ok in Hf. destruct Hst as [s evs Ht|s Ht|s evs Ht|s evs sig l1 l2 Ht Hs|s evs Ht Hs|s evs i c st Ht Hi Ha|s evs Ht Hno|
      s i evs c r Ht Hi Hr|s i c r Ht Hi Hro Hr|s i c Ht Hi Hro|s i Ht Hi]; try done; rewrite Ht in Hf.
    + destruct evs as [|[|i] evs]; [|done|].
      * unfold final_ok; simpl. destruct (existsb _ _) eqn:Hv; [done|]. intros i c Hi.
        split; [by eapply no_valid_pid|lia].
      * simpl. destruct (children s !! i) as [c|]; [|done]. unfold final_ok; simpl. by destruct (read_open c).
    + unfold final_ok, on_signal. destruct (_ || _); [done|]. destruct (sig =? SIGCHLD)%Z; [done|]. simpl. by rewrite Ht.
    + destruct (on_child_found s i c st Hok Hi Ha) as (_ & _ & Hth & _). unfold final_ok. by rewrite Hth, Ht.
    + unfold final_ok, piping_turn. destruct r; simpl; try done. by rewrite Ht.
    + destruct (Hf i c Hi) as [Hg _]. unfold final_ok, piping_turn. destruct r as [d| | |]; simpl in *; rewrite ?Ht; try done;
        intros j e Hj; apply list_lookup_insert_Some in Hj as [(<- & <- & _)|[Hne Hj]]; simpl; try (split; [done|]; naive_solver lia);
        destruct (Hf j e Hj) as [? Hp]; (split; [done|]); intros; apply Hp; lia.
    + unfold final_ok; simpl. intros j d Hj. destruct (Hf j d Hj) as [? Hp]. split; [done|]. intros Hlt.
      destruct (decide (j = i)) as [->|]; [|apply Hp; lia]. assert (d = c) as -> by congruence. destruct Hok as [Hall _].
      destruct (proj1 (Forall_lookup _ _) Hall i c Hi) as (_ & _ & _ & H4). by apply H4.
    + unfold final_ok; simpl. intros j d Hj. destruct (Hf j d Hj) as [? Hp]. split; [done|]. apply Hp.
      apply lookup_ge_None in Hi. apply lookup_lt_Some in Hj. lia.
  - assert (Hrun : ∀ i c, children s !! i = Some c → alive c = Running →
      match thread s with Final _ | Returned => False | _ => True end).
    { intros i c Hi Ha. unfold final_ok in Hf. destruct (thread s); try done; destruct (Hf i c Hi); congruence. }
    unfold final_ok in *. destruct Hst as [s i c d Hi Ha|s i c st Hi Ha|s sig]; simpl; [..|done];
      specialize (Hrun i c Hi Ha); by destruct (thread s).
Qed.

Definition multi_ok (s : state) : Prop :=
  children_ok s ∧ exit_ok s ∧ wake_ok s ∧ ended_ok s ∧ final_ok s.

Lemma initial_multi_ok pids : Forall (λ p, 0 < p)%Z pids → NoDup pids → multi_ok (initial pids).
Proof.
  intros Hpos Hnd.
  assert (Hl : ∀ i c, children (initial pids) !! i = Some c → ∃ p, pids !! i = Some p ∧ c = new_child p).
  { intros i c Hi. simpl in Hi. rewrite list_lookup_fmap in Hi. destruct (pids !! i); naive_solver. }
  assert (Hok : children_ok (initial pids)).
  { split.
    - rewrite Forall_lookup. intros i c Hi. destruct (Hl i c Hi) as (p & Hp & ->).
      unfold child_ok; simpl. split_and!; try done. by eapply (proj1 (Forall_lookup _ _) Hpos).
    - simpl. rewrite <-list_fmap_compose. by rewrite list_fmap_id. }
  split_and!; [done|done|..].
  - intros (i & c & st & Hi & Hc). destruct (Hl i c Hi) as (p & _ & ->). done.
  - intros i c Hi Hc. destruct (Hl i c Hi) as (p & _ & ->). done.
  - unfold final_ok, initial, loop_head; simpl. destruct (existsb _ _) eqn:Hv; [done|].
    intros i c Hi. split; [|lia]. by eapply (no_valid_pid (initial pids)).
Qed.

Lemma multi_reachable n pids s :
  Forall (λ p, 0 < p)%Z pids → NoDup pids → rtc (step n) (initial pids) s → multi_ok s.
Proof.
  intros Hp Hn Hr. pose proof (initial_multi_ok pids Hp Hn) as Hok. revert Hr Hok.
  induction 1 as [|s s1 s2 Hst _ IH]; [done|]. intros (H1 & H2 & H3 & H4 & H5). apply IH.
  split_and!; eauto using step_children, step_exit, step_wake, step_ended, step_final.
Qed.

(** C9: the Linux runner passes on the output of every child in order and without
    loss or repetition, whatever the order of events; when it returns, all
    children were reaped and everything they wrote was passed on. *)
Theorem runner_forwards (n : nat) (pids : list Z) (s : state) :
  Forall (λ p, 0 < p)%Z pids → NoDup pids → rtc (step n) (initial pids) s →
  ∀ i c, children s !! i = Some c →
    written c = forwarded c ++ pipe c ∧
    (thread s = Returned → alive c = Gone ∧ forwarded c = written c).
Proof.
  intros Hp Hn Hr i c Hi. destruct (multi_reachable n pids s Hp Hn Hr) as ([Hall _] & _ & _ & _ & Hf).
  destruct (proj1 (Forall_lookup _ _) Hall i c Hi) as (Hw & _). split; [done|].
  intros Ht. unfold final_ok in Hf. rewrite Ht in Hf. destruct (Hf i c Hi) as [? He]. split; [done|].
  by rewrite Hw, He, app_nil_r.
Qed.

(** C10: the exit code of the Linux runner is the one its history stands for: zero
    when every child succeeded or when the runner was told to stop before a child
    failed, otherwise the code of the first child that failed (128 and the signal
    for one that was killed); and when it returns, every child has its end in the
    history.  The step that reaps the first failed child sends SIGTERM to exactly
    the children that are left. *)
Theorem runner_exit_code (n : nat) (pids : list Z) (s : state) :
  Forall (λ p, 0 < p)%Z pids → NoDup pids → rtc (step n) (initial pids) s →
  exit_code s = exit_of (history s) ∧
  (thread s = Returned → ∀ i, i < length (children s) → ∃ code, HExit i code ∈ history s) ∧
  (∀ i c st, children s !! i = Some c → alive c = Zombie st →
     let s' := on_child (os_pid c) st (set_children <[i := set_alive Gone c]> s) in
     exit_code s' = exit_of (history s ++ [HExit i (status_code st)]) ∧
     (status_code st ≠ 0%Z → raised s = false → kills s' = kills s ++ kill_all SIGTERM (children s'))).
Proof.
  intros Hp Hn Hr. destruct (multi_reachable n pids s Hp Hn Hr) as (Hok & He & _ & Hend & Hf).
  split_and!; [apply He|..].
  - intros Ht i Hi. apply lookup_lt_is_Some in Hi as [c Hc]. unfold final_ok in Hf. rewrite Ht in Hf.
    apply (Hend i c Hc). by apply (Hf i c).
  - intros i c st Hi Ha s'. destruct (on_child_found s i c st Hok Hi Ha) as (Hc & _ & _ & Hh & Hk).
    fold s' in Hc, Hh, Hk. split.
    + rewrite <-Hh. by apply on_child_exit.
    + intros Hst Hrs. rewrite Hk, Hc, Hrs. by rewrite (proj2 (Z.eqb_neq _ _)).
Qed.

(** C29: the Linux runner cannot sleep through the end of a child: whenever it
    waits while some child is not reaped, either a child is still running or the
    signal descriptor is ready, so that [epoll_wait] returns. *)
Theorem runner_wakes (n : nat) (pids : list Z) (s : state) :
  Forall (λ p, 0 < p)%Z pids → NoDup pids → rtc (step n) (initial pids) s → thread s = Wait →
  (∃ i c, children s !! i = Some c ∧ alive c ≠ Gone) →
  (∃ i c, children s !! i = Some c ∧ alive c = Running) ∨
  (is_ready s EvSignal = true ∧ ∃ s', own_step n s s' ∧ thread s' = Events [EvSignal]).
Proof.
  intros Hp Hn Hr Ht (i & c & Hi & Hc). destruct (multi_reachable n pids s Hp Hn Hr) as (_ & _ & Hw & _).
  destruct (alive c) as [|st|] eqn:Ha; [by left; eauto| |done]. right.
  unfold wake_ok in Hw. rewrite Ht in Hw. destruct Hw as [Hin|[]]; [by exists i, c, st|].
  assert (is_ready s EvSignal = true) as Hready.
  { simpl. rewrite bool_decide_eq_false_2; [done|]. intros E. rewrite E in Hin. by apply elem_of_nil in Hin. }
  split; [done|]. eexists. split; [apply (m_wait n s [EvSignal])|]; try done; [simpl; lia|apply NoDup_singleton|].
  by constructor.
Qed.

(** One child that writes and fails. *)
Definition demo_child (l : life) (p : Z) (w q f : str) (e : bool) : child := Child p true 7 l w q f e.
Definition demo_run (cs : list child) (sg : list Z) (r : bool) (x : Z) (h : list event) (t : phase) : state :=
  State cs sg r x [] h t.
Definition demo_end : state :=
  demo_run [demo_child Gone 0 (lit "hi") [] (lit "hi") true] [] true 3 [HExit 0 3] Returned.

Lemma demo_reaches_zombie :
  rtc (step 8) (initial [7%Z])
    (demo_run [demo_child (Zombie (Exited 3)) 7 (lit "hi") (lit "hi") [] true] [] false 0 [] (Reaping [])).
Proof.
  eapply rtc_l; [right; by apply (o_write _ 0 (new_child 7) (lit "hi"))|].
  eapply rtc_l; [right; eapply (o_exit _ 0 _ (Exited 3)); [done|done]|].
  eapply rtc_l; [left; apply (m_wait _ _ [EvSignal]); [done|done|simpl; lia|apply NoDup_singleton|by constructor]|].
  eapply rtc_l; [left; by apply (m_event _ _ [EvSignal])|].
  apply rtc_once. left. apply (m_signal 8 (demo_run [demo_child (Zombie (Exited 3)) 7 (lit "hi") (lit "hi") [] true]
    [17%Z] false 0 [] (Signals [])) [] 17 [] []); done.
Qed.

Lemma demo_run_ends : rtc (step 8) (initial [7%Z]) demo_end.
Proof.
  etrans; [apply demo_reaches_zombie|].
  eapply rtc_l; [left; eapply (m_reap _ _ [] 0 _ (Exited 3)); done|].
  eapply rtc_l; [left; apply (m_no_child _ _ []); [done|by repeat constructor]|].
  eapply rtc_l; [left; by apply (m_no_signal _ _ [])|].
  eapply rtc_l; [left; by apply (m_event _ _ [])|].
  eapply rtc_l; [left; eapply (m_final _ _ 0 _ (Bytes (lit "hi"))); [done|done|done|]|].
  { split_and!; [done|simpl; lia|done]. }
  eapply rtc_l; [left; eapply (m_final _ _ 0 _ Again); done|].
  apply rtc_once. left. apply (m_return 8 (demo_run [demo_child Gone 0 (lit "hi") [] (lit "hi") true] [] true 3
    [HExit 0 3] (Final 1)) 1); done.
Qed.

Lemma runner_forwards_witness :
  forwarded (demo_child Gone 0 (lit "hi") [] (lit "hi") true) = lit "hi".
Proof.
  destruct (runner_forwards 8 [7%Z] demo_end) with (i := 0)
    (c := demo_child Gone 0 (lit "hi") [] (lit "hi") true) as [_ H];
    [by constructor|apply NoDup_singleton|exact demo_run_ends|reflexivity|]. by apply H.
Defined.
Lemma runner_exit_code_witness : exit_code demo_end = 3%Z.
Proof.
  destruct (runner_exit_code 8 [7%Z] demo_end) as [H _];
    [by constructor|apply NoDup_singleton|exact demo_run_ends|]. exact H.
Defined.
Lemma runner_wakes_witness :
  ∃ i c, children (initial [7%Z]) !! i = Some c ∧ alive c = Running.
Proof.
  destruct (runner_wakes 8 [7%Z] (initial [7%Z])) as [H|[H _]];
    [by constructor|apply NoDup_singleton|reflexivity|reflexivity|by exists 0, (new_child 7)|exact H|discriminate H].
Defined.
End Multi.

(** ** The event loop of the macOS runner *)

Module MacMulti.
Import Multi.

(** An event of kqueue: whether it reports the exit of a process, which one, and
    what [waitpid] answers for it. *)
Record kevent := Kevent { note_exit : bool; ident : Z; waited : option status }.
Inductive batch := Batch (evs : list kevent) | BatchIntr | BatchFails.

Record state := State {
  pids : list Z;
  raised : bool;
  exit_code : Z;
  kills : list (Z * Z);
  history : list event;
}.
Definition initial (l : list Z) : state := State l false 0 [] [].

(** [pids.erase] of the first occurrence. *)
Fixpoint erase (p : Z) (l : list Z) : list Z :=
  match l with
  | [] => []
  | q :: l => if decide (q = p) then l else q :: erase p l
  end.

Definition on_event (e : kevent) (s : state) : state :=
  if note_exit e then
    if bool_decide (ident e ∈ pids s) then
      match waited e with
      | None => s
      | Some st =>
        let l := erase (ident e) (pids s) in
        let code := status_code st in
        let h := history s ++ [HExit (Z.to_nat (ident e)) code] in
        if negb (code =? 0)%Z && negb (raised s)
        then State l true code (kills s ++ ((λ p, (p, SIGTERM)) <$> l)) h
        else State l (raised s) (exit_code s) (kills s) h
      end
    else s
  else s.
Fixpoint batch_loop (evs : list kevent) (s : state) : state :=
  match evs with
  | [] => s
  | e :: evs => if bool_decide (pids s = []) then s else batch_loop evs (on_event e s)
  end.
(** The loop over the answers of [kevent]; [None] when it still waits at their end. *)
Fixpoint main_loop (l : list batch) (s : state) : state * option (res Z) :=
  if bool_decide (pids s = []) then (s, Some (Ok (exit_code s)))
  else
    match l with
    | [] => (s, None)
    | Batch evs :: l => main_loop l (batch_loop evs s)
    | BatchIntr :: l => main_loop l s
    | BatchFails :: l => (s, Some (Throw (RuntimeError "kevent error n = ")))
    end.

(** The processes reaped so far. *)
Definition reaped (h : list event) : list nat :=
  omap (λ e, match e with HExit p _ => Some p | HSignal _ => None end) h.

Definition mac_ok (l0 : list Z) (s : state) : Prop :=
  raised s = decisive (history s) ∧ exit_code s = exit_of (history s) ∧
  reaped (history s) ++ (Z.to_nat <$> pids s) ≡ₚ Z.to_nat <$> l0.

Lemma erase_perm p l : p ∈ l → l ≡ₚ p :: erase p l.
Proof.
  induction l as [|q l IH]; simpl; [by intros ?%elem_of_nil|]. intros [->|Hp]%elem_of_cons.
  - by rewrite decide_True.
  - case_decide as Hq; [by subst|]. rewrite (IH Hp) at 1. apply Permutation_swap.
Qed.

Lemma on_event_ok l0 e s : mac_ok l0 s → mac_ok l0 (on_event e s).
Proof.
  intros (Hr & He & Hp). unfold on_event. destruct (note_exit e); [|done]. case_bool_decide as Hin; [|done].
  destruct (waited e) as [st|]; [|done].
  assert (Hp' : ∀ c, reaped (history s ++ [HExit (Z.to_nat (ident e)) c]) ++ (Z.to_nat <$> erase (ident e) (pids s))
    ≡ₚ Z.to_nat <$> l0).
  { intros c. rewrite <-Hp. unfold reaped. rewrite omap_app; simpl. rewrite <-(assoc_L (++)); simpl.
    apply Permutation_app_head. rewrite (fmap_Permutation Z.to_nat _ _ (erase_perm _ _ Hin)). done. }
  unfold mac_ok. destruct (status_code st =? 0)%Z eqn:Ec, (raised s) eqn:Ers; simpl;
    rewrite decisive_app, exit_of_app; simpl; rewrite Ec; simpl; rewrite <-Hr; simpl; split_and!; try done.
  by rewrite He, exit_of_idle.
Qed.

Lemma batch_loop_ok l0 evs s : mac_ok l0 s → mac_ok l0 (batch_loop evs s).
Proof.
  revert s. induction evs as [|e evs IH]; intros s Hs; simpl; [done|]. case_bool_decide; [done|].
  by apply IH, on_event_ok.
Qed.

(** The macOS runner returns only after every child was reaped, each once,
    and its exit code follows the rule of the Linux runner: that of the first
    child that failed, zero when none did. *)
Theorem mac_runner_exit_code (l0 : list Z) (l : list batch) (s : state) (r : res Z) :
  main_loop l (initial l0) = (s, Some r) →
  match r with
  | Ok code => code = exit_of (history s) ∧ reaped (history s) ≡ₚ Z.to_nat <$> l0
  | Throw e => e = RuntimeError "kevent error n = "
  end.
Proof.
  assert (Hok : mac_ok l0 (initial l0)) by done. revert Hok. generalize (initial l0).
  assert (Hend : ∀ s0, mac_ok l0 s0 → pids s0 = [] → (s0, Some (Ok (exit_code s0))) = (s, Some r) →
    match r with
    | Ok code => code = exit_of (history s) ∧ reaped (history s) ≡ₚ Z.to_nat <$> l0
    | Throw e => e = RuntimeError "kevent error n = "
    end).
  { intros s0 (Hr & He & Hperm) Hp Heq. simplify_eq. rewrite Hp, app_nil_r in Hperm. done. }
  induction l as [|b l IH]; intros s0 Hok; simpl; (case_bool_decide as Hp; [by apply Hend|]); [done|].
  destruct b as [evs| |].
  - apply IH. by apply batch_loop_ok.
  - by apply IH.
  - intros Heq. by simplify_eq.
Qed.

Lemma mac_runner_exit_code_witness :
  let l := [BatchIntr; Batch [Kevent true 7 (Some (Exited 0)); Kevent true 8 (Some (Signaled 9))]] in
  (main_loop l (initial [7; 8]%Z)).2 = Some (Ok 137%Z).
Proof.
  intros l. pose proof (mac_runner_exit_code [7; 8]%Z l (main_loop l (initial [7; 8]%Z)).1 (Ok 137%Z)) as H.
  destruct H as [H _]; [by vm_compute|]. by vm_compute.
Defined.
End MacMulti.
