(* ===== verification/Children.v ===== *)
(** * The children of the runners: bin/main_linux.cpp, bin/main_macos.cpp

    What becomes of a process that a runner forks: its program, its standard output, the
    signals it blocks, how it ends when [dup2] or [execve] fails, and what the
    signals of the runner do to it. *)

From S2P Require Import Prelude Parse MultiProc.
Import Spawn.

Module Children.

(** The signals of the runners, with their numbers and what they do by default to a
    program: it is ended, or goes on. *)
Inductive signal := SigInt | SigTerm | SigQuit | SigChld.
#[export] Instance signal_eq_dec : EqDecision signal.
Proof. solve_decision. Defined.
Definition number (s : signal) : Z :=
  match s with SigInt => Multi.SIGINT | SigTerm => Multi.SIGTERM | SigQuit => Multi.SIGQUIT | SigChld => Multi.SIGCHLD end.
Definition fatal (s : signal) : bool := match s with SigChld => false | _ => true end.
Definition of_number (z : Z) : option signal := head (filter (λ s, number s = z) [SigInt; SigTerm; SigQuit; SigChld]).
#[export] Program Instance signal_countable : Countable signal := inj_countable number of_number _.
Next Obligation. by intros []. Qed.

(** A process: the program that replaced the runner's, what its standard output is, the
    signals it blocks and those it holds back (one is held back once, however often it was
    sent), what it wrote, and how it ended. *)
Record process := Process {
  program : option image;
  stdout : Z;
  mask : gset signal;
  pending : gset signal;
  output : list (Z * str);
  ended : option Multi.status;
}.
Definition EXIT_FAILURE : Z := 1.
Definition SIGABRT : Z := 6.

(** [fork]: the child is a copy of its parent without the signals held back. *)
Definition fork (p : process) : process := Process (program p) (stdout p) (mask p) ∅ [] None.
(** [dup2] to the standard output. *)
Definition dup2 (fd : Z) (p : process) : process := Process (program p) fd (mask p) (pending p) (output p) (ended p).
(** [execve]: everything but the program stays. *)
Definition execve (img : image) (p : process) : process :=
  Process (Some img) (stdout p) (mask p) (pending p) (output p) (ended p).
Definition cout (s : str) (p : process) : process :=
  Process (program p) (stdout p) (mask p) (pending p) (output p ++ [(stdout p, s)]) (ended p).
(** A process ends: the system keeps the low byte of its code. *)
Definition finish (st : Multi.status) (p : process) : process :=
  Process (program p) (stdout p) (mask p) (pending p) (output p) (Some st).
Definition exit (code : Z) : process → process := finish (Multi.Exited (wrap 8 code)).
(** [sigprocmask(SIG_BLOCK, ...)]. *)
Definition block (sigs : gset signal) (p : process) : process :=
  Process (program p) (stdout p) (mask p ∪ sigs) (pending p) (output p) (ended p).

(** A signal reaches a process that has the default handlers, as every program that was just
    started. *)
Definition deliver (sig : signal) (p : process) : process :=
  match ended p with
  | Some _ => p
  | None => if fatal sig then finish (Multi.Signaled (number sig)) p else p
  end.
(** [kill]: a signal that is blocked is held back. *)
Definition kill (sig : signal) (p : process) : process :=
  if decide (sig ∈ mask p)
  then Process (program p) (stdout p) (mask p) (pending p ∪ {[sig]}) (output p) (ended p)
  else deliver sig p.
Definition kill_all (l : list signal) (p : process) : process := foldl (flip kill) p l.
(** The program lets signals through: those held back reach it, in some order. *)
Definition unblocks (sigs : gset signal) (p p' : process) : Prop :=
  ∃ order, order ≡ₚ elements (pending p ∩ sigs) ∧
    p' = foldl (flip deliver)
      (Process (program p) (stdout p) (mask p ∖ sigs) (pending p ∖ sigs) (output p) (ended p)) order.

(** ** The runners *)

(** The signals [main] of the Linux runner blocks. *)
Definition runner_mask : gset signal := {[ SigChld; SigInt; SigTerm; SigQuit ]}.

(** How the system answers to a child: [errno] is that of a failed [execve]. *)
Record answers := Answers { dup2_ok : bool; errno : option Z }.

(** The child of the Linux runner: [child_main], with what it does to the process.  An
    exception that leaves [main] aborts it. *)
Definition linux_child (write_fd : Z) (a : answers) (img : image) (p : process) : process :=
  match child_main (dup2_ok a) (bool_decide (errno a = None)) with
  | Throw _ => finish (Multi.Signaled SIGABRT) p
  | Ok None => execve img (dup2 write_fd p)
  | Ok (Some code) =>
    exit code (cout (Parse.print_Z (default 0%Z (errno a)) ++ lit " error number" ++ ["010"%char]) (dup2 write_fd p))
  end.
(** The child of the macOS runner. *)
Definition mac_child (a : answers) (img : image) (p : process) : process :=
  match mac_child_main (bool_decide (errno a = None)) with
  | None => execve img p
  | Some code => exit code p
  end.

(** The children of a runner, with their process ids. *)
Definition linux_children (argv envv : list str) (forks : list Z) (write_fds : list Z) (a : nat → answers) (p : process)
    : list (Z * process) :=
  let runner := block runner_mask p in
  imap (λ i c, (fst c, linux_child (default (-1)%Z (write_fds !! i)) (a i) (snd c) (fork runner)))
    (start_processes argv envv (length forks) forks).1.
Definition mac_children (argv envv : list str) (forks : list Z) (a : nat → answers) (p : process) : list (Z * process) :=
  imap (λ i c, (fst c, mac_child (a i) (snd c) (fork p)))
    (mac_start_processes argv envv (Z.of_nat (length forks)) forks).1.

(** ** What signals do to a child *)

(** The code that the runner gets for a child that ended. *)
Definition reported (p : process) : option Z := Multi.status_code <$> ended p.
(** The first signal that ends a program with the blocked signals [m]. *)
Definition first_fatal (m : gset signal) (sent : list signal) : option Z :=
  number <$> head (filter (λ sig, fatal sig = true ∧ sig ∉ m) sent).
(** A program is ended by one of the fatal signals of [P], and goes on when there is none. *)
Definition ends_by (P : signal → Prop) (e : option Multi.status) : Prop :=
  match e with
  | Some st => ∃ sig, P sig ∧ fatal sig = true ∧ st = Multi.Signaled (number sig)
  | None => ∀ sig, P sig → fatal sig = false
  end.

Lemma kill_all_ended l r st : ended r = Some st → ended (kill_all l r) = Some st.
Proof.
  revert r. induction l as [|sig l IH]; intros r Hr; [done|]. apply IH. simpl. unfold kill, deliver.
  case_decide; [done|]. by rewrite Hr.
Qed.
Lemma kill_all_first l r : ended r = None → ended (kill_all l r) = Multi.Signaled <$> first_fatal (mask r) l.
Proof.
  unfold first_fatal. revert r. induction l as [|sig l IH]; intros r Hr; [done|].
  change (kill_all (sig :: l) r) with (kill_all l (kill sig r)). unfold kill, deliver. case_decide as Hm.
  - rewrite filter_cons_False by tauto. by apply (IH (Process (program r) (stdout r) (mask r) _ (output r) (ended r))).
  - rewrite Hr. destruct (fatal sig) eqn:Hf; [|rewrite filter_cons_False by (intros [? _]; congruence); by apply IH].
    rewrite filter_cons_True by done. simpl. by apply kill_all_ended.
Qed.

Lemma kill_all_holds l r :
  (∀ sig, sig ∈ mask r) → kill_all l r = Process (program r) (stdout r) (mask r) (pending r ∪ list_to_set l) (output r) (ended r).
Proof.
  revert r. induction l as [|sig l IH]; intros r Hm; [destruct r; simpl; by rewrite (right_id_L ∅ (∪))|].
  change (kill_all (sig :: l) r) with (kill_all l (kill sig r)). unfold kill. rewrite decide_True by done.
  rewrite IH by done. simpl. by rewrite (assoc_L (∪)).
Qed.
Lemma deliver_all_ends l r :
  ended r = None → ends_by (λ sig, sig ∈ l) (ended (foldl (flip deliver) r l)).
Proof.
  revert r. induction l as [|sig l IH]; intros r Hr; simpl; [rewrite Hr; intros sig; by intros ?%elem_of_nil|].
  unfold deliver at 2. rewrite Hr. destruct (fatal sig) eqn:Hf.
  - assert (∀ l r st, ended r = Some st → ended (foldl (flip deliver) r l) = Some st) as Hstay.
    { clear. induction l as [|s l IH]; intros r st Hr; [done|]. apply IH. simpl. unfold deliver. by rewrite Hr. }
    rewrite (Hstay l (finish (Multi.Signaled (number sig)) r) (Multi.Signaled (number sig)) eq_refl). exists sig. split_and!; [left|done|done].
  - specialize (IH r Hr). unfold ends_by in *. destruct (ended _) as [st|].
    + destruct IH as (s & Hs & ?). exists s. split; [by right|done].
    + intros s [->|Hs]%elem_of_cons; auto.
Qed.
Lemma ends_by_ext (P Q : signal → Prop) e : (∀ sig, P sig ↔ Q sig) → ends_by P e → ends_by Q e.
Proof. intros H. destruct e; simpl; [|intros He sig HQ; apply He, H, HQ]. intros (sg & Hsg & Hrest). exists sg. split; [by apply H|done]. Qed.
Lemma kill_all_held l r :
  ended r = None → (∀ sig, sig ∈ mask r) → pending r = ∅ →
  ended (kill_all l r) = None ∧
  ∀ sigs r', unblocks sigs (kill_all l r) r' → ends_by (λ sig, sig ∈ l ∧ sig ∈ sigs) (ended r').
Proof.
  intros He Hm Hp. rewrite (kill_all_holds l r Hm). simpl. split; [done|]. rewrite Hp. intros sigs r' (order & Ho & ->). simpl in *.
  apply (ends_by_ext (λ sig, sig ∈ order)); [|by apply deliver_all_ends]. intros sig. rewrite Ho, elem_of_elements. set_solver.
Qed.

(** ** What they are *)

Section runner.
(** The process of the runner, its arguments and environment, and what the system answers. *)
Context (argv envv : list str) (forks write_fds : list Z) (a : nat → answers) (p : process).
Context (forks_ok : Forall (λ q, 0 ≤ q)%Z forks).

(** What the [i]-th child sees. *)
Abbreviation img i := (child_image argv envv (Z.of_nat (length forks)) i).

Lemma linux_children_lookup i q fd :
  forks !! i = Some q → write_fds !! i = Some fd →
  linux_children argv envv forks write_fds a p !! i = Some (q, linux_child fd (a i) (img i) (fork (block runner_mask p))).
Proof using forks_ok.
  intros Hq Hfd. unfold linux_children. destruct (start_processes_equivalent argv envv forks forks_ok) as [_ ->].
  simpl. by rewrite !list_lookup_imap, Hq, Hfd.
Qed.
Lemma mac_children_lookup i q :
  forks !! i = Some q → mac_children argv envv forks a p !! i = Some (q, mac_child (a i) (img i) (fork p)).
Proof using forks_ok.
  intros Hq. unfold mac_children. destruct (start_processes_equivalent argv envv forks forks_ok) as [<- ->].
  simpl. by rewrite !list_lookup_imap, Hq.
Qed.

(** C32: the runners of Linux and macOS start the same children, although one reuses a vector
    of variables that it cuts back and the other extends a copy: the [i]-th sees the
    command and the environment with the number of processes and its own index and no
    variable of another child.  On Linux it writes to its own pipe.  When the
    command cannot be started the runner reports 1 on Linux, with a message in the pipe, and 255
    on macOS; when [dup2] fails the child aborts, which is reported as 134.  On macOS the first of the
    signals SIGINT, SIGTERM and SIGQUIT that the runner's parent did not block ends a child;
    SIGCHLD does not.  On Linux the child has inherited the blocked signals: none that is
    sent to it ends it before the program lets it through, and then one of those does. *)
Theorem runner_children (i : nat) (q fd : Z) :
  forks !! i = Some q → write_fds !! i = Some fd →
  ∃ cl cm, linux_children argv envv forks write_fds a p !! i = Some (q, cl) ∧
    mac_children argv envv forks a p !! i = Some (q, cm) ∧
    (dup2_ok (a i) = false → reported cl = Some 134%Z) ∧
    match errno (a i) with
    | None =>
      program cm = Some (img i) ∧ stdout cm = stdout p ∧
      (∀ sent, ended (kill_all sent cm) = Multi.Signaled <$> first_fatal (mask p) sent) ∧
      (dup2_ok (a i) = true → program cl = program cm ∧ stdout cl = fd ∧
       ∀ sent, ended (kill_all sent cl) = None ∧
         ∀ sigs c, unblocks sigs (kill_all sent cl) c → ends_by (λ sig, sig ∈ sent ∧ sig ∈ sigs) (ended c))
    | Some n =>
      reported cm = Some 255%Z ∧
      (dup2_ok (a i) = true → reported cl = Some EXIT_FAILURE ∧
         output cl = [(fd, Parse.print_Z n ++ lit " error number" ++ ["010"%char])])
    end.
Proof using forks_ok.
  intros Hq Hfd. exists (linux_child fd (a i) (img i) (fork (block runner_mask p))), (mac_child (a i) (img i) (fork p)).
  split; [by apply linux_children_lookup|]. split; [by apply mac_children_lookup|].
  unfold linux_child, mac_child, child_main, mac_child_main.
  destruct (a i) as [[] [n|]]; munfold_goal; split_and!; try done; try exact (λ sent, kill_all_first sent (execve (img i) (fork p)) eq_refl).
  intros _. split_and!; [done..|]. intros sent. apply kill_all_held; [done|intros sig; simpl; destruct sig; set_solver|done].
Qed.
End runner.

(** Two children of a runner that blocks nothing at first; the second command is missing. *)
Definition sample_process : process := Process None 1 ∅ ∅ [] None.
Definition sample_answers (i : nat) : answers := Answers true (if decide (i = 1) then Some 2%Z else None).
Lemma runner_children_witness :
  let linux := linux_children [lit "app"] [lit "A=1"] [10; 11]%Z [5; 7]%Z sample_answers sample_process in
  let mac := mac_children [lit "app"] [lit "A=1"] [10; 11]%Z sample_answers sample_process in
  ∃ c0 m0 c1, linux !! 0 = Some (10%Z, c0) ∧ mac !! 0 = Some (10%Z, m0) ∧ linux !! 1 = Some (11%Z, c1) ∧
    stdout c0 = 5%Z ∧ ended (kill_all [SigChld; SigTerm] c0) = None ∧
    ended (kill_all [SigChld; SigTerm; SigInt] m0) = Some (Multi.Signaled 15) ∧
    reported c1 = Some 1%Z ∧ output c1 = [(7%Z, lit "2 error number" ++ ["010"%char])].
Proof.
  intros linux mac.
  destruct (runner_children [lit "app"] [lit "A=1"] [10; 11]%Z [5; 7]%Z sample_answers sample_process) with
    (i := 0) (q := 10%Z) (fd := 5%Z) as (c0 & m0 & H0 & Hm0 & _ & _ & _ & Hk & (_ & Hs0 & Hk0)); [repeat constructor; lia|done..|].
  destruct (runner_children [lit "app"] [lit "A=1"] [10; 11]%Z [5; 7]%Z sample_answers sample_process) with
    (i := 1) (q := 11%Z) (fd := 7%Z) as (c1 & m1 & H1 & _ & _ & _ & (He1 & Ho1)); [repeat constructor; lia|done..|].
  exists c0, m0, c1. split_and!; [done..|apply Hk0|by rewrite Hk|done|done].
Defined.
End Children.
