(* ===== verification/TestProgram.v ===== *)
(** * The program the runners start in the tests: bin/test/main_test.cpp

    Its [main] composes the global initialisation, the environment, the argument editor,
    the printing of ranges and a signal barrier.  It is verified once against the contract of
    the barrier, and so for the barriers of Linux, macOS and Windows. *)

From S2P Require Import Prelude Raii Strings Args RangePrint EnvVar Signals Barrier MultiProc.

Module TestProgram.
Import SigVal SecureString.

(** [operator<<] for a [const char*] and for a [char]. *)
Definition print_cstr (os : ostream) (c : cstr) : ostream :=
  match c with Some s => os_write os s | None => os_setfail os end.
Definition print_char (os : ostream) (c : ascii) : ostream := os_write os [c].

Definition EXIT_SUCCESS : Z := 0.
Definition healthy_flag : str := lit "--healthy".

(** The texts of the two log statements. *)
Definition start_line (pr_id pr_num : str) (argc : Z) (argv : list cstr) : str :=
  let os := os_write (OStream [] false) (lit "NSTL_PROCESSES_ID: ") in
  let os := os_write os pr_id in
  let os := os_write os (lit "; NSTL_PROCESSES_NUMBER: ") in
  let os := os_write os pr_num in
  let os := os_write os (lit " (args: ") in
  let os := RangePrint.range_print print_cstr print_char (take (Z.to_nat argc) argv) " "%char os in
  os_out (print_char os ")"%char).
Definition received_line (value : SigVal) : str := print value ++ lit " received".

Section program.
Context {W : Type} `{!SignalBarrier W} (system : GlobalInit.platform) (ans : GlobalInit.answers).

(** The globals of the process, its environment, what the barrier works on, and the
    messages given to the logger. *)
Record world := World { proc : GlobalInit.process; vars : EnvVar.env; bar : W; logged : list str }.
Definition NSTL_INFO (msg : str) : M world () := mmodify (λ w, World (proc w) (vars w) (bar w) (logged w ++ [msg])).
Definition on_env {A} (f : M EnvVar.env A) : M world A := λ w,
  let '(e, r) := f (vars w) in (World (proc w) e (bar w) (logged w), r).
Definition on_bar {A} (f : M W A) : M world A := λ w,
  let '(b, r) := f (bar w) in (World (proc w) (vars w) b (logged w), r).
Definition on_proc {A} (f : M GlobalInit.process A) : M world A := λ w,
  let '(p, r) := f (proc w) in (World p (vars w) (bar w) (logged w), r).
Definition set_proc (f : GlobalInit.process → GlobalInit.process) (w : world) : world :=
  World (f (proc w)) (vars w) (bar w) (logged w).

(** The scope of the barrier. *)
Definition wait_for_signal : M world SigVal :=
  p ← mgets proc;
  on_bar (with_object (make_barrier p) destroy wait).
(** [main] after the initialisation. *)
Definition after_init (argv : list str) : M world Z :=
  pr_id ← on_env (EnvVar.get_env_var (Some (lit "NSTL_PROCESSES_ID")));
  pr_num ← on_env (EnvVar.get_env_var (Some (lit "NSTL_PROCESSES_NUMBER")));
  r ← mlift (Args.is_arg_set (Z.of_nat (length argv)) (Some ((Some <$> argv) ++ [None])) (Some healthy_flag));
  let '(healthy, argc, argv) := (r : bool * Z * list cstr) in
  NSTL_INFO (start_line pr_id pr_num argc argv);;
  value ← wait_for_signal;
  NSTL_INFO (received_line value);;
  mret (if healthy then EXIT_SUCCESS else to_signal_conv value).
(** [main]: the destructor of [init] runs when the block is left.  An exception that leaves
    it ends the process, so nothing is said of the world then. *)
Definition main (argv : list str) : M world Z :=
  with_object (on_proc (GlobalInit.global_init system ans true true))
    (λ init, set_proc (GlobalInit.destroy system init)) (λ _, after_init argv).

(** A process that was not initialised, and a system that is fit for a barrier. *)
Definition ready (w : world) : Prop :=
  GlobalInit.init_done (proc w) = false ∧ GlobalInit.sfd_global (proc w) = GlobalInit.invalid_file_handle ∧
  (0 ≤ GlobalInit.signalfd ans → GlobalInit.signalfd ans ∉ GlobalInit.opened (proc w))%Z ∧ fit (bar w).

(** ** What it prints *)

Definition variable (name : string) (w : world) : str := default [] (vars w !! lit name).
Definition arguments (argv : list str) : list str := filter (λ a, a ≠ healthy_flag) argv.

Lemma kept_arguments argv : Args.kept healthy_flag (Some <$> argv) = Some <$> arguments argv.
Proof.
  unfold Args.kept, arguments. induction argv as [|a argv IH]; [done|]. rewrite fmap_cons.
  destruct (decide (a = healthy_flag)) as [->|Hne].
  - by rewrite (list.filter_cons_False _ (Some healthy_flag)), (list.filter_cons_False _ healthy_flag) by naive_solver.
  - rewrite (list.filter_cons_True _ (Some a)), (list.filter_cons_True _ a), fmap_cons by naive_solver. by rewrite IH.
Qed.

Lemma print_arguments (l : list str) (os : ostream) :
  RangePrint.range_print print_cstr print_char (Some <$> l) " "%char os =
  os_write os (RangePrint.sep_text id [" "%char] l).
Proof.
  rewrite <-(@RangePrint.range_print_text _ RangePrint.put_str id RangePrint.put_str_appends l [" "%char] os).
  destruct l as [|a l]; [done|]. simpl. unfold RangePrint.put_str, print_char at 1. generalize (os_write os a).
  induction l as [|b l IH]; intros o; [done|]. simpl. apply IH.
Qed.

Lemma start_line_text pr_id pr_num (l : list str) rest :
  start_line pr_id pr_num (Z.of_nat (length l)) ((Some <$> l) ++ rest) =
  lit "NSTL_PROCESSES_ID: " ++ pr_id ++ lit "; NSTL_PROCESSES_NUMBER: " ++ pr_num ++ lit " (args: " ++
  RangePrint.sep_text id [" "%char] l ++ lit ")".
Proof.
  unfold start_line. rewrite Nat2Z.id, take_app_le, take_ge by (by rewrite length_fmap).
  rewrite print_arguments, !os_write_app. unfold print_char. rewrite os_write_app.
  assert (∀ s, os_out (os_write (OStream [] false) s) = s) as -> by done. by rewrite <-!(assoc_L (++)).
Qed.

(** The line [main] logs before it waits. *)
Definition first_message (argv : list str) (w : world) : str :=
  lit "NSTL_PROCESSES_ID: " ++ variable "NSTL_PROCESSES_ID" w ++ lit "; NSTL_PROCESSES_NUMBER: " ++
  variable "NSTL_PROCESSES_NUMBER" w ++ lit " (args: " ++ RangePrint.sep_text id [" "%char] (arguments argv) ++ lit ")".

Lemma after_init_eq argv w :
  after_init argv w =
  (value ← wait_for_signal;
   NSTL_INFO (received_line value);;
   mret (if bool_decide (healthy_flag ∈ argv) then EXIT_SUCCESS else to_signal_conv value))
  (World (proc w) (vars w) (bar w) (logged w ++ [first_message argv w])).
Proof.
  unfold after_init at 1. pose proof (Args.is_arg_set_correct (Some <$> argv) [None] "-"%char (lit "-healthy")) as Ha.
  cbv zeta in Ha. rewrite length_fmap in Ha. change ("-"%char :: lit "-healthy") with healthy_flag in Ha.
  assert (Hin : bool_decide (Some healthy_flag ∈ Some <$> argv) = bool_decide (healthy_flag ∈ argv)).
  { apply bool_decide_ext. rewrite list_elem_of_fmap. naive_solver. }
  rewrite kept_arguments, length_fmap, Hin in Ha. unfold mbind, M_bind, on_env, EnvVar.get_env_var, mlift. rewrite Ha.
  unfold NSTL_INFO at 1, mmodify. munfold_goal. rewrite start_line_text.
  by destruct w.
Qed.

(** How [main] ends: with the number of a signal that its barrier picks from the first batch
    of signals it sees, or with success when [--healthy] was among its arguments; it has logged
    both lines and has given back its descriptors, its libraries and its handlers.  Else the
    system refused something, no signal came, or the process was ended. *)
Definition exits (argv : list str) (w : world) (out : world * res Z) : Prop :=
  let fd := GlobalInit.signal_file system ans true in
  match out with
  | (w', Ok code) => ∃ quiet b rest v, batches fd (bar w) = quiet ++ b :: rest ∧ Forall no_values quiet ∧ picks b v ∧
      code = (if bool_decide (healthy_flag ∈ argv) then EXIT_SUCCESS else to_signal_conv v) ∧
      logged w' = logged w ++ [first_message argv w; received_line v] ∧ vars w' = vars w ∧
      GlobalInit.opened (proc w') = GlobalInit.opened (proc w) ∧
      GlobalInit.libraries (proc w') = GlobalInit.libraries (proc w) ∧ restored (bar w) (bar w')
  | (w', Throw e) =>
      Epoll.system_error e ∧ (GlobalInit.refused system ans true true (proc w) ∨ trouble fd (bar w)) ∨
      e = blocked ∧ Forall no_values (batches fd (bar w)) ∨
      terminated e ∧ doomed fd (bar w)
  end.

Lemma main_exits (argv : list str) (w : world) : ready w → exits argv w (main argv w).
Proof.
  intros (Hi & Hs & Hf & Hfit). unfold main, with_object at 1, mbind, M_bind, on_proc, exits.
  pose proof (GlobalInit.global_init_result system ans true true (proc w) Hi Hs Hf) as Hg.
  pose proof (GlobalInit.global_init_errors system ans true true (proc w)) as He.
  destruct (GlobalInit.global_init system ans true true (proc w)) as [p [init|e]]; [|left; split; [apply He|left; apply He]].
  destruct Hg as (-> & Ho & Hl & _ & <-). unfold ScopeExit.on_scope_exit. rewrite after_init_eq.
  unfold wait_for_signal, on_bar. munfold_goal. pose proof (barrier_law p (bar w) Hfit) as Hb.
  destruct (with_object (make_barrier p) destroy wait (bar w)) as [b' [v|e]]; simpl in *.
  - destruct Hb as ((quiet & b & rest & H1 & H2 & H3) & Hr). exists quiet, b, rest, v. split_and!; try done.
    by rewrite <-(assoc_L (++)).
  - destruct Hb as [(? & ? & _)|[(? & ? & _)|?]]; auto.
Qed.
End program.
Arguments world : clear implicits.
Arguments World {W}.


(** Runs that get SIGTERM on each of the three systems: success with the flag, 15 without,
    and a runner takes the latter for a failure. *)
Definition sample_answers : GlobalInit.answers := GlobalInit.Answers true 3 true true.
Definition sample_vars : EnvVar.env := {[ lit "NSTL_PROCESSES_ID" := lit "0"; lit "NSTL_PROCESSES_NUMBER" := lit "2" ]}.
Definition linux_world : world Epoll.kernel :=
  World GlobalInit.fresh_process sample_vars
    (Epoll.Kernel {[3%Z]} ∅ [Epoll.Turn [15%Z] 0 (Epoll.WEvents [3%Z])] [] ∅ 0) [].
Definition polling_world : world Polling.globals :=
  World GlobalInit.fresh_process sample_vars Polling.demo_globals [].
Definition closing (k : nat) : list Polling.event := if (k =? 2)%nat then [Polling.Console 2] else [].
Definition linux_barrier : SignalBarrier Epoll.kernel :=
  EpollBarrier.barrier (Some 5%Z) (λ _, true) (λ _, true) Epoll.first_of Epoll.first_of_in.
Definition macos_barrier : SignalBarrier Polling.globals := PollingBarrier.barrier false true (10 ^ 7) Polling.demo_arrivals 5.
Definition windows_barrier : SignalBarrier Polling.globals := PollingBarrier.barrier true true (10 ^ 7) closing 5.

Definition app : list str := [lit "app"; lit "x"].
Definition app_log : list str := [lit "NSTL_PROCESSES_ID: 0; NSTL_PROCESSES_NUMBER: 2 (args: app x)"; lit "SIGTERM received"].

End TestProgram.
