(* ===== verification/WinRunner.v ===== *)
(** * The Windows process runner: bin/main_win32.cpp

    [Block] models the command line and the environment block a child is started
    with, [Runner] the class [Data] with its three vectors of handles, the loop of
    [main] over the answers of [WaitForMultipleObjects], and the timer routine. *)

From S2P Require Import Prelude Strings Parse Raii Signals MultiProc.

(** ** The command line and the environment of a child *)

Module Block.
Import Spawn.

Definition nul : ascii := "000"%char.

(** [command_line]: the arguments with blanks in between. *)
Fixpoint line_loop (args : list str) (os : ostream) : ostream :=
  match args with
  | [] => os
  | a :: args => line_loop args (os_write (os_write os (lit " ")) a)
  end.
Definition command_line (argv : list str) : res str :=
  match argv with
  | [] => Throw (UndefinedBehaviour "argv_[0]")
  | a :: args => Ok (os_out (line_loop args (os_write (OStream [] false) a)))
  end.

(** [env_vars]: the loop ends at the first variable without characters, or at the
    null pointer. *)
Fixpoint copy_loop (envv : list str) (buffer : str) : str :=
  match envv with
  | [] => buffer
  | v :: envv => if (0 <? length v)%nat then copy_loop envv (buffer ++ v ++ [nul]) else buffer
  end.
Definition env_vars (envv : list str) (idx threads : Z) : str :=
  let buffer := copy_loop envv [] in
  let buffer := buffer ++ env_var_big threads ++ [nul] in
  let buffer := buffer ++ env_var_idx idx ++ [nul] in
  buffer ++ [nul].

(** How a child reads an environment block: strings up to an empty one. *)
Fixpoint read_block (cur : str) (b : str) : list str :=
  match b with
  | [] => []
  | c :: b =>
    if decide (c = nul) then match cur with [] => [] | _ => cur :: read_block [] b end
    else read_block (cur ++ [c]) b
  end.

Definition plain (v : str) : Prop := v ≠ [] ∧ nul ∉ v.

Lemma read_block_string v cur b : nul ∉ v → cur ++ v ≠ [] →
  read_block cur (v ++ nul :: b) = (cur ++ v) :: read_block [] b.
Proof.
  revert cur. induction v as [|c v IH]; intros cur Hv Hne; simpl.
  - rewrite app_nil_r in *. by destruct cur.
  - apply not_elem_of_cons in Hv as [Hc Hv]. rewrite decide_False by done.
    rewrite IH, <-(assoc_L (++)); [done|done|]. by destruct cur.
Qed.
Lemma read_block_one v b : plain v → read_block [] (v ++ nul :: b) = v :: read_block [] b.
Proof. intros [H1 H2]. by apply (read_block_string v []). Qed.

Lemma copy_loop_plain envv buffer b : Forall plain envv →
  copy_loop envv buffer ++ b = buffer ++ (envv ≫= λ v, v ++ [nul]) ++ b.
Proof.
  intros He. revert buffer. induction He as [|v envv [Hv _] _ IH]; intros buffer; csimpl; [done|].
  destruct v as [|c v]; [done|]. cbn [length Nat.ltb]. simpl. rewrite IH. by simplify_list_eq.
Qed.

Lemma read_block_app envv b : Forall plain envv →
  read_block [] ((envv ≫= λ v, v ++ [nul]) ++ b) = envv ++ read_block [] b.
Proof.
  induction 1 as [|v envv Hv _ IH]; csimpl; [done|]. rewrite <-!(assoc_L (++)). simpl.
  by rewrite read_block_one, IH.
Qed.

Lemma numbered_plain s z : s ≠ [] → nul ∉ s → plain (s ++ Parse.print_Z z).
Proof.
  intros Hne Hs. split; [by destruct s|]. rewrite elem_of_app. intros [?|Hz]; [done|].
  apply Parse.print_Z_chars in Hz. revert Hz. vm_compute. intuition congruence.
Qed.

(** A child of the Windows runner reads from its environment block what the
    children of the other runners get in [envp]: the variables of the runner in
    their order, then the number of processes and its own index. *)
Lemma env_block_roundtrip (argv envv : list str) (i : nat) (threads : Z) :
  Forall plain envv →
  read_block [] (env_vars envv (Z.of_nat i) threads) = environ (child_image argv envv threads i).
Proof.
  intros He. unfold env_vars, child_image, environ. rewrite <-!(assoc_L (++)). rewrite copy_loop_plain by done.
  rewrite app_nil_l, read_block_app by done. f_equal. cbn [app].
  rewrite !read_block_one by (apply numbered_plain; [done|by apply (bool_decide_unpack _)]). done.
Qed.

(** The arguments are not quoted: one with a blank arrives as two. *)
Lemma argument_split a b c : command_line [a; b ++ lit " " ++ c] = command_line [a; b; c].
Proof. unfold command_line; simpl. by rewrite <-!(assoc_L (++)). Qed.
End Block.

(** ** The handles and the loop *)

Module Runner.
Import Multi.

Definition running_true : Z := 2 ^ 32 - 1.
Definition CTRL_CLOSE_EVENT : Z := 2.
Definition EXIT_FAILURE : Z := 1.
Definition WAIT_OBJECT_0 : Z := 0.
Definition WAIT_ABANDONED_0 : Z := 128.
Definition WAIT_TIMEOUT : Z := 258.
Definition WAIT_FAILED : Z := 2 ^ 32 - 1.
Definition MAXIMUM_WAIT_OBJECTS : nat := 64.

(** A [DWORD] as an [int]. *)
Definition to_int (z : Z) : Z := if (z <? 2 ^ 31)%Z then z else (z - 2 ^ 32)%Z.

(** [ConsoleHandler] on [app_running]. *)
Definition ConsoleHandler (sig app_running : Z) : Z * bool :=
  if bool_decide (sig ∈ [0; 2; 5; 6]%Z) then (sig, true) else (app_running, false).

(** The class [Data]; a null handle is zero. *)
Record data := Data {
  handle_to_pid : gmap Z Z;
  timer_hndlr : Z;
  event_hndl : Z;
  pids : list Z;
  tids : list Z;
  wait_for : list Z;
  exit_code : Z;
}.
Definition no_data : data := Data ∅ 0 0 [] [] [] 0.

(** The object with the handles that are open, the calls of [CloseHandle] on
    something else, the console events sent, the processes terminated by the
    timer, what happened so far, and the events that the wait reported. *)
Record world := World {
  app : data;
  opened : gset Z;
  bad_closes : list Z;
  sent : list (Z * Z);
  terminated : list Z;
  history : list Multi.event;
  reported : list Z;
}.
Definition set_app (f : data → data) (w : world) : world :=
  World (f (app w)) (opened w) (bad_closes w) (sent w) (terminated w) (history w) (reported w).
Definition log (e : Multi.event) (w : world) : world :=
  World (app w) (opened w) (bad_closes w) (sent w) (terminated w) (history w ++ [e]) (reported w).
Definition open_handle (h : Z) (w : world) : world :=
  World (app w) ({[h]} ∪ opened w) (bad_closes w) (sent w) (terminated w) (history w) (reported w).

Definition report (h : Z) (w : world) : world :=
  World (app w) (opened w) (bad_closes w) (sent w) (terminated w) (history w) (reported w ++ [h]).

Definition CloseHandle (h : Z) (w : world) : world :=
  if bool_decide (h ∈ opened w)
  then World (app w) (opened w ∖ {[h]}) (bad_closes w) (sent w) (terminated w) (history w) (reported w)
  else World (app w) (opened w) (bad_closes w ++ [h]) (sent w) (terminated w) (history w) (reported w).
(** [opt_close_handle], up to the variable it clears, which is not used again. *)
Definition opt_close_handle (h : Z) (w : world) : world := if (h =? 0)%Z then w else CloseHandle h w.

Definition push_back (hpid htid pid : Z) : world → world := set_app (λ d,
  Data (match handle_to_pid d !! hpid with Some _ => handle_to_pid d | None => <[hpid := pid]> (handle_to_pid d) end)
    (timer_hndlr d) (event_hndl d) (pids d ++ [hpid]) (tids d ++ [htid]) (wait_for d ++ [hpid]) (exit_code d)).

(** [~Data]. *)
Definition destroy (w : world) : world :=
  let d := app w in
  let w := foldr opt_close_handle w (drop (length (pids d)) (wait_for d)) in
  let w := foldl (flip opt_close_handle) w (pids d) in
  let w := foldl (flip opt_close_handle) w (tids d) in
  opt_close_handle (timer_hndlr d) w.

(** [remove_idx]; [code] is what [GetExitCodeProcess] gives, if it succeeds. *)
Definition remove_idx (idx : nat) (code : option Z) : M world (option Z) :=
  w ← mget;
  let d := app w in
  mthrow_if (length (wait_for d) <=? idx)%nat (UndefinedBehaviour "wait_for.begin() + idx_");;
  mthrow_if (length (pids d) <? idx)%nat (UndefinedBehaviour "pids.begin() + idx_");;
  match pids d !! idx, tids d !! idx with
  | None, _ =>
    mmodify (report (nth idx (wait_for d) 0%Z));;
    mmodify (set_app (λ d, Data (handle_to_pid d) (timer_hndlr d) (event_hndl d) (pids d) (tids d)
                              (delete idx (wait_for d)) (exit_code d)));;
    mret None
  | Some _, None => mthrow (UndefinedBehaviour "tids.begin() + idx_")
  | Some hpid, Some htid =>
    mmodify (CloseHandle hpid);;
    mmodify (CloseHandle htid);;
    mmodify (set_app (λ d, Data (delete hpid (handle_to_pid d)) (timer_hndlr d) (event_hndl d)
                              (delete idx (pids d)) (delete idx (tids d)) (delete idx (wait_for d)) (exit_code d)));;
    mret (Some (default EXIT_FAILURE code))
  end.

Definition sendCloseEvent (sig : Z) (w : world) : world :=
  let d := app w in
  World d (opened w) (bad_closes w)
    (sent w ++ omap (λ h, (λ pid, (sig, pid)) <$> handle_to_pid d !! h) (pids d)) (terminated w) (history w) (reported w).

(** [TimerRoutine], when the timer was created.  It runs on a thread of the timer queue and
    reads [pids] without a lock; here it runs in one piece, while the runner waits. *)
Definition TimerRoutine (w : world) : world :=
  if (timer_hndlr (app w) =? 0)%Z then w
  else World (app w) (opened w) (bad_closes w) (sent w) (terminated w ++ pids (app w)) (history w) (reported w).

Section runner.
(** The value of a new handle, given those that are open. *)
Context (new_handle : gset Z → Z).

Definition createEvent (event_ok timer_ok : bool) : M world () :=
  w ← mget;
  mthrow_if (negb (event_hndl (app w) =? 0)%Z) (RuntimeError "Event already created!");;
  mthrow_if (negb (timer_hndlr (app w) =? 0)%Z) (RuntimeError "Timer already created");;
  mthrow_if (negb event_ok) (RuntimeError "CreateEvent failed");;
  let ev := new_handle (opened w) in
  mmodify (open_handle ev);;
  mmodify (set_app (λ d, Data (handle_to_pid d) (timer_hndlr d) ev (pids d) (tids d) (wait_for d) (exit_code d)));;
  mthrow_if (negb timer_ok) (RuntimeError "CreateTimerQueueTimer failed");;
  mmodify (set_app (λ d, Data (handle_to_pid d) (new_handle ({[ev]} ∪ opened w)) ev (pids d) (tids d)
                            (wait_for d ++ [ev]) (exit_code d))).

(** The loop that starts the processes: what [CreateProcessA] answers, the id of
    the process or nothing. *)
Fixpoint start_loop (l : list (option Z)) (w : world) : world :=
  match l with
  | [] => w
  | None :: l => start_loop l w
  | Some pid :: l =>
    let hp := new_handle (opened w) in
    let ht := new_handle ({[hp]} ∪ opened w) in
    start_loop l (push_back hp ht pid (open_handle ht (open_handle hp w)))
  end.

(** [WaitForMultipleObjects] fails for more than 64 handles. *)
Definition WaitForMultipleObjects (size : nat) (answer : Z) : Z :=
  if (MAXIMUM_WAIT_OBJECTS <? size)%nat then WAIT_FAILED else answer.

(** What happens next: an answer of the wait, with the exit code of the process if
    it is asked for, the value of [app_running], and whether the event and the
    timer can be created; or the timer fires. *)
Inductive turn :=
| Wait (answer : Z) (code : option Z) (run_state : Z) (event_ok timer_ok : bool)
| TimerFires.

(** The body of the loop of [main] after a wait; the new [send_close_event]. *)
Definition on_answer (retval : Z) (code : option Z) (run_state : Z) (event_ok timer_ok send_close_event : bool)
    : M world bool :=
  w ← mget;
  let size := length (wait_for (app w)) in
  if (WAIT_OBJECT_0 <=? retval)%Z && (retval <? WAIT_OBJECT_0 + Z.of_nat size)%Z then
    current_exit_code ← remove_idx (Z.to_nat (retval - WAIT_OBJECT_0)) code;
    match current_exit_code with
    | None => mret send_close_event
    | Some c =>
      mmodify (log (HExit (Z.to_nat (retval - WAIT_OBJECT_0)) (to_int c)));;
      if negb (c =? 0)%Z && send_close_event then
        mmodify (set_app (λ d, Data (handle_to_pid d) (timer_hndlr d) (event_hndl d) (pids d) (tids d) (wait_for d)
                                  (to_int c)));;
        mmodify (sendCloseEvent CTRL_CLOSE_EVENT);;
        mret false
      else mret send_close_event
    end
  else if (retval =? WAIT_TIMEOUT)%Z then
    if negb (run_state =? running_true)%Z && send_close_event then
      mmodify (log (HSignal run_state));;
      mmodify (sendCloseEvent run_state);;
      createEvent event_ok timer_ok;;
      mret false
    else mret send_close_event
  else
    mthrow_if ((WAIT_ABANDONED_0 <=? retval)%Z && (retval <? WAIT_ABANDONED_0 + Z.of_nat size)%Z)
      (RuntimeError "Process abandoned (not expected at all)");;
    mthrow_if (retval =? WAIT_FAILED)%Z (RuntimeError "WaitForMultipleObjects FAILED");;
    mthrow (RuntimeError " return value doesn't make a sense").

(** The loop of [main]; [None] when it still waits at the end of the turns. *)
Fixpoint main_loop (l : list turn) (send_close_event : bool) : M world (option Z) :=
  w ← mget;
  if bool_decide (pids (app w) = []) then mret (Some (exit_code (app w)))
  else
    match l with
    | [] => mret None
    | TimerFires :: l => mmodify TimerRoutine;; main_loop l send_close_event
    | Wait answer code run_state event_ok timer_ok :: l =>
      let retval := WaitForMultipleObjects (length (wait_for (app w))) answer in
      send_close_event ← on_answer retval code run_state event_ok timer_ok send_close_event;
      main_loop l send_close_event
    end.

(** [main] from the construction of [app_data] on: its destructor runs when the
    function returns.  An exception that leaves [main] ends the process, and whether the
    destructor runs before is not specified: here it does not. *)
Definition main (started : list (option Z)) (l : list turn) (w : world) : world * res (option Z) :=
  match main_loop l true (start_loop started (set_app (λ _, no_data) w)) with
  | (w, Ok (Some code)) => (destroy w, Ok (Some code))
  | (w, r) => (w, r)
  end.

(** ** Handles *)

(** The handles [l], and those of [base], are open, each of [l] once. *)
Definition holds (base : gset Z) (l : list Z) (w : world) : Prop :=
  opened w = base ∪ list_to_set l ∧ NoDup l ∧ (∀ h, h ∈ l → h ∉ base ∧ h ≠ 0%Z) ∧ bad_closes w = [].
(** Nothing but handles changed. *)
Definition same_app (w w' : world) : Prop := app w' = app w ∧ history w' = history w ∧ reported w' = reported w.

Lemma holds_perm base l l' w : l ≡ₚ l' → holds base l w → holds base l' w.
Proof.
  intros Hp (Ho & Hnd & Hb & Hc). split_and!; [|by rewrite <-Hp| |done].
  - rewrite Ho. f_equal. apply leibniz_equiv. by rewrite Hp.
  - intros h Hh. apply Hb. by rewrite Hp.
Qed.
#[export] Instance holds_proper base : Proper ((≡ₚ) ==> (=) ==> iff) (holds base).
Proof. intros l l' Hl w w' <-. by split; apply holds_perm. Qed.
Lemma holds_app base l w f : holds base l (set_app f w) ↔ holds base l w.
Proof. done. Qed.

Lemma close_holds base h l w :
  holds base (h :: l) w → holds base l (CloseHandle h w) ∧ same_app w (CloseHandle h w).
Proof.
  intros (Ho & Hnd & Hb & Hc). apply list.NoDup_cons in Hnd as [Hh Hnd]. unfold CloseHandle.
  rewrite bool_decide_true by (rewrite Ho; set_solver). split; [|done]. split_and!; [|done| |done].
  - simpl. rewrite Ho. destruct (Hb h) as [Hb1 _]; [set_solver|]. apply leibniz_equiv. set_solver.
  - intros k Hk. apply Hb. by right.
Qed.
Lemma opt_close_holds base h l w :
  holds base (h :: l) w → holds base l (opt_close_handle h w) ∧ same_app w (opt_close_handle h w).
Proof.
  intros Hh. unfold opt_close_handle. destruct (Z.eqb_spec h 0) as [->|_]; [|by apply close_holds].
  destruct Hh as (_ & _ & Hb & _). by destruct (Hb 0%Z) as [_ []]; [left|].
Qed.
Lemma same_app_trans w1 w2 w3 : same_app w1 w2 → same_app w2 w3 → same_app w1 w3.
Proof. intros (? & ? & ?) (? & ? & ?). split_and!; congruence. Qed.

Lemma close_all_holds base l k w :
  holds base (l ++ k) w →
  holds base k (foldl (flip opt_close_handle) w l) ∧ same_app w (foldl (flip opt_close_handle) w l).
Proof.
  revert w. induction l as [|h l IH]; intros w Hw; simpl; [done|].
  destruct (opt_close_holds _ _ _ _ Hw) as [H1 Ha1]. destruct (IH _ H1) as [H2 Ha2].
  split; [done|]. by eapply same_app_trans.
Qed.

Context (new_fresh : ∀ s, new_handle s ∉ s ∧ new_handle s ≠ 0%Z).

Lemma open_holds base l w :
  holds base l w → holds base (new_handle (opened w) :: l) (open_handle (new_handle (opened w)) w).
Proof.
  intros (Ho & Hnd & Hb & Hc). destruct (new_fresh (opened w)) as [Hn Hz]. set (h := new_handle (opened w)) in *.
  rewrite Ho in Hn. split_and!; simpl; [|constructor; set_solver| |done].
  - rewrite Ho. apply leibniz_equiv. set_solver.
  - intros k [->|Hk]%elem_of_cons; [set_solver|by apply Hb].
Qed.

(** The handles of the object; it waits for its processes and, once, the event. *)
Definition owned (d : data) : list Z :=
  pids d ++ tids d ++ (if (event_hndl d =? 0)%Z then [] else [event_hndl d]).
Definition shape (d : data) : Prop :=
  length (tids d) = length (pids d) ∧
  (wait_for d = pids d ∨ wait_for d = pids d ++ [event_hndl d] ∧ event_hndl d ≠ 0%Z ∧ timer_hndlr d ≠ 0%Z).
Definition timer_apart (w : world) : Prop := timer_hndlr (app w) ∉ opened w ∨ timer_hndlr (app w) = 0%Z.
(** The event is not waited for any more when the wait has reported it. *)
Definition seen (w : world) : Prop :=
  let d := app w in
  reported w = if bool_decide (timer_hndlr d = 0%Z ∨ length (pids d) < length (wait_for d)) then [] else [event_hndl d].
Definition win_inv (base : gset Z) (w : world) : Prop :=
  holds base (owned (app w)) w ∧ shape (app w) ∧ timer_apart w ∧ seen w.
(** The event and the timer were both created, or neither was. *)
Definition whole (d : data) : Prop := event_hndl d = 0%Z ↔ timer_hndlr d = 0%Z.

Lemma start_inv base l w :
  win_inv base w → event_hndl (app w) = 0%Z → timer_hndlr (app w) = 0%Z → wait_for (app w) = pids (app w) →
  win_inv base (start_loop l w) ∧ event_hndl (app (start_loop l w)) = 0%Z ∧
  length (pids (app (start_loop l w))) = length (pids (app w)) + length (omap id l) ∧
  exit_code (app (start_loop l w)) = exit_code (app w) ∧ history (start_loop l w) = history w ∧
  wait_for (app (start_loop l w)) = pids (app (start_loop l w)) ∧ timer_hndlr (app (start_loop l w)) = 0%Z.
Proof.
  revert w. induction l as [|[pid|] l IH]; intros w Hw He Ht Hf; csimpl; [by rewrite Nat.add_0_r|..|by apply IH].
  destruct Hw as (Hh & [Hl Hs] & Hta & Hse). apply open_holds in Hh. apply open_holds in Hh.
  set (hp := new_handle (opened w)) in *. change (opened (open_handle hp w)) with ({[hp]} ∪ opened w) in Hh.
  set (ht := new_handle ({[hp]} ∪ opened w)) in *. edestruct IH as (H1 & H2 & H3 & H4 & H5 & H6 & H7);
    [| | | |split_and!; [exact H1|exact H2| |exact H4|exact H5|exact H6|exact H7]]; [|done|done|simpl; by rewrite Hf|].
  - split_and!; [|split; [simpl; rewrite !length_app; simpl; lia|left; simpl; by rewrite Hf]|by right|].
    2: { unfold seen in *. rewrite bool_decide_true in * by (simpl; auto). done. }
    apply holds_app. eapply holds_perm; [|exact Hh]. unfold owned; simpl. rewrite He; simpl. rewrite !app_nil_r.
    solve_Permutation.
  - rewrite H3. simpl. rewrite length_app. simpl. lia.
Qed.

Lemma delete_app_lt {A} i (l k : list A) : i < length l → delete i (l ++ k) = delete i l ++ k.
Proof. revert i. induction l as [|x l IH]; intros [|i] Hi; simpl in *; [lia..|done|]. f_equal. apply IH. lia. Qed.

Lemma remove_idx_inv base idx code w :
  win_inv base w → idx < length (wait_for (app w)) →
  ∃ w' r, remove_idx idx code w = (w', Ok r) ∧ win_inv base w' ∧ history w' = history w ∧
    exit_code (app w') = exit_code (app w) ∧ (whole (app w) → whole (app w')) ∧
    match r with
    | None => pids (app w') = pids (app w)
    | Some c => c = default EXIT_FAILURE code ∧ length (pids (app w)) = S (length (pids (app w')))
    end.
Proof.
  intros (Hh & [Hl Hs] & Hta & Hse) Hidx.
  assert (Hlen : length (wait_for (app w)) ≤ S (length (pids (app w)))).
  { destruct Hs as [->|[-> _]]; [lia|]. rewrite length_app; simpl; lia. }
  unfold remove_idx. munfold_goal. rewrite (proj2 (Nat.leb_gt _ _)), (proj2 (Nat.ltb_ge _ _)) by lia.
  destruct (pids (app w) !! idx) as [hp|] eqn:Ep.
  - assert (is_Some (tids (app w) !! idx)) as [ht Et].
    { apply lookup_lt_is_Some. rewrite Hl. by eapply lookup_lt_Some. }
    rewrite Et. set (d' := Data (delete hp (handle_to_pid (app w))) (timer_hndlr (app w)) (event_hndl (app w))
      (delete idx (pids (app w))) (delete idx (tids (app w))) (delete idx (wait_for (app w))) (exit_code (app w))).
    assert (Hp : owned (app w) ≡ₚ hp :: ht :: owned d').
    { unfold owned, d'; simpl. rewrite (delete_Permutation _ _ _ Ep) at 1. rewrite (delete_Permutation _ _ _ Et) at 1.
      solve_Permutation. }
    apply (holds_perm _ _ _ _ Hp) in Hh. destruct (close_holds _ _ _ _ Hh) as (H1 & Ha1 & Hy1 & Hr1).
    destruct (close_holds _ _ _ _ H1) as (H2 & Ha2 & Hy2 & Hr2).
    set (w2 := CloseHandle ht (CloseHandle hp w)) in *. eexists _, _. split; [done|].
    assert (Ha : app w2 = app w) by congruence. unfold set_app. rewrite Ha. fold d'.
    pose proof (lookup_lt_Some _ _ _ Ep) as Hlt.
    split_and!; simpl; [|congruence|done|done|done|].
    + split_and!.
      * exact H2.
      * split; [simpl; rewrite !length_delete by eauto; by rewrite Hl|]. simpl.
        destruct Hs as [->|[-> He]]; [by left|right]. by rewrite delete_app_lt.
      * destruct Hta as [Hta|Hta]; [left|by right]. simpl. intros Hin. apply Hta. simpl.
        destruct Hh as (Ho & _), H2 as (Ho2 & _). rewrite Ho. rewrite Ho2 in Hin. set_solver.
      * unfold seen in *. simpl. rewrite Hr2, Hr1, Hse, !length_delete by (eauto; by apply lookup_lt_is_Some).
        assert (length (pids (app w)) ≤ length (wait_for (app w))) by (destruct Hs as [->|[-> _]]; rewrite ?length_app; lia).
        erewrite (bool_decide_ext (_ ∨ _ - 1 < _ - 1)); [done|]. lia.
    + rewrite length_delete by eauto. lia.
  - apply lookup_ge_None in Ep. destruct Hs as [Hs|[Hs He]]; [rewrite Hs in Hidx; lia|].
    assert (idx = length (pids (app w))) as -> by (rewrite Hs, length_app in Hidx; simpl in Hidx; lia).
    eexists _, _. split; [done|]. split_and!; try done. unfold set_app, report, seen in *. simpl. rewrite Hs in *.
    rewrite length_app in Hse. rewrite delete_middle, app_nil_r. split_and!; [done|split; [done|by left]|done|]. simpl in *.
    rewrite bool_decide_true in Hse by lia. unfold seen. simpl. by rewrite Hse, nth_middle, bool_decide_false by lia.
Qed.

Lemma create_event_inv base eok tok w :
  win_inv base w →
  ∃ w' r, createEvent eok tok w = (w', r) ∧ win_inv base w' ∧ (∀ s, r ≠ Throw (UndefinedBehaviour s)) ∧
    history w' = history w ∧ exit_code (app w') = exit_code (app w) ∧ pids (app w') = pids (app w) ∧
    (r = Ok () → whole (app w')).
Proof.
  intros (Hh & [Hl Hs] & Hta & Hse). unfold createEvent. munfold_goal.
  destruct (Z.eqb_spec (event_hndl (app w)) 0) as [He|He]; simpl; [|by eexists _, _].
  destruct (Z.eqb_spec (timer_hndlr (app w)) 0) as [Ht|Ht]; simpl; [|by eexists _, _].
  destruct eok; simpl; [|by eexists _, _].
  assert (Hw : wait_for (app w) = pids (app w)) by (destruct Hs as [?|(_ & ? & _)]; done).
  destruct (new_fresh (opened w)) as [_ Hz]. apply open_holds in Hh. set (ev := new_handle (opened w)) in *.
  destruct (new_fresh ({[ev]} ∪ opened w)) as [Htn Htz].
  assert (Hown : ∀ t l x, holds base (owned (Data (handle_to_pid (app w)) t ev (pids (app w)) (tids (app w)) l x))
    (open_handle ev w)).
  { intros t l x. eapply holds_perm; [|exact Hh]. unfold owned; simpl. rewrite He, (proj2 (Z.eqb_neq _ _) Hz); simpl.
    rewrite app_nil_r. solve_Permutation. }
  destruct tok; simpl; eexists _, _; (split; [done|]); split_and!; try done.
  - split_and!; [apply Hown| |by left|]; [split; [done|]; right; simpl; by rewrite Hw|].
    unfold seen in *. simpl. rewrite Hse. by rewrite Hw, length_app, !bool_decide_true by (simpl; lia).
  - split_and!; [apply Hown| |by right|]; [split; [done|]; left; simpl; by rewrite Hw|].
    unfold seen in *. simpl. rewrite Hse. by rewrite !bool_decide_true by (by left).
Qed.

(** ** The exit code *)

Definition exit_inv (send_close_event : bool) (w : world) : Prop :=
  send_close_event = negb (decisive (history w)) ∧ exit_code (app w) = exit_of (history w).
Definition exits (h : list Multi.event) : nat := length (MacMulti.reaped h).
Definition dword (code : option Z) : Prop := match code with Some c => (0 ≤ c < 2 ^ 32)%Z | None => True end.

Lemma to_int_zero code : dword code → (to_int (default EXIT_FAILURE code) =? 0)%Z = (default EXIT_FAILURE code =? 0)%Z.
Proof.
  intros H. unfold to_int. destruct code as [c|]; simpl in *; [|done].
  destruct (Z.ltb_spec c (2 ^ 31)); [done|]. rewrite !(proj2 (Z.eqb_neq _ _)) by lia. done.
Qed.

Definition counted (n : nat) (w : world) : Prop := exits (history w) + length (pids (app w)) = n.
Definition bookkeeping (n : nat) (send_close_event : bool) (w : world) : Prop :=
  exit_inv send_close_event w ∧ counted n w.
Definition not_undefined {A} (r : res A) : Prop := ∀ s, r ≠ Throw (UndefinedBehaviour s).

Lemma exits_app h h' : exits (h ++ h') = exits h + exits h'.
Proof. unfold exits, MacMulti.reaped. by rewrite omap_app, length_app. Qed.

(** A process that was removed, and what is done about its exit code. *)
Lemma removed_bookkeeping n send w w1 i code (c := default EXIT_FAILURE code) w' send' :
  dword code → bookkeeping n send w → history w1 = history w → exit_code (app w1) = exit_code (app w) →
  length (pids (app w)) = S (length (pids (app w1))) →
  history w' = history w1 ++ [HExit i (to_int c)] → pids (app w') = pids (app w1) →
  (if negb (c =? 0)%Z && send then exit_code (app w') = to_int c ∧ send' = false
   else exit_code (app w') = exit_code (app w1) ∧ send' = send) →
  bookkeeping n send' w'.
Proof.
  intros Hd [[Hs Hx] Hn] Hh He Hp Hh' Hp' Hc. split.
  - unfold exit_inv. rewrite Hh', Hh, exit_of_app, decisive_app. simpl. unfold c in *. rewrite to_int_zero by done.
    destruct (default EXIT_FAILURE code =? 0)%Z; simpl in *; destruct (decisive (history w)) eqn:Ed; simpl in *; subst send;
      destruct Hc as [Hc ->]; split; try done; rewrite Hc, ?He, ?Hx; try done. by apply exit_of_idle.
  - unfold counted in *. rewrite Hh', Hh, exits_app, Hp'. change (exits [HExit ?j ?x]) with 1. lia.
Qed.

Lemma on_answer_inv base n retval code rs eok tok send w :
  win_inv base w →
  ∃ w' r, on_answer retval code rs eok tok send w = (w', r) ∧ win_inv base w' ∧ not_undefined r ∧
    (∀ send', r = Ok send' → (whole (app w) → whole (app w')) ∧ (dword code → bookkeeping n send w → bookkeeping n send' w')).
Proof.
  intros Hw. unfold on_answer. munfold_goal.
  destruct ((WAIT_OBJECT_0 <=? retval)%Z && (retval <? WAIT_OBJECT_0 + Z.of_nat (length (wait_for (app w))))%Z) eqn:Er.
  - apply andb_true_iff in Er as [H0%Z.leb_le H1%Z.ltb_lt]. unfold WAIT_OBJECT_0 in *.
    destruct (remove_idx_inv base (Z.to_nat (retval - 0)) code w Hw) as (w1 & r1 & -> & Hw1 & Hh & He & Hwh & Hr); [lia|].
    destruct r1 as [c|].
    + destruct Hr as [-> Hp]. simpl. destruct (negb _ && send) eqn:Ec; simpl; eexists _, _;
        (split; [done|]); (split; [exact Hw1|]); (split; [by intros ?|]); intros send' [= <-]; (split; [done|]); intros Hd Hb;
        (eapply removed_bookkeeping; [exact Hd|exact Hb|exact Hh|exact He|exact Hp|done|done|]); by rewrite Ec.
    + eexists _, _. split; [done|]. split; [done|]. split; [by intros ?|]. intros send' [= <-]. split; [done|]. intros _ [[Hs Hx] Hn].
      unfold bookkeeping, exit_inv, counted in *. by rewrite Hh, He, Hr.
  - destruct (retval =? WAIT_TIMEOUT)%Z; [|].
    + destruct (negb _ && send) eqn:Ec; simpl; [|by eexists _, _; split_and!; [done|done|by intros ?|by intros ? [= <-]]].
      destruct (create_event_inv base eok tok (sendCloseEvent rs (log (HSignal rs) w))) as
        (w' & r & -> & Hw' & Hu & Hh & He & Hp & Hwh); [exact Hw|].
      destruct r as [[]|e]; eexists _, _; (split; [done|]); (split; [done|]);
        (split; [intros s [= ->]; by eapply Hu|]); [|done].
      intros send' [= <-]. split; [auto|]. intros _ [[Hs Hx] Hn]. simpl in *. apply andb_true_iff in Ec as [_ ->].
      symmetry in Hs. apply negb_true_iff in Hs. unfold bookkeeping, exit_inv, counted. rewrite Hh, He, Hp. simpl.
      rewrite decisive_app, exit_of_app, exits_app, Hs. simpl. rewrite Hx, (exit_of_idle _ Hs).
      unfold counted in Hn. split_and!; [done|done|]. rewrite <-Hn. unfold exits at 2. simpl. lia.
    + clear Er. destruct (_ && _); simpl; [by eexists _, _; split_and!|].
      destruct (retval =? WAIT_FAILED)%Z; simpl; by eexists _, _; split_and!.
Qed.

Definition turn_ok (t : turn) : Prop := match t with Wait _ code _ _ _ => dword code | TimerFires => True end.

Lemma main_loop_inv base n l send w :
  win_inv base w →
  ∃ w' r, main_loop l send w = (w', r) ∧ win_inv base w' ∧ not_undefined r ∧
    (∀ code, r = Ok (Some code) → whole (app w) → whole (app w') ∧ pids (app w') = []) ∧
    (Forall turn_ok l → bookkeeping n send w → ∀ code, r = Ok (Some code) →
     code = exit_of (history w') ∧ exits (history w') = n).
Proof.
  revert send w. induction l as [|t l IH]; intros send w Hw; cbn [main_loop]; munfold_goal;
    (case_bool_decide as Hp;
     [eexists _, _; split_and!; [done|done|done|done|]; intros _ [[_ Hx] Hn] code [= <-];
      unfold counted in Hn; rewrite Hp, Nat.add_0_r in Hn; done|]); [by eexists _, _; split_and!|].
  destruct t as [answer code rs eok tok|].
  - destruct (on_answer_inv base n (WaitForMultipleObjects (length (wait_for (app w))) answer) code rs eok tok send w Hw)
      as (w1 & r1 & -> & Hw1 & Hu & Hb).
    destruct r1 as [send'|e].
    + destruct (Hb send' eq_refl) as [Hwh Hbk1].
      destruct (IH send' w1 Hw1) as (w2 & r2 & -> & Hw2 & Hu2 & Hwh2 & Hr). eexists _, _. split_and!; [done..|by eauto|].
      intros [Ht Hl]%list.Forall_cons Hbk. apply Hr; [done|]. by apply Hbk1.
    + eexists _, _. split_and!; [done|done|intros s [= ->]; by eapply Hu|done|done].
  - destruct (IH send (TimerRoutine w)) as (w2 & r2 & -> & Hw2 & Hu2 & Hwh2 & Hr).
    { unfold TimerRoutine. by destruct (timer_hndlr (app w) =? 0)%Z. }
    assert (app (TimerRoutine w) = app w) as Ha by (unfold TimerRoutine; by destruct (_ =? _)%Z). rewrite Ha in Hwh2.
    eexists _, _. split_and!; [done..|]. intros [_ Hl]%list.Forall_cons Hbk. apply Hr; [done|].
    unfold TimerRoutine. by destruct (timer_hndlr (app w) =? 0)%Z.
Qed.

(** The destructor closes all but an event that the wait has reported. *)
Lemma destroy_handles base w :
  win_inv base w → whole (app w) →
  same_app w (destroy w) ∧ opened (destroy w) = base ∪ list_to_set (reported w) ∧
  bad_closes (destroy w) = (if (timer_hndlr (app w) =? 0)%Z then [] else [timer_hndlr (app w)]).
Proof.
  intros (Hh & [Hl Hs] & Hta & Hse) Hwh. unfold destroy.
  set (w1 := foldr opt_close_handle w (drop (length (pids (app w))) (wait_for (app w)))).
  assert (∃ k, holds base (pids (app w) ++ tids (app w) ++ k) w1 ∧ same_app w w1 ∧ k = reported w ∧
    opened w1 ⊆ opened w) as (k & H1 & Ha1 & Hk & Hsub).
  { unfold w1, seen, owned, whole in *. destruct Hs as [Hs|(Hs & He & _)]; rewrite Hs in *.
    - rewrite drop_all. simpl. eexists. split_and!; [exact Hh|done| |done]. rewrite Hse.
      destruct (Z.eqb_spec (event_hndl (app w)) 0); case_bool_decide; [done|tauto|lia|done].
    - rewrite drop_app_length. simpl. rewrite length_app, bool_decide_true in Hse by (simpl; lia).
      rewrite (proj2 (Z.eqb_neq _ _) He) in Hh. exists []. rewrite (assoc_L (++)), (comm (++)) in Hh. simpl in Hh.
      destruct (opt_close_holds _ _ _ _ Hh) as [H1 Ha]. rewrite app_nil_r. split_and!; [done|done|done|].
      destruct Hh as (Ho & _), H1 as (Ho1 & _). rewrite Ho, Ho1. set_solver. }
  destruct (close_all_holds _ _ _ _ H1) as [H2 Ha2]. set (w2 := foldl _ w1 _) in *.
  destruct (close_all_holds _ _ _ _ H2) as [H3 Ha3]. set (w3 := foldl _ w2 _) in *.
  pose proof (same_app_trans _ _ _ (same_app_trans _ _ _ Ha1 Ha2) Ha3) as Ha. rewrite <-Hk.
  destruct H3 as (Ho3 & _ & _ & Hb3). unfold opt_close_handle.
  destruct (Z.eqb_spec (timer_hndlr (app w)) 0) as [Ht|Ht]; [done|].
  assert (timer_hndlr (app w) ∉ opened w3) as Hn.
  { destruct Hta as [Hta|]; [|done]. intros Hin. apply Hta. destruct H1 as (Ho1 & _). rewrite Ho1 in Hsub.
    rewrite Ho3 in Hin. set_solver. }
  unfold CloseHandle. rewrite bool_decide_false by done. simpl. by rewrite Hb3.
Qed.

Lemma main_start base w started :
  opened w = base → bad_closes w = [] → history w = [] → reported w = [] →
  win_inv base (start_loop started (set_app (λ _, no_data) w)) ∧
  whole (app (start_loop started (set_app (λ _, no_data) w))) ∧
  bookkeeping (length (omap id started)) true (start_loop started (set_app (λ _, no_data) w)).
Proof.
  intros Ho Hb Hh Hr.
  destruct (start_inv base started (set_app (λ _, no_data) w)) as (H1 & He & H2 & H3 & H4 & Hwf & Ht); try done.
  - split_and!; [|split; [done|by left]|by right|by unfold seen; simpl; rewrite Hr].
    split_and!; simpl; [set_solver|constructor|set_solver|done].
  - split; [done|]. split; [by unfold whole; rewrite He, Ht|]. unfold bookkeeping, exit_inv, counted. rewrite H3, H4. simpl. rewrite Hh, H2. done.
Qed.


Lemma main_not_undefined started l w :
  bad_closes w = [] → history w = [] → reported w = [] → not_undefined (main started l w).2.
Proof.
  intros Hb Hh Hr. destruct (main_start _ w started eq_refl Hb Hh Hr) as [H1 _].
  destruct (main_loop_inv _ 0 l true _ H1) as (w1 & r1 & E & Hw1 & Hu & _).
  unfold main. rewrite E. by destruct r1 as [[code|]|e].
Qed.

(** The Windows runner returns only when every process it started was waited
    for, each once, with the exit code (as an [int]) of the first that failed, zero
    when none did or a console event came first: the rule of the other runners. *)
Theorem win_runner_exit_code (started : list (option Z)) (l : list turn) (w w' : world) (code : Z) :
  bad_closes w = [] → history w = [] → reported w = [] → Forall turn_ok l → main started l w = (w', Ok (Some code)) →
  code = exit_of (history w') ∧ length (MacMulti.reaped (history w')) = length (omap id started).
Proof.
  intros Hb Hh Hr Hl Hm. destruct (main_start _ w started eq_refl Hb Hh Hr) as (H1 & Hwh & H2).
  destruct (main_loop_inv _ (length (omap id started)) l true _ H1) as (w1 & r1 & E & Hw1 & Hu & Hret & Hcode).
  unfold main in Hm. rewrite E in Hm. destruct r1 as [[c|]|e]; simplify_eq.
  destruct (Hret code eq_refl Hwh) as [Hwh' _]. destruct (destroy_handles _ _ Hw1 Hwh') as ((_ & Hy & _) & _).
  rewrite Hy. by apply Hcode.
Qed.

(** With more than 64 processes the first wait fails, and the runner leaves them. *)
Lemma too_many_processes started l w answer code rs eok tok :
  bad_closes w = [] → history w = [] → reported w = [] → 64 < length (omap id started) → (Z.of_nat (length (omap id started)) < 2 ^ 31)%Z →
  (main started (Wait answer code rs eok tok :: l) w).2 = Throw (RuntimeError "WaitForMultipleObjects FAILED").
Proof.
  intros Hb Hh Hr Hn Hn2. destruct (start_inv (opened w) started (set_app (λ _, no_data) w)) as (_ & _ & H2 & _ & _ & H3 & _);
    try done.
  { split_and!; [|split; [done|by left]|by right|by unfold seen; simpl; rewrite Hr].
    split_and!; simpl; [set_solver|constructor|set_solver|done]. }
  cbn in H2. unfold main. cbn [main_loop]. munfold_goal.
  rewrite bool_decide_false by (intros E; rewrite E in H2; simpl in *; lia). rewrite H3.
  unfold WaitForMultipleObjects, MAXIMUM_WAIT_OBJECTS. rewrite (proj2 (Nat.ltb_lt _ _)) by (rewrite H2; lia).
  unfold on_answer, WAIT_OBJECT_0, WAIT_FAILED, WAIT_TIMEOUT, WAIT_ABANDONED_0. munfold_goal. rewrite H3, H2.
  rewrite !(proj2 (Z.ltb_ge _ _)) by lia. done.
Qed.
End runner.

(** ** Witnesses *)

Definition sample_handle (s : gset Z) : Z := fresh ({[0%Z]} ∪ s).
Lemma sample_handle_fresh s : sample_handle s ∉ s ∧ sample_handle s ≠ 0%Z.
Proof. pose proof (is_fresh ({[0%Z]} ∪ s)) as H. unfold sample_handle. set_solver. Qed.
Definition sample_world : world := World no_data ∅ [] [] [] [] [].
(** Three processes, one of which cannot be started; a console event, the timer,
    and the ends of the processes and the event. *)
Definition sample_started : list (option Z) := [Some 70%Z; None; Some 80%Z].
Definition sample_turns : list turn :=
  [Wait 258 None running_true true true; Wait 258 None 2 true true; TimerFires; Wait 2 None 2 true true;
   Wait 1 (Some 3%Z) 2 true true; Wait 0 (Some 3%Z) 2 true true].

Lemma win_runner_exit_code_witness :
  length (MacMulti.reaped (history (main sample_handle sample_started sample_turns sample_world).1)) = 2.
Proof.
  pose proof (win_runner_exit_code sample_handle sample_handle_fresh sample_started sample_turns sample_world
    (main sample_handle sample_started sample_turns sample_world).1 0) as (_ & H);
    [done|done|done|repeat constructor; simpl; lia|by vm_compute|]. exact H.
Defined.
End Runner.
