(* ===== verification/RunnerMain.v ===== *)
(** * The runner programs as a whole: bin/main_linux.cpp, bin/main_macos.cpp,
    bin/main_win32.cpp

    [Contract] states what a runner does for given arguments; [LinuxProgram],
    [MacProgram] and [WinProgram] model [main] of the three runners from the arguments to the exit code,
    composed of the modules of [MultiProc] and [WinRunner], and meet it. *)

From S2P Require Import Prelude Strings Parse Raii TempDir MultiProc WinRunner.
Import SecureString Spawn.

(** ** The contract *)

Module Contract.

(** What a runner printed, what the children see that it started, what happened to them, and
    how [main] ended; [None] is a runner that still waits. *)
Record outcome := Outcome {
  printed : str; seen : list image; happened : list Multi.event; result : res (option Z) }.

(** A text of decimal digits that stands for a number of 32 bits. *)
Definition counts (t : str) (n : Z) : Prop :=
  t ≠ [] ∧ Forall (λ c, Parse.is_digit c = true) t ∧ n = Parse.digits_val t ∧ (n < 2 ^ 32)%Z.

(** What the arguments ask for: [run --version ...] or [run <number> <command> ...]. *)
Inductive request := ShowVersion | TooFew | NotANumber | NoProcess | Start (threads : Z) (args : list str).
Inductive asks : list str → request → Prop :=
| asks_version a rest : asks (a :: lit "--version" :: rest) ShowVersion
| asks_too_few argv : length argv < 3 → argv !! 1 ≠ Some (lit "--version") → asks argv TooFew
| asks_text a t args : t ≠ lit "--version" → args ≠ [] → (∀ n, ¬ counts t n) → asks (a :: t :: args) NotANumber
| asks_none a t args : t ≠ lit "--version" → args ≠ [] → counts t 0 → asks (a :: t :: args) NoProcess
| asks_start a t args n : t ≠ lit "--version" → args ≠ [] → counts t n → (0 < n)%Z → asks (a :: t :: args) (Start n args).

(** A runner that refuses its arguments says why, prints nothing and starts nothing. *)
Definition refuses (o : outcome) (e : exn) : Prop := result o = Throw e ∧ printed o = [] ∧ seen o = [].
(** The children see the arguments as [line] of the command, and each its own index; there
    is one for every index for which the system [accepts] to start a process. *)
Definition meets (version : str) (line : list str → list str) (accepts : nat → bool) (argv envv : list str) (o : outcome) : Prop :=
  ∃ q, asks argv q ∧
  match q with
  | ShowVersion => result o = Ok (Some 0%Z) ∧ printed o = lit "Version: " ++ version ++ ["010"%char] ∧ seen o = []
  | TooFew => refuses o (InvalidArgument "At least 3 args expected")
  | NotANumber => ∃ s, refuses o (InvalidArgument s)
  | NoProcess => refuses o (RuntimeError "at least one thread must be set")
  | Start threads args =>
    printed o = [] ∧ Runner.not_undefined (result o) ∧
    ∀ code, result o = Ok (Some code) →
      seen o = (λ i, Image (line args) (environ (child_image args envv threads i))) <$>
        filter (λ i, accepts i = true) (seq 0 (Z.to_nat threads)) ∧
      code = Multi.exit_of (happened o) ∧ length (MacMulti.reaped (happened o)) = length (seen o)
  end.

Lemma strcmp_version t : (strcmp (Some (lit "--version")) (Some t) =? 0)%Z = bool_decide (t = lit "--version").
Proof.
  unfold strcmp. pose proof (c_strcmp_eq (lit "--version") t) as H.
  destruct (Z.eqb_spec (c_strcmp (lit "--version") t) 0); case_bool_decide; naive_solver.
Qed.
Lemma parse_count t n : Parse.parse_view_int uint32 t = Ok n ↔ counts t n.
Proof.
  rewrite Parse.parse_view_int_accepts. unfold Parse.is_number, counts. split.
  - intros (neg & ds & -> & Hne & Hd & Hs & -> & [_ Hr%Z.leb_le]%andb_true_iff). destruct neg; [by specialize (Hs eq_refl)|].
    split_and!; try done. unfold Parse.ty_max in Hr. simpl in Hr. lia.
  - intros (Hne & Hd & -> & Hr). exists false, t. split_and!; try done. apply andb_true_iff. split; apply Z.leb_le.
    + unfold Parse.ty_min. simpl. apply Parse.digits_val_nonneg; done.
    + unfold Parse.ty_max. simpl. lia.
Qed.

Lemma filter_all_true {A} (l : list A) : filter (λ _, true = true) l = l.
Proof. induction l as [|x l IH]; [done|]. by rewrite filter_cons_True, IH. Qed.

(** What [parse_command] makes of the arguments is what they ask for. *)
Lemma parse_command_asks argv : ∃ q, asks argv q ∧
  match q with
  | ShowVersion => parse_command argv = Ok Version
  | TooFew => parse_command argv = Throw (InvalidArgument "At least 3 args expected")
  | NotANumber => ∃ s, parse_command argv = Throw (InvalidArgument s)
  | NoProcess => parse_command argv = Throw (RuntimeError "at least one thread must be set")
  | Start threads args => parse_command argv = Ok (Run threads args) ∧ (0 ≤ threads)%Z ∧ args ≠ []
  end.
Proof.
  destruct argv as [|a [|t args]]; [exists TooFew; split; [constructor; simpl; [lia|done]|done]..|].
  unfold parse_command. rewrite strcmp_version. case_bool_decide as Ht; [subst; eexists; split; [constructor|done]|].
  destruct args as [|b args].
  { exists TooFew. split; [|done]. constructor; simpl; [lia|naive_solver]. }
  munfold_goal. destruct (Parse.parse_view_int_refuses uint32 t) as [[n En]|[s Es]].
  - rewrite En. apply parse_count in En. simpl. destruct (Z.eqb_spec n 0) as [->|Hn]; simpl.
    + exists NoProcess. split; [by constructor|done].
    + pose proof En as (_ & Hd & En' & _). pose proof (Parse.digits_val_nonneg t Hd).
      exists (Start n (b :: args)). split; [constructor; [done..|lia]|]. split_and!; [done|lia|done].
  - exists NotANumber. split; [constructor; [done..|]|by eexists; rewrite Es]. intros n Hn%parse_count. congruence.
Qed.
End Contract.

(** ** Every child of the Linux runner is reported once *)

Module Reports.
Import Multi.

Definition gone (c : child) : bool := match alive c with Gone => true | _ => false end.
Definition gones (s : state) : list bool := gone <$> children s.
Definition count (l : list bool) : nat := length (filter (λ b, b = true) l).
Definition reports (s : state) : nat := length (MacMulti.reaped (history s)).

Lemma count_insert l i : l !! i = Some false → count (<[i := true]> l) = S (count l).
Proof.
  unfold count. revert i. induction l as [|b l IH]; intros [|i] Hi; simplify_eq/=; [by rewrite filter_cons|].
  rewrite !filter_cons. destruct (decide _); simpl; by rewrite IH.
Qed.
Lemma count_all l : Forall (λ b, b = true) l → count l = length l.
Proof. unfold count. induction 1 as [|b l -> _ IH]; [done|]. rewrite filter_cons_True by done. simpl. by rewrite IH. Qed.
Lemma gones_insert s i c c' :
  children s !! i = Some c → gone c' = gone c → gones (set_children <[i := c']> s) = gones s.
Proof.
  intros Hi Hg. unfold gones. simpl. rewrite list_fmap_insert, Hg. apply list_insert_id.
  by rewrite list_lookup_fmap, Hi.
Qed.

Lemma step_reports n s s' : step n s s' → children_ok s →
  (gones s' = gones s ∧ reports s' = reports s) ∨
  (∃ i, gones s !! i = Some false ∧ gones s' = <[i := true]> (gones s) ∧ reports s' = S (reports s)).
Proof.
  intros [Hst|Hst] Hok.
  - destruct Hst as [s evs|s|s evs|s evs sig l1 l2|s evs|s evs i c st Ht Hi Ha|s evs|s i evs c r Ht Hi Hr|
      s i c r Ht Hi Hro Hr|s i c|s i]; try (by left).
    + left. split; [|done]. unfold gones. simpl. apply list_eq. intros i. rewrite !list_lookup_fmap, report_lookup.
      destruct (children s !! i) as [d|]; simpl; [|done]. by case_bool_decide.
    + left. destruct evs as [|[|i] evs]; [done..|]. simpl. by destruct (children s !! i).
    + left. unfold on_signal. destruct (_ || _); [|by destruct (sig =? SIGCHLD)%Z]. split; [done|].
      unfold reports, MacMulti.reaped. simpl. by rewrite omap_app, app_nil_r.
    + right. destruct (on_child_found s i c st Hok Hi Ha) as (Hc & _ & _ & Hh & _). exists i. split_and!.
      * unfold gones. rewrite list_lookup_fmap, Hi. simpl. unfold gone. by rewrite Ha.
      * unfold gones. by rewrite Hc, list_fmap_insert.
      * unfold reports, MacMulti.reaped. rewrite Hh, omap_app, length_app. simpl. lia.
    + left. pose proof (gones_insert s i c (read_pipe_turn r c).1 Hi ltac:(by destruct r)).
      unfold piping_turn. by destruct r.
    + left. pose proof (gones_insert s i c (read_pipe_turn r c).1 Hi ltac:(by destruct r)).
      unfold piping_turn. by destruct r.
  - left. destruct Hst as [s i c d Hi Ha|s i c st Hi Ha|s sig]; [..|done].
    + split; [|done]. by apply (gones_insert s i c).
    + split; [|done]. apply (gones_insert s i c); [done|]. unfold gone. simpl. by rewrite Ha.
Qed.

(** When the runner returns, the history reports as many ends as there are children. *)
Lemma returned_reports n pids s :
  Forall (λ p, 0 < p)%Z pids → NoDup pids → rtc (step n) (initial pids) s → thread s = Returned →
  reports s = length pids.
Proof.
  intros Hp Hn Hr Ht.
  assert (reports s = count (gones s) ∧ length (gones s) = length pids) as [Hc Hl].
  { assert (reports (initial pids) = count (gones (initial pids)) ∧ length (gones (initial pids)) = length pids) as H0.
    { split; [|unfold gones; simpl; by rewrite !length_fmap].
      unfold reports, gones, count. simpl. clear. induction pids as [|p pids IH]; csimpl; [done|]. by rewrite filter_cons_False. }
    pose proof (multi_reachable n pids (initial pids) Hp Hn ltac:(done)) as Hok.
    clear Ht. revert Hr Hok H0. induction 1 as [|s s1 s2 Hst Hr IH]; [done|]. intros Hok [H1 H2].
    apply IH.
    - destruct Hok as (K1 & K2 & K3 & K4 & K5). split_and!; eauto using step_children, step_exit, step_wake, step_ended, step_final.
    - destruct (step_reports n s s1 Hst) as [[E1 E2]|(i & Ei & E1 & E2)]; [apply Hok|by rewrite E1, E2|].
      rewrite E1, E2, count_insert, length_insert, H1 by done. done. }
  rewrite Hc, <-Hl. destruct (multi_reachable n pids s Hp Hn Hr) as (_ & _ & _ & _ & Hf).
  unfold final_ok in Hf. rewrite Ht in Hf. apply count_all, Forall_lookup. intros i b. unfold gones. rewrite list_lookup_fmap.
  destruct (children s !! i) as [c|] eqn:Hi; simpl; [|done]. intros [= <-]. destruct (Hf i c Hi) as [Hg _].
  unfold gone. by rewrite Hg.
Qed.
End Reports.

(** ** The Linux runner *)

Module LinuxProgram.
Import Contract.

(** The open descriptors and the pipes of [processes], the output, whether the signals
    are blocked, the children with what they see, and the variables of the loop. *)
Record world := World {
  fds : gset Z; pipes : list (Z * Z); out : str; blocked : bool; children : list (Z * image); loop : Multi.state }.
Definition initial (s : gset Z) : world := World s [] [] false [] (Multi.initial []).
Definition set_fds (f : gset Z → gset Z) (w : world) : world :=
  World (f (fds w)) (pipes w) (out w) (blocked w) (children w) (loop w).
Definition set_pipes (f : list (Z * Z) → list (Z * Z)) (w : world) : world :=
  World (fds w) (f (pipes w)) (out w) (blocked w) (children w) (loop w).

(** What the system answers to the calls of [main], and the state in which the loop is
    found for given process ids: at its end, or still running. *)
Record answers := Answers {
  sigprocmask_ok : bool; signalfd_ok : bool; pipe2_ok : nat → bool; fork : nat → Z; epoll_create1_ok : bool;
  epoll_add_ok : nat → bool; buffer_ok : bool; reached : list Z → Multi.state }.

Section program.
Context (version : str) (pick : gset Z → Z).

Definition print (s : str) : M world () :=
  mmodify (λ w, World (fds w) (pipes w) (out w ++ s) (blocked w) (children w) (loop w)).
Definition open_fd : M world Z :=
  w ← mget;
  let fd := pick (fds w) in
  mmodify (set_fds (λ s, s ∪ {[fd]}));;
  mret fd.
Definition close (fd : Z) : world → world := set_fds (λ s, s ∖ {[fd]}).
(** A guard of [main]: a program that still waits has not left its scope, and an exception
    that leaves [main] ends the process without a promise that the guards run. *)
Definition closing (clean : world → world) (body : M world (option Z)) : M world (option Z) := λ w,
  match body w with
  | (w', Ok (Some code)) => (clean w', Ok (Some code))
  | (w', r) => (w', r)
  end.

(** [processes.resize], and the destruction of what was made. *)
Fixpoint make_processes (ok : nat → bool) (idxs : list nat) : M world () :=
  match idxs with
  | [] => mret ()
  | i :: idxs =>
    mthrow_if (negb (ok i)) (RuntimeError "Pipe cannot be opened");;
    read_fd ← open_fd;
    write_fd ← open_fd;
    mmodify (set_pipes (λ l, l ++ [(read_fd, write_fd)]));;
    make_processes ok idxs
  end.
Definition reset_process (p : Z * Z) (w : world) : world :=
  let w := if (0 <=? fst p)%Z then close (fst p) w else w in
  if (0 <=? snd p)%Z then close (snd p) w else w.
Definition destroy_processes (w : world) : world := set_pipes (λ _, []) (foldl (flip reset_process) w (pipes w)).

(** [close_read] of the children whose pipe the loop closed. *)
Definition close_reads (s : Multi.state) (w : world) : world :=
  let closed i (p : Z * Z) :=
    match Multi.children s !! i with Some c => negb (Multi.read_open c) && (0 <=? fst p)%Z | None => false end in
  let ps := pipes w in
  let w := foldl (flip close) w (mjoin (imap (λ i p, if closed i p then [fst p] else []) ps)) in
  set_pipes (λ _, imap (λ i p, if closed i p then ((-1)%Z, snd p) else p) ps) w.

(** From the epoll descriptor on. *)
Definition supervise (a : answers) (threads : nat) (pids : list Z) : M world (option Z) :=
  mthrow_if (negb (forallb (epoll_add_ok a) (seq 0 (S threads)))) (RuntimeError "epoll_ctl failed");;
  mthrow_if (negb (buffer_ok a)) BadAlloc;;
  let s := reached a pids in
  mmodify (λ w, World (fds w) (pipes w) (out w) (blocked w) (children w) s);;
  mmodify (close_reads s);;
  match Multi.thread s with
  | Multi.Returned => mret (Some (Multi.exit_code s))
  | Multi.Crashed => mthrow (RuntimeError "epoll_wait or read(pipe) failed")
  | _ => mret None
  end.

(** The pipes, the children and the loop. *)
Definition run_processes (a : answers) (argv envv : list str) (n : nat) : M world (option Z) :=
  make_processes (pipe2_ok a) (seq 0 n);;
  let '(l, r) := start_processes argv envv n (fork a <$> seq 0 n) in
  mmodify (λ w, World (fds w) (pipes w) (out w) (blocked w) l (loop w));;
  mlift r;;
  mthrow_if (negb (epoll_create1_ok a)) (RuntimeError "epoll_create1 failed");;
  epfd ← open_fd;
  closing (close epfd) (supervise a n (fst <$> l)).

Definition main (a : answers) (argv envv : list str) : M world (option Z) :=
  c ← mlift (parse_command argv);
  match c with
  | Version => print (lit "Version: " ++ version ++ ["010"%char]);; mret (Some 0%Z)
  | Run threads argv =>
    let n := Z.to_nat threads in
    mthrow_if (negb (sigprocmask_ok a)) (RuntimeError "sigprocmask failed");;
    mmodify (λ w, World (fds w) (pipes w) (out w) true (children w) (loop w));;
    mthrow_if (negb (signalfd_ok a)) (RuntimeError "signalfd failed");;
    sfd ← open_fd;
    closing (close sfd) (closing destroy_processes (run_processes a argv envv n))
  end.

Definition outcome_of (x : world * res (option Z)) : outcome :=
  Outcome (out (fst x)) (snd <$> children (fst x)) (Multi.history (loop (fst x))) (snd x).

(** *** Descriptors *)

(** A descriptor that an element of [processes] has. *)
Definition held (l : list (Z * Z)) (x : Z) : Prop := (0 ≤ x)%Z ∧ ∃ p, p ∈ l ∧ (x = fst p ∨ x = snd p).
(** The open descriptors are those from before, those in [extra], and the held ones. *)
Definition owned (base extra : gset Z) (w : world) : Prop :=
  base ⊆ fds w ∧ (∀ x, x ∈ fds w → x ∈ base ∨ x ∈ extra ∨ held (pipes w) x) ∧
  (∀ x, x ∈ extra ∨ held (pipes w) x → x ∉ base).
Definition frame (w w' : world) : Prop := out w' = out w ∧ children w' = children w ∧ loop w' = loop w.

Context (pick_fresh : ∀ s, pick s ∉ s ∧ (0 ≤ pick s)%Z).

Lemma open_fd_owned base extra w :
  owned base extra w →
  ∃ w' fd, open_fd w = (w', Ok fd) ∧ owned base ({[fd]} ∪ extra) w' ∧ frame w w' ∧ pipes w' = pipes w ∧ (0 ≤ fd)%Z.
Proof using pick_fresh.
  intros (H1 & H2 & H3). unfold open_fd. munfold_goal. destruct (pick_fresh (fds w)) as [Hf H0].
  eexists _, _. split; [done|]. split_and!; simpl; [|done..]. split_and!; simpl; [set_solver|..].
  - intros x [Hx|Hx]%elem_of_union; [|set_solver]. destruct (H2 x Hx) as [?|[?|?]]; set_solver.
  - intros x [[->%elem_of_singleton|Hx]%elem_of_union|Hx]; [set_solver|eauto..].
Qed.
Lemma close_owned base extra fd w : owned base ({[fd]} ∪ extra) w → owned base extra (close fd w).
Proof.
  intros (H1 & H2 & H3). assert (fd ∉ base) by (apply H3; set_solver). split_and!; simpl; [set_solver|..].
  - intros x [Hx Hn]%elem_of_difference. destruct (H2 x Hx) as [?|[?|?]]; set_solver.
  - intros x [Hx|Hx]; apply H3; set_solver.
Qed.

Lemma make_processes_owned base extra ok idxs w :
  owned base extra w →
  ∃ w' r, make_processes ok idxs w = (w', r) ∧ owned base extra w' ∧ frame w w' ∧
    (r = Ok () ∨ r = Throw (RuntimeError "Pipe cannot be opened")).
Proof using pick_fresh.
  revert w. induction idxs as [|i idxs IH]; intros w Hw; cbn [make_processes].
  { eexists _, _. split; [done|]. split_and!; [done..|by left]. }
  unfold mbind, M_bind, mthrow_if. destruct (ok i); cbn [negb]; [|eexists _, _; split; [done|]; split_and!; [done..|by right]].
  destruct (open_fd_owned base extra w Hw) as (w1 & r & -> & Hw1 & Hf1 & Hp1 & Hr).
  destruct (open_fd_owned base _ w1 Hw1) as (w2 & q & -> & Hw2 & Hf2 & Hp2 & Hq).
  munfold_goal. destruct (IH (set_pipes (λ l, l ++ [(r, q)]) w2)) as (w3 & res & -> & Hw3 & Hf3 & Hres).
  { destruct Hw2 as (K1 & K2 & K3). split_and!; simpl; [done|..].
    - intros x Hx. destruct (K2 x Hx) as [?|[Hx'|(? & p & ? & ?)]]; [by left|..].
      + assert (x = q ∨ x = r ∨ x ∈ extra) as [->|[->|?]] by set_solver; [..|by auto];
          right; right; (split; [done|]); exists (r, q); (split; [set_solver|]); simpl; auto.
      + right. right. split; [done|]. exists p. split; [set_solver|done].
    - intros x [Hx|(? & p & [Hp|Hp%list_elem_of_singleton]%elem_of_app & Hx)]; [apply K3; set_solver|apply K3; right; split; [done|by exists p]|].
      apply K3. subst p. destruct Hx as [-> | ->]; simpl; set_solver. }
  eexists _, _. split; [done|]. split_and!; [done| |done]. unfold frame in *. simpl in *. intuition congruence.
Qed.

Lemma reset_all_fds l w x :
  x ∈ fds (foldl (flip reset_process) w l) ↔ x ∈ fds w ∧ ¬ held l x.
Proof.
  revert w. induction l as [|p l IH]; intros w; simpl.
  { split; [|tauto]. intros Hx. split; [done|]. intros (_ & p & ?%elem_of_nil & _). done. }
  rewrite IH. assert (x ∈ fds (reset_process p w) ↔ x ∈ fds w ∧ ¬ ((0 ≤ x)%Z ∧ (x = fst p ∨ x = snd p))) as ->.
  { unfold reset_process. destruct (Z.leb_spec 0 (fst p)), (Z.leb_spec 0 (snd p)); simpl;
      rewrite ?elem_of_difference, ?elem_of_singleton; split; intuition (subst; lia). }
  unfold held. setoid_rewrite elem_of_cons. naive_solver.
Qed.
Lemma reset_all_frame l w : frame w (foldl (flip reset_process) w l).
Proof.
  revert w. induction l as [|p l IH]; intros w; simpl; [done|]. destruct (IH (reset_process p w)) as (H1 & H2 & H3).
  unfold frame. rewrite H1, H2, H3. unfold reset_process. by destruct (0 <=? fst p)%Z, (0 <=? snd p)%Z.
Qed.
Lemma destroy_processes_owned base extra w :
  owned base extra w → owned base extra (destroy_processes w) ∧ frame w (destroy_processes w) ∧
  pipes (destroy_processes w) = [].
Proof.
  intros (H1 & H2 & H3). unfold destroy_processes. split; [|split; [apply reset_all_frame|done]].
  assert (∀ x, ¬ held [] x) as Hnil by (intros x (_ & p & ?%elem_of_nil & _); done).
  split_and!; simpl.
  - intros x Hx. apply reset_all_fds. split; [by apply H1|]. intros Hh. by apply (H3 x); [right|].
  - intros x [Hx Hn]%reset_all_fds. destruct (H2 x Hx) as [?|[?|?]]; [by left|by right; left|done].
  - intros x [Hx|[]%Hnil]. apply H3. by left.
Qed.

Lemma close_all_fds l w x : x ∈ fds (foldl (flip close) w l) ↔ x ∈ fds w ∧ x ∉ l.
Proof.
  revert w. induction l as [|y l IH]; intros w; simpl; [split; [|tauto]; intros; split; [done|by apply not_elem_of_nil]|].
  rewrite IH. simpl. rewrite elem_of_difference, elem_of_singleton, not_elem_of_cons. tauto.
Qed.
Lemma close_all_frame l w : frame w (foldl (flip close) w l).
Proof. revert w. induction l as [|y l IH]; intros w; simpl; [done|]. apply (IH (close y w)). Qed.

Lemma close_reads_owned base extra s w :
  owned base extra w → owned base extra (close_reads s w) ∧ frame w (close_reads s w).
Proof.
  intros (H1 & H2 & H3). unfold close_reads.
  set (closed := λ (i : nat) (p : Z * Z), match Multi.children s !! i with
    | Some c => negb (Multi.read_open c) && (0 <=? p.1)%Z | None => false end).
  set (L := mjoin _). split; [|apply close_all_frame].
  assert (HL : ∀ x, x ∈ L ↔ ∃ i p, pipes w !! i = Some p ∧ closed i p = true ∧ x = p.1).
  { intros x. unfold L. rewrite list_elem_of_join. setoid_rewrite elem_of_lookup_imap. split.
    - intros (l & Hx & i & p & -> & Hp). fold (closed i p) in Hx. destruct (closed i p) eqn:E; [|by apply elem_of_nil in Hx].
      apply list_elem_of_singleton in Hx. eauto.
    - intros (i & p & Hp & Hc & ->). exists [p.1]. split; [by apply list_elem_of_singleton|]. exists i, p.
      split; [|done]. fold (closed i p). by rewrite Hc. }
  assert (Hpos : ∀ i p, closed i p = true → (0 ≤ p.1)%Z).
  { intros i p. unfold closed. destruct (Multi.children s !! i); [|done]. intros [_ ?%Z.leb_le]%andb_true_iff. done. }
  assert (Hheld : ∀ x, held (imap (λ i p, if closed i p then ((-1)%Z, p.2) else p) (pipes w)) x ↔
    (0 ≤ x)%Z ∧ ∃ i p, pipes w !! i = Some p ∧ (x = p.2 ∨ x = p.1 ∧ closed i p = false)).
  { intros x. unfold held. setoid_rewrite elem_of_lookup_imap. split.
    - intros (H0 & q & (i & p & -> & Hp) & Hx). split; [done|]. exists i, p. split; [done|].
      destruct (closed i p); simpl in Hx; [|tauto]. destruct Hx; [lia|by left].
    - intros (H0 & i & p & Hp & Hx). split; [done|]. eexists. split; [exists i, p; done|].
      destruct (closed i p); simpl; destruct Hx as [?|[? ?]]; auto; done. }
  split_and!; simpl.
  - intros x Hx. apply close_all_fds. split; [by apply H1|]. rewrite HL. intros (i & p & Hp & Hc & ->).
    apply (H3 p.1); [|done]. right. split; [by eapply Hpos|]. exists p. split; [by eapply list_elem_of_lookup_2|by left].
  - intros x [Hx Hn]%close_all_fds. rewrite HL in Hn. destruct (H2 x Hx) as [?|[?|(H0 & p & Hp & Hx')]]; [auto..|].
    right. right. apply Hheld. split; [done|]. apply list_elem_of_lookup_1 in Hp as [i Hp]. exists i, p. split; [done|].
    destruct Hx' as [->|?]; [|by left]. right. split; [done|]. destruct (closed i p) eqn:E; [|done].
    exfalso. apply Hn. eauto.
  - intros x [Hx|(H0 & i & p & Hp & Hx)%Hheld]; apply H3; [by left|]. right. split; [done|]. exists p.
    split; [by eapply list_elem_of_lookup_2|]. tauto.
Qed.

(** *** The contract *)

Lemma start_loop_cases argv envvars base_size forks idx :
  snd (start_loop argv envvars base_size forks idx) = Throw (RuntimeError "::fork failed") ∨ Forall (λ p, 0 ≤ p)%Z forks.
Proof.
  revert idx envvars. induction forks as [|p forks IH]; intros idx envvars; simpl; [by right|].
  destruct (Z.ltb_spec p 0); [by left|]. set (ev := take base_size envvars ++ _).
  specialize (IH (idx + 1)%Z ev). destruct (start_loop argv ev base_size forks (idx + 1)) as [l r]. simpl in *.
  destruct IH as [->|IH]; [by left|]. right. by constructor.
Qed.
Lemma start_cases argv envv threads (fork : nat → Z) :
  (0 ≤ threads)%Z →
  let forks := fork <$> seq 0 (Z.to_nat threads) in
  let '(l, r) := start_processes argv envv (Z.to_nat threads) forks in
  r = Throw (RuntimeError "::fork failed") ∨
  (r = Ok () ∧ Forall (λ p, 0 ≤ p)%Z forks ∧ l.*1 = forks ∧
   l.*2 = child_image argv envv threads <$> seq 0 (Z.to_nat threads)).
Proof.
  intros Ht. cbv zeta. set (forks := fork <$> _). unfold start_processes. rewrite Z2Nat.id by done.
  set (base := envv ++ _). destruct (start_loop_cases argv base (length base) forks 0) as [H|H].
  - destruct (start_loop _ _ _ _ _) as [l r]. left. exact H.
  - pose proof (start_loop_images argv base [] forks 0 H) as E. rewrite app_nil_r in E.
    change (Z.of_nat 0) with 0%Z in E. rewrite E. right. split_and!; [done..| |].
    + apply list_eq. intros i. rewrite list_lookup_fmap, list_lookup_imap. by destruct (forks !! i).
    + apply list_eq. intros i. rewrite !list_lookup_fmap, list_lookup_imap. unfold forks. rewrite list_lookup_fmap.
      destruct (seq 0 (Z.to_nat threads) !! i) as [j|] eqn:Ej; [|done]. apply lookup_seq in Ej as [-> _]. simpl.
      unfold child_image, base. by rewrite <-(assoc_L (++)).
Qed.

(** The system: [fork] answers in the runner with an id of its own or an error, and the
    loop is found in a state that its steps reach. *)
Definition system_ok (buffer_size : nat) (a : answers) : Prop :=
  (∀ i, fork a i ≠ 0%Z) ∧ (∀ i j, (0 < fork a i)%Z → fork a i = fork a j → i = j) ∧
  (∀ pids, rtc (Multi.step buffer_size) (Multi.initial pids) (reached a pids)).

Lemma supervise_ends base extra n a threads pids w :
  system_ok n a → Forall (λ p, 0 < p)%Z pids → NoDup pids → owned base extra w →
  ∃ w' r, supervise a threads pids w = (w', r) ∧ owned base extra w' ∧ out w' = out w ∧ children w' = children w ∧
    Runner.not_undefined r ∧ ∀ code, r = Ok (Some code) →
      code = Multi.exit_of (Multi.history (loop w')) ∧
      length (MacMulti.reaped (Multi.history (loop w'))) = length pids.
Proof.
  intros (_ & _ & Hr) Hp Hn Hw. unfold supervise. munfold_goal. specialize (Hr pids).
  destruct (epoll_add_ok a 0 && forallb (epoll_add_ok a) (seq 1 threads)); simpl; [|by eexists _, _].
  destruct (buffer_ok a); simpl; [|by eexists _, _].
  set (s := reached a pids) in *. set (w0 := World _ _ _ _ _ s).
  destruct (close_reads_owned base extra s w0) as [Ho (F1 & F2 & F3)]; [exact Hw|].
  destruct (Multi.thread s) eqn:Ht; eexists _, _; (split; [done|]); split_and!; try done.
  intros code [= <-]. rewrite F3. destruct (Multi.multi_reachable n pids s Hp Hn Hr) as (_ & [_ He] & _). split; [done|].
  exact (Reports.returned_reports n pids s Hp Hn Hr Ht).
Qed.

(** What a part of [main] does to the descriptors: all but those in [extra] are given
    back when it returns. *)
Definition gives_back (base extra : gset Z) (w : world) (r : res (option Z)) : Prop :=
  ∀ code, r = Ok (Some code) → owned base extra w.
Lemma closing_gives_back base fd extra body w w1 r :
  body w = (w1, r) → gives_back base ({[fd]} ∪ extra) w1 r →
  ∃ w', closing (close fd) body w = (w', r) ∧ frame w1 w' ∧ pipes w' = pipes w1 ∧ gives_back base extra w' r.
Proof.
  intros E Ho. unfold closing. rewrite E.
  destruct r as [[code|]|e]; eexists; (split; [done|]); (split; [done|]); (split; [done|]);
    intros c H; try done; by eapply close_owned, Ho.
Qed.

Lemma run_processes_ends base extra m a argv envv threads w :
  system_ok m a → (0 ≤ threads)%Z → owned base extra w →
  ∃ w' r, run_processes a argv envv (Z.to_nat threads) w = (w', r) ∧ gives_back base extra w' r ∧ out w' = out w ∧
    Runner.not_undefined r ∧ ∀ code, r = Ok (Some code) →
      (children w').*2 = child_image argv envv threads <$> seq 0 (Z.to_nat threads) ∧
      code = Multi.exit_of (Multi.history (loop w')) ∧
      length (MacMulti.reaped (Multi.history (loop w'))) = length (children w').
Proof using pick_fresh.
  intros Hs Ht Hw. unfold run_processes. unfold mbind, M_bind.
  destruct (make_processes_owned base extra (pipe2_ok a) (seq 0 (Z.to_nat threads)) w Hw)
    as (w1 & r & -> & H1 & (F1 & _) & [-> | ->]); [|eexists _, _; split; [done|]; split_and!; [by intros c|done..]].
  pose proof (start_cases argv envv threads (fork a) Ht) as Hst. cbv zeta in Hst.
  destruct (start_processes _ _ _ _) as [l r]. unfold mmodify, mlift, mthrow_if.
  set (w2 := World (fds w1) _ _ _ l _). assert (owned base extra w2) as H2 by exact H1.
  destruct Hst as [->|(-> & Hp & Hl1 & Hl2)]; [eexists _, _; split; [done|]; split_and!; [by intros c|done..]|].
  destruct (epoll_create1_ok a); cbn [negb]; [|eexists _, _; split; [done|]; split_and!; [by intros c|done..]].
  destruct (open_fd_owned base extra w2 H2) as (w3 & epfd & -> & H3 & (G1 & G2 & G3) & _ & _).
  destruct Hs as (Hs1 & Hs2 & Hs3).
  assert (Forall (λ p, 0 < p)%Z l.*1) as Hpos.
  { rewrite Hl1. apply Forall_fmap, list.Forall_forall. intros i Hi. simpl. rewrite Forall_fmap in Hp.
    pose proof (proj1 (list.Forall_forall _ _) Hp i Hi) as H0. simpl in H0. specialize (Hs1 i). lia. }
  assert (NoDup l.*1) as Hnd.
  { rewrite Hl1. apply (NoDup_fmap_2_strong _ _); [|apply NoDup_seq]. intros i j Hi _ E. apply (Hs2 i j); [|done].
    rewrite Hl1, Forall_fmap in Hpos. exact (proj1 (list.Forall_forall _ _) Hpos i Hi). }
  destruct (supervise_ends base _ m a (Z.to_nat threads) l.*1 w3
    (conj Hs1 (conj Hs2 Hs3)) Hpos Hnd H3)
    as (w4 & r & E & H4 & O1 & O2 & Hu & Hc).
  destruct (closing_gives_back base epfd extra _ w3 w4 r E (λ _ _, H4)) as (w5 & -> & (K1 & K2 & K3) & _ & Hg).
  eexists _, _. split; [done|]. split_and!; [done|by rewrite K1, O1, G1|done|].
  intros code ->. destruct (Hc code eq_refl) as [C1 C2]. rewrite K2, K3, O2, G2. cbn [children w2]. split_and!; [done..|].
  by rewrite C2, length_fmap.
Qed.

Lemma linux_meets m a argv envv (s : gset Z) :
  system_ok m a →
  let x := main a argv envv (initial s) in
  meets version id (λ _, true) argv envv (outcome_of x) ∧ (∀ code, snd x = Ok (Some code) → fds (fst x) = s).
Proof using pick_fresh.
  intros Hs. cbv zeta. unfold meets, refuses, main. destruct (parse_command_asks argv) as (q & Hq & Ep).
  unfold mbind, M_bind, mlift, mthrow_if, mmodify.
  destruct q as [| | | |threads args]; [rewrite Ep|rewrite Ep|destruct Ep as [msg ->]|rewrite Ep|destruct Ep as (-> & Hth & _)];
    [split; [eexists; split; [exact Hq|]|]; naive_solver..|].
  destruct (sigprocmask_ok a); [|split; [by eexists; split; [exact Hq|]|done]].
  destruct (signalfd_ok a); [|split; [by eexists; split; [exact Hq|]|done]]. cbn [negb].
  set (w1 := World (fds (initial s)) _ _ true _ _).
  assert (owned s ∅ w1) as H1.
  { split_and!; simpl; [done|by left|]. intros x [?|(_ & p & ?%elem_of_nil & _)]; [set_solver|done]. }
  destruct (open_fd_owned s ∅ w1 H1) as (w2 & sfd & -> & H2 & (F1 & F2 & F3) & Hp2 & _).
  destruct (run_processes_ends s _ m a args envv threads w2 Hs Hth H2) as (w3 & r & E & Hg & Ho & Hu & Hc).
  assert (∃ w4, closing destroy_processes (run_processes a args envv (Z.to_nat threads)) w2 = (w4, r) ∧
    frame w3 w4 ∧ gives_back s ({[sfd]} ∪ ∅) w4 r ∧ (∀ code, r = Ok (Some code) → pipes w4 = [])) as (w4 & E4 & (G1 & G2 & G3) & Hg4 & Hp4).
  { unfold closing. rewrite E. destruct r as [[code|]|e]; eexists; (split; [done|]); [|by split_and!..].
    destruct (destroy_processes_owned _ _ w3 (Hg code eq_refl)) as (K1 & K2 & K3). by split_and!; [|intros ? _|]. }
  destruct (closing_gives_back s sfd ∅ _ w2 w4 r E4 Hg4) as (w5 & -> & (K1 & K2 & K3) & Kp & Hg5). cbn [fst snd].
  split.
  - eexists. split; [exact Hq|]. split_and!; simpl; [by rewrite K1, G1, Ho, F1|done|]. intros code ->. rewrite K2, K3, G2, G3.
    destruct (Hc code eq_refl) as (C1 & C2 & C3). rewrite C1, filter_all_true. split_and!; [done..|].
    by rewrite C3, <-C1, length_fmap.
  - intros code Hr. destruct (Hg5 code Hr) as (L1 & L2 & _). apply set_eq. intros x. split; [|by apply L1].
    intros Hx. destruct (L2 x Hx) as [?|[?|(_ & p & Hp & _)]]; [done|set_solver|].
    rewrite Kp, (Hp4 code Hr) in Hp. by apply elem_of_nil in Hp.
Qed.
End program.
End LinuxProgram.

(** ** The macOS runner *)

Module MacProgram.
Import Contract.

(** The open descriptors, the output, the children with what they see, and the
    variables of the loop. *)
Record world := World { fds : gset Z; out : str; children : list (Z * image); loop : MacMulti.state }.
Definition initial (fds : gset Z) : world := World fds [] [] (MacMulti.initial []).

(** What the system answers: the queue, the calls on it, each [fork], and the events. *)
Record answers := Answers {
  kqueue : Z; fcntl_ok : bool; fork : nat → Z; registration_ok : bool; events : list MacMulti.batch }.

Section program.
Context (version : str).

Definition close (fd : Z) (w : world) : world := World (fds w ∖ {[fd]}) (out w) (children w) (loop w).
Definition print (s : str) : M world () := mmodify (λ w, World (fds w) (out w ++ s) (children w) (loop w)).
(** The guard that closes the queue, when [main] returns. *)
Definition closing (fd : Z) (body : M world (option Z)) : M world (option Z) := λ w,
  match body w with
  | (w', Ok (Some code)) => (close fd w', Ok (Some code))
  | (w', r) => (w', r)
  end.

(** The rest of [main] once the queue is made, in the runner itself; a child whose
    [execve] failed leaves it with the code of [mac_child_main]. *)
Definition supervise (a : answers) (argv envv : list str) (threads : Z) : M world (option Z) :=
  mthrow_if (negb (fcntl_ok a)) (RuntimeError "fcntl FD_CLOEXEC failed");;
  let '(l, r) := mac_start_processes argv envv threads (fork a <$> seq 0 (Z.to_nat threads)) in
  mmodify (λ w, World (fds w) (out w) l (loop w));;
  mlift r;;
  mthrow_if (negb (registration_ok a)) (RuntimeError "kevent registration failed");;
  let '(s, r) := MacMulti.main_loop (events a) (MacMulti.initial (fst <$> l)) in
  mmodify (λ w, World (fds w) (out w) (children w) s);;
  match r with
  | None => mret None
  | Some r => code ← mlift r; mret (Some code)
  end.

Definition main (a : answers) (argv envv : list str) : M world (option Z) :=
  c ← mlift (parse_command argv);
  match c with
  | Version => print (lit "Version: " ++ version ++ ["010"%char]);; mret (Some 0%Z)
  | Run threads argv =>
    mthrow_if (kqueue a <? 0)%Z (RuntimeError "kqueue failed");;
    mmodify (λ w, World ({[kqueue a]} ∪ fds w) (out w) (children w) (loop w));;
    closing (kqueue a) (supervise a argv envv threads)
  end.

Definition outcome_of (x : world * res (option Z)) : outcome :=
  Outcome (out (fst x)) (snd <$> children (fst x)) (MacMulti.history (loop (fst x))) (snd x).

Lemma mac_start_loop_cases argv envv forks idx :
  snd (mac_start_loop argv envv forks idx) = Throw (RuntimeError "::fork failed") ∨ Forall (λ p, 0 ≤ p)%Z forks.
Proof.
  revert idx. induction forks as [|p forks IH]; intros idx; simpl; [by right|].
  destruct (Z.ltb_spec p 0); [by left|]. specialize (IH (idx + 1)%Z).
  destruct (mac_start_loop argv envv forks (idx + 1)) as [l r]. simpl in *.
  destruct IH as [->|IH]; [by left|]. right. by constructor.
Qed.

Lemma mac_start_cases argv envv threads (fork : nat → Z) :
  let '(l, r) := mac_start_processes argv envv threads (fork <$> seq 0 (Z.to_nat threads)) in
  r = Throw (RuntimeError "::fork failed") ∨
  (r = Ok () ∧ snd <$> l = child_image argv envv threads <$> seq 0 (Z.to_nat threads)).
Proof.
  unfold mac_start_processes. set (forks := fork <$> seq 0 (Z.to_nat threads)).
  destruct (mac_start_loop_cases argv (envv ++ [env_var_big threads]) forks 0) as [H|H].
  - destruct (mac_start_loop _ _ _ _) as [l r]. left. exact H.
  - pose proof (mac_start_loop_images argv (envv ++ [env_var_big threads]) forks 0 H) as E.
    change (Z.of_nat 0) with 0%Z in E. rewrite E. right. split; [done|].
    apply list_eq. intros i. rewrite !list_lookup_fmap, list_lookup_imap. unfold forks.
    rewrite list_lookup_fmap. destruct (seq 0 (Z.to_nat threads) !! i) as [j|] eqn:Ej; [|done].
    apply lookup_seq in Ej as [-> _]. simpl. unfold child_image. by rewrite <-(assoc_L (++)).
Qed.

Lemma supervise_meets a argv envv threads w :
  out w = [] →
  let '(w', r) := supervise a argv envv threads w in
  fds w' = fds w ∧ out w' = [] ∧ Runner.not_undefined r ∧
  ∀ code, r = Ok (Some code) →
    snd <$> children w' = child_image argv envv threads <$> seq 0 (Z.to_nat threads) ∧
    code = Multi.exit_of (MacMulti.history (loop w')) ∧
    length (MacMulti.reaped (MacMulti.history (loop w'))) = length (children w').
Proof.
  intros Ho. unfold supervise. munfold_goal. destruct (fcntl_ok a); simpl; [|done].
  pose proof (mac_start_cases argv envv threads (fork a)) as Hs.
  destruct (mac_start_processes _ _ _ _) as [l r]. simpl. destruct Hs as [->|[-> Hl]]; simpl; [done|].
  destruct (registration_ok a); simpl; [|done].
  destruct (MacMulti.main_loop _ _) as [s [r|]] eqn:E; simpl; [|done].
  apply MacMulti.mac_runner_exit_code in E. destruct r as [code|e]; simpl; [|by subst e].
  destruct E as [E1 E2]. split_and!; [done..|]. intros c [= <-]. split_and!; [done..|].
  by rewrite E2, !length_fmap.
Qed.

Lemma mac_meets a argv envv (s : gset Z) :
  kqueue a ∉ s →
  let x := main a argv envv (initial s) in
  meets version id (λ _, true) argv envv (outcome_of x) ∧ (∀ code, snd x = Ok (Some code) → fds (fst x) = s).
Proof.
  intros Hk. cbv zeta. unfold meets, refuses, main. destruct (parse_command_asks argv) as (q & Hq & Ep). munfold_goal.
  destruct q as [| | | |threads args]; [rewrite Ep|rewrite Ep|destruct Ep as [msg ->]|rewrite Ep|destruct Ep as (-> & _ & _)];
    simpl; [split; [eexists; split; [exact Hq|]|]; naive_solver..|].
  destruct (kqueue a <? 0)%Z; simpl; [split; [by eexists; split; [exact Hq|]|done]|]. unfold closing.
  pose proof (supervise_meets a args envv threads (World ({[kqueue a]} ∪ s) [] [] (MacMulti.initial [])) eq_refl) as H.
  destruct (supervise _ _ _ _ _) as [w' r]. destruct H as (H1 & H2 & H3 & H4). simpl in H1.
  assert (fds (close (kqueue a) w') = s) as Hc by (simpl; rewrite H1; set_solver).
  destruct r as [[code|]|e]; simpl; (split; [eexists; split; [exact Hq|]; by split_and!|done]) || idtac.
  split; [|done]. eexists. split; [exact Hq|]. split_and!; [done..|]. intros c [= <-].
  destruct (H4 code eq_refl) as (C1 & C2 & C3). rewrite filter_all_true. split_and!; [done..|]. by rewrite length_fmap.
Qed.
End program.
End MacProgram.

(** ** The Windows runner *)

Module WinProgram.
Import Contract Block.

(** The output, the command line and environment block of every process that was
    started, and what [Data] and the system hold. *)
Record world := World { out : str; launched : list (str * str); run : Runner.world }.
Definition initial (handles : gset Z) : world :=
  World [] [] (Runner.World Runner.no_data handles [] [] [] [] []).

(** What the system answers: to [SetConsoleCtrlHandler], to each [CreateProcessA] (the
    id of the process), and from then on. *)
Record answers := Answers { handler_ok : bool; create : nat → option Z; turns : list Runner.turn }.

Section program.
Context (version : str) (new_handle : gset Z → Z).

Definition print (s : str) : M world () := mmodify (λ w, World (out w ++ s) (launched w) (run w)).
(** The command line and the block are made anew for every process; nothing is done about one
    that cannot be started. *)
Fixpoint launch (a : answers) (argv envv : list str) (threads : Z) (idxs : list nat) : M world () :=
  match idxs with
  | [] => mret ()
  | idx :: idxs =>
    cmdline ← mlift (command_line argv);
    let envvars := env_vars envv (Z.of_nat idx) threads in
    match create a idx with
    | Some _ => mmodify (λ w, World (out w) (launched w ++ [(cmdline, envvars)]) (run w))
    | None => mret ()
    end;;
    launch a argv envv threads idxs
  end.

Definition main (a : answers) (argv envv : list str) : M world (option Z) :=
  c ← mlift (parse_command argv);
  match c with
  | Version => print (lit "Version: " ++ version ++ ["010"%char]);; mret (Some 0%Z)
  | Run threads argv =>
    mthrow_if (negb (handler_ok a)) (RuntimeError "SetConsoleCtrlHandler failed");;
    let idxs := seq 0 (Z.to_nat threads) in
    launch a argv envv threads idxs;;
    w ← mget;
    let '(s, r) := Runner.main new_handle (create a <$> idxs) (turns a) (run w) in
    mput (World (out w) (launched w) s);;
    mlift r
  end.

Definition outcome_of (x : world * res (option Z)) : outcome :=
  Outcome (out (fst x)) ((λ p, Image [fst p] (read_block [] (snd p))) <$> launched (fst x))
    (Runner.history (run (fst x))) (snd x).

(** The command line: the arguments with blanks in between. *)
Definition one_line (args : list str) : list str :=
  match args with [] => [] | a :: args => [a ++ (args ≫= λ b, lit " " ++ b)] end.

Lemma line_loop_out args os : os_fail os = false →
  os_out (line_loop args os) = os_out os ++ (args ≫= λ b, lit " " ++ b).
Proof.
  revert os. induction args as [|b args IH]; intros os Ho; csimpl; [by rewrite app_nil_r|].
  destruct os as [o bad]; simpl in *; subst bad. rewrite IH by done. simpl. by rewrite <-!(assoc_L (++)).
Qed.
Lemma command_line_one a args : command_line (a :: args) = Ok (a ++ (args ≫= λ b, lit " " ++ b)).
Proof. unfold command_line. by rewrite line_loop_out. Qed.

Definition accepts (a : answers) (i : nat) : bool := match create a i with Some _ => true | None => false end.
Lemma launch_all a b args envv threads idxs w :
  launch a (b :: args) envv threads idxs w =
  (World (out w) (launched w ++ ((λ i, (b ++ (args ≫= λ c, lit " " ++ c), env_vars envv (Z.of_nat i) threads)) <$>
     filter (λ i, accepts a i = true) idxs)) (run w), Ok ()).
Proof.
  revert w. induction idxs as [|i idxs IH]; intros w; cbn [launch].
  - csimpl. rewrite app_nil_r. by destruct w.
  - rewrite command_line_one. munfold_goal. destruct (create a i) eqn:E; simpl; rewrite IH; simpl.
    + rewrite filter_cons_True by (unfold accepts; by rewrite E). csimpl. by rewrite <-(assoc_L (++)).
    + by rewrite filter_cons_False by (unfold accepts; by rewrite E).
Qed.
Lemma accepted_started a idxs : length (omap id (create a <$> idxs)) = length (filter (λ i, accepts a i = true) idxs).
Proof.
  induction idxs as [|i idxs IH]; [done|]. csimpl. destruct (create a i) eqn:E; simpl.
  - rewrite filter_cons_True by (unfold accepts; by rewrite E). simpl. by rewrite IH.
  - by rewrite filter_cons_False, IH by (unfold accepts; by rewrite E).
Qed.

Context (new_handle_fresh : ∀ s, new_handle s ∉ s ∧ new_handle s ≠ 0%Z).

Lemma win_meets a argv envv (s : gset Z) :
  Forall plain envv → Forall Runner.turn_ok (turns a) →
  meets version one_line (accepts a) argv envv (outcome_of (main a argv envv (initial s))).
Proof.
  intros He Ht. unfold meets, refuses, main. destruct (parse_command_asks argv) as (q & Hq & Ep). exists q. split; [done|].
  munfold_goal.
  destruct q as [| | | |threads args]; [by rewrite Ep|by rewrite Ep|destruct Ep as [msg ->]; by exists msg|by rewrite Ep|].
  destruct Ep as (-> & _ & Hne). destruct args as [|b args]; [done|].
  destruct (handler_ok a); simpl; [|done]. rewrite launch_all. simpl.
  set (idxs := seq 0 (Z.to_nat threads)). set (started := list_fmap _ _ (create a) _). set (w := Runner.World _ s _ _ _ _ _).
  pose proof (Runner.main_not_undefined new_handle new_handle_fresh started (turns a) w eq_refl eq_refl eq_refl) as Hu.
  pose proof (Runner.win_runner_exit_code new_handle new_handle_fresh started (turns a) w) as Hc.
  destruct (Runner.main new_handle started (turns a) w) as [w' r]. simpl in *. split; [done|]. split; [done|].
  intros code ->. destruct (Hc w' code) as [H1 H2]; [done..|]. split_and!; [|done|].
  - rewrite <-list_fmap_compose. apply list_fmap_ext. intros i j _. simpl. f_equal.
    by apply (env_block_roundtrip (b :: args)).
  - rewrite H2, !length_fmap. apply accepted_started.
Qed.
End program.
End WinProgram.


(** A run of the Linux runner whose only child fails with 3, as in [MultiProc]; for
    other process ids the loop is found at its start. *)
Definition sample_linux : LinuxProgram.answers :=
  LinuxProgram.Answers true true (λ _, true) (λ i, 7 + Z.of_nat i)%Z true (λ _, true) true
    (λ pids, if decide (pids = [7%Z]) then Multi.demo_end else Multi.initial pids).
Lemma sample_linux_ok : LinuxProgram.system_ok 8 sample_linux.
Proof.
  split_and!; simpl; [intros; lia|intros; lia|]. intros pids. case_decide as E; [subst; exact Multi.demo_run_ends|done].
Qed.

