(* ===== verification/Url.v ===== *)
(** * URL splitting: nstl::url of http_client.cpp

    [Regex] gives the regular expressions the source uses the backtracking
    semantics of ECMAScript, with its priorities and capture groups; [Url] is the
    expression of the source and what its groups hold. *)

From S2P Require Import Prelude.

(** ** Regular expressions *)

Module Regex.

(** Characters, sequences, greedy options, greedy repetitions of a character
    class, and numbered groups. *)
Inductive regex :=
| Char (p : ascii → bool)
| Seq (r1 r2 : regex)
| Opt (r : regex)
| Star (p : ascii → bool)
| Plus (p : ascii → bool)
| Group (n : nat) (r : regex).

(** What the groups matched; a group that took no part is not there. *)
Definition captures : Type := gmap nat str.

(** The greedy repetition: the continuation is tried on the longest match first. *)
Fixpoint star (p : ascii → bool) (s : str) (k : str → option captures) : option captures :=
  match s with
  | c :: s' =>
    if p c then match star p s' k with Some r => Some r | None => k s end else k s
  | [] => k []
  end.

(** The matcher, with what is left to match as a continuation.  A group records
    the text between its start and its end. *)
Fixpoint run (r : regex) (s : str) (caps : captures) (k : str → captures → option captures) : option captures :=
  match r with
  | Char p => match s with c :: s' => if p c then k s' caps else None | [] => None end
  | Seq r1 r2 => run r1 s caps (λ s caps, run r2 s caps k)
  | Opt r => match run r s caps k with Some x => Some x | None => k s caps end
  | Star p => star p s (λ s, k s caps)
  | Plus p =>
    match s with c :: s' => if p c then star p s' (λ s, k s caps) else None | [] => None end
  | Group n r => run r s caps (λ s' caps, k s' (<[n := take (length s - length s') s]> caps))
  end.

(** [std::regex_match]: the whole text has to match; group 0 is the whole. *)
Definition regex_match (r : regex) (s : str) : option captures :=
  run r s ∅ (λ rest caps, match rest with [] => Some (<[0 := s]> caps) | _ => None end).

(** The longest prefix of a class, and the rest. *)
Fixpoint span (p : ascii → bool) (s : str) : str * str :=
  match s with
  | c :: s' => if p c then let '(a, b) := span p s' in (c :: a, b) else ([], s)
  | [] => ([], [])
  end.

Lemma span_app p s : s = (span p s).1 ++ (span p s).2.
Proof. induction s as [|c s IH]; simpl; [done|]. destruct (p c), (span p s); simpl in *; congruence. Qed.
Lemma span_all p s : Forall (λ c, p c = true) (span p s).1.
Proof.
  induction s as [|c s IH]; simpl; [done|]. destruct (p c) eqn:E, (span p s); simpl in *; by constructor.
Qed.
Lemma span_stop p s c r : (span p s).2 = c :: r → p c = false.
Proof.
  induction s as [|d s IH]; simpl; [done|]. destruct (p d) eqn:E; [|by intros [= <- <-]].
  destruct (span p s); simpl in *. done.
Qed.

(** A repetition takes the longest match when the rest then matches. *)
Lemma star_longest p s k r : k (span p s).2 = Some r → star p s k = Some r.
Proof.
  induction s as [|c s IH]; simpl; [done|]. destruct (p c), (span p s) as [a b]; simpl in *; intros H; [|done].
  by rewrite IH.
Qed.
(** It fails when no shorter match helps either. *)
Lemma star_none p s k :
  (∀ a b, s = a ++ b → Forall (λ c, p c = true) a → k b = None) → star p s k = None.
Proof.
  intros H. induction s as [|c s IH]; simpl; [by apply (H [] [])|].
  destruct (p c) eqn:E; [|by apply (H [] (c :: s))]. rewrite IH; [by apply (H [] (c :: s))|].
  intros a b -> Ha. apply (H (c :: a) b); [done|by constructor].
Qed.
Lemma span_prefix p a s : Forall (λ c, p c = true) a → span p (a ++ s) = (a ++ (span p s).1, (span p s).2).
Proof.
  induction 1 as [|c a Hc _ IH]; simpl; [by destruct (span p s)|]. by rewrite Hc, IH.
Qed.
Lemma take_group {A} (a b : list A) : take (length (a ++ b) - length b) (a ++ b) = a.
Proof. rewrite length_app, Nat.add_sub. by rewrite take_app_length. Qed.
End Regex.

(** ** The expression of the source *)

Module Url.
Import Regex.

Definition none_of (l : str) (c : ascii) : bool := negb (existsb (λ d, bool_decide (c = d)) l).
Definition same (d c : ascii) : bool := bool_decide (c = d).
(** [.] matches everything but a line terminator. *)
Definition any : ascii → bool := none_of ["010"%char; "013"%char].

(** The groups of the expression: the scheme with its colon (1, 2), the authority
    with its slashes (3, 4), the path (5), the query with its question mark (6, 7)
    and the fragment with its hash (8, 9). *)
Definition r_scheme : regex := Opt (Group 1 (Seq (Group 2 (Plus (none_of (lit ":/?#")))) (Char (same ":")))).
Definition r_authority : regex :=
  Opt (Group 3 (Seq (Char (same "/")) (Seq (Char (same "/")) (Group 4 (Star (none_of (lit "/?#"))))))).
Definition r_path : regex := Group 5 (Star (none_of (lit "?#"))).
Definition r_query : regex := Opt (Group 6 (Seq (Char (same "?")) (Group 7 (Star (none_of (lit "#")))))).
Definition r_fragment : regex := Opt (Group 8 (Seq (Char (same "#")) (Group 9 (Star any)))).
Definition reg_item : regex := Seq r_scheme (Seq r_authority (Seq r_path (Seq r_query r_fragment))).

Definition is_valid_url (url : str) : bool := bool_decide (is_Some (regex_match reg_item url)).
(** With the result: the groups, none when there is no match. *)
Definition is_valid_url_groups (url : str) : bool * captures :=
  match regex_match reg_item url with Some g => (true, g) | None => (false, ∅) end.

(** ** The components of a URL (RFC 3986, appendix B) *)

Record components := Components {
  scheme : option str;
  authority : option str;
  path : str;
  query : option str;
  fragment : option str;
}.
Definition cut_fragment (s : str) : option str := match s with [] => None | _ :: t => Some t end.
Definition cut_query (s : str) : option str * str :=
  match s with
  | c :: t => if same "?" c then let '(q, r) := span (none_of (lit "#")) t in (Some q, r) else (None, s)
  | [] => (None, [])
  end.
Definition cut_authority (s : str) : option str * str :=
  match s with
  | c :: d :: t =>
    if same "/" c && same "/" d then let '(a, r) := span (none_of (lit "/?#")) t in (Some a, r) else (None, s)
  | _ => (None, s)
  end.
Definition cut_scheme (s : str) : option str * str :=
  match span (none_of (lit ":/?#")) s with
  | (c :: a, d :: r) => if same ":" d then (Some (c :: a), r) else (None, s)
  | _ => (None, s)
  end.
Definition split_url (s : str) : components :=
  let '(sch, s) := cut_scheme s in
  let '(auth, s) := cut_authority s in
  let '(p, s) := span (none_of (lit "?#")) s in
  let '(q, s) := cut_query s in
  Components sch auth p q (cut_fragment s).

(** The text of the components. *)
Definition unsplit (u : components) : str :=
  from_option (λ x, x ++ lit ":") [] (scheme u) ++ from_option (λ x, lit "//" ++ x) [] (authority u) ++ path u ++
  from_option (λ x, lit "?" ++ x) [] (query u) ++ from_option (λ x, lit "#" ++ x) [] (fragment u).

(** What the groups hold. *)
Definition set_group (n : nat) (text : str → str) (o : option str) (caps : captures) : captures :=
  match o with Some x => <[n := text x]> (<[S n := x]> caps) | None => caps end.
Definition groups (whole : str) (u : components) : captures :=
  let g := set_group 1 (λ x, x ++ lit ":") (scheme u) ∅ in
  let g := set_group 3 (λ x, lit "//" ++ x) (authority u) g in
  let g := <[5 := path u]> g in
  let g := set_group 6 (λ x, lit "?" ++ x) (query u) g in
  let g := set_group 8 (λ x, lit "#" ++ x) (fragment u) g in
  <[0 := whole]> g.

(** A line terminator behind the first [#]. *)
Definition broken (s : str) : bool :=
  match (span (none_of (lit "#")) s).2 with _ :: t => negb (forallb any t) | [] => false end.

Lemma broken_prefix a s : Forall (λ c, none_of (lit "#") c = true) a → broken (a ++ s) = broken s.
Proof. intros Ha. unfold broken. by rewrite span_prefix. Qed.
Lemma class_no_hash l a : "#"%char ∈ l → Forall (λ c, none_of l c = true) a →
  Forall (λ c, none_of (lit "#") c = true) a.
Proof.
  intros Hl Ha. eapply list.Forall_impl; [exact Ha|]. intros c Hc. unfold none_of in *; simpl.
  rewrite negb_true_iff, orb_false_r. apply negb_true_iff in Hc. apply bool_decide_eq_false. intros ->.
  assert (existsb (λ d, bool_decide ("#"%char = d)) l = true); [|congruence].
  apply existsb_exists. exists "#"%char. split; [by apply list_elem_of_In|by rewrite bool_decide_true].
Qed.

(** The end of the match. *)
Definition at_end (whole : str) (rest : str) (caps : captures) : option captures :=
  match rest with [] => Some (<[0 := whole]> caps) | _ => None end.
Definition fragment_groups (whole s : str) (caps : captures) : captures :=
  <[0 := whole]> (set_group 8 (λ x, lit "#" ++ x) (cut_fragment s) caps).

Lemma star_end p s f : (∀ c rest, f (c :: rest) = None) → forallb p s = false → star p s f = None.
Proof.
  intros Hf Hs. apply star_none. intros a b -> Ha. destruct b as [|c b]; [|done].
  rewrite app_nil_r in Hs. assert (forallb p a = true); [|congruence].
  apply forallb_forall. intros x Hx. apply (proj1 (list.Forall_forall _ _) Ha). by apply list_elem_of_In.
Qed.
Lemma span_whole p s : forallb p s = true → span p s = (s, []).
Proof. induction s as [|c s IH]; simpl; [done|]. intros [-> Hs]%andb_true_iff. by rewrite IH. Qed.

Lemma fragment_run whole s caps :
  run r_fragment s caps (at_end whole) =
  match s with
  | [] => Some (<[0 := whole]> caps)
  | c :: t => if same "#" c && forallb any t then Some (fragment_groups whole s caps) else None
  end.
Proof.
  destruct s as [|c t]; [done|]. unfold r_fragment. cbn [run]. destruct (same "#" c) eqn:Ec; [|done]. simpl.
  destruct (forallb any t) eqn:Et.
  - erewrite star_longest; [done|]. rewrite span_whole by done. simpl. rewrite Nat.sub_0_r.
    unfold fragment_groups, set_group, cut_fragment. rewrite firstn_all.
    unfold same in Ec. apply bool_decide_eq_true in Ec as ->. done.
  - by rewrite star_end.
Qed.

(** The query and the fragment, at a place where the path stops. *)
Definition stops (s : str) : Prop := match s with [] => True | c :: _ => none_of (lit "?#") c = false end.
#[local] Instance stops_dec s : Decision (stops s).
Proof. destruct s; apply _. Defined.
Definition query_groups (whole s : str) (caps : captures) : captures :=
  let '(q, r) := cut_query s in fragment_groups whole r (set_group 6 (λ x, lit "?" ++ x) q caps).
Lemma query_run whole s caps k :
  (∀ s caps, k s caps = run r_fragment s caps (at_end whole)) → stops s →
  run r_query s caps k = if broken s then None else Some (query_groups whole s caps).
Proof.
  intros Hk. destruct s as [|c t]; [simpl; by rewrite Hk, fragment_run|]. intros Hc.
  unfold r_query. cbn [run]. destruct (same "?" c) eqn:Eq.
  - apply bool_decide_eq_true in Eq as ->. rewrite Hk, fragment_run. simpl.
    assert (broken ("?"%char :: t) = broken t) as -> by (apply (broken_prefix ["?"%char]); by repeat constructor).
    destruct (broken t) eqn:Eb.
    + rewrite star_none; [done|]. intros a b -> Ha. rewrite Hk, fragment_run.
      rewrite broken_prefix in Eb by done. destruct b as [|d b]; [done|].
      destruct (same "#" d) eqn:Ed; [|done]. apply bool_decide_eq_true in Ed as ->.
      unfold broken in Eb. simpl in Eb. by apply negb_true_iff in Eb as ->.
    + unfold broken in Eb. pose proof (span_app (none_of (lit "#")) t) as Et.
      pose proof (span_stop (none_of (lit "#")) t) as Hstop.
      destruct (span (none_of (lit "#")) t) as [q r] eqn:Es; simpl in Et, Eb, Es, Hstop. subst t.
      erewrite star_longest; [done|]. rewrite Es. cbn [fst snd].
      rewrite Hk, fragment_run. unfold query_groups, cut_query. simpl. rewrite Es.
      rewrite take_group. change (S (length (q ++ r))) with (length (("?"%char :: q) ++ r)).
      change ("?"%char :: q ++ r) with (("?"%char :: q) ++ r). rewrite take_group.
      destruct r as [|d r]; [done|]. apply negb_false_iff in Eb. rewrite Eb, andb_true_r.
      specialize (Hstop d r eq_refl). unfold none_of in Hstop. simpl in Hstop. rewrite orb_false_r in Hstop.
      apply negb_false_iff in Hstop. unfold same. by rewrite Hstop.
  - rewrite Hk, fragment_run. unfold query_groups, cut_query. rewrite Eq.
    assert (same "#" c = true) as Eh.
    { unfold stops, none_of in Hc. simpl in Hc. unfold same in *. rewrite Eq in Hc. simpl in Hc.
      by rewrite orb_false_r, negb_false_iff in Hc. }
    rewrite Eh. simpl. unfold broken. simpl. unfold none_of. simpl. unfold same in Eh. rewrite Eh. simpl.
    by destruct (forallb any t).
Qed.
Lemma query_stuck whole s caps k :
  (∀ s caps, k s caps = run r_fragment s caps (at_end whole)) → ¬ stops s → run r_query s caps k = None.
Proof.
  intros Hk. destruct s as [|c t]; [by intros []|]. unfold stops. intros Hc. apply not_false_is_true in Hc.
  unfold none_of in Hc. simpl in Hc. rewrite orb_false_r, negb_true_iff, orb_false_iff in Hc. destruct Hc as [H1 H2].
  unfold r_query. cbn [run]. unfold same at 1. rewrite H1. rewrite Hk, fragment_run. unfold same. by rewrite H2.
Qed.

(** From the path on, and from the authority on. *)
Definition path_groups (whole s : str) (caps : captures) : captures :=
  let '(p, r) := span (none_of (lit "?#")) s in query_groups whole r (<[5 := p]> caps).
Definition authority_groups (whole s : str) (caps : captures) : captures :=
  let '(a, r) := cut_authority s in path_groups whole r (set_group 3 (λ x, lit "//" ++ x) a caps).

Lemma path_run whole s caps k :
  (∀ s caps, k s caps = run r_query s caps (λ s caps, run r_fragment s caps (at_end whole))) →
  run r_path s caps k = if broken s then None else Some (path_groups whole s caps).
Proof.
  intros Hk. unfold r_path. cbn [run]. destruct (broken s) eqn:Eb.
  - apply star_none. intros a b -> Ha. rewrite broken_prefix in Eb by (by eapply class_no_hash; [|exact Ha]; set_solver).
    rewrite Hk. destruct (decide (stops b)) as [Hb|Hb]; [by rewrite (query_run whole), Eb|by rewrite (query_stuck whole)].
  - unfold path_groups. pose proof (span_app (none_of (lit "?#")) s) as Es.
    pose proof (span_all (none_of (lit "?#")) s) as Ha. pose proof (span_stop (none_of (lit "?#")) s) as Hstop.
    destruct (span (none_of (lit "?#")) s) as [q r] eqn:Esp; cbn [fst snd] in *.
    apply star_longest. rewrite Esp. cbn [fst snd]. rewrite Hk, (query_run whole); [|done|].
    + rewrite Es in Eb |- *. rewrite broken_prefix in Eb by (by eapply class_no_hash; [|exact Ha]; set_solver).
      by rewrite Eb, take_group.
    + destruct r as [|c r]; [done|]. by apply (Hstop c r).
Qed.

(** A continuation that accepts what is not broken. *)
Definition accepts (F : str → captures → captures) (k : str → captures → option captures) : Prop :=
  ∀ s caps, k s caps = if broken s then None else Some (F s caps).

Lemma authority_run whole s caps k :
  accepts (path_groups whole) k →
  run r_authority s caps k = if broken s then None else Some (authority_groups whole s caps).
Proof.
  intros Hk. unfold authority_groups. destruct s as [|c [|d t]]; [by simpl; rewrite Hk|simpl; rewrite Hk; by destruct (same "/" c)|].
  unfold r_authority. cbn [run cut_authority]. rewrite Hk.
  destruct (same "/" c) eqn:Ec; [|done]. destruct (same "/" d) eqn:Ed; [|done]. cbn [andb].
  apply bool_decide_eq_true in Ec as ->. apply bool_decide_eq_true in Ed as ->.
  assert (broken ("/"%char :: "/"%char :: t) = broken t) as ->
    by (apply (broken_prefix (lit "//")); by repeat constructor).
  destruct (broken t) eqn:Eb.
  - rewrite star_none; [done|]. intros a b -> Ha. rewrite Hk.
    rewrite broken_prefix in Eb by (by eapply class_no_hash; [|exact Ha]; set_solver). by rewrite Eb.
  - pose proof (span_app (none_of (lit "/?#")) t) as Es. pose proof (span_all (none_of (lit "/?#")) t) as Ha.
    destruct (span (none_of (lit "/?#")) t) as [a r] eqn:Esp; cbn [fst snd] in *.
    erewrite star_longest; [done|]. rewrite Esp. cbn [fst snd]. rewrite Hk.
    rewrite Es in Eb |- *. rewrite broken_prefix in Eb by (by eapply class_no_hash; [|exact Ha]; set_solver).
    rewrite Eb, take_group. unfold set_group. do 4 f_equal.
    apply (take_group ("/"%char :: "/"%char :: a)).
Qed.

(** The scheme is the longest run of its characters, when a colon follows. *)
Lemma plus_run p s (k : str → option captures) :
  (∀ c r, p c = true → k (c :: r) = None) →
  match s with [] => None | c :: s' => if p c then star p s' k else None end =
  match span p s with (c :: a, r) => k r | ([], _) => None end.
Proof.
  intros Hk. destruct s as [|c t]; [done|]. cbn [span]. destruct (p c); [|done].
  destruct (span p t) as [a r] eqn:Es. destruct (k r) eqn:E.
  - apply star_longest. by rewrite Es.
  - apply star_none. intros a' b -> Ha'. destruct b as [|d b].
    + rewrite app_nil_r, span_whole in Es; [by simplify_eq|].
      apply forallb_forall. intros x Hx. apply (proj1 (list.Forall_forall _ _) Ha'). by apply list_elem_of_In.
    + destruct (p d) eqn:Ed; [by apply Hk|]. rewrite span_prefix in Es by done. cbn [span] in Es. rewrite Ed in Es.
      by simplify_eq.
Qed.

Definition all_groups (whole s : str) : captures :=
  let '(sch, r) := cut_scheme s in authority_groups whole r (set_group 1 (λ x, x ++ lit ":") sch ∅).

Lemma scheme_run whole s k :
  accepts (authority_groups whole) k →
  run r_scheme s ∅ k = if broken s then None else Some (all_groups whole s).
Proof.
  intros Hk. unfold r_scheme. cbn [run]. unfold all_groups, cut_scheme. rewrite Hk.
  rewrite plus_run.
  2: { intros c r Hc. unfold same. case_bool_decide as E; [by subst c|done]. }
  pose proof (span_app (none_of (lit ":/?#")) s) as Es. pose proof (span_all (none_of (lit ":/?#")) s) as Ha.
  destruct (span (none_of (lit ":/?#")) s) as [[|c a] r]; cbn [fst snd] in *; [by destruct r|].
  destruct r as [|d r]; [done|]. destruct (same ":" d) eqn:Ed; [|done]. rewrite Hk.
  apply bool_decide_eq_true in Ed as ->.
  assert (broken s = broken r) as ->.
  { rewrite Es, broken_prefix by (by eapply class_no_hash; [|exact Ha]; set_solver).
    apply (broken_prefix [":"%char]). by repeat constructor. }
  destruct (broken r); [done|]. rewrite Es. unfold set_group. do 3 f_equal.
  - change ((c :: a) ++ ":"%char :: r) with ((c :: a) ++ ([":"%char] ++ r)). rewrite (assoc_L (++)). apply take_group.
  - f_equal. apply (take_group (c :: a) (":"%char :: r)).
Qed.

Lemma groups_split whole s : all_groups whole s = groups whole (split_url s).
Proof.
  unfold all_groups, groups, split_url, authority_groups, path_groups, query_groups, fragment_groups.
  destruct (cut_scheme s) as [sch s1], (cut_authority s1) as [auth s2], (span _ s2) as [p s3], (cut_query s3) as [q s4].
  done.
Qed.

Lemma cut_authority_text s : from_option (λ x, lit "//" ++ x) [] (cut_authority s).1 ++ (cut_authority s).2 = s.
Proof.
  destruct s as [|c [|d t]]; [done..|]. cbn [cut_authority]. destruct (same "/" c) eqn:Ec; [|done].
  destruct (same "/" d) eqn:Ed; [|done]. apply bool_decide_eq_true in Ec as ->. apply bool_decide_eq_true in Ed as ->.
  cbn [andb]. rewrite (span_app (none_of (lit "/?#")) t) at 3. by destruct (span (none_of (lit "/?#")) t).
Qed.
Lemma cut_query_text s : from_option (λ x, lit "?" ++ x) [] (cut_query s).1 ++ (cut_query s).2 = s.
Proof.
  destruct s as [|c t]; [done|]. cbn [cut_query]. destruct (same "?" c) eqn:Ec; [|done].
  apply bool_decide_eq_true in Ec as ->. rewrite (span_app (none_of (lit "#")) t) at 3.
  by destruct (span (none_of (lit "#")) t).
Qed.
Lemma cut_scheme_text s : from_option (λ x, x ++ lit ":") [] (cut_scheme s).1 ++ (cut_scheme s).2 = s.
Proof.
  unfold cut_scheme. pose proof (span_app (none_of (lit ":/?#")) s) as Es.
  destruct (span _ s) as [[|c a] [|d r]]; try done. cbn [fst snd] in Es. destruct (same ":" d) eqn:Ed; [|done].
  apply bool_decide_eq_true in Ed as ->. rewrite Es. simpl. by rewrite <-(assoc_L (++)).
Qed.
Lemma query_stop s : stops s → ∀ c r, (cut_query s).2 = c :: r → c = "#"%char.
Proof.
  destruct s as [|d t]; [done|]. unfold stops, cut_query. intros Hs c r.
  destruct (same "?" d) eqn:Ed.
  - pose proof (span_stop (none_of (lit "#")) t c r) as H. destruct (span _ t) as [q s']; cbn [fst snd] in *.
    intros E. specialize (H E). unfold none_of in H. simpl in H. rewrite orb_false_r, negb_false_iff in H.
    by apply bool_decide_eq_true in H.
  - intros [= <- <-]. unfold none_of, same in *. simpl in Hs. rewrite Ed in Hs. simpl in Hs.
    rewrite orb_false_r, negb_false_iff in Hs. by apply bool_decide_eq_true in Hs.
Qed.

(** The components make up the text. *)
Lemma unsplit_split s : unsplit (split_url s) = s.
Proof.
  pose proof (cut_scheme_text s) as E1. unfold split_url. destruct (cut_scheme s) as [sch s1].
  pose proof (cut_authority_text s1) as E2. destruct (cut_authority s1) as [auth s2].
  pose proof (span_app (none_of (lit "?#")) s2) as E3. pose proof (span_stop (none_of (lit "?#")) s2) as Hs.
  destruct (span (none_of (lit "?#")) s2) as [p s3]. pose proof (cut_query_text s3) as E4.
  pose proof (query_stop s3) as Hq. destruct (cut_query s3) as [q s4]. cbn [fst snd] in *. unfold unsplit; simpl.
  assert (from_option (λ x, "#"%char :: x) [] (cut_fragment s4) = s4) as ->.
  { destruct s4 as [|c r]; [done|]. simpl. f_equal. symmetry. apply (Hq) with (r := r); [|done].
    destruct s3 as [|d t]; [done|]. by apply (Hs d t). }
  simpl in *. by rewrite E4, <-E3, E2, E1.
Qed.

Lemma match_url url :
  regex_match reg_item url = if broken url then None else Some (groups url (split_url url)).
Proof.
  rewrite <-groups_split. apply scheme_run. intros s1 c1. apply authority_run. intros s2 c2. by apply path_run.
Qed.

(** C21: [is_valid_url] refuses only a line break behind the first hash; otherwise
    the groups are the components of RFC 3986, found without backtracking: the text
    is their concatenation, and each group holds its component, with and without its
    delimiter, absent when the component is. *)
Theorem url_groups_correct (url : str) :
  is_valid_url_groups url = (if broken url then (false, ∅) else (true, groups url (split_url url))) ∧
  is_valid_url url = negb (broken url) ∧ unsplit (split_url url) = url.
Proof.
  unfold is_valid_url_groups, is_valid_url. rewrite match_url. destruct (broken url); split_and!; try apply unsplit_split; done.
Qed.

(** So every text without a hash is valid. *)
Lemma plain_text_valid s : "#"%char ∉ s → is_valid_url s = true.
Proof.
  intros Hs. unfold is_valid_url. rewrite match_url. unfold broken. rewrite span_whole; [done|]. apply forallb_forall. intros c Hc. unfold none_of; simpl.
  rewrite orb_false_r, bool_decide_eq_false_2; [done|]. intros ->. by apply Hs, list_elem_of_In.
Qed.

Example url_example :
  split_url (lit "http://host/a/b?q#f") =
  Components (Some (lit "http")) (Some (lit "host")) (lit "/a/b") (Some (lit "q")) (Some (lit "f")).
Proof. reflexivity. Qed.
End Url.
