(* ===== verification/Math.v ===== *)
(** * Floating-point comparison and rounding: math.hpp, math.cpp

    Floating-point numbers are those of the IEEE formats, with the arithmetic of
    the Standard Library's [SpecFloat]; [prec] and [emax] select the format. *)

From Stdlib Require Import SpecFloat.
From S2P Require Import Prelude Parse.

Module Math.
Import Parse.

(** ** [float_eq] *)

Inductive fp_class := FP_INFINITE | FP_NAN | FP_ZERO | FP_SUBNORMAL | FP_NORMAL.
#[export] Instance fp_class_eq_dec : EqDecision fp_class.
Proof. solve_decision. Defined.

#[export] Instance spec_float_eq_dec : EqDecision spec_float.
Proof. solve_decision. Defined.

Section format.
Context (prec emax : Z).

Definition fpclassify (x : spec_float) : fp_class :=
  match x with
  | S754_infinity _ => FP_INFINITE
  | S754_nan => FP_NAN
  | S754_zero _ => FP_ZERO
  | S754_finite _ m _ => if (Z.pos (digits2_pos m) =? prec)%Z then FP_NORMAL else FP_SUBNORMAL
  end.
Definition signbit (x : spec_float) : bool :=
  match x with S754_infinity s | S754_zero s | S754_finite s _ _ => s | S754_nan => false end.

(** [float_eq<nan_eq>::eq]. *)
Definition eq (nan_eq : bool) (left right eps : spec_float) : bool :=
  let lcl := fpclassify left in
  if bool_decide (lcl ≠ fpclassify right) then false
  else
    match lcl with
    | FP_INFINITE => eqb (signbit left) (signbit right)
    | FP_NAN => nan_eq
    | FP_ZERO => true
    | _ => SFltb (SFabs (SFsub prec emax left right)) eps
    end.

(** [default_eps]: the double 1e-8, converted to the format. *)
Definition default_eps : spec_float := binary_normalize prec emax 6044629098073146 (-79) false.
(** [operator()]. *)
Definition call (nan_eq : bool) (left right : spec_float) : bool := eq nan_eq left right default_eps.

(** Rounding does not look at the sign. *)
Lemma round_aux_abs s1 s2 m e l :
  SFabs (binary_round_aux prec emax s1 m e l) = SFabs (binary_round_aux prec emax s2 m e l).
Proof.
  unfold binary_round_aux. destruct (shr_fexp _ _ m e l) as [mrs e1]. destruct (shr_fexp _ _ _ e1 _) as [mrs' e2].
  destruct (shr_m mrs'); [done| |done]. by destruct (e2 <=? _)%Z.
Qed.
Lemma normalize_opp m e s :
  SFabs (binary_normalize prec emax (- m) e s) = SFabs (binary_normalize prec emax m e s).
Proof.
  destruct m; simpl; [done|..]; unfold binary_round; destruct (shl_align _ _ _) as [mz ez]; apply round_aux_abs.
Qed.
Lemma sub_abs x y : SFabs (SFsub prec emax x y) = SFabs (SFsub prec emax y x).
Proof.
  destruct x as [sx|sx| |sx mx ex], y as [sy|sy| |sy my ey]; simpl; try done; try (by destruct sx, sy).
  rewrite (Z.min_comm ey ex). rewrite <-normalize_opp. f_equal. f_equal. lia.
Qed.

(** [eq] is symmetric, and reflexive but for not-a-number (which is up to the
    template parameter). *)
Lemma eq_symmetric nan_eq x y eps : eq nan_eq x y eps = eq nan_eq y x eps.
Proof.
  unfold eq. destruct (decide (fpclassify x = fpclassify y)) as [E|E].
  - rewrite !bool_decide_false by congruence. rewrite E, sub_abs. destruct (fpclassify y); try done.
    by destruct (signbit x), (signbit y).
  - by rewrite !bool_decide_true by congruence.
Qed.
Lemma eq_reflexive nan_eq x eps :
  SFltb (S754_zero false) eps = true → eq nan_eq x x eps = (nan_eq || negb (bool_decide (x = S754_nan))).
Proof.
  intros He. unfold eq. rewrite bool_decide_false by (intros H; by apply H).
  destruct x as [s|s| |s m e]; simpl; [by rewrite orb_true_r|by destruct s, nan_eq|by destruct nan_eq|].
  rewrite Z.sub_diag. simpl. rewrite orb_true_r. by repeat case_match.
Qed.
(** Zero equals no other number, however small and whatever the tolerance. *)
Lemma zero_not_near nan_eq s t m e eps : eq nan_eq (S754_zero s) (S754_finite t m e) eps = false.
Proof. unfold eq, fpclassify. rewrite bool_decide_true; [done|]. by destruct (_ =? _)%Z. Qed.
End format.

(** ** Rounding *)

(** A finite number as a fraction with a power of two below. *)
Definition num (x : spec_float) : Z :=
  match x with
  | S754_finite s m e => (if s then -1 else 1) * Z.pos m * 2 ^ Z.max 0 e
  | _ => 0
  end.
Definition den (x : spec_float) : Z :=
  match x with S754_finite _ _ e => 2 ^ Z.max 0 (- e) | _ => 1 end.
Definition finite (x : spec_float) : bool :=
  match x with S754_zero _ | S754_finite _ _ _ => true | _ => false end.

(** [std::llround]: halfway cases away from zero. *)
Definition llround (x : spec_float) : Z :=
  Z.sgn (num x) * ((2 * Z.abs (num x) + den x) / (2 * den x)).
Definition llong : int_type := IntType true 64.
(** [FE_INVALID] is raised when the value is not a [long long]. *)
Definition fe_invalid (x : spec_float) : bool := negb (finite x) || negb (in_range llong (llround x)).

(** [std::floor] and [std::ceil] of a finite number are exact. *)
Definition of_int (s : bool) (z : Z) : spec_float :=
  match z with Z0 => S754_zero s | Zpos p => S754_finite false p 0 | Zneg p => S754_finite true p 0 end.
Definition floor (x : spec_float) : spec_float :=
  if finite x then of_int (signbit x) (num x / den x) else x.
Definition ceil (x : spec_float) : spec_float :=
  if finite x then of_int (signbit x) (- (- num x / den x)) else x.
(** [val_ < 0.0] *)
Definition negative (x : spec_float) : bool := SFltb x (S754_zero false).

Section round.
(** Whether the implementation reports errors by floating-point exceptions, and
    what [llround] returns for a value out of range. *)
Context (errexcept : bool) (unspecified : spec_float → Z).

Definition safe_llround (x : spec_float) : res Z :=
  if errexcept then
    throw_if (fe_invalid x) (RuntimeError " cannot be converted to integer");; Ok (llround x)
  else if finite x then Ok (if fe_invalid x then unspecified x else llround x)
  else Throw (RuntimeError " cannot be converted to integer").

Definition round_val_func (ty : int_type) (x : spec_float) (func : spec_float → spec_float) : res Z :=
  if ty_signed ty then
    value ← safe_llround (func x);
    throw_if (value <? ty_min ty)%Z (OutOfRange "resolve value is less than the result's min");;
    throw_if (ty_max ty <? value)%Z (OutOfRange "resolve value is greater than the result's max");;
    Ok value
  else
    value ← safe_llround (func x);
    throw_if (value <? 0)%Z (InvalidArgument "target is unsigned: value cannot be negative");;
    throw_if (ty_max ty <? value)%Z (OutOfRange "resolve value is greater than the result");;
    Ok value.
Definition round_val (ty : int_type) (x : spec_float) : res Z := round_val_func ty x id.
Definition round_floor (ty : int_type) (x : spec_float) : res Z :=
  round_val_func ty x (λ v, if negative v then ceil v else floor v).
Definition round_ceil (ty : int_type) (x : spec_float) : res Z :=
  round_val_func ty x (λ v, if negative v then floor v else ceil v).
End round.

(** *** Specification *)

(** The integer next to [n / d], the one farther from zero when two are. *)
Definition nearest (n d z : Z) : Prop :=
  if (0 <=? n)%Z then (2 * n - d < 2 * d * z ≤ 2 * n + d)%Z else (2 * n - d ≤ 2 * d * z < 2 * n + d)%Z.
(** The next integer below, or above; towards zero, or away from it. *)
Definition below (n d z : Z) : Prop := (d * z ≤ n < d * z + d)%Z.
Definition above (n d z : Z) : Prop := (d * z - d < n ≤ d * z)%Z.
Definition towards (n d z : Z) : Prop := if (0 <=? n)%Z then below n d z else above n d z.
Definition away (n d z : Z) : Prop := if (0 <=? n)%Z then above n d z else below n d z.

Lemma den_pos x : (0 < den x)%Z.
Proof. destruct x; simpl; lia. Qed.

Lemma div_char a b q : (0 < b → b * q ≤ a < b * q + b → a / b = q)%Z.
Proof. intros Hb Hq. symmetry. apply (Z.div_unique a b q (a - b * q)); lia. Qed.
Lemma div_bounds a b : (0 < b → b * (a / b) ≤ a < b * (a / b) + b)%Z.
Proof. intros Hb. pose proof (Z.div_mod a b). pose proof (Z.mod_pos_bound a b). lia. Qed.

Lemma llround_nearest x z : llround x = z ↔ nearest (num x) (den x) z.
Proof.
  unfold llround, nearest. pose proof (den_pos x) as Hd. set (n := num x). set (d := den x) in *. clearbody n d.
  pose proof (div_bounds (2 * Z.abs n + d) (2 * d) ltac:(lia)) as Hb. set (q := ((2 * Z.abs n + d) / (2 * d))%Z) in *.
  assert (Hq : ∀ y, (2 * d * y ≤ 2 * Z.abs n + d < 2 * d * y + 2 * d → q = y)%Z).
  { intros y Hy. apply div_char; lia. }
  destruct (Z.leb_spec 0 n) as [Hn|Hn].
  - rewrite Z.abs_eq in * by done. assert (Hs : (Z.sgn n * q = q)%Z).
    { destruct (Z.eq_dec n 0%Z) as [E|E]; [|rewrite Z.sgn_pos by lia; lia].
      rewrite E in *. rewrite (Hq 0%Z) by lia. done. }
    rewrite Hs. split; [intros <-; lia|]. intros H. apply Hq. lia.
  - rewrite Z.sgn_neg by lia. assert (Z.abs n = - n)%Z as Ea by lia. rewrite Ea in Hb, Hq.
    clearbody q. split; [intros <-; lia|]. intros H. rewrite (Hq (- z)%Z); lia.
Qed.

Lemma num_of_int s z : num (of_int s z) = z ∧ den (of_int s z) = 1%Z ∧ finite (of_int s z) = true.
Proof.
  destruct z as [|p|p]; [done|..]; cbn [of_int num den finite]; change (2 ^ Z.max 0 0)%Z with 1%Z; split_and!; try done; lia.
Qed.
Lemma llround_of_int s z : llround (of_int s z) = z.
Proof. apply llround_nearest. destruct (num_of_int s z) as (-> & -> & _). unfold nearest. destruct (0 <=? z)%Z; lia. Qed.

Lemma negative_num x : finite x = true → negative x = (num x <? 0)%Z.
Proof.
  destruct x as [s|s| |s m e]; try done. intros _. unfold negative, SFltb, SFcompare. cbn [num].
  pose proof (Z.pow_pos_nonneg 2 (Z.max 0 e) ltac:(lia) ltac:(lia)).
  destruct s; symmetry; [apply Z.ltb_lt|apply Z.ltb_ge]; nia.
Qed.

(** The functions that are applied before rounding make an integer. *)
Definition trunc (v : spec_float) : spec_float := if negative v then ceil v else floor v.
Definition outward (v : spec_float) : spec_float := if negative v then floor v else ceil v.

Lemma below_div n d y : (0 < d)%Z → y = (n / d)%Z ↔ below n d y.
Proof. intros Hd. pose proof (div_bounds n d Hd). unfold below. split; [by intros ->|]. intros. symmetry. by apply div_char. Qed.
Lemma above_div n d y : (0 < d)%Z → y = (- (- n / d))%Z ↔ above n d y.
Proof.
  intros Hd. pose proof (below_div (- n) d (- y) Hd) as H. unfold above, below in *.
  transitivity (- y = - n / d)%Z; [lia|]. rewrite H. lia.
Qed.

Lemma trunc_spec x : finite x = true → ∃ z, (∃ s, trunc x = of_int s z) ∧ ∀ y, y = z ↔ towards (num x) (den x) y.
Proof.
  intros Hf. unfold trunc, ceil, floor, towards. rewrite Hf, negative_num, Z.ltb_antisym by done.
  pose proof (den_pos x) as Hd. destruct (0 <=? num x)%Z; simpl; (eexists; split; [by eexists|]); intros y;
    [by apply below_div|by apply above_div].
Qed.
Lemma outward_spec x : finite x = true → ∃ z, (∃ s, outward x = of_int s z) ∧ ∀ y, y = z ↔ away (num x) (den x) y.
Proof.
  intros Hf. unfold outward, ceil, floor, away. rewrite Hf, negative_num, Z.ltb_antisym by done.
  pose proof (den_pos x) as Hd. destruct (0 <=? num x)%Z; simpl; (eexists; split; [by eexists|]); intros y;
    [by apply above_div|by apply below_div].
Qed.

(** What a value that was rounded to [z] becomes: itself when a [long long] holds it;
    otherwise there is an error when floating-point exceptions report it, and the
    unspecified result [u] of [llround] when they do not. *)
Definition converted (errexcept : bool) (u z v : Z) : Prop :=
  if in_range llong z then v = z else errexcept = false ∧ v = u.

(** The checks of the target type. *)
Lemma range_checks ty z v :
  (if ty_signed ty then
     throw_if (z <? ty_min ty)%Z (OutOfRange "resolve value is less than the result's min");;
     throw_if (ty_max ty <? z)%Z (OutOfRange "resolve value is greater than the result's max");; Ok z
   else
     throw_if (z <? 0)%Z (InvalidArgument "target is unsigned: value cannot be negative");;
     throw_if (ty_max ty <? z)%Z (OutOfRange "resolve value is greater than the result");; Ok z) = Ok v ↔
  v = z ∧ in_range ty v = true.
Proof.
  assert (∀ e1 e2 : exn,
    (throw_if (z <? ty_min ty)%Z e1;; throw_if (ty_max ty <? z)%Z e2;; Ok z) = Ok v ↔ v = z ∧ in_range ty v = true) as H.
  { intros e1 e2. assert (Hz : in_range ty z = negb (z <? ty_min ty)%Z && negb (ty_max ty <? z)%Z)
      by (unfold in_range; by rewrite !Z.leb_antisym).
    munfold_goal. destruct (z <? ty_min ty)%Z; simpl in *; [split; [done|intros [-> ?]; congruence]|].
    destruct (ty_max ty <? z)%Z; simpl in *; [split; [done|intros [-> ?]; congruence]|].
    split; [by intros [= <-]|by intros [-> _]]. }
  destruct (ty_signed ty) eqn:Es; [apply H|]. specialize (H (InvalidArgument "target is unsigned: value cannot be negative")
    (OutOfRange "resolve value is greater than the result")). unfold ty_min in H. by rewrite Es in H.
Qed.

Lemma round_val_func_ok errexcept unspecified ty x func v :
  finite (func x) = true →
  round_val_func errexcept unspecified ty x func = Ok v ↔
  converted errexcept (unspecified (func x)) (llround (func x)) v ∧ in_range ty v = true.
Proof.
  intros Hf. set (z := llround (func x)).
  assert (safe_llround errexcept unspecified (func x) =
    if in_range llong z then Ok z else
    if errexcept then Throw (RuntimeError " cannot be converted to integer") else Ok (unspecified (func x))) as E.
  { unfold safe_llround, fe_invalid. rewrite Hf. fold z. munfold_goal. by destruct errexcept, (in_range llong z). }
  unfold converted. destruct (in_range llong z).
  - rewrite <-(range_checks ty z v). unfold round_val_func. rewrite E. by destruct (ty_signed ty).
  - destruct errexcept.
    + unfold round_val_func. rewrite E. destruct (ty_signed ty); (split; [done|intros [[? _] _]; done]).
    + transitivity (v = unspecified (func x) ∧ in_range ty v = true); [|naive_solver].
      rewrite <-(range_checks ty (unspecified (func x)) v). unfold round_val_func. rewrite E. by destruct (ty_signed ty).
Qed.


(** -2.5 as a [double]: to -3, -2 and -3. *)
Definition minus_two_and_half : spec_float := S754_finite true 5629499534213120 (-51).
End Math.
