(* ===== verification/ParseFloat.v ===== *)
(** * Parsing floating-point numbers: parse.hpp with a floating-point target

    [Nearest] is the rounding of a fraction to a format of [SpecFloat], the nearest
    number with ties to even; [Scan] is the text [std::from_chars] accepts in the
    general format; [ParseFloat] is [parse_view] over them, for the formats of
    [float], [double] and [long double]. *)

From Stdlib Require Import SpecFloat.
From S2P Require Import Prelude Strings Parse Math.

(** ** Rounding a fraction *)

Module Nearest.
Local Open Scope Z_scope.

(** A power of two as a factor of the one side or of the other. *)
Definition up (k : Z) : Z := 2 ^ Z.max 0 k.

Lemma up_pos k : 0 < up k.
Proof. unfold up. apply Z.pow_pos_nonneg; lia. Qed.
Lemma up_add j k : 0 ≤ k → up (j + k) * up (- j) = up j * up (- j - k) * 2 ^ k.
Proof.
  intros Hk. unfold up. destruct (Z.le_gt_cases 0 j).
  - rewrite (Z.max_r 0 (j + k)), (Z.max_l 0 (- j)), (Z.max_r 0 j), (Z.max_l 0 (- j - k)), Z.pow_add_r by lia. ring.
  - rewrite (Z.max_r 0 (- j)), (Z.max_l 0 j) by lia. destruct (Z.le_gt_cases 0 (j + k)).
    + rewrite (Z.max_r 0 (j + k)), (Z.max_l 0 (- j - k)) by lia.
      rewrite <-Z.pow_add_r by lia. replace (j + k + - j) with k by lia. ring.
    + rewrite (Z.max_l 0 (j + k)), (Z.max_r 0 (- j - k)) by lia. rewrite Z.pow_0_r, !Z.mul_1_l, <-Z.pow_add_r by lia.
      f_equal. lia.
Qed.

(** The fraction [n / d] is at least two to the [k]. *)
Definition at_least (k n d : Z) : bool := d * up k <=? n * up (- k).
(** The power of two above a positive fraction. *)
Definition mag (n d : Z) : Z :=
  let k := Z.log2 n - Z.log2 d in if at_least k n d then k + 1 else k.
(** The quotient, to the nearest integer, ties to even. *)
Definition round_div (n d : Z) : Z :=
  let q := n / d in
  let r := n mod d in
  match 2 * r ?= d with
  | Lt => q
  | Gt => q + 1
  | Eq => if Z.even q then q else q + 1
  end.

Section format.
Context (prec emax : Z).

(** The number of the format nearest to the fraction [n / d], with the sign [s]. *)
Definition nearest_float (s : bool) (n d : Z) : spec_float :=
  let e := fexp prec emax (mag n d) in
  let q := round_div (n * up (- e)) (d * up e) in
  if q =? 0 then S754_zero s
  else
    let '(m, e) := if q =? 2 ^ prec then (2 ^ (prec - 1), e + 1) else (q, e) in
    if e <=? emax - prec then S754_finite s (Z.to_pos m) e else S754_infinity s.

Lemma round_div_error n d : 0 < d → 2 * Z.abs (round_div n d * d - n) ≤ d.
Proof using Type.
  intros Hd. unfold round_div. pose proof (Z.div_mod n d ltac:(lia)) as E. pose proof (Z.mod_pos_bound n d Hd) as Hr.
  set (q := n / d) in *. set (r := n mod d) in *. clearbody q r. subst n.
  destruct (Z.compare_spec (2 * r) d); [destruct (Z.even q)|..]; nia.
Qed.

Lemma round_div_exact q d : 0 < d → round_div (q * d) d = q.
Proof using Type.
  intros Hd. unfold round_div. rewrite Z.div_mul, Z.mod_mul by lia. simpl. destruct d; done || lia.
Qed.

Lemma round_div_zero a b : 0 ≤ a → 0 < b → round_div a b = 0 ↔ 2 * a ≤ b.
Proof using Type.
  intros Ha Hb. unfold round_div. pose proof (Z.div_mod a b ltac:(lia)) as E. pose proof (Z.mod_pos_bound a b Hb) as Hr.
  pose proof (Z.div_pos a b Ha Hb) as Hq. set (q := a / b) in *. set (r := a mod b) in *. clearbody q r. subst a.
  destruct (Z.eq_dec q 0) as [->|Hq0]; [destruct (Z.compare_spec (2 * r) b); simpl; lia|].
  destruct (Z.compare_spec (2 * r) b); [destruct (Z.even q)|..]; nia.
Qed.
Lemma round_div_tie k b : 0 < b → Z.even k = false → ∀ a, 2 * a = (2 * k + 1) * b → round_div a b = k + 1.
Proof using Type.
  intros Hb Hk a Ha. unfold round_div. assert (a / b = k) as Hq by (symmetry; apply (Z.div_unique a b k (a - k * b)); nia).
  pose proof (Z.div_mod a b ltac:(lia)) as E. rewrite Hq in *. rewrite Hk.
  destruct (Z.compare_spec (2 * (a mod b)) b); lia.
Qed.

(** The fraction is between the powers of two that [mag] gives. *)
Lemma mag_bounds n d : 0 < n → 0 < d → at_least (mag n d - 1) n d = true ∧ at_least (mag n d) n d = false.
Proof using Type.
  intros Hn Hd. pose proof (Z.log2_spec n Hn) as [Hn1 Hn2]. pose proof (Z.log2_spec d Hd) as [Hd1 Hd2].
  pose proof (Z.log2_nonneg n) as Ln. pose proof (Z.log2_nonneg d) as Ld.
  unfold mag. set (a := Z.log2 n) in *. set (b := Z.log2 d) in *. clearbody a b.
  assert (at_least (a - b + 1) n d = false) as Hup.
  { unfold at_least. apply Z.leb_gt. unfold up. destruct (Z.le_gt_cases 0 (a - b + 1)).
    - rewrite (Z.max_r 0 (a - b + 1)), (Z.max_l 0 (- (a - b + 1))) by lia.
      replace (Z.succ a) with (b + (a - b + 1)) in Hn2 by lia. rewrite Z.pow_add_r in Hn2 by lia.
      pose proof (Z.pow_pos_nonneg 2 (a - b + 1) ltac:(lia) ltac:(lia)). nia.
    - rewrite (Z.max_l 0 (a - b + 1)), (Z.max_r 0 (- (a - b + 1))) by lia.
      replace b with (Z.succ a + - (a - b + 1)) in Hd1 by lia. rewrite Z.pow_add_r in Hd1 by lia.
      pose proof (Z.pow_pos_nonneg 2 (- (a - b + 1)) ltac:(lia) ltac:(lia)). nia. }
  assert (at_least (a - b - 1) n d = true) as Hlow.
  { unfold at_least. apply Z.leb_le. unfold up. destruct (Z.le_gt_cases 0 (a - b - 1)).
    - rewrite (Z.max_r 0 (a - b - 1)), (Z.max_l 0 (- (a - b - 1))) by lia.
      replace a with (Z.succ b + (a - b - 1)) in Hn1 by lia. rewrite Z.pow_add_r in Hn1 by lia.
      pose proof (Z.pow_pos_nonneg 2 (a - b - 1) ltac:(lia) ltac:(lia)). nia.
    - rewrite (Z.max_l 0 (a - b - 1)), (Z.max_r 0 (- (a - b - 1))) by lia.
      replace (Z.succ b) with (a + - (a - b - 1)) in Hd2 by lia. rewrite Z.pow_add_r in Hd2 by lia.
      pose proof (Z.pow_pos_nonneg 2 (- (a - b - 1)) ltac:(lia) ltac:(lia)). nia. }
  destruct (at_least (a - b) n d) eqn:E; [|done]. by replace (a - b + 1 - 1) with (a - b) by lia.
Qed.

Lemma at_least_false k n d : at_least k n d = false → n * up (- k) < d * up k.
Proof using Type. apply Z.leb_gt. Qed.
Lemma at_least_true k n d : at_least k n d = true → d * up k ≤ n * up (- k).
Proof using Type. apply Z.leb_le. Qed.

(** The comparison with a power of two at another scale. *)
Lemma at_least_scaled e k n d : e ≤ k → at_least k n d = (2 ^ (k - e) * (d * up e) <=? n * up (- e)).
Proof using Type.
  intros Hk. pose proof (up_add e (k - e) ltac:(lia)) as E.
  replace (e + (k - e)) with k in E by lia. replace (- e - (k - e)) with (- k) in E by lia.
  pose proof (up_pos (- k)) as H1. pose proof (up_pos (- e)) as H2.
  unfold at_least. apply eq_bool_prop_intro. rewrite !Is_true_true, !Z.leb_le. split; intros H.
  - apply (Z.mul_le_mono_pos_r _ _ (up (- k))); [done|].
    replace (2 ^ (k - e) * (d * up e) * up (- k)) with (d * (up k * up (- e))) by (rewrite E; ring). nia.
  - apply (Z.mul_le_mono_pos_r _ _ (up (- e))); [done|].
    replace (d * up k * up (- e)) with (2 ^ (k - e) * (d * up e) * up (- k)) by (rewrite <-(Z.mul_assoc d), E; ring). nia.
Qed.

Lemma at_least_mono j k n d : 0 < d → j ≤ k → at_least k n d = true → at_least j n d = true.
Proof using Type.
  intros Hd Hj. rewrite (at_least_scaled j k), (at_least_scaled j j), Z.sub_diag by lia. rewrite !Z.leb_le.
  pose proof (Z.pow_pos_nonneg 2 (k - j) ltac:(lia) ltac:(lia)). pose proof (up_pos j). nia.
Qed.

Lemma mag_unique k n d :
  0 < n → 0 < d → at_least (k - 1) n d = true → at_least k n d = false → mag n d = k.
Proof using Type.
  intros Hn Hd H1 H2. destruct (mag_bounds n d Hn Hd) as [H3 H4].
  destruct (Z.lt_trichotomy (mag n d) k) as [H|[H|H]]; [|done|].
  - rewrite (at_least_mono (mag n d) (k - 1)) in H4 by (done || lia). done.
  - rewrite (at_least_mono k (mag n d - 1)) in H2 by (done || lia). done.
Qed.

Lemma digits2_bounds m : 2 ^ (Z.pos (digits2_pos m) - 1) ≤ Z.pos m < 2 ^ Z.pos (digits2_pos m).
Proof using Type.
  induction m as [m IH|m IH|]; cbn [digits2_pos]; [..|done];
    rewrite Pos2Z.inj_succ, Z.sub_1_r, Z.pred_succ, Z.pow_succ_r by lia;
    replace (Z.pos (digits2_pos m)) with (Z.succ (Z.pos (digits2_pos m) - 1)) at 1 by lia;
    rewrite Z.pow_succ_r by lia; lia.
Qed.

(** ** Distances

    in units of the smallest number of the format. *)
Definition units (m e : Z) : Z := m * 2 ^ (e - emin prec emax).
Definition distance (u n d : Z) : Z := Z.abs (u * (d * up (emin prec emax)) - n * up (- emin prec emax)).

(** Distances at the scale of an exponent. *)
Lemma distance_scaled j e n d :
  emin prec emax ≤ e →
  distance (units j e) n d * up e = up (emin prec emax) * 2 ^ (e - emin prec emax) * Z.abs (j * (d * up e) - n * up (- e)).
Proof using Type.
  intros He. set (g := emin prec emax) in *. pose proof (up_add g (e - g) ltac:(lia)) as E.
  replace (g + (e - g)) with e in E by lia. replace (- g - (e - g)) with (- e) in E by lia.
  pose proof (up_pos e). pose proof (up_pos g). pose proof (Z.pow_pos_nonneg 2 (e - g) ltac:(lia) ltac:(lia)).
  unfold distance, units. fold g. rewrite <-(Z.abs_eq (up e)) at 1 by lia.
  rewrite <-(Z.abs_eq (up g * 2 ^ (e - g))) by nia. rewrite <-!Z.abs_mul. f_equal.
  transitivity (up g * 2 ^ (e - g) * (j * (d * up e)) - n * (up e * up (- g))); [ring|]. rewrite E. ring.
Qed.

(** The rounded quotient is as near as any multiple of the same power of two. *)
Lemma rounded_nearest j e n d :
  0 < d → emin prec emax ≤ e →
  distance (units (round_div (n * up (- e)) (d * up e)) e) n d ≤ distance (units j e) n d.
Proof using Type.
  intros Hd He. pose proof (up_pos e) as Hu. pose proof (up_pos (emin prec emax)).
  pose proof (Z.pow_pos_nonneg 2 (e - emin prec emax) ltac:(lia) ltac:(lia)).
  apply (Z.mul_le_mono_pos_r _ _ (up e)); [done|]. rewrite !distance_scaled by done.
  apply Z.mul_le_mono_nonneg_l; [nia|].
  pose proof (round_div_error (n * up (- e)) (d * up e) ltac:(nia)) as Herr.
  set (B := d * up e) in *. set (A := n * up (- e)) in *. set (q := round_div A B) in *. clearbody q.
  assert (0 < B) by (unfold B; nia). clearbody A B.
  destruct (Z.eq_dec j q) as [->|Hj]; [lia|].
  assert (B ≤ Z.abs ((j - q) * B)) by (rewrite Z.abs_mul, (Z.abs_eq B) by lia; nia). lia.
Qed.

(** A number of the format below the binade of the fraction is no nearer than the
    lower end of the binade. *)
Lemma below_binade u e n d :
  0 < d → emin prec emax ≤ e → 0 ≤ u ≤ units 1 e → at_least e n d = true → distance (units 1 e) n d ≤ distance u n d.
Proof using Type.
  intros Hd He Hu Hat. unfold distance. rewrite (at_least_scaled (emin prec emax)) in Hat by done.
  apply Z.leb_le in Hat. unfold units in *. pose proof (up_pos (emin prec emax)). nia.
Qed.

Lemma digits2_le p k : 0 ≤ k → Z.pos p < 2 ^ k → Z.pos (digits2_pos p) ≤ k.
Proof using Type.
  intros Hk Hp. destruct (Z.le_gt_cases (Z.pos (digits2_pos p)) k) as [|H]; [done|].
  pose proof (digits2_bounds p). pose proof (Z.pow_le_mono_r 2 k (Z.pos (digits2_pos p) - 1)). lia.
Qed.
Lemma digits2_ge p k : 0 < k → 2 ^ (k - 1) ≤ Z.pos p → k ≤ Z.pos (digits2_pos p).
Proof using Type.
  intros Hk Hp. destruct (Z.le_gt_cases k (Z.pos (digits2_pos p))) as [|H]; [done|].
  pose proof (digits2_bounds p). pose proof (Z.pow_le_mono_r 2 (Z.pos (digits2_pos p)) (k - 1)). lia.
Qed.

(** The finite numbers of the format, in units. *)
Definition float_units (x : spec_float) : option Z :=
  match x with
  | S754_zero _ => Some 0
  | S754_finite _ m e => Some (units (Z.pos m) e)
  | _ => None
  end.

Context (Hprec : 1 < prec) (Hemax : prec < emax).

(** The exponent of the last bit of a number as large as the fraction. *)
Lemma fexp_mag n d :
  emin prec emax ≤ fexp prec emax (mag n d) ∧ mag n d - prec ≤ fexp prec emax (mag n d) ∧
  (fexp prec emax (mag n d) = mag n d - prec ∨ fexp prec emax (mag n d) = emin prec emax).
Proof using Type. unfold fexp. lia. Qed.

Lemma quotient_bounds n d (e := fexp prec emax (mag n d)) (q := round_div (n * up (- e)) (d * up e)) :
  0 < n → 0 < d → 0 ≤ q ≤ 2 ^ prec ∧ (e = mag n d - prec → 2 ^ (prec - 1) ≤ q).
Proof using Hprec.
  intros Hn Hd. destruct (mag_bounds n d Hn Hd) as [H1 H2]. destruct (fexp_mag n d) as (_ & He & _). fold e in He.
  pose proof (up_pos e) as Hu. pose proof (up_pos (- e)) as Hu'.
  assert (n * up (- e) < 2 ^ prec * (d * up e)) as Hlt.
  { destruct (at_least (e + prec) n d) eqn:E.
    - rewrite (at_least_mono (mag n d) (e + prec)) in H2 by (done || lia). done.
    - rewrite (at_least_scaled e) in E by lia. apply Z.leb_gt in E. by replace (e + prec - e) with prec in E by lia. }
  pose proof (round_div_error (n * up (- e)) (d * up e) ltac:(nia)) as Herr.
  assert (e = mag n d - prec → 2 ^ (prec - 1) * (d * up e) ≤ n * up (- e)) as Hge.
  { intros Ee. rewrite (at_least_scaled e) in H1 by lia. apply Z.leb_le in H1.
    by replace (mag n d - 1 - e) with (prec - 1) in H1 by lia. }
  fold q in Herr. assert (0 < d * up e) as HB by nia. assert (0 < n * up (- e)) as HA by nia.
  set (B := d * up e) in *. set (A := n * up (- e)) in *. clearbody q A B.
  split; [split; nia|]. intros Ee%Hge. nia.
Qed.

(** Every number of the format is at least as far as the quotient. *)
Lemma quotient_nearest n d y v (e := fexp prec emax (mag n d)) (q := round_div (n * up (- e)) (d * up e)) :
  0 < n → 0 < d → valid_binary prec emax y = true → float_units y = Some v →
  distance (units q e) n d ≤ distance v n d.
Proof using Hprec.
  intros Hn Hd Hy Hv. destruct (fexp_mag n d) as (He & _ & He'). fold e in He, He'.
  assert (∀ j, distance (units q e) n d ≤ distance (units j e) n d) as Hj by (intros j; by apply rounded_nearest).
  destruct y as [sy|sy| |sy m2 e2]; simpl in *; simplify_eq; [apply (Hj 0)|].
  unfold bounded, canonical_mantissa in Hy. apply andb_true_iff in Hy as [Hc%Z.eqb_eq _].
  destruct (Z.le_gt_cases e e2) as [Hle|Hgt].
  - replace (units (Z.pos m2) e2) with (units (Z.pos m2 * 2 ^ (e2 - e)) e); [apply Hj|].
    unfold units. rewrite <-Z.mul_assoc, <-Z.pow_add_r by lia. do 2 f_equal. lia.
  - assert (emin prec emax ≤ e2 ∧ Z.pos (digits2_pos m2) + e2 ≤ mag n d - 1 ∧ e = mag n d - prec) as (H1 & H2 & H3).
    { unfold e, fexp in *. lia. }
    etransitivity; [apply (Hj (2 ^ (prec - 1)))|].
    replace (units (2 ^ (prec - 1)) e) with (units 1 (mag n d - 1))
      by (unfold units; rewrite Z.mul_1_l, <-Z.pow_add_r by lia; f_equal; lia).
    apply below_binade; [done|lia| |by apply mag_bounds]. unfold units. rewrite Z.mul_1_l.
    pose proof (Z.pow_pos_nonneg 2 (e2 - emin prec emax) ltac:(lia) ltac:(lia)). pose proof (digits2_bounds m2).
    split; [nia|]. etransitivity; [|apply (Z.pow_le_mono_r 2 (Z.pos (digits2_pos m2) + (e2 - emin prec emax))); lia].
    rewrite Z.pow_add_r by lia. nia.
Qed.

(** A mantissa and an exponent of the rounded quotient are those of the format. *)
Lemma canonical_quotient m e :
  0 < m < 2 ^ prec → emin prec emax ≤ e → (2 ^ (prec - 1) ≤ m ∨ e = emin prec emax) →
  canonical_mantissa prec emax (Z.to_pos m) e = true.
Proof using Hprec.
  intros Hm He Hn. unfold canonical_mantissa, fexp. apply Z.eqb_eq.
  pose proof (digits2_le (Z.to_pos m) prec ltac:(lia) ltac:(lia)).
  destruct Hn as [Hn|Hn]; [|lia]. pose proof (digits2_ge (Z.to_pos m) prec ltac:(lia) ltac:(lia)). lia.
Qed.

(** A number of the format is below two to the [emax]. *)
Lemma units_bound y v :
  valid_binary prec emax y = true → float_units y = Some v →
  v ≤ (2 ^ prec - 1) * 2 ^ (emax - prec - emin prec emax).
Proof using Hprec Hemax.
  intros Hy Hv. pose proof (Z.pow_pos_nonneg 2 prec ltac:(lia) ltac:(lia)).
  assert (emin prec emax ≤ emax - prec) by (unfold emin; lia).
  pose proof (Z.pow_pos_nonneg 2 (emax - prec - emin prec emax) ltac:(lia) ltac:(lia)).
  destruct y as [sy|sy| |sy m2 e2]; simpl in *; simplify_eq; [nia|].
  unfold bounded, canonical_mantissa in Hy. apply andb_true_iff in Hy as [Hc%Z.eqb_eq Hle%Z.leb_le].
  assert (emin prec emax ≤ e2 ∧ Z.pos (digits2_pos m2) ≤ prec) as [He2 Hd2] by (unfold fexp in Hc; lia).
  pose proof (digits2_bounds m2) as Hb. pose proof (Z.pow_le_mono_r 2 (Z.pos (digits2_pos m2)) prec ltac:(lia) Hd2).
  pose proof (Z.pow_le_mono_r 2 (e2 - emin prec emax) (emax - prec - emin prec emax) ltac:(lia) ltac:(lia)).
  pose proof (Z.pow_pos_nonneg 2 (e2 - emin prec emax) ltac:(lia) ltac:(lia)).
  unfold units. nia.
Qed.

(** A fraction that is rounded to a number above the format is above all of them. *)
Lemma overflow_above n d y v (e := fexp prec emax (mag n d)) (q := round_div (n * up (- e)) (d * up e)) :
  0 < n → 0 < d → emax - prec < e ∨ emax - prec ≤ e ∧ q = 2 ^ prec →
  valid_binary prec emax y = true → float_units y = Some v →
  v * (d * up (emin prec emax)) < n * up (- emin prec emax).
Proof using Hprec Hemax.
  intros Hn Hd Hov Hy Hv. pose proof (units_bound y v Hy Hv) as Hub. set (g := emin prec emax) in *.
  assert (g < emax - prec) as Hg by (unfold g, emin; lia).
  destruct (fexp_mag n d) as (_ & _ & Hem). fold e g in Hem. assert (e = mag n d - prec) as He by lia.
  destruct (mag_bounds n d Hn Hd) as [Hat _]. pose proof (up_pos g) as Hu.
  pose proof (Z.pow_pos_nonneg 2 (emax - prec - g) ltac:(lia) ltac:(lia)) as Hp.
  assert (emax ≤ mag n d - 1 → v * (d * up g) < n * up (- g)) as Hbig.
  { intros Hle. apply (at_least_mono emax) in Hat; [|done|done]. rewrite (at_least_scaled g) in Hat by lia.
    apply Z.leb_le in Hat. replace (emax - g) with (prec + (emax - prec - g)) in Hat by lia.
    rewrite Z.pow_add_r in Hat by lia. assert (0 < d * up g) by nia. nia. }
  destruct (Z.eq_dec e (emax - prec)) as [Ee|Ee]; [|apply Hbig; lia]. assert (q = 2 ^ prec) as Hq by lia.
  pose proof (round_div_error (n * up (- e)) (d * up e)) as Herr. pose proof (up_pos e) as Hue.
  specialize (Herr ltac:(nia)). fold q in Herr. rewrite Hq in Herr.
  pose proof (up_add g (e - g) ltac:(lia)) as E. replace (g + (e - g)) with e in E by lia.
  replace (- g - (e - g)) with (- e) in E by lia. rewrite <-Ee in Hub, Hp.
  apply (Z.mul_lt_mono_pos_r (up e)); [done|].
  replace (n * up (- g) * up e) with (up g * 2 ^ (e - g) * (n * up (- e)))
    by (transitivity (n * (up e * up (- g))); [rewrite E|]; ring).
  apply (Z.le_lt_trans _ ((2 ^ prec - 1) * 2 ^ (e - g) * (d * up g) * up e)).
  - apply Z.mul_le_mono_nonneg_r; [lia|]. apply Z.mul_le_mono_nonneg_r; [nia|]. done.
  - replace ((2 ^ prec - 1) * 2 ^ (e - g) * (d * up g) * up e) with (up g * 2 ^ (e - g) * ((2 ^ prec - 1) * (d * up e))) by ring.
    apply Z.mul_lt_mono_pos_l; [nia|]. assert (0 < d * up e) by nia. nia.
Qed.

(** ** Where the format ends *)

(** At most half of the smallest number of the format, and at least half a step above its
    largest: what rounding takes to zero, and to infinity. *)
Definition tiny (n d : Z) : Prop := 2 * (n * up (- emin prec emax)) ≤ d * up (emin prec emax).
Definition huge (n d : Z) : Prop :=
  (2 * 2 ^ prec - 1) * (d * up (emax - prec)) ≤ 2 * (n * up (- (emax - prec))).

(** The quotient is zero exactly for the tiny fractions. *)
Lemma quotient_zero n d (e := fexp prec emax (mag n d)) (q := round_div (n * up (- e)) (d * up e)) :
  0 < n → 0 < d → q = 0 ↔ tiny n d.
Proof using Hprec.
  intros Hn Hd. destruct (quotient_bounds n d Hn Hd) as [_ Hnorm]. destruct (fexp_mag n d) as (He & He1 & He2).
  fold e q in Hnorm, He, He1, He2. pose proof (up_pos e). pose proof (up_pos (- e)).
  assert (q = 0 ↔ 2 * (n * up (- e)) ≤ d * up e) as Hq by (apply round_div_zero; nia).
  destruct (Z.eq_dec e (emin prec emax)) as [Ee|Ee]; [unfold tiny; by rewrite <-Ee|].
  assert (e = mag n d - prec) as Em by lia. pose proof (Z.pow_pos_nonneg 2 (prec - 1) ltac:(lia) ltac:(lia)).
  split; [intros ->; specialize (Hnorm Em); lia|]. unfold tiny. intros Ht. exfalso.
  destruct (mag_bounds n d Hn Hd) as [Hat _]. apply (at_least_mono (emin prec emax)) in Hat; [|done|lia].
  apply at_least_true in Hat. pose proof (up_pos (emin prec emax)). nia.
Qed.

(** The number is above the format exactly for the huge fractions. *)
Lemma quotient_huge n d (e := fexp prec emax (mag n d)) (q := round_div (n * up (- e)) (d * up e)) :
  0 < n → 0 < d → (emax - prec < e ∨ e = emax - prec ∧ q = 2 ^ prec) ↔ huge n d.
Proof using Hprec Hemax.
  intros Hn Hd. destruct (quotient_bounds n d Hn Hd) as [Hq _]. destruct (fexp_mag n d) as (He & He1 & He2).
  destruct (mag_bounds n d Hn Hd) as [Hlow Hhigh].
  assert (emin prec emax < emax - prec) as Hg by (unfold emin; lia). fold e q in Hq, He, He1, He2.
  unfold huge. set (t := emax - prec) in *. pose proof (up_pos t) as Ht. pose proof (up_pos (- t)).
  pose proof (Z.pow_pos_nonneg 2 prec ltac:(lia) ltac:(lia)) as Hp. pose proof (up_pos e) as Hue.
  pose proof (round_div_error (n * up (- e)) (d * up e) ltac:(nia)) as Herr.
  pose proof (λ k Hk, round_div_tie k (d * up e) ltac:(nia) Hk (n * up (- e))) as Htie. fold q in Herr, Htie.
  clearbody q e. destruct (Z.lt_trichotomy t e) as [Hte|[Hte|Hte]]; [|subst e; assert (0 < d * up t) by nia|].
  - split; [intros _|by left]. assert (e = mag n d - prec) as Em by lia.
    apply (at_least_mono (t + prec)) in Hlow; [|done|lia]. rewrite (at_least_scaled t) in Hlow by lia.
    apply Z.leb_le in Hlow. replace (t + prec - t) with prec in Hlow by lia. nia.
  - split; [intros [?|[_ Eq]]; [lia|rewrite Eq in Herr; nia]|]. intros Hh. right. split; [done|].
    destruct (Z.eq_dec q (2 ^ prec)) as [|Hne]; [done|exfalso].
    assert (q = 2 ^ prec - 1 ∧ 2 * (n * up (- t)) = (2 * (2 ^ prec - 1) + 1) * (d * up t)) as [Eq Etie] by nia.
    apply Htie in Etie; [lia|]. rewrite Z.even_sub. replace prec with (Z.succ (prec - 1)) by lia.
    rewrite Z.pow_succ_r, Z.even_mul by lia. done.
  - split; [lia|]. intros Hh. exfalso. destruct (at_least (t + prec - 1) n d) eqn:Ea.
    + rewrite (at_least_mono (mag n d) (t + prec - 1)) in Hhigh by (done || lia). done.
    + rewrite (at_least_scaled t) in Ea by lia. apply Z.leb_gt in Ea.
      assert (2 * 2 ^ (t + prec - 1 - t) = 2 ^ prec) as E2.
      { replace (t + prec - 1 - t) with (prec - 1) by lia. rewrite <-Z.pow_succ_r by lia. f_equal. lia. }
      assert (0 < d * up t) by nia. nia.
Qed.

(** Zero and infinity are given for these and no other fractions. *)
Lemma nearest_float_zero s n d : 0 < n → 0 < d → (∃ s', nearest_float s n d = S754_zero s') ↔ tiny n d.
Proof using Hprec.
  intros Hn Hd. rewrite <-(quotient_zero n d Hn Hd). unfold nearest_float.
  set (q := round_div _ _). clearbody q. destruct (Z.eqb_spec q 0) as [->|Hq]; [split; eauto|].
  split; [|done]. intros [s' H]. by destruct (q =? 2 ^ prec), (_ <=? _).
Qed.
Lemma nearest_float_infinity s n d : 0 < n → 0 < d → (∃ s', nearest_float s n d = S754_infinity s') ↔ huge n d.
Proof using Hprec Hemax.
  intros Hn Hd. rewrite <-(quotient_huge n d Hn Hd). unfold nearest_float.
  pose proof (quotient_bounds n d Hn Hd) as [_ Hnorm]. destruct (fexp_mag n d) as (_ & _ & He2).
  set (e := fexp prec emax (mag n d)) in *. set (q := round_div _ _) in *.
  assert (emin prec emax < emax - prec) as Hg by (unfold emin; lia).
  pose proof (Z.pow_pos_nonneg 2 prec ltac:(lia) ltac:(lia)). pose proof (Z.pow_pos_nonneg 2 (prec - 1) ltac:(lia) ltac:(lia)).
  clearbody q e. destruct (Z.eqb_spec q 0) as [->|Hq0].
  { split; [by intros [? ?]|]. intros [?|[? ?]]; [specialize (Hnorm ltac:(lia)); lia|lia]. }
  destruct (Z.eqb_spec q (2 ^ prec)) as [Hqp|Hqp].
  - destruct (Z.leb_spec (e + 1) (emax - prec)); [split; [by intros [? ?]|lia]|split; [lia|eauto]].
  - destruct (Z.leb_spec e (emax - prec)); [split; [by intros [? ?]|lia]|split; [lia|eauto]].
Qed.

(** The rounding: a number of the format with the sign it was given, none of the
    format nearer to the fraction; or an infinity, when the fraction is above every
    number of the format. *)
Lemma nearest_float_correct s n d (x := nearest_float s n d) :
  0 < n → 0 < d →
  valid_binary prec emax x = true ∧ Math.signbit x = s ∧
  match float_units x with
  | Some u => ∀ y v, valid_binary prec emax y = true → float_units y = Some v → distance u n d ≤ distance v n d
  | None => x = S754_infinity s ∧ ∀ y v, valid_binary prec emax y = true → float_units y = Some v →
      v * (d * up (emin prec emax)) < n * up (- emin prec emax)
  end.
Proof using Hprec Hemax.
  intros Hn Hd. unfold x, nearest_float. destruct (quotient_bounds n d Hn Hd) as [Hq Hnorm].
  destruct (fexp_mag n d) as (He & _ & He').
  pose proof (λ y v, quotient_nearest n d y v Hn Hd) as Hnear. pose proof (λ y v, overflow_above n d y v Hn Hd) as Hover.
  set (e := fexp prec emax (mag n d)) in *. set (q := round_div (n * up (- e)) (d * up e)) in *. clearbody q.
  destruct (Z.eqb_spec q 0) as [->|Hq0]; [done|].
  destruct (Z.eqb_spec q (2 ^ prec)) as [Hqp|Hqp].
  - assert (0 < 2 ^ (prec - 1) < 2 ^ prec) as Hp by (split; [apply Z.pow_pos_nonneg|apply Z.pow_lt_mono_r]; lia).
    destruct (Z.leb_spec (e + 1) (emax - prec)) as [Hle|Hgt].
    + simpl. unfold bounded. rewrite canonical_quotient, (proj2 (Z.leb_le _ _) Hle) by lia. split_and!; [done|done|].
      rewrite Z2Pos.id by lia. replace (units (2 ^ (prec - 1)) (e + 1)) with (units q e); [intros y v; apply (Hnear y v)|].
      unfold units. rewrite Hqp, <-!Z.pow_add_r by lia. f_equal. lia.
    + split_and!; [done|done|]. split; [done|]. intros y v. apply Hover. right. split; [lia|done].
  - destruct (Z.leb_spec e (emax - prec)) as [Hle|Hgt].
    + simpl. unfold bounded. rewrite canonical_quotient, (proj2 (Z.leb_le _ _) Hle) by lia. split_and!; [done|done|].
      rewrite Z2Pos.id by lia. intros y v. apply (Hnear y v).
    + split_and!; [done|done|]. split; [done|]. intros y v. apply Hover. by left.
Qed.

(** A number of the format is rounded to itself. *)
Lemma nearest_float_exact s m e n d :
  bounded prec emax m e = true → 0 < d → n * up (- e) = Z.pos m * (d * up e) → nearest_float s n d = S754_finite s m e.
Proof using Hprec.
  intros Hb Hd Hv. unfold bounded, canonical_mantissa in Hb. apply andb_true_iff in Hb as [Hc%Z.eqb_eq Hle].
  pose proof (digits2_bounds m) as Hm. pose proof (up_pos e). pose proof (up_pos (- e)).
  assert (0 < n) as Hn by nia. set (k := Z.pos (digits2_pos m)) in *.
  assert (k ≤ prec) as Hk by (unfold fexp in Hc; lia).
  assert (mag n d = k + e) as Emag.
  { apply mag_unique; [done|done|..].
    - rewrite (at_least_scaled e) by lia. apply Z.leb_le. rewrite Hv. replace (k + e - 1 - e) with (k - 1) by lia. nia.
    - rewrite (at_least_scaled e) by lia. apply Z.leb_gt. rewrite Hv. replace (k + e - e) with k by lia. nia. }
  unfold nearest_float. rewrite Emag, Hc, Hv, round_div_exact by nia. destruct (Z.eqb_spec (Z.pos m) 0); [done|].
  destruct (Z.eqb_spec (Z.pos m) (2 ^ prec)) as [E|_].
  { pose proof (Z.pow_le_mono_r 2 k prec ltac:(lia) Hk). lia. }
  by rewrite Hle.
Qed.
End format.
End Nearest.

(** ** The accepted text *)

Module Scan.
Import Parse.

(** A character as a lower-case letter. *)
Definition lower (c : ascii) : ascii := if (65 <=? code c)%Z && (code c <=? 90)%Z then chr (code c + 32) else c.
(** What follows a word at the beginning of the text, in any case. *)
Definition after_word (w s : str) : option str :=
  if bool_decide (lower <$> take (length w) s = w) then Some (drop (length w) s) else None.

(** The characters of an [n-char-sequence] and its closing parenthesis. *)
Definition n_char (c : ascii) : bool :=
  is_digit c || ((97 <=? code (lower c))%Z && (code (lower c) <=? 122)%Z) || bool_decide (c = "_"%char).
Fixpoint n_chars (s : str) : option str :=
  match s with
  | c :: s' => if bool_decide (c = ")"%char) then Some s' else if n_char c then n_chars s' else None
  | [] => None
  end.

(** Infinities and not-a-number. *)
Definition scan_special (neg : bool) (s : str) : option (spec_float * str) :=
  match after_word (lit "infinity") s with
  | Some r => Some (S754_infinity neg, r)
  | None =>
    match after_word (lit "inf") s with
    | Some r => Some (S754_infinity neg, r)
    | None =>
      match after_word (lit "nan") s with
      | Some r =>
        match r with
        | c :: r' => if bool_decide (c = "("%char) then Some (S754_nan, default r (n_chars r')) else Some (S754_nan, r)
        | [] => Some (S754_nan, r)
        end
      | None => None
      end
    end
  end.

Definition after_digits (s : str) : str := drop (length (digits s)) s.

(** The exponent: a letter, an optional sign and digits; without digits it is not
    part of the number. *)
Definition is_e (c : ascii) : bool := bool_decide (c = "e"%char) || bool_decide (c = "E"%char).
Definition scan_sign (s : str) : bool * str :=
  match s with
  | c :: s' => if bool_decide (c = "-"%char) then (true, s') else if bool_decide (c = "+"%char) then (false, s') else (false, s)
  | [] => (false, s)
  end.
Definition scan_exponent (s : str) : Z * str :=
  match s with
  | c :: s' =>
    if is_e c then
      let '(neg, t) := scan_sign s' in
      let ds := digits t in
      if View.empty ds then (0%Z, s)
      else ((if neg : bool then - digits_val ds else digits_val ds)%Z, after_digits t)
    else (0%Z, s)
  | [] => (0%Z, s)
  end.

(** Digits with at most one point, then an exponent: the digits before and after the
    point, the exponent and the rest. *)
Definition scan_point (s : str) : str * str :=
  match s with
  | c :: s' => if bool_decide (c = "."%char) then (digits s', after_digits s') else ([], s)
  | [] => ([], s)
  end.
Definition scan_decimal (s : str) : option (str * str * Z * str) :=
  let ip := digits s in
  let '(fp, t) := scan_point (after_digits s) in
  if View.empty (ip ++ fp) then None
  else let '(e, r) := scan_exponent t in Some (ip, fp, e, r).
End Scan.

(** ** [parse_view] with a floating-point target *)

Module ParseFloat.
Import Parse Scan Nearest.

Section format.
Context (prec emax : Z).

(** The digits [ds] times ten to the [e], rounded. *)
Definition decimal (neg : bool) (ds : str) (e : Z) : spec_float :=
  let m := digits_val ds in
  if (m =? 0)%Z then S754_zero neg
  else nearest_float prec emax neg (m * 10 ^ Z.max 0 e) (10 ^ Z.max 0 (- e)).
(** Overflow, or underflow to zero. *)
Definition out_of_range (ds : str) (x : spec_float) : bool :=
  match x with
  | S754_infinity _ => true
  | S754_zero _ => negb (digits_val ds =? 0)%Z
  | _ => false
  end.

(** [std::from_chars] on a floating-point target, [chars_format::general]. *)
Definition std_from_chars_float (s : str) : nat * errc * option spec_float :=
  let '(neg, body) :=
    match s with c :: s' => if bool_decide (c = "-"%char) then (true, s') else (false, s) | [] => (false, s) end in
  match scan_special neg body with
  | Some (x, r) => (length s - length r, EcOk, Some x)
  | None =>
    match scan_decimal body with
    | None => (0, EcInvalidArgument, None)
    | Some (ip, fp, e, r) =>
      let x := decimal neg (ip ++ fp) (e - Z.of_nat (length fp)) in
      if out_of_range (ip ++ fp) x then (length s - length r, EcResultOutOfRange, None)
      else (length s - length r, EcOk, Some x)
    end
  end.
Definition from_chars_float (s : str) : res (nat * errc * option spec_float) := Ok (std_from_chars_float s).
Definition parse_view_float (view : str) : res spec_float :=
  parse_view_with (S754_zero false) from_chars_float view.
End format.

Definition parse_view_f32 := parse_view_float 24 128.
Definition parse_view_f64 := parse_view_float 53 1024.
(** The extended format of x86. *)
Definition parse_view_f80 := parse_view_float 64 16384.

(** The constant 1e-8 of the comparisons of math.hpp. *)
Example default_eps_text : parse_view_f64 (lit "1e-8") = Ok (Math.default_eps 53 1024).
Proof. vm_compute. reflexivity. Qed.

Example parse_examples :
  parse_view_f64 (lit "-1.5e1") = Ok (S754_finite true 8444249301319680 (-49)) ∧
  parse_view_f64 (lit "0.1") = Ok (S754_finite false 7205759403792794 (-56)) ∧
  parse_view_f32 (lit "16777217") = Ok (S754_finite false 8388608 1) ∧
  parse_view_f64 (lit "1e400") = Throw (InvalidArgument "Failed to parse the view") ∧
  parse_view_f64 (lit "1e") = Throw (InvalidArgument "Not the whole view is a number") ∧
  parse_view_f64 (lit "-Infinity") = Ok (S754_infinity true) ∧
  parse_view_f64 (lit ".") = Throw (InvalidArgument "Not the whole view is a number").
Proof. split_and!; vm_compute; reflexivity. Qed.

(** ** Numbers and their text *)

(** A number as it is written: the sign, the digits before the point, those after it
    if there is one, and the exponent with its letter and sign. *)
Record number := Number {
  n_neg : bool; n_int : str; n_frac : option str; n_exp : option (ascii * option bool * str) }.
Definition frac (t : number) : str := default [] (n_frac t).
Definition show_sign (s : option bool) : str :=
  match s with Some true => ["-"%char] | Some false => ["+"%char] | None => [] end.
Definition show_exp (x : option (ascii * option bool * str)) : str :=
  match x with Some (c, sg, ds) => c :: show_sign sg ++ ds | None => [] end.
Definition show_frac (f : option str) : str := match f with Some ds => "."%char :: ds | None => [] end.
Definition show_body (t : number) : str := n_int t ++ show_frac (n_frac t) ++ show_exp (n_exp t).
Definition show (t : number) : str := (if n_neg t then ["-"%char] else []) ++ show_body t.
Definition all_digits (ds : str) : Prop := Forall (λ c, is_digit c = true) ds.
Definition number_ok (t : number) : Prop :=
  all_digits (n_int t) ∧ all_digits (frac t) ∧ n_int t ++ frac t ≠ [] ∧
  match n_exp t with Some (c, _, ds) => is_e c = true ∧ all_digits ds ∧ ds ≠ [] | None => True end.
Definition exp_value (t : number) : Z :=
  match n_exp t with
  | Some (_, sg, ds) => if bool_decide (sg = Some true) then (- digits_val ds)%Z else digits_val ds
  | None => 0%Z
  end.
(** Its value without the sign, as a fraction. *)
Definition ten_exp (t : number) : Z := (exp_value t - Z.of_nat (length (frac t)))%Z.
Definition numerator (t : number) : Z := (digits_val (n_int t ++ frac t) * 10 ^ Z.max 0 (ten_exp t))%Z.
Definition denominator (t : number) : Z := (10 ^ Z.max 0 (- ten_exp t))%Z.

(** ** Scanning what was written *)

(** A text that does not start with a digit. *)
Definition no_digit_first (r : str) : Prop := ∀ c r', r = c :: r' → is_digit c = false.

Lemma digits_app ds r : all_digits ds → no_digit_first r → digits (ds ++ r) = ds.
Proof.
  induction 1 as [|c ds Hc Hds IH]; intros Hr; simpl; [|by rewrite Hc, IH].
  destruct r as [|c r]; simpl; [done|]. by rewrite (Hr c r eq_refl).
Qed.
Lemma after_digits_app ds r : all_digits ds → no_digit_first r → after_digits (ds ++ r) = r.
Proof. intros Hd Hr. unfold after_digits. by rewrite digits_app, drop_app_length. Qed.

Lemma is_e_char c : is_e c = true → c = "e"%char ∨ c = "E"%char.
Proof. unfold is_e. rewrite orb_true_iff, !bool_decide_eq_true. done. Qed.

Lemma show_exp_first x : match x with Some (c, _, ds) => is_e c = true | None => True end → no_digit_first (show_exp x).
Proof. destruct x as [[[c sg] ds]|]; simpl; [|done]. intros [-> | ->]%is_e_char c' r [= <- _]; done. Qed.

Lemma scan_sign_show sg ds : all_digits ds → ds ≠ [] → scan_sign (show_sign sg ++ ds) = (bool_decide (sg = Some true), ds).
Proof.
  intros Hd Hne. destruct sg as [[]|]; simpl; [done|done|]. destruct ds as [|c ds]; [done|]. simpl.
  apply list.Forall_cons in Hd as [Hc _]. rewrite !bool_decide_eq_false_2; [done|by intros ->..].
Qed.

Lemma scan_exponent_show x :
  match x with Some (c, _, ds) => is_e c = true ∧ all_digits ds ∧ ds ≠ [] | None => True end →
  scan_exponent (show_exp x) =
  (match x with Some (_, sg, ds) => if bool_decide (sg = Some true) then (- digits_val ds)%Z else digits_val ds
   | None => 0%Z end, []).
Proof.
  destruct x as [[[c sg] ds]|]; simpl; [|done]. intros (Hc & Hd & Hne). rewrite Hc, scan_sign_show by done.
  pose proof (digits_app ds [] Hd) as E. pose proof (after_digits_app ds [] Hd) as E'. rewrite app_nil_r in E, E'.
  rewrite E, E' by done. by destruct ds.
Qed.

Lemma scan_decimal_show t : number_ok t → scan_decimal (show_body t) = Some (n_int t, frac t, exp_value t, []).
Proof.
  intros (Hi & Hf & Hne & Hx). unfold scan_decimal, show_body.
  assert (no_digit_first (show_exp (n_exp t))) as Hxf by (apply show_exp_first; destruct (n_exp t) as [[[? ?] ?]|]; naive_solver).
  assert (no_digit_first (show_frac (n_frac t) ++ show_exp (n_exp t))) as Hff.
  { destruct (n_frac t); simpl; [|done]. by intros c r [= <- _]. }
  rewrite digits_app, after_digits_app by done. unfold frac in *.
  assert (scan_point (show_frac (n_frac t) ++ show_exp (n_exp t)) = (default [] (n_frac t), show_exp (n_exp t))) as ->.
  { destruct (n_frac t) as [ds|]; simpl in *; [by rewrite digits_app, after_digits_app|].
    destruct (n_exp t) as [[[c sg] ds]|]; simpl; [|done]. destruct Hx as [[-> | ->]%is_e_char _]; done. }
  destruct (n_int t ++ default [] (n_frac t)) eqn:E; [done|]. rewrite scan_exponent_show by done.
  unfold exp_value. done.
Qed.

(** A text that starts like a number is no word. *)
Lemma special_none neg c s : is_digit c = true ∨ c = "."%char → scan_special neg (c :: s) = None.
Proof.
  intros Hc. assert (lower c = c ∧ c ≠ "i"%char ∧ c ≠ "n"%char) as (Hl & Hi & Hn).
  { destruct Hc as [Hc| ->]; [|done]. unfold is_digit in Hc. apply andb_true_iff in Hc as [H1%Z.leb_le H2%Z.leb_le].
    split_and!; [|intros ->; vm_compute in H2; done..]. unfold lower. destruct (Z.leb_spec 65 (code c)); [lia|done]. }
  unfold scan_special, after_word. rewrite !bool_decide_eq_false_2; [done|..];
    simpl; rewrite Hl; intros [= ? _]; congruence.
Qed.

Lemma show_body_first t : number_ok t → ∃ c s, show_body t = c :: s ∧ (is_digit c = true ∨ c = "."%char).
Proof.
  intros (Hi & Hf & Hne & _). unfold show_body. destruct (n_int t) as [|c ds] eqn:E; simpl.
  - unfold frac in *. destruct (n_frac t) as [fs|]; simpl in *; [|done]. eauto.
  - apply list.Forall_cons in Hi as [Hc _]. eauto.
Qed.

Section format.
Context (prec emax : Z).

Lemma from_chars_show t (x := decimal prec emax (n_neg t) (n_int t ++ frac t) (ten_exp t)) :
  number_ok t →
  std_from_chars_float prec emax (show t) =
  if out_of_range (n_int t ++ frac t) x then (length (show t), EcResultOutOfRange, None)
  else (length (show t), EcOk, Some x).
Proof.
  intros Ht. destruct (show_body_first t Ht) as (c & s & Eb & Hc). unfold std_from_chars_float.
  assert (match show t with c :: s' => if bool_decide (c = "-"%char) then (true, s') else (false, show t)
          | [] => (false, show t) end = (n_neg t, show_body t)) as E.
  { unfold show. destruct (n_neg t); simpl; [done|]. rewrite Eb. rewrite bool_decide_eq_false_2; [done|].
    intros ->. by destruct Hc. }
  rewrite E. rewrite Eb at 1. rewrite special_none by done. rewrite scan_decimal_show by done. simpl. fold (ten_exp t).
  change (decimal prec emax (n_neg t) (n_int t ++ frac t) (ten_exp t)) with x. by rewrite Nat.sub_0_r.
Qed.

Lemma show_not_empty t : number_ok t → View.empty (show t) = false.
Proof. intros Ht. destruct (show_body_first t Ht) as (c & s & Eb & _). unfold show. rewrite Eb. by destruct (n_neg t). Qed.

Lemma parse_view_show t (x := decimal prec emax (n_neg t) (n_int t ++ frac t) (ten_exp t)) :
  number_ok t →
  parse_view_float prec emax (show t) =
  if out_of_range (n_int t ++ frac t) x then Throw (InvalidArgument "Failed to parse the view") else Ok x.
Proof.
  intros Ht. unfold parse_view_float, parse_view_with, from_chars_float. munfold_goal.
  rewrite show_not_empty, from_chars_show by done. fold x. by destruct (out_of_range _ x); rewrite Nat.eqb_refl.
Qed.

Lemma denominator_pos t : (0 < denominator t)%Z.
Proof. apply Z.pow_pos_nonneg; lia. Qed.

(** C15: parsing a decimal number with a floating-point target gives the number of the
    format nearest to what is written, with its sign: no number of the format is
    nearer.  It fails, with the error for that, exactly when the number is half a step or
    more above the largest of the format, or is not zero and at most half of the smallest;
    so a number that rounds to infinity or to zero is never returned as another. *)
Theorem parse_float_nearest (t : number) (n := numerator t) (d := denominator t) :
  (1 < prec < emax)%Z → number_ok t →
  match parse_view_float prec emax (show t) with
  | Ok x => (n = 0%Z ∨ ¬ tiny prec emax n d ∧ ¬ huge prec emax n d) ∧
      valid_binary prec emax x = true ∧ Math.signbit x = n_neg t ∧
      ∃ u, float_units prec emax x = Some u ∧
        ∀ y v, valid_binary prec emax y = true → float_units prec emax y = Some v →
          (distance prec emax u n d ≤ distance prec emax v n d)%Z
  | Throw e => e = InvalidArgument "Failed to parse the view" ∧ n ≠ 0%Z ∧ (tiny prec emax n d ∨ huge prec emax n d)
  end.
Proof.
  intros [Hp He] Ht. rewrite parse_view_show by done. pose proof Ht as (Hi & Hf & _).
  assert (0 ≤ digits_val (n_int t ++ frac t))%Z as H0 by (apply digits_val_nonneg, Forall_app; done).
  unfold decimal, out_of_range. destruct (Z.eqb_spec (digits_val (n_int t ++ frac t)) 0) as [E|E]; simpl.
  - assert (n = 0%Z) as Hn by (unfold n, numerator; by rewrite E).
    split_and!; [by left|done|done|]. exists 0%Z. split; [done|]. intros y v _ _. rewrite Hn. unfold distance. lia.
  - assert (0 < n)%Z as Hn.
    { unfold n, numerator. pose proof (Z.pow_pos_nonneg 10 (Z.max 0 (ten_exp t)) ltac:(lia) ltac:(lia)). nia. }
    pose proof (nearest_float_correct prec emax Hp He (n_neg t) n d Hn (denominator_pos t)) as (H1 & H2 & H3).
    pose proof (nearest_float_zero prec emax Hp (n_neg t) n d Hn (denominator_pos t)) as Hz.
    pose proof (nearest_float_infinity prec emax Hp He (n_neg t) n d Hn (denominator_pos t)) as Hinf.
    change (digits_val (n_int t ++ frac t) * 10 ^ Z.max 0 (ten_exp t))%Z with n. change (10 ^ Z.max 0 (- ten_exp t))%Z with d.
    destruct (nearest_float prec emax (n_neg t) n d) as [sx|sx| |sx m e]; simpl in *.
    + split_and!; [done|lia|]. left. apply Hz. eauto.
    + split_and!; [done|lia|]. right. apply Hinf. eauto.
    + by destruct H3.
    + split_and!; [|done|done|eauto]. right. rewrite <-Hz, <-Hinf. naive_solver.
Qed.

(** Every number of the format can be written: a text of its exact value is read as
    that number. *)
Lemma parse_float_exact (t : number) (m : positive) (e : Z) :
  (1 < prec)%Z → number_ok t → bounded prec emax m e = true →
  (numerator t * up (- e) = Z.pos m * (denominator t * up e))%Z →
  parse_view_float prec emax (show t) = Ok (S754_finite (n_neg t) m e).
Proof.
  intros Hp Ht Hb Hv. rewrite parse_view_show by done. unfold decimal.
  destruct (Z.eqb_spec (digits_val (n_int t ++ frac t)) 0) as [E|E].
  - unfold numerator in Hv. rewrite E in Hv. pose proof (denominator_pos t). pose proof (up_pos e). nia.
  - change (digits_val (n_int t ++ frac t) * 10 ^ Z.max 0 (ten_exp t))%Z with (numerator t).
    change (10 ^ Z.max 0 (- ten_exp t))%Z with (denominator t).
    by rewrite (nearest_float_exact prec emax Hp (n_neg t) m e) by (done || apply denominator_pos).
Qed.

(** ** Nothing else is accepted *)

Lemma digits_split s : s = digits s ++ after_digits s.
Proof.
  unfold after_digits. destruct (digits_prefix s) as (r & Hs & _).
  pose proof (f_equal (drop (length (digits s))) Hs) as E. rewrite drop_app_length in E. by rewrite E.
Qed.

Lemma scan_exponent_inv s e r :
  scan_exponent s = (e, r) →
  ∃ x, s = show_exp x ++ r ∧ match x with Some (c, _, ds) => is_e c = true ∧ all_digits ds ∧ ds ≠ [] | None => True end.
Proof.
  unfold scan_exponent. destruct s as [|c s]; [intros [= _ <-]; by exists None|].
  destruct (is_e c) eqn:Hc; [|intros [= _ <-]; by exists None].
  destruct (scan_sign s) as [neg t] eqn:Es. destruct (View.empty (digits t)) eqn:Ed; intros [= _ <-]; [by exists None|].
  assert (∃ sg, s = show_sign sg ++ t) as [sg Hs].
  { unfold scan_sign in Es. destruct s as [|x s]; [by simplify_eq|]. case_bool_decide; simplify_eq; [by exists (Some true)|].
    case_bool_decide; simplify_eq; [by exists (Some false)|by exists None]. }
  exists (Some (c, sg, digits t)). simpl. split; [|split_and!; [done|apply digits_digit|by destruct (digits t)]].
  rewrite <-app_assoc, <-digits_split. by rewrite Hs.
Qed.

Lemma scan_decimal_inv s ip fp e r :
  scan_decimal s = Some (ip, fp, e, r) → ∃ t, number_ok t ∧ n_neg t = false ∧ s = show_body t ++ r.
Proof.
  unfold scan_decimal. destruct (scan_point (after_digits s)) as [fp' t] eqn:Ep.
  destruct (View.empty (digits s ++ fp')) eqn:Ene; [done|]. destruct (scan_exponent t) as [e' r'] eqn:Ex. intros [= <- <- <- <-].
  destruct (scan_exponent_inv _ _ _ Ex) as (x & Ht & Hx).
  assert (∃ f, after_digits s = show_frac f ++ t ∧ default [] f = fp' ∧ all_digits fp') as (f & Hf & Hd & Hfd).
  { unfold scan_point in Ep. assert (all_digits []) as Hnil by constructor.
    destruct (after_digits s) as [|c u]; [simplify_eq; by exists None|].
    case_bool_decide as Hc; simplify_eq; [|by exists None]. exists (Some (digits u)). simpl.
    split_and!; [f_equal; etransitivity; [apply digits_split|congruence]|done|apply digits_digit]. }
  exists (Number false (digits s) f x). split_and!; [|done|].
  - split_and!; simpl; [apply digits_digit|unfold frac; simpl; congruence|unfold frac; simpl; rewrite Hd|done].
    by destruct (digits s ++ fp').
  - unfold show_body; simpl. rewrite <-!app_assoc, <-Ht, <-Hf. apply digits_split.
Qed.

(** The texts of the infinities and of not-a-number. *)
Definition special_text (s : str) : Prop := ∃ neg x, scan_special neg s = Some (x, []).

Lemma parse_float_accepts view x :
  parse_view_float prec emax view = Ok x →
  (∃ t, number_ok t ∧ view = show t) ∨ special_text view ∨ ∃ s, view = "-"%char :: s ∧ special_text s.
Proof.
  unfold parse_view_float, parse_view_with, from_chars_float, std_from_chars_float. munfold_goal.
  destruct view as [|c v]; simpl; [done|].
  set (nb := if bool_decide (c = "-"%char) then (true, v) else (false, c :: v)).
  assert (c :: v = (if fst nb then ["-"%char] else []) ++ snd nb) as Hv
    by (unfold nb; case_bool_decide; subst; done).
  destruct nb as [neg body]; simpl in Hv.
  destruct (scan_special neg body) as [[y r]|] eqn:Es.
  - destruct (S (length v) - length r =? S (length v))%nat eqn:E; simpl; [|done]. intros _. right.
    assert (r = []) as ->. { destruct r; [done|]. apply Nat.eqb_eq in E. simpl in E. lia. }
    destruct neg; simpl in Hv; [right|left]; [|rewrite Hv; by exists false, y].
    exists v. split; [congruence|]. injection Hv as _ ->. by exists true, y.
  - destruct (scan_decimal body) as [[[[ip fp] e] r]|] eqn:Ed; [|simpl; done].
    destruct (scan_decimal_inv _ _ _ _ _ Ed) as (t & Ht & _ & Hb).
    assert ((S (length v) - length r =? S (length v))%nat = true → ∃ t, number_ok t ∧ c :: v = show t) as Hok.
    { intros E. assert (r = []) as -> by (destruct r; [done|]; apply Nat.eqb_eq in E; simpl in E; lia).
      rewrite app_nil_r in Hb. exists (Number neg (n_int t) (n_frac t) (n_exp t)). split; [done|].
      rewrite Hv, Hb. done. }
    destruct (out_of_range _ _); destruct (S (length v) - length r =? S (length v))%nat eqn:E; simpl; try done; [].
    intros _. left. by apply Hok.
Qed.

(** ** Integers *)

(** An integer of at most [prec] bits is a number of the format. *)
Lemma integer_bounded (p : positive) (e := fexp prec emax (Z.pos (digits2_pos p))) :
  (1 < prec < emax)%Z → (Z.pos p < 2 ^ prec)%Z →
  (e ≤ 0)%Z ∧ bounded prec emax (Z.to_pos (Z.pos p * 2 ^ (- e))) e = true.
Proof.
  intros Hf Hp. pose proof (digits2_le p prec ltac:(lia) Hp) as Hk. pose proof (digits2_bounds p) as Hb.
  set (k := Z.pos (digits2_pos p)) in *. assert (e ≤ 0)%Z as He by (unfold e, fexp, emin; lia). split; [done|].
  pose proof (Z.pow_pos_nonneg 2 (- e) ltac:(lia) ltac:(lia)) as H2.
  set (m := Z.to_pos (Z.pos p * 2 ^ (- e))). assert (Z.pos m = Z.pos p * 2 ^ (- e))%Z as Em by (unfold m; rewrite Z2Pos.id; nia).
  assert (Z.pos (digits2_pos m) = k - e)%Z as Ek.
  { assert (0 < k)%Z by (unfold k; lia). apply Z.le_antisymm.
    - apply digits2_le; [lia|]. rewrite Em. replace (k - e)%Z with (k + - e)%Z by lia. rewrite Z.pow_add_r by lia. nia.
    - apply digits2_ge; [lia|]. rewrite Em. replace (k - e - 1)%Z with (k - 1 + - e)%Z by lia.
      rewrite Z.pow_add_r by lia. nia. }
  unfold bounded, canonical_mantissa. rewrite Ek. replace (k - e + e)%Z with k by lia. fold e.
  rewrite Z.eqb_refl. apply Z.leb_le. lia.
Qed.

Lemma print_number z : ∃ t, number_ok t ∧ print_Z z = show t ∧ n_neg t = (z <? 0)%Z ∧ numerator t = Z.abs z ∧ denominator t = 1%Z.
Proof.
  assert (∀ neg y, (0 ≤ y)%Z → ∃ t, number_ok t ∧
    (if neg : bool then ["-"%char] else []) ++ print_nonneg (S (Z.to_nat (Z.log2 y))) y = show t ∧ n_neg t = neg ∧
    numerator t = y ∧ denominator t = 1%Z) as H.
  { intros neg y Hy. destruct (print_nonneg_spec _ y (log2_fuel y Hy)) as (H1 & H2 & H3); [lia|].
    exists (Number neg (print_nonneg (S (Z.to_nat (Z.log2 y))) y) None None).
    unfold number_ok, show, show_body, numerator, denominator, ten_exp, frac. cbn [n_neg n_int n_frac n_exp show_frac show_exp default exp_value].
    rewrite !app_nil_r, H1. split_and!; [done|constructor|done|done|done|done| |done].
    apply Z.mul_1_r. }
  unfold print_Z. destruct (Z.ltb_spec z 0) as [Hz|Hz].
  - destruct (H true (- z)%Z) as (t & ? & E & ? & ? & ?); [lia|]. exists t. split_and!; [done|exact E|done|lia|done].
  - destruct (H false z) as (t & ? & E & ? & ? & ?); [lia|]. exists t. split_and!; [done|exact E|done|lia|done].
Qed.

(** An integer of at most [prec] bits that was printed is read back without loss, and
    rounding it gives the integer. *)
Theorem parse_integer_roundtrip (unspecified : spec_float → Z) (ty : int_type) (z : Z) :
  (1 < prec < emax)%Z → (Z.abs z < 2 ^ prec)%Z → in_range Math.llong z = true → in_range ty z = true →
  ∃ x, parse_view_float prec emax (print_Z z) = Ok x ∧ Math.round_val true unspecified ty x = Ok z.
Proof.
  intros Hf Hz Hl Hr.
  assert (∃ x, parse_view_float prec emax (print_Z z) = Ok x ∧ Math.finite x = true ∧ Math.num x = (z * Math.den x)%Z)
    as (x & Hx & Hfin & Hnum).
  { destruct (print_number z) as (t & Ht & -> & Hneg & Hn & Hd). destruct (Z.eq_dec z 0%Z) as [->|Hz0].
    - exists (S754_zero (n_neg t)). split; [|done]. rewrite parse_view_show by done. unfold decimal.
      assert (digits_val (n_int t ++ frac t) = 0)%Z as E.
      { unfold numerator in Hn. pose proof (Z.pow_pos_nonneg 10 (Z.max 0 (ten_exp t)) ltac:(lia) ltac:(lia)). nia. }
      simpl. rewrite E. simpl. by rewrite E.
    - set (p := Z.to_pos (Z.abs z)). assert (Z.pos p = Z.abs z) as Ep by (unfold p; rewrite Z2Pos.id; lia).
      destruct (integer_bounded p Hf ltac:(lia)) as [He Hb]. set (e := fexp prec emax (Z.pos (digits2_pos p))) in *.
      pose proof (Z.pow_pos_nonneg 2 (- e) ltac:(lia) ltac:(lia)) as H2.
      set (m := Z.to_pos (Z.pos p * 2 ^ (- e))) in *.
      assert (Z.pos m = Z.pos p * 2 ^ (- e))%Z as Em by (unfold m; rewrite Z2Pos.id; nia).
      exists (S754_finite (n_neg t) m e). split_and!; [|done|].
      + apply parse_float_exact; [lia|done|done|]. rewrite Hn, Hd, Em, Ep. unfold up.
        rewrite (Z.max_l 0 e), (Z.max_r 0 (- e)) by lia. ring.
      + cbn [Math.num Math.den]. rewrite (Z.max_l 0 e), (Z.max_r 0 (- e)), Em, Ep, Hneg by lia.
        destruct (Z.ltb_spec z 0); nia. }
  exists x. split; [done|]. unfold Math.round_val. apply (Math.round_val_func_ok true unspecified ty x id z); [done|].
  assert (Math.llround x = z) as E.
  { apply Math.llround_nearest. rewrite Hnum. pose proof (Math.den_pos x).
    unfold Math.nearest. destruct (Z.leb_spec 0 (z * Math.den x)%Z); simpl; nia. }
  unfold Math.converted. simpl. by rewrite E, Hl.
Qed.
End format.

Lemma parse_float_nearest_witness :
  match parse_view_f64 (show (Number true (lit "0") (Some (lit "1")) (Some ("e"%char, Some true, lit "3")))) with
  | Ok x => x = S754_finite true 7378697629483821 (-66) ∧ valid_binary 53 1024 x = true
  | Throw _ => False
  end.
Proof.
  pose proof (parse_float_nearest 53 1024 (Number true (lit "0") (Some (lit "1")) (Some ("e"%char, Some true, lit "3")))
    ltac:(lia) ltac:(by split_and!; repeat constructor)) as H.
  unfold parse_view_f64. destruct (parse_view_float 53 1024 _) as [x|e] eqn:E; [|vm_compute in E; done].
  destruct H as (_ & Hv & _). split; [|exact Hv]. vm_compute in E. by injection E.
Defined.
End ParseFloat.
