(* ===== verification/TimeZone.v ===== *)
(** * The time zone of the C library: c_timezone.hpp, c_timezone.cpp

    The calendar functions of the C library are a parameter; a class states what
    they promise about a zone, given by its offset and its daylight saving flag at
    every instant. *)

From S2P Require Import Prelude.

Module TimeZone.

(** The broken-down time without its flag, and the functions; [mktime] and
    [timegm] take the flag [tm_isdst], and [mktime] also changes it. *)
Class CTime := {
  fields : Type;
  localtime_r : Z → option (fields * Z);
  gmtime_r : Z → option fields;
  timegm : fields → Z → Z;
  mktime : fields → Z → Z * Z;
}.

(** Their documented behaviour in a zone, for the instants in [range]: [timegm]
    inverts [gmtime_r], [localtime_r] shows the clock of the zone, and [mktime] finds
    an instant at which that clock shows the time, if there is one. *)
Class CTimeLaws (C : CTime) (offset dst : Z → Z) (range : Z → Prop) := {
  gmtime_ok : ∀ t, range t → ∃ f, gmtime_r t = Some f ∧ timegm f 0 = t;
  localtime_ok : ∀ t, range t → range (t + offset t)%Z →
    ∃ f, gmtime_r (t + offset t)%Z = Some f ∧ localtime_r t = Some (f, dst t);
  mktime_ok : ∀ s f t, gmtime_r s = Some f → range t → (t + offset t = s)%Z →
    ∃ t', range t' ∧ (t' + offset t' = s)%Z ∧ mktime f (-1) = (t', dst t');
}.

Record c_timezone := Zone { _name : str }.
Definition name (z : c_timezone) : str := _name z.
Definition equal (a b : c_timezone) : bool := bool_decide (name a = name b).
(** [operator<=>], the order of the names by their characters. *)
Fixpoint compare_names (l r : str) : comparison :=
  match l, r with
  | [], [] => Eq
  | [], _ => Lt
  | _, [] => Gt
  | a :: l, b :: r => match (code a ?= code b)%Z with Eq => compare_names l r | c => c end
  end.
Definition compare (a b : c_timezone) : comparison := compare_names (name a) (name b).

Lemma compare_names_spec l r : (compare_names l r = Eq ↔ l = r) ∧ compare_names r l = CompOpp (compare_names l r).
Proof.
  revert r. induction l as [|a l IH]; intros [|b r]; simpl; [done..|].
  rewrite (Z.compare_antisym (code a) (code b)). destruct (code a ?= code b)%Z eqn:E; simpl.
  - apply Z.compare_eq, code_inj in E as <-. destruct (IH r) as [H1 H2]. rewrite H1, H2. split; [|done].
    split; [by intros ->|by intros [= ->]].
  - split; [|done]. split; [done|]. intros [= -> ->]. by rewrite Z.compare_refl in E.
  - split; [|done]. split; [done|]. intros [= -> ->]. by rewrite Z.compare_refl in E.
Qed.
(** The order of zones is total and agrees with [operator==]. *)
Lemma compare_zones a b : (compare a b = Eq ↔ equal a b = true) ∧ compare b a = CompOpp (compare a b).
Proof. unfold compare, equal. rewrite bool_decide_eq_true. apply compare_names_spec. Qed.

(** Times in seconds; the offset in seconds, the saving in minutes. *)
Record sys_info := SysInfo { info_begin : Z; info_end : Z; info_offset : Z; info_save : Z; info_abbrev : str }.
Inductive local_result := unique | nonexistent | ambiguous.
Record local_info := LocalInfo { result : local_result; first : sys_info; second : sys_info }.

Definition _get_sys_info (sys_secs local_secs is_dst : Z) : sys_info :=
  SysInfo sys_secs (sys_secs + 1) (local_secs - sys_secs) (60 * (if (is_dst <? 0)%Z then 0 else is_dst)) [].

Section zone.
Context `{C : CTime}.

Definition to_local_common (utc_seconds : Z) : res (Z * Z) :=
  match localtime_r utc_seconds with
  | None => Throw (NstlException "date cannot be calculated")
  | Some (localtm, ret_isdst) =>
    let local_time_t := timegm localtm 0 in
    throw_if (local_time_t =? -1)%Z (NstlException "epoch cannot be calculated");;
    Ok (local_time_t, ret_isdst)
  end.
Definition to_sys_common (local_seconds : Z) : res (Z * Z) :=
  match gmtime_r local_seconds with
  | None => Throw (NstlException "date cannot be calculated")
  | Some localtm =>
    let '(utc_time_t, isdst) := mktime localtm (-1) in
    throw_if (utc_time_t =? -1)%Z (NstlException "epoch cannot be calculated");;
    Ok (utc_time_t, isdst)
  end.

(** The templates, for a duration of [per] ticks in a second. *)
Section duration.
Context (per : Z).
Definition floor_seconds (tp : Z) : Z := tp / per.

Definition to_sys (tp : Z) : res Z :=
  let local_seconds := floor_seconds tp in
  let local_sub_seconds := (tp - local_seconds * per)%Z in
  r ← to_sys_common local_seconds;
  Ok (fst r * per + local_sub_seconds)%Z.
Definition to_local (tp : Z) : res Z :=
  let utc_seconds := floor_seconds tp in
  let utc_sub_seconds := (tp - utc_seconds * per)%Z in
  r ← to_local_common utc_seconds;
  Ok (fst r * per + utc_sub_seconds)%Z.
Definition get_info_sys (tp : Z) : res sys_info :=
  let sys_secs := floor_seconds tp in
  r ← to_local_common sys_secs;
  Ok (_get_sys_info sys_secs (fst r) (snd r)).
Definition get_info_local (tp : Z) : res local_info :=
  let local_secs := floor_seconds tp in
  r ← to_sys_common local_secs;
  Ok (LocalInfo unique (_get_sys_info (fst r) local_secs (snd r)) (SysInfo 0 0 0 0 [])).
End duration.

Context (offset dst : Z → Z) (range : Z → Prop) {L : CTimeLaws C offset dst range}.

Lemma to_local_seconds t :
  range t → range (t + offset t)%Z →
  to_local_common t =
  if (t + offset t =? -1)%Z then Throw (NstlException "epoch cannot be calculated") else Ok (t + offset t, dst t)%Z.
Proof.
  intros Ht Hl. unfold to_local_common. destruct (localtime_ok t Ht Hl) as (f & Hf & ->).
  destruct (gmtime_ok _ Hl) as (f' & Hf' & Hg). assert (f' = f) as -> by congruence. rewrite Hg. munfold_goal.
  by destruct (_ =? _)%Z.
Qed.

(** The clock shows the time of an instant at no other instant. *)
Definition unambiguous (t : Z) : Prop := ∀ t', range t' → (t' + offset t' = t + offset t)%Z → t' = t.

Lemma to_sys_seconds t :
  range t → range (t + offset t)%Z → unambiguous t →
  to_sys_common (t + offset t) =
  if (t =? -1)%Z then Throw (NstlException "epoch cannot be calculated") else Ok (t, dst t).
Proof.
  intros Ht Hl Hu. unfold to_sys_common. destruct (gmtime_ok _ Hl) as (f & Hf & _). rewrite Hf.
  destruct (mktime_ok _ f t Hf Ht eq_refl) as (t' & Ht' & Ho & ->). rewrite (Hu t' Ht' Ho). munfold_goal.
  by destruct (_ =? _)%Z.
Qed.

(** C23: converting to local time adds the offset of the zone at that second and
    keeps the fraction of a second (also before the epoch), and converting back
    gives the same time point whenever the local time is unambiguous; the infos of
    both directions hold the second, the offset and the saving.  The exception is
    the second before the epoch, in UTC or in local time, which the code takes for
    an error of the C library. *)
Theorem c_timezone_roundtrip (per tp : Z) (t := floor_seconds per tp) :
  (0 < per)%Z → range t → range (t + offset t)%Z → unambiguous t → t ≠ (-1)%Z → (t + offset t)%Z ≠ (-1)%Z →
  to_local per tp = Ok (tp + offset t * per)%Z ∧
  to_sys per (tp + offset t * per) = Ok tp ∧
  get_info_sys per tp = Ok (SysInfo t (t + 1) (offset t) (60 * Z.max 0 (dst t)) []) ∧
  get_info_local per (tp + offset t * per) =
    Ok (LocalInfo unique (SysInfo t (t + 1) (offset t) (60 * Z.max 0 (dst t)) []) (SysInfo 0 0 0 0 [])).
Proof.
  intros Hper Ht Hl Hu H1 H2.
  assert (Hfloor : floor_seconds per (tp + offset t * per) = (t + offset t)%Z)
    by (unfold floor_seconds; rewrite Z.div_add by lia; done).
  assert (Hinfo : ∀ s, (s = t + offset t)%Z → _get_sys_info t s (dst t) =
    SysInfo t (t + 1) (offset t) (60 * Z.max 0 (dst t)) []).
  { intros s ->. unfold _get_sys_info. f_equal; [lia|]. destruct (Z.ltb_spec (dst t) 0); lia. }
  unfold to_local, to_sys, get_info_sys, get_info_local. rewrite Hfloor. fold t.
  rewrite to_local_seconds, to_sys_seconds by done. rewrite !(proj2 (Z.eqb_neq _ _)) by done. munfold_goal.
  rewrite !Hinfo by done. split_and!; [f_equal; lia|f_equal; lia|done|done].
Qed.

(** The second before the epoch of the local clock is refused. *)
Lemma second_before_epoch per tp (t := floor_seconds per tp) :
  range t → range (t + offset t)%Z → (t + offset t = -1)%Z →
  to_local per tp = Throw (NstlException "epoch cannot be calculated").
Proof.
  intros Ht Hl He. unfold to_local. fold t. rewrite to_local_seconds by done. by rewrite He.
Qed.
End zone.

(** A zone one hour ahead, whose broken-down times are the seconds of its clock. *)
#[local] Instance hour_ahead : CTime := {|
  fields := Z;
  localtime_r := λ t, Some ((t + 3600)%Z, 0%Z);
  gmtime_r := λ t, Some t;
  timegm := λ f _, f;
  mktime := λ f _, ((f - 3600)%Z, 0%Z);
|}.
#[local] Instance hour_ahead_laws : CTimeLaws hour_ahead (λ _, 3600%Z) (λ _, 0%Z) (λ _, True).
Proof.
  constructor; simpl.
  - intros t _. by exists t.
  - intros t _ _. eauto.
  - intros s f t [= <-] _ <-. exists t. split_and!; [done|done|]. f_equal. lia.
Qed.

Lemma c_timezone_roundtrip_witness :
  to_local 1000 (-1500) = Ok 3598500%Z ∧ to_sys 1000 3598500 = Ok (-1500)%Z.
Proof.
  destruct (c_timezone_roundtrip (λ _, 3600%Z) (λ _, 0%Z) (λ _, True) (L := hour_ahead_laws) 1000 (-1500))
    as (H1 & H2 & _); [lia|done|done| |by vm_compute|by vm_compute|].
  - intros t' _ Ht. lia.
  - split; [exact H1|exact H2].
Defined.
End TimeZone.
