(* ===== verification/RoBuffer.v ===== *)
(** * The read-only stream buffer: ro_buffer.hpp

    The get area of [std::basic_streambuf] over memory that belongs to somebody
    else, the overridden virtual functions, the public functions of the base class
    that end in them, and [std::getline] on a stream over the buffer. *)

From S2P Require Import Prelude.

Module RoBuffer.

(** The memory between [eback] and [egptr], and [gptr]. *)
Record ro_buffer := Buffer { area : str; gptr : nat }.

(** The constructor from a pointer (null, or to characters) and a size. *)
Definition make (ptr : option str) (size : nat) : res ro_buffer :=
  throw_if (bool_decide (ptr = None) && (0 <? size)%nat) (NstlException "nullptr with non-null size (");;
  match ptr with
  | None => Ok (Buffer [] 0)
  | Some p =>
    if (length p <? size)%nat then Throw (UndefinedBehaviour "size behind the end of the memory")
    else Ok (Buffer (take size p) 0)
  end.
Definition make_view (v : str) : res ro_buffer := make (Some v) (length v).

Definition readBytes (b : ro_buffer) : nat := gptr b.
Definition content (b : ro_buffer) : str := area b.
Definition swap (a b : ro_buffer) : ro_buffer * ro_buffer := (b, a).

(** The overridden functions; [None] is [traits_type::eof()]. *)
Definition overflow (c : option ascii) : option ascii := None.
Definition sync : Z := -1.
Definition underflow : option ascii := None.
Definition pbackfail (c : option ascii) : option ascii := None.

(** The public functions of the base class.  The put area is empty. *)
Definition set_gptr (n : nat) (b : ro_buffer) : ro_buffer := Buffer (area b) n.
Definition sgetc (b : ro_buffer) : option ascii :=
  match area b !! gptr b with Some c => Some c | None => underflow end.
Definition sbumpc (b : ro_buffer) : ro_buffer * option ascii :=
  match area b !! gptr b with Some c => (set_gptr (S (gptr b)) b, Some c) | None => (b, underflow) end.
Definition snextc (b : ro_buffer) : ro_buffer * option ascii :=
  match sbumpc b with (b, None) => (b, None) | (b, Some _) => (b, sgetc b) end.
(** [xsgetn]: what is in the area, then [uflow]. *)
Fixpoint sgetn (n : nat) (b : ro_buffer) : ro_buffer * str :=
  match n with
  | O => (b, [])
  | S n =>
    match sbumpc b with
    | (b, None) => (b, [])
    | (b, Some c) => let '(b, s) := sgetn n b in (b, c :: s)
    end
  end.
Definition sputbackc (c : ascii) (b : ro_buffer) : ro_buffer * option ascii :=
  match gptr b with
  | S n => if bool_decide (area b !! n = Some c) then (set_gptr n b, Some c) else (b, pbackfail (Some c))
  | O => (b, pbackfail (Some c))
  end.
Definition sungetc (b : ro_buffer) : ro_buffer * option ascii :=
  match gptr b with S n => (set_gptr n b, area b !! n) | O => (b, pbackfail None) end.
Definition sputc (c : ascii) : option ascii := overflow (Some c).
(** [xsputn] stops at the first [overflow]. *)
Definition sputn (s : str) : nat :=
  match s with [] => 0 | c :: _ => match sputc c with Some _ => 1 | None => 0 end end.

(** [std::getline] on a stream whose flags are [good]: the line, and the flags. *)
Fixpoint getline_loop (fuel : nat) (c : option ascii) (b : ro_buffer) (line : str) : ro_buffer * str * bool :=
  match fuel with
  | O => (b, line, true)
  | S fuel =>
    match c with
    | None => (b, line, true)
    | Some c =>
      if decide (c = "010"%char) then ((sbumpc b).1, line, false)
      else let '(b, c') := snextc b in getline_loop fuel c' b (line ++ [c])
    end
  end.
Record stream := Stream { rdbuf : ro_buffer; eofbit : bool }.
Definition stream_getline (iss : stream) : option str * stream :=
  if eofbit iss then (None, iss)
  else
    let b := rdbuf iss in
    let '(b', line, eof) := getline_loop (S (length (area b))) (sgetc b) b [] in
    if eof && bool_decide (line = []) then (None, Stream b' true) else (Some line, Stream b' eof).

(** What a program does with the buffer and a stream over it, and what it gets back. *)
Inductive op :=
| Sgetc | Sbumpc | Snextc | Sgetn (n : nat) | Sputbackc (c : ascii) | Sungetc | Sputc (c : ascii) | Sputn (s : str)
| Sync | Getline.
Inductive answer := Char (c : option ascii) | Text (s : str) | Number (z : Z) | Line (l : option str).

Definition on_buffer {A} (f : ro_buffer → ro_buffer * A) (r : A → answer) (iss : stream) : stream * answer :=
  let '(b, a) := f (rdbuf iss) in (Stream b (eofbit iss), r a).
Definition exec (o : op) (iss : stream) : stream * answer :=
  match o with
  | Sgetc => (iss, Char (sgetc (rdbuf iss)))
  | Sbumpc => on_buffer sbumpc Char iss
  | Snextc => on_buffer snextc Char iss
  | Sgetn n => on_buffer (sgetn n) Text iss
  | Sputbackc c => on_buffer (sputbackc c) Char iss
  | Sungetc => on_buffer sungetc Char iss
  | Sputc c => (iss, Char (sputc c))
  | Sputn s => (iss, Number (Z.of_nat (sputn s)))
  | Sync => (iss, Number sync)
  | Getline => let '(l, iss) := stream_getline iss in (iss, Line l)
  end.
Fixpoint run (l : list op) (iss : stream) : stream * list answer :=
  match l with
  | [] => (iss, [])
  | o :: l => let '(iss, a) := exec o iss in let '(iss, r) := run l iss in (iss, a :: r)
  end.

(** ** A reader of a text

    What was read and what is left, and whether the end was met: nothing is ever
    written; going back is possible over what was read, with the character that is there. *)
Record reader := Reader { past : str; left : str; ended : bool }.
Definition advance (n : nat) (r : reader) : reader := Reader (past r ++ take n (left r)) (drop n (left r)) (ended r).
Definition back (c : ascii) (r : reader) : reader := Reader (removelast (past r)) (c :: left r) (ended r).
Definition read_line (r : reader) : reader * option str :=
  let '(l, iss) := getline (IStream (left r) (ended r)) in
  (Reader (past r ++ take (length (left r) - length (is_rest iss)) (left r)) (is_rest iss) (is_eof iss), l).
Definition expected (o : op) (r : reader) : reader * answer :=
  match o with
  | Sgetc => (r, Char (head (left r)))
  | Sbumpc => (advance 1 r, Char (head (left r)))
  | Snextc => (advance 1 r, Char (left r !! 1))
  | Sgetn n => (advance n r, Text (take n (left r)))
  | Sputbackc c => if decide (list.last (past r) = Some c) then (back c r, Char (Some c)) else (r, Char None)
  | Sungetc => match list.last (past r) with Some c => (back c r, Char (Some c)) | None => (r, Char None) end
  | Sputc _ => (r, Char None)
  | Sputn _ => (r, Number 0)
  | Sync => (r, Number (-1))
  | Getline => let '(r, l) := read_line r in (r, Line l)
  end.
Fixpoint expected_run (l : list op) (r : reader) : reader * list answer :=
  match l with
  | [] => (r, [])
  | o :: l => let '(r, a) := expected o r in let '(r, s) := expected_run l r in (r, a :: s)
  end.

(** ** What is left to read *)

Definition rest (b : ro_buffer) : str := drop (gptr b) (area b).
Definition inside (b : ro_buffer) : Prop := gptr b ≤ length (area b).

Lemma rest_lookup b : area b !! gptr b = head (rest b).
Proof. unfold rest. rewrite <-(Nat.add_0_r (gptr b)) at 1. rewrite <-lookup_drop. by destruct (drop _ _). Qed.
Lemma rest_cons b c r : rest b = c :: r →
  sgetc b = Some c ∧ sbumpc b = (set_gptr (S (gptr b)) b, Some c) ∧ rest (set_gptr (S (gptr b)) b) = r ∧
  inside (set_gptr (S (gptr b)) b).
Proof.
  intros Hr. unfold sgetc, sbumpc. rewrite rest_lookup, Hr. split_and!; [done|done|..].
  - unfold rest in *; simpl. replace (S (gptr b)) with (gptr b + 1) by lia. by rewrite <-drop_drop, Hr.
  - unfold inside; simpl. assert (length (rest b) = S (length r)) by by rewrite Hr. unfold rest in *.
    rewrite length_drop in *. lia.
Qed.
Lemma rest_nil b : rest b = [] → sgetc b = None ∧ sbumpc b = (b, None).
Proof. intros Hr. unfold sgetc, sbumpc. by rewrite rest_lookup, Hr. Qed.

(** Reading a block gives the next characters, as many as there are. *)
Lemma sgetn_take n b : inside b →
  (sgetn n b).2 = take n (rest b) ∧ rest (sgetn n b).1 = drop n (rest b) ∧
  area (sgetn n b).1 = area b ∧ inside (sgetn n b).1.
Proof.
  revert b. induction n as [|n IH]; intros b Hb; [done|]. cbn [sgetn]. destruct (rest b) as [|c r] eqn:Er.
  - destruct (rest_nil b Er) as [_ ->]. done.
  - destruct (rest_cons b c r Er) as (_ & -> & Hr & Hi). destruct (IH _ Hi) as (H1 & H2 & H3 & H4).
    destruct (sgetn n _) as [b' s]; simpl in *. rewrite H1, H2, Hr. done.
Qed.

Lemma getline_loop_line fuel b line :
  length (rest b) < fuel → inside b →
  let '(l, nl, r) := take_line (rest b) in
  ∃ b', getline_loop fuel (sgetc b) b line = (b', line ++ l, negb nl) ∧ rest b' = r ∧ area b' = area b ∧ inside b'.
Proof.
  revert b line. induction fuel as [|fuel IH]; intros b line Hf Hi; [lia|]. cbn [getline_loop].
  destruct (rest b) as [|c r] eqn:Er; simpl.
  - destruct (rest_nil b Er) as [-> _]. exists b. by rewrite app_nil_r.
  - destruct (rest_cons b c r Er) as (-> & Hb & Hr & Hi'). unfold snextc. rewrite Hb.
    destruct (decide (c = "010"%char)) as [->|Hc].
    + eexists. split_and!; [by rewrite app_nil_r|done|done|done].
    + specialize (IH (set_gptr (S (gptr b)) b) (line ++ [c])). rewrite Hr in IH. simpl in Hf.
      specialize (IH ltac:(lia) Hi'). destruct (take_line r) as [[l nl] r'] eqn:El.
      destruct IH as (b' & -> & H1 & H2 & H3). exists b'. by rewrite <-(assoc_L (++)).
Qed.

(** No operation changes the memory. *)
Lemma exec_area o iss : area (rdbuf (exec o iss).1) = area (rdbuf iss).
Proof.
  destruct o as [| | |n|c| |c|s| |]; simpl; try done; unfold on_buffer.
  - unfold sbumpc. by destruct (area _ !! _).
  - unfold snextc, sbumpc. by destruct (area _ !! _).
  - set (b := rdbuf iss). clearbody b. assert (area (sgetn n b).1 = area b) as H.
    { revert b. induction n as [|n IH]; intros b; [done|]. cbn [sgetn]. unfold sbumpc. destruct (area b !! _); [|done].
      specialize (IH (set_gptr (S (gptr b)) b)). by destruct (sgetn n _). }
    by destruct (sgetn n b).
  - unfold sputbackc. destruct (gptr _); [done|]. by destruct (bool_decide _).
  - unfold sungetc. by destruct (gptr _).
  - unfold stream_getline. destruct (eofbit iss); [done|].
    assert (∀ fuel c b line, area (getline_loop fuel c b line).1.1 = area b) as H.
    { induction fuel as [|fuel IH]; intros c b line; [done|]. cbn [getline_loop]. destruct c as [c|]; [|done].
      case_decide; [unfold sbumpc; by destruct (area b !! _)|].
      unfold snextc, sbumpc. destruct (area b !! _); simpl; by rewrite IH. }
    specialize (H (S (length (area (rdbuf iss)))) (sgetc (rdbuf iss)) (rdbuf iss) []).
    destruct (getline_loop _ _ _ _) as [[b' line] eof]. simpl in *. by destruct (_ && _).
Qed.

#[local] Arguments getline_loop : simpl never.

Definition string_stream (iss : stream) : istream := IStream (rest (rdbuf iss)) (eofbit iss).

Lemma take_line_end s : (take_line s).1.2 = false → (take_line s).2 = [].
Proof.
  induction s as [|c s IH]; simpl; [done|]. destruct (decide _); [done|]. by destruct (take_line s) as [[l nl] r].
Qed.

Lemma stream_getline_same iss :
  inside (rdbuf iss) →
  getline (string_stream iss) = ((stream_getline iss).1, string_stream (stream_getline iss).2) ∧
  area (rdbuf (stream_getline iss).2) = area (rdbuf iss) ∧ inside (rdbuf (stream_getline iss).2).
Proof.
  intros Hi. destruct iss as [b eof]. unfold getline, stream_getline, string_stream in *; simpl in *.
  destruct eof; simpl; [done|]. assert (Hlen : length (rest b) < S (length (area b))).
  { unfold rest. rewrite length_drop. lia. }
  pose proof (getline_loop_line _ b [] Hlen Hi) as H. pose proof (take_line_end (rest b)) as He.
  destruct (take_line (rest b)) as [[l nl] r]. destruct H as (b' & -> & H1 & H2 & H3). simpl in *.
  destruct nl; simpl; [by destruct l; subst|]. rewrite He in H1 |- * by done.
  destruct l as [|c l]; simpl; [by rewrite H1|]. by rewrite H1.
Qed.

Lemma take_line_shorter s : length (take_line s).2 ≤ length s.
Proof.
  induction s as [|c s IH]; simpl; [done|]. case_decide; simpl; [lia|]. destruct (take_line s) as [[l nl] r]. simpl in *. lia.
Qed.
(** The stream is at the place of the reader. *)
Definition at_place (iss : stream) (r : reader) : Prop :=
  area (rdbuf iss) = past r ++ left r ∧ gptr (rdbuf iss) = length (past r) ∧ eofbit iss = ended r.

Lemma at_place_rest iss r : at_place iss r → rest (rdbuf iss) = left r ∧ inside (rdbuf iss).
Proof.
  intros (Ha & Hg & _). unfold rest, inside. rewrite Ha, Hg, drop_app_length, length_app. split; [done|lia].
Qed.
(** A buffer over the same text with [r] left to read. *)
Lemma moved_to b b' r :
  area b = past r ++ left r → area b' = area b → inside b' → length (rest b') ≤ length (left r) →
  rest b' = drop (length (left r) - length (rest b')) (left r) ∧
  area b' = (past r ++ take (length (left r) - length (rest b')) (left r)) ++ rest b' ∧
  gptr b' = length (past r ++ take (length (left r) - length (rest b')) (left r)).
Proof.
  intros Ha Hb Hi Hl. unfold rest, inside in *. rewrite Hb, Ha in *.
  pose proof (length_drop (past r ++ left r) (gptr b')) as Hd. rewrite length_app in Hd, Hi.
  assert (gptr b' = length (past r) + (length (left r) - length (drop (gptr b') (past r ++ left r)))) as Hg by lia.
  set (n := length (left r) - _) in *. rewrite Hg at 1 2. rewrite <-drop_drop, drop_app_length.
  rewrite <-(assoc_L (++)), take_drop, length_app, length_take_le by lia. done.
Qed.

Lemma past_last r : list.last (past r) = None ∧ past r = [] ∨
  ∃ c, list.last (past r) = Some c ∧ past r = removelast (past r) ++ [c].
Proof.
  destruct (past r) as [|c l _] eqn:E using rev_ind; [by left|right]. exists c. by rewrite last_snoc, removelast_last.
Qed.

(** Going back over the last character that was read. *)
Lemma at_place_back iss r c :
  at_place iss r → past r = removelast (past r) ++ [c] →
  ∃ n, gptr (rdbuf iss) = S n ∧ area (rdbuf iss) !! n = Some c ∧
    at_place (Stream (set_gptr n (rdbuf iss)) (eofbit iss)) (back c r).
Proof.
  intros (Ha & Hg & He) Hp. unfold at_place, back. simpl. set (p := removelast (past r)) in *. clearbody p.
  rewrite Hp in Ha, Hg. rewrite length_app in Hg. simpl in Hg. rewrite <-(assoc_L (++)) in Ha. simpl in Ha.
  exists (length p). split_and!; [lia| |done|done|done]. rewrite Ha. by rewrite lookup_app_r, Nat.sub_diag.
Qed.

Lemma sbumpc_place iss r : at_place iss r →
  let '(b, c) := sbumpc (rdbuf iss) in
  c = head (left r) ∧ at_place (Stream b (eofbit iss)) (advance 1 r) ∧ sgetc b = head (drop 1 (left r)).
Proof.
  intros Hp. destruct (at_place_rest _ _ Hp) as [Hr _], Hp as (Ha & Hg & He). destruct (left r) as [|x l] eqn:El.
  - destruct (rest_nil _ Hr) as [E ->]. split_and!; [done| |done]. split_and!; simpl; rewrite ?El, ?app_nil_r; try done.
    by rewrite app_nil_r in Ha.
  - destruct (rest_cons _ _ _ Hr) as (_ & -> & Hr' & _). split_and!; [done| |].
    + split_and!; simpl; rewrite ?El; [by rewrite <-(assoc_L (++))|rewrite length_app; simpl; lia|done].
    + unfold sgetc. rewrite rest_lookup, Hr'. simpl. rewrite drop_0. by destruct l.
Qed.

Lemma exec_expected o iss r :
  at_place iss r → at_place (exec o iss).1 (expected o r).1 ∧ (exec o iss).2 = (expected o r).2.
Proof.
  intros Hp. destruct (at_place_rest _ _ Hp) as [Hr Hi]. destruct o as [| | |n|c| |c|s| |]; simpl.
  - split; [done|]. unfold sgetc. rewrite rest_lookup, Hr. by destruct (left r).
  - pose proof (sbumpc_place iss r Hp) as H. unfold on_buffer. destruct (sbumpc _) as [b c].
    destruct H as (-> & H & _). done.
  - pose proof (sbumpc_place iss r Hp) as H. unfold on_buffer, snextc. destruct (sbumpc _) as [b c].
    destruct H as (Hc & H & Hn). destruct (left r) as [|x l]; simpl in *; subst c; [done|].
    split; [done|]. rewrite Hn, drop_0. by destruct l.
  - unfold on_buffer. destruct (sgetn_take n _ Hi) as (H1 & H2 & H3 & H4). destruct (sgetn n _) as [b t]; simpl in *.
    rewrite Hr in H1, H2. split; [|by rewrite H1]. destruct Hp as (Ha & _ & He).
    destruct (moved_to _ b r Ha H3 H4) as (_ & K1 & K2); [rewrite H2, length_drop; lia|].
    assert (take (length (left r) - length (rest b)) (left r) = take n (left r)) as E.
    { rewrite H2, length_drop. destruct (Nat.le_ge_cases n (length (left r))).
      - f_equal. lia.
      - by rewrite !take_ge by lia. }
    rewrite E in K1, K2. by split_and!; simpl; rewrite <-?H2.
  - unfold on_buffer, sputbackc. destruct (past_last r) as [[-> Hn]|(x & -> & Hx)].
    + destruct Hp as (Ha & Hg & He). rewrite Hg, Hn. simpl. by split_and!.
    + destruct (at_place_back iss r x Hp Hx) as (n & -> & -> & Hb). case_decide as Hc; simplify_eq.
      * by rewrite bool_decide_true.
      * rewrite bool_decide_false by congruence. split; [|done]. by destruct iss.
  - unfold on_buffer, sungetc. destruct (past_last r) as [[-> Hn]|(x & -> & Hx)].
    + destruct Hp as (Ha & Hg & He). rewrite Hg, Hn. simpl. by split_and!.
    + destruct (at_place_back iss r x Hp Hx) as (n & -> & -> & Hb). done.
  - done.
  - by destruct s.
  - done.
  - destruct (stream_getline_same iss Hi) as (H1 & H2 & H3). unfold string_stream in H1. rewrite Hr in H1.
    destruct Hp as (Ha & Hg & He). unfold read_line. rewrite <-He, H1. destruct (stream_getline iss) as [l iss']; simpl in *.
    split; [|done]. assert (length (rest (rdbuf iss')) ≤ length (left r)) as Hle.
    { apply (f_equal (λ p, is_rest p.2)) in H1. simpl in H1. rewrite <-H1. unfold getline. simpl.
      pose proof (take_line_shorter (left r)) as Hs. destruct (eofbit iss); simpl; [done|].
      destruct (take_line (left r)) as [[[|x t] []] r']; simpl in *; lia. }
    destruct (moved_to _ (rdbuf iss') r Ha H2 H3 Hle) as (_ & K1 & K2). by split_and!.
Qed.

End RoBuffer.
