(* ===== verification/Report.v ===== *)
(** * Reports: exception.hpp, exception.cpp, backtrace_*.cpp

    [Exceptions] models the exception class, the macros that make its message and
    the printing of nested exceptions, [Backtrace] the printing of the frames of a
    back trace on a stream with its number base. *)

From S2P Require Import Prelude Strings Parse.

Module Exceptions.

Record exception := Exception { what : str; _file : option str; _line : Z }.
Definition file (e : exception) : str := default [] (_file e).
Definition line (e : exception) : Z := _line e.

(** [NSTL2_THROW_EXCEPTION]: the exception thrown at a line of a source file. *)
Definition throw_exception (win32 : bool) (path : str) (line : Z) (detail : str) : exception :=
  let filename := Basename.safe_basename_view win32 path in
  Exception (filename ++ lit ":" ++ Parse.print_Z line ++ lit " - " ++ detail) (Some filename) line.

(** [NSTL2_THROW_EXCEPTION_IF]. *)
Definition throw_exception_if (cond : bool) (win32 : bool) (path : str) (line : Z) (detail : str) : option exception :=
  if cond then Some (throw_exception win32 path line detail) else None.

(** [NSTL_THROW_EXCEPTION] and [NSTL_THROW_EXCEPTION_IF] of macros.hpp, for an error
    type that is constructed from its message. *)
Definition throw_error {E} (error : str → E) (win32 : bool) (path : str) (line : Z) (detail : str) : E :=
  error (Basename.safe_basename_view win32 path ++ lit ":" ++ Parse.print_Z line ++ lit " - " ++ detail).
Definition throw_error_if {E} (cond : bool) (error : str → E) (win32 : bool) (path : str) (line : Z) (detail : str)
    : option E :=
  if cond then Some (throw_error error win32 path line detail) else None.

(** What is nested in an exception: nothing, an exception with a message and what
    is nested in that, or an object of another type. *)
Inductive nested := NotNested | Nested (what : str) (n : nested) | NestedOther.

(** [NSTL2_NESTED_THROW_EXCEPTION] in a handler of [caught]: the exception thrown and
    what is nested in it. *)
Definition throw_nested (caught : nested) (win32 : bool) (path : str) (line : Z) (detail : str) : exception * nested :=
  (throw_exception win32 path line detail, caught).
(** The exception thrown, as another handler catches it. *)
Definition as_caught (x : exception * nested) : nested := Nested (what (fst x)) (snd x).

(** The printing; whether the object of another type escapes. *)
Definition newline_str : str := ["010"%char].
Fixpoint indent (level : nat) (os : ostream) : ostream :=
  match level with O => os | S level => indent level (os_write os (lit " ")) end.
Fixpoint print_exception (os : ostream) (w : str) (n : nested) (level : nat) : ostream * bool :=
  let os := indent level os in
  let os := os_write (os_write os (lit "exception: ")) w in
  match n with
  | NotNested => (os, false)
  | Nested w' n' => print_exception (os_write os newline_str) w' n' (S level)
  | NestedOther => (os, true)
  end.
Definition print (os : ostream) (e : exception) (n : nested) : ostream * bool := print_exception os (what e) n 0.

(** The messages of a chain. *)
Fixpoint messages (n : nested) : list str :=
  match n with Nested w n => w :: messages n | _ => [] end.
Fixpoint escapes (n : nested) : bool :=
  match n with NotNested => false | Nested _ n => escapes n | NestedOther => true end.
Definition report_line (level : nat) (w : str) : str := replicate level " "%char ++ lit "exception: " ++ w.

Lemma indent_text level os : indent level os = os_write os (replicate level " "%char).
Proof.
  revert os. induction level as [|level IH]; intros os; simpl; [by rewrite os_write_nil|]. by rewrite IH, os_write_app.
Qed.

Lemma report_line_free level w : "010"%char ∉ w → "010"%char ∉ report_line level w.
Proof.
  intros Hw. unfold report_line. rewrite !elem_of_app. intros [H|[H|H]]; [|revert H; by apply (bool_decide_unpack _)|done].
  apply elem_of_replicate in H as [H _]. done.
Qed.

Lemma print_exception_lines w n level os :
  "010"%char ∉ w → Forall (λ m, "010"%char ∉ m) (messages n) →
  ∃ text, print_exception os w n level = (os_write os text, escapes n) ∧
    NString.pieces "010"%char text = imap (λ i m, report_line (level + i) m) (w :: messages n).
Proof.
  revert w level os. induction n as [|w' n IH|]; intros w level os Hw Hn; cbn [print_exception escapes messages imap];
    rewrite indent_text, !os_write_app; simpl in Hn; rewrite Nat.add_0_r.
  - eexists. split; [done|]. by apply NString.pieces_last, report_line_free.
  - apply list.Forall_cons in Hn as [Hw' Hn].
    destruct (IH w' (S level) (os_write os (replicate level " "%char ++ lit "exception: " ++ w ++ newline_str)) Hw' Hn)
      as (text & -> & Hp). eexists. split; [by rewrite os_write_app|].
    replace ((replicate level " "%char ++ lit "exception: " ++ w ++ newline_str) ++ text)
      with (report_line level w ++ ("010"%char :: text)) by (unfold report_line; by rewrite <-!(assoc_L (++))).
    rewrite NString.pieces_app by by apply report_line_free. rewrite Hp. cbn [imap]. unfold compose.
    rewrite Nat.add_0_r, Nat.add_1_r. do 2 f_equal. apply imap_ext. intros i m _. simpl. f_equal. lia.
  - eexists. split; [done|]. by apply NString.pieces_last, report_line_free.
Qed.

(** Printing an exception writes one line for it and one for each exception
    nested in it, in order, each indented by its depth, so that the chain of messages
    can be read back; an object of another type at the end escapes to the caller.
    The message the macro makes starts with the name of the source file, which
    [file] returns without its directory, and the line. *)
Theorem exception_report (win32 : bool) (path : str) (l : Z) (detail : str) (n : nested) (os : ostream)
    (e := throw_exception win32 path l detail) :
  "010"%char ∉ what e → Forall (λ m, "010"%char ∉ m) (messages n) →
  (∃ text, print os e n = (os_write os text, escapes n) ∧
     NString.pieces "010"%char text = imap report_line (what e :: messages n)) ∧
  what e = file e ++ lit ":" ++ Parse.print_Z (line e) ++ lit " - " ++ detail ∧
  Basename.path_sep win32 ∉ file e.
Proof.
  intros Hw Hn. split_and!; [by apply print_exception_lines|done|]. apply Basename.safe_basename_view_correct.
Qed.

(** Handlers that each add what they know: the messages of a chain of nested throws are
    those of the throws, the last first. *)
Lemma nested_throws_messages win32 caught (l : list (str * Z * str)) :
  messages (foldl (λ n x, as_caught (throw_nested n win32 x.1.1 x.1.2 x.2)) caught l) =
  reverse ((λ x, what (throw_exception win32 x.1.1 x.1.2 x.2)) <$> l) ++ messages caught.
Proof.
  revert caught. induction l as [|x l IH]; intros caught; [done|]. cbn [foldl]. rewrite IH. csimpl.
  rewrite reverse_cons, <-(assoc_L (++)). done.
Qed.

Lemma exception_report_witness :
  NString.pieces "010"%char (os_out (print (OStream [] false)
    (throw_exception false (lit "src/a.cpp") 12 (lit "bad")) (Nested (lit "inner") NotNested)).1) =
  [lit "exception: a.cpp:12 - bad"; lit " exception: inner"].
Proof.
  destruct (exception_report false (lit "src/a.cpp") 12 (lit "bad") (Nested (lit "inner") NotNested) (OStream [] false))
    as [(text & H1 & H2) _].
  - by apply (bool_decide_unpack _).
  - repeat constructor. by apply (bool_decide_unpack _).
  - rewrite H1. exact H2.
Defined.
End Exceptions.

(** ** Back traces *)

Module Backtrace.

(** A stream and whether its numbers are printed in base sixteen. *)
Record stream := Stream { out : str; hex : bool }.
Definition put (s : str) (os : stream) : stream := Stream (out os ++ s) (hex os).
Definition set_hex (os : stream) : stream := Stream (out os) true.

Definition hex_char (d : Z) : ascii := default "?"%char (lit "0123456789abcdef" !! Z.to_nat d).
Fixpoint print_hex (fuel : nat) (z : Z) : str :=
  match fuel with
  | O => []
  | S fuel => if (z <? 16)%Z then [hex_char z] else print_hex fuel (z / 16) ++ [hex_char (z `mod` 16)]
  end.
Definition number (base16 : bool) (z : Z) : str :=
  if base16 then print_hex (S (Z.to_nat (Z.log2 z))) z else Parse.print_Z z.
Definition put_num (z : Z) (os : stream) : stream := put (number (hex os) z) os.

(** What [backtrace_pcinfo] reports of a frame. *)
Record frame := Frame { pc : Z; filename : option str; lineno : Z; function : option str }.

Definition pc_cb (f : frame) (os : stream) : stream :=
  let fn_view := Basename.safe_basename_view false (default [] (filename f)) in
  let func_view := default [] (function f) in
  let os := if View.empty fn_view then os else put_num (lineno f) (put (lit ":") (put fn_view os)) in
  let os := put (lit ")") (put_num (pc f) (set_hex (put (lit "(") os))) in
  let os := if View.empty func_view then os else put func_view (put (lit " - ") os) in
  put ["010"%char] os.

(** What libbacktrace calls back with: a frame (several for one address when calls were
    inlined), or an error. *)
Inductive answer := Found (f : frame) | BtError (msg : option str) (errnum : Z).
(** The state of the library once it was made, and the error output. *)
Record library := Library { bt_state : bool; cerr : str }.
Definition bt_error_cb (msg : option str) (errnum : Z) (s : library) : library :=
  Library (bt_state s)
    (cerr s ++ lit "BT error (" ++ Parse.print_Z errnum ++ lit "): " ++ default [] msg ++ ["010"%char]).

(** [backtrace_init]: [made] is whether [backtrace_create_state] returns a state, after
    the errors it reported. *)
Definition backtrace_init (made : bool) (errors : list (option str * Z)) (s : library) : library :=
  if bt_state s then s
  else Library made (cerr (foldl (λ s e, bt_error_cb (fst e) (snd e) s) s errors)).

Definition call_back (a : answer) (x : library * stream) : library * stream :=
  match a with
  | Found f => (fst x, pc_cb f (snd x))
  | BtError msg errnum => (bt_error_cb msg errnum (fst x), snd x)
  end.
(** [frame_cb]; [backtrace_pcinfo] is what the library knows of an address. *)
Definition frame_cb (backtrace_pcinfo : Z → list answer) (pc : Z) (x : library * stream) : library * stream :=
  foldl (flip call_back) x (backtrace_pcinfo pc).

(** The first line, of Linux and Windows. *)
Definition header (func file : str) (line : Z) (os : stream) : stream :=
  let os := put (lit "Backtrace") os in
  let os :=
    if View.empty func then os
    else
      let os := put (lit " from ") os in
      let os := if View.empty file then os else put_num line (put (lit ":") (put file os)) in
      put func (put (lit " -> ") os) in
  put (lit ":" ++ ["010"%char]) os.

(** [pr_backtrace] of Linux; [backtrace_simple] walks the stack: addresses and errors. *)
Definition pr_backtrace (backtrace_pcinfo : Z → list answer) (backtrace_simple : list (Z + option str * Z))
    (func file : str) (line : Z) (x : library * stream) : library * stream :=
  let x := (fst x, header func file line (snd x)) in
  if negb (bt_state (fst x)) then x
  else foldl (λ x a, match a with
         | inl pc => frame_cb backtrace_pcinfo pc x
         | inr (msg, errnum) => (bt_error_cb msg errnum (fst x), snd x)
         end) x backtrace_simple.
(** The fallback of backtrace_common.cpp. *)
Definition pr_backtrace_common (func file : str) (line : Z) (os : stream) : stream :=
  if View.empty func then os
  else
    let os := put (lit "Backtrace ") os in
    let os := if View.empty file then os else put_num line (put (lit ":") (put file os)) in
    put func (put (lit " -> ") os).

(** [pr_backtrace] of Windows: the name and the line DbgHelp finds for a frame. *)
Record win_frame := WinFrame { w_pc : Z; w_name : option str; w_line : option (str * Z) }.
Definition win_frame_line (f : win_frame) (os : stream) : stream :=
  let name_view := default (lit "??") (w_name f) in
  match w_line f with
  | Some (path, n) =>
    let fname := Basename.safe_basename_view true path in
    put ["010"%char] (put name_view (put (lit " - ") (put_num n (put (lit ":") (put fname os)))))
  | None => put ["010"%char] (put name_view (put (lit " - ") (put_num (w_pc f) (set_hex os))))
  end.
Definition pr_backtrace_win32 (frames : list win_frame) (func file : str) (line : Z) (os : stream) : stream :=
  foldl (flip win_frame_line) (header func file line os) frames.

(** [GlobalState] of Windows, a static variable of [backtrace_init]: whether it was
    constructed, with the calls of [SymInitialize] and [SymCleanup]. *)
Record symbols := Symbols { constructed : bool; initialised : nat; cleaned : nat }.
Definition backtrace_init_win32 (s : symbols) : symbols :=
  if constructed s then s else Symbols true (S (initialised s)) (cleaned s).
Definition end_of_process (s : symbols) : symbols :=
  if constructed s then Symbols false (initialised s) (S (cleaned s)) else s.

(** The line of a frame, with its line number in one base or the other. *)
Definition frame_line (base16 : bool) (f : frame) : str :=
  let fn := Basename.safe_basename_view false (default [] (filename f)) in
  let func := default [] (function f) in
  (if View.empty fn then [] else fn ++ lit ":" ++ number base16 (lineno f)) ++
  lit "(" ++ number true (pc f) ++ lit ")" ++ (if View.empty func then [] else lit " - " ++ func) ++ ["010"%char].

Lemma pc_cb_line f os : pc_cb f os = Stream (out os ++ frame_line (hex os) f) true.
Proof.
  unfold pc_cb, frame_line, put_num, put, set_hex; simpl.
  destruct (View.empty (Basename.safe_basename_view _ _)), (View.empty (default [] (function f))); simpl;
    by rewrite <-!(assoc_L (++)).
Qed.

(** The base is set for the first address and never set back: the line number of the
    first frame is in the base of the stream, all others are hexadecimal. *)
Lemma backtrace_frames frames os :
  foldl (flip pc_cb) os frames =
  match frames with
  | [] => os
  | f :: l => Stream (out os ++ frame_line (hex os) f ++ concat (frame_line true <$> l)) true
  end.
Proof.
  assert (Hl : ∀ l os, hex os = true → foldl (flip pc_cb) os l = Stream (out os ++ concat (frame_line true <$> l)) true).
  { induction l as [|f l IH]; intros [o h] Hh; simpl in *; subst; [by rewrite app_nil_r|].
    rewrite pc_cb_line, IH by done. simpl. by rewrite <-(assoc_L (++)). }
  destruct frames as [|f l]; [done|]. simpl. rewrite pc_cb_line, Hl by done. simpl. by rewrite <-(assoc_L (++)).
Qed.
(** On Windows the base changes at the first frame without a line. *)
Lemma win_frames_base frames os :
  hex (foldl (flip win_frame_line) os frames) = hex os || existsb (λ f, bool_decide (w_line f = None)) frames.
Proof.
  revert os. induction frames as [|f l IH]; intros os; simpl; [by rewrite orb_false_r|].
  rewrite IH. unfold win_frame_line. destruct (w_line f) as [[path n]|]; simpl; [done|]. by rewrite orb_true_r.
Qed.

(** The frames and the errors of a walk, in order. *)
Definition walk_answers (pcinfo : Z → list answer) (walk : list (Z + option str * Z)) : list answer :=
  walk ≫= λ a, match a with inl pc => pcinfo pc | inr (msg, errnum) => [BtError msg errnum] end.
Definition frames_of (l : list answer) : list frame :=
  omap (λ a, match a with Found f => Some f | BtError _ _ => None end) l.
Definition errors_of (l : list answer) : list (option str * Z) :=
  omap (λ a, match a with Found _ => None | BtError msg errnum => Some (msg, errnum) end) l.

Lemma call_backs l x :
  foldl (flip call_back) x l =
  (foldl (λ s e, bt_error_cb (fst e) (snd e) s) (fst x) (errors_of l), foldl (flip pc_cb) (snd x) (frames_of l)).
Proof.
  revert x. induction l as [|a l IH]; intros [s os]; [done|]. cbn [foldl flip]. rewrite IH. by destruct a.
Qed.

(** A back trace prints its first line and then every frame the walk found, in order;
    the errors go to the error output alone.  Nothing is walked before
    [backtrace_init] made the state, which it does once. *)
Theorem backtrace_printed pcinfo walk func file line s os :
  let l := walk_answers pcinfo walk in
  pr_backtrace pcinfo walk func file line (s, os) =
    (if bt_state s
     then (foldl (λ s e, bt_error_cb (fst e) (snd e) s) s (errors_of l),
           foldl (flip pc_cb) (header func file line os) (frames_of l))
     else (s, header func file line os)) ∧
  (∀ made errors made' errors', backtrace_init made' errors' (backtrace_init true errors s) = backtrace_init true errors s ∧
     (bt_state s = true → backtrace_init made errors s = s)).
Proof.
  cbv zeta. split.
  - unfold pr_backtrace. simpl. destruct (bt_state s); simpl; [|done].
    rewrite <-(call_backs _ (s, header func file line os)). generalize (s, header func file line os) as x.
    unfold walk_answers. induction walk as [|[pc|[msg errnum]] walk IH]; intros x; csimpl; [done| |]; rewrite IH; [|done].
    by rewrite foldl_app.
  - intros made errors made' errors'. unfold backtrace_init. by destruct (bt_state s) eqn:E; simpl; rewrite ?E.
Qed.

(** The symbols are initialised by the first call alone and cleaned up once. *)
Lemma symbols_once n :
  end_of_process (Nat.iter n backtrace_init_win32 (Symbols false 0 0)) =
  Symbols false (if n then 0 else 1) (if n then 0 else 1).
Proof.
  destruct n as [|n]; [done|]. rewrite Nat.iter_succ_r. unfold backtrace_init_win32 at 2. simpl.
  assert (Nat.iter n backtrace_init_win32 (Symbols true 1 0) = Symbols true 1 0) as -> by (induction n as [|n IH]; [done|]; simpl; by rewrite IH).
  done.
Qed.

Example line_number_in_hex :
  let found := λ pc, [Found (Frame pc (Some (lit "a.cpp")) 10 None)] in
  out (pr_backtrace found [inl 4096; inl 4097]%Z [] [] 0 (Library true [], Stream [] false)).2 =
  lit "Backtrace:" ++ ["010"%char] ++ lit "a.cpp:10(1000)" ++ ["010"%char] ++ lit "a.cpp:a(1001)" ++ ["010"%char].
Proof. reflexivity. Qed.
End Backtrace.
