(* ===== verification/SpfResolver.v ===== *)
(** * The command line of spf_resolver: spf_resolver/main.cpp

    The program only parses its arguments.  Boost.Program_options is a parameter: the
    parser, the notification that checks required options and fills the two variables,
    and the text of the description. *)

From S2P Require Import Prelude Strings.

Module Spf.

Record world := World { cout : str; cerr : str }.
Definition endl : str := ["010"%char].
Definition put_out (s : str) : M world () := mmodify (λ w, World (cout w ++ s) (cerr w)).
Definition put_err (s : str) : M world () := mmodify (λ w, World (cout w) (cerr w ++ s)).

Definition EXIT_SUCCESS : Z := 0.
Definition EXIT_FAILURE : Z := 1.

Section program.
Context {variables_map : Type}.
Context (parse_command_line : list str → res variables_map).
(** The values of [domain_name] and [show_help] after [notify]. *)
Context (notify : variables_map → res (str * bool)).
Context (desc : str) (what : exn → str).

Definition main (argv : list str) : M world Z :=
  match vm ← parse_command_line argv; notify vm with
  | Throw exc =>
    put_err (lit "Failed argument processing:" ++ endl ++ what exc ++ endl ++ endl);;
    put_out (desc ++ endl);;
    mret EXIT_FAILURE
  | Ok (domain_name, show_help) =>
    if show_help : bool then put_out (desc ++ endl);; mret EXIT_FAILURE else mret EXIT_SUCCESS
  end.

(** The program returns for every argument vector: with success and no output when the
    arguments are accepted and help is not asked for, else with failure and the
    description, after the reason when they were not accepted. *)
Theorem spf_main_ends argv w :
  ∃ w' code, main argv w = (w', Ok code) ∧
    (code = EXIT_SUCCESS ↔ ∃ vm domain, parse_command_line argv = Ok vm ∧ notify vm = Ok (domain, false)) ∧
    (code = EXIT_SUCCESS → w' = w) ∧
    (code ≠ EXIT_SUCCESS → code = EXIT_FAILURE ∧ cout w' = cout w ++ desc ++ endl ∧
       (cerr w' = cerr w ↔ ∃ vm domain, parse_command_line argv = Ok vm ∧ notify vm = Ok (domain, true))).
Proof.
  assert (Hne : ∀ e, cerr w ++ (lit "Failed argument processing:" ++ endl ++ what e ++ endl ++ endl) ≠ cerr w).
  { intros e Ha. apply (f_equal length) in Ha. rewrite length_app in Ha. simpl in Ha. lia. }
  unfold main. munfold_goal. destruct (parse_command_line argv) as [vm|e]; simpl.
  - destruct (notify vm) as [[domain []]|e] eqn:En; simpl; eexists _, _; (split; [done|]); split_and!.
    + split; [done|]. intros (vm' & d & [= <-] & ?). congruence.
    + done.
    + intros _. split_and!; [done..|]. split; eauto.
    + split; eauto.
    + done.
    + done.
    + split; [done|]. intros (vm' & d & [= <-] & ?). congruence.
    + done.
    + intros _. split_and!; [done..|]. simpl. split; [by intros ?%Hne|]. intros (vm' & d & [= <-] & ?). congruence.
  - eexists _, _. split; [done|]. split_and!.
    + split; [done|]. intros (vm' & d & ? & ?). congruence.
    + done.
    + intros _. split_and!; [done..|]. simpl. split; [by intros ?%Hne|]. intros (vm' & d & ? & ?). congruence.
Qed.

(** [notify] throws when the required domain is missing, which is checked before the
    request for help: asking for help alone is answered with an error. *)
Lemma help_alone_fails argv vm e w :
  parse_command_line argv = Ok vm → notify vm = Throw e → cerr (main argv w).1 ≠ cerr w.
Proof.
  intros Hp Hn. unfold main. munfold_goal. rewrite Hp. simpl. rewrite Hn. simpl.
  intros Ha. apply (f_equal length) in Ha. rewrite length_app in Ha. simpl in Ha. lia.
Qed.
End program.
End Spf.
